(* ===== verification/_CoqProject ===== *)
-Q . S2P
Prelude.v
Errors.v
Buffer.v
SharedBinary.v
SharedFunction.v
OpQueue.v
Strand.v
StrandAtomic.v
Scheduler.v
SchedulerWake.v
Reactor.v
ReactorEvents.v
ReactorSocket.v
WriteOp.v
MsgpackObject.v
MsgpackParse.v
MsgpackFacts.v
MsgpackEvents.v
MsgpackUnpack.v
MsgpackAdaptor.v
MsgpackContainers.v
MsgpackMaps.v
MsgpackTypes.v
Message.v
StreamParser.v
FmtInt.v
FormatMessage.v
Fmt.v
FmtSpecs.v
FmtBigint.v
FmtDragon.v
FmtCached.v
FmtGrisu.v
FmtFloat.v
FormatFloats.v
Logging.v
Compressor.v
StreamSocket.v
TcpPeer.v
Future.v
ThreadPool.v
Client.v
MethodServer.v
ServerBase.v
Server.v
SessionRemoval.v
System.v
CallOrder.v
MultiSystem.v
TcpSystem.v
Udp.v
Zstd.v
ZstdStream.v
Config.v
Transport.v
Builder.v
PythonHelper.v
