(* ===== verification/Prelude.v ===== *)
(** * Verification of mpRPC

    mpRPC is a library for remote procedure calls in the MessagePack-RPC protocol. A client
    packs a request, a transport (TCP with a byte stream, UDP with datagrams, optionally
    compressed with zstd) carries it to a server, which parses it, executes the method that is
    registered under its name on a thread pool, and sends the response back, which completes
    the future of the request. This library models these parts as functions and step relations
    and proves what makes them correct, from the bytes of a message up to the calls of a
    client and a server that run together. Paths below are relative to the source tree.

    ** Parts and files

    - [Prelude]: machine integers, bytes, big-endian integers, [outcome] (a value or an
      exception), shared lemmas, tactics and hints.
    - [Errors]: include/mprpc/error_code.h, error_info.h, exception.h, require_nonull.h,
      message_data.h.
    - [Buffer]: include/mprpc/buffer.h. [SharedBinary]: src/shared_binary.cpp.
      [SharedFunction]: extern/cpp-stl-ext/include/stl_ext/shared_any.h and shared_function.h,
      the type of all handlers.
    - [OpQueue], [Strand], [StrandAtomic], [Scheduler], [SchedulerWake]: the queues, strands and
      scheduler of asio in extern/asio/asio/include/asio/detail (op_queue.hpp,
      strand_executor_service, impl/scheduler.ipp, posix_event.hpp), on which every handler
      runs. The last one holds the argument about wake-ups. [Reactor], [ReactorEvents]: the
      reactor on epoll (impl/epoll_reactor.ipp) beside its scheduler, and why no event is lost.
      [ReactorSocket]: the operations on sockets that it runs (impl/socket_ops.ipp and the
      reactive_socket operations). [WriteOp]: [asio::async_write] (impl/write.hpp).
    - [MsgpackObject], [MsgpackParse], [MsgpackUnpack], [MsgpackAdaptor]: the parts of
      extern/msgpack-c that mpRPC runs on every message (packer, parser with any visitor,
      unpacking, typed conversion); [MsgpackContainers] and [MsgpackMaps]: the adaptors of
      64-bit integers, vectors, pairs, shared pointers, maps and sets, for the parameters and
      results of methods; [MsgpackTypes]: all types that they compose. [MsgpackFacts] and [MsgpackEvents] hold the theory of the parser:
      progress, prefixes and extensions, and the events of a packed object.
    - [Message]: include/mprpc/message.h, message_def.h, pack_data.h.
    - [StreamParser]: include/mprpc/transport/parser.h (classes [StreamingParser] and
      [StreamingParserSpec]) and impl/mprpc/transport/parsers/impl/msgpack_parser_impl.h
      (the instance). [Compressor]: include/mprpc/transport/compressor.h and null_compressor.h.
      [Zstd]: the zstd compressors and parsers in impl/mprpc/transport; [ZstdStream]: a
      connection made of them.
    - [FormatMessage]: src/format_message.cpp. [Fmt], [FmtInt], [FmtSpecs]: in
      extern/fmt/include/fmt/format.h, core.h and format-inl.h, the parser of format strings,
      integers as text, and format specifiers with the formatting of arguments. [FmtBigint],
      [FmtDragon], [FmtCached], [FmtGrisu], [FmtFloat]: floating-point numbers in the same
      files, from the arithmetic of long integers to the text, and [FormatFloats] those in
      formatted messages. [Logging]:
      include/mprpc/logging/, the logger on spdlog and the one of the Python bindings.
    - [StreamSocket]: impl/mprpc/transport/asio_helper/stream_socket_helper.h. [TcpPeer]: the
      same with its strand, as one end of a TCP connection (tcp_session.h, tcp_connector.h).
    - [Future]: include/mprpc/response_future.h, typed_response_future.h. [ThreadPool]:
      src/thread_pool.cpp. [Client]: include/mprpc/client.h, method_client.h.
    - [MethodServer]: include/mprpc/execution/. [ServerBase]: include/mprpc/impl/server_base.h,
      for any server. [Server]: include/mprpc/server.h. [SessionRemoval]: the removal of a
      session with [tcp_session::shutdown], at the level of threads.
    - [System]: a client and a server that exchange whole messages; no code of its own, it
      composes the above. [CallOrder]: requests and notifications, and what they do to the
      server. [MultiSystem]: many clients that come and go, and one server.
      [TcpSystem]: a client and a server over the two ends of a TCP connection and the bytes
      between them.
    - [Udp]: impl/mprpc/transport/udp/impl/.
    - [Config]: include/mprpc/config/, the configuration structures and src/config/load.cpp.
    - [Transport]: src/transport/tcp/tcp.cpp, src/transport/udp/udp.cpp, the factories and the
      acceptor of impl/mprpc/transport/tcp/impl/. [Builder]: include/mprpc/server_builder.h,
      client_builder.h.
    - [PythonHelper]: python/mprpc_cpp/include/mprpc/python_client_helper.h and
      python_server_helper.h, the C++ side of the Python bindings.

    ** How the code is modelled

    - A [std::size_t] or [std::uint32_t] is an integer, with the wrap-around written out where
      the code computes at its width ([wrap64], [wrap32]).
    - Memory that is written before it is read by other components ([buffer]) is a list of
      cells that may be uninitialised; reading such a cell is [None]. Reference-counted blocks
      and the promises of a client live in heaps (finite maps), so aliasing is explicit.
    - Exceptions are values of [exn], the class hierarchy tested by the [catch] clauses is in
      the matches. [None] outside of a result is undefined behaviour or a loop without end;
      the theorems show that it does not occur.
    - Asynchronous code is a state machine: a posted function or a completion handler is one
      step, because the code runs it under a mutex or on a strand; operations started on a
      socket, functions posted to a thread pool and handlers called are part of the state or of
      the answer of the step. Interleavings are sequences of steps ([history], [sys_step],
      [net_step], [client_step], [tcp_step], [removal_step], [pool_history]).
    - That strands and the scheduler allow this view is shown below the level of these steps:
      [Strand], [Scheduler] and [Reactor] have a step per section under a mutex and per action
      between two sections, and any number of threads ([strand_step], [sched_step],
      [reactor_step]). The kernel below the reactor is a class with laws ([Kernel],
      [KernelSpec]), which the operations on sockets satisfy when their system calls satisfy
      those of another ([Socket], [SocketSpec]); the theorems are stated for these.
    - Code that is not in the source tree or only called is a parameter: allocation
      ([alloc_ok]), the zstd library (a record with its documented laws), the operating system
      and the resolver ([network]), the address of a client, which can be asked for only while
      it is connected, the TOML reader,
      the functions of the user and the processors written in Python (state transformers that
      may throw), the formatting of the argument types (a class). Every law has an
      instance in a witness.

    ** What is shown

    - MessagePack: packing and unpacking are inverse for all representable objects, parsing is
      self-delimiting for every visitor, values of all types survive the trip ([unpack_pack_roundtrip],
      [parse_self_delimiting], [typed_roundtrip]); what maps and sets make of repeated
      keys ([map_last_wins], [map_as_first_wins], [multimap_keeps_all], [set_holds_items]).
    - Messages: requests and responses are received as sent, constructed messages are well
      formed, and the exceptions of the constructor are classified ([request_roundtrip],
      [response_roundtrip], [message_make_wf], [message_make_errors]).
    - Memory: the buffer refines a byte vector, shared binary data is free of leaks, double
      frees and uses after free, and refines plain values ([buffer_refines_vector],
      [calculate_next_capacity_bounds], [shared_binary_memory_safe],
      [shared_binary_refines_values]); shared functions are called at their own type and live
      as long as they are shared ([shared_function_safe]).
    - Threads: the queues of operations are lists ([op_queue_refines]); a strand runs one
      function at a time in the order of submission and forgets none ([strand_refines_serial],
      [strand_exclusive], [strand_drains]), so that a function on a strand acts as one step on
      a state without a lock ([strand_atomic], [strand_function_ends]); the scheduler starts
      what it was given in order, counts the work rightly ([scheduler_accounts]) and lets no
      thread sleep on work ([scheduler_drains]), except after an exception
      ([scheduler_loses_wakeup]).
    - Input and output: the reactor completes every operation once and counts it rightly
      ([reactor_accounts]); on sockets it loses no event of epoll although each is reported
      once ([reactor_no_lost_event]), and the threads come to rest only with operations whose
      sockets are not ready ([reactor_settles]); a write of a message sends all its bytes in order, however the
      socket cuts it ([async_write_completes]). A read after the end of a stream and an accept
      behind an aborted connection are left waiting ([read_after_eof_waits],
      [accept_waits_behind_aborted]).
    - Streams: the streaming parsers implement the interface, a socket delivers the messages
      of the byte stream however it is cut, and writes in order, also when a write fails
      ([msgpack_streaming_parser_correct], [zstd_stream_refines], [socket_delivery],
      [socket_delivers_all], [socket_read_total], [socket_write_order], [stream_end_to_end]);
      messages survive a compressed connection ([zstd_stream_end_to_end]).
    - Calls: a future runs one handler once; message IDs are unique and the search for one
      ends; responses are routed to their request; methods are executed once; a client and a
      server never mix up or lose a call ([future_runs_once], [typed_future_one_call],
      [async_request_terminates], [response_routed], [method_request_executed],
      [rpc_no_crosstalk], [rpc_all_answered], [udp_request_served]), and neither do many
      clients of one server, whose tasks end in any order, also when clients go away while their
      requests are executed ([clients_isolated]); requests and notifications are executed in
      the order of the calls ([calls_in_order]).
    - The whole over TCP: the system with strands, write queues, bytes in any pieces and
      parsers implements the one with whole messages ([tcp_rpc_refines]), so calls are not
      mixed up ([rpc_over_tcp]), and all steps after the calls of the user come to an end with
      every call answered ([tcp_drains]).
    - Python servers: exceptions are contained, messages processed in order, and servers are
      created as the C++ builder does ([python_server_contains_exceptions],
      [python_server_in_order], [python_create_equivalent]).
    - Logs, configuration and construction: [format_message_renders], [format_message_bounded],
      [fmt_loops_agree], [fmt_integers_exact], [fmt_integer_field], [log_written_once],
      [format_float_exact], [write_exact], [fallback_format_shortest], [grisu_size],
      [config_load_valid], [config_order_irrelevant], [server_builder_creates],
      [tcp_connects_first], [tcp_accept_answers], [zstd_datagram_roundtrip].
    - Errors the code handles badly are stated as they are: [udp_truncated_stops_server],
      [answered_request_breaks_errors], [socket_write_error_stalls], [tcp_version_stuck],
      [pool_threads_lost], [scheduler_loses_wakeup], [removal_late_dangles],
      [moved_function_confused], [python_client_reads_once], and on a smaller scale
      ([zstd_pending_stuck], [unknown_method_not_answered], [format_limit_wraps],
      [config_integers_wrap], [missing_params_defaulted], [constant_message_formatted],
      [grouped_sign_wrong], [brace_taken_for_fill], [width_missed], [fixed_carry_short],
      [general_precision_zero], [precision_capped], [subtract_borrow_lost]).

    ** Bounds and fuel

    The parser loop takes as fuel the number of bytes, since every iteration consumes
    a byte ([MsgpackFacts]). The growth loop of the buffer has fuel 64: the capacity doubles
    below 2^64. The search for a message ID has as many turns as the table has entries, plus
    one. The decompression loop is given one more turn than bytes to produce, since it goes on
    only after a full output buffer. The read of a UDP session has two turns: the second read
    fails. The destructor of a queue has a turn per operation. The loops of the formatter have
    one turn per character, plus one; those over the digits of a number one per bit. A system
    call is repeated once more than there are signals, and a write of a message offers the
    stream at most one piece per byte. A division for a digit subtracts at most ten times, the
    shortest digits are at most 21, and the fast algorithm gives at most 19 digits after the
    point before it gives up. Each bound is proved to be enough by the theorem about the operation.

    ** Not modelled

    What spdlog does with a message (sinks, patterns, files), timeouts of synchronous requests
    beyond their answer, the Python code and the tables of functions exported to it, the
    adaptors of floating point numbers and of the unordered containers, the shortest digits of a
    floating-point number (Dragonbox) and its hexadecimal format in fmt, benchmarks, examples and
    tests, and the rest of the code under extern/: of asio the resolver, the timers and the
    interrupter of the reactor, datagrams and the polling functions of the scheduler. *)

From Stdlib Require Strings.Byte.
From stdpp Require Export base tactics list numbers strings option.

Open Scope Z_scope.

(** ** Machine integers *)

(** [std::size_t] of the modelled LP64 platform. *)
Definition size_max : Z := 2 ^ 64 - 1.
Definition wrap64 (z : Z) : Z := z mod 2 ^ 64.
Definition wrap32 (z : Z) : Z := z mod 2 ^ 32.

(** Two's complement reading of a [w]-bit pattern. *)
Definition to_signed (w : Z) (z : Z) : Z :=
  if z <? 2 ^ (w - 1) then z else z - 2 ^ w.

Lemma to_signed_mod w z :
  0 < w → - 2 ^ (w - 1) ≤ z < 2 ^ (w - 1) → to_signed w (z mod 2 ^ w) = z.
Proof.
  intros Hw Hz. unfold to_signed.
  assert (2 ^ w = 2 * 2 ^ (w - 1)) as Hp.
  { rewrite <- Z.pow_succ_r by lia. f_equal. lia. }
  assert (0 < 2 ^ (w - 1)) by (apply Z.pow_pos_nonneg; lia).
  destruct (Z.ltb_spec0 z 0) as [Hneg|Hpos].
  - rewrite <- (Z.mod_unique z (2 ^ w) (-1) (z + 2 ^ w)) by lia.
    destruct (Z.ltb_spec0 (z + 2 ^ w) (2 ^ (w - 1))); lia.
  - rewrite Z.mod_small by lia.
    destruct (Z.ltb_spec0 z (2 ^ (w - 1))); lia.
Qed.

(** ** Bytes *)

Abbreviation byte := Corelib.Init.Byte.byte.

Definition byte_to_Z (b : byte) : Z := Z.of_N (Byte.to_N b).
Definition Z_to_byte (z : Z) : byte :=
  match Byte.of_N (Z.to_N (z mod 256)) with Some b => b | None => Byte.x00 end.

#[export] Instance byte_eq_decision : EqDecision byte := Byte.byte_eq_dec.

Lemma byte_to_Z_range b : 0 ≤ byte_to_Z b < 256.
Proof. unfold byte_to_Z. pose proof (Byte.to_N_bounded b). lia. Qed.

Lemma byte_to_Z_to_byte z : byte_to_Z (Z_to_byte z) = z mod 256.
Proof.
  unfold byte_to_Z, Z_to_byte.
  pose proof (Z.mod_pos_bound z 256 ltac:(lia)) as Hb.
  destruct (Byte.of_N (Z.to_N (z mod 256))) as [b|] eqn:E.
  - apply Byte.to_of_N in E. lia.
  - apply Byte.of_N_None_iff in E. lia.
Qed.

Lemma byte_to_Z_inj a b : byte_to_Z a = byte_to_Z b → a = b.
Proof.
  unfold byte_to_Z. intros H%N2Z.inj.
  pose proof (Byte.of_to_N a) as Ha. pose proof (Byte.of_to_N b) as Hb.
  rewrite H in Ha. congruence.
Qed.

Lemma Z_to_byte_to_Z b : Z_to_byte (byte_to_Z b) = b.
Proof.
  apply byte_to_Z_inj. rewrite byte_to_Z_to_byte.
  apply Z.mod_small, byte_to_Z_range.
Qed.

(** ** Big-endian integers ([_msgpack_store16/32/64] and [load] of msgpack-c) *)

Fixpoint be_store (n : nat) (z : Z) : list byte :=
  match n with
  | O => []
  | S n' => Z_to_byte (z / 256 ^ Z.of_nat n') :: be_store n' z
  end.

Fixpoint be_load (l : list byte) : Z :=
  match l with
  | [] => 0
  | b :: l' => byte_to_Z b * 256 ^ Z.of_nat (length l') + be_load l'
  end.

Lemma length_be_store n z : length (be_store n z) = n.
Proof. induction n; simpl; congruence. Qed.

Lemma pow256_pos n : 0 < 256 ^ Z.of_nat n.
Proof. apply Z.pow_pos_nonneg; lia. Qed.

Lemma pow256_succ n : 256 ^ Z.of_nat (S n) = 256 * 256 ^ Z.of_nat n.
Proof. rewrite Nat2Z.inj_succ, Z.pow_succ_r by lia. reflexivity. Qed.

Lemma be_load_store n z : be_load (be_store n z) = z mod 256 ^ Z.of_nat n.
Proof.
  induction n as [|n IH].
  - simpl. rewrite Z.mod_1_r. reflexivity.
  - cbn [be_store be_load]. rewrite IH, length_be_store, byte_to_Z_to_byte, pow256_succ.
    pose proof (pow256_pos n).
    rewrite (Z.mul_comm 256), Z.rem_mul_r by lia. lia.
Qed.

Lemma be_load_range l : 0 ≤ be_load l < 256 ^ Z.of_nat (length l).
Proof.
  induction l as [|b l IH]; [simpl; lia|].
  cbn [be_load length]. rewrite pow256_succ.
  pose proof (byte_to_Z_range b). pose proof (pow256_pos (length l)). nia.
Qed.

Lemma be_load_store_small n z :
  0 ≤ z < 256 ^ Z.of_nat n → be_load (be_store n z) = z.
Proof. intros. rewrite be_load_store. by apply Z.mod_small. Qed.

(** ** Outcomes of C++ functions: a value or a thrown exception *)

Inductive outcome (E A : Type) : Type :=
| Ok (a : A)
| Throw (e : E).
Arguments Ok {E A} a.
Arguments Throw {E A} e.

Definition outcome_bind {E A B} (m : outcome E A) (k : A → outcome E B) : outcome E B :=
  match m with Ok a => k a | Throw e => Throw e end.

(** A C++ [try]/[catch]: the handler answers [None] for exceptions it does not catch. *)
Definition try_catch {E A} (m : outcome E A) (h : E → option (outcome E A)) : outcome E A :=
  match m with
  | Ok a => Ok a
  | Throw e => match h e with Some m' => m' | None => Throw e end
  end.

Declare Scope outcome_scope.
Delimit Scope outcome_scope with outcome.
Notation "'let!' x ':=' m 'in' k" := (outcome_bind m (λ x, k))
  (at level 10, x pattern, m at level 100, k at level 200) : outcome_scope.
Notation "m ;; k" := (outcome_bind m (λ _, k))
  (at level 100, k at level 200, right associativity) : outcome_scope.

Lemma outcome_bind_Ok_inv {E A B} (m : outcome E A) (k : A → outcome E B) b :
  outcome_bind m k = Ok b → ∃ a, m = Ok a ∧ k a = Ok b.
Proof. destruct m; simpl; [eauto|discriminate]. Qed.

(** ** Lists *)

Lemma drop_take_app {A} (pre l rest : list A) n :
  n = length l → take n (drop (length pre) (pre ++ l ++ rest)) = l.
Proof. intros ->. by rewrite drop_app_length, take_app_length. Qed.

Lemma string_of_list_byte_length l :
  String.length (String.string_of_list_byte l) = length l.
Proof. unfold String.string_of_list_byte. induction l; simpl; congruence. Qed.

(** A boolean fact about the integers below [n], by evaluation. *)
Lemma Z_below (P : Z → bool) (n : nat) :
  forallb P (map Z.of_nat (seq 0 n)) = true → ∀ z, 0 ≤ z < Z.of_nat n → P z = true.
Proof.
  rewrite forallb_forall. intros Hall z Hz. apply Hall, List.in_map_iff.
  exists (Z.to_nat z). split; [lia|]. apply List.in_seq. lia.
Qed.

Lemma Z_below_dec (P : Z → Prop) `{∀ z, Decision (P z)} (n : nat) :
  forallb (λ z, bool_decide (P z)) (map Z.of_nat (seq 0 n)) = true → ∀ z, 0 ≤ z < Z.of_nat n → P z.
Proof. intros Hall z Hz. exact (proj1 (bool_decide_eq_true _) (Z_below _ n Hall z Hz)). Qed.

(** The low bits of a header byte and the length they hold. *)
Definition header_bits (base bits : Z) (k : Z) : bool :=
  (Z.lor base k =? base + k) && (Z.land (base + k) bits =? k).

Lemma header_bits_spec base bits (n : nat) k :
  forallb (header_bits base bits) (map Z.of_nat (seq 0 n)) = true → 0 ≤ k < Z.of_nat n →
  Z.lor base k = base + k ∧ Z.land (base + k) bits = k.
Proof.
  intros Hall Hk. pose proof (Z_below _ _ Hall k Hk) as Hb. unfold header_bits in Hb.
  apply andb_prop in Hb as [?%Z.eqb_eq ?%Z.eqb_eq]. done.
Qed.

(** ** Proof automation *)

Create HintDb mprpc.
Create Rewrite HintDb mprpc.
#[export] Hint Resolve byte_to_Z_range be_load_range pow256_pos : mprpc.
#[export] Hint Rewrite length_be_store byte_to_Z_to_byte Z_to_byte_to_Z : mprpc.

(** Case analysis on the boolean comparison that blocks the goal. *)
Ltac zcase :=
  match goal with
  | |- context [?a <? ?b] => destruct (Z.ltb_spec0 a b)
  | |- context [?a <=? ?b] => destruct (Z.leb_spec0 a b)
  | |- context [?a =? ?b] => destruct (Z.eqb_spec a b)
  end; try lia.

