(* ===== verification/Errors.v ===== *)
(** Error codes, error information, exceptions and null checks.

    Models include/mprpc/error_code.h, include/mprpc/error_info.h,
    include/mprpc/exception.h, include/mprpc/require_nonull.h and the value view of
    include/mprpc/message_data.h (the reference-counted representation behind it is in
    [SharedBinary]). *)

From S2P Require Import Prelude.

(** ** Message data, seen by value

    A [message_data] is a [shared_binary]: either no data ([impl_] is null) or a vector of
    bytes. *)
Abbreviation message_data := (option (list byte)).

Module message_data_ops.
Definition has_data (d : message_data) : bool :=
  match d with Some _ => true | None => false end.
(** The bytes [data()] points to; a null pointer when there are none. *)
Definition data (d : message_data) : option (list byte) := d.
Definition bytes (d : message_data) : list byte := default [] d.
Definition size (d : message_data) : Z := Z.of_nat (length (bytes d)).
End message_data_ops.

(** ** Error codes *)

Definition error_code_t : Type := Z.

Module error_code.
(** [common_errors] *)
Definition success : error_code_t := 0.
Definition unexpected_error : error_code_t := 1.
Definition unexpected_nullptr : error_code_t := 2.
Definition common_errors : list error_code_t :=
  [success; unexpected_error; unexpected_nullptr].

(** [message_errors] *)
Definition parse_error : error_code_t := 100.
Definition invalid_message : error_code_t := 101.
Definition message_errors : list error_code_t := [parse_error; invalid_message].

(** [network_errors] *)
Definition eof : error_code_t := 200.
Definition failed_to_listen : error_code_t := 201.
Definition failed_to_accept : error_code_t := 202.
Definition failed_to_resolve : error_code_t := 203.
Definition failed_to_connect : error_code_t := 204.
Definition failed_to_read : error_code_t := 205.
Definition failed_to_write : error_code_t := 206.
Definition network_errors : list error_code_t :=
  [eof; failed_to_listen; failed_to_accept; failed_to_resolve; failed_to_connect;
   failed_to_read; failed_to_write].

(** [execution_errors], [future_errors] *)
Definition method_not_found : error_code_t := 300.
Definition execution_errors : list error_code_t := [method_not_found].
Definition invalid_future_use : error_code_t := 400.
Definition future_errors : list error_code_t := [invalid_future_use].

(** [config_errors], [client_errors] *)
Definition invalid_config_value : error_code_t := 500.
Definition config_parse_error : error_code_t := 501.
Definition config_errors : list error_code_t :=
  [invalid_config_value; config_parse_error].
Definition timeout : error_code_t := 600.
Definition client_errors : list error_code_t := [timeout].
End error_code.

(** ** Error information *)

(** [error_info::inner_data] *)
Record inner_data := mk_inner_data {
  code_ : error_code_t;
  message_ : string;
  data_ : option message_data;
}.

(** [error_info]: a shared pointer to the inner data, null when there is no error. *)
Definition error_info : Type := option inner_data.

Module error_info_ops.
(** The three constructors. *)
Definition no_error : error_info := None.
Definition make (code : error_code_t) (message : string) : error_info :=
  Some (mk_inner_data code message None).
Definition make_with_data (code : error_code_t) (message : string) (d : message_data) :
    error_info :=
  Some (mk_inner_data code message (Some d)).

Definition has_error (e : error_info) : bool :=
  match e with Some _ => true | None => false end.
Definition code (e : error_info) : error_code_t :=
  match e with Some i => code_ i | None => error_code.success end.
Definition message (e : error_info) : string :=
  match e with Some i => message_ i | None => "" end.
Definition has_data (e : error_info) : bool :=
  match e with Some i => match data_ i with Some _ => true | None => false end | None => false end.
Definition data (e : error_info) : message_data :=
  match e with
  | Some i => match data_ i with Some d => d | None => None end
  | None => None
  end.
End error_info_ops.

(** ** Exceptions

    The exception classes that cross the modelled code, with the class hierarchy the
    [catch] clauses test: msgpack-c's [parse_error], [insufficient_bytes] and
    [size_overflow] all derive from [unpack_error] (a [std::runtime_error]), none of them
    from another; [type_error] is a [std::bad_cast]. *)
Inductive exn : Type :=
| mprpc_exception (info : error_info)
| msgpack_parse_error (what_arg : string)
| msgpack_insufficient_bytes (what_arg : string)
| msgpack_size_overflow (what_arg : string)
| msgpack_type_error
| msgpack_container_size_overflow (what_arg : string)
| toml_exception (what_arg : string)
| std_runtime_error (what_arg : string)
| std_out_of_range (what_arg : string)
| std_bad_alloc
| std_exception (what_arg : string).

Abbreviation result := (outcome exn).

Module exception_ops.
(** [exception::what] returns the message of the error information; the others their
    constructor argument. *)
Definition what (e : exn) : string :=
  match e with
  | mprpc_exception info => error_info_ops.message info
  | msgpack_parse_error w | msgpack_insufficient_bytes w | msgpack_size_overflow w
  | msgpack_container_size_overflow w | toml_exception w | std_runtime_error w
  | std_out_of_range w | std_exception w => w
  | msgpack_type_error => "std::bad_cast"
  | std_bad_alloc => "std::bad_alloc"
  end.
End exception_ops.

(** [throw exception(error_info(code, message))] and its variant with data. *)
Definition throw_error {A} (code : error_code_t) (msg : string) : result A :=
  Throw (mprpc_exception (error_info_ops.make code msg)).
Definition throw_error_data {A} (code : error_code_t) (msg : string) (d : message_data) :
    result A :=
  Throw (mprpc_exception (error_info_ops.make_with_data code msg d)).

(** ** Null checks *)

(** [require_nonull] and [require_nonull_move]: pointers are options, null is [None]. *)
Definition require_nonull {A} (ptr : option A) (name where_ : option string) : result A :=
  match name with
  | None =>
      throw_error error_code.unexpected_nullptr
        "unexpected null pointer for name at mprpc::require_nonull"
  | Some name =>
      match where_ with
      | None =>
          throw_error error_code.unexpected_nullptr
            "unexpected null pointer for where at mprpc::require_nonull"
      | Some where_ =>
          match ptr with
          | None =>
              throw_error error_code.unexpected_nullptr
                ("unexpected null pointer for " +:+ name +:+ " at " +:+ where_)
          | Some p => Ok p
          end
      end
  end.

(** ** Theorems *)

(** The result of a null check tells whether the pointer was null: the macro always passes
    a name and a place, so the only failure is [unexpected_nullptr] for the pointer. *)
Lemma require_nonull_spec {A} (ptr : option A) name where_ :
  require_nonull ptr (Some name) (Some where_) =
  match ptr with
  | Some p => Ok p
  | None =>
      Throw (mprpc_exception (Some (mk_inner_data error_code.unexpected_nullptr
        ("unexpected null pointer for " +:+ name +:+ " at " +:+ where_) None)))
  end.
Proof. by destruct ptr. Qed.

Lemma error_codes_NoDup_aux :
  NoDup (error_code.common_errors ++ error_code.message_errors ++ error_code.network_errors ++
    error_code.execution_errors ++ error_code.future_errors ++ error_code.config_errors ++
    error_code.client_errors).
Proof. apply (bool_decide_unpack _). vm_compute. exact I. Qed.
