(* ===== verification/Buffer.v ===== *)
(** The growable byte buffer: include/mprpc/buffer.h.

    The heap block [data_] points to is a list of cells, one per byte of the capacity; a
    cell is [None] while its content is indeterminate (fresh [malloc]/[realloc] memory).
    Whether the C allocator can serve a request is a parameter [alloc_ok]. An operation
    that calls the growth loop answers [None] if the loop does not terminate. *)

From S2P Require Import Prelude Errors.

Definition cell : Type := option byte.

Record buffer := mk_buffer {
  mem : list cell;
  size_ : Z;
  capacity_ : Z;
}.

Definition max_size : Z := size_max.

(** The loop of [calculate_next_capacity]: [while (capacity < required_size)
    capacity *= multiplier;] in [size_t] arithmetic. *)
Fixpoint grow_loop (fuel : nat) (capacity required_size : Z) : option Z :=
  if capacity <? required_size then
    match fuel with
    | O => None
    | S fuel' => grow_loop fuel' (wrap64 (capacity * 2)) required_size
    end
  else Some capacity.

(** 64 doublings exhaust [size_t]. *)
Definition calculate_next_capacity (current_capacity required_size : Z) : option Z :=
  if max_size / 2 <? required_size then Some required_size
  else grow_loop 64 current_capacity required_size.

Section ops.
Context (alloc_ok : Z → bool).

Definition allocate (size : Z) : result (list cell) :=
  if alloc_ok size then Ok (replicate (Z.to_nat size) None) else Throw std_bad_alloc.

(** [realloc] keeps the common prefix of the block. *)
Definition reallocate (ptr : list cell) (size : Z) : result (list cell) :=
  if alloc_ok size then
    Ok (take (Z.to_nat size) ptr ++ replicate (Z.to_nat size - length ptr) None)
  else Throw std_bad_alloc.

(** [explicit buffer(std::size_t size)] *)
Definition construct (size : Z) : option (result buffer) :=
  match calculate_next_capacity 1024 size with
  | None => None
  | Some capacity =>
      Some (let! data := allocate capacity in Ok (mk_buffer data size capacity))%outcome
  end.

(** [std::memcpy(data_ + off, bytes, length)] into the block. *)
Definition write_cells (off : nat) (bytes : list byte) (m : list cell) : list cell :=
  take off m ++ (Some <$> bytes) ++ drop (off + length bytes) m.

(** [buffer(const char* data, std::size_t size)]: the delegated constructor runs first,
    then the null check, then the copy of [size] bytes. *)
Definition construct_from (data : option (list byte)) (size : Z) : option (result buffer) :=
  match construct size with
  | None => None
  | Some r =>
      Some (let! b := r in
            let! p := require_nonull data (Some "data") (Some "mprpc::buffer::buffer") in
            Ok (mk_buffer (write_cells 0 (take (Z.to_nat size) p) (mem b))
                  (size_ b) (capacity_ b)))%outcome
  end.

Definition resize (b : buffer) (size : Z) : option (result buffer) :=
  if size <=? capacity_ b then Some (Ok (mk_buffer (mem b) size (capacity_ b)))
  else
    match calculate_next_capacity (capacity_ b) size with
    | None => None
    | Some capacity =>
        Some (let! data := reallocate (mem b) capacity in
              Ok (mk_buffer data size capacity))%outcome
    end.

Definition reserve (b : buffer) (size : Z) : option (result buffer) :=
  if size <=? capacity_ b then Some (Ok b)
  else
    match calculate_next_capacity (capacity_ b) size with
    | None => None
    | Some capacity =>
        Some (let! data := reallocate (mem b) capacity in
              Ok (mk_buffer data (size_ b) capacity))%outcome
    end.

(** [std::memmove(data_, data_ + size, moved_size)] *)
Definition memmove_front (m : list cell) (size moved_size : Z) : list cell :=
  take (Z.to_nat moved_size) (drop (Z.to_nat size) m) ++ drop (Z.to_nat moved_size) m.

Definition consume (b : buffer) (size : Z) : buffer :=
  if size_ b <=? size then mk_buffer (mem b) 0 (capacity_ b)
  else
    let moved_size := size_ b - size in
    mk_buffer (memmove_front (mem b) size moved_size) moved_size (capacity_ b).
End ops.

(** The bytes in use. *)
Definition contents (b : buffer) : list cell := take (Z.to_nat (size_ b)) (mem b).

(** ** The representation invariant *)

Record wf (b : buffer) : Prop := mk_wf {
  wf_block : Z.of_nat (length (mem b)) = capacity_ b;
  wf_size : 0 ≤ size_ b ≤ capacity_ b;
  wf_capacity : 1024 ≤ capacity_ b ≤ size_max;
}.
#[export] Hint Constructors wf : mprpc.

(** ** The growth loop *)

Lemma grow_loop_terminates fuel capacity required :
  0 < capacity → required ≤ max_size / 2 → required ≤ capacity * 2 ^ Z.of_nat fuel →
  ∃ c, grow_loop fuel capacity required = Some c ∧ capacity ≤ c ∧ required ≤ c ∧
       (c = capacity ∨ c < 2 * required).
Proof.
  unfold max_size, size_max.
  revert capacity. induction fuel as [|fuel IH]; intros capacity Hc Hr Hf; simpl.
  - change (2 ^ Z.of_nat 0) with 1 in Hf. zcase. exists capacity. split; [done|lia].
  - zcase; [|exists capacity; split; [done|lia]].
    assert (wrap64 (capacity * 2) = capacity * 2) as ->.
    { apply Z.mod_small. assert ((2 ^ 64 - 1) / 2 = 2 ^ 63 - 1) by reflexivity. lia. }
    rewrite Nat2Z.inj_succ, Z.pow_succ_r in Hf by lia.
    destruct (IH (capacity * 2)) as (c' & -> & Hle & Hreq & Hub); [lia..|].
    exists c'. split; [done|]. lia.
Qed.

Lemma grow_loop_done fuel capacity required :
  required ≤ capacity → grow_loop fuel capacity required = Some capacity.
Proof. intros. destruct fuel; simpl; zcase; done. Qed.

Lemma calculate_next_capacity_spec_aux current required :
  1024 ≤ current ≤ size_max → 0 ≤ required ≤ size_max → current < required →
  ∃ c, calculate_next_capacity current required = Some c ∧
       required ≤ c ≤ size_max ∧ c < 2 * required.
Proof.
  intros Hcur Hreq Hlt. unfold calculate_next_capacity.
  destruct (Z.ltb_spec0 (max_size / 2) required) as [Hbig|Hsmall].
  { exists required. split; [done|lia]. }
  destruct (grow_loop_terminates 64 current required) as (c & -> & Hge & Hrc & Hub).
  - lia.
  - lia.
  - unfold max_size, size_max in *. change (2 ^ Z.of_nat 64) with (2 ^ 64) in *. lia.
  - exists c. split; [done|]. unfold max_size, size_max in *.
    assert ((2 ^ 64 - 1) / 2 = 2 ^ 63 - 1) by reflexivity. lia.
Qed.

(** ** Memory lemmas *)

Lemma reallocate_prefix (ptr : list cell) n k :
  (k ≤ length ptr)%nat → Z.of_nat (length ptr) ≤ n →
  take k (take (Z.to_nat n) ptr ++ replicate (Z.to_nat n - length ptr) None) = take k ptr.
Proof.
  intros Hk Hn. rewrite (take_ge ptr) by lia. rewrite take_app_le by lia. done.
Qed.

Lemma length_reallocate (ptr : list cell) n :
  Z.of_nat (length ptr) ≤ n →
  length (take (Z.to_nat n) ptr ++ replicate (Z.to_nat n - length ptr) None) = Z.to_nat n.
Proof. intros. rewrite length_app, length_take, length_replicate. lia. Qed.

Lemma length_memmove_front m s k :
  0 ≤ s → 0 ≤ k → s + k ≤ Z.of_nat (length m) → length (memmove_front m s k) = length m.
Proof.
  intros. unfold memmove_front. rewrite length_app, length_take, !length_drop. lia.
Qed.

Lemma take_memmove_front m s k :
  0 ≤ s → 0 ≤ k → s + k ≤ Z.of_nat (length m) →
  take (Z.to_nat k) (memmove_front m s k) = take (Z.to_nat k) (drop (Z.to_nat s) m).
Proof.
  intros. unfold memmove_front. rewrite take_app_le.
  - rewrite take_take. f_equal. lia.
  - rewrite length_take, length_drop. lia.
Qed.

Lemma length_write_cells off bytes m :
  (off + length bytes ≤ length m)%nat → length (write_cells off bytes m) = length m.
Proof.
  intros. unfold write_cells.
  rewrite !length_app, length_take, length_fmap, length_drop. lia.
Qed.

Lemma take_write_cells off bytes m :
  (off + length bytes ≤ length m)%nat →
  take (off + length bytes) (write_cells off bytes m) = take off m ++ (Some <$> bytes).
Proof.
  intros. unfold write_cells. rewrite (assoc_L (++)), take_app_length'; [done|].
  rewrite length_app, length_take, length_fmap. lia.
Qed.

(** ** What each operation does *)

Lemma construct_spec alloc_ok n :
  0 ≤ n ≤ size_max →
  ∃ c, construct alloc_ok n =
         Some (if alloc_ok c then Ok (mk_buffer (replicate (Z.to_nat c) None) n c)
               else Throw std_bad_alloc) ∧
       wf (mk_buffer (replicate (Z.to_nat c) None) n c).
Proof.
  intros Hn. unfold construct.
  assert (∃ c, calculate_next_capacity 1024 n = Some c ∧ n ≤ c ≤ size_max ∧ 1024 ≤ c)
    as (c & -> & Hnc & Hc).
  { destruct (decide (1024 < n)) as [Hlt|Hge].
    - destruct (calculate_next_capacity_spec_aux 1024 n) as (c & ? & ? & ?);
        [unfold size_max in *; lia..|]. exists c. split; [done|lia].
    - exists 1024. unfold calculate_next_capacity, max_size, size_max in *.
      assert ((2 ^ 64 - 1) / 2 = 2 ^ 63 - 1) as -> by reflexivity.
      destruct (Z.ltb_spec0 (2 ^ 63 - 1) n); [lia|].
      rewrite grow_loop_done by lia. split; [done|lia]. }
  exists c. unfold allocate. split; [by destruct (alloc_ok c)|].
  split; simpl; rewrite ?length_replicate; lia.
Qed.

Lemma resize_wf_aux alloc_ok b n r :
  wf b → 0 ≤ n ≤ size_max → resize alloc_ok b n = Some (Ok r) →
  wf r ∧ size_ r = n ∧ capacity_ b ≤ capacity_ r ∧
  take (Z.to_nat (Z.min (size_ b) n)) (mem r) = take (Z.to_nat (Z.min (size_ b) n)) (mem b).
Proof.
  intros [Hblk Hsz Hcap] Hn. unfold resize.
  destruct (Z.leb_spec0 n (capacity_ b)) as [Hle|Hgt].
  { intros [= <-]. simpl. split; [|repeat split; lia]. split; simpl; lia. }
  destruct (calculate_next_capacity_spec_aux (capacity_ b) n) as (c & -> & Hc & ?); [lia..|].
  unfold reallocate. destruct (alloc_ok c); [|discriminate]. simpl. intros [= <-]. simpl.
  split; [split; simpl; rewrite ?length_reallocate; lia|].
  split; [done|]. split; [lia|]. apply reallocate_prefix; lia.
Qed.

Lemma resize_terminates_aux alloc_ok b n :
  wf b → 0 ≤ n ≤ size_max →
  ∃ r, resize alloc_ok b n = Some r ∧
       (r = Throw std_bad_alloc ∨ ∃ b', r = Ok b').
Proof.
  intros [Hblk Hsz Hcap] Hn. unfold resize.
  destruct (Z.leb_spec0 n (capacity_ b)); [eauto|].
  destruct (calculate_next_capacity_spec_aux (capacity_ b) n) as (c & -> & ? & ?); [lia..|].
  unfold reallocate. destruct (alloc_ok c); simpl; eauto.
Qed.

(** With memory, resizing succeeds. *)
Lemma resize_ok alloc_ok b n :
  (∀ k, alloc_ok k = true) → wf b → 0 ≤ n ≤ size_max →
  ∃ b', resize alloc_ok b n = Some (Ok b') ∧ wf b' ∧ size_ b' = n.
Proof.
  intros Ha Hwf Hn. destruct (resize_terminates_aux alloc_ok b n Hwf Hn) as (r & Hr & [->|[b' ->]]).
  - exfalso. unfold resize, reallocate in Hr. destruct (n <=? capacity_ b); [done|].
    destruct (calculate_next_capacity _ _); [|done]. by rewrite Ha in Hr.
  - exists b'. apply resize_wf_aux in Hr as Hw; [|done..]. split; [done|tauto].
Qed.

Lemma consume_wf_aux b n :
  wf b → 0 ≤ n → wf (consume b n) ∧ contents (consume b n) = drop (Z.to_nat n) (contents b).
Proof.
  intros [Hblk Hsz Hcap] Hn. unfold consume, contents.
  destruct (Z.leb_spec0 (size_ b) n) as [Hle|Hgt]; simpl.
  { split; [split; simpl; lia|]. rewrite drop_ge; [done|]. rewrite length_take. lia. }
  split.
  - split; simpl; [rewrite length_memmove_front; lia|lia..].
  - rewrite take_memmove_front, skipn_firstn_comm by lia. f_equal. lia.
Qed.

Lemma reserve_spec alloc_ok b n :
  wf b → 0 ≤ n ≤ size_max →
  ∃ r, reserve alloc_ok b n = Some r ∧
    match r with
    | Ok b' => wf b' ∧ size_ b' = size_ b ∧ n ≤ capacity_ b' ∧ contents b' = contents b
    | Throw e => e = std_bad_alloc
    end.
Proof.
  intros Hwf Hn. pose proof Hwf as [Hblk Hsz Hcap]. unfold reserve.
  destruct (Z.leb_spec0 n (capacity_ b)); [exists (Ok b); split_and!; auto; lia|].
  destruct (calculate_next_capacity_spec_aux (capacity_ b) n) as (c & -> & ? & ?); [lia..|].
  unfold reallocate. destruct (alloc_ok c); simpl; (eexists; split; [done|]); [|done].
  split; [split; simpl; rewrite ?length_reallocate; lia|]. simpl.
  split_and!; [done|lia|]. unfold contents; simpl. apply reallocate_prefix; lia.
Qed.

(** ** Refinement: a buffer is a byte vector *)

Inductive buffer_op : Type :=
| OpResize (n : Z)
| OpReserve (n : Z)
| OpConsume (n : Z)
| OpWrite (off : nat) (bytes : list byte).  (* a store through [data()] *)

Definition valid_op (b : buffer) (o : buffer_op) : Prop :=
  match o with
  | OpResize n | OpReserve n | OpConsume n => 0 ≤ n ≤ size_max
  | OpWrite off bytes => Z.of_nat (off + length bytes) ≤ size_ b
  end.

Definition apply_op (alloc_ok : Z → bool) (b : buffer) (o : buffer_op) :
    option (result buffer) :=
  match o with
  | OpResize n => resize alloc_ok b n
  | OpReserve n => reserve alloc_ok b n
  | OpConsume n => Some (Ok (consume b n))
  | OpWrite off bytes =>
      Some (Ok (mk_buffer (write_cells off bytes (mem b)) (size_ b) (capacity_ b)))
  end.

(** The specification: what each operation does to the sequence of bytes in use. *)
Inductive vector_step : list cell → buffer_op → list cell → Prop :=
| vector_resize l n l' :
    Z.of_nat (length l') = n →
    take (Nat.min (length l) (length l')) l' = take (Nat.min (length l) (length l')) l →
    vector_step l (OpResize n) l'
| vector_reserve l n : vector_step l (OpReserve n) l
| vector_consume l n : vector_step l (OpConsume n) (drop (Z.to_nat n) l)
| vector_write l off bytes : vector_step l (OpWrite off bytes) (write_cells off bytes l).

Lemma length_contents b : wf b → Z.of_nat (length (contents b)) = size_ b.
Proof. intros []. unfold contents. rewrite length_take. lia. Qed.

Lemma contents_write off bytes b :
  wf b → Z.of_nat (off + length bytes) ≤ size_ b →
  take (Z.to_nat (size_ b)) (write_cells off bytes (mem b)) =
  write_cells off bytes (contents b).
Proof.
  intros [] Hle. unfold write_cells, contents.
  assert (length (take off (mem b)) = off) as Hoff by (rewrite length_take; lia).
  rewrite !take_app, Hoff, length_fmap, (take_ge (take off (mem b))) by lia.
  rewrite (take_ge (Some <$> bytes)) by (rewrite length_fmap; lia).
  rewrite take_take, Nat.min_l by lia.
  do 2 f_equal. rewrite skipn_firstn_comm. f_equal. lia.
Qed.

Lemma apply_op_refines alloc_ok b o :
  wf b → valid_op b o →
  ∃ r, apply_op alloc_ok b o = Some r ∧
    match r with
    | Ok b' => wf b' ∧ vector_step (contents b) o (contents b')
    | Throw e => e = std_bad_alloc
    end.
Proof.
  intros Hwf Hv. pose proof Hwf as [Hblk Hsz Hcap].
  destruct o as [n|n|n|off bytes]; simpl in Hv |- *.
  - destruct (resize_terminates_aux alloc_ok b n) as (r & Hr & Hcase); [done..|].
    exists r. split; [done|]. destruct Hcase as [->|[b' ->]]; [done|].
    destruct (resize_wf_aux alloc_ok b n b') as (Hwf' & Hs & Hc & Hp); [done..|].
    split; [done|]. pose proof (length_contents b Hwf). pose proof (length_contents b' Hwf').
    constructor; [lia|]. unfold contents in *. rewrite !take_take.
    replace (Nat.min _ (Z.to_nat (size_ b'))) with (Z.to_nat (Z.min (size_ b) n)) by lia.
    replace (Nat.min _ (Z.to_nat (size_ b))) with (Z.to_nat (Z.min (size_ b) n)) by lia.
    done.
  - destruct (reserve_spec alloc_ok b n) as (r & Hr & Hcase); [done..|].
    exists r. split; [done|]. destruct r; [|done].
    destruct Hcase as (? & ? & ? & ->). split; [done|constructor].
  - eexists. split; [done|]. simpl. destruct (consume_wf_aux b n) as [? ->]; [done|lia|].
    split; [done|constructor].
  - eexists. split; [done|]. simpl. split.
    + split; simpl; [rewrite length_write_cells|..]; lia.
    + unfold contents at 2; simpl. rewrite contents_write by done. constructor.
Qed.

(** The buffers a program can reach from a constructed one. *)
Inductive reachable (alloc_ok : Z → bool) : buffer → Prop :=
| reach_construct n b :
    0 ≤ n ≤ size_max → construct alloc_ok n = Some (Ok b) → reachable alloc_ok b
| reach_op b o b' :
    reachable alloc_ok b → valid_op b o → apply_op alloc_ok b o = Some (Ok b') →
    reachable alloc_ok b'.

Lemma reachable_wf_aux alloc_ok b : reachable alloc_ok b → wf b.
Proof.
  induction 1 as [n b Hn Hc|b o b' _ Hwf Hv Ho].
  - destruct (construct_spec alloc_ok n Hn) as (c & Hc' & Hwf). rewrite Hc' in Hc.
    destruct (alloc_ok c); congruence.
  - destruct (apply_op_refines alloc_ok b o Hwf Hv) as (r & Hr & Hp).
    rewrite Ho in Hr. simplify_eq. tauto.
Qed.

(** ** Properties *)

(** growing a buffer terminates and never overflows [size_t]: the capacity computed by
    [calculate_next_capacity] holds the requested size, fits in [size_t] and is less than
    twice the request. *)
Theorem calculate_next_capacity_bounds current required :
  1024 ≤ current ≤ size_max → 0 ≤ required ≤ size_max → current < required →
  ∃ c, calculate_next_capacity current required = Some c ∧
       required ≤ c ≤ size_max ∧ c < 2 * required.
Proof. apply calculate_next_capacity_spec_aux. Qed.

Lemma calculate_next_capacity_bounds_witness :
  ∃ c, calculate_next_capacity 1024 5000 = Some c ∧ 5000 ≤ c ≤ size_max ∧ c < 2 * 5000.
Proof. apply (calculate_next_capacity_bounds 1024 5000); unfold size_max; lia. Defined.

(** C21: every buffer reachable from the constructor satisfies the representation invariant,
    and every operation on it terminates and either throws [bad_alloc] or acts on the bytes
    in use exactly as the operation of a byte vector does: [resize] keeps the common prefix,
    [reserve] keeps everything, [consume] drops from the front, stores through [data()]
    replace the bytes they address. *)
Theorem buffer_refines_vector alloc_ok b o :
  reachable alloc_ok b → valid_op b o →
  wf b ∧
  ∃ r, apply_op alloc_ok b o = Some r ∧
    match r with
    | Ok b' => vector_step (contents b) o (contents b')
    | Throw e => e = std_bad_alloc
    end.
Proof.
  intros Hr%reachable_wf_aux Hv. split; [done|].
  destruct (apply_op_refines alloc_ok b o Hr Hv) as (r & ? & ?).
  exists r. split; [done|]. destruct r; tauto.
Qed.

Lemma buffer_refines_vector_witness :
  ∃ b, construct (λ _, true) 3 = Some (Ok b) ∧
    wf b ∧
    ∃ r, apply_op (λ _, true) b (OpResize 2000) = Some r ∧
      match r with
      | Ok b' => vector_step (contents b) (OpResize 2000) (contents b')
      | Throw e => e = std_bad_alloc
      end.
Proof.
  eexists. split; [reflexivity|].
  apply (buffer_refines_vector (λ _, true)); [|unfold valid_op, size_max; lia].
  apply (reach_construct _ 3); [unfold size_max; lia|reflexivity].
Defined.
