(* ===== verification/SharedBinary.v ===== *)
(** The reference-counted binary data: include/mprpc/shared_binary.h, src/shared_binary.cpp.

    The state is the heap of [impl] blocks together with the live [shared_binary] objects
    (named by a variable) and the block each points to. An operation answers [None] when
    the C++ code would touch a block that was deleted or an object that does not exist. *)

From stdpp Require Import gmap.
From S2P Require Import Prelude Errors.

Abbreviation loc := positive.
Abbreviation var := positive.

(** [shared_binary::impl]; [ref] is an atomic [size_t]. *)
Record impl := mk_impl { data : list byte; ref : Z }.

Record sb_state := mk_sb {
  heap : gmap loc impl;
  vars : gmap var (option loc);
  next_loc : loc;
}.

(** ** Operations *)

(** [reset]: drops this object's reference, deleting the block with the last one. *)
Definition reset (st : sb_state) (v : var) : option sb_state :=
  p ← vars st !! v;
  match p with
  | None => Some st
  | Some l =>
      i ← heap st !! l;
      let post_ref := wrap64 (ref i - 1) in
      let heap' := if post_ref =? 0 then delete l (heap st)
                   else <[l := mk_impl (data i) post_ref]> (heap st) in
      Some (mk_sb heap' (<[v := None]> (vars st)) (next_loc st))
  end.

(** [impl_ = data.impl_; if (impl_ != nullptr) ++(impl_->ref);] *)
Definition share (st : sb_state) (v : var) (p : option loc) : option sb_state :=
  match p with
  | None => Some (mk_sb (heap st) (<[v := None]> (vars st)) (next_loc st))
  | Some l =>
      i ← heap st !! l;
      Some (mk_sb (<[l := mk_impl (data i) (wrap64 (ref i + 1))]> (heap st))
                  (<[v := Some l]> (vars st)) (next_loc st))
  end.

(** [impl_(std::exchange(data.impl_, nullptr))] *)
Definition take_over (st : sb_state) (v w : var) : option sb_state :=
  p ← vars st !! w;
  Some (mk_sb (heap st) (<[v := p]> (<[w := None]> (vars st))) (next_loc st)).

(** [shared_binary() noexcept = default] *)
Definition construct_empty (st : sb_state) (v : var) : option sb_state :=
  match vars st !! v with
  | Some _ => None
  | None => Some (mk_sb (heap st) (<[v := None]> (vars st)) (next_loc st))
  end.

(** [shared_binary(const char* data, std::size_t size)] *)
Definition construct_data (st : sb_state) (v : var) (p : option (list byte)) :
    option (result sb_state) :=
  match vars st !! v with
  | Some _ => None
  | None =>
      Some (let! d := require_nonull p (Some "data") (Some "shared_binary::shared_binary") in
            Ok (mk_sb (<[next_loc st := mk_impl d 1]> (heap st))
                      (<[v := Some (next_loc st)]> (vars st)) (Pos.succ (next_loc st))))%outcome
  end.

(** [shared_binary(const shared_binary&)] *)
Definition copy_construct (st : sb_state) (v w : var) : option sb_state :=
  match vars st !! v with
  | Some _ => None
  | None => p ← vars st !! w; share st v p
  end.

(** [shared_binary(shared_binary&&)] *)
Definition move_construct (st : sb_state) (v w : var) : option sb_state :=
  match vars st !! v with Some _ => None | None => take_over st v w end.

(** [operator=(const shared_binary&)] *)
Definition copy_assign (st : sb_state) (v w : var) : option sb_state :=
  if decide (v = w) then Some st
  else
    st' ← reset st v;
    p ← vars st' !! w;
    share st' v p.

(** [operator=(shared_binary&&)] *)
Definition move_assign (st : sb_state) (v w : var) : option sb_state :=
  st' ← reset st v; take_over st' v w.

(** [~shared_binary()] *)
Definition destruct_ (st : sb_state) (v : var) : option sb_state :=
  st' ← reset st v;
  Some (mk_sb (heap st') (delete v (vars st')) (next_loc st')).

(** Observers. *)
Definition has_data (st : sb_state) (v : var) : option bool :=
  p ← vars st !! v; Some (match p with Some _ => true | None => false end).
Definition get_data (st : sb_state) (v : var) : option (option (list byte)) :=
  p ← vars st !! v;
  match p with None => Some None | Some l => i ← heap st !! l; Some (Some (data i)) end.
Definition size (st : sb_state) (v : var) : option Z :=
  p ← vars st !! v;
  match p with None => Some 0 | Some l => i ← heap st !! l; Some (Z.of_nat (length (data i))) end.
Definition use_count (st : sb_state) (v : var) : option Z :=
  p ← vars st !! v;
  match p with None => Some 0 | Some l => i ← heap st !! l; Some (ref i) end.

(** [operator==] *)
Definition equal (st : sb_state) (v w : var) : option bool :=
  hl ← has_data st v;
  hr ← has_data st w;
  if negb hl then Some (negb hr)
  else if negb hr then Some false
  else
    dl ← get_data st v;
    dr ← get_data st w;
    Some (bool_decide (default [] dl = default [] dr)).
Definition not_equal (st : sb_state) (v w : var) : option bool :=
  b ← equal st v w; Some (negb b).

(** ** Programs over [shared_binary] objects *)

Inductive sb_op : Type :=
| ConstructEmpty (v : var)
| ConstructData (v : var) (p : option (list byte))
| CopyConstruct (v w : var)
| MoveConstruct (v w : var)
| CopyAssign (v w : var)
| MoveAssign (v w : var)
| Reset (v : var)
| Destruct (v : var).

(** The state after an operation; a throwing constructor leaves no object behind. *)
Definition exec (st : sb_state) (o : sb_op) : option sb_state :=
  match o with
  | ConstructEmpty v => construct_empty st v
  | ConstructData v p =>
      r ← construct_data st v p; Some (match r with Ok st' => st' | Throw _ => st end)
  | CopyConstruct v w => copy_construct st v w
  | MoveConstruct v w => move_construct st v w
  | CopyAssign v w => copy_assign st v w
  | MoveAssign v w => move_assign st v w
  | Reset v => reset st v
  | Destruct v => destruct_ st v
  end.

Definition live (st : sb_state) (v : var) : Prop := is_Some (vars st !! v).
Definition fresh_var (st : sb_state) (v : var) : Prop :=
  vars st !! v = None ∧ Z.of_nat (base.size (vars st)) + 1 < 2 ^ 64.

(** C++ object lifetimes: constructors run on fresh storage (and there are fewer than 2^64
    objects), every other operation on live objects. *)
Definition valid (st : sb_state) (o : sb_op) : Prop :=
  match o with
  | ConstructEmpty v | ConstructData v _ => fresh_var st v
  | CopyConstruct v w | MoveConstruct v w => fresh_var st v ∧ live st w
  | CopyAssign v w | MoveAssign v w => live st v ∧ live st w
  | Reset v | Destruct v => live st v
  end.

(** ** Value semantics *)

Definition value (h : gmap loc impl) (p : option loc) : message_data :=
  match p with None => None | Some l => data <$> h !! l end.

Definition abs (st : sb_state) : gmap var message_data := value (heap st) <$> vars st.

(** What the operations do to the values. A self-move empties the object. *)
Definition spec (m : gmap var message_data) (o : sb_op) : gmap var message_data :=
  match o with
  | ConstructEmpty v => <[v := None]> m
  | ConstructData v p => match p with Some d => <[v := Some d]> m | None => m end
  | CopyConstruct v w | CopyAssign v w => <[v := default None (m !! w)]> m
  | MoveConstruct v w => <[v := default None (m !! w)]> (<[w := None]> m)
  | MoveAssign v w =>
      <[v := if decide (v = w) then None else default None (m !! w)]> (<[w := None]> m)
  | Reset v => <[v := None]> m
  | Destruct v => delete v m
  end.

(** ** Reference counts *)

Definition points_to (l : loc) (kv : var * option loc) : Prop := kv.2 = Some l.
#[export] Instance points_to_dec l kv : Decision (points_to l kv).
Proof. unfold points_to. apply _. Defined.

(** The number of objects that point to [l]. *)
Definition count (l : loc) (m : gmap var (option loc)) : Z :=
  Z.of_nat (base.size (filter (points_to l) m)).

Definition hit (l : loc) (p : option (option loc)) : Z :=
  if decide (p = Some (Some l)) then 1 else 0.

Lemma count_nonneg l m : 0 ≤ count l m.
Proof. unfold count. lia. Qed.

Lemma count_le_size l (m : gmap var (option loc)) :
  count l m ≤ Z.of_nat (base.size m).
Proof.
  unfold count. apply Nat2Z.inj_le. rewrite <- !size_dom.
  apply subseteq_size. apply dom_filter_subseteq.
Qed.

Lemma count_delete l v (m : gmap var (option loc)) :
  count l (delete v m) = count l m - hit l (m !! v).
Proof.
  unfold count, hit. rewrite map_filter_delete.
  destruct (decide (m !! v = Some (Some l))) as [Hv|Hv].
  - assert (filter (points_to l) m !! v = Some (Some l)) as Hf
      by by apply map_lookup_filter_Some.
    rewrite map_size_delete_Some by eauto.
    enough (base.size (filter (points_to l) m) ≠ 0%nat) by lia.
    intros H0%map_size_empty_inv. rewrite H0 in Hf. done.
  - rewrite delete_id; [lia|]. apply map_lookup_filter_None. right.
    intros x Hx Hp. unfold points_to in Hp. simpl in Hp. congruence.
Qed.

Lemma count_insert l v p (m : gmap var (option loc)) :
  count l (<[v := p]> m) = count l m - hit l (m !! v) + hit l (Some p).
Proof.
  rewrite <- insert_delete_eq, <- count_delete.
  unfold count, hit. rewrite map_filter_insert.
  assert (filter (points_to l) (delete v m) !! v = None) as Hn.
  { apply map_lookup_filter_None. left. apply lookup_delete_eq. }
  destruct (decide (points_to l (v, p))) as [Hp|Hp]; unfold points_to in Hp; simpl in Hp.
  - rewrite decide_True by congruence. rewrite map_size_insert_None by done. lia.
  - rewrite decide_False by congruence. rewrite delete_delete_eq. lia.
Qed.

Lemma count_pos l v (m : gmap var (option loc)) : m !! v = Some (Some l) → 1 ≤ count l m.
Proof.
  intros Hv. pose proof (count_delete l v m) as H. pose proof (count_nonneg l (delete v m)).
  unfold hit in H. rewrite Hv, decide_True in H by done. lia.
Qed.

Lemma count_others l v v' (m : gmap var (option loc)) :
  m !! v = Some (Some l) → m !! v' = Some (Some l) → v ≠ v' → 2 ≤ count l m.
Proof.
  intros Hv Hv' Hne. pose proof (count_delete l v m) as H.
  unfold hit in H. rewrite Hv, decide_True in H by done.
  assert (1 ≤ count l (delete v m)); [|lia].
  apply (count_pos l v'). by rewrite lookup_delete_ne.
Qed.

(** ** The invariant *)

(** Every pointer of a live object is to a block that exists; every block has the reference
    count of the objects that point to it, and at least one; new blocks are fresh. *)
Record inv (st : sb_state) : Prop := mk_inv {
  inv_ptr : ∀ v l, vars st !! v = Some (Some l) → is_Some (heap st !! l);
  inv_ref : ∀ l i, heap st !! l = Some i → ref i = count l (vars st) ∧ 1 ≤ ref i;
  inv_fresh : ∀ l, (next_loc st ≤ l)%positive → heap st !! l = None;
  inv_bound : Z.of_nat (base.size (vars st)) < 2 ^ 64;
}.

Lemma size_insert_live (m : gmap var (option loc)) v p :
  is_Some (m !! v) → base.size (<[v := p]> m) = base.size m.
Proof. intros [x Hx]. by eapply map_size_insert_Some. Qed.

Lemma ref_bound st l i : inv st → heap st !! l = Some i → 1 ≤ ref i < 2 ^ 64.
Proof.
  intros Hi Hl. destruct (inv_ref st Hi l i Hl) as [Hr ?].
  pose proof (count_le_size l (vars st)). pose proof (inv_bound st Hi). lia.
Qed.


Definition no_ref (st : sb_state) (v : var) : Prop := ∀ l, vars st !! v ≠ Some (Some l).

Lemma hit_no_ref st v l : no_ref st v → hit l (vars st !! v) = 0.
Proof. intros H. unfold hit. rewrite decide_False; [done|apply H]. Qed.

Lemma hit_null l : hit l (Some None) = 0.
Proof. reflexivity. Qed.

Lemma hit_ptr l l' : hit l (Some (Some l')) = if decide (l = l') then 1 else 0.
Proof. unfold hit. do 2 case_decide; congruence. Qed.

Create Rewrite HintDb sb.
#[local] Hint Rewrite count_insert hit_null hit_ptr : sb.

(** Values only depend on the data part of the blocks that are pointed to. *)
Lemma abs_ext st st' v p :
  vars st' = <[v := p]> (vars st) →
  (∀ v' l, v' ≠ v → vars st !! v' = Some (Some l) →
     data <$> heap st' !! l = data <$> heap st !! l) →
  abs st' = <[v := value (heap st') p]> (abs st).
Proof.
  intros Hv Hh. apply map_eq. intros v'. unfold abs. rewrite Hv, lookup_fmap.
  destruct (decide (v = v')) as [<-|Hne].
  - by rewrite !lookup_insert_eq.
  - rewrite !lookup_insert_ne, lookup_fmap by done.
    destruct (vars st !! v') as [[l|]|] eqn:E; simpl; [|done..].
    f_equal. eapply Hh; eauto.
Qed.

Lemma reset_spec st v :
  inv st → live st v →
  ∃ st', reset st v = Some st' ∧ inv st' ∧
    vars st' = <[v := None]> (vars st) ∧ abs st' = <[v := None]> (abs st).
Proof.
  intros Hi [p Hp]. unfold reset. rewrite Hp. simpl. destruct p as [l|].
  2:{ exists st. split_and!; [done|done|by rewrite insert_id|].
      apply (abs_ext st st v None); [by rewrite insert_id|done]. }
  destruct (inv_ptr st Hi v l Hp) as [i Hl]. rewrite Hl. simpl.
  destruct (inv_ref st Hi l i Hl) as [Href Hpos].
  pose proof (ref_bound st l i Hi Hl) as Hb.
  assert (wrap64 (ref i - 1) = ref i - 1) as -> by (apply Z.mod_small; lia).
  eexists. split; [done|]. destruct Hi as [Hptr Hcnt Hfresh Hbnd].
  assert (∀ l', hit l' (vars st !! v) = if decide (l' = l) then 1 else 0) as Hhit
    by (intros; rewrite Hp; apply hit_ptr).
  split; [split|]; simpl.
  - intros v' l' Hv'. destruct (decide (v = v')) as [<-|Hne].
    { rewrite lookup_insert_eq in Hv'. done. }
    rewrite lookup_insert_ne in Hv' by done.
    destruct (decide (l = l')) as [<-|].
    + pose proof (count_others l v v' (vars st) Hp Hv' Hne).
      destruct (Z.eqb_spec (ref i - 1) 0); [lia|]. rewrite lookup_insert_eq. eauto.
    + destruct (ref i - 1 =? 0); rewrite ?lookup_delete_ne, ?lookup_insert_ne by done; eauto.
  - intros l' i' Hl'. autorewrite with sb. rewrite Hhit.
    destruct (decide (l' = l)) as [->|Hne].
    + destruct (Z.eqb_spec (ref i - 1) 0); [by rewrite lookup_delete_eq in Hl'|].
      rewrite lookup_insert_eq in Hl'. simplify_eq. simpl. lia.
    + assert (heap st !! l' = Some i') as Hl''.
      { destruct (ref i - 1 =? 0); [rewrite lookup_delete_ne in Hl' by done|
          rewrite lookup_insert_ne in Hl' by done]; done. }
      destruct (Hcnt l' i' Hl''). lia.
  - intros l' Hl'. destruct (decide (l = l')) as [<-|Hne].
    { rewrite Hfresh in Hl; done. }
    destruct (ref i - 1 =? 0); rewrite ?lookup_delete_ne, ?lookup_insert_ne by done; eauto.
  - rewrite size_insert_live by eauto. done.
  - split; [done|].
    apply (abs_ext st _ v None); [done|]. simpl. intros v' l' Hne Hv'.
    destruct (decide (l = l')) as [<-|].
    + pose proof (count_others l v v' (vars st) Hp Hv' ltac:(done)).
      destruct (Z.eqb_spec (ref i - 1) 0); [lia|]. by rewrite lookup_insert_eq, Hl.
    + destruct (ref i - 1 =? 0); by rewrite ?lookup_delete_ne, ?lookup_insert_ne by done.
Qed.

Lemma share_spec st v p :
  inv st → no_ref st v → (∀ l, p = Some l → is_Some (heap st !! l)) →
  Z.of_nat (base.size (<[v := p]> (vars st))) < 2 ^ 64 →
  ∃ st', share st v p = Some st' ∧ inv st' ∧ vars st' = <[v := p]> (vars st) ∧
    abs st' = <[v := value (heap st) p]> (abs st).
Proof.
  intros Hi Hno Hp Hsz. pose proof (count_le_size (default 1%positive p) (<[v := p]> (vars st))) as Hle.
  destruct p as [l|]; simpl in *.
  - destruct (Hp l eq_refl) as [i Hl]. rewrite Hl. simpl. eexists. split; [done|].
    pose proof (ref_bound st l i Hi Hl).
    destruct (inv_ref st Hi l i Hl) as [Href _].
    rewrite count_insert, hit_no_ref, hit_ptr, decide_True in Hle by done.
    assert (wrap64 (ref i + 1) = ref i + 1) as -> by (apply Z.mod_small; lia).
    split_and!; [split; simpl|done|].
    + intros v' l' Hv'. destruct (decide (l = l')) as [<-|].
      { rewrite lookup_insert_eq. eauto. }
      rewrite lookup_insert_ne by done. destruct (decide (v = v')) as [<-|].
      * rewrite lookup_insert_eq in Hv'. congruence.
      * rewrite lookup_insert_ne in Hv' by done. eapply inv_ptr; eauto.
    + intros l' i' Hl'. autorewrite with sb. rewrite hit_no_ref by done.
      destruct (decide (l' = l)) as [->|Hne].
      * rewrite lookup_insert_eq in Hl'. simplify_eq. simpl. lia.
      * rewrite lookup_insert_ne in Hl' by done.
        destruct (inv_ref st Hi l' i' Hl'). lia.
    + intros l' Hl'. destruct (decide (l = l')) as [<-|].
      { rewrite (inv_fresh st Hi l) in Hl; done. }
      rewrite lookup_insert_ne by done. by apply inv_fresh.
    + done.
    + rewrite (abs_ext st _ v (Some l)); [|done|]; simpl.
      * by rewrite lookup_insert_eq.
      * intros v' l' _ Hv'. destruct (decide (l = l')) as [<-|].
        { by rewrite lookup_insert_eq, Hl. } by rewrite lookup_insert_ne by done.
  - eexists. split; [done|]. split_and!; [|done|by apply (abs_ext st _ v None)].
    destruct Hi as [Hptr Hcnt Hfresh Hbnd]. split; simpl; [|..|done|done].
    + intros v' l' Hv'. destruct (decide (v = v')) as [<-|].
      { by rewrite lookup_insert_eq in Hv'. }
      rewrite lookup_insert_ne in Hv' by done. eauto.
    + intros l' i' Hl'. autorewrite with sb. rewrite hit_no_ref by done.
      destruct (Hcnt l' i' Hl'). lia.
Qed.

Lemma take_over_spec st v w :
  inv st → no_ref st v → live st w →
  Z.of_nat (base.size (<[v := None]> (vars st))) < 2 ^ 64 →
  ∃ st', take_over st v w = Some st' ∧ inv st' ∧
    abs st' = <[v := default None (abs st !! w)]> (<[w := None]> (abs st)).
Proof.
  intros Hi Hno [p Hp] Hsz. unfold take_over. rewrite Hp. simpl. eexists. split; [done|].
  assert (abs st !! w = Some (value (heap st) p)) as Habs
    by (unfold abs; by rewrite lookup_fmap, Hp).
  rewrite Habs. simpl. split.
  2:{ unfold abs; simpl. by rewrite !fmap_insert. }
  destruct Hi as [Hptr Hcnt Hfresh Hbnd]. split; simpl; [..|done|].
  - intros v' l' Hv'. destruct (decide (v = v')) as [<-|].
    { rewrite lookup_insert_eq in Hv'. naive_solver. }
    rewrite lookup_insert_ne in Hv' by done. destruct (decide (w = v')) as [<-|].
    { by rewrite lookup_insert_eq in Hv'. }
    rewrite lookup_insert_ne in Hv' by done. eauto.
  - intros l' i' Hl'. autorewrite with sb. destruct (Hcnt l' i' Hl') as [-> ?].
    destruct (decide (w = v)) as [->|Hne].
    + rewrite lookup_insert_eq, Hp, hit_null.
      destruct p as [l|]; [exfalso; eapply Hno; eauto|]. rewrite hit_null. lia.
    + rewrite lookup_insert_ne by done. rewrite (hit_no_ref st v), Hp by done. lia.
  - assert (base.size (<[v := p]> (<[w := None]> (vars st))) =
            base.size (<[v := None]> (vars st))) as ->; [|done].
    rewrite <- !(size_dom (D:=gset var)), !dom_insert_L. f_equal.
    assert (w ∈ dom (vars st)) by (apply elem_of_dom; eauto). set_solver.
Qed.

Lemma no_ref_fresh st v : vars st !! v = None → no_ref st v.
Proof. intros H l. by rewrite H. Qed.

Lemma no_ref_after_reset st st' v : vars st' = <[v := None]> (vars st) → no_ref st' v.
Proof. intros H l. rewrite H, lookup_insert_eq. done. Qed.

Lemma size_insert_fresh (m : gmap var (option loc)) v p :
  m !! v = None → base.size (<[v := p]> m) = S (base.size m).
Proof. apply map_size_insert_None. Qed.

Lemma destruct_spec st v :
  inv st → live st v →
  ∃ st', destruct_ st v = Some st' ∧ inv st' ∧ abs st' = delete v (abs st).
Proof.
  intros Hi Hv. unfold destruct_.
  destruct (reset_spec st v Hi Hv) as (st1 & -> & [Hptr Hcnt Hfresh Hbnd] & Hvars & Habs).
  simpl. eexists. split; [done|]. split; [split|]; simpl.
  - intros v' l [_ Hv']%lookup_delete_Some. eauto.
  - intros l i Hl. rewrite count_delete, (hit_no_ref st1 v).
    + destruct (Hcnt l i Hl). lia.
    + by eapply no_ref_after_reset.
  - done.
  - enough (base.size (delete v (vars st1)) <= base.size (vars st1))%nat by lia.
    rewrite <- !(size_dom (D:=gset var)). apply subseteq_size. set_solver.
  - transitivity (delete v (abs st1)); [unfold abs; simpl; by rewrite fmap_delete|].
    by rewrite Habs, delete_insert_eq.
Qed.

Lemma construct_data_spec st v p :
  inv st → fresh_var st v →
  ∃ r, construct_data st v p = Some r ∧
    match r with
    | Ok st' => ∃ d, p = Some d ∧ inv st' ∧ abs st' = <[v := Some d]> (abs st)
    | Throw e => p = None ∧ ∃ msg, e = mprpc_exception
                   (error_info_ops.make error_code.unexpected_nullptr msg)
    end.
Proof.
  intros Hi [Hv Hsz]. unfold construct_data. rewrite Hv.
  destruct p as [d|]; simpl; (eexists; split; [done|]); [|split; [done|by eexists]].
  exists d. split; [done|]. pose proof (inv_fresh st Hi (next_loc st) ltac:(lia)) as Hnew.
  destruct Hi as [Hptr Hcnt Hfresh Hbnd].
  assert (∀ v' l, vars st !! v' = Some (Some l) → l ≠ next_loc st) as Hold.
  { intros v' l Hl ->. destruct (Hptr v' (next_loc st) Hl). congruence. }
  split; [split; simpl|].
  - intros v' l Hv'. destruct (decide (next_loc st = l)) as [<-|].
    { rewrite lookup_insert_eq. eauto. }
    rewrite lookup_insert_ne by done. destruct (decide (v = v')) as [<-|].
    + rewrite lookup_insert_eq in Hv'. congruence.
    + rewrite lookup_insert_ne in Hv' by done. eauto.
  - intros l i Hl. autorewrite with sb. rewrite (hit_no_ref st v) by by apply no_ref_fresh.
    destruct (decide (l = next_loc st)) as [->|].
    + rewrite lookup_insert_eq in Hl. simplify_eq. simpl.
      assert (count (next_loc st) (vars st) = 0) as ->; [|lia].
      unfold count. rewrite map_empty_filter_2; [done|].
      intros v' p Hv' Hp. unfold points_to in Hp; simpl in Hp. subst p.
      by apply (Hold v' (next_loc st)).
    + rewrite lookup_insert_ne in Hl by done. destruct (Hcnt l i Hl). lia.
  - intros l Hl. rewrite lookup_insert_ne by lia. apply Hfresh. lia.
  - rewrite size_insert_fresh by done. lia.
  - rewrite (abs_ext st _ v (Some (next_loc st))); [|done|]; simpl.
    + by rewrite lookup_insert_eq.
    + intros v' l _ Hv'. rewrite lookup_insert_ne by (symmetry; eauto). done.
Qed.

Lemma abs_lookup st v p : vars st !! v = Some p → abs st !! v = Some (value (heap st) p).
Proof. intros H. unfold abs. by rewrite lookup_fmap, H. Qed.

Lemma inv_ptr_value st w p : inv st → vars st !! w = Some p →
  ∀ l, p = Some l → is_Some (heap st !! l).
Proof. intros Hi Hw l ->. by eapply inv_ptr. Qed.

Lemma copy_construct_spec st v w :
  inv st → fresh_var st v → live st w →
  ∃ st', copy_construct st v w = Some st' ∧ inv st' ∧
         abs st' = <[v := default None (abs st !! w)]> (abs st).
Proof.
  intros Hi [Hv Hsz] [p Hp]. unfold copy_construct. rewrite Hv, Hp. simpl.
  rewrite (abs_lookup st w p Hp). simpl.
  destruct (share_spec st v p) as (st' & ? & ? & ? & ?); eauto using inv_ptr_value, no_ref_fresh.
  rewrite size_insert_fresh by done. lia.
Qed.

Lemma copy_assign_spec st v w :
  inv st → live st v → live st w →
  ∃ st', copy_assign st v w = Some st' ∧ inv st' ∧
         abs st' = <[v := default None (abs st !! w)]> (abs st).
Proof.
  intros Hi Hv Hw. unfold copy_assign. destruct (decide (v = w)) as [<-|Hne].
  { exists st. split_and!; [done|done|]. destruct Hv as [p Hp].
    rewrite (abs_lookup st v p Hp). simpl. rewrite insert_id; [done|by apply abs_lookup]. }
  destruct (reset_spec st v Hi Hv) as (st1 & -> & Hi1 & Hvars & Habs). simpl.
  destruct Hw as [p Hp].
  assert (vars st1 !! w = Some p) as Hp1 by by rewrite Hvars, lookup_insert_ne.
  rewrite Hp1. simpl.
  destruct (share_spec st1 v p) as (st2 & -> & Hi2 & _ & Habs2);
    eauto using inv_ptr_value, no_ref_after_reset.
  { rewrite size_insert_live; [by apply inv_bound|]. rewrite Hvars, lookup_insert_eq. eauto. }
  exists st2. split_and!; [done|done|]. rewrite Habs2, Habs, insert_insert_eq. f_equal.
  apply (f_equal (lookup w)) in Habs. rewrite (abs_lookup st1 w p Hp1) in Habs.
  rewrite lookup_insert_ne in Habs by done. by rewrite <- Habs.
Qed.

Lemma move_assign_spec st v w :
  inv st → live st v → live st w →
  ∃ st', move_assign st v w = Some st' ∧ inv st' ∧
    abs st' = <[v := if decide (v = w) then None else default None (abs st !! w)]>
                (<[w := None]> (abs st)).
Proof.
  intros Hi Hv Hw. unfold move_assign.
  destruct (reset_spec st v Hi Hv) as (st1 & -> & Hi1 & Hvars & Habs). simpl.
  assert (live st1 w) as Hw1.
  { unfold live. rewrite Hvars. destruct (decide (v = w)) as [<-|].
    - rewrite lookup_insert_eq. eauto.
    - by rewrite lookup_insert_ne. }
  destruct (take_over_spec st1 v w) as (st2 & -> & Hi2 & Habs2);
    eauto using no_ref_after_reset.
  { rewrite size_insert_live; [by apply inv_bound|].
    rewrite Hvars, lookup_insert_eq. eauto. }
  exists st2. split_and!; [done|done|]. rewrite Habs2, Habs.
  destruct (decide (v = w)) as [<-|Hne].
  - rewrite lookup_insert_eq. simpl. by rewrite !insert_insert_eq.
  - rewrite lookup_insert_ne by done.
    rewrite (insert_insert_ne _ w v) by done. by rewrite insert_insert_eq.
Qed.

Lemma exec_spec st o :
  inv st → valid st o → ∃ st', exec st o = Some st' ∧ inv st' ∧ abs st' = spec (abs st) o.
Proof.
  intros Hi Hv. destruct o as [v|v p|v w|v w|v w|v w|v|v]; simpl in *.
  - destruct Hv as [Hv Hsz]. unfold construct_empty. rewrite Hv.
    destruct (share_spec st v None) as (st' & Hs & ? & ? & ?);
      eauto using no_ref_fresh; [|rewrite size_insert_fresh by done; lia].
    naive_solver.
  - destruct (construct_data_spec st v p Hi Hv) as (r & -> & Hr). simpl.
    destruct r as [st'|]; eexists; (split; [done|]).
    + by destruct Hr as (d & -> & ? & ->).
    + by destruct Hr as [-> _].
  - destruct Hv. by apply copy_construct_spec.
  - destruct Hv as [[Hv Hsz] Hw]. unfold move_construct. rewrite Hv.
    apply take_over_spec; [done|by apply no_ref_fresh|done|].
    rewrite size_insert_fresh by done. lia.
  - destruct Hv. by apply copy_assign_spec.
  - destruct Hv. by apply move_assign_spec.
  - destruct (reset_spec st v Hi Hv) as (st' & ? & ? & _ & ?). eauto.
  - by apply destruct_spec.
Qed.

(** The states reachable by programs that respect object lifetimes. *)
Definition initial : sb_state := mk_sb ∅ ∅ 1.

Inductive reachable : sb_state → Prop :=
| reach_initial : reachable initial
| reach_exec st o st' : reachable st → valid st o → exec st o = Some st' → reachable st'.

Lemma inv_initial : inv initial.
Proof. split; simpl; try done. Qed.

Lemma reachable_inv_aux st : reachable st → inv st.
Proof.
  induction 1 as [|st o st' _ Hi Hv He]; [apply inv_initial|].
  destruct (exec_spec st o Hi Hv) as (st2 & He2 & ? & _). congruence.
Qed.

(** ** Properties *)

(** C14: in every reachable state each block's reference count equals the number of
    [shared_binary] objects pointing to it and is positive, every pointer is to a live
    block, and the next operation never touches a deleted block: there is no use after free,
    no double free, and a block is freed exactly when its last object lets go of it. *)
Theorem shared_binary_memory_safe st o :
  reachable st → valid st o →
  (∀ v l, vars st !! v = Some (Some l) → is_Some (heap st !! l)) ∧
  (∀ l i, heap st !! l = Some i → ref i = count l (vars st) ∧ 1 ≤ ref i) ∧
  ∃ st', exec st o = Some st' ∧
    (∀ l, is_Some (heap st' !! l) ↔ 1 ≤ count l (vars st')).
Proof.
  intros Hr%reachable_inv_aux Hv. split_and!; [by apply inv_ptr|by apply inv_ref|].
  destruct (exec_spec st o Hr Hv) as (st' & He & Hi' & _). exists st'. split; [done|].
  intros l. split.
  - intros [i Hl]. destruct (inv_ref st' Hi' l i Hl). lia.
  - intros Hc. destruct (map_choose (filter (points_to l) (vars st'))) as (v & p & Hvp).
    { intros H0. unfold count in Hc. rewrite H0 in Hc. by rewrite map_size_empty in Hc. }
    apply map_lookup_filter_Some in Hvp as [Hvp Hp]. unfold points_to in Hp. simpl in Hp.
    subst p. by eapply inv_ptr.
Qed.

Lemma shared_binary_memory_safe_witness :
  ∃ st, exec initial (ConstructData 1 (Some [Byte.x41])) = Some st ∧
  (∀ v l, vars st !! v = Some (Some l) → is_Some (heap st !! l)) ∧
  (∀ l i, heap st !! l = Some i → ref i = count l (vars st) ∧ 1 ≤ ref i) ∧
  ∃ st', exec st (CopyConstruct 2 1) = Some st' ∧
    (∀ l, is_Some (heap st' !! l) ↔ 1 ≤ count l (vars st')).
Proof.
  exists (default initial (exec initial (ConstructData 1 (Some [Byte.x41])))).
  split; [reflexivity|]. apply shared_binary_memory_safe.
  - apply (reach_exec initial (ConstructData 1 (Some [Byte.x41])));
      [apply reach_initial|by split|reflexivity].
  - split; [by split|]. eexists. reflexivity.
Defined.

(** the reference-counted representation implements plain values: after any sequence of
    operations, what each object holds is what assigning the byte vectors themselves would
    give, whatever the sharing underneath (a self-move empties the object). *)
Theorem shared_binary_refines_values st o :
  reachable st → valid st o →
  ∃ st', exec st o = Some st' ∧ abs st' = spec (abs st) o.
Proof.
  intros Hr%reachable_inv_aux Hv.
  destruct (exec_spec st o Hr Hv) as (st' & ? & _ & ?). eauto.
Qed.

Lemma shared_binary_refines_values_witness :
  ∃ st, exec initial (ConstructData 1 (Some [Byte.x41])) = Some st ∧
  ∃ st', exec st (MoveConstruct 2 1) = Some st' ∧ abs st' = spec (abs st) (MoveConstruct 2 1).
Proof.
  exists (default initial (exec initial (ConstructData 1 (Some [Byte.x41])))).
  split; [reflexivity|]. apply shared_binary_refines_values.
  - apply (reach_exec initial (ConstructData 1 (Some [Byte.x41])));
      [apply reach_initial|by split|reflexivity].
  - split; [by split|]. eexists. reflexivity.
Defined.

(** [operator==] compares values, never addresses: two objects are equal exactly when
    both are empty or both hold the same bytes. *)
Theorem shared_binary_equal_values st v w :
  reachable st → live st v → live st w →
  equal st v w = Some (bool_decide (abs st !! v = abs st !! w)).
Proof.
  intros Hi%reachable_inv_aux [p Hp] [q Hq].
  rewrite (abs_lookup st v p Hp), (abs_lookup st w q Hq).
  unfold equal, has_data, get_data. rewrite Hp, Hq. simpl.
  destruct p as [l|]; [destruct (inv_ptr st Hi v l Hp) as [i Hl]; rewrite Hl|];
  (destruct q as [l'|]; [destruct (inv_ptr st Hi w l' Hq) as [i' Hl']; rewrite Hl'|]); simpl.
  - f_equal. apply bool_decide_ext. rewrite Hl, Hl'. simpl. split; congruence.
  - f_equal. symmetry. apply bool_decide_eq_false. by rewrite Hl.
  - f_equal. symmetry. apply bool_decide_eq_false. by rewrite Hl'.
  - reflexivity.
Qed.

Lemma shared_binary_equal_values_witness :
  let st := default initial (exec initial (ConstructData 1 (Some [Byte.x41]))) in
  equal st 1 1 = Some (bool_decide (abs st !! 1%positive = abs st !! 1%positive)).
Proof.
  apply shared_binary_equal_values.
  - apply (reach_exec initial (ConstructData 1 (Some [Byte.x41])));
      [apply reach_initial|by split|reflexivity].
  - eexists. reflexivity.
  - eexists. reflexivity.
Defined.
