(* ===== verification/SharedFunction.v ===== *)
(** Shared function objects: extern/cpp-stl-ext/include/stl_ext/shared_any.h and
    shared_function.h, the type of the handlers of all asynchronous operations.

    The state is the heap (objects, and the blocks with their reference counts) together with
    the live [shared_function] objects. The type of an object is the [Function] it was created
    with; the manager of a [shared_any] and the invoker of a [shared_function] are known by the
    type they were instantiated for. An operation answers [None] where the C++ code would touch
    something that was deleted, or use an object at a type it does not have. *)

From stdpp Require Import gmap.
From S2P Require Import Prelude Errors SharedBinary.

Open Scope Z_scope.

Abbreviation ty := positive.

Section shared_function.
Context {V : Type}.   (* function objects *)

(** [shared_any_data] *)
Record shared_any_data := mk_data { obj_ptr : option loc; mng_ptr : option loc }.
Definition null_data : shared_any_data := mk_data None None.

(** A [shared_function]: the [data_] and [manager_] of its [func_], and [invoker_]. *)
Record fn := mk_fn { data_ : shared_any_data; manager_ : option ty; invoker_ : option ty }.
Definition null_fn : fn := mk_fn null_data None None.

(** [counts] are the blocks of [manager_data], whose counters have 32 bits. *)
Record memory := mk_memory {
  objects : gmap loc (ty * V);
  counts : gmap loc Z;
  fns : gmap var fn;
  next_block : loc;
}.

Definition set_fn (m : memory) (v : var) (f : fn) : memory :=
  mk_memory (objects m) (counts m) (<[v := f]> (fns m)) (next_block m).

(** ** [shared_any_impl] *)

(** [create]: each of the two allocations may fail. *)
Definition create (m : memory) (t : ty) (x : V) (object_ok block_ok : bool) :
    memory * shared_any_data * bool :=
  let l := next_block m in
  (mk_memory (if object_ok then <[l := (t, x)]> (objects m) else objects m)
     (if block_ok then <[l := 1]> (counts m) else counts m) (fns m) (Pos.succ l),
   mk_data (if object_ok then Some l else None) (if block_ok then Some l else None),
   object_ok && block_ok).

(** [destroy], for objects of type [t]. *)
Definition destroy (m : memory) (t : ty) (d : shared_any_data) : option memory :=
  lo ← obj_ptr d; lm ← mng_ptr d;
  o ← objects m !! lo;
  if decide (o.1 = t) then Some (mk_memory (delete lo (objects m)) (delete lm (counts m)) (fns m) (next_block m))
  else None.

(** The operations [add_ref] and [release] of [manage]. *)
Definition add_ref (m : memory) (d : shared_any_data) : option memory :=
  l ← mng_ptr d; c ← counts m !! l;
  Some (mk_memory (objects m) (<[l := wrap32 (c + 1)]> (counts m)) (fns m) (next_block m)).
Definition release (m : memory) (t : ty) (d : shared_any_data) : option (memory * shared_any_data) :=
  l ← mng_ptr d; c ← counts m !! l;
  let m' := mk_memory (objects m) (<[l := wrap32 (c - 1)]> (counts m)) (fns m) (next_block m) in
  if wrap32 (c - 1) =? 0 then m'' ← destroy m' t d; Some (m'', null_data) else Some (m', d).

(** ** [shared_any], as the member [func_] of an object *)

Definition has_value (f : fn) : bool := bool_decide (is_Some (manager_ f)).

Definition reset (m : memory) (v : var) : option memory :=
  f ← fns m !! v;
  match manager_ f with
  | None => Some m
  | Some t => '(m', d) ← release m t (data_ f); Some (set_fn m' v (mk_fn d None (invoker_ f)))
  end.

(** Copying the member of [f] into that of [v], which has none. *)
Definition share_any (m : memory) (v : var) (f : fn) (invoker : option ty) : option memory :=
  m' ← match manager_ f with Some _ => add_ref m (data_ f) | None => Some m end;
  Some (set_fn m' v (mk_fn (data_ f) (manager_ f) invoker)).

(** [emplace]: a failure leaves the object without a value. *)
Definition emplace (m : memory) (v : var) (t : ty) (x : V) (object_ok block_ok : bool) :
    option (memory * bool) :=
  m ← reset m v;
  f ← fns m !! v;
  let '(m, d, ok) := create m t x object_ok block_ok in
  Some (set_fn m v (mk_fn d (if ok then Some t else manager_ f) (invoker_ f)), ok).

(** ** [shared_function] *)

Definition construct_null (m : memory) (v : var) : option memory :=
  match fns m !! v with Some _ => None | None => Some (set_fn m v null_fn) end.

(** A constructor that throws leaves no object behind. *)
Definition construct_function (m : memory) (v : var) (t : ty) (x : V) (object_ok block_ok : bool) :
    option memory :=
  match fns m !! v with
  | Some _ => None
  | None =>
      let '(m, d, ok) := create m t x object_ok block_ok in
      Some (if ok then set_fn m v (mk_fn d (Some t) (Some t)) else m)
  end.

Definition copy_construct (m : memory) (v w : var) : option memory :=
  match fns m !! v with
  | Some _ => None
  | None => f ← fns m !! w; share_any m v f (invoker_ f)
  end.

(** The move constructor swaps the member with an empty one; the invoker is copied. *)
Definition move_construct (m : memory) (v w : var) : option memory :=
  match fns m !! v with
  | Some _ => None
  | None =>
      f ← fns m !! w;
      Some (set_fn (set_fn m w (mk_fn null_data None (invoker_ f))) v f)
  end.

Definition copy_assign (m : memory) (v w : var) : option memory :=
  if decide (v = w) then Some m
  else
    m ← reset m v; f ← fns m !! w; share_any m v f (invoker_ f).

(** Move assignment is that of the members: [func_] is swapped, [invoker_] is copied. *)
Definition move_assign (m : memory) (v w : var) : option memory :=
  if decide (v = w) then Some m
  else
    f ← fns m !! v; g ← fns m !! w;
    Some (set_fn (set_fn m w (mk_fn (data_ f) (manager_ f) (invoker_ g))) v g).

Definition assign_null (m : memory) (v : var) : option memory := reset m v.

(** [operator=(Function&&)]; the invoker is only set when no exception was thrown. *)
Definition assign_function (m : memory) (v : var) (t : ty) (x : V) (object_ok block_ok : bool) :
    option memory :=
  '(m, ok) ← emplace m v t x object_ok block_ok;
  f ← fns m !! v;
  Some (if ok : bool then set_fn m v (mk_fn (data_ f) (manager_ f) (Some t)) else m).

Definition destruct_fn (m : memory) (v : var) : option memory :=
  m ← reset m v;
  Some (mk_memory (objects m) (counts m) (delete v (fns m)) (next_block m)).

(** [operator()]: the object that is called, through [impl::shared_function_impl::invoke]. *)
Definition call (m : memory) (v : var) : option (result V) :=
  f ← fns m !! v;
  if negb (has_value f) then
    Some (Throw (std_runtime_error "shared_function::operator() called for empty object"))
  else
    t ← invoker_ f; l ← obj_ptr (data_ f); o ← objects m !! l;
    if decide (o.1 = t) then Some (Ok o.2) else None.

Definition use_count (m : memory) (v : var) : option Z :=
  f ← fns m !! v;
  match manager_ f with
  | None => Some 0
  | Some _ => l ← mng_ptr (data_ f); counts m !! l
  end.

(** ** Programs *)

Inductive fn_op : Type :=
| FConstructNull (v : var)
| FConstruct (v : var) (t : ty) (x : V) (object_ok block_ok : bool)
| FCopyConstruct (v w : var)
| FMoveConstruct (v w : var)
| FCopyAssign (v w : var)
| FMoveAssign (v w : var)
| FAssignNull (v : var)
| FAssign (v : var) (t : ty) (x : V) (object_ok block_ok : bool)
| FDestruct (v : var).

Definition exec_fn (m : memory) (o : fn_op) : option memory :=
  match o with
  | FConstructNull v => construct_null m v
  | FConstruct v t x b b' => construct_function m v t x b b'
  | FCopyConstruct v w => copy_construct m v w
  | FMoveConstruct v w => move_construct m v w
  | FCopyAssign v w => copy_assign m v w
  | FMoveAssign v w => move_assign m v w
  | FAssignNull v => assign_null m v
  | FAssign v t x b b' => assign_function m v t x b b'
  | FDestruct v => destruct_fn m v
  end.

(** Lifetimes: constructors run on fresh storage, other operations on live objects; there are
    fewer than 2^32 objects. *)
Definition live_fn (m : memory) (v : var) : Prop := is_Some (fns m !! v).
Definition fresh_fn (m : memory) (v : var) : Prop :=
  fns m !! v = None ∧ Z.of_nat (base.size (fns m)) + 1 < 2 ^ 32.
Definition valid_fn (m : memory) (o : fn_op) : Prop :=
  match o with
  | FConstructNull v | FConstruct v _ _ _ _ => fresh_fn m v
  | FCopyConstruct v w | FMoveConstruct v w => fresh_fn m v ∧ live_fn m w
  | FCopyAssign v w | FMoveAssign v w => live_fn m v ∧ live_fn m w
  | FAssignNull v | FAssign v _ _ _ _ | FDestruct v => live_fn m v
  end.

(** The objects that were moved from by an assignment and not assigned since; an assignment
    from such an object passes its state on. *)
Definition moved_after (s : gset var) (o : fn_op) : gset var :=
  match o with
  | FConstructNull v | FConstruct v _ _ _ _ | FAssignNull v | FAssign v _ _ _ _ | FDestruct v => s ∖ {[v]}
  | FCopyConstruct v w | FMoveConstruct v w => if decide (w ∈ s) then {[v]} ∪ s else s ∖ {[v]}
  | FCopyAssign v w => if decide (v = w) then s else if decide (w ∈ s) then {[v]} ∪ s else s ∖ {[v]}
  | FMoveAssign v w =>
      if decide (v = w) then s else {[w]} ∪ (if decide (w ∈ s) then {[v]} ∪ s else s ∖ {[v]})
  end.

(** Whether the allocations of an operation succeed. *)
Definition allocates (o : fn_op) : bool :=
  match o with
  | FConstruct _ _ _ b b' | FAssign _ _ _ b b' => b && b'
  | _ => true
  end.

(** The states that programs reach, with the objects that were moved from and whether all
    allocations succeeded. *)
Definition empty_memory : memory := mk_memory ∅ ∅ ∅ 1.
Inductive reachable_fn : memory → gset var → bool → Prop :=
| reach_empty : reachable_fn empty_memory ∅ true
| reach_step m s k o m' :
    reachable_fn m s k → valid_fn m o → exec_fn m o = Some m' →
    reachable_fn m' (moved_after s o) (k && allocates o).
End shared_function.
Arguments memory : clear implicits.
Arguments fn_op : clear implicits.

(** ** Invariant *)

Section invariant.
Context {V : Type}.
Implicit Types (m : memory V) (f g : fn) (v w : var) (l : loc).
Context (k : bool).   (* all allocations succeeded *)

(** The block that an object owns a reference of. *)
Definition ptr_of (f : fn) : option loc := match manager_ f with Some _ => mng_ptr (data_ f) | None => None end.
Definition ptrs (fs : gmap var fn) : gmap var (option loc) := ptr_of <$> fs.

(** Objects with a value point to an object of the type of their manager and to a block; the
    counter of a block that is pointed to is the number of pointers; without failed allocations
    everything on the heap is pointed to. *)
Record mem_inv m : Prop := {
  mi_value : ∀ v f t, fns m !! v = Some f → manager_ f = Some t →
    ∃ l x c, data_ f = mk_data (Some l) (Some l) ∧ objects m !! l = Some (t, x) ∧ counts m !! l = Some c;
  mi_count : ∀ l c, counts m !! l = Some c → 1 ≤ count l (ptrs (fns m)) → c = count l (ptrs (fns m));
  mi_fresh : ∀ l, (next_block m ≤ l)%positive → objects m !! l = None ∧ counts m !! l = None;
  mi_bound : Z.of_nat (base.size (fns m)) < 2 ^ 32;
  mi_owned : k = true → ∀ l, is_Some (objects m !! l) ∨ is_Some (counts m !! l) →
    1 ≤ count l (ptrs (fns m));
}.

Lemma ptrs_insert v f fs : ptrs (<[v := f]> fs) = <[v := ptr_of f]> (ptrs fs).
Proof. apply fmap_insert. Qed.
Lemma ptrs_lookup v f fs : fs !! v = Some f → ptrs fs !! v = Some (ptr_of f).
Proof. intros Hv. unfold ptrs. by rewrite lookup_fmap, Hv. Qed.
Lemma ptr_of_value f t d : manager_ f = Some t → data_ f = d → ptr_of f = mng_ptr d.
Proof. unfold ptr_of. by intros -> ->. Qed.
Lemma ptrs_size fs : base.size (ptrs fs) = base.size fs.
Proof. apply map_size_fmap. Qed.
Lemma count_bound l fs : count l (ptrs fs) ≤ Z.of_nat (base.size fs).
Proof. rewrite <-ptrs_size. apply count_le_size. Qed.

(** What [v] contributes to the count of [l]. *)
Definition owns l (o : option fn) : Z := hit l (ptr_of <$> o).
Lemma count_set l v f fs : count l (ptrs (<[v := f]> fs)) = count l (ptrs fs) - owns l (fs !! v) + owns l (Some f).
Proof. rewrite ptrs_insert, count_insert. unfold owns, ptrs. by rewrite lookup_fmap. Qed.
Lemma owns_empty l (f : fn) : manager_ f = None → owns l (Some f) = 0.
Proof. intros Hm. unfold owns, hit. simpl. unfold ptr_of. rewrite Hm. by rewrite decide_False. Qed.
Lemma owns_value l f t l' : manager_ f = Some t → data_ f = mk_data (Some l') (Some l') →
  owns l (Some f) = if decide (l = l') then 1 else 0.
Proof. intros Hm Hd. unfold owns. simpl. rewrite (ptr_of_value f t _ Hm Hd). simpl. apply hit_ptr. Qed.
Lemma owns_range l o : 0 ≤ owns l o ≤ 1.
Proof. unfold owns, hit. case_decide; lia. Qed.

Lemma value_counted m v f t :
  mem_inv m → fns m !! v = Some f → manager_ f = Some t →
  ∃ l x c, data_ f = mk_data (Some l) (Some l) ∧ objects m !! l = Some (t, x) ∧ counts m !! l = Some c ∧
    c = count l (ptrs (fns m)) ∧ 1 ≤ c < 2 ^ 32.
Proof.
  intros Hi Hv Hm. destruct (mi_value m Hi v f t Hv Hm) as (l & x & c & Hd & Ho & Hc).
  assert (1 ≤ count l (ptrs (fns m))) as Hpos.
  { apply (count_pos l v). rewrite (ptrs_lookup v f) by done. f_equal. by apply (ptr_of_value f t _ Hm Hd). }
  exists l, x, c. split_and!; [done|done|done|by apply (mi_count m Hi)| |];
    rewrite (mi_count m Hi l c Hc Hpos); [done|].
  pose proof (count_bound l (fns m)). pose proof (mi_bound m Hi). lia.
Qed.

(** Two objects that share a block. *)
Lemma shared_count m v v' f f' t t' l :
  fns m !! v = Some f → fns m !! v' = Some f' → v ≠ v' → manager_ f = Some t → manager_ f' = Some t' →
  mng_ptr (data_ f) = Some l → mng_ptr (data_ f') = Some l → 2 ≤ count l (ptrs (fns m)).
Proof.
  intros Hv Hv' Hne Hm Hm' Hl Hl'. apply (count_others l v v'); [..|done].
  - rewrite (ptrs_lookup v f) by done. f_equal. unfold ptr_of. by rewrite Hm.
  - rewrite (ptrs_lookup v' f') by done. f_equal. unfold ptr_of. by rewrite Hm'.
Qed.

(** A write of an object without a value over one without a value. *)
Lemma set_empty_inv m v f :
  mem_inv m → (∀ l, owns l (fns m !! v) = 0) → manager_ f = None →
  Z.of_nat (base.size (<[v := f]> (fns m))) < 2 ^ 32 → mem_inv (set_fn m v f).
Proof.
  intros [Hval Hcnt Hfr Hb Hown_] Ho Hm Hsz. split; simpl; [| |done|done|].
  - intros v' f' t Hv' Hm'. destruct (decide (v = v')) as [<-|Hne].
    + rewrite lookup_insert_eq in Hv'. congruence.
    + rewrite lookup_insert_ne in Hv' by done. eauto.
  - intros l c Hc. rewrite count_set, Ho, (owns_empty l f Hm). intros H1.
    rewrite (Hcnt l c Hc); lia.
  - intros Hk l Hl. rewrite count_set, Ho, (owns_empty l f Hm). specialize (Hown_ Hk l Hl). lia.
Qed.

(** [reset] takes the value of an object away. *)
Lemma reset_inv m v f :
  mem_inv m → fns m !! v = Some f →
  ∃ m' d, reset m v = Some m' ∧ mem_inv m' ∧ fns m' = <[v := mk_fn d None (invoker_ f)]> (fns m).
Proof.
  intros Hi Hv. unfold reset. rewrite Hv. simpl. destruct (manager_ f) as [t|] eqn:Hm.
  2:{ exists m, (data_ f). split_and!; [done|done|]. rewrite insert_id; [done|].
      rewrite Hv. destruct f. simpl in *. by subst. }
  destruct (value_counted m v f t Hi Hv Hm) as (l & x & c & Hd & Ho & Hc & Hcc & Hr).
  assert (wrap32 (c - 1) = c - 1) as Hw by (apply Z.mod_small; lia).
  unfold release. rewrite Hd. simpl. rewrite Hc. simpl. rewrite Hw.
  assert (∀ l', owns l' (Some f) = if decide (l' = l) then 1 else 0) as Hown by (intros; by apply (owns_value _ f t)).
  destruct Hi as [Hval Hcnt Hfr Hb Hown_].
  assert (∀ i d, Z.of_nat (base.size (<[v := mk_fn d None i]> (fns m))) < 2 ^ 32) as Hsz.
  { intros i d. rewrite map_size_insert_Some; eauto. }
  destruct (Z.eqb_spec (c - 1) 0) as [Hz|Hnz].
  - unfold destroy. simpl. rewrite Ho. simpl. rewrite decide_True by done.
    eexists _, null_data. split; [done|]. split; [|done]. split; simpl; [| | |done|].
    + intros v' f' t' Hv' Hm'. destruct (decide (v = v')) as [<-|Hne]; [by rewrite lookup_insert_eq in Hv'; simplify_eq|].
      rewrite lookup_insert_ne in Hv' by done. destruct (Hval v' f' t' Hv' Hm') as (l' & x' & c' & Hd' & Ho' & Hc').
      assert (l ≠ l') as Hl.
      { intros <-. pose proof (shared_count m v v' f f' t t' l Hv Hv' Hne Hm Hm') as H2.
        rewrite Hd, Hd' in H2. specialize (H2 eq_refl eq_refl). lia. }
      exists l', x', c'. rewrite !lookup_delete_ne, lookup_insert_ne by done. done.
    + intros l' c' [Hne Hc']%lookup_delete_Some. rewrite lookup_insert_ne in Hc' by done.
      rewrite count_set, Hv, Hown, decide_False, owns_empty by done. intros H1. rewrite (Hcnt l' c' Hc'); lia.
    + intros l' Hl'. destruct (Hfr l' Hl') as [H1 H2]. split.
      * apply lookup_delete_None. by right.
      * apply lookup_delete_None. right. rewrite lookup_insert_ne; [done|]. intros <-. congruence.
    + intros Hk l' Hl'. rewrite count_set, Hv, Hown, owns_empty by done.
      assert (l' ≠ l) as Hne by (intros ->; rewrite !lookup_delete_eq in Hl'; destruct Hl' as [[]|[]]; done).
      rewrite !lookup_delete_ne, lookup_insert_ne in Hl' by done. rewrite decide_False by done.
      specialize (Hown_ Hk l' Hl'). lia.
  - eexists _, _. split; [done|]. split; [|done]. split; simpl; [| | |done|].
    + intros v' f' t' Hv' Hm'. destruct (decide (v = v')) as [<-|Hne]; [by rewrite lookup_insert_eq in Hv'; simplify_eq|].
      rewrite lookup_insert_ne in Hv' by done. destruct (Hval v' f' t' Hv' Hm') as (l' & x' & c' & Hd' & Ho' & Hc').
      destruct (decide (l = l')) as [<-|Hl]; [exists l, x', (c - 1)|exists l', x', c'].
      * by rewrite lookup_insert_eq.
      * by rewrite lookup_insert_ne.
    + intros l' c' Hc'. rewrite count_set, Hv, Hown, owns_empty by done. intros H1.
      destruct (decide (l' = l)) as [->|Hne].
      * rewrite lookup_insert_eq in Hc'. injection Hc' as <-. lia.
      * rewrite lookup_insert_ne in Hc' by done. rewrite (Hcnt l' c' Hc'); lia.
    + intros l' Hl'. destruct (Hfr l' Hl') as [H1 H2]. split; [done|].
      rewrite lookup_insert_ne; [done|]. intros <-. congruence.
    + intros Hk l' Hl'. rewrite count_set, Hv, Hown, owns_empty by done.
      destruct (decide (l' = l)) as [->|Hne]; [lia|]. rewrite lookup_insert_ne in Hl' by done.
      specialize (Hown_ Hk l' Hl'). lia.
Qed.

(** Copying adds a reference. *)
Lemma share_inv m v w f i :
  mem_inv m → (∀ l, owns l (fns m !! v) = 0) → fns m !! w = Some f →
  Z.of_nat (base.size (<[v := mk_fn (data_ f) (manager_ f) i]> (fns m))) < 2 ^ 32 →
  ∃ m', share_any m v f i = Some m' ∧ mem_inv m' ∧
    fns m' = <[v := mk_fn (data_ f) (manager_ f) i]> (fns m).
Proof.
  intros Hi Hno Hw Hsz. unfold share_any. destruct (manager_ f) as [t|] eqn:Hm.
  2:{ eexists. split; [done|]. split; [|done]. by apply set_empty_inv. }
  destruct (value_counted m w f t Hi Hw Hm) as (l & x & c & Hd & Ho & Hc & Hcc & Hr).
  set (f' := mk_fn (data_ f) (Some t) i) in *.
  assert (∀ l', owns l' (Some f') = if decide (l' = l) then 1 else 0) as Hown.
  { intros l'. by apply (owns_value _ f' t). }
  assert (c + 1 < 2 ^ 32) as Hlt.
  { pose proof (count_bound l (<[v := f']> (fns m))) as Hb. rewrite count_set, Hno, Hown, decide_True in Hb by done. lia. }
  unfold add_ref. rewrite Hd. simpl. rewrite Hc. simpl.
  assert (wrap32 (c + 1) = c + 1) as -> by (apply Z.mod_small; lia).
  eexists. split; [done|]. destruct Hi as [Hval Hcnt Hfr Hb Hown_]. split; [|done].
  split; simpl; [| | |done|].
  - intros v' g t' Hv' Hm'. assert (∃ l' x' c', data_ g = mk_data (Some l') (Some l') ∧
      objects m !! l' = Some (t', x') ∧ counts m !! l' = Some c') as (l' & x' & c' & Hd' & Ho' & Hc').
    { destruct (decide (v = v')) as [<-|Hne].
      - rewrite lookup_insert_eq in Hv'. injection Hv' as <-. injection Hm' as <-. by exists l, x, c.
      - rewrite lookup_insert_ne in Hv' by done. eauto. }
    exists l', x'. destruct (decide (l = l')) as [<-|Hl].
    + exists (c + 1). by rewrite lookup_insert_eq.
    + exists c'. by rewrite lookup_insert_ne.
  - intros l' c' Hc'. rewrite count_set, Hno, Hown. intros H1. destruct (decide (l' = l)) as [->|Hne].
    + rewrite lookup_insert_eq in Hc'. injection Hc' as <-. lia.
    + rewrite lookup_insert_ne in Hc' by done. rewrite (Hcnt l' c' Hc'); lia.
  - intros l' Hl'. destruct (Hfr l' Hl') as [H1 H2]. split; [done|].
    rewrite lookup_insert_ne; [done|]. intros <-. congruence.
  - intros Hk l' Hl'. rewrite count_set, Hno, Hown. destruct (decide (l' = l)) as [->|Hne]; [lia|].
    rewrite lookup_insert_ne in Hl' by done. specialize (Hown_ Hk l' Hl'). lia.
Qed.

(** Nothing points to blocks that were not created. *)
Lemma count_fresh m l : mem_inv m → (next_block m ≤ l)%positive → count l (ptrs (fns m)) = 0.
Proof.
  intros Hi Hl. unfold count. rewrite map_empty_filter_2; [done|]. intros v p Hp Heq.
  unfold points_to in Heq. simpl in Heq. subst p. unfold ptrs in Hp. rewrite lookup_fmap in Hp.
  destruct (fns m !! v) as [f|] eqn:Hv; [|done]. injection Hp as Hp. unfold ptr_of in Hp.
  destruct (manager_ f) as [t|] eqn:Hm; [|done].
  destruct (mi_value m Hi v f t Hv Hm) as (l' & x & c & Hd & _ & Hc). rewrite Hd in Hp. injection Hp as ->.
  destruct (mi_fresh m Hi l Hl). congruence.
Qed.

(** Creation, whatever fails, and giving what was created to an object. *)
Lemma create_inv m t x b b' m1 d ok :
  mem_inv m → (k = true → b && b' = true) → create m t x b b' = (m1, d, ok) →
  fns m1 = fns m ∧ (ok = false → mem_inv m1) ∧
  ∀ v i, (∀ l, owns l (fns m !! v) = 0) →
    Z.of_nat (base.size (<[v := mk_fn d (if ok then Some t else None) i]> (fns m))) < 2 ^ 32 →
    mem_inv (set_fn m1 v (mk_fn d (if ok then Some t else None) i)).
Proof.
  intros Hi Hk [= <- <- <-]. pose proof (count_fresh m (next_block m) Hi ltac:(lia)) as H0.
  destruct (mi_fresh m Hi (next_block m) ltac:(lia)) as [Hno Hnc]. pose proof Hi as [Hval Hcnt Hfr Hb Hown_].
  split; [done|]. assert (b && b' = false → mem_inv (mk_memory (if b then <[next_block m:=(t, x)]> (objects m) else objects m)
    (if b' then <[next_block m:=1]> (counts m) else counts m) (fns m) (Pos.succ (next_block m)))) as Hi1.
  { intros Hbb. split; simpl; [| | |done|].
    - intros v f t' Hv Hm. destruct (Hval v f t' Hv Hm) as (l & y & c & Hd & Ho & Hc).
      assert (next_block m ≠ l) by congruence. exists l, y, c.
      by destruct b, b'; rewrite ?lookup_insert_ne by done.
    - intros l c Hc H1. destruct (decide (next_block m = l)) as [<-|Hl]; [lia|].
      destruct b'; [rewrite lookup_insert_ne in Hc by done|]; by apply Hcnt.
    - intros l Hl. destruct (Hfr l ltac:(lia)) as [H1 H2].
      by destruct b, b'; rewrite ?lookup_insert_ne by lia.
    - intros Hk'. rewrite Hk in Hbb by done. done. }
  split; [done|]. intros v i Hown Hsz. destruct (b && b') eqn:Eb; [|by apply set_empty_inv; [apply Hi1|..]].
  apply andb_prop in Eb as [-> ->]. simpl in *.
  set (f := mk_fn (mk_data (Some (next_block m)) (Some (next_block m))) (Some t) i) in *.
  assert (∀ l', owns l' (Some f) = if decide (l' = next_block m) then 1 else 0) as Hownf.
  { intros l'. by apply (owns_value _ f t). }
  split; simpl; [| | |done|].
  - intros v' g t' Hv' Hm'. destruct (decide (v = v')) as [<-|Hne].
    + rewrite lookup_insert_eq in Hv'. injection Hv' as <-. injection Hm' as <-.
      exists (next_block m), x, 1. by rewrite !lookup_insert_eq.
    + rewrite lookup_insert_ne in Hv' by done. destruct (Hval v' g t' Hv' Hm') as (l & y & c & Hd & Ho & Hc).
      assert (next_block m ≠ l) by congruence. exists l, y, c. by rewrite !lookup_insert_ne by done.
  - intros l c Hc. rewrite count_set, Hown, Hownf. intros H1. destruct (decide (l = next_block m)) as [->|Hl].
    + rewrite lookup_insert_eq in Hc. injection Hc as <-. lia.
    + rewrite lookup_insert_ne in Hc by done. rewrite (Hcnt l c Hc); lia.
  - intros l Hl. destruct (Hfr l ltac:(lia)) as [H1 H2]. by rewrite !lookup_insert_ne by lia.
  - intros Hk' l Hl. rewrite count_set, Hown, Hownf. destruct (decide (l = next_block m)) as [->|Hne]; [lia|].
    rewrite !lookup_insert_ne in Hl by done. specialize (Hown_ Hk' l Hl). lia.
Qed.

(** Moving members between two objects. *)
Lemma move_inv m v w (of_ : option fn) f g f' :
  mem_inv m → v ≠ w → fns m !! v = of_ → fns m !! w = Some g →
  (∀ l, owns l of_ = owns l (Some f)) → (manager_ f ≠ None → of_ = Some f) →
  data_ f' = data_ f → manager_ f' = manager_ f →
  Z.of_nat (base.size (<[v := g]> (<[w := f']> (fns m)))) < 2 ^ 32 →
  mem_inv (set_fn (set_fn m w f') v g).
Proof.
  intros [Hval Hcnt Hfr Hb Hown_] Hne Hv Hw Hown Hof Hd Hm Hsz.
  assert (∀ l, count l (ptrs (<[v := g]> (<[w := f']> (fns m)))) = count l (ptrs (fns m))) as Hsame.
  { intros l. rewrite !count_set, lookup_insert_ne, Hv, Hw, Hown by done.
    assert (owns l (Some f') = owns l (Some f)) as ->; [|lia].
    unfold owns. simpl. unfold ptr_of. by rewrite Hd, Hm. }
  split; simpl; [| |done|done|].
  - intros v' h t Hv' Hm'. destruct (decide (v = v')) as [<-|Hn1].
    { rewrite lookup_insert_eq in Hv'. injection Hv' as <-. eauto. }
    rewrite lookup_insert_ne in Hv' by done. destruct (decide (w = v')) as [<-|Hn2].
    + rewrite lookup_insert_eq in Hv'. injection Hv' as <-. rewrite Hd. rewrite Hm in Hm'.
      apply (Hval v f t); [|done]. rewrite Hv. apply Hof. by rewrite Hm'.
    + rewrite lookup_insert_ne in Hv' by done. eauto.
  - intros l c Hc. rewrite Hsame. by apply Hcnt.
  - intros Hk l Hl. rewrite Hsame. by apply Hown_.
Qed.

Lemma delete_inv m v :
  mem_inv m → (∀ l, owns l (fns m !! v) = 0) →
  mem_inv (mk_memory (objects m) (counts m) (delete v (fns m)) (next_block m)).
Proof.
  intros [Hval Hcnt Hfr Hb Hown_] Ho.
  assert (∀ l, count l (ptrs (delete v (fns m))) = count l (ptrs (fns m))) as Hsame.
  { intros l. unfold ptrs. rewrite fmap_delete, count_delete, lookup_fmap.
    unfold owns in Ho. rewrite Ho. lia. }
  split; simpl; [| |done| |].
  - intros v' f' t [Hne Hv']%lookup_delete_Some Hm'. eauto.
  - intros l c Hc. rewrite Hsame. by apply Hcnt.
  - enough (base.size (delete v (fns m)) <= base.size (fns m))%nat by lia.
    rewrite <- !(size_dom (D:=gset var)). apply subseteq_size. set_solver.
  - intros Hk l Hl. rewrite Hsame. by apply Hown_.
Qed.

(** ** Types *)

(** The invoker of an object with a value is that of its type, unless the object was moved
    from by an assignment. *)
Definition typed_fn (f : fn) : Prop := ∀ t, manager_ f = Some t → invoker_ f = Some t.
Definition typed (fs : gmap var fn) (s : gset var) : Prop := ∀ v f, v ∉ s → fs !! v = Some f → typed_fn f.

Lemma typed_set (fs : gmap var fn) s s' v f :
  typed fs s → (v ∉ s' → typed_fn f) → (∀ u, u ≠ v → u ∉ s' → u ∉ s) → typed (<[v := f]> fs) s'.
Proof.
  intros Ht Hf Hs u g Hu Hg. destruct (decide (v = u)) as [<-|Hne].
  - rewrite lookup_insert_eq in Hg. injection Hg as <-. by apply Hf.
  - rewrite lookup_insert_ne in Hg by done. by apply (Ht u); [apply Hs|].
Qed.
Lemma typed_empty d i : typed_fn (mk_fn d None i).
Proof. done. Qed.

(** An object without a value, and storage without an object, own nothing. *)
Lemma owns_none l : owns l None = 0.
Proof. done. Qed.
Lemma owns_after_reset (fs : gmap var fn) v d i l : owns l ((<[v := mk_fn d None i]> fs) !! v) = 0.
Proof. rewrite lookup_insert_eq. by apply owns_empty. Qed.

Lemma size_fresh m v f : fresh_fn m v → Z.of_nat (base.size (<[v := f]> (fns m))) < 2 ^ 32.
Proof. intros [Hv Hsz]. rewrite map_size_insert_None by done. lia. Qed.
Lemma size_live (fs : gmap var fn) v f :
  is_Some (fs !! v) → Z.of_nat (base.size fs) < 2 ^ 32 → Z.of_nat (base.size (<[v := f]> fs)) < 2 ^ 32.
Proof. intros Hv Hsz. by rewrite map_size_insert_Some. Qed.

Definition step_ok m s (r : option (memory V)) s' : Prop :=
  mem_inv m → typed (fns m) s → ∃ m', r = Some m' ∧ mem_inv m' ∧ typed (fns m') s'.

Lemma construct_null_ok m s v : fresh_fn m v → step_ok m s (construct_null m v) (s ∖ {[v]}).
Proof.
  intros Hv Hi Ht. pose proof Hv as [Hn _]. unfold construct_null. rewrite Hn.
  eexists. split; [done|]. split.
  - apply set_empty_inv; [done|by rewrite Hn|done|by apply size_fresh].
  - apply (typed_set _ s); [done|done|set_solver].
Qed.

Lemma construct_function_ok m s v t x b b' :
  (k = true → b && b' = true) → fresh_fn m v → step_ok m s (construct_function m v t x b b') (s ∖ {[v]}).
Proof.
  intros Hk Hv Hi Ht. pose proof Hv as [Hn _]. unfold construct_function. rewrite Hn.
  destruct (create m t x b b') as [[m1 d] ok] eqn:Ec.
  destruct (create_inv m t x b b' m1 d ok Hi Hk Ec) as (Hf & Hi1 & Hset). eexists. split; [done|]. destruct ok.
  - split; [apply Hset; [by rewrite Hn|by apply size_fresh]|]. simpl. rewrite Hf.
    apply (typed_set _ s); [done| |set_solver]. by intros _ t' [= <-].
  - split; [by apply Hi1|]. rewrite Hf. intros u f Hu Hfu. apply (Ht u); [|done].
    assert (u ≠ v) by (intros ->; congruence). set_solver.
Qed.

Lemma copy_construct_ok m s v w :
  fresh_fn m v → live_fn m w →
  step_ok m s (copy_construct m v w) (if decide (w ∈ s) then {[v]} ∪ s else s ∖ {[v]}).
Proof.
  intros Hv [f Hw] Hi Ht. pose proof Hv as [Hn _]. unfold copy_construct. rewrite Hn, Hw. simpl.
  destruct (share_inv m v w f (invoker_ f) Hi) as (m' & Hm' & Hi' & Hf); [by rewrite Hn|done|by apply size_fresh|].
  exists m'. split; [done|]. split; [done|]. rewrite Hf. case_decide as Hs.
  - apply (typed_set _ s); [done|set_solver|set_solver].
  - apply (typed_set _ s); [done| |set_solver]. intros _. destruct f. by apply (Ht w).
Qed.

Lemma move_construct_ok m s v w :
  fresh_fn m v → live_fn m w →
  step_ok m s (move_construct m v w) (if decide (w ∈ s) then {[v]} ∪ s else s ∖ {[v]}).
Proof.
  intros Hv [g Hw] Hi Ht. pose proof Hv as [Hn _]. unfold move_construct. rewrite Hn, Hw. simpl.
  assert (v ≠ w) as Hne by congruence. eexists. split; [done|]. split.
  - apply (move_inv m v w None (mk_fn null_data None (invoker_ g))); try done.
    destruct Hv as [_ Hsz]. rewrite map_size_insert_None by (by rewrite lookup_insert_ne).
    rewrite map_size_insert_Some by eauto. lia.
  - simpl. case_decide as Hs.
    + apply (typed_set _ s); [|set_solver|set_solver]. apply (typed_set _ s); [done|by intros _ t|done].
    + apply (typed_set _ s); [| |set_solver].
      * apply (typed_set _ s); [done|by intros _ t|done].
      * intros _. by apply (Ht w).
Qed.

Lemma copy_assign_ok m s v w :
  live_fn m v → live_fn m w →
  step_ok m s (copy_assign m v w)
    (if decide (v = w) then s else if decide (w ∈ s) then {[v]} ∪ s else s ∖ {[v]}).
Proof.
  intros [f Hv] [g Hw] Hi Ht. unfold copy_assign. destruct (decide (v = w)) as [->|Hne]; [by exists m|].
  destruct (reset_inv m v f Hi Hv) as (m1 & d & -> & Hi1 & Hf1). simpl.
  assert (fns m1 !! w = Some g) as Hw1 by (by rewrite Hf1, lookup_insert_ne).
  rewrite Hw1. simpl.
  destruct (share_inv m1 v w g (invoker_ g) Hi1) as (m' & Hm' & Hi' & Hf); [|done| |].
  { intros l. rewrite Hf1. apply owns_after_reset. }
  { apply size_live; [|by apply mi_bound]. rewrite Hf1, lookup_insert_eq. eauto. }
  exists m'. split; [done|]. split; [done|]. rewrite Hf, Hf1, insert_insert_eq. case_decide as Hs.
  - apply (typed_set _ s); [done|set_solver|set_solver].
  - apply (typed_set _ s); [done| |set_solver]. intros _. destruct g. by apply (Ht w).
Qed.

Lemma move_assign_ok m s v w :
  live_fn m v → live_fn m w →
  step_ok m s (move_assign m v w)
    (if decide (v = w) then s else {[w]} ∪ (if decide (w ∈ s) then {[v]} ∪ s else s ∖ {[v]})).
Proof.
  intros [f Hv] [g Hw] Hi Ht. unfold move_assign. destruct (decide (v = w)) as [->|Hne]; [by exists m|].
  rewrite Hv, Hw. simpl. eexists. split; [done|]. split.
  - apply (move_inv m v w (Some f) f); try done. rewrite map_size_insert_Some.
    + rewrite map_size_insert_Some by eauto. by apply mi_bound.
    + rewrite lookup_insert_ne by done. eauto.
  - simpl. case_decide as Hs.
    + apply (typed_set _ ({[w]} ∪ s)); [|set_solver|set_solver]. apply (typed_set _ s); [done|set_solver|set_solver].
    + apply (typed_set _ ({[w]} ∪ s)); [| |set_solver].
      * apply (typed_set _ s); [done|set_solver|set_solver].
      * intros _. by apply (Ht w).
Qed.

Lemma reset_ok m s v : live_fn m v → step_ok m s (reset m v) (s ∖ {[v]}).
Proof.
  intros [f Hv] Hi Ht. destruct (reset_inv m v f Hi Hv) as (m1 & d & -> & Hi1 & Hf1).
  exists m1. split; [done|]. split; [done|]. rewrite Hf1.
  apply (typed_set _ s); [done|intros _; apply typed_empty|set_solver].
Qed.

Lemma assign_function_ok m s v t x b b' :
  (k = true → b && b' = true) → live_fn m v → step_ok m s (assign_function m v t x b b') (s ∖ {[v]}).
Proof.
  intros Hk [f Hv] Hi Ht. unfold assign_function, emplace.
  destruct (reset_inv m v f Hi Hv) as (m1 & d & -> & Hi1 & Hf1). cbn [mbind option_bind].
  assert (fns m1 !! v = Some (mk_fn d None (invoker_ f))) as Hv1 by (by rewrite Hf1, lookup_insert_eq).
  rewrite Hv1. cbn [mbind option_bind manager_ invoker_].
  destruct (create m1 t x b b') as [[m2 d2] ok] eqn:Ec. cbn [mbind option_bind set_fn fns].
  destruct (create_inv m1 t x b b' m2 d2 ok Hi1 Hk Ec) as (Hf2 & _ & Hset).
  assert (∀ i, mem_inv (set_fn m2 v (mk_fn d2 (if ok then Some t else None) i))) as Hm.
  { intros i. apply Hset.
    - intros l. rewrite Hv1. by apply owns_empty.
    - apply size_live; [eauto|by apply mi_bound]. }
  rewrite lookup_insert_eq. cbn [mbind option_bind]. eexists. split; [done|]. destruct ok.
  - split.
    + unfold set_fn. simpl. rewrite insert_insert_eq. exact (Hm (Some t)).
    + simpl. rewrite insert_insert_eq, Hf2, Hf1, insert_insert_eq.
      apply (typed_set _ s); [done| |set_solver]. by intros _ t' [= <-].
  - split; [apply Hm|]. simpl. rewrite Hf2, Hf1, insert_insert_eq.
    apply (typed_set _ s); [done|intros _; apply typed_empty|set_solver].
Qed.

Lemma destruct_ok m s v : live_fn m v → step_ok m s (destruct_fn m v) (s ∖ {[v]}).
Proof.
  intros [f Hv] Hi Ht. unfold destruct_fn.
  destruct (reset_inv m v f Hi Hv) as (m1 & d & -> & Hi1 & Hf1). simpl. eexists. split; [done|]. split.
  - apply delete_inv; [done|]. intros l. rewrite Hf1. apply owns_after_reset.
  - simpl. rewrite Hf1, delete_insert_eq. intros u g Hu [Hne Hg]%lookup_delete_Some.
    apply (Ht u); [set_solver|done].
Qed.

Lemma exec_fn_ok m s o :
  (k = true → allocates o = true) → valid_fn m o → step_ok m s (exec_fn m o) (moved_after s o).
Proof.
  intros Hk Hv. destruct o; simpl in *; destruct_and?;
    eauto using construct_null_ok, construct_function_ok, copy_construct_ok, move_construct_ok,
      copy_assign_ok, move_assign_ok, reset_ok, assign_function_ok, destruct_ok.
Qed.
End invariant.

Lemma mem_inv_weaken {V} (m : memory V) k k' : (k' = true → k = true) → mem_inv k m → mem_inv k' m.
Proof. intros Hk [Hval Hcnt Hfr Hb Hown]. split; [done..|]. intros Hk'. by apply Hown, Hk. Qed.

Lemma reachable_fn_inv {V} (m : memory V) s k : reachable_fn m s k → mem_inv k m ∧ typed (fns m) s.
Proof.
  induction 1 as [|m s k o m' _ [Hi Ht] Hv He].
  - split; [|done]. split; simpl; try done. intros _ l [[x Hl]|[x Hl]]; done.
  - destruct (exec_fn_ok (k && allocates o) m s o) as (m2 & He2 & ? & ?); [by intros [_ ?]%andb_prop|done| |done|].
    + eapply mem_inv_weaken; [|exact Hi]. by intros [? _]%andb_prop.
    + rewrite He in He2. by injection He2 as ->.
Qed.

(** ** Theorems *)

(** C24: handlers are called at their own type and live as long as they are shared: in every
    state of a program over [shared_function] objects the next operation touches nothing that
    was deleted; an object with a value points to a function of the type it was made for, and its
    reference count is the number of objects that share it; calling an object that was not moved
    from calls the function it holds, or throws when it has none; and as long as allocations
    succeed, a function is on the heap exactly while some object shares it. *)
Theorem shared_function_safe {V} (m : memory V) s k o :
  reachable_fn m s k → valid_fn m o →
  (∃ m', exec_fn m o = Some m') ∧
  (∀ v f t, fns m !! v = Some f → manager_ f = Some t →
    ∃ l x, data_ f = mk_data (Some l) (Some l) ∧ objects m !! l = Some (t, x) ∧
      use_count m v = Some (count l (ptrs (fns m))) ∧ (v ∉ s → call m v = Some (Ok x))) ∧
  (∀ v f, fns m !! v = Some f → manager_ f = None →
    call m v = Some (Throw (std_runtime_error "shared_function::operator() called for empty object"))) ∧
  (k = true → ∀ l, is_Some (objects m !! l) ↔ 1 ≤ count l (ptrs (fns m))).
Proof.
  intros [Hi Ht]%reachable_fn_inv Hv. split_and!.
  - destruct (exec_fn_ok false m s o) as (m' & He & _); [done|done| |done|by exists m'].
    by apply (mem_inv_weaken m k false).
  - intros v f t Hf Hm. destruct (value_counted k m v f t Hi Hf Hm) as (l & x & c & Hd & Ho & Hc & -> & _).
    exists l, x. split_and!; [done|done| |].
    + unfold use_count. rewrite Hf. simpl. rewrite Hm, Hd. simpl. done.
    + intros Hs. unfold call, has_value. rewrite Hf. simpl. rewrite Hm, bool_decide_true by eauto. simpl.
      rewrite (Ht v f Hs Hf t Hm), Hd. simpl. rewrite Ho. simpl. by rewrite decide_True.
  - intros v f Hf Hm. unfold call, has_value. rewrite Hf. simpl. rewrite Hm, bool_decide_false by (by intros []). done.
  - intros Hk l. split; [intros Hl; apply (mi_owned k m Hi Hk); by left|]. intros Hc.
    destruct (map_choose (filter (points_to l) (ptrs (fns m)))) as (v & p & Hvp).
    { intros H0. unfold count in Hc. rewrite H0 in Hc. by rewrite map_size_empty in Hc. }
    apply map_lookup_filter_Some in Hvp as [Hvp Hp]. unfold points_to in Hp. simpl in Hp. subst p.
    unfold ptrs in Hvp. rewrite lookup_fmap in Hvp. destruct (fns m !! v) as [f|] eqn:Hf; [|done].
    injection Hvp as Hp. unfold ptr_of in Hp. destruct (manager_ f) as [t|] eqn:Hm; [|done].
    destruct (mi_value k m Hi v f t Hf Hm) as (l' & x & c & Hd & Ho & _). rewrite Hd in Hp.
    injection Hp as ->. eauto.
Qed.

(** an object that was moved from by an assignment is a trap: move assignment swaps the
    function objects but copies the invoker, so when both objects had functions of different
    types, the object that was moved from still has a value, and calling it uses the function of
    the other object at the wrong type instead of throwing. A failed allocation of the block of
    counters leaks the function object. *)
Theorem moved_function_confused {V} (m : memory V) s k v w f g t t' x :
  reachable_fn m s k → v ≠ w → fns m !! v = Some f → fns m !! w = Some g →
  manager_ f = Some t → manager_ g = Some t' → t ≠ t' → v ∉ s → w ∉ s →
  (∃ m' g', exec_fn m (FMoveAssign v w) = Some m' ∧ fns m' !! w = Some g' ∧
    has_value g' = true ∧ call m' w = None) ∧
  (∃ m' l, exec_fn m (FAssign v t x true false) = Some m' ∧ objects m' !! l = Some (t, x) ∧
    counts m' !! l = None ∧ count l (ptrs (fns m')) = 0).
Proof.
  intros Hreach Hne Hv Hw Hm Hm' Htt Hvs Hws. destruct (reachable_fn_inv m s k Hreach) as [Hi Ht]. split.
  - simpl. unfold move_assign. rewrite decide_False, Hv, Hw by done. simpl.
    eexists _, _. split; [done|]. simpl. rewrite lookup_insert_ne, lookup_insert_eq by done.
    split; [done|]. split; [unfold has_value; simpl; rewrite Hm; by apply bool_decide_eq_true_2|].
    destruct (mi_value k m Hi v f t Hv Hm) as (l & y & c & Hd & Ho & _).
    unfold call. simpl. rewrite lookup_insert_ne, lookup_insert_eq by done. simpl.
    unfold has_value. simpl. rewrite Hm, bool_decide_true by eauto. simpl.
    rewrite (Ht w g Hws Hw t' Hm'), Hd. simpl. rewrite Ho. simpl. by rewrite decide_False.
  - simpl. unfold assign_function, emplace.
    destruct (reset_inv k m v f Hi Hv) as (m1 & d & -> & Hi1 & Hf1). cbn [mbind option_bind].
    assert (fns m1 !! v = Some (mk_fn d None (invoker_ f))) as Hv1 by (by rewrite Hf1, lookup_insert_eq).
    rewrite Hv1. simpl. rewrite lookup_insert_eq. simpl.
    exists (set_fn (create m1 t x true false).1.1 v (mk_fn (mk_data (Some (next_block m1)) None) None (invoker_ f))), (next_block m1).
    split; [done|]. simpl. rewrite lookup_insert_eq. split; [done|].
    destruct (mi_fresh k m1 Hi1 (next_block m1) ltac:(lia)) as [_ Hc]. split; [done|].
    rewrite count_set, Hv1, !owns_empty by done.
    pose proof (count_fresh k m1 (next_block m1) Hi1 ltac:(lia)). lia.
Qed.

(** Two handlers of different types, one of them shared. *)
Module sample_functions.
Definition after (m : memory nat) (o : fn_op nat) : memory nat := default m (exec_fn m o).
Definition m1 : memory nat := after empty_memory (FConstruct 1%positive 7%positive 70%nat true true).
Definition m2 : memory nat := after m1 (FConstruct 2%positive 8%positive 80%nat true true).
Definition m3 : memory nat := after m2 (FCopyConstruct 3%positive 1%positive).

Lemma fn_reach3 : ∃ s, reachable_fn m3 s true ∧ (1%positive ∉ s) ∧ (2%positive ∉ s).
Proof.
  exists (moved_after (V := nat) (moved_after (V := nat) (moved_after (V := nat) ∅
    (FConstruct 1%positive 7%positive 70%nat true true)) (FConstruct 2%positive 8%positive 80%nat true true))
    (FCopyConstruct 3%positive 1%positive)).
  split; [|split; apply (bool_decide_unpack _); exact I].
  pose proof (reach_step empty_memory ∅ true (FConstruct 1%positive 7%positive 70%nat true true) m1
    reach_empty ltac:(by split) eq_refl) as R1.
  pose proof (reach_step _ _ _ (FConstruct 2%positive 8%positive 80%nat true true) m2
    R1 ltac:(by split) eq_refl) as R2.
  refine (reach_step _ _ _ (FCopyConstruct 3%positive 1%positive) m3 R2 _ eq_refl).
  split; [by split|]. by eexists.
Qed.

Lemma shared_function_safe_witness :
  use_count m3 1%positive = Some 2 ∧ call m3 1%positive = Some (Ok 70%nat) ∧
  ∃ m', exec_fn m3 (FDestruct 3%positive) = Some m'.
Proof.
  destruct fn_reach3 as (s & Hr & H1 & _).
  destruct (shared_function_safe m3 s true (FDestruct 3%positive) Hr ltac:(by eexists)) as (Hex & Hval & _).
  destruct (Hval 1%positive (mk_fn (mk_data (Some 1%positive) (Some 1%positive)) (Some 7%positive) (Some 7%positive))
    7%positive eq_refl eq_refl) as (l & x & [= <-] & [= <-] & Hu & Hc).
  split; [exact Hu|]. split; [by apply Hc|exact Hex].
Defined.

Lemma moved_function_confused_witness :
  ∃ m' g', exec_fn m3 (FMoveAssign 1%positive 2%positive) = Some m' ∧ fns m' !! 2%positive = Some g' ∧
    has_value g' = true ∧ call m' 2%positive = None.
Proof.
  destruct fn_reach3 as (s & Hr & H1 & H2).
  exact (proj1 (moved_function_confused m3 s true 1%positive 2%positive
    (mk_fn (mk_data (Some 1%positive) (Some 1%positive)) (Some 7%positive) (Some 7%positive))
    (mk_fn (mk_data (Some 2%positive) (Some 2%positive)) (Some 8%positive) (Some 8%positive))
    7%positive 8%positive 0%nat Hr ltac:(done) eq_refl eq_refl eq_refl eq_refl ltac:(done) H1 H2)).
Defined.
End sample_functions.
