(* ===== verification/OpQueue.v ===== *)
(** Queues of operations: extern/asio/asio/include/asio/detail/op_queue.hpp.

    The queues of asio's scheduler and strands are intrusive: an operation has one [next_]
    pointer, and a queue has a pointer to its first and to its last operation. The state is
    the heap of these pointers and the queues; an answer of [None] is the use of an operation
    that does not exist. The theorem shows that a program over such queues sees lists. *)

From S2P Require Import Prelude.
From stdpp Require Import gmap.

Definition op : Type := positive.

(** The [next_] pointers of the operations that exist. *)
Abbreviation op_heap := (gmap op (option op)).

Record op_queue := mk_op_queue { front_ : option op; back_ : option op }.

Definition next (h : op_heap) (o : op) : option (option op) := h !! o.
Definition set_next (h : op_heap) (o : op) (n : option op) : option op_heap :=
  _ ← h !! o; Some (<[o := n]> h).

Definition construct_queue : op_queue := mk_op_queue None None.
Definition front (q : op_queue) : option op := front_ q.
Definition empty (q : op_queue) : bool := match front_ q with None => true | Some _ => false end.

Definition pop (h : op_heap) (q : op_queue) : option (op_heap * op_queue) :=
  match front_ q with
  | None => Some (h, q)
  | Some tmp =>
      f ← next h tmp;
      h' ← set_next h tmp None;
      Some (h', mk_op_queue f match f with None => None | Some _ => back_ q end)
  end.

Definition push (h : op_heap) (q : op_queue) (o : op) : option (op_heap * op_queue) :=
  h ← set_next h o None;
  match back_ q with
  | Some b => h ← set_next h b (Some o); Some (h, mk_op_queue (front_ q) (Some o))
  | None => Some (h, mk_op_queue (Some o) (Some o))
  end.

(** [push] of another queue, which is empty afterwards. *)
Definition push_queue (h : op_heap) (q other : op_queue) : option (op_heap * op_queue * op_queue) :=
  match front_ other with
  | None => Some (h, q, other)
  | Some f =>
      match back_ q with
      | Some b => h ← set_next h b (Some f); Some (h, mk_op_queue (front_ q) (back_ other), construct_queue)
      | None => Some (h, mk_op_queue (Some f) (back_ other), construct_queue)
      end
  end.

Definition is_enqueued (h : op_heap) (q : op_queue) (o : op) : option bool :=
  n ← next h o; Some (bool_decide (n ≠ None) || bool_decide (back_ q = Some o)).

(** The destructor pops and destroys; as many turns as there are operations are enough. *)
Fixpoint destruct_queue (fuel : nat) (h : op_heap) (q : op_queue) : option op_heap :=
  match front_ q with
  | None => Some h
  | Some o =>
      match fuel with
      | O => None
      | S fuel => '(h, q) ← pop h q; destruct_queue fuel (delete o h) q
      end
  end.

(** ** Programs over queues *)

Abbreviation qid := positive.

Record queues := mk_queues { ops : op_heap; qs : gmap qid op_queue }.

Inductive queue_op : Type :=
| QNewOp (o : op)                 (* a [scheduler_operation] is constructed *)
| QDeleteOp (o : op)
| QNew (q : qid)
| QPush (q : qid) (o : op)
| QPushQueue (q other : qid)
| QPop (q : qid)
| QDestruct (q : qid).

Definition exec_queue (st : queues) (c : queue_op) : option queues :=
  match c with
  | QNewOp o => Some (mk_queues (<[o := None]> (ops st)) (qs st))
  | QDeleteOp o => Some (mk_queues (delete o (ops st)) (qs st))
  | QNew q => Some (mk_queues (ops st) (<[q := construct_queue]> (qs st)))
  | QPush q o =>
      x ← qs st !! q; '(h, x) ← push (ops st) x o; Some (mk_queues h (<[q := x]> (qs st)))
  | QPushQueue q other =>
      x ← qs st !! q; y ← qs st !! other; '(h, x, y) ← push_queue (ops st) x y;
      Some (mk_queues h (<[q := x]> (<[other := y]> (qs st))))
  | QPop q =>
      x ← qs st !! q; '(h, x) ← pop (ops st) x; Some (mk_queues h (<[q := x]> (qs st)))
  | QDestruct q =>
      x ← qs st !! q; h ← destruct_queue (size (ops st)) (ops st) x;
      Some (mk_queues h (delete q (qs st)))
  end.

(** The specification: queues are lists, and the operations in no queue are a set. *)
Record spec_queues := mk_spec { lists : gmap qid (list op); loose : gset op }.

(** What the callers respect: an operation is constructed once, pushed while it is in no
    queue and deleted when it is in none; a queue is not pushed on itself. *)
Definition valid_queue_op (s : spec_queues) (c : queue_op) : Prop :=
  match c with
  | QNewOp o => o ∉ loose s ∧ ∀ q l, lists s !! q = Some l → o ∉ l
  | QDeleteOp o => o ∈ loose s
  | QNew q => lists s !! q = None
  | QPush q o => is_Some (lists s !! q) ∧ o ∈ loose s
  | QPushQueue q other => is_Some (lists s !! q) ∧ is_Some (lists s !! other) ∧ q ≠ other
  | QPop q | QDestruct q => is_Some (lists s !! q)
  end.

Definition list_of (s : spec_queues) (q : qid) : list op := default [] (lists s !! q).

Definition spec_queue_op (s : spec_queues) (c : queue_op) : spec_queues :=
  match c with
  | QNewOp o => mk_spec (lists s) ({[o]} ∪ loose s)
  | QDeleteOp o => mk_spec (lists s) (loose s ∖ {[o]})
  | QNew q => mk_spec (<[q := []]> (lists s)) (loose s)
  | QPush q o => mk_spec (<[q := list_of s q ++ [o]]> (lists s)) (loose s ∖ {[o]})
  | QPushQueue q other =>
      mk_spec (<[q := list_of s q ++ list_of s other]> (<[other := []]> (lists s))) (loose s)
  | QPop q =>
      mk_spec (<[q := tail (list_of s q)]> (lists s))
        (match list_of s q with [] => loose s | o :: _ => {[o]} ∪ loose s end)
  | QDestruct q => mk_spec (delete q (lists s)) (loose s)
  end.

Inductive queue_run : queues → spec_queues → Prop :=
| queue_run_start : queue_run (mk_queues ∅ ∅) (mk_spec ∅ ∅)
| queue_run_op st s c st' :
    queue_run st s → valid_queue_op s c → exec_queue st c = Some st' →
    queue_run st' (spec_queue_op s c).

(** ** Representation *)

(** The operations of [l] are linked in order and the last one has no successor. *)
Fixpoint chain (h : op_heap) (l : list op) : Prop :=
  match l with
  | [] => True
  | o :: l' => h !! o = Some (head l') ∧ chain h l'
  end.

Definition is_queue (h : op_heap) (q : op_queue) (l : list op) : Prop :=
  front_ q = head l ∧ back_ q = last l ∧ chain h l.

Lemma chain_ext h h' l : (∀ o, o ∈ l → h' !! o = h !! o) → chain h l → chain h' l.
Proof.
  induction l as [|o l IH]; intros He; [done|]. intros [Ho Hl]. split.
  - rewrite He by left. done.
  - apply IH; [|done]. intros x Hx. apply He. by right.
Qed.

Lemma chain_insert h o n l : o ∉ l → chain h l → chain (<[o := n]> h) l.
Proof. intros Ho. apply chain_ext. intros x Hx. rewrite lookup_insert_ne; set_solver. Qed.

Lemma chain_lookup h l o : chain h l → o ∈ l → is_Some (h !! o).
Proof. induction l as [|x l IH]; intros Hc Ho; [set_solver|]. destruct Hc. set_solver. Qed.

(** Only the last operation of a chain has no successor. *)
Lemma chain_next h l o : NoDup l → chain h l → o ∈ l → h !! o = Some None ↔ last l = Some o.
Proof.
  induction l as [|x l IH]; intros Hnd Hc Ho; [set_solver|].
  apply NoDup_cons in Hnd as [Hx Hnd]. destruct Hc as [Hh Hc].
  destruct l as [|y l].
  - apply list_elem_of_singleton in Ho as ->. simpl in *. by rewrite Hh.
  - rewrite last_cons_cons. apply elem_of_cons in Ho as [->|Ho]; [|by apply IH].
    rewrite Hh. simpl. split; [done|]. intros Hl. destruct Hx. by apply last_Some_elem_of.
Qed.

Lemma chain_link h l l' b :
  NoDup (l ++ l') → chain h l → chain h l' → last l = Some b →
  chain (<[b := head l']> h) (l ++ l').
Proof.
  induction l as [|o l IH]; intros Hnd Hc Hc' Hb; [done|].
  destruct Hc as [Ho Hc]. simpl in Hnd. apply NoDup_cons in Hnd as [Hnin Hnd].
  destruct l as [|o' l].
  - injection Hb as ->. simpl. rewrite lookup_insert_eq. split; [done|]. by apply chain_insert.
  - rewrite last_cons_cons in Hb. cbn [app]. split; [|by apply IH].
    assert (b ∈ o' :: l) by (by apply last_Some_elem_of).
    rewrite lookup_insert_ne by set_solver. done.
Qed.

Lemma set_next_Some h o n : is_Some (h !! o) → set_next h o n = Some (<[o := n]> h).
Proof. intros [x Hx]. unfold set_next. by rewrite Hx. Qed.

Lemma push_queue_spec h q q' l l' :
  is_queue h q l → is_queue h q' l' → NoDup (l ++ l') →
  ∃ h' x, push_queue h q q' = Some (h', x, construct_queue) ∧ is_queue h' x (l ++ l') ∧
    (∀ o, o ∉ l → h' !! o = h !! o) ∧ (∀ o, is_Some (h' !! o) ↔ is_Some (h !! o)).
Proof.
  intros (Hf & Hb & Hc) (Hf' & Hb' & Hc') Hnd. unfold push_queue. rewrite Hf'.
  destruct l' as [|f l']; simpl.
  { rewrite app_nil_r. exists h, q. destruct q' as [? ?]. simpl in *. by subst. }
  rewrite Hb. destruct (last l) as [b|] eqn:El.
  - assert (b ∈ l) as Hin by (by apply last_Some_elem_of).
    assert (is_Some (h !! b)) by eauto using chain_lookup.
    rewrite set_next_Some by done. simpl. do 2 eexists. split; [done|]. unfold is_queue. split_and!.
    + simpl. rewrite Hf. destruct l; [by apply not_elem_of_nil in Hin|done].
    + simpl. rewrite Hb'. rewrite last_app. destruct (last (f :: l')) eqn:E; [done|by apply last_None in E].
    + by apply (chain_link h l (f :: l') b).
    + intros o Ho. rewrite lookup_insert_ne; set_solver.
    + intros o. destruct (decide (o = b)) as [->|]; [rewrite lookup_insert_eq; naive_solver|].
      by rewrite lookup_insert_ne.
  - apply last_None in El as ->. simpl. do 2 eexists. split; [done|]. unfold is_queue. split_and!; try done.
Qed.

(** Pushing an operation is pushing a queue of one. *)
Lemma push_single h q o :
  push h q o =
  (h ← set_next h o None; '(h, x, _) ← push_queue h q (mk_op_queue (Some o) (Some o)); Some (h, x)).
Proof.
  unfold push, push_queue. destruct (set_next h o None) as [h'|]; simpl; [|done].
  destruct (back_ q) as [b|]; [|done]. by destruct (set_next h' b (Some o)).
Qed.

Lemma push_spec h q l o :
  is_queue h q l → NoDup (l ++ [o]) → is_Some (h !! o) →
  ∃ h' x, push h q o = Some (h', x) ∧ is_queue h' x (l ++ [o]) ∧
    (∀ o', o' ∉ l ++ [o] → h' !! o' = h !! o') ∧ (∀ o', is_Some (h' !! o') ↔ is_Some (h !! o')).
Proof.
  intros (Hf & Hb & Hc) Hnd Ho. rewrite push_single, set_next_Some by done. simpl.
  destruct (push_queue_spec (<[o := None]> h) q (mk_op_queue (Some o) (Some o)) l [o])
    as (h' & x & -> & Hq & He & Hd).
  - split; [done|]. split; [done|]. apply chain_insert; [|done].
    apply NoDup_app in Hnd as (_ & Hd & _). intros Hin. apply (Hd o Hin). set_solver.
  - unfold is_queue. split_and!; [done..|]. simpl. by rewrite lookup_insert_eq.
  - done.
  - simpl. do 2 eexists. split; [done|]. split; [done|]. split.
    + intros o' Hn. rewrite He by set_solver. rewrite lookup_insert_ne; set_solver.
    + intros o'. rewrite Hd. destruct (decide (o' = o)) as [->|]; [rewrite lookup_insert_eq; naive_solver|].
      by rewrite lookup_insert_ne.
Qed.

Lemma pop_spec h q o l :
  is_queue h q (o :: l) → NoDup (o :: l) →
  ∃ x, pop h q = Some (<[o := None]> h, x) ∧ is_queue (<[o := None]> h) x l.
Proof.
  intros (Hf & Hb & Ho & Hc) Hnd. apply NoDup_cons in Hnd as [Hn Hnd].
  unfold pop, next. rewrite Hf. simpl. rewrite Ho. simpl.
  rewrite set_next_Some by eauto. simpl. eexists. split; [done|]. unfold is_queue. split_and!; simpl.
  - done.
  - destruct l as [|o' l]; [done|]. simpl. by rewrite Hb.
  - by apply chain_insert.
Qed.

Lemma destruct_queue_spec l : ∀ fuel h q,
  (length l ≤ fuel)%nat → is_queue h q l → NoDup l →
  ∃ h', destruct_queue fuel h q = Some h' ∧
    ∀ o, h' !! o = if decide (o ∈ l) then None else h !! o.
Proof.
  induction l as [|o l IH]; intros fuel h q Hl Hq Hnd.
  { exists h. split; [|intros o; by rewrite decide_False by set_solver].
    destruct Hq as (Hf & _). by destruct fuel; simpl; rewrite Hf. }
  destruct fuel as [|fuel]; simpl in Hl; [lia|].
  destruct (pop_spec h q o l Hq Hnd) as (x & Hp & (Hf' & Hb' & Hc')).
  apply NoDup_cons in Hnd as [Hn Hnd].
  destruct (IH fuel (delete o (<[o := None]> h)) x) as (h' & Hd & He).
  - lia.
  - unfold is_queue. split_and!; [done..|]. apply (chain_ext (<[o := None]> h)); [|done].
    intros y Hy. rewrite lookup_delete_ne; set_solver.
  - done.
  - exists h'. cbn [destruct_queue]. destruct Hq as (Hf & _). rewrite Hf. simpl.
    rewrite Hp. simpl. split; [done|]. intros y. rewrite He.
    destruct (decide (y ∈ l)); [by rewrite decide_True by set_solver|].
    destruct (decide (y = o)) as [->|]; [by rewrite lookup_delete_eq, decide_True by set_solver|].
    rewrite decide_False by set_solver. by rewrite lookup_delete_ne, lookup_insert_ne by done.
Qed.

(** ** Refinement *)

Record rep (st : queues) (s : spec_queues) : Prop := {
  rep_queue q l : lists s !! q = Some l →
    ∃ x, qs st !! q = Some x ∧ is_queue (ops st) x l ∧ NoDup l;
  rep_loose o : o ∈ loose s → ops st !! o = Some None;
  rep_apart q l o : lists s !! q = Some l → o ∈ l →
    o ∉ loose s ∧ ∀ q' l', lists s !! q' = Some l' → o ∈ l' → q' = q;
  rep_dom o : is_Some (ops st !! o) → o ∈ loose s ∨ ∃ q l, lists s !! q = Some l ∧ o ∈ l;
}.

Lemma is_queue_ext h h' x l : (∀ o, o ∈ l → h' !! o = h !! o) → is_queue h x l → is_queue h' x l.
Proof. intros He (Hf & Hb & Hc). unfold is_queue. eauto using chain_ext. Qed.

(** Two lists of a represented state share no operation. *)
Lemma rep_disjoint st s q q' l l' o :
  rep st s → lists s !! q = Some l → lists s !! q' = Some l' → q ≠ q' → o ∈ l → o ∉ l'.
Proof. intros Hr Hl Hl' Hne Ho Ho'. by destruct (rep_apart st s Hr q l o Hl Ho) as [_ Hu]; destruct Hne; symmetry; eapply Hu. Qed.

Lemma rep_length st s q l : rep st s → lists s !! q = Some l → (length l ≤ size (ops st))%nat.
Proof.
  intros Hr Hl. destruct (rep_queue st s Hr q l Hl) as (x & _ & (_ & _ & Hc) & Hnd).
  rewrite <-(size_dom (D := gset op)), <-(size_list_to_set (C := gset op)) by done. apply subseteq_size.
  intros o Ho%elem_of_list_to_set. apply elem_of_dom. eauto using chain_lookup.
Qed.

Lemma rep_new_op st s o :
  rep st s → valid_queue_op s (QNewOp o) →
  rep (mk_queues (<[o := None]> (ops st)) (qs st)) (spec_queue_op s (QNewOp o)).
Proof.
  intros Hr [Hn Hq]. split; simpl.
  - intros q l Hl. destruct (rep_queue st s Hr q l Hl) as (x & Hx & Hi & Hnd).
    exists x. split; [done|]. split; [|done]. eapply is_queue_ext; [|done].
    intros o' Ho'. rewrite lookup_insert_ne; [done|]. intros <-. by eapply Hq.
  - intros o' [->%elem_of_singleton|Ho']%elem_of_union; [by rewrite lookup_insert_eq|].
    rewrite lookup_insert_ne by set_solver. by eapply rep_loose.
  - intros q l o' Hl Ho'. destruct (rep_apart st s Hr q l o' Hl Ho') as [Hl' Hu]. split; [|done].
    intros [->%elem_of_singleton|?]%elem_of_union; [|done]. by eapply Hq.
  - intros o'. destruct (decide (o' = o)) as [->|]; [set_solver|]. rewrite lookup_insert_ne by done.
    intros [?|?]%(rep_dom st s Hr); set_solver.
Qed.

Lemma rep_delete_op st s o :
  rep st s → o ∈ loose s →
  rep (mk_queues (delete o (ops st)) (qs st)) (spec_queue_op s (QDeleteOp o)).
Proof.
  intros Hr Ho. split; simpl.
  - intros q l Hl. destruct (rep_queue st s Hr q l Hl) as (x & Hx & Hi & Hnd).
    exists x. split; [done|]. split; [|done]. eapply is_queue_ext; [|done].
    intros o' Ho'. rewrite lookup_delete_ne; [done|]. intros <-.
    by destruct (rep_apart st s Hr q l o Hl Ho').
  - intros o' [Ho' Hne]%elem_of_difference. rewrite lookup_delete_ne by set_solver. by eapply rep_loose.
  - intros q l o' Hl Ho'. destruct (rep_apart st s Hr q l o' Hl Ho') as [Hl' Hu]. set_solver.
  - intros o'. destruct (decide (o' = o)) as [->|]; [rewrite lookup_delete_eq; by intros []|].
    rewrite lookup_delete_ne by done. intros [?|?]%(rep_dom st s Hr); set_solver.
Qed.

Lemma rep_new st s q :
  rep st s → lists s !! q = None →
  rep (mk_queues (ops st) (<[q := construct_queue]> (qs st))) (spec_queue_op s (QNew q)).
Proof.
  intros Hr Hq. split; simpl.
  - intros q' l. destruct (decide (q' = q)) as [->|]; [rewrite !lookup_insert_eq|rewrite !lookup_insert_ne by done].
    + intros [= <-]. exists construct_queue. split; [done|]. split; [done|constructor].
    + by eapply rep_queue.
  - by eapply rep_loose.
  - intros q' l o. destruct (decide (q' = q)) as [->|]; [rewrite lookup_insert_eq; intros [= <-] ?%not_elem_of_nil; done|].
    rewrite lookup_insert_ne by done. intros Hl Ho. destruct (rep_apart st s Hr q' l o Hl Ho) as [? Hu].
    split; [done|]. intros q'' l'. destruct (decide (q'' = q)) as [->|].
    + rewrite lookup_insert_eq. intros [= <-] ?%not_elem_of_nil. done.
    + rewrite lookup_insert_ne by done. apply Hu.
  - intros o [?|(q' & l & Hl & Ho)]%(rep_dom st s Hr); [by left|]. right. exists q', l.
    rewrite lookup_insert_ne; [done|]. congruence.
Qed.

(** One queue changes: its operations come from the queue or were loose, and those that left
    it are loose. *)
Lemma rep_change st s q l h x l' ls :
  rep st s → lists s !! q = Some l → is_queue h x l' → NoDup l' →
  (∀ o, o ∉ l → o ∉ l' → h !! o = ops st !! o) →
  (∀ o, o ∈ l' → o ∈ l ∨ o ∈ loose s) →
  (∀ o, o ∈ ls ↔ o ∉ l' ∧ (o ∈ l ∨ o ∈ loose s)) →
  (∀ o, o ∈ l → o ∉ l' → h !! o = Some None) →
  rep (mk_queues h (<[q := x]> (qs st))) (mk_spec (<[q := l']> (lists s)) ls).
Proof.
  intros Hr Hl Hx Hnd Hh Hl' Hls Hloose. split; simpl.
  - intros q' l''. destruct (decide (q' = q)) as [->|]; [rewrite !lookup_insert_eq|rewrite !lookup_insert_ne by done].
    + intros [= <-]. by exists x.
    + intros Hq'. destruct (rep_queue st s Hr q' l'' Hq') as (y & Hy & Hi & Hnd').
      exists y. split; [done|]. split; [|done]. eapply is_queue_ext; [|done].
      intros o Ho. apply Hh; [by eapply (rep_disjoint st s q' q)|].
      intros [Ho'|Ho']%Hl'; [by eapply (rep_disjoint st s q' q)|].
      by destruct (rep_apart st s Hr q' l'' o Hq' Ho).
  - intros o [Ho [Hin|Hin]]%Hls; [by apply Hloose|].
    destruct (decide (o ∈ l)); [by apply Hloose|]. rewrite Hh by done. by eapply rep_loose.
  - intros q' l'' o. destruct (decide (q' = q)) as [->|Hne];
      [rewrite lookup_insert_eq; intros [= <-] Ho|rewrite lookup_insert_ne by done; intros Hq' Ho].
    + split; [rewrite Hls; naive_solver|]. intros q' m.
      destruct (decide (q' = q)) as [->|]; [done|]. rewrite lookup_insert_ne by done. intros Hm Hom.
      destruct (rep_apart st s Hr q' m o Hm Hom) as [Hno Hu].
      destruct (Hl' o Ho); [|done]. by destruct (rep_disjoint st s q' q m l o).
    + destruct (rep_apart st s Hr q' l'' o Hq' Ho) as [Hno Hu].
      assert (o ∉ l) by (by eapply (rep_disjoint st s q' q)).
      split; [rewrite Hls; naive_solver|]. intros q'' m.
      destruct (decide (q'' = q)) as [->|]; [|rewrite lookup_insert_ne by done; apply Hu].
      rewrite lookup_insert_eq. intros [= <-] Hom. destruct (Hl' o Hom); naive_solver.
  - intros o Ho. destruct (decide (o ∈ l')) as [|Hn']; [right; exists q, l'; by rewrite lookup_insert_eq|].
    destruct (decide (o ∈ l)) as [|Hn]; [left; by apply Hls; auto|].
    rewrite Hh in Ho by done. destruct (rep_dom st s Hr o Ho) as [?|(q' & m & Hm & Hom)].
    + left. apply Hls. auto.
    + right. exists q', m. rewrite lookup_insert_ne; [done|]. intros <-. naive_solver.
Qed.

(** A queue that is merged into another one. *)
Lemma rep_push_queue st s q q' l l' h x :
  rep st s → lists s !! q = Some l → lists s !! q' = Some l' → q ≠ q' →
  is_queue h x (l ++ l') → (∀ o, o ∉ l → h !! o = ops st !! o) →
  (∀ o, is_Some (h !! o) ↔ is_Some (ops st !! o)) → NoDup (l ++ l') →
  rep (mk_queues h (<[q := x]> (<[q' := construct_queue]> (qs st))))
    (mk_spec (<[q := l ++ l']> (<[q' := []]> (lists s))) (loose s)).
Proof.
  intros Hr Hl Hl' Hne Hx Hh Hd Hnd.
  split; simpl.
  - intros q'' m. destruct (decide (q'' = q)) as [->|]; [rewrite !lookup_insert_eq; intros [= <-]; by exists x|].
    rewrite !(lookup_insert_ne _ q) by done.
    destruct (decide (q'' = q')) as [->|]; [rewrite !lookup_insert_eq|rewrite !lookup_insert_ne by done].
    + intros [= <-]. exists construct_queue. split; [done|]. split; [done|constructor].
    + intros Hm. destruct (rep_queue st s Hr q'' m Hm) as (y & Hy & Hi & Hnd').
      exists y. split; [done|]. split; [|done]. eapply is_queue_ext; [|done].
      intros o Ho. apply Hh. by eapply (rep_disjoint st s q'' q).
  - intros o Ho. rewrite Hh; [by eapply rep_loose|]. intros Hin.
    by destruct (rep_apart st s Hr q l o Hl Hin).
  - assert (∀ p m o, <[q := l ++ l']> (<[q' := []]> (lists s)) !! p = Some m → o ∈ m →
      ∃ p' m', lists s !! p' = Some m' ∧ o ∈ m' ∧ p = if decide (p' = q') then q else p') as Horigin.
    { intros p m o. destruct (decide (p = q)) as [->|Hp].
      - rewrite lookup_insert_eq. intros [= <-] [Ho|Ho]%elem_of_app.
        + exists q, l. by rewrite decide_False by done.
        + exists q', l'. by rewrite decide_True by done.
      - rewrite lookup_insert_ne by done. destruct (decide (p = q')) as [->|].
        + rewrite lookup_insert_eq. intros [= <-] ?%not_elem_of_nil. done.
        + rewrite lookup_insert_ne by done. intros Hm Ho. exists p, m. by rewrite decide_False. }
    intros p m o Hm Ho. destruct (Horigin p m o Hm Ho) as (p1 & m1 & Hm1 & Ho1 & ->).
    destruct (rep_apart st s Hr p1 m1 o Hm1 Ho1) as [Hno Hu]. split; [done|].
    intros p' m' Hm' Ho'. destruct (Horigin p' m' o Hm' Ho') as (p2 & m2 & Hm2 & Ho2 & ->).
    by rewrite (Hu p2 m2 Hm2 Ho2).
  - intros o Ho%Hd. destruct (rep_dom st s Hr o Ho) as [?|(p & m & Hm & Hom)]; [by left|]. right.
    destruct (decide (p = q)) as [->|]; [|destruct (decide (p = q')) as [->|]].
    + exists q, (l ++ l'). rewrite lookup_insert_eq. set_solver.
    + exists q, (l ++ l'). rewrite lookup_insert_eq. set_solver.
    + exists p, m. by rewrite !lookup_insert_ne.
Qed.

Lemma rep_destruct st s q l h :
  rep st s → lists s !! q = Some l →
  (∀ o, h !! o = if decide (o ∈ l) then None else ops st !! o) →
  rep (mk_queues h (delete q (qs st))) (spec_queue_op s (QDestruct q)).
Proof.
  intros Hr Hl Hh. split; simpl.
  - intros q' m. rewrite lookup_delete_Some. intros [Hne Hm].
    destruct (rep_queue st s Hr q' m Hm) as (y & Hy & Hi & Hnd').
    exists y. rewrite lookup_delete_ne by done. split; [done|]. split; [|done].
    eapply is_queue_ext; [|done]. intros o Ho. rewrite Hh, decide_False; [done|].
    by eapply (rep_disjoint st s q' q).
  - intros o Ho. rewrite Hh, decide_False; [by eapply rep_loose|]. intros Hin.
    by destruct (rep_apart st s Hr q l o Hl Hin).
  - intros q' m o. rewrite lookup_delete_Some. intros [Hne Hm] Ho.
    destruct (rep_apart st s Hr q' m o Hm Ho) as [Hno Hu]. split; [done|].
    intros p n [_ Hn]%lookup_delete_Some. by apply Hu.
  - intros o. rewrite Hh. case_decide as Hin; [by intros []|]. intros Ho.
    destruct (rep_dom st s Hr o Ho) as [?|(p & m & Hm & Hom)]; [by left|]. right.
    exists p, m. rewrite lookup_delete_Some. split; [|done]. split; [|done].
    intros <-. by simplify_eq.
Qed.

Lemma list_of_lookup s q l : lists s !! q = Some l → list_of s q = l.
Proof. intros Hl. unfold list_of. by rewrite Hl. Qed.

Lemma exec_queue_rep st s c :
  rep st s → valid_queue_op s c →
  ∃ st', exec_queue st c = Some st' ∧ rep st' (spec_queue_op s c).
Proof.
  intros Hr Hv. destruct c as [o|o|q|q o|q q'|q|q]; cbn [exec_queue].
  - eexists. split; [done|]. by apply rep_new_op.
  - eexists. split; [done|]. by apply rep_delete_op.
  - eexists. split; [done|]. by apply rep_new.
  - destruct Hv as [[l Hl] Ho]. destruct (rep_queue st s Hr q l Hl) as (x & -> & Hi & Hnd).
    cbn [mbind option_bind]. assert (o ∉ l) by (intros Hin; by destruct (rep_apart st s Hr q l o Hl Hin)).
    destruct (push_spec (ops st) x l o) as (h & y & -> & Hy & He & _); [done|..].
    { apply NoDup_app. split; [done|]. split; [set_solver|]. apply NoDup_singleton. }
    { eexists. by eapply rep_loose. }
    eexists. split; [done|]. cbn [spec_queue_op]. rewrite (list_of_lookup s q l Hl).
    apply (rep_change st s q l); [done..| | | | |].
    + apply NoDup_app. split; [done|]. split; [set_solver|]. apply NoDup_singleton.
    + intros o' _ Ho'. by apply He.
    + set_solver.
    + intros o'. rewrite elem_of_difference, elem_of_singleton, elem_of_app, list_elem_of_singleton.
      split; [|naive_solver]. intros [Ho' Hne]. split; [|by right]. intros [Hin|?]; [|done].
      by destruct (rep_apart st s Hr q l o' Hl Hin).
    + set_solver.
  - destruct Hv as ([l Hl] & [l' Hl'] & Hne).
    destruct (rep_queue st s Hr q l Hl) as (x & -> & Hi & Hnd).
    destruct (rep_queue st s Hr q' l' Hl') as (x' & -> & Hi' & Hnd'). cbn [mbind option_bind].
    assert (NoDup (l ++ l')).
    { apply NoDup_app. split; [done|]. split; [|done]. intros o Ho. by eapply (rep_disjoint st s q q'). }
    destruct (push_queue_spec (ops st) x x' l l') as (h & y & -> & Hy & He & Hd); [done..|].
    eexists. split; [done|]. cbn [spec_queue_op].
    rewrite (list_of_lookup s q l Hl), (list_of_lookup s q' l' Hl'). by apply rep_push_queue.
  - destruct Hv as [l Hl]. destruct (rep_queue st s Hr q l Hl) as (x & -> & Hi & Hnd).
    cbn [mbind option_bind spec_queue_op]. rewrite (list_of_lookup s q l Hl). destruct l as [|o l].
    + destruct Hi as (Hf & Hb & _). unfold pop. rewrite Hf. eexists. split; [done|].
      apply (rep_change st s q []); try set_solver. done.
    + destruct (pop_spec (ops st) x o l Hi Hnd) as (y & -> & Hy). eexists. split; [done|].
      apply NoDup_cons in Hnd as [Hn Hnd].
      assert (∀ o', o' ∈ l → o' ∉ loose s).
      { intros o' Hin. apply (rep_apart st s Hr q (o :: l)); [done|]. by right. }
      apply (rep_change st s q (o :: l)); [done..| | | |].
      * intros o' Ho' _. rewrite lookup_insert_ne; set_solver.
      * set_solver.
      * set_solver.
      * intros o' Ho' Hn'. assert (o' = o) as -> by set_solver. by rewrite lookup_insert_eq.
  - destruct Hv as [l Hl]. destruct (rep_queue st s Hr q l Hl) as (x & -> & Hi & Hnd).
    destruct (destruct_queue_spec l (size (ops st)) (ops st) x) as (h & Hd & He);
      [by eapply rep_length|done..|].
    cbn [mbind option_bind]. rewrite Hd. eexists. split; [done|]. by apply (rep_destruct st s q l).
Qed.

Lemma queue_run_rep st s : queue_run st s → rep st s.
Proof.
  induction 1 as [|st s c st' _ IH Hv He].
  - split; simpl; [done|set_solver|done|by intros o []].
  - destruct (exec_queue_rep st s c IH Hv) as (st'' & He' & Hr). by simplify_eq.
Qed.

(** C22: intrusive queues are lists: in every state of a program over operations and queues the
    next operation of the program uses no operation that does not exist; each queue shows the
    list that pushes, pops and merges of lists give, at its front, when asked whether it is
    empty, and when asked whether an operation is enqueued; and the operations that exist are
    exactly those in a queue and those taken out, so that nothing is lost or linked twice. *)
Theorem op_queue_refines st s c :
  queue_run st s → valid_queue_op s c →
  (∃ st', exec_queue st c = Some st') ∧
  (∀ q l, lists s !! q = Some l →
    ∃ x, qs st !! q = Some x ∧ front x = head l ∧ empty x = bool_decide (l = []) ∧
      ∀ o, o ∈ l ∨ o ∈ loose s → is_enqueued (ops st) x o = Some (bool_decide (o ∈ l))) ∧
  (∀ o, is_Some (ops st !! o) ↔ o ∈ loose s ∨ ∃ q l, lists s !! q = Some l ∧ o ∈ l).
Proof.
  intros Hr%queue_run_rep Hv. split; [|split].
  - destruct (exec_queue_rep st s c Hr Hv) as (st' & He & _). by exists st'.
  - intros q l Hl. destruct (rep_queue st s Hr q l Hl) as (x & Hx & (Hf & Hb & Hc) & Hnd).
    exists x. split; [done|]. split; [done|].
    split; [unfold empty; rewrite Hf; by destruct l|]. intros o Ho. unfold is_enqueued, next. rewrite Hb.
    destruct Ho as [Ho|Ho].
    + pose proof (chain_next _ l o Hnd Hc Ho) as Hn. destruct (chain_lookup _ _ _ Hc Ho) as [n Ho'].
      rewrite Ho' in Hn |- *. simpl. rewrite (bool_decide_eq_true_2 (o ∈ l)) by done. f_equal.
      apply orb_true_iff. rewrite !bool_decide_eq_true. destruct n; naive_solver.
    + assert (o ∉ l) as Hnot by (intros Hin; by destruct (rep_apart st s Hr q l o Hl Hin)).
      rewrite (rep_loose st s Hr o Ho). simpl. f_equal.
      rewrite !bool_decide_eq_false_2; [done|done|]. intros Hlast. destruct Hnot. by apply last_Some_elem_of.
  - intros o. split; [apply (rep_dom st s Hr)|]. intros [Ho|(q & l & Hl & Ho)].
    + by rewrite (rep_loose st s Hr o Ho).
    + destruct (rep_queue st s Hr q l Hl) as (x & _ & (_ & _ & Hc) & _). eauto using chain_lookup.
Qed.

(** Two operations in two queues, merged; the program then pops. *)
Module sample_queues.
Definition program : list queue_op :=
  [QNew 1; QNew 2; QNewOp 7; QNewOp 8; QPush 1 7; QPush 2 8; QPushQueue 1 2]%positive.
Definition final : option queues :=
  foldl (λ st c, st ← st; exec_queue st c) (Some (mk_queues ∅ ∅)) program.
Definition final_spec : spec_queues := foldl spec_queue_op (mk_spec ∅ ∅) program.

(** Runs one more operation, whose validity is decided on the lists. *)
Ltac run_op H c :=
  let Hv := fresh in
  match type of H with
  | queue_run ?st ?s =>
      assert (valid_queue_op s c) as Hv
        by (cbn [valid_queue_op spec_queue_op lists loose]; split_and?;
            first [done|by eexists|set_solver
                  |intros ? ?; rewrite ?lookup_insert_Some, lookup_empty; naive_solver set_solver]);
      let r := eval vm_compute in (exec_queue st c) in
      match r with Some ?st' => let H' := fresh in assert (queue_run st' (spec_queue_op s c)) as H' by (by apply (queue_run_op st s c st' H Hv)); clear H Hv; rename H' into H end
  end.

Lemma op_queue_refines_witness :
  ∃ st, final = Some st ∧ queue_run st final_spec ∧
    ∃ x, qs st !! 1%positive = Some x ∧ front x = Some 7%positive ∧ empty x = false ∧
      is_enqueued (ops st) x 8%positive = Some true.
Proof.
  eexists. split; [vm_compute; reflexivity|].
  assert (queue_run (default (mk_queues ∅ ∅) final) final_spec) as Hrun.
  { pose proof queue_run_start as H.
    run_op H (QNew 1%positive). run_op H (QNew 2%positive).
    run_op H (QNewOp 7%positive). run_op H (QNewOp 8%positive).
    run_op H (QPush 1%positive 7%positive). run_op H (QPush 2%positive 8%positive).
    run_op H (QPushQueue 1%positive 2%positive). exact H. }
  split; [exact Hrun|].
  destruct (op_queue_refines _ _ (QPop 1%positive) Hrun) as (_ & Hq & _); [by eexists|].
  destruct (Hq 1%positive [7%positive; 8%positive]) as (x & Hx & Hf & He & Hi); [done|].
  exists x. split; [exact Hx|]. split; [exact Hf|]. split; [exact He|]. apply (Hi 8%positive). left. set_solver.
Defined.
End sample_queues.
