(* ===== verification/Strand.v ===== *)
(** Strands: extern/asio/asio/include/asio/detail/strand_executor_service.hpp with
    detail/impl/strand_executor_service.hpp and .ipp.

    The sockets of mpRPC run all their functions on a strand, and the models of [StreamSocket],
    [TcpPeer] and [Udp] take a function on a strand as one step, in the order of posting. This
    file shows that the strand earns that: its mutex protects only a few lines, functions are
    posted, taken and executed by many threads, and every action between two of these sections
    is a step of its own here. The queues are lists by [OpQueue]. *)

From S2P Require Import Prelude OpQueue.
From stdpp Require Import relations.

(** [strand_impl] without the pointers that link it to its service. *)
Record strand_impl := mk_strand_impl {
  locked_ : bool;
  shutdown_ : bool;
  waiting_queue_ : list op;
  ready_queue_ : list op;
}.

Definition create_implementation : strand_impl := mk_strand_impl false false [] [].

(** How a function is submitted: [post], [defer], or [dispatch] and [execute]. *)
Inductive submission : Type := by_post | by_defer | by_dispatch.
#[export] Instance submission_eq_decision : EqDecision submission.
Proof. solve_decision. Defined.

(** What a thread is doing with the strand; a thread has a stack of these.
    - [acquired]: in [enqueue], which took the strand lock and released the mutex, before the
      operation is pushed on the ready queue;
    - [scheduling]: [enqueue] returned true, before the invoker is given to the executor;
    - [invoking]: in [invoker::operator()], at the head of its loop;
    - [completing]: in [o->complete], called by the loop below it;
    - [nested]: in a function that [dispatch] or [execute] called at once;
    - [leaving]: in [~on_invoker_exit], before the mutex is locked, with an exception on its
      way or not;
    - [rescheduling]: in [~on_invoker_exit], before the invoker is given to the executor. *)
Inductive frame : Type :=
| acquired (o : op) (how : submission)
| scheduling (how : submission)
| invoking
| completing (o : op)
| nested (o : op)
| leaving (thrown : bool)
| rescheduling (thrown : bool).

Definition thread : Type := nat.

(** [scheduled] counts the invokers that the executor holds; [workers] are the threads in
    [scheduler::run]. The history: operations in the order in which [enqueue] accepted them,
    in the order in which the loop took them, and those destroyed by [shutdown]. *)
Record strand := mk_strand {
  impl : strand_impl;
  stacks : list (list frame);
  scheduled : nat;
  workers : list thread;
  enqueued : list op;
  started : list op;
  dropped : list op;
}.

(** The section of [enqueue] under the mutex. *)
Inductive enqueue_result : Type := destroyed | queued | takes_lock.

Definition enqueue (s : strand_impl) (o : op) : strand_impl * enqueue_result :=
  if shutdown_ s then (s, destroyed)
  else if locked_ s then
    (mk_strand_impl true (shutdown_ s) (waiting_queue_ s ++ [o]) (ready_queue_ s), queued)
  else (mk_strand_impl true (shutdown_ s) (waiting_queue_ s) (ready_queue_ s), takes_lock).

(** The section of [~on_invoker_exit] under the mutex, with [more_handlers]. *)
Definition on_invoker_exit (s : strand_impl) : strand_impl * bool :=
  let ready := ready_queue_ s ++ waiting_queue_ s in
  let more_handlers := negb (bool_decide (ready = [])) in
  (mk_strand_impl more_handlers (shutdown_ s) [] ready, more_handlers).

Definition set_ready (s : strand_impl) (l : list op) : strand_impl :=
  mk_strand_impl (locked_ s) (shutdown_ s) (waiting_queue_ s) l.

(** [strand_executor_service::shutdown] for one strand. *)
Definition shutdown_impl (s : strand_impl) : strand_impl * list op :=
  (mk_strand_impl (locked_ s) true [] [], waiting_queue_ s ++ ready_queue_ s).

(** [call_stack<strand_impl>::contains]: the context object lives in [invoker::operator()]. *)
Definition runs_invoker (f : frame) : bool :=
  match f with invoking | leaving _ | rescheduling _ => true | _ => false end.
Definition running_in_this_thread (fs : list frame) : bool := existsb runs_invoker fs.

(** The thread executes code outside of the strand, or a function of the strand. *)
Definition in_user_code (fs : list frame) : bool :=
  match fs with [] | completing _ :: _ | nested _ :: _ => true | _ => false end.

Definition set_stack (st : strand) (t : thread) (fs : list frame) : strand :=
  mk_strand (impl st) (<[t := fs]> (stacks st)) (scheduled st) (workers st)
    (enqueued st) (started st) (dropped st).
Definition set_impl (st : strand) (s : strand_impl) : strand :=
  mk_strand s (stacks st) (scheduled st) (workers st) (enqueued st) (started st) (dropped st).
Definition set_scheduled (st : strand) (n : nat) : strand :=
  mk_strand (impl st) (stacks st) n (workers st) (enqueued st) (started st) (dropped st).
Definition set_workers (st : strand) (w : list thread) : strand :=
  mk_strand (impl st) (stacks st) (scheduled st) w (enqueued st) (started st) (dropped st).
Definition accept (st : strand) (o : op) : strand :=
  mk_strand (impl st) (stacks st) (scheduled st) (workers st) (enqueued st ++ [o]) (started st) (dropped st).
Definition take (st : strand) (o : op) : strand :=
  mk_strand (impl st) (stacks st) (scheduled st) (workers st) (enqueued st) (started st ++ [o]) (dropped st).

(** [post], [defer], [dispatch] and [do_execute], up to the end of the section of [enqueue]. *)
Definition submit (st : strand) (t : thread) (fs : list frame) (how : submission) (o : op) : strand :=
  if bool_decide (how = by_dispatch) && running_in_this_thread fs then
    set_stack st t (nested o :: fs)
  else
    let '(s, r) := enqueue (impl st) o in
    match r with
    | destroyed => st
    | queued => accept (set_impl st s) o
    | takes_lock => set_stack (accept (set_impl st s) o) t (acquired o how :: fs)
    end.

(** An invoker given to the executor: [dispatch] on a thread of the context runs it at once. *)
Definition schedule (st : strand) (t : thread) (fs : list frame) (how : submission) : strand :=
  if bool_decide (how = by_dispatch) && bool_decide (t ∈ workers st) then
    set_stack st t (invoking :: fs)
  else set_scheduled (set_stack st t fs) (S (scheduled st)).

(** An exception that leaves the invoker: if nobody catches it further out it ends the
    thread ([process_in_thread]). *)
Definition escape (st : strand) (t : thread) (thrown caught : bool) : strand :=
  if thrown && negb caught then set_workers st (filter (λ u, u ≠ t) (workers st)) else st.

(** Steps that need no submission. *)
Inductive strand_internal (st : strand) : strand → Prop :=
| step_publish t o how fs :
    stacks st !! t = Some (acquired o how :: fs) →
    strand_internal st (set_impl (set_stack st t (scheduling how :: fs))
      (set_ready (impl st) (ready_queue_ (impl st) ++ [o])))
| step_schedule t how fs :
    stacks st !! t = Some (scheduling how :: fs) → strand_internal st (schedule st t fs how)
| step_invoke t n :
    t ∈ workers st → stacks st !! t = Some [] → scheduled st = S n →
    strand_internal st (set_scheduled (set_stack st t [invoking]) n)
| step_next t fs o r :
    stacks st !! t = Some (invoking :: fs) → ready_queue_ (impl st) = o :: r →
    strand_internal st
      (take (set_impl (set_stack st t (completing o :: invoking :: fs)) (set_ready (impl st) r)) o)
| step_done t fs :
    stacks st !! t = Some (invoking :: fs) → ready_queue_ (impl st) = [] →
    strand_internal st (set_stack st t (leaving false :: fs))
| step_return t o fs :
    stacks st !! t = Some (completing o :: fs) → strand_internal st (set_stack st t fs)
| step_throw t o fs :
    stacks st !! t = Some (completing o :: invoking :: fs) →
    strand_internal st (set_stack st t (leaving true :: fs))
| step_nested_return t o fs :
    stacks st !! t = Some (nested o :: fs) → strand_internal st (set_stack st t fs)
| step_leave t thrown caught fs s more :
    stacks st !! t = Some (leaving thrown :: fs) → on_invoker_exit (impl st) = (s, more) →
    strand_internal st
      (if more then set_impl (set_stack st t (rescheduling thrown :: fs)) s
       else escape (set_impl (set_stack st t fs) s) t thrown caught)
| step_reschedule t thrown caught fs :
    stacks st !! t = Some (rescheduling thrown :: fs) →
    strand_internal st
      (escape (set_scheduled (set_stack st t fs) (S (scheduled st))) t thrown caught).

(** A submission by any thread that executes code of the user, and the shutdown of the
    context, when no thread is left in it. *)
Inductive strand_step (st : strand) : strand → Prop :=
| step_submit t fs how o :
    stacks st !! t = Some fs → in_user_code fs = true → strand_step st (submit st t fs how o)
| step_shutdown s l :
    Forall (λ fs, fs = []) (stacks st) → shutdown_impl (impl st) = (s, l) →
    strand_step st (mk_strand s (stacks st) (scheduled st) (workers st) (enqueued st)
      (started st) (dropped st ++ l))
| step_internal st' : strand_internal st st' → strand_step st st'.

(** [n] threads, of which the first [k] are those of the context. *)
Definition new_strand (n k : nat) : strand :=
  mk_strand create_implementation (replicate n []) 0 (seq 0 k) [] [] [].

Inductive strand_reachable (n k : nat) : strand → Prop :=
| strand_new : strand_reachable n k (new_strand n k)
| strand_next st st' : strand_reachable n k st → strand_step st st' → strand_reachable n k st'.

(** ** The invariant *)

(** The strand lock is one token: nobody has it, the executor has it with a scheduled
    invoker, or one thread has it. *)
Inductive owner : Type := nobody | executor | holder (t : thread) (fs : list frame).

Definition frame_holds (f : frame) : bool :=
  match f with completing _ | nested _ => false | _ => true end.

(** The stack of the holder: one activity of the strand, and on top of a loop a function with
    the functions it called at once. *)
Fixpoint stack_ok (fs : list frame) : bool :=
  match fs with
  | [] => false
  | [f] => frame_holds f
  | [completing _; invoking] => true
  | nested _ :: fs' => in_user_code fs' && stack_ok fs'
  | _ => false
  end.

Definition owner_stacks (n : nat) (w : owner) : list (list frame) :=
  match w with holder t fs => <[t := fs]> (replicate n []) | _ => replicate n [] end.

Definition in_flight (fs : list frame) : list op :=
  match fs with acquired o _ :: _ => [o] | _ => [] end.
Definition owner_flight (w : owner) : list op :=
  match w with holder _ fs => in_flight fs | _ => [] end.

Record strand_inv (n k : nat) (st : strand) (w : owner) : Prop := {
  si_stacks : stacks st = owner_stacks n w;
  si_scheduled : scheduled st = match w with executor => 1 | _ => 0 end%nat;
  si_locked : locked_ (impl st) = match w with nobody => false | _ => true end;
  si_holder : match w with holder t fs => (t < n)%nat ∧ stack_ok fs = true | _ => True end;
  si_idle : w = nobody → ready_queue_ (impl st) = [] ∧ waiting_queue_ (impl st) = [];
  si_ready : match w with
    | holder _ (acquired _ _ :: _) | holder _ (leaving false :: _) => ready_queue_ (impl st) = []
    | _ => True end;
  si_fifo : shutdown_ (impl st) = false → dropped st = [] ∧
    enqueued st = started st ++ owner_flight w ++ ready_queue_ (impl st) ++ waiting_queue_ (impl st);
  si_shutdown : shutdown_ (impl st) = true →
    owner_flight w = [] ∧ ready_queue_ (impl st) = [] ∧ waiting_queue_ (impl st) = [] ∧
    enqueued st ≡ₚ started st ++ dropped st;
  si_workers : ∀ t, t ∈ workers st → (t < k)%nat;
}.

Lemma owner_lookup n w t fs :
  owner_stacks n w !! t = Some fs → fs = [] ∨ w = holder t fs.
Proof.
  destruct w as [| |u gs]; simpl; try (intros [? _]%lookup_replicate; by left).
  intros [(-> & -> & _)|(Hne & Hl)]%list_lookup_insert_Some; [by right|].
  apply lookup_replicate in Hl as [? _]. by left.
Qed.

(** A thread with a stack is the holder. *)
Lemma inv_holder n k st w t f fs :
  strand_inv n k st w → stacks st !! t = Some (f :: fs) → w = holder t (f :: fs).
Proof. intros Hi. rewrite (si_stacks n k st w Hi). by intros [|]%owner_lookup. Qed.

Lemma set_owner_stack n t fs gs :
  (t < n)%nat →
  <[t := gs]> (owner_stacks n (holder t fs)) =
  owner_stacks n (match gs with [] => nobody | _ => holder t gs end).
Proof.
  intros Ht. simpl. rewrite list_insert_insert_eq. destruct gs as [|g gs]; [|done].
  by apply list_insert_id, lookup_replicate.
Qed.

Lemma new_owner_stack n w t fs :
  (t < n)%nat → (w = nobody ∨ w = executor) → <[t := fs]> (owner_stacks n w) = owner_stacks n (holder t fs).
Proof. by intros Ht [->| ->]. Qed.

(** In the code of a function only the loop is below it. *)
Lemma stack_ok_completing o fs : stack_ok (completing o :: fs) = true → fs = [invoking].
Proof. destruct fs as [|[] [|? ?]]; simpl; try done. Qed.
Lemma stack_ok_single f fs : frame_holds f = true → stack_ok (f :: fs) = true → fs = [].
Proof. by destruct f, fs as [|? ?]. Qed.
Lemma stack_ok_nested o fs :
  stack_ok (nested o :: fs) = true → in_user_code fs = true ∧ stack_ok fs = true ∧ in_flight fs = [].
Proof. destruct fs as [|f fs]; [done|]. simpl. intros [Hu Ho]%andb_true_iff. by destruct f. Qed.

(** ** The specification: a queue, and at most one function that runs *)

Record serial := mk_serial { s_queue : list op; s_running : option (thread * op) }.

Inductive serial_step : serial → serial → Prop :=
| serial_enqueue q r o : serial_step (mk_serial q r) (mk_serial (q ++ [o]) r)
| serial_start t o q : serial_step (mk_serial (o :: q) None) (mk_serial q (Some (t, o)))
| serial_finish t o q : serial_step (mk_serial q (Some (t, o))) (mk_serial q None)
| serial_clear q : serial_step (mk_serial q None) (mk_serial [] None).

Definition running_ops (fs : list frame) : list op :=
  omap (λ f, match f with completing o => Some o | _ => None end) fs.

(** What a strand shows: the functions that wait in the order in which they will run, and the
    one that a thread is executing. *)
Definition serial_of (st : strand) : serial :=
  mk_serial
    (concat (imap (λ _, in_flight) (stacks st)) ++ ready_queue_ (impl st) ++ waiting_queue_ (impl st))
    (head (concat (imap (λ t fs, map (pair t) (running_ops fs)) (stacks st)))).

Definition owner_serial (w : owner) (s : strand_impl) : serial :=
  mk_serial (owner_flight w ++ ready_queue_ s ++ waiting_queue_ s)
    match w with holder t fs => head (map (pair t) (running_ops fs)) | _ => None end.

Lemma concat_imap_idle {B} (g : nat → list frame → list B) n :
  (∀ i, g i [] = []) → concat (imap g (replicate n [])) = [].
Proof.
  intros Hg. revert g Hg. induction n as [|n IH]; intros g Hg; [done|]. simpl.
  rewrite Hg. simpl. apply IH. intros i. apply Hg.
Qed.

Lemma concat_imap_holder {B} (g : nat → list frame → list B) n t fs :
  (∀ i, g i [] = []) → (t < n)%nat →
  concat (imap g (owner_stacks n (holder t fs))) = g t fs.
Proof.
  intros Hg Ht. revert g t Hg Ht. induction n as [|n IH]; intros g t Hg Ht; [lia|]. destruct t as [|t]; simpl.
  - rewrite (concat_imap_idle (g ∘ S)) by (intros i; apply Hg). by rewrite app_nil_r.
  - rewrite Hg. simpl. apply (IH (g ∘ S) t); [intros i; apply Hg|lia].
Qed.

Lemma serial_of_owner n k st w : strand_inv n k st w → serial_of st = owner_serial w (impl st).
Proof.
  intros [Hs _ _ Hh _ _ _ _ _]. unfold serial_of, owner_serial. rewrite Hs. destruct w as [| |t fs]; simpl owner_stacks.
  - by rewrite !concat_imap_idle.
  - by rewrite !concat_imap_idle.
  - destruct Hh as [Ht _]. by rewrite !(concat_imap_holder _ n t fs).
Qed.

(** ** Steps *)

Definition frame_weight (f : frame) : nat :=
  match f with
  | acquired _ _ => 6 | scheduling _ => 5 | invoking => 3 | completing _ => 5 | nested _ => 1
  | leaving false => 1 | leaving true => 7 | rescheduling _ => 5
  end.

Definition owner_weight (w : owner) (s : strand_impl) : nat :=
  16 * length (waiting_queue_ s) + 8 * length (owner_flight w ++ ready_queue_ s) +
  match w with nobody => 0 | executor => 4 | holder _ fs => sum_list_with frame_weight fs end.

(** A step of the strand leads to an owner [w'], is a step of the specification or none, and
    brings the strand closer to its end. *)
Definition step_ok (n k : nat) (st : strand) (w : owner) (st' : strand) : Prop :=
  ∃ w', strand_inv n k st' w' ∧
    (owner_serial w' (impl st') = owner_serial w (impl st) ∨
     serial_step (owner_serial w (impl st)) (owner_serial w' (impl st'))) ∧
    (owner_weight w' (impl st') < owner_weight w (impl st))%nat.

(** A step of the holder that changes its stack, the ready queue and the functions started. *)
Lemma holder_step n k st st' t f fs gs r m :
  strand_inv n k st (holder t (f :: fs)) →
  impl st' = set_ready (impl st) r → stacks st' = <[t := gs]> (stacks st) →
  scheduled st' = scheduled st → workers st' = workers st → enqueued st' = enqueued st →
  started st' = started st ++ m → dropped st' = dropped st →
  stack_ok gs = true →
  match gs with acquired _ _ :: _ | leaving false :: _ => r = [] | _ => True end →
  (shutdown_ (impl st) = false → in_flight (f :: fs) ++ ready_queue_ (impl st) = m ++ in_flight gs ++ r) →
  (shutdown_ (impl st) = true → m = [] ∧ in_flight gs = [] ∧ r = []) →
  strand_inv n k st' (holder t gs).
Proof.
  intros [Hs Hc Hl [Ht Hok] _ _ Hf Hd Hw] Ei Es Ec Ew Ee Et Ed Hok' Hr Hm Hsh.
  assert (gs ≠ []) as Hgs by (by intros ->).
  split; rewrite ?Ei, ?Es, ?Ec, ?Ew, ?Ee, ?Et, ?Ed; simpl; try done.
  - rewrite Hs, set_owner_stack by done. by destruct gs.
  - intros E. destruct (Hf E) as [-> He]. split; [done|]. rewrite He. cbn [owner_flight].
    rewrite <-app_assoc, (app_assoc (in_flight gs)), (app_assoc (in_flight (f :: fs))), Hm by done.
    by rewrite !app_assoc.
  - intros E. destruct (Hd E) as (_ & _ & -> & He). destruct (Hsh E) as (-> & -> & ->).
    by rewrite app_nil_r.
Qed.

(** The holder leaves the strand: to the executor with an invoker, or for good. *)
Lemma release_step n k st st' t f w' :
  strand_inv n k st (holder t [f]) → in_flight [f] = [] →
  stacks st' = <[t := []]> (stacks st) → (∀ u, u ∈ workers st' → u ∈ workers st) →
  enqueued st' = enqueued st → started st' = started st → dropped st' = dropped st →
  shutdown_ (impl st') = shutdown_ (impl st) →
  ready_queue_ (impl st') ++ waiting_queue_ (impl st') = ready_queue_ (impl st) ++ waiting_queue_ (impl st) →
  locked_ (impl st') = match w' with executor => true | _ => false end →
  scheduled st' = match w' with executor => 1 | _ => 0 end%nat →
  w' = executor ∨ w' = nobody ∧ ready_queue_ (impl st') ++ waiting_queue_ (impl st') = [] →
  strand_inv n k st' w'.
Proof.
  intros [Hs Hc Hl [Ht Hok] _ _ Hf Hd Hw] Hfl Es Ew Ee Et Ed Esh Eq El Esc Hw'.
  assert (owner_flight w' = []) as Hflow by (by destruct Hw' as [->|[-> _]]).
  split; rewrite ?Es, ?Ee, ?Et, ?Ed, ?Esh, ?Hflow.
  - rewrite Hs, set_owner_stack by done. by destruct Hw' as [->|[-> _]].
  - rewrite Esc. by destruct Hw' as [->|[-> _]].
  - rewrite El. by destruct Hw' as [->|[-> _]].
  - by destruct Hw' as [->|[-> _]].
  - intros ->. destruct Hw' as [?|[_ [? ?]%app_nil]]; done.
  - by destruct Hw' as [->|[-> _]].
  - intros E. destruct (Hf E) as [-> ->]. simpl. simpl in Hfl. rewrite Hfl, Eq. done.
  - intros E. destruct (Hd E) as (_ & Hr1 & Hr2 & Hp). rewrite Hr1, Hr2 in Eq.
    apply app_nil in Eq as [-> ->]. done.
  - auto.
Qed.

Lemma set_ready_same s : set_ready s (ready_queue_ s) = s.
Proof. by destruct s. Qed.

(** Nothing is in the ready queue of a strand that was shut down. *)
Lemma inv_shut_ready n k st w : strand_inv n k st w → shutdown_ (impl st) = true → ready_queue_ (impl st) = [].
Proof. intros Hi E. by destruct (si_shutdown n k st w Hi E) as (_ & -> & _). Qed.

(** A step that only changes the stack of the holder. *)
Lemma stack_step n k st t f fs gs :
  strand_inv n k st (holder t (f :: fs)) → stack_ok gs = true →
  in_flight (f :: fs) = [] → in_flight gs = [] →
  match gs with leaving false :: _ => ready_queue_ (impl st) = [] | _ => True end →
  strand_inv n k (set_stack st t gs) (holder t gs).
Proof.
  intros Hi Hok Hf Hg Hr. apply (holder_step n k st _ t f fs gs (ready_queue_ (impl st)) []); simpl; try done.
  - by rewrite set_ready_same.
  - by rewrite app_nil_r.
  - by destruct gs as [|[| | | | |[]|] ?].
  - intros _. simpl in Hf. by rewrite Hf, Hg.
  - intros E. by rewrite (inv_shut_ready n k st _ Hi E).
Qed.

Lemma escape_fields st t thrown caught :
  ∃ ws, escape st t thrown caught = set_workers st ws ∧ (∀ u, u ∈ ws → u ∈ workers st).
Proof.
  unfold escape. destruct (thrown && negb caught).
  - eexists. split; [done|]. intros u [_ Hu]%list_elem_of_filter. done.
  - exists (workers st). by destruct st.
Qed.

Lemma step_publish_ok n k st t o how fs :
  strand_inv n k st (holder t (acquired o how :: fs)) →
  step_ok n k st (holder t (acquired o how :: fs))
    (set_impl (set_stack st t (scheduling how :: fs)) (set_ready (impl st) (ready_queue_ (impl st) ++ [o]))).
Proof.
  intros Hi. pose proof (si_holder _ _ _ _ Hi) as [Ht Hok]. apply stack_ok_single in Hok as ->; [|done].
  pose proof (si_ready _ _ _ _ Hi) as Hr. simpl in Hr. exists (holder t [scheduling how]). split_and!.
  - apply (holder_step n k st _ t (acquired o how) [] _ [o] []); simpl; try done.
    + by rewrite Hr.
    + by rewrite app_nil_r.
    + by rewrite Hr.
    + intros E. by destruct (si_shutdown _ _ _ _ Hi E).
  - left. unfold owner_serial. simpl. by rewrite Hr.
  - unfold owner_weight. simpl. rewrite Hr. simpl. lia.
Qed.

Lemma step_schedule_ok n k st t how fs :
  strand_inv n k st (holder t (scheduling how :: fs)) →
  step_ok n k st (holder t (scheduling how :: fs)) (schedule st t fs how).
Proof.
  intros Hi. pose proof (si_holder _ _ _ _ Hi) as [Ht Hok]. apply stack_ok_single in Hok as ->; [|done].
  unfold schedule. destruct (_ && _).
  - exists (holder t [invoking]). split_and!; [|by left|unfold owner_weight; simpl; lia].
    by apply (stack_step n k st t (scheduling how) []).
  - exists executor. split_and!; [|by left|unfold owner_weight; simpl; lia].
    eapply release_step; try done; simpl.
    + by rewrite (si_locked _ _ _ _ Hi).
    + by rewrite (si_scheduled _ _ _ _ Hi).
    + by left.
Qed.

Lemma step_invoke_ok n k st w t m :
  strand_inv n k st w → stacks st !! t = Some [] → scheduled st = S m →
  step_ok n k st w (set_scheduled (set_stack st t [invoking]) m).
Proof.
  intros [Hs Hc Hl Hh Hid Hr Hf Hd Hw] Hst Hm. rewrite Hm in Hc. destruct w; try done.
  injection Hc as ->. rewrite Hs in Hst. apply lookup_replicate in Hst as [_ Ht].
  exists (holder t [invoking]). split_and!; [|by left|unfold owner_weight; simpl; lia].
  split; simpl; try done. by rewrite Hs.
Qed.

Lemma step_next_ok n k st t fs o r :
  strand_inv n k st (holder t (invoking :: fs)) → ready_queue_ (impl st) = o :: r →
  step_ok n k st (holder t (invoking :: fs))
    (take (set_impl (set_stack st t (completing o :: invoking :: fs)) (set_ready (impl st) r)) o).
Proof.
  intros Hi Er. pose proof (si_holder _ _ _ _ Hi) as [Ht Hok]. apply stack_ok_single in Hok as ->; [|done].
  exists (holder t [completing o; invoking]). split_and!.
  - apply (holder_step n k st _ t invoking [] _ r [o]); simpl; try done.
    intros E. pose proof (inv_shut_ready _ _ _ _ Hi E). congruence.
  - right. unfold owner_serial. simpl. rewrite Er. simpl. apply serial_start.
  - unfold owner_weight. simpl. rewrite Er. simpl. lia.
Qed.

Lemma step_return_ok n k st t o fs gs :
  strand_inv n k st (holder t (completing o :: fs)) → (gs = fs ∨ gs = [leaving true]) →
  step_ok n k st (holder t (completing o :: fs)) (set_stack st t gs).
Proof.
  intros Hi Hg. pose proof (si_holder _ _ _ _ Hi) as [Ht Hok]. apply stack_ok_completing in Hok as ->.
  exists (holder t gs). split_and!.
  - apply (stack_step n k st t (completing o) [invoking]); try done; by destruct Hg as [->| ->].
  - right. unfold owner_serial. destruct Hg as [->| ->]; simpl; apply serial_finish.
  - unfold owner_weight. destruct Hg as [->| ->]; simpl; lia.
Qed.

Lemma step_nested_return_ok n k st t o fs :
  strand_inv n k st (holder t (nested o :: fs)) →
  step_ok n k st (holder t (nested o :: fs)) (set_stack st t fs).
Proof.
  intros Hi. pose proof (si_holder _ _ _ _ Hi) as [Ht Hok]. apply stack_ok_nested in Hok as (Hu & Hok & Hf).
  exists (holder t fs). split_and!.
  - apply (stack_step n k st t (nested o) fs); try done. by destruct fs as [|[] ?].
  - left. unfold owner_serial. simpl. by rewrite Hf.
  - unfold owner_weight. simpl. rewrite Hf. simpl. lia.
Qed.

Lemma step_leave_ok n k st t thrown caught fs s more :
  strand_inv n k st (holder t (leaving thrown :: fs)) → on_invoker_exit (impl st) = (s, more) →
  step_ok n k st (holder t (leaving thrown :: fs))
    (if more then set_impl (set_stack st t (rescheduling thrown :: fs)) s
     else escape (set_impl (set_stack st t fs) s) t thrown caught).
Proof.
  intros Hi Hex. pose proof (si_holder _ _ _ _ Hi) as [Ht Hok]. apply stack_ok_single in Hok as ->; [|done].
  unfold on_invoker_exit in Hex. injection Hex as <- <-.
  destruct (decide (ready_queue_ (impl st) ++ waiting_queue_ (impl st) = [])) as [E|E];
    [rewrite bool_decide_true by done|rewrite bool_decide_false by done]; simpl.
  - destruct (escape_fields (set_impl (set_stack st t []) (mk_strand_impl false (shutdown_ (impl st)) []
      (ready_queue_ (impl st) ++ waiting_queue_ (impl st)))) t thrown caught) as (ws & -> & Hws).
    exists nobody. split_and!.
    + eapply release_step; try done; simpl; rewrite ?app_nil_r; try done.
      * by rewrite (si_scheduled _ _ _ _ Hi).
      * by right.
    + left. unfold owner_serial. simpl. by rewrite app_nil_r.
    + unfold owner_weight. simpl. apply app_nil in E as [-> ->]. simpl. destruct thrown; simpl; lia.
  - exists (holder t [rescheduling thrown]).
    destruct Hi as [Hs Hc Hl Hh Hid Hr Hf Hd Hw]. split_and!.
    + split; simpl; try done.
      * by rewrite Hs, set_owner_stack.
      * intros Esh. rewrite app_nil_r. apply (Hf Esh).
      * intros Esh. destruct (Hd Esh) as (_ & E1 & E2 & _). by rewrite E1, E2 in E.
    + left. unfold owner_serial. simpl. by rewrite app_nil_r.
    + unfold owner_weight. simpl. rewrite length_app.
      destruct thrown; simpl in *; [lia|]. rewrite Hr in *. simpl in *.
      destruct (waiting_queue_ (impl st)); [done|simpl; lia].
Qed.

Lemma step_reschedule_ok n k st t thrown caught fs :
  strand_inv n k st (holder t (rescheduling thrown :: fs)) →
  step_ok n k st (holder t (rescheduling thrown :: fs))
    (escape (set_scheduled (set_stack st t fs) (S (scheduled st))) t thrown caught).
Proof.
  intros Hi. pose proof (si_holder _ _ _ _ Hi) as [Ht Hok]. apply stack_ok_single in Hok as ->; [|done].
  destruct (escape_fields (set_scheduled (set_stack st t []) (S (scheduled st))) t thrown caught)
    as (ws & -> & Hws).
  exists executor. split_and!; [|by left|unfold owner_weight; simpl; lia].
  eapply release_step; try done; simpl.
  - by rewrite (si_locked _ _ _ _ Hi).
  - by rewrite (si_scheduled _ _ _ _ Hi).
  - by left.
Qed.

Lemma internal_ok n k st w st' : strand_inv n k st w → strand_internal st st' → step_ok n k st w st'.
Proof.
  intros Hi Hst. destruct Hst as [t o how fs Hs|t how fs Hs|t m Hwk Hs Hm|t fs o r Hs Hr|t fs Hs Hr
    |t o fs Hs|t o fs Hs|t o fs Hs|t th ca fs s more Hs Hex|t th ca fs Hs];
    try (pose proof (inv_holder _ _ _ _ _ _ _ Hi Hs) as ->).
  - by apply step_publish_ok.
  - by apply step_schedule_ok.
  - by apply step_invoke_ok.
  - by apply step_next_ok.
  - pose proof (si_holder _ _ _ _ Hi) as [Ht Hok]. apply stack_ok_single in Hok as ->; [|done].
    exists (holder t [leaving false]). split_and!; [|by left|unfold owner_weight; simpl; lia].
    by apply (stack_step n k st t invoking []).
  - apply step_return_ok; auto.
  - apply step_return_ok; [done|]. right.
    pose proof (si_holder _ _ _ _ Hi) as [Ht Hok]. by apply stack_ok_completing in Hok as [= ->].
  - by apply step_nested_return_ok.
  - by apply step_leave_ok.
  - by apply step_reschedule_ok.
Qed.

Definition refines_step (n k : nat) (st : strand) (w : owner) (st' : strand) : Prop :=
  ∃ w', strand_inv n k st' w' ∧
    (owner_serial w' (impl st') = owner_serial w (impl st) ∨
     serial_step (owner_serial w (impl st)) (owner_serial w' (impl st'))).

Lemma queued_ok n k st w o :
  strand_inv n k st w → shutdown_ (impl st) = false → locked_ (impl st) = true →
  refines_step n k st w (accept (set_impl st (mk_strand_impl true false
    (waiting_queue_ (impl st) ++ [o]) (ready_queue_ (impl st)))) o).
Proof.
  intros [Hs Hc Hl Hh Hid Hr Hf Hd Hw] Esh El. exists w. split.
  - split; simpl; try done; try congruence.
    + intros ->. congruence.
    + intros _. destruct (Hf Esh) as [-> ->]. by rewrite !app_assoc.
  - right. unfold owner_serial. simpl. rewrite !app_assoc. apply serial_enqueue.
Qed.

Lemma takes_lock_ok n k st w t how o :
  strand_inv n k st w → shutdown_ (impl st) = false → locked_ (impl st) = false → stacks st !! t = Some [] →
  refines_step n k st w (set_stack (accept (set_impl st (mk_strand_impl true false
    (waiting_queue_ (impl st)) (ready_queue_ (impl st)))) o) t [acquired o how]).
Proof.
  intros [Hs Hc Hl Hh Hid Hr Hf Hd Hw] Esh El Hst. rewrite El in Hl. destruct w; try done.
  destruct (Hid eq_refl) as [Er Ew]. rewrite Hs in Hst. apply lookup_replicate in Hst as [_ Ht].
  exists (holder t [acquired o how]). split.
  - split; simpl; try done.
    + by rewrite Hs.
    + intros _. destruct (Hf Esh) as [-> ->]. by rewrite Er, Ew, !app_nil_r.
  - right. unfold owner_serial. simpl. rewrite Er, Ew. apply (serial_enqueue []).
Qed.

Lemma nested_ok n k st t f fs o :
  strand_inv n k st (holder t (f :: fs)) → in_user_code (f :: fs) = true →
  refines_step n k st (holder t (f :: fs)) (set_stack st t (nested o :: f :: fs)).
Proof.
  intros Hi Hu. pose proof (si_holder _ _ _ _ Hi) as [Ht Hok].
  assert (in_flight (f :: fs) = []) as Hf by (by destruct f).
  exists (holder t (nested o :: f :: fs)). split.
  - apply (stack_step n k st t f fs); try done.
    change (in_user_code (f :: fs) && stack_ok (f :: fs) = true). by rewrite Hu, Hok.
  - left. unfold owner_serial. cbn [owner_flight]. by rewrite Hf.
Qed.

Lemma same_ok n k st w : strand_inv n k st w → refines_step n k st w st.
Proof. intros Hi. exists w. by split; [|left]. Qed.

Lemma submit_ok n k st w t fs how o :
  strand_inv n k st w → stacks st !! t = Some fs → in_user_code fs = true →
  refines_step n k st w (submit st t fs how o).
Proof.
  intros Hi Hst Hu. unfold submit. destruct (bool_decide (how = by_dispatch) && running_in_this_thread fs) eqn:Ed.
  - destruct fs as [|f fs]; [by rewrite andb_false_r in Ed|].
    rewrite (inv_holder _ _ _ _ _ _ _ Hi Hst) in Hi |- *. by apply nested_ok.
  - unfold enqueue. destruct (shutdown_ (impl st)) eqn:Esh; [by apply same_ok|].
    destruct (locked_ (impl st)) eqn:El; [by apply queued_ok|].
    destruct fs as [|f fs]; [by apply takes_lock_ok|].
    pose proof (inv_holder _ _ _ _ _ _ _ Hi Hst) as ->. pose proof (si_locked _ _ _ _ Hi). congruence.
Qed.

Lemma shutdown_ok n k st w s l :
  strand_inv n k st w → Forall (λ fs, fs = []) (stacks st) → shutdown_impl (impl st) = (s, l) →
  refines_step n k st w (mk_strand s (stacks st) (scheduled st) (workers st) (enqueued st)
    (started st) (dropped st ++ l)).
Proof.
  intros [Hs Hc Hl Hh Hid Hr Hf Hd Hw] Hall [= <- <-]. exists w.
  assert (w = nobody ∨ w = executor) as Hno.
  { destruct w as [| |t fs]; [auto..|]. destruct Hh as [Ht Hok]. rewrite Hs in Hall. simpl in Hall.
    assert (<[t := fs]> (replicate n []) !! t = Some fs) as Hx.
    { apply list_lookup_insert_eq. by rewrite length_replicate. }
    by rewrite (Forall_lookup_1 _ _ _ _ Hall Hx) in Hok. }
  split.
  - split; simpl; try done.
    + by destruct Hno as [->| ->].
    + intros _. split; [by destruct Hno as [->| ->]|]. split; [done|]. split; [done|].
      destruct (shutdown_ (impl st)) eqn:Esh.
      * destruct (Hd eq_refl) as (_ & -> & -> & ->). by rewrite app_nil_r.
      * destruct (Hf eq_refl) as [-> ->]. destruct Hno as [->| ->]; simpl; by rewrite (comm (++) (ready_queue_ _)).
  - right. unfold owner_serial. destruct Hno as [->| ->]; simpl; apply serial_clear.
Qed.

Lemma strand_step_ok n k st w st' : strand_inv n k st w → strand_step st st' → refines_step n k st w st'.
Proof.
  intros Hi [t fs how o Hst Hu|s l Hall Hs|st'' Hint].
  - by apply submit_ok.
  - by apply shutdown_ok.
  - destruct (internal_ok n k st w st'' Hi Hint) as (w' & Hi' & Hs & _). by exists w'.
Qed.

Lemma strand_reachable_inv n k st : strand_reachable n k st → ∃ w, strand_inv n k st w.
Proof.
  induction 1 as [|st st' _ [w Hi] Hst].
  - exists nobody. split; simpl; try done. intros t Ht%elem_of_seq. lia.
  - destruct (strand_step_ok n k st w st' Hi Hst) as (w' & Hi' & _). by exists w'.
Qed.

(** As long as somebody has the token, somebody can go on. *)
Lemma owner_enabled n k st w t :
  strand_inv n k st w → t ∈ workers st → (k ≤ n)%nat → w ≠ nobody → red strand_internal st.
Proof.
  intros Hi Ht Hk Hw. destruct w as [| |u fs]; [done|..].
  - exists (set_scheduled (set_stack st t [invoking]) 0). apply step_invoke; [done| |].
    + rewrite (si_stacks _ _ _ _ Hi). apply lookup_replicate_2. pose proof (si_workers _ _ _ _ Hi t Ht). lia.
    + by rewrite (si_scheduled _ _ _ _ Hi).
  - destruct (si_holder _ _ _ _ Hi) as [Hu Hok].
    assert (stacks st !! u = Some fs) as Hst.
    { rewrite (si_stacks _ _ _ _ Hi). apply list_lookup_insert_eq. by rewrite length_replicate. }
    destruct fs as [|[o how|how| |o|o|b|b] fs]; [done|..].
    + eexists. by eapply step_publish.
    + eexists. by eapply step_schedule.
    + destruct (ready_queue_ (impl st)) eqn:Er; eexists; [by eapply step_done|by eapply step_next].
    + eexists. by eapply step_return.
    + eexists. by eapply step_nested_return.
    + destruct (on_invoker_exit (impl st)) as [s more] eqn:Ex. eexists. by eapply (step_leave st u b true).
    + eexists. by eapply (step_reschedule st u b true).
Qed.

Lemma strand_internal_sn n k st w : strand_inv n k st w → sn strand_internal st.
Proof.
  remember (owner_weight w (impl st)) as m eqn:Hm. revert st w Hm.
  induction (lt_wf m) as [m _ IH]. intros st w -> Hi. constructor. intros st' Hst.
  destruct (internal_ok n k st w st' Hi Hst) as (w' & Hi' & _ & Hlt). by eapply IH.
Qed.

Lemma internal_reaches n k st st' :
  strand_reachable n k st → rtc strand_internal st st' → strand_reachable n k st'.
Proof.
  intros Hr. induction 1 as [|st st1 st2 Hst _ IH]; [done|].
  apply IH. eapply strand_next; [done|]. by apply step_internal.
Qed.

(** ** Theorems *)

(** C6: a strand is a queue that runs one function at a time: whatever threads submit
    functions, take the invoker, run functions that submit others or throw, at every step the
    strand as seen from outside stays as it is, or takes a function at the end of its queue,
    or starts the first one of its queue while none runs, or finishes the one that runs, or
    drops its queue at shutdown. *)
Theorem strand_refines_serial n k st st' :
  strand_reachable n k st → strand_step st st' →
  serial_of (new_strand n k) = mk_serial [] None ∧
  (serial_of st' = serial_of st ∨ serial_step (serial_of st) (serial_of st')).
Proof.
  intros Hr Hst. split.
  - destruct (strand_reachable_inv n k (new_strand n k) (strand_new n k)) as [w Hi].
    rewrite (serial_of_owner n k _ w Hi). pose proof (si_scheduled _ _ _ _ Hi) as Hc.
    pose proof (si_locked _ _ _ _ Hi) as Hl. by destruct w.
  - destruct (strand_reachable_inv n k st Hr) as [w Hi].
    destruct (strand_step_ok n k st w st' Hi Hst) as (w' & Hi' & Hs).
    by rewrite (serial_of_owner n k st w Hi), (serial_of_owner n k st' w' Hi').
Qed.

(** A strand excludes and keeps the order: no two threads are ever inside a strand, in a
    function or in the code that touches the ready queue without the mutex, and none is while
    an invoker is scheduled, of which there is at most one; until shutdown the functions
    accepted are those started followed by those waiting, in order; after it every function
    accepted was started or destroyed, once. *)
Theorem strand_exclusive n k st :
  strand_reachable n k st →
  (∀ t u f fs g gs, stacks st !! t = Some (f :: fs) → stacks st !! u = Some (g :: gs) →
    t = u ∧ scheduled st = 0%nat) ∧
  (scheduled st ≤ 1)%nat ∧
  (shutdown_ (impl st) = false → enqueued st = started st ++ s_queue (serial_of st)) ∧
  (shutdown_ (impl st) = true → enqueued st ≡ₚ started st ++ dropped st).
Proof.
  intros [w Hi]%strand_reachable_inv. split_and!.
  - intros t u f fs g gs Ht Hu. pose proof (inv_holder _ _ _ _ _ _ _ Hi Ht) as ->.
    pose proof (inv_holder _ _ _ _ _ _ _ Hi Hu) as [= -> _ _]. by rewrite (si_scheduled _ _ _ _ Hi).
  - rewrite (si_scheduled _ _ _ _ Hi). destruct w; lia.
  - intros E. rewrite (serial_of_owner _ _ _ _ Hi). by destruct (si_fifo _ _ _ _ Hi E).
  - intros E. by destruct (si_shutdown _ _ _ _ Hi E) as (_ & _ & _ & ?).
Qed.

(** C9: no function is forgotten on a strand: the steps that follow the submissions come to an
    end in whatever order they happen; and if a thread of the context is left then, although
    functions may have thrown and ended others, the strand is unlocked and every function that
    was accepted and not destroyed by shutdown has been started. *)
Theorem strand_drains n k st :
  (k ≤ n)%nat → strand_reachable n k st →
  sn strand_internal st ∧
  (∀ st', rtc strand_internal st st' → nf strand_internal st' → workers st' ≠ [] →
    locked_ (impl st') = false ∧ (shutdown_ (impl st') = false → started st' = enqueued st')).
Proof.
  intros Hk Hr. split.
  - destruct (strand_reachable_inv n k st Hr) as [w Hi]. by eapply strand_internal_sn.
  - intros st' Hrtc Hnf Hne. pose proof (internal_reaches n k st st' Hr Hrtc) as Hr'.
    destruct (strand_reachable_inv n k st' Hr') as [w Hi].
    destruct (workers st') as [|t ws] eqn:Ew; [done|].
    assert (w = nobody) as ->.
    { destruct w; [done|..]; destruct Hnf; (eapply (owner_enabled n k _ _ t); [done| |done|done]); rewrite Ew; left. }
    split; [apply (si_locked _ _ _ _ Hi)|]. intros E.
    destruct (si_fifo _ _ _ _ Hi E) as [_ ->]. destruct (si_idle _ _ _ _ Hi eq_refl) as [-> ->].
    by rewrite !app_nil_r.
Qed.

(** Two functions submitted by two threads while a third one waits for work. *)
Module sample_strand.
Definition st0 : strand := new_strand 3 2.
Definition st1 : strand := submit st0 2 [] by_post 7%positive.
Definition st2 : strand := submit st1 1 [] by_dispatch 8%positive.
Definition st3 : strand := mk_strand (mk_strand_impl false false [] []) [[]; []; []] 0 [0; 1]%nat
  [7; 8]%positive [7; 8]%positive [].

Lemma strand_reach2 : strand_reachable 3 2 st2.
Proof.
  apply (strand_next 3 2 st1); [|by apply step_submit].
  apply (strand_next 3 2 st0); [apply strand_new|by apply step_submit].
Qed.

Lemma strand_refines_serial_witness :
  strand_reachable 3 2 st2 ∧
  (serial_of (set_impl (set_stack st2 2 [scheduling by_post]) (set_ready (impl st2) [7%positive])) = serial_of st2 ∨
   serial_step (serial_of st2)
     (serial_of (set_impl (set_stack st2 2 [scheduling by_post]) (set_ready (impl st2) [7%positive])))).
Proof.
  split; [exact strand_reach2|]. apply (strand_refines_serial 3 2 st2); [exact strand_reach2|].
  apply step_internal. by apply (step_publish st2 2 7%positive by_post []).
Defined.

Lemma strand_exclusive_witness :
  strand_reachable 3 2 st2 ∧ enqueued st2 = [7; 8]%positive ∧ s_queue (serial_of st2) = [7; 8]%positive ∧
  enqueued st2 = started st2 ++ s_queue (serial_of st2).
Proof.
  split; [exact strand_reach2|]. split; [done|]. split; [done|].
  by apply (strand_exclusive 3 2 st2 strand_reach2).
Defined.

Ltac run_step tac := eapply rtc_l; [tac; reflexivity|].

Lemma strand_steps : rtc strand_internal st2 st3.
Proof.
  run_step ltac:(eapply (step_publish _ 2)).
  run_step ltac:(eapply (step_schedule _ 2)).
  eapply rtc_l; [eapply (step_invoke _ 0 0); [by left|reflexivity..]|].
  run_step ltac:(eapply (step_next _ 0)). run_step ltac:(eapply (step_return _ 0)).
  run_step ltac:(eapply (step_done _ 0)). run_step ltac:(eapply (step_leave _ 0 false true)).
  run_step ltac:(eapply (step_reschedule _ 0 false true)).
  eapply rtc_l; [eapply (step_invoke _ 1 0); [right; by left|reflexivity..]|].
  run_step ltac:(eapply (step_next _ 1)). run_step ltac:(eapply (step_return _ 1)).
  run_step ltac:(eapply (step_done _ 1)). run_step ltac:(eapply (step_leave _ 1 false true)).
  apply rtc_refl.
Qed.

Lemma strand_drains_witness :
  strand_reachable 3 2 st2 ∧ nf strand_internal st3 ∧ sn strand_internal st2 ∧
  locked_ (impl st3) = false ∧ started st3 = enqueued st3.
Proof.
  split; [exact strand_reach2|].
  assert (nf strand_internal st3) as Hnf.
  { intros [st Hst]. inversion Hst as [t ? ? ? Hs|t ? ? Hs|t ? ? ? Hn|t ? ? ? Hs|t ? Hs|t ? ? Hs|t ? ? Hs
      |t ? ? Hs|t ? ? ? ? ? Hs|t ? ? ? Hs]; try discriminate; destruct t as [|[|[|t]]]; discriminate. }
  split; [exact Hnf|].
  destruct (strand_drains 3 2 st2 ltac:(lia) strand_reach2) as [Hsn Hend]. split; [exact Hsn|].
  destruct (Hend st3 strand_steps Hnf) as [Hl Hs]; [done|]. split; [exact Hl|]. by apply Hs.
Defined.
End sample_strand.
