(* ===== verification/StrandAtomic.v ===== *)
(** Functions on a strand act as one step (extern/asio/asio/include/asio/detail/impl/
    strand_executor_service.hpp and .ipp, with [Strand]).

    The sockets keep their state in members without a lock and reach them only from functions
    on their strand; the models of [StreamSocket], [TcpPeer] and [Udp] run such a function as
    one step. Here the functions are programs that read and write a state in small steps, on
    whatever thread has them, between any steps of the other threads. *)

From stdpp Require Import gmap.
From S2P Require Import Prelude OpQueue Strand.

(** ** Programs on a state that is not protected by itself *)

Section programs.
Context {D : Type}.

(** A function either returns or throws, or accesses the state once and goes on with what
    it has read. *)
Inductive prog : Type :=
| Done (thrown : bool)
| Act (f : D → D) (k : D → prog).

(** The function alone: the state it leaves and whether it threw. *)
Fixpoint exec (p : prog) (d : D) : D * bool :=
  match p with
  | Done thrown => (d, thrown)
  | Act f k => exec (k d) (f d)
  end.
End programs.
Arguments prog : clear implicits.

(** ** The strand with the state *)

Section machine.
Context {D : Type} (body : op → prog D) (d0 : D).

(** [m_progs] is what each thread has still to execute of the function it is in. A function
    that is called at once by [dispatch] is a part of the function that calls it. *)
Record machine := mk_machine {
  m_strand : strand;
  m_data : D;
  m_progs : gmap thread (prog D);
}.

(** A step of a thread that neither starts nor ends a function. *)
Definition quiet (st st' : strand) : Prop :=
  map running_ops (stacks st') = map running_ops (stacks st) ∧ started st' = started st.

Inductive machine_step (m : machine) : machine → Prop :=
| machine_act t fs f k :
    stacks (m_strand m) !! t = Some fs → in_user_code fs = true →
    running_in_this_thread fs = true → m_progs m !! t = Some (Act f k) →
    machine_step m (mk_machine (m_strand m) (f (m_data m)) (<[t := k (m_data m)]> (m_progs m)))
| machine_start t fs o r :
    stacks (m_strand m) !! t = Some (invoking :: fs) →
    ready_queue_ (impl (m_strand m)) = o :: r →
    machine_step m (mk_machine
      (take (set_impl (set_stack (m_strand m) t (completing o :: invoking :: fs))
         (set_ready (impl (m_strand m)) r)) o)
      (m_data m) (<[t := body o]> (m_progs m)))
| machine_return t o fs :
    stacks (m_strand m) !! t = Some (completing o :: fs) → m_progs m !! t = Some (Done false) →
    machine_step m (mk_machine (set_stack (m_strand m) t fs) (m_data m) (delete t (m_progs m)))
| machine_throw t o fs :
    stacks (m_strand m) !! t = Some (completing o :: invoking :: fs) →
    m_progs m !! t = Some (Done true) →
    machine_step m (mk_machine (set_stack (m_strand m) t (leaving true :: fs)) (m_data m)
      (delete t (m_progs m)))
| machine_quiet st' :
    strand_step (m_strand m) st' → quiet (m_strand m) st' →
    machine_step m (mk_machine st' (m_data m) (m_progs m)).

Inductive machine_reachable (n k : nat) : machine → Prop :=
| machine_new : machine_reachable n k (mk_machine (new_strand n k) d0 ∅)
| machine_next m m' :
    machine_reachable n k m → machine_step m m' → machine_reachable n k m'.

(** The specification: the functions one after the other, each as a whole. *)
Definition run_serially (l : list op) : D := foldl (λ d o, (exec (body o) d).1) d0 l.

Lemma run_serially_snoc l o : run_serially (l ++ [o]) = (exec (body o) (run_serially l)).1.
Proof. unfold run_serially. by rewrite foldl_app. Qed.

(** ** No step of a strand is left out *)

Lemma quiet_stack st t fs gs st' :
  stacks st' = <[t := gs]> (stacks st) → started st' = started st →
  stacks st !! t = Some fs → running_ops gs = running_ops fs → quiet st st'.
Proof.
  intros Hs Hd Hl Hr. split; [|done]. rewrite Hs, list_fmap_insert, Hr.
  apply list_insert_id. by rewrite list_lookup_fmap, Hl.
Qed.

Lemma escape_quiet st t thrown caught :
  stacks (escape st t thrown caught) = stacks st ∧ started (escape st t thrown caught) = started st.
Proof. unfold escape. by destruct (thrown && negb caught). Qed.

Lemma submit_quiet st t fs how o : stacks st !! t = Some fs → quiet st (submit st t fs how o).
Proof.
  intros Hl. unfold submit. case_match; [by eapply quiet_stack|].
  destruct (enqueue (impl st) o) as [s []]; [done|done|by eapply quiet_stack].
Qed.

Lemma internal_covered m st' :
  strand_internal (m_strand m) st' →
  (∃ ps, machine_step m (mk_machine st' (m_data m) ps)) ∨
  ∃ t o fs, stacks (m_strand m) !! t = Some (completing o :: fs).
Proof.
  intros Hi. assert (Hq : quiet (m_strand m) st' → machine_step m (mk_machine st' (m_data m) (m_progs m))).
  { apply machine_quiet. by apply step_internal. }
  destruct Hi as [t o how fs Hl|t how fs Hl|t n Hw Hl Hn|t fs o r Hl Hr|t fs Hl Hr|t o fs Hl|t o fs Hl
    |t o fs Hl|t thrown caught fs s more Hl Hx|t thrown caught fs Hl]; eauto.
  - left. eexists. apply Hq. by eapply quiet_stack.
  - left. eexists. apply Hq. unfold schedule. case_match; by eapply quiet_stack.
  - left. eexists. apply Hq. by eapply quiet_stack.
  - left. eexists. by apply machine_start.
  - left. eexists. apply Hq. by eapply quiet_stack.
  - left. eexists. apply Hq. by eapply quiet_stack.
  - left. eexists. apply Hq. destruct more; [by eapply quiet_stack|].
    edestruct escape_quiet as [E1 E2]. by eapply quiet_stack; [rewrite E1|rewrite E2|..].
  - left. eexists. apply Hq.
    edestruct escape_quiet as [E1 E2]. by eapply quiet_stack; [rewrite E1|rewrite E2|..].
Qed.

(** Every step of the strand is one of the machine, but for the end of a function, which the
    program of the function decides ([machine_goes_on]). *)
Lemma strand_step_covered m st' :
  strand_step (m_strand m) st' →
  (∃ ps, machine_step m (mk_machine st' (m_data m) ps)) ∨
  ∃ t o fs, stacks (m_strand m) !! t = Some (completing o :: fs).
Proof.
  intros Hs. pose proof Hs as Hq. destruct Hs as [t fs how o Hl Hu|s l Hall Hx|st'' Hi].
  - left. eexists. apply machine_quiet; [done|]. by apply submit_quiet.
  - left. eexists. by apply machine_quiet.
  - by apply internal_covered.
Qed.

(** ** The invariant *)

Definition owner_running (w : owner) : list (thread * op) :=
  match w with holder t fs => map (pair t) (running_ops fs) | _ => [] end.

Definition machine_inv (n k : nat) (m : machine) (w : owner) : Prop :=
  strand_inv n k (m_strand m) w ∧
  match owner_running w with
  | [] => m_progs m = ∅ ∧ m_data m = run_serially (started (m_strand m))
  | [(t, o)] => ∃ l p, m_progs m = {[t := p]} ∧ started (m_strand m) = l ++ [o] ∧
      exec p (m_data m) = exec (body o) (run_serially l)
  | _ => False
  end.

(** The functions that run can be read off the stacks. *)
Lemma owner_running_stacks n k st w :
  strand_inv n k st w →
  owner_running w = concat (imap (λ t os, map (pair t) os) (map running_ops (stacks st))).
Proof.
  intros Hi. rewrite imap_fmap, (si_stacks _ _ _ _ Hi). symmetry.
  destruct w as [| |t fs]; [by apply concat_imap_idle..|].
  destruct (si_holder _ _ _ _ Hi) as [Ht _]. by apply (concat_imap_holder (λ t, map (pair t) ∘ running_ops)).
Qed.

Lemma quiet_running n k st w st' w' :
  strand_inv n k st w → strand_inv n k st' w' → quiet st st' → owner_running w' = owner_running w.
Proof.
  intros Hi Hi' [Hq _].
  by rewrite (owner_running_stacks n k st w Hi), (owner_running_stacks n k st' w' Hi'), Hq.
Qed.

(** A step of the strand after which thread [t] has the stack [f :: gs]. *)
Lemma step_to_holder n k st w st' t fs f gs :
  strand_inv n k st w → strand_step st st' → stacks st !! t = Some fs →
  stacks st' = <[t := f :: gs]> (stacks st) → strand_inv n k st' (holder t (f :: gs)).
Proof.
  intros Hi Hs Hl E. destruct (strand_step_ok n k st w st' Hi Hs) as (w' & Hi' & _).
  assert (stacks st' !! t = Some (f :: gs)) as Hl'.
  { rewrite E. apply list_lookup_insert_eq. by eapply lookup_lt_Some. }
  by rewrite <-(inv_holder _ _ _ _ _ _ _ Hi' Hl').
Qed.

(** The end of a function: what the machine holds is what the function leaves alone. *)
Lemma end_ok n k m o t gs st' thrown :
  machine_inv n k m (holder t [completing o; invoking]) → m_progs m !! t = Some (Done thrown) →
  running_ops gs = [] → started st' = started (m_strand m) → strand_inv n k st' (holder t gs) →
  machine_inv n k (mk_machine st' (m_data m) (delete t (m_progs m))) (holder t gs).
Proof.
  intros [_ (l & p & Hp & Hst & He)] Hpt Hg Es Hi'. split; [done|]. cbv [owner_running]. rewrite Hg.
  rewrite Hp, lookup_singleton_eq in Hpt. simplify_eq. simpl. rewrite Hp, delete_singleton_eq, Es, Hst.
  split; [done|]. by rewrite run_serially_snoc, <-He.
Qed.

Lemma act_ok n k m w t fs f c :
  machine_inv n k m w → stacks (m_strand m) !! t = Some fs → running_in_this_thread fs = true →
  m_progs m !! t = Some (Act f c) →
  machine_inv n k (mk_machine (m_strand m) (f (m_data m)) (<[t := c (m_data m)]> (m_progs m))) w.
Proof.
  intros [Hi Hw] Hl Hr Hp. split; [done|]. simpl.
  destruct fs as [|g gs]; [done|]. pose proof (inv_holder _ _ _ _ _ _ _ Hi Hl) as ->.
  cbv [owner_running] in *. destruct (running_ops (g :: gs)) as [|o [|]] eqn:Ho; simpl in *; [|idtac|done].
  - destruct Hw as [Hw _]. by rewrite Hw, lookup_empty in Hp.
  - destruct Hw as (l & p & Hps & Hst & He). rewrite Hps, lookup_singleton_eq in Hp. simplify_eq.
    exists l, (c (m_data m)). split; [by rewrite Hps, insert_singleton_eq|]. by split.
Qed.

Lemma start_ok n k m w t fs o r :
  machine_inv n k m w → stacks (m_strand m) !! t = Some (invoking :: fs) →
  ready_queue_ (impl (m_strand m)) = o :: r →
  machine_inv n k (mk_machine
    (take (set_impl (set_stack (m_strand m) t (completing o :: invoking :: fs))
       (set_ready (impl (m_strand m)) r)) o)
    (m_data m) (<[t := body o]> (m_progs m))) (holder t [completing o; invoking]).
Proof.
  intros [Hi Hw] Hl Hr. pose proof (inv_holder _ _ _ _ _ _ _ Hi Hl) as ->.
  destruct (si_holder _ _ _ _ Hi) as [_ ->%stack_ok_single]; [|done].
  simpl in Hw. destruct Hw as [Hp Hd]. split.
  - eapply step_to_holder; [done|apply step_internal; by apply step_next|done|done].
  - simpl. rewrite Hp, insert_empty, Hd. by eexists _, _.
Qed.

Lemma machine_step_inv n k m w m' :
  machine_inv n k m w → machine_step m m' → ∃ w', machine_inv n k m' w'.
Proof.
  intros Hm Hs. destruct Hs as [t fs f c Hl Hu Hr Hp|t fs o r Hl Hr|t o fs Hl Hp|t o fs Hl Hp|st' Hs Hq].
  - eexists. by eapply act_ok.
  - eexists. by eapply start_ok.
  - pose proof Hm as [Hi _]. pose proof (inv_holder _ _ _ _ _ _ _ Hi Hl) as ->.
    destruct (si_holder _ _ _ _ Hi) as [_ ->%stack_ok_completing].
    exists (holder t [invoking]). eapply end_ok; [done..|].
    eapply step_to_holder; [done|apply step_internal; by eapply step_return|done|done].
  - pose proof Hm as [Hi _]. pose proof (inv_holder _ _ _ _ _ _ _ Hi Hl) as ->.
    destruct (si_holder _ _ _ _ Hi) as [_ [= ->]%stack_ok_completing].
    exists (holder t [leaving true]). eapply end_ok; [done..|].
    eapply step_to_holder; [done|apply step_internal; by eapply step_throw|done|done].
  - destruct Hm as [Hi Hw]. destruct (strand_step_ok n k _ w st' Hi Hs) as (w' & Hi' & _).
    exists w'. split; [done|]. rewrite (quiet_running n k _ w _ w' Hi Hi' Hq). simpl.
    by destruct Hq as [_ ->].
Qed.

Lemma machine_reachable_inv n k m : machine_reachable n k m → ∃ w, machine_inv n k m w.
Proof.
  induction 1 as [|m m' _ [w Hm] Hs].
  - destruct (strand_reachable_inv n k _ (strand_new n k)) as [w Hi].
    exists w. split; [done|]. simpl. rewrite (owner_running_stacks n k _ w Hi). simpl.
    rewrite imap_fmap. by rewrite (concat_imap_idle (λ t, map (pair t) ∘ running_ops)).
  - by eapply machine_step_inv.
Qed.

Lemma machine_reaches n k m m' :
  machine_reachable n k m → rtc machine_step m m' → machine_reachable n k m'.
Proof. intros Hr. induction 1 as [|m m1 m2 Hs _ IH]; [done|]. apply IH. by eapply machine_next. Qed.

(** A thread in a function makes all its accesses, whatever [p] is left of it, and ends it. *)
Lemma function_runs t o st p d ps :
  stacks st !! t = Some [completing o; invoking] → ps !! t = Some p →
  ∃ ps', rtc machine_step (mk_machine st d ps)
    (mk_machine (set_stack st t (if (exec p d).2 then [leaving true] else [invoking])) (exec p d).1 ps').
Proof.
  intros Hl. revert d ps. induction p as [thrown|f c IH]; intros d ps Hp.
  - exists (delete t ps). apply rtc_once.
    destruct thrown; [by apply (machine_throw (mk_machine st d ps) t o [])|].
    by apply (machine_return (mk_machine st d ps) t o [invoking]).
  - destruct (IH d (f d) (<[t := c d]> ps)) as [ps' Hrun]; [by rewrite lookup_insert_eq|].
    exists ps'. eapply rtc_l; [|exact Hrun]. by apply (machine_act (mk_machine st d ps) t _ f c Hl).
Qed.

(** A function that has started is never in the way of the strand: its thread can bring it to
    its end without the help of another, and the state is then as if every function so far
    had run alone. *)
Theorem strand_function_ends n k m t o fs :
  machine_reachable n k m → stacks (m_strand m) !! t = Some (completing o :: fs) →
  ∃ m' gs, rtc machine_step m m' ∧ m_strand m' = set_stack (m_strand m) t gs ∧
    running_ops gs = [] ∧ m_data m' = run_serially (started (m_strand m)).
Proof.
  intros [w [Hi Hw]]%machine_reachable_inv Hl. pose proof (inv_holder _ _ _ _ _ _ _ Hi Hl) as ->.
  destruct (si_holder _ _ _ _ Hi) as [_ ->%stack_ok_completing].
  destruct Hw as (l & p & Hp & Hst & He).
  destruct (function_runs t o (m_strand m) p (m_data m) (m_progs m) Hl) as [ps' Hrun].
  { by rewrite Hp, lookup_singleton_eq. }
  destruct m as [st d ps]. eexists _, _. split; [exact Hrun|]. split; [done|].
  simpl in *. split; [by destruct (exec p d).2|]. by rewrite Hst, run_serially_snoc, He.
Qed.

(** C8: what functions on a strand do to a state without a lock is what they would do as
    single steps in the order in which they were accepted, although many threads run them in
    small steps and other threads act in between: while a function runs, nobody else has
    touched the state since the functions before it ended; when none runs, the state is that
    of the serial execution of those started, and of all that were accepted once the strand
    is unlocked again. *)
Theorem strand_atomic n k m :
  machine_reachable n k m →
  (∀ t o fs, stacks (m_strand m) !! t = Some fs → o ∈ running_ops fs →
    ∃ l p, started (m_strand m) = l ++ [o] ∧ m_progs m = {[t := p]} ∧
      exec p (m_data m) = exec (body o) (run_serially l)) ∧
  (Forall (λ fs, running_ops fs = []) (stacks (m_strand m)) →
    m_data m = run_serially (started (m_strand m))) ∧
  (shutdown_ (impl (m_strand m)) = false → locked_ (impl (m_strand m)) = false →
    m_data m = run_serially (enqueued (m_strand m))).
Proof.
  intros [w [Hi Hw]]%machine_reachable_inv. split_and!.
  - intros t o [|f fs] Hl Ho; [by inversion Ho|].
    pose proof (inv_holder _ _ _ _ _ _ _ Hi Hl) as ->. cbv [owner_running] in Hw.
    destruct (running_ops (f :: fs)) as [|o' [|]] eqn:E; simpl in Hw; [by inversion Ho| |done].
    apply list_elem_of_singleton in Ho as ->. destruct Hw as (l & p & ? & ? & ?). by exists l, p.
  - intros Hall. destruct w as [| |t fs]; simpl in Hw; [by destruct Hw..|].
    destruct (si_holder _ _ _ _ Hi) as [Ht _].
    assert (running_ops fs = []) as E.
    { eapply (Forall_lookup_1 _ _ t fs Hall). rewrite (si_stacks _ _ _ _ Hi).
      apply list_lookup_insert_eq. by rewrite length_replicate. }
    rewrite E in Hw. by destruct Hw.
  - intros Hsh Hlk. pose proof (si_locked _ _ _ _ Hi) as Hlo. rewrite Hlk in Hlo.
    destruct w; [|done..]. destruct (si_idle _ _ _ _ Hi eq_refl) as [Er Ew].
    destruct (si_fifo _ _ _ _ Hi Hsh) as [_ Hf]. rewrite Er, Ew, !app_nil_r in Hf. rewrite Hf. by destruct Hw.
Qed.
End machine.

(** ** Counters without a lock *)

(** Operation 9 throws; every other one reads the counter and then writes the increased value,
    as two accesses between which another thread could lose the update. *)
Definition count_once (o : op) : prog Z :=
  if bool_decide (o = 9%positive) then Act id (λ _, Done true)
  else Act id (λ c, Act (λ _, c + 1) (λ _, Done false)).

Definition machine0 : machine := mk_machine (new_strand 3%nat 2%nat) 0 ∅.

(** Thread 0 is between the read and the write when thread 2 submits operation 9. *)
Definition machine1 : machine :=
  mk_machine (mk_strand (mk_strand_impl true false [9]%positive [])
    [[completing 7%positive; invoking]; []; []] 0%nat [0; 1]%nat [7; 9]%positive [7]%positive [])
    0 {[0%nat := Act (λ _, 1) (λ _, Done false)]}.

(** Both operations have run, on two threads. *)
Definition machine2 : machine :=
  mk_machine (mk_strand (mk_strand_impl false false [] []) [[]; []; []] 0%nat [0; 1]%nat
    [7; 9]%positive [7; 9]%positive []) 1 ∅.

Ltac quiet_step tac :=
  eapply rtc_l; [apply machine_quiet; [tac; reflexivity|by split]|]; simpl.
Ltac inner_step tac := quiet_step ltac:(eapply step_internal; tac).
Ltac prog_step tac := eapply rtc_l; [tac; reflexivity|]; simpl.

Lemma machine_steps1 : rtc (machine_step count_once) machine0 machine1.
Proof.
  quiet_step ltac:(eapply (step_submit _ 2%nat [] by_post 7%positive)).
  inner_step ltac:(eapply (step_publish _ 2%nat)). inner_step ltac:(eapply (step_schedule _ 2%nat)).
  inner_step ltac:(eapply (step_invoke _ 0%nat 0%nat); [by left|..]).
  prog_step ltac:(eapply (machine_start _ _ 0%nat)). prog_step ltac:(eapply (machine_act _ _ 0%nat)).
  quiet_step ltac:(eapply (step_submit _ 2%nat [] by_post 9%positive)). apply rtc_refl.
Qed.

Lemma machine_steps2 : rtc (machine_step count_once) machine1 machine2.
Proof.
  prog_step ltac:(eapply (machine_act _ _ 0%nat)). prog_step ltac:(eapply (machine_return _ _ 0%nat)).
  inner_step ltac:(eapply (step_done _ 0%nat)). inner_step ltac:(eapply (step_leave _ 0%nat false true)).
  inner_step ltac:(eapply (step_reschedule _ 0%nat false true)).
  inner_step ltac:(eapply (step_invoke _ 1%nat 0%nat); [right; by left|..]).
  prog_step ltac:(eapply (machine_start _ _ 1%nat)). prog_step ltac:(eapply (machine_act _ _ 1%nat)).
  prog_step ltac:(eapply (machine_throw _ _ 1%nat)). inner_step ltac:(eapply (step_leave _ 1%nat true true)).
  apply rtc_refl.
Qed.

Lemma machine_reach1 : machine_reachable count_once 0 3%nat 2%nat machine1.
Proof. eapply machine_reaches; [apply machine_new|exact machine_steps1]. Qed.

Lemma strand_atomic_witness :
  machine_reachable count_once 0 3%nat 2%nat machine1 ∧ machine_reachable count_once 0 3%nat 2%nat machine2 ∧
  (∃ l p, [7]%positive = l ++ [7]%positive ∧ m_progs machine1 = {[0%nat := p]} ∧
    exec p 0 = exec (count_once 7%positive) (run_serially count_once 0 l)) ∧
  1 = run_serially count_once 0 [7; 9]%positive.
Proof.
  assert (machine_reachable count_once 0 3%nat 2%nat machine2) as H2.
  { eapply machine_reaches; [exact machine_reach1|exact machine_steps2]. }
  split; [exact machine_reach1|]. split; [done|]. split.
  - apply (proj1 (strand_atomic count_once 0 3%nat 2%nat machine1 machine_reach1) 0%nat 7%positive
      [completing 7%positive; invoking]); [reflexivity|by left].
  - by apply (proj2 (proj2 (strand_atomic count_once 0 3%nat 2%nat machine2 H2))).
Defined.

Lemma strand_function_ends_witness :
  ∃ m' gs, rtc (machine_step count_once) machine1 m' ∧ m_strand m' = set_stack (m_strand machine1) 0%nat gs ∧
    running_ops gs = [] ∧ m_data m' = run_serially count_once 0 [7]%positive.
Proof.
  exact (strand_function_ends count_once 0 3%nat 2%nat machine1 0%nat 7%positive [invoking] machine_reach1 eq_refl).
Defined.
