(* ===== verification/Scheduler.v ===== *)
(** The scheduler behind [asio::io_context]:
    extern/asio/asio/include/asio/detail/impl/scheduler.ipp with posix_event.hpp.

    The threads of the pool call [scheduler::run]; operations are pushed on a queue under a
    mutex, idle threads sleep on a condition variable, and one of them may wait in the reactor
    instead. A section under the mutex is a step here, and so is each action between two of
    them: the increment of the work count before a push, the signal that is sent after the
    mutex was released, the wake-up of a thread. Other threads may also act between two sections of one
    [do_run_one], which adds behaviours to those of the code.

    The reactor is an interface: [task_->run] blocks, unless told otherwise, until an operation
    has completed or [interrupt] was called, and yields completed operations. *)

From S2P Require Import Prelude OpQueue.
From stdpp Require Import relations.

Open Scope Z_scope.

(** [posix_event]: bit 0 of [state_] is the signal, the rest counts the waiters. *)
Module posix_event.
Definition set_signal (state : Z) : Z := Z.lor state 1.
Definition has_waiters (state : Z) : bool := 1 <? state.
Definition clear (state : Z) : Z := Z.ldiff state 1.
Definition signalled (state : Z) : bool := negb (Z.land state 1 =? 0).
Definition begin_wait (state : Z) : Z := state + 2.
Definition end_wait (state : Z) : Z := state - 2.
End posix_event.

(** The queue holds operations and the place of the reactor. *)
Inductive item : Type := task_operation_ | operation (o : op).
#[export] Instance item_eq_decision : EqDecision item.
Proof. solve_decision. Defined.

Record scheduler := mk_scheduler {
  one_thread_ : bool;
  op_queue_ : list item;
  task_ : bool;                  (* there is a reactor *)
  task_interrupted_ : bool;
  interrupted : bool;            (* [interrupt] was called since the reactor last returned *)
  outstanding_work_ : Z;
  stopped_ : bool;
  state_ : Z;                    (* of [wakeup_event_] *)
}.

Definition set_queue (s : scheduler) (q : list item) : scheduler :=
  mk_scheduler (one_thread_ s) q (task_ s) (task_interrupted_ s) (interrupted s)
    (outstanding_work_ s) (stopped_ s) (state_ s).
Definition set_state (s : scheduler) (z : Z) : scheduler :=
  mk_scheduler (one_thread_ s) (op_queue_ s) (task_ s) (task_interrupted_ s) (interrupted s)
    (outstanding_work_ s) (stopped_ s) z.
Definition set_interrupts (s : scheduler) (a b : bool) : scheduler :=
  mk_scheduler (one_thread_ s) (op_queue_ s) (task_ s) a b
    (outstanding_work_ s) (stopped_ s) (state_ s).
Definition add_work (s : scheduler) (n : Z) : scheduler :=
  mk_scheduler (one_thread_ s) (op_queue_ s) (task_ s) (task_interrupted_ s) (interrupted s)
    (outstanding_work_ s + n) (stopped_ s) (state_ s).

(** [if (!task_interrupted_ && task_) { task_interrupted_ = true; task_->interrupt(); }] *)
Definition interrupt_task (s : scheduler) : scheduler :=
  if negb (task_interrupted_ s) && task_ s then set_interrupts s true true else s.

(** [wake_one_thread_and_unlock]; the answer is whether the condition variable is to be
    signalled, which happens after the mutex is released. *)
Definition wake_one_thread_and_unlock (s : scheduler) : scheduler * bool :=
  let s := set_state s (posix_event.set_signal (state_ s)) in
  if posix_event.has_waiters (state_ s) then (s, true) else (interrupt_task s, false).

Definition unlock_and_signal_one (s : scheduler) : scheduler * bool :=
  let s := set_state s (posix_event.set_signal (state_ s)) in (s, posix_event.has_waiters (state_ s)).

(** What [post_immediate_completion] does under the mutex. *)
Definition push_and_wake (s : scheduler) (o : op) : scheduler * bool :=
  wake_one_thread_and_unlock (set_queue s (op_queue_ s ++ [operation o])).

(** [shutdown_] is false as long as the context exists. *)
Definition init_task (s : scheduler) : scheduler * bool :=
  if task_ s then (s, false)
  else
    wake_one_thread_and_unlock
      (mk_scheduler (one_thread_ s) (op_queue_ s ++ [task_operation_]) true (task_interrupted_ s)
        (interrupted s) (outstanding_work_ s) (stopped_ s) (state_ s)).

(** [stop_all_threads]; the broadcast is part of the step. *)
Definition stop_all_threads (s : scheduler) : scheduler :=
  let s := mk_scheduler (one_thread_ s) (op_queue_ s) (task_ s) (task_interrupted_ s) (interrupted s)
    (outstanding_work_ s) true (posix_event.set_signal (state_ s)) in
  interrupt_task s.

(** ** Threads *)

(** Where a thread is in [run]:
    - [at_head]: at the loop of [do_run_one];
    - [running]: in [o->complete], with its private queue and private work count;
    - [cleaned]: in [~work_cleanup] after the work count, before the private queue is pushed;
    - [in_task], [task_done]: in the reactor, and in [~task_cleanup] with what it yielded;
    - [sleeping], [woken]: in [pthread_cond_wait], and awakened but without the mutex;
    - [finished]: left [run], by an exception or not. *)
Inductive pc : Type :=
| outside
| at_head
| running (o : op) (private_op_queue : list op) (private_outstanding_work : nat)
| cleaned (private_op_queue : list op) (thrown : bool)
| in_task (more_handlers : bool)
| task_done (private_op_queue : list op)
| sleeping
| woken
| finished (thrown : bool).

(** What a thread has to do before it goes on: push an operation whose work was counted,
    signal the condition variable, or stop the scheduler. *)
Inductive pending : Type := posting (o : op) | signal_one | stopping.

Record thread := mk_thread { th_pc : pc; th_call : option pending }.

Definition signal_call (b : bool) : option pending := if b then Some signal_one else None.

(** [do_run_one] from the head of its loop to the next point where other threads can act. *)
Definition do_run_one (s : scheduler) : scheduler * thread :=
  if stopped_ s then (s, mk_thread (finished false) None)
  else
    match op_queue_ s with
    | [] =>
        (set_state s (posix_event.begin_wait (posix_event.clear (state_ s))), mk_thread sleeping None)
    | task_operation_ :: q =>
        let more_handlers := negb (bool_decide (q = [])) in
        let s := set_interrupts (set_queue s q) more_handlers (interrupted s) in
        let '(s, sig) :=
          if more_handlers && negb (one_thread_ s) then unlock_and_signal_one s else (s, false) in
        (s, mk_thread (in_task more_handlers) (signal_call sig))
    | operation o :: q =>
        let more_handlers := negb (bool_decide (q = [])) in
        let s := set_queue s q in
        let '(s, sig) :=
          if more_handlers && negb (one_thread_ s) then wake_one_thread_and_unlock s else (s, false) in
        (s, mk_thread (running o [] 0) (signal_call sig))
    end.

(** The work count of [~work_cleanup]; the answer is whether [work_finished] has to stop. *)
Definition work_cleanup (s : scheduler) (private_outstanding_work : nat) : scheduler * bool :=
  if (1 <? private_outstanding_work)%nat then
    (add_work s (Z.of_nat private_outstanding_work - 1), false)
  else if (private_outstanding_work <? 1)%nat then
    let s := add_work s (-1) in (s, outstanding_work_ s =? 0)
  else (s, false).

(** The end of a wait: the thread has the mutex again. *)
Definition wake_up (s : scheduler) : scheduler * pc :=
  let s := set_state s (posix_event.end_wait (state_ s)) in
  if posix_event.signalled (state_ s) then (s, at_head)
  else (set_state s (posix_event.begin_wait (state_ s)), sleeping).

Definition broadcast (t : thread) : thread :=
  match th_pc t with sleeping => mk_thread woken (th_call t) | _ => t end.

(** ** The system *)

(** [io] are the operations that the reactor waits for, [guards] the work guards. The history:
    operations in the order in which they were handed over, in the order in which they were
    pushed on the queue and in the order in which they were started, and whether somebody
    called [stop]. *)
Record system := mk_system {
  sched : scheduler;
  threads : list thread;
  io : list op;
  guards : nat;
  given : list op;
  pushed : list op;
  begun : list op;
  stop_called : bool;
}.

Definition update (st : system) (s : scheduler) (i : nat) (t : thread) : system :=
  mk_system s (<[i := t]> (threads st)) (io st) (guards st) (given st) (pushed st) (begun st) (stop_called st).
Definition log_pushed (st : system) (l : list op) : system :=
  mk_system (sched st) (threads st) (io st) (guards st) (given st) (pushed st ++ l) (begun st) (stop_called st).
Definition log_begun (st : system) (t : thread) : system :=
  mk_system (sched st) (threads st) (io st) (guards st) (given st) (pushed st)
    (begun st ++ match th_pc t with running o _ _ => [o] | _ => [] end) (stop_called st).
Definition log_given (st : system) (o : op) : system :=
  mk_system (sched st) (threads st) (io st) (guards st) (given st ++ [o]) (pushed st) (begun st) (stop_called st).
Definition set_io (st : system) (l : list op) : system :=
  mk_system (sched st) (threads st) l (guards st) (given st) (pushed st) (begun st) (stop_called st).
Definition stop_now (st : system) : system :=
  mk_system (stop_all_threads (sched st)) (map broadcast (threads st)) (io st) (guards st)
    (given st) (pushed st) (begun st) (stop_called st).

(** [running] code of the user, or a thread that is not in [run]. *)
Definition user_code (t : thread) : bool :=
  match t with mk_thread (outside | running _ _ _) None => true | _ => false end.
Definition in_run (t : thread) : bool :=
  match th_pc t with outside | finished _ => false | _ => true end.

(** [post_immediate_completion] up to the lock. *)
Definition post (st : system) (i : nat) (t : thread) (o : op) (is_continuation : bool) : system :=
  match th_pc t with
  | running o' pq pw =>
      if one_thread_ (sched st) || is_continuation then
        log_given (update st (sched st) i (mk_thread (running o' (pq ++ [o]) (S pw)) None)) o
      else log_given (update st (add_work (sched st) 1) i (mk_thread (th_pc t) (Some (posting o)))) o
  | _ => log_given (update st (add_work (sched st) 1) i (mk_thread (th_pc t) (Some (posting o)))) o
  end.

(** [post_deferred_completion]: the work was counted when the operation was started. *)
Definition post_deferred (st : system) (i : nat) (t : thread) (o : op) : system :=
  match th_pc t with
  | running o' pq pw =>
      if one_thread_ (sched st) then update st (sched st) i (mk_thread (running o' (pq ++ [o]) pw) None)
      else
        let '(s, sig) := push_and_wake (sched st) o in
        log_pushed (update st s i (mk_thread (th_pc t) (signal_call sig))) [o]
  | _ =>
      let '(s, sig) := push_and_wake (sched st) o in
      log_pushed (update st s i (mk_thread (th_pc t) (signal_call sig))) [o]
  end.

(** Steps that need neither the user nor an event from outside; [tidy] is the assumption that
    a function which throws has handed over no operation to the private queue of its thread. *)
Inductive sched_internal (tidy : bool) (st : system) : system → Prop :=
| do_post i p o s sig :
    threads st !! i = Some (mk_thread p (Some (posting o))) → push_and_wake (sched st) o = (s, sig) →
    sched_internal tidy st (log_pushed (update st s i (mk_thread p (signal_call sig))) [o])
| do_signal i p j c :
    threads st !! i = Some (mk_thread p (Some signal_one)) → threads st !! j = Some (mk_thread sleeping c) →
    sched_internal tidy st (update (update st (sched st) i (mk_thread p None)) (sched st) j (mk_thread woken c))
| do_signal_nobody i p :
    threads st !! i = Some (mk_thread p (Some signal_one)) →
    Forall (λ t, th_pc t ≠ sleeping) (threads st) →
    sched_internal tidy st (update st (sched st) i (mk_thread p None))
| do_stop i p :
    threads st !! i = Some (mk_thread p (Some stopping)) →
    sched_internal tidy st (stop_now (update st (sched st) i (mk_thread p None)))
| do_head i s t :
    threads st !! i = Some (mk_thread at_head None) → do_run_one (sched st) = (s, t) →
    sched_internal tidy st (log_begun (update st s i t) t)
| do_wake i s p :
    threads st !! i = Some (mk_thread woken None) → wake_up (sched st) = (s, p) →
    sched_internal tidy st (update st s i (mk_thread p None))
| do_complete i o pq pw thrown s stop :
    threads st !! i = Some (mk_thread (running o pq pw) None) →
    (tidy = true → thrown = true → pq = []) → work_cleanup (sched st) pw = (s, stop) →
    sched_internal tidy st
      (update st s i (mk_thread (cleaned pq thrown) (if stop then Some stopping else None)))
| do_clean i pq (thrown : bool) :
    threads st !! i = Some (mk_thread (cleaned pq thrown) None) →
    sched_internal tidy st
      (log_pushed (update st (set_queue (sched st) (op_queue_ (sched st) ++ map operation pq)) i
        (mk_thread (if thrown then finished true else at_head) None)) pq)
| do_task_return i more :
    threads st !! i = Some (mk_thread (in_task more) None) → more = true ∨ interrupted (sched st) = true →
    sched_internal tidy st
      (update st (set_interrupts (sched st) (task_interrupted_ (sched st)) false) i
        (mk_thread (task_done []) None))
| do_task_done i pq :
    threads st !! i = Some (mk_thread (task_done pq) None) →
    sched_internal tidy st
      (log_pushed (update st
        (set_interrupts (set_queue (sched st) (op_queue_ (sched st) ++ map operation pq ++ [task_operation_]))
          true (interrupted (sched st))) i (mk_thread at_head None)) pq).

Inductive sched_step (tidy : bool) (st : system) : system → Prop :=
| user_post i t o c :
    threads st !! i = Some t → user_code t = true → sched_step tidy st (post st i t o c)
| user_start_io i t o :
    threads st !! i = Some t → user_code t = true →
    sched_step tidy st (log_given (set_io (update st (add_work (sched st) 1) i t) (io st ++ [o])) o)
| user_deferred i t o l :
    threads st !! i = Some t → user_code t = true → io st ≡ₚ o :: l →
    sched_step tidy st (set_io (post_deferred st i t o) l)
| user_init_task i t s sig :
    threads st !! i = Some t → user_code t = true → init_task (sched st) = (s, sig) →
    sched_step tidy st (update st s i (mk_thread (th_pc t) (signal_call sig)))
| user_stop i t :
    threads st !! i = Some t → user_code t = true →
    sched_step tidy st (stop_now (mk_system (sched st) (threads st) (io st) (guards st) (given st)
      (pushed st) (begun st) true))
| user_release i t n :
    threads st !! i = Some t → user_code t = true → guards st = S n →
    sched_step tidy st
      (mk_system (add_work (sched st) (-1))
        (<[i := mk_thread (th_pc t)
             (if outstanding_work_ (sched st) - 1 =? 0 then Some stopping else None)]> (threads st))
        (io st) n (given st) (pushed st) (begun st) (stop_called st))
| user_run i :
    threads st !! i = Some (mk_thread outside None) →
    (one_thread_ (sched st) = true → Forall (λ t, in_run t = false) (threads st)) →
    sched_step tidy st
      (update st (sched st) i (if outstanding_work_ (sched st) =? 0
        then mk_thread (finished false) (Some stopping) else mk_thread at_head None))
| event_spurious i c :
    threads st !! i = Some (mk_thread sleeping c) →
    sched_step tidy st (update st (sched st) i (mk_thread woken c))
| event_io i more l l' b :
    threads st !! i = Some (mk_thread (in_task more) None) → io st ≡ₚ l ++ l' →
    (b = true → interrupted (sched st) = true) →
    sched_step tidy st
      (set_io (update st (set_interrupts (sched st) (task_interrupted_ (sched st)) b) i
        (mk_thread (task_done l) None)) l')
| step_inside st' : sched_internal tidy st st' → sched_step tidy st st'.

(** [n] threads, none of them in [run] yet, and one work guard. *)
Definition new_system (n : nat) (one_thread : bool) : system :=
  mk_system (mk_scheduler one_thread [] false true false 1 false 0)
    (replicate n (mk_thread outside None)) [] 1 [] [] [] false.

Inductive sched_reachable (tidy : bool) (n : nat) (one_thread : bool) : system → Prop :=
| sched_new : sched_reachable tidy n one_thread (new_system n one_thread)
| sched_next st st' :
    sched_reachable tidy n one_thread st → sched_step tidy st st' →
    sched_reachable tidy n one_thread st'.

(** ** What is conserved *)

Definition ops_of (q : list item) : list op :=
  omap (λ x, match x with operation o => Some o | task_operation_ => None end) q.

(** The operations that a thread holds and that are in no queue of the scheduler. *)
Definition held (t : thread) : list op :=
  match th_pc t with running _ pq _ | cleaned pq _ | task_done pq => pq | _ => [] end ++
  match th_call t with Some (posting o) => [o] | _ => [] end.

(** The work that a thread has to account for: the operation it runs, those it holds, less
    those that its private count will add. *)
Definition work_of (t : thread) : Z :=
  Z.of_nat (length (held t)) + match th_pc t with running _ _ pw => 1 - Z.of_nat pw | _ => 0 end.

Definition thread_ok (tidy : bool) (t : thread) : bool :=
  match t with
  | mk_thread (sleeping | woken | at_head | task_done _) c => match c with None => true | Some _ => false end
  | mk_thread (running _ pq pw) _ => (pw <=? length pq)%nat
  | mk_thread (cleaned pq thrown) _ => negb (tidy && thrown) || bool_decide (pq = [])
  | _ => true
  end%bool.

Definition is_stopping (t : thread) : bool :=
  match th_call t with Some stopping => true | _ => false end.
Definition count (f : thread → bool) (l : list thread) : nat := sum_list_with (λ t, if f t then 1 else 0)%nat l.
Definition work (l : list thread) : Z := foldr (λ t n, work_of t + n) 0 l.

Record base_inv (tidy : bool) (st : system) : Prop := {
  bi_threads : Forall (λ t, thread_ok tidy t = true) (threads st);
  bi_fifo : pushed st = begun st ++ ops_of (op_queue_ (sched st));
  bi_given : given st ≡ₚ pushed st ++ concat (map held (threads st)) ++ io st;
  bi_work : outstanding_work_ (sched st) =
    Z.of_nat (guards st + length (io st) + length (ops_of (op_queue_ (sched st)))) + work (threads st);
  bi_one : one_thread_ (sched st) = true → (count in_run (threads st) ≤ 1)%nat;
  bi_stop : stopped_ (sched st) = true ∨ (0 < count is_stopping (threads st))%nat →
    stop_called st = true ∨ guards st = 0%nat;
}.

(** The list of threads around one of them. *)
Lemma update_split (l : list thread) i t t' :
  l !! i = Some t → ∃ l1 l2, l = l1 ++ t :: l2 ∧ <[i := t']> l = l1 ++ t' :: l2 ∧ length l1 = i.
Proof.
  intros Hi. exists (take i l), (drop (S i) l). split; [by rewrite take_drop_middle|].
  split; [by apply insert_take_drop, lookup_lt_is_Some_1|].
  rewrite length_take. apply lookup_lt_Some in Hi. lia.
Qed.

Lemma count_app f l l' : count f (l ++ l') = (count f l + count f l')%nat.
Proof. apply sum_list_with_app. Qed.
Lemma count_cons f t l : count f (t :: l) = ((if f t then 1 else 0) + count f l)%nat.
Proof. done. Qed.
Lemma work_app l l' : work (l ++ l') = work l + work l'.
Proof. induction l as [|t l IH]; simpl; [done|]. unfold work in *. simpl. lia. Qed.
Lemma work_cons t l : work (t :: l) = work_of t + work l.
Proof. done. Qed.

(** A thread that satisfies [f] counts. *)
Lemma count_lookup f l i t : l !! i = Some t → f t = true → (0 < count f l)%nat.
Proof.
  intros Hi Hf. destruct (update_split l i t t Hi) as (l1 & l2 & -> & _).
  rewrite count_app, count_cons, Hf. lia.
Qed.
Lemma count_positive f l : (0 < count f l)%nat → ∃ i t, l !! i = Some t ∧ f t = true.
Proof.
  induction l as [|t l IH]; [unfold count; simpl; lia|]. rewrite count_cons.
  destruct (f t) eqn:Ef; [by exists 0%nat, t|]. intros (i & u & Hi & Hu)%IH. by exists (S i), u.
Qed.
Lemma count_zero f l i t : count f l = 0%nat → l !! i = Some t → f t = false.
Proof. intros Hc Hi. destruct (f t) eqn:Ef; [|done]. pose proof (count_lookup f l i t Hi Ef). lia. Qed.
Lemma count_none f l : Forall (λ t, f t = false) l → count f l = 0%nat.
Proof. induction 1 as [|t l Ht _ IH]; [done|]. by rewrite count_cons, Ht. Qed.

(** One thread changes: its part of the balance. *)
Lemma base_update tidy st st' i t t' a b g :
  base_inv tidy st → threads st !! i = Some t → threads st' = <[i := t']> (threads st) →
  thread_ok tidy t' = true → one_thread_ (sched st') = one_thread_ (sched st) →
  pushed st' = pushed st ++ a → begun st' = begun st ++ b → given st' = given st ++ g →
  ops_of (op_queue_ (sched st)) ++ a = b ++ ops_of (op_queue_ (sched st')) →
  g ++ held t ++ io st ≡ₚ a ++ held t' ++ io st' →
  outstanding_work_ (sched st') - outstanding_work_ (sched st) =
    Z.of_nat (guards st' + length (io st') + length (ops_of (op_queue_ (sched st')))) -
    Z.of_nat (guards st + length (io st) + length (ops_of (op_queue_ (sched st)))) + work_of t' - work_of t →
  (in_run t' = true → in_run t = true ∨
    (one_thread_ (sched st) = true → count in_run (threads st) = 0%nat)) →
  (stopped_ (sched st') = true ∨ is_stopping t' = true → stopped_ (sched st) = true ∨ is_stopping t = true ∨
    guards st' = 0%nat) →
  stop_called st' = stop_called st → (guards st' ≤ guards st)%nat →
  base_inv tidy st'.
Proof.
  intros [Ht Hf Hg Hw Ho Hs] Hi Et Hok Eo Ep Eb Eg Hq Hh Hwk Hrun Hst Ec Hgd.
  destruct (update_split (threads st) i t t' Hi) as (l1 & l2 & E1 & E2 & _).
  rewrite E2 in Et. rewrite E1 in *. split; rewrite ?Et.
  - apply Forall_app in Ht as [Ht1 Ht2]. apply Forall_cons in Ht2 as [_ Ht2].
    apply Forall_app. split; [done|]. by apply Forall_cons.
  - by rewrite Ep, Eb, Hf, <-!app_assoc, Hq.
  - rewrite Eg, Ep, Hg, !map_app, !concat_app. simpl.
    rewrite (Permutation_app_comm _ g), <-!app_assoc.
    rewrite (Permutation_app_swap_app g), (Permutation_app_swap_app g), (Permutation_app_swap_app a).
    do 2 f_equiv. rewrite (Permutation_app_swap_app g), (Permutation_app_comm (concat (map held l2)) (io st)).
    rewrite (Permutation_app_swap_app (held t) g), (app_assoc (held t)), (app_assoc g), Hh.
    rewrite <-!app_assoc. do 2 f_equiv. apply Permutation_app_comm.
  - rewrite work_app, work_cons in *. lia.
  - rewrite Eo. intros E. specialize (Ho E). rewrite count_app, count_cons in *.
    destruct (in_run t') eqn:Er'; [|destruct (in_run t); lia].
    destruct (Hrun eq_refl) as [Er|Hz]; [by rewrite Er in *|]. specialize (Hz E). destruct (in_run t); lia.
  - rewrite Ec. intros Hor. destruct (decide (guards st' = 0%nat)); [by right|].
    assert (stop_called st = true ∨ guards st = 0%nat) as [|]; [|by left|lia].
    apply Hs. rewrite count_app, count_cons in *.
    destruct (is_stopping t') eqn:Es'; destruct Hor as [Hor|Hor];
      try (destruct (Hst ltac:(auto)) as [|[Es|]]; [by left|right; rewrite Es; lia|done]).
    right. destruct (is_stopping t); lia.
Qed.

(** Waking up changes the event and the interrupts only. *)
Definition same_work (s s' : scheduler) : Prop :=
  op_queue_ s' = op_queue_ s ∧ one_thread_ s' = one_thread_ s ∧ task_ s' = task_ s ∧
  outstanding_work_ s' = outstanding_work_ s ∧ stopped_ s' = stopped_ s.

Lemma interrupt_same s : same_work s (interrupt_task s).
Proof. unfold interrupt_task. by destruct (_ && _). Qed.

Lemma wake_same s s' sig : wake_one_thread_and_unlock s = (s', sig) → same_work s s'.
Proof.
  unfold wake_one_thread_and_unlock. destruct (posix_event.has_waiters _); intros [= <- _]; [done|].
  destruct (interrupt_same (set_state s (posix_event.set_signal (state_ s)))) as (? & ? & ? & ? & ?). done.
Qed.

Lemma ops_of_app q q' : ops_of (q ++ q') = ops_of q ++ ops_of q'.
Proof. apply omap_app. Qed.
Lemma ops_of_operations l : ops_of (map operation l) = l.
Proof. induction l as [|o l IH]; [done|]. simpl. by f_equal. Qed.

Lemma user_code_inv t :
  user_code t = true → t = mk_thread outside None ∨ ∃ o pq pw, t = mk_thread (running o pq pw) None.
Proof. destruct t as [[] [|]]; simpl; try done; eauto. Qed.

Lemma Permutation_cons_append_swap {A} (x : A) l k : x :: l ++ k ≡ₚ l ++ [x] ++ k.
Proof. apply Permutation_middle. Qed.

Lemma held_signal p sig : held (mk_thread p (signal_call sig)) = held (mk_thread p None).
Proof. by destruct sig. Qed.
Lemma held_posting p o : held (mk_thread p (Some (posting o))) = held (mk_thread p None) ++ [o].
Proof. unfold held. simpl. by rewrite app_nil_r. Qed.
Lemma held_stopping p (b : bool) : held (mk_thread p (if b then Some stopping else None)) = held (mk_thread p None).
Proof. by destruct b. Qed.
Lemma work_of_held p c c' :
  work_of (mk_thread p c) - Z.of_nat (length (held (mk_thread p c))) =
  work_of (mk_thread p c') - Z.of_nat (length (held (mk_thread p c'))).
Proof. unfold work_of. simpl. lia. Qed.
Lemma is_stopping_signal p sig : is_stopping (mk_thread p (signal_call sig)) = false.
Proof. by destruct sig. Qed.
Lemma thread_ok_call tidy (p : pc) c c' :
  match p with sleeping | woken | at_head | task_done _ => False | _ => True end →
  thread_ok tidy (mk_thread p c) = thread_ok tidy (mk_thread p c').
Proof. by destruct p. Qed.

Lemma push_base tidy st i p c s sig o l :
  base_inv tidy st → threads st !! i = Some (mk_thread p c) → push_and_wake (sched st) o = (s, sig) →
  c = Some (posting o) ∧ l = io st ∨
    c = None ∧ user_code (mk_thread p c) = true ∧ io st ≡ₚ o :: l →
  base_inv tidy (set_io (log_pushed (update st s i (mk_thread p (signal_call sig))) [o]) l).
Proof.
  intros Hb Hi Hp Ht. pose proof (bi_threads _ _ Hb) as Hok. eapply Forall_lookup_1 in Hok; [|exact Hi].
  apply wake_same in Hp as (Eq & Eo & _ & Ew & Es). simpl in *.
  pose proof (work_of_held p (signal_call sig) c) as Hwk. rewrite held_signal in Hwk.
  eapply (base_update tidy st _ i (mk_thread p c) (mk_thread p (signal_call sig)) [o] [] []); try done; simpl;
    rewrite ?app_nil_r, ?Eq, ?ops_of_app, ?held_signal, ?is_stopping_signal; try done.
  - change (thread_ok tidy (mk_thread p (signal_call sig)) = true). rewrite (thread_ok_call tidy p _ c); [done|].
    destruct Ht as [[-> ->]|(-> & Hu & _)]; by destruct p.
  - destruct Ht as [[-> ->]|(-> & Hu & Hl)].
    + rewrite held_posting, <-app_assoc. apply (Permutation_app_swap_app _ [o]).
    + rewrite Hl. by rewrite <-Permutation_middle.
  - rewrite Ew, length_app. simpl. destruct Ht as [[-> ->]|(-> & Hu & Hl)].
    + rewrite held_posting, length_app in Hwk. simpl in Hwk. lia.
    + apply Permutation_length in Hl. simpl in Hl. lia.
  - by left.
  - rewrite Es. intros [|]; [by left|done].
Qed.

Lemma broadcast_held t : held (broadcast t) = held t.
Proof. by destruct t as [[] ?]. Qed.
Lemma broadcast_work l : work (map broadcast l) = work l.
Proof. induction l as [|[p c] l IH]; [done|]. simpl map. rewrite !work_cons, IH. by destruct p. Qed.
Lemma broadcast_count f l : (∀ t, f (broadcast t) = f t) → count f (map broadcast l) = count f l.
Proof. intros Hf. induction l as [|t l IH]; [done|]. simpl map. by rewrite !count_cons, IH, Hf. Qed.

Lemma stop_same s : let s' := stop_all_threads s in
  op_queue_ s' = op_queue_ s ∧ one_thread_ s' = one_thread_ s ∧ task_ s' = task_ s ∧
  outstanding_work_ s' = outstanding_work_ s ∧ stopped_ s' = true.
Proof. unfold stop_all_threads, interrupt_task. simpl. by destruct (_ && _). Qed.

Lemma stop_base tidy st :
  base_inv tidy st → stop_called st = true ∨ guards st = 0%nat → base_inv tidy (stop_now st).
Proof.
  intros [Ht Hf Hg Hw Ho Hs] Hstop. destruct (stop_same (sched st)) as (Eq & Eo & _ & Ew & Es).
  split; simpl; rewrite ?Eq, ?Eo, ?Ew, ?Es, ?broadcast_work, ?broadcast_count; try done.
  - apply Forall_map. eapply Forall_impl; [exact Ht|]. intros [[] c]; try done.
  - by rewrite Hg, map_map, (map_ext (λ t, held (broadcast t)) held) by apply broadcast_held.
  - by intros [[] ?].
  - by intros [[] ?].
Qed.

(** A step of one thread that leaves the queue, the work and the stop flag alone. *)
Lemma local_base tidy st i t t' s :
  base_inv tidy st → threads st !! i = Some t → thread_ok tidy t' = true →
  same_work (sched st) s → held t' = held t → work_of t' = work_of t →
  (in_run t' = true → in_run t = true ∨ (one_thread_ (sched st) = true → count in_run (threads st) = 0%nat)) →
  is_stopping t' = false → base_inv tidy (update st s i t').
Proof.
  intros Hb Hi Hok (Eq & Eo & _ & Ew & Es) Hh Hw Hrun Hns.
  eapply (base_update tidy st _ i t t' [] [] []); simpl; rewrite ?app_nil_r, ?Eq, ?Hh, ?Hns; try done.
  - lia.
  - rewrite Es. intros [|]; [by left|done].
Qed.

Lemma same_work_refl s : same_work s s.
Proof. done. Qed.

Lemma head_base tidy st i s t :
  base_inv tidy st → threads st !! i = Some (mk_thread at_head None) → do_run_one (sched st) = (s, t) →
  base_inv tidy (log_begun (update st s i t) t).
Proof.
  intros Hb Hi Hd. unfold do_run_one in Hd.
  assert (same_work (sched st) s → held t = [] → work_of t = 0 → thread_ok tidy t = true →
    is_stopping t = false → log_begun (update st s i t) t = update st s i t →
    base_inv tidy (log_begun (update st s i t) t)) as Hlocal.
  { intros Hsame Hh Hw Hok Hns ->. by eapply local_base; eauto. }
  destruct (stopped_ (sched st)) eqn:Est.
  { injection Hd as <- <-. apply Hlocal; try done. unfold log_begun. simpl. by rewrite app_nil_r. }
  destruct (op_queue_ (sched st)) as [|[|o] q] eqn:Eq.
  - injection Hd as <- <-. apply Hlocal; try done. unfold log_begun. simpl. by rewrite app_nil_r.
  - set (s0 := set_interrupts _ _ _) in Hd.
    destruct (if _ && _ then unlock_and_signal_one s0 else (s0, false)) as [s1 sig] eqn:Es.
    injection Hd as <- <-.
    assert (same_work s0 s1) as (Eq1 & Eo1 & _ & Ew1 & Es1) by (destruct (_ && _); by injection Es as <- _).
    eapply (base_update tidy st _ i (mk_thread at_head None) _ [] [] []); simpl;
      rewrite ?app_nil_r, ?held_signal, ?is_stopping_signal, ?Eq, ?Eq1, ?Es1; try done.
    + unfold work_of. simpl. rewrite held_signal, Ew1. subst s0. simpl. lia.
    + simpl. by left.
    + intros [|]; [by left|done].
  - set (s0 := set_queue _ _) in Hd.
    destruct (if _ && _ then wake_one_thread_and_unlock s0 else (s0, false)) as [s1 sig] eqn:Es.
    injection Hd as <- <-.
    assert (same_work s0 s1) as (Eq1 & Eo1 & _ & Ew1 & Es1).
    { destruct (_ && _); [by eapply wake_same|by injection Es as <- _]. }
    eapply (base_update tidy st _ i (mk_thread at_head None) _ [] [o] []); simpl;
      rewrite ?app_nil_r, ?held_signal, ?is_stopping_signal, ?Eq, ?Eq1, ?Es1; try done.
    + unfold work_of. simpl. rewrite held_signal, Ew1. subst s0. simpl. lia.
    + by left.
    + intros [|]; [by left|done].
Qed.

Lemma thread_ok_lookup tidy st i t : base_inv tidy st → threads st !! i = Some t → thread_ok tidy t = true.
Proof. intros Hb Hi. pose proof (bi_threads _ _ Hb) as Hok. by eapply (Forall_lookup_1 _ _ _ _ Hok Hi). Qed.

(** A pending call ends. *)
Lemma call_done_base tidy st i p c s :
  base_inv tidy st → threads st !! i = Some (mk_thread p (Some c)) → c = signal_one ∨ c = stopping →
  same_work (sched st) s → base_inv tidy (update st s i (mk_thread p None)).
Proof.
  intros Hb Hi Hc Hs. pose proof (thread_ok_lookup _ _ _ _ Hb Hi) as Hok. eapply local_base; try done.
  - by destruct p.
  - unfold held. by destruct Hc as [->| ->].
  - unfold work_of, held. by destruct Hc as [->| ->].
  - by left.
Qed.

Lemma wake_up_same s s' p : wake_up s = (s', p) → same_work s s' ∧ (p = at_head ∨ p = sleeping).
Proof. unfold wake_up. destruct (posix_event.signalled _); intros [= <- <-]; split; [done|auto|done|auto]. Qed.

Lemma work_nonneg tidy l : Forall (λ t, thread_ok tidy t = true) l → 0 ≤ work l.
Proof.
  induction 1 as [|[p c] l Ht _ IH]; [done|]. rewrite work_cons. unfold work_of, held. simpl.
  destruct p; simpl in *; rewrite ?length_app; try lia. apply Nat.leb_le in Ht. lia.
Qed.

Lemma complete_base tidy st i o pq pw thrown s stop :
  base_inv tidy st → threads st !! i = Some (mk_thread (running o pq pw) None) →
  (tidy = true → thrown = true → pq = []) → work_cleanup (sched st) pw = (s, stop) →
  base_inv tidy (update st s i (mk_thread (cleaned pq thrown) (if stop then Some stopping else None))).
Proof.
  intros Hb Hi Htd Hc.
  pose proof (thread_ok_lookup _ _ _ _ Hb Hi) as Hok. simpl in Hok. apply Nat.leb_le in Hok.
  assert (op_queue_ s = op_queue_ (sched st) ∧ one_thread_ s = one_thread_ (sched st) ∧ stopped_ s = stopped_ (sched st) ∧
    outstanding_work_ s = outstanding_work_ (sched st) + Z.of_nat pw - 1 ∧
    (stop = true → outstanding_work_ s = 0)) as (Eq & Eo & Es & Ew & Hstop).
  { unfold work_cleanup in Hc. destruct (Nat.ltb_spec 1 pw); [injection Hc as <- <-; simpl; split_and!; try done; lia|].
    destruct (Nat.ltb_spec pw 1); injection Hc as <- <-; simpl; split_and!; try done; try lia. }
  assert (work_of (mk_thread (cleaned pq thrown) (if stop then Some stopping else None)) =
    work_of (mk_thread (running o pq pw) None) + Z.of_nat pw - 1) as Hwk.
  { unfold work_of. rewrite held_stopping. unfold held. simpl. lia. }
  assert (0 ≤ work (threads st) - work_of (mk_thread (running o pq pw) None)) as Hrest.
  { destruct (update_split _ _ _ (mk_thread (running o pq pw) None) Hi) as (l1 & l2 & E & _).
    pose proof (bi_threads _ _ Hb) as Hall. rewrite E in Hall |- *. rewrite work_app, work_cons.
    apply Forall_app in Hall as [H1 H2]. apply Forall_cons in H2 as [_ H2].
    pose proof (work_nonneg _ _ H1). pose proof (work_nonneg _ _ H2). lia. }
  eapply (base_update tidy st _ i (mk_thread (running o pq pw) None) _ [] [] []); simpl;
    rewrite ?app_nil_r, ?Eq; try done.
  - destruct tidy, thrown; simpl; try done. by rewrite bool_decide_true by auto.
  - by rewrite held_stopping.
  - rewrite Hwk. lia.
  - by left.
  - rewrite Es. destruct stop; [|intros [|]; [by left|done]]. intros _. right. right.
    pose proof (bi_work _ _ Hb) as Hbw. specialize (Hstop eq_refl).
    assert (work_of (mk_thread (running o pq pw) None) = Z.of_nat (length pq) + 1 - Z.of_nat pw) as Hone.
    { unfold work_of, held. simpl. rewrite app_nil_r. lia. }
    lia.
Qed.

Lemma internal_base tidy st st' : base_inv tidy st → sched_internal tidy st st' → base_inv tidy st'.
Proof.
  intros Hb Hst. destruct Hst as [i p o s sig Hi Hp|i p j c Hi Hj|i p Hi _|i p Hi|i s t Hi Hd|i s p Hi Hw
    |i o pq pw thrown s stop Hi Htd Hc|i pq thrown Hi|i more Hi Hmore|i pq Hi].
  - apply (push_base tidy st i p _ s sig o (io st) Hb Hi Hp). by left.
  - assert (base_inv tidy (update st (sched st) i (mk_thread p None))) as Hb1
      by (eapply call_done_base; eauto using same_work_refl).
    destruct (decide (j = i)) as [->|Hne].
    { pose proof (thread_ok_lookup _ _ _ _ Hb Hi) as Hok. rewrite Hj in Hi. by simplify_eq. }
    assert (threads (update st (sched st) i (mk_thread p None)) !! j = Some (mk_thread sleeping c)) as Hj'
      by (simpl; by rewrite list_lookup_insert_ne).
    pose proof (thread_ok_lookup _ _ _ _ Hb Hj) as Hok. destruct c; [done|].
    eapply (local_base tidy _ j); try done. by left.
  - eapply call_done_base; eauto using same_work_refl.
  - apply stop_base; [eapply call_done_base; eauto using same_work_refl|]. simpl.
    apply (bi_stop _ _ Hb). right. by eapply count_lookup.
  - by eapply head_base.
  - apply wake_up_same in Hw as [Hs Hp]. eapply local_base; try done; destruct Hp as [->| ->]; try done; by left.
  - by eapply complete_base.
  - eapply (base_update tidy st _ i _ _ pq [] []); simpl; rewrite ?app_nil_r, ?ops_of_app, ?ops_of_operations; try done.
    + by destruct thrown.
    + unfold held. simpl. destruct thrown; simpl; by rewrite app_nil_r.
    + unfold work_of, held. rewrite length_app. destruct thrown; simpl; rewrite app_nil_r; lia.
    + by left.
    + intros [|]; [by left|done].
  - eapply local_base; try done. by left.
  - eapply (base_update tidy st _ i _ _ pq [] []); simpl; rewrite ?app_nil_r, ?ops_of_app, ?ops_of_operations; try done.
    + by rewrite app_nil_r.
    + unfold held. simpl. by rewrite !app_nil_r.
    + unfold work_of, held. simpl. rewrite !length_app. simpl. lia.
    + by left.
    + intros [|]; [by left|done].
Qed.

Lemma post_base tidy st i t o c :
  base_inv tidy st → threads st !! i = Some t → user_code t = true → base_inv tidy (post st i t o c).
Proof.
  intros Hb Hi Hu. pose proof (thread_ok_lookup _ _ _ _ Hb Hi) as Hok.
  assert (∀ p, th_pc t = p → t = mk_thread p None → match p with outside | running _ _ _ => True | _ => False end →
    base_inv tidy (log_given (update st (add_work (sched st) 1) i (mk_thread p (Some (posting o)))) o)) as Hpost.
  { intros p _ -> Hp. eapply (base_update tidy st _ i _ _ [] [] [o]); simpl; rewrite ?app_nil_r; try done.
    - destruct p; try done.
    - rewrite held_posting, <-app_assoc. by apply Permutation_cons_append_swap.
    - pose proof (work_of_held p (Some (posting o)) None) as Hw. rewrite held_posting, length_app in Hw. simpl in Hw. lia.
    - by left.
    - intros [|]; [by left|done]. }
  unfold post. apply user_code_inv in Hu as [->|(o' & pq & pw & ->)]; simpl.
  - by apply Hpost.
  - destruct (_ || _); [|by apply Hpost].
    eapply (base_update tidy st _ i _ _ [] [] [o]); simpl; rewrite ?app_nil_r; try done.
    + simpl in Hok. apply Nat.leb_le in Hok. apply Nat.leb_le. rewrite length_app. simpl. lia.
    + unfold held. simpl. rewrite !app_nil_r, <-app_assoc. by apply Permutation_cons_append_swap.
    + unfold work_of, held. simpl. rewrite !app_nil_r, length_app. simpl. lia.
    + by left.
    + intros [|]; [by left|done].
Qed.

Lemma init_same s s' sig :
  init_task s = (s', sig) →
  one_thread_ s' = one_thread_ s ∧ outstanding_work_ s' = outstanding_work_ s ∧ stopped_ s' = stopped_ s ∧
  task_ s' = true ∧ (op_queue_ s' = if task_ s then op_queue_ s else op_queue_ s ++ [task_operation_]).
Proof.
  unfold init_task. destruct (task_ s) eqn:Et; [by intros [= <- _]|].
  intros Hw%wake_same. destruct Hw as (-> & -> & -> & -> & ->). done.
Qed.

Lemma deferred_base tidy st i t o l :
  base_inv tidy st → threads st !! i = Some t → user_code t = true → io st ≡ₚ o :: l →
  base_inv tidy (set_io (post_deferred st i t o) l).
Proof.
  intros Hb Hi Hu Hl. pose proof (thread_ok_lookup _ _ _ _ Hb Hi) as Hok. unfold post_deferred.
  destruct (push_and_wake (sched st) o) as [s sig] eqn:Ep.
  assert (base_inv tidy (set_io (log_pushed (update st s i (mk_thread (th_pc t) (signal_call sig))) [o]) l)) as Hpush.
  { destruct t as [p c]. destruct c; [by destruct p|].
    eapply push_base; [done..|right; by split_and!]. }
  apply user_code_inv in Hu as [->|(o' & pq & pw & ->)]; simpl; [done|].
  destruct (one_thread_ (sched st)); [|done].
  eapply (base_update tidy st _ i _ _ [] [] []); simpl; rewrite ?app_nil_r; try done.
  - simpl in Hok. apply Nat.leb_le in Hok. apply Nat.leb_le. rewrite length_app. simpl. lia.
  - unfold held. simpl. by rewrite !app_nil_r, <-app_assoc, Hl.
  - apply Permutation_length in Hl. simpl in Hl. unfold work_of, held. simpl.
    rewrite !app_nil_r, length_app. simpl. lia.
  - by left.
  - intros [|]; [by left|done].
Qed.

Lemma work_guards tidy st : base_inv tidy st → Z.of_nat (guards st) ≤ outstanding_work_ (sched st).
Proof. intros Hb. rewrite (bi_work _ _ Hb). pose proof (work_nonneg _ _ (bi_threads _ _ Hb)). lia. Qed.

Lemma step_base tidy st st' : base_inv tidy st → sched_step tidy st st' → base_inv tidy st'.
Proof.
  intros Hb Hst. destruct Hst as [i t o c Hi Hu|i t o Hi Hu|i t o l Hi Hu Hl|i t s sig Hi Hu Hit|i t Hi Hu
    |i t n Hi Hu Hg|i Hi Hone|i c Hi|i more l l' b Hi Hl _|st' Hst].
  - by apply post_base.
  - pose proof (thread_ok_lookup _ _ _ _ Hb Hi) as Hok.
    eapply (base_update tidy st _ i t t [] [] [o]); simpl; rewrite ?app_nil_r; try done.
    + rewrite (app_assoc (held t)). apply Permutation_cons_append.
    + rewrite length_app. simpl. lia.
    + by left.
    + intros [|]; [by left|]. auto.
  - by apply deferred_base.
  - pose proof (thread_ok_lookup _ _ _ _ Hb Hi) as Hok. apply init_same in Hit as (Eo & Ew & Es & _ & Eq).
    assert (ops_of (op_queue_ s) = ops_of (op_queue_ (sched st))) as Hq.
    { rewrite Eq. destruct (task_ (sched st)); [done|]. by rewrite ops_of_app, app_nil_r. }
    destruct t as [p c]. destruct c as [?|]; [by destruct p|].
    pose proof (work_of_held p (signal_call sig) None) as Hwk. rewrite held_signal in Hwk.
    eapply (base_update tidy st _ i (mk_thread p None) (mk_thread p (signal_call sig)) [] [] []); simpl;
      rewrite ?app_nil_r, ?Hq, ?held_signal, ?is_stopping_signal; try done.
    + by destruct p.
    + lia.
    + by left.
    + rewrite Es. intros [|]; [by left|done].
  - apply stop_base; [|by left]. destruct Hb as [H1 H2 H3 H4 H5 H6]. split; simpl; try done. by left.
  - pose proof (work_guards _ _ Hb) as Hwg. destruct t as [p c]. destruct c as [?|]; [by destruct p|].
    pose proof (thread_ok_lookup _ _ _ _ Hb Hi) as Hok.
    pose proof (work_of_held p (if outstanding_work_ (sched st) - 1 =? 0 then Some stopping else None) None) as Hwk.
    rewrite held_stopping in Hwk.
    eapply (base_update tidy st _ i (mk_thread p None) (mk_thread p _) [] [] []); simpl;
      rewrite ?app_nil_r, ?held_stopping; try done.
    + by destruct p.
    + simpl. lia.
    + by left.
    + destruct (Z.eqb_spec (outstanding_work_ (sched st) - 1) 0); [|intros [|]; [by left|done]].
      intros _. right. right. lia.
    + lia.
  - pose proof (work_guards _ _ Hb) as Hwg. destruct (Z.eqb_spec (outstanding_work_ (sched st)) 0).
    + eapply (base_update tidy st _ i _ _ [] [] []); simpl; rewrite ?app_nil_r; try done.
      * unfold work_of, held. simpl. lia.
      * intros _. right. right. lia.
    + eapply local_base; try done. right. intros E. apply count_none. by apply Hone.
  - pose proof (thread_ok_lookup _ _ _ _ Hb Hi) as Hok. destruct c; [done|].
    eapply local_base; try done. by left.
  - eapply (base_update tidy st _ i _ _ [] [] []); simpl; rewrite ?app_nil_r; try done.
    + unfold held. simpl. by rewrite app_nil_r.
    + apply Permutation_length in Hl. rewrite length_app in Hl. unfold work_of, held. simpl. rewrite app_nil_r. lia.
    + by left.
    + intros [|]; [by left|done].
  - by eapply internal_base.
Qed.

Lemma reachable_base tidy n one st : sched_reachable tidy n one st → base_inv tidy st.
Proof.
  induction 1 as [|st st' _ IH Hst]; [|by eapply step_base].
  assert (∀ f : thread → bool, f (mk_thread outside None) = false → count f (replicate n (mk_thread outside None)) = 0%nat) as Hc.
  { intros f Hf. apply count_none, Forall_replicate. done. }
  split; simpl.
  - by apply Forall_replicate.
  - done.
  - rewrite app_nil_r. clear Hc. by induction n as [|n IH]; [|simpl].
  - clear Hc. induction n as [|n IH]; [done|]. simpl replicate. by rewrite work_cons.
  - rewrite Hc by done. lia.
  - rewrite Hc by done. intros [|]; [done|lia].
Qed.

(** The operations that threads run, and the work that these threads have not counted yet
    ([private_outstanding_work]). *)
Definition running_ops (l : list thread) : list op :=
  omap (λ t, match th_pc t with running o _ _ => Some o | _ => None end) l.
Definition private_counts (l : list thread) : nat :=
  sum_list_with (λ t, match th_pc t with running _ _ pw => pw | _ => 0%nat end) l.

Lemma work_split l :
  work l + Z.of_nat (private_counts l) = Z.of_nat (length (concat (map held l)) + length (running_ops l)).
Proof.
  induction l as [|t l IH]; [done|]. rewrite work_cons. unfold private_counts, running_ops in *.
  cbn [map concat sum_list_with omap list_omap]. rewrite length_app.
  unfold work_of. destruct (th_pc t); cbn [length]; lia.
Qed.

(** C23: the scheduler accounts for every operation: at every moment, for all interleavings,
    operations are started in the order in which they were pushed on the queue; those handed
    over are those started, queued, held by a thread, or waited for by the reactor, each once;
    the work count together with the private counts of the running threads, which they add when
    their function is done, is the number of guards and of operations not yet completed: waited
    for, queued, held and running; and the scheduler stops, or is about to, only after a call of
    [stop] or without any guard. *)
Theorem scheduler_accounts tidy n one st :
  sched_reachable tidy n one st →
  pushed st = begun st ++ ops_of (op_queue_ (sched st)) ∧
  given st ≡ₚ begun st ++ ops_of (op_queue_ (sched st)) ++ concat (map held (threads st)) ++ io st ∧
  outstanding_work_ (sched st) + Z.of_nat (private_counts (threads st)) =
    Z.of_nat (guards st + length (io st) + length (ops_of (op_queue_ (sched st))) +
      length (concat (map held (threads st))) + length (running_ops (threads st))) ∧
  (stopped_ (sched st) = true ∨ (0 < count is_stopping (threads st))%nat →
   stop_called st = true ∨ guards st = 0%nat).
Proof.
  intros [_ Hf Hg Hw _ Hs]%reachable_base. split; [done|]. split; [by rewrite Hg, Hf, <-app_assoc|].
  split; [|done]. pose proof (work_split (threads st)). lia.
Qed.

(** One more step of a run, whose state is computed. *)
Ltac sched_advance H tac := eapply sched_next in H; [|tac; reflexivity]; vm_compute in H.
Ltac sched_inside H tac := sched_advance H ltac:(apply step_inside; tac).

(** A thread in [run] and a function posted by another one. *)
Module sample_scheduler.
Definition at_work : thread := mk_thread at_head None.
Definition st1 : system :=
  mk_system (mk_scheduler false [] false true false 2 false 0)
    [at_work; mk_thread outside (Some (posting 7%positive))] [] 1 [7%positive] [] [] false.
Definition st2 : system :=
  mk_system (mk_scheduler false [] false true false 1 false 2)
    [mk_thread sleeping None; mk_thread outside None] [] 1 [7%positive] [7%positive] [7%positive] false.

Lemma sched_reach1 : sched_reachable true 2 false st1.
Proof.
  pose proof (sched_new true 2 false) as H.
  sched_advance H ltac:(eapply (user_run _ _ 0%nat); [|by intros]).
  sched_advance H ltac:(eapply (user_post _ _ 1%nat _ 7%positive false)). exact H.
Qed.

(** The thread runs the function, which posts a continuation: two operations are not completed
    and one of them is counted by the thread alone. *)
Definition st3 : system :=
  mk_system (mk_scheduler false [] false true false 2 false 1)
    [mk_thread (running 7%positive [8%positive] 1) None; mk_thread outside None] [] 1
    [7%positive; 8%positive] [7%positive] [7%positive] false.

Lemma sched_reach3 : sched_reachable true 2 false st3.
Proof.
  pose proof sched_reach1 as H.
  sched_inside H ltac:(eapply (do_post _ _ 1%nat)).
  sched_inside H ltac:(eapply (do_head _ _ 0%nat)).
  sched_advance H ltac:(eapply (user_post _ _ 0%nat _ 8%positive true)). exact H.
Qed.

Lemma scheduler_accounts_witness :
  sched_reachable true 2 false st3 ∧ outstanding_work_ (sched st3) = 2 ∧
  outstanding_work_ (sched st3) + Z.of_nat (private_counts (threads st3)) =
    Z.of_nat (guards st3 + length (io st3) + length (ops_of (op_queue_ (sched st3))) +
      length (concat (map held (threads st3))) + length (running_ops (threads st3))).
Proof.
  split; [exact sched_reach3|]. split; [done|]. apply (scheduler_accounts true 2 false st3 sched_reach3).
Defined.

End sample_scheduler.
