(* ===== verification/SchedulerWake.v ===== *)
(** The scheduler does not sleep on work, continued from [Scheduler].

    The invariant that pairs the queue with the event, the sleeping threads and the reactor, a
    measure for the steps that need nothing from outside, and the theorems that follow. *)

From S2P Require Import Prelude OpQueue Scheduler.
From stdpp Require Import relations.

Open Scope Z_scope.

(** ** Nobody sleeps on work *)

Definition is_sleeping (t : thread) : bool := match th_pc t with sleeping => true | _ => false end.
Definition is_woken (t : thread) : bool := match th_pc t with woken => true | _ => false end.
(** The thread will come to the head of its loop whatever happens. *)
Definition is_heading (t : thread) : bool :=
  match th_pc t with at_head | cleaned _ false | task_done _ | in_task true => true | _ => false end.
(** The thread waits in the reactor. *)
Definition is_idle (t : thread) : bool := match th_pc t with in_task false => true | _ => false end.
Definition is_task (t : thread) : bool := match th_pc t with in_task _ | task_done _ => true | _ => false end.
Definition is_signalling (t : thread) : bool := match th_call t with Some signal_one => true | _ => false end.

Definition task_items (q : list item) : nat :=
  length (filter (λ x, x = task_operation_) q).

(** Somebody will look at the queue: a thread on its way to the head of its loop; a signal that
    an awakened thread will see, or that a sleeping one will be awakened for; an interrupt
    of the reactor. The last case is that nobody waits at all. *)
Definition alert (s : scheduler) (l : list thread) : Prop :=
  (0 < count is_heading l)%nat ∨
  posix_event.signalled (state_ s) = true ∧
    (0 < count is_woken l ∨ 0 < count is_sleeping l ∧ 0 < count is_signalling l)%nat ∨
  (0 < count is_idle l)%nat ∧ interrupted s = true ∨
  (count is_sleeping l + count is_woken l + count is_idle l = 0)%nat.

Record wake_inv (st : system) : Prop := {
  wi_state : ∃ b, state_ (sched st) =
    2 * Z.of_nat (count is_sleeping (threads st) + count is_woken (threads st)) + Z.b2z b;
  wi_task : (count is_task (threads st) + task_items (op_queue_ (sched st)) =
    if task_ (sched st) then 1 else 0)%nat;
  wi_interrupt : (0 < count is_idle (threads st))%nat → task_interrupted_ (sched st) = true →
    interrupted (sched st) = true;
  wi_alert : stopped_ (sched st) = false → op_queue_ (sched st) ≠ [] → alert (sched st) (threads st);
}.

Lemma event_signal w b : 0 ≤ w → posix_event.set_signal (2 * w + Z.b2z b) = 2 * w + 1.
Proof. by destruct w as [|p|p], b; intros ?; try lia. Qed.
Lemma event_waiters w : posix_event.has_waiters (2 * w + 1) = (0 <? w).
Proof. unfold posix_event.has_waiters. destruct (Z.ltb_spec 0 w), (Z.ltb_spec 1 (2 * w + 1)); lia. Qed.
Lemma event_clear w b : 0 ≤ w → posix_event.clear (2 * w + Z.b2z b) = 2 * w + Z.b2z false.
Proof. by destruct w as [|p|p], b; intros ?; try lia. Qed.
Lemma event_signalled w b : 0 ≤ w → posix_event.signalled (2 * w + Z.b2z b) = b.
Proof. by destruct w as [|p|p], b; intros ?; try lia. Qed.

(** [wake_one_thread_and_unlock] alerts a waiter, or the thread in the reactor. *)
Lemma wake_alerts s s' sig w b (idle : nat) :
  wake_one_thread_and_unlock s = (s', sig) → state_ s = 2 * Z.of_nat w + Z.b2z b →
  ((0 < idle)%nat → task_ s = true) →
  ((0 < idle)%nat → task_interrupted_ s = true → interrupted s = true) →
  state_ s' = 2 * Z.of_nat w + Z.b2z true ∧ (if sig then 0 < w else w = 0)%nat ∧
  (sig = false → (0 < idle)%nat → interrupted s' = true) ∧
  ((0 < idle)%nat → task_interrupted_ s' = true → interrupted s' = true).
Proof.
  intros Hw Hs Ht Hi. unfold wake_one_thread_and_unlock in Hw. simpl in Hw.
  rewrite Hs, event_signal, event_waiters in Hw by lia.
  destruct (Z.ltb_spec 0 (Z.of_nat w)); injection Hw as <- <-.
  - simpl. split_and!; [done|lia|done|done].
  - unfold interrupt_task. simpl. destruct (negb (task_interrupted_ s) && task_ s) eqn:Eb; simpl.
    + split_and!; try done; lia.
    + split_and!; try done; [lia|]. intros _ Hidle. apply Hi; [done|].
      rewrite (Ht Hidle), andb_true_r in Eb. by apply negb_false_iff in Eb.
Qed.

Lemma count_update f l i t t' :
  l !! i = Some t →
  (count f (<[i := t']> l) + (if f t then 1 else 0) = count f l + (if f t' then 1 else 0))%nat.
Proof.
  intros Hi. destruct (update_split l i t t' Hi) as (l1 & l2 & -> & -> & _).
  rewrite !count_app, !count_cons. lia.
Qed.

(** The counts after one thread changed, as equations. *)
Ltac count_all Hi t' :=
  pose proof (count_update is_sleeping _ _ _ t' Hi);
  pose proof (count_update is_woken _ _ _ t' Hi);
  pose proof (count_update is_heading _ _ _ t' Hi);
  pose proof (count_update is_idle _ _ _ t' Hi);
  pose proof (count_update is_task _ _ _ t' Hi);
  pose proof (count_update is_signalling _ _ _ t' Hi).

Lemma idle_le_task l : (count is_idle l ≤ count is_task l)%nat.
Proof. induction l as [|[[] ?] l IH]; rewrite ?count_cons; simpl; try lia; destruct more_handlers; simpl; lia. Qed.

Lemma task_items_app q q' : task_items (q ++ q') = (task_items q + task_items q')%nat.
Proof. unfold task_items. by rewrite filter_app, length_app. Qed.
Lemma task_items_operations l : task_items (map operation l) = 0%nat.
Proof. induction l as [|o l IH]; [done|]. unfold task_items in *. simpl. by rewrite filter_cons_False. Qed.

(** A thread that wakes another one up: with the threads it leaves behind, the scheduler is
    alert whatever is in the queue. *)
Lemma wake_step_inv st st' i t p' s0 sig :
  wake_inv st → threads st !! i = Some t →
  threads st' = <[i := mk_thread p' (signal_call sig)]> (threads st) →
  wake_one_thread_and_unlock s0 = (sched st', sig) →
  state_ s0 = state_ (sched st) → task_interrupted_ s0 = task_interrupted_ (sched st) →
  interrupted s0 = interrupted (sched st) →
  is_signalling t = false → is_sleeping (mk_thread p' None) = is_sleeping t →
  is_woken (mk_thread p' None) = is_woken t → is_idle (mk_thread p' None) = is_idle t →
  is_task (mk_thread p' None) = is_task t →
  (task_ (sched st) = true → task_ s0 = true) →
  (count is_task (threads st) + task_items (op_queue_ s0) = if task_ s0 then 1 else 0)%nat →
  wake_inv st'.
Proof.
  intros [[b Hs] Ht Hi Ha] Hl El Hw Es Ei Er Hsig H1 H2 H3 H4 Htk Hti.
  pose proof (idle_le_task (threads st)) as Hle.
  assert ((0 < count is_idle (threads st))%nat → task_ s0 = true) as Htask.
  { intros Hidle. apply Htk. destruct (task_ (sched st)); [done|lia]. }
  destruct (wake_alerts s0 (sched st') sig (count is_sleeping (threads st) + count is_woken (threads st))%nat b (count is_idle (threads st)) Hw) as (Hs' & Hw' & Hint & Hint').
  { by rewrite Es. }
  { done. }
  { rewrite Ei, Er. done. }
  pose proof (wake_same _ _ _ Hw) as (Eq & _ & Et & _ & _).
  count_all Hl (mk_thread p' (signal_call sig)).
  assert (∀ c, is_sleeping (mk_thread p' c) = is_sleeping t ∧ is_woken (mk_thread p' c) = is_woken t ∧
    is_idle (mk_thread p' c) = is_idle t ∧ is_task (mk_thread p' c) = is_task t) as Hc by done.
  assert (is_signalling (mk_thread p' (signal_call sig)) = sig) as Hc5 by (by destruct sig).
  destruct (Hc (signal_call sig)) as (Hc1 & Hc2 & Hc3 & Hc4). rewrite Hc1, Hc2, Hc3, Hc4, Hc5, Hsig in *.
  split; rewrite El.
  - exists true. rewrite Hs'. lia.
  - rewrite Eq, Et. lia.
  - intros Hidle. apply Hint'. lia.
  - intros _ _. unfold alert. rewrite Hs', event_signalled by lia.
    destruct sig.
    + right. left. split; [done|]. lia.
    + right. right. destruct (decide (0 < count is_idle (threads st))%nat); [left|right; lia].
      split; [lia|]. by apply Hint.
Qed.

(** A step of one thread that leaves the queue and the flags alone and gives up nothing that
    others rely on. *)
Lemma local_wake st st' i t t' :
  wake_inv st → threads st !! i = Some t → threads st' = <[i := t']> (threads st) →
  op_queue_ (sched st') = op_queue_ (sched st) → state_ (sched st') = state_ (sched st) →
  task_ (sched st') = task_ (sched st) →
  task_interrupted_ (sched st') = task_interrupted_ (sched st) →
  interrupted (sched st') = interrupted (sched st) → stopped_ (sched st') = stopped_ (sched st) →
  is_sleeping t || is_woken t = is_sleeping t' || is_woken t' → is_task t' = is_task t →
  is_idle t' = is_idle t → (is_heading t = true → is_heading t' = true) →
  (is_woken t = true → is_woken t' = true) →
  (is_signalling t = true → is_signalling t' = true ∨ count is_sleeping (threads st) = 0%nat) →
  wake_inv st'.
Proof.
  intros [[b Hs] Ht Hi Ha] Hl El Eq Es Et Eti Ei Est H1 H2 H3 H4 H5 H6.
  count_all Hl t'. rewrite <-El in *.
  assert ((if is_sleeping t then 1 else 0) + (if is_woken t then 1 else 0) =
    (if is_sleeping t' then 1 else 0) + (if is_woken t' then 1 else 0))%nat as Hsw.
  { unfold is_sleeping, is_woken in *. destruct (th_pc t), (th_pc t'); simpl in *; done. }
  split.
  - exists b. rewrite Es, Hs. lia.
  - rewrite Eq, Et, H2 in *. lia.
  - rewrite Eti, Ei. intros Hidle. apply Hi. rewrite H3 in *. lia.
  - rewrite Est, Eq. intros Hst Hne. specialize (Ha Hst Hne). unfold alert in *. rewrite Es, Ei. rewrite H3 in *.
    destruct Ha as [Ha|[[Hsg Ha]|[[Ha Hint]|Ha]]].
    + left. destruct (is_heading t) eqn:Eh; [rewrite H4 in * by done|]; lia.
    + right. left. split; [done|].
      destruct (is_woken t) eqn:Ew; [pose proof (count_lookup is_woken _ _ _ Hl Ew); rewrite H5 in * by done; destruct (is_sleeping t), (is_sleeping t'); lia|].
      destruct (is_signalling t) eqn:Eg; [|destruct (is_signalling t'), (is_sleeping t), (is_sleeping t'), (is_woken t'); lia].
      destruct (H6 eq_refl) as [Hg|Hz]; [rewrite Hg in *|]; destruct (is_sleeping t), (is_sleeping t'), (is_woken t'); lia.
    + right. right. left. split; [lia|done].
    + right. right. right. destruct (is_sleeping t), (is_sleeping t'), (is_woken t), (is_woken t'); lia.
Qed.

(** A thread comes to the head of its loop or is on its way to it. *)
Lemma heading_wake st st' i t t' :
  wake_inv st → threads st !! i = Some t → threads st' = <[i := t']> (threads st) →
  is_heading t' = true →
  state_ (sched st') = state_ (sched st) - 2 * Z.b2z (is_sleeping t || is_woken t) →
  is_sleeping t' || is_woken t' = false →
  (count is_task (threads st) + (if is_task t' then 1 else 0) + task_items (op_queue_ (sched st')) =
   (if is_task t then 1 else 0) + if task_ (sched st') then 1 else 0)%nat →
  ((0 < count is_idle (threads st))%nat → (is_idle t = false) → task_interrupted_ (sched st') = true →
   interrupted (sched st') = true) →
  (count is_idle (threads st) ≤ 1)%nat →
  wake_inv st'.
Proof.
  intros [[b Hs] Ht Hi Ha] Hl El Hh Es Hno Htk Hint Hle.
  assert (0 < count is_heading (threads st'))%nat as Hpos.
  { apply (count_lookup is_heading _ i t'); [|done]. rewrite El.
    apply list_lookup_insert_eq. by eapply lookup_lt_Some. }
  count_all Hl t'. rewrite <-El, ?Hh in *.
  assert (is_idle t' = false) as Hid by (unfold is_idle, is_heading in *; by destruct (th_pc t') as [| | | |[]| | | |]).
  rewrite Hid in *. apply orb_false_iff in Hno as [Hn1 Hn2]. rewrite Hn1, Hn2 in *.
  assert (is_sleeping t && is_woken t = false) as Hex by (unfold is_sleeping, is_woken; by destruct (th_pc t)).
  split.
  - exists b. rewrite Es, Hs. destruct (is_sleeping t), (is_woken t); simpl in *; try done; lia.
  - lia.
  - intros Hidle Hti. apply Hint; [destruct (is_idle t); lia| |done]. destruct (is_idle t); [lia|done].
  - intros _ _. by left.
Qed.

Lemma waiting_in_run l :
  (count is_sleeping l + count is_woken l + count is_idle l + count is_heading l ≤ count in_run l)%nat.
Proof.
  induction l as [|[p c] l IH]; [done|]. rewrite !count_cons.
  destruct p as [| | |? []|[]| | | |]; cbn [is_sleeping is_woken is_idle is_heading in_run th_pc]; lia.
Qed.

Lemma task_item_head q : task_items (task_operation_ :: q) = S (task_items q).
Proof. done. Qed.
Lemma operation_item_head o q : task_items (operation o :: q) = task_items q.
Proof. done. Qed.

Lemma head_wake st i s t :
  base_inv true st → wake_inv st → threads st !! i = Some (mk_thread at_head None) →
  do_run_one (sched st) = (s, t) → wake_inv (log_begun (update st s i t) t).
Proof.
  intros Hb Hwi Hl Hd. pose proof Hwi as [[b Hs] Ht Hi Ha]. unfold do_run_one in Hd.
  pose proof (idle_le_task (threads st)) as Hle.
  destruct (stopped_ (sched st)) eqn:Est.
  { injection Hd as <- <-. count_all Hl (mk_thread (finished false) None). simpl in *.
    split; simpl; [exists b; rewrite Hs; lia|lia|intros ?; apply Hi; lia|congruence]. }
  destruct (op_queue_ (sched st)) as [|[|o] q] eqn:Eq.
  - injection Hd as <- <-. count_all Hl (mk_thread sleeping None). simpl in *.
    split; simpl; [|rewrite Eq; lia|intros ?; apply Hi; lia|by rewrite Eq].
    exists false. unfold posix_event.begin_wait. rewrite Hs, event_clear by lia. simpl. lia.
  - rewrite task_item_head in Ht. destruct (task_ (sched st)) eqn:Etk; [|lia].
    set (s0 := set_interrupts _ _ _) in Hd.
    destruct (if _ && _ then unlock_and_signal_one s0 else (s0, false)) as [s1 sig] eqn:Es.
    injection Hd as <- <-.
    assert (∃ b', state_ s1 = 2 * Z.of_nat (count is_sleeping (threads st) + count is_woken (threads st)) + Z.b2z b' ∧
      op_queue_ s1 = q ∧ task_ s1 = true ∧ task_interrupted_ s1 = negb (bool_decide (q = []))) as (b' & Hs1 & Eq1 & Et1 & Ei1).
    { destruct (_ && _); injection Es as <- _; simpl.
      - exists true. rewrite Hs, event_signal by lia. done.
      - exists b. done. }
    count_all Hl (mk_thread (in_task (negb (bool_decide (q = [])))) (signal_call sig)).
    destruct (decide (q = [])) as [E|E]; [rewrite bool_decide_true in * by done|rewrite bool_decide_false in * by done];
      simpl in *; split; simpl; rewrite ?Eq1, ?Et1, ?Ei1.
    + exists b'. rewrite Hs1. lia.
    + lia.
    + done.
    + done.
    + exists b'. rewrite Hs1. lia.
    + lia.
    + lia.
    + intros _ _. left. pose proof (count_lookup is_heading _ _ _ Hl eq_refl). lia.
  - rewrite operation_item_head in Ht. set (s0 := set_queue _ _) in Hd.
    destruct (negb (bool_decide (q = [])) && negb (one_thread_ s0)) eqn:Em.
    + destruct (wake_one_thread_and_unlock s0) as [s1 sig] eqn:Ew. injection Hd as <- <-.
      eapply (wake_step_inv st _ i _ (running o [] 0) s0 sig); simpl; try done; lia.
    + injection Hd as <- <-. count_all Hl (mk_thread (running o [] 0) None). simpl in *.
      split; simpl; [exists b; rewrite Hs; lia|lia|intros ?; apply Hi; lia|].
      intros _ Hne. right. right. right. rewrite bool_decide_false in Em by done. simpl in Em.
      apply negb_false_iff in Em. pose proof (bi_one _ _ Hb Em) as Hone.
      pose proof (waiting_in_run (threads st)). pose proof (count_lookup is_heading _ _ _ Hl eq_refl). simpl. lia.
Qed.

Lemma broadcast_counts l :
  count is_sleeping (map broadcast l) = 0%nat ∧
  count is_woken (map broadcast l) = (count is_sleeping l + count is_woken l)%nat ∧
  count is_task (map broadcast l) = count is_task l ∧ count is_idle (map broadcast l) = count is_idle l.
Proof.
  split_and!; [|..|by apply broadcast_count; intros [[] ?]|by apply broadcast_count; intros [[] ?]];
    induction l as [|[p c] l IH]; [done| |done|]; simpl map; rewrite !count_cons, IH; by destruct p; cbn; lia.
Qed.

Lemma stop_wake st : wake_inv st → wake_inv (stop_now st).
Proof.
  intros [[b Hs] Ht Hi Ha]. destruct (broadcast_counts (threads st)) as (H1 & H2 & H3 & H4).
  destruct (stop_same (sched st)) as (Eq & Eo & Et & Ew & Es).
  split; simpl; rewrite ?H1, ?H2, ?H3, ?H4, ?Eq, ?Et, ?Es; try done.
  - exists true. unfold stop_all_threads, interrupt_task. simpl. rewrite Hs, event_signal by lia.
    by destruct (_ && _).
  - intros Hidle. unfold stop_all_threads, interrupt_task. simpl.
    destruct (negb (task_interrupted_ (sched st)) && task_ (sched st)); [done|]. simpl. by apply Hi.
Qed.

(** There is one reactor, so nobody waits in it while another thread has it. *)
Lemma idle_other l i t :
  l !! i = Some t → is_task t = true → is_idle t = false → (count is_idle l + 1 ≤ count is_task l)%nat.
Proof.
  intros Hi Ht Hid. destruct (update_split l i t t Hi) as (l1 & l2 & -> & _).
  pose proof (idle_le_task l1). pose proof (idle_le_task l2). rewrite !count_app, !count_cons, Ht, Hid. lia.
Qed.

Lemma task_le_1 st : wake_inv st → (count is_task (threads st) ≤ 1)%nat.
Proof. intros [_ Ht _ _]. destruct (task_ (sched st)); lia. Qed.

Lemma push_wake st st' i p c o sig :
  wake_inv st → threads st !! i = Some (mk_thread p c) →
  threads st' = <[i := mk_thread p (signal_call sig)]> (threads st) →
  push_and_wake (sched st) o = (sched st', sig) → c ≠ Some signal_one → wake_inv st'.
Proof.
  intros Hwi Hl El Hp Hc. pose proof (wi_task _ Hwi) as Ht.
  eapply (wake_step_inv st st' i _ p _ sig Hwi Hl El Hp); simpl; try done.
  - unfold is_signalling. simpl. by destruct c as [[]|].
  - rewrite task_items_app. simpl. unfold task_items in *. simpl. lia.
Qed.

Lemma signal_wake st i p j c :
  base_inv true st → wake_inv st →
  threads st !! i = Some (mk_thread p (Some signal_one)) → threads st !! j = Some (mk_thread sleeping c) →
  wake_inv (update (update st (sched st) i (mk_thread p None)) (sched st) j (mk_thread woken c)).
Proof.
  intros Hb [[b Hs] Ht Hi Ha] Hl Hj.
  pose proof (thread_ok_lookup _ _ _ _ Hb Hj) as Hok. destruct c; [done|].
  destruct (decide (j = i)) as [->|Hne]; [by rewrite Hj in Hl|].
  assert (<[i := mk_thread p None]> (threads st) !! j = Some (mk_thread sleeping None)) as Hj'
    by (by rewrite list_lookup_insert_ne).
  count_all Hl (mk_thread p None). count_all Hj' (mk_thread woken None). simpl in *.
  assert (∀ c, is_sleeping (mk_thread p c) = is_sleeping (mk_thread p None) ∧ is_woken (mk_thread p c) = is_woken (mk_thread p None)
    ∧ is_heading (mk_thread p c) = is_heading (mk_thread p None) ∧ is_idle (mk_thread p c) = is_idle (mk_thread p None)
    ∧ is_task (mk_thread p c) = is_task (mk_thread p None)) as Hc by done.
  destruct (Hc (Some signal_one)) as (Hc1 & Hc2 & Hc3 & Hc4 & Hc5). rewrite Hc1, Hc2, Hc3, Hc4, Hc5 in *.
  split; simpl.
  - exists b. rewrite Hs. lia.
  - lia.
  - intros Hidle. apply Hi. lia.
  - intros Hst Hq. specialize (Ha Hst Hq). unfold alert in *. simpl.
    destruct Ha as [Ha|[[Hsg Ha]|[[Ha Hint]|Ha]]]; [left; lia|right; left; split; [done|lia]|right; right; left; split; [lia|done]|lia].
Qed.

Lemma wake_up_wake st i s p :
  wake_inv st → threads st !! i = Some (mk_thread woken None) → wake_up (sched st) = (s, p) →
  wake_inv (update st s i (mk_thread p None)).
Proof.
  intros Hwi Hl Hw. pose proof Hwi as [[b Hs] Ht Hi Ha]. unfold wake_up in Hw. simpl in Hw.
  pose proof (count_lookup is_woken _ _ _ Hl eq_refl) as Hpos.
  pose proof (task_le_1 st Hwi). pose proof (idle_le_task (threads st)).
  unfold posix_event.end_wait, posix_event.begin_wait in Hw.
  assert (state_ (sched st) - 2 =
    2 * Z.of_nat (count is_sleeping (threads st) + count is_woken (threads st) - 1) + Z.b2z b) as Hs2 by (rewrite Hs; lia).
  rewrite Hs2, event_signalled in Hw by lia. destruct b; injection Hw as <- <-.
  - simpl in Hs2. eapply (heading_wake st _ i _ _ Hwi Hl); simpl; try done; try (cbn; lia). intros Hidle _. by apply Hi.
  - assert (posix_event.signalled (state_ (sched st)) = false) as Hns by (rewrite Hs; apply event_signalled; lia).
    count_all Hl (mk_thread sleeping None). simpl in *. split; simpl.
    + exists false. simpl. lia.
    + lia.
    + intros Hidle. apply Hi. lia.
    + intros Hst Hq. specialize (Ha Hst Hq). unfold alert in *. simpl in *.
      rewrite Hns in Ha. destruct Ha as [Ha|[[Hsg Ha]|[[Ha Hint]|Ha]]]; [left; lia|done|right; right; left; split; [lia|done]|lia].
Qed.

Lemma work_cleanup_same s pw s' stop :
  work_cleanup s pw = (s', stop) →
  op_queue_ s' = op_queue_ s ∧ state_ s' = state_ s ∧ task_ s' = task_ s ∧
  task_interrupted_ s' = task_interrupted_ s ∧ interrupted s' = interrupted s ∧ stopped_ s' = stopped_ s.
Proof.
  unfold work_cleanup. destruct (1 <? pw)%nat; [by intros [= <- _]|].
  destruct (pw <? 1)%nat; by intros [= <- _].
Qed.

Lemma internal_wake st st' :
  base_inv true st → wake_inv st → sched_internal true st st' → wake_inv st'.
Proof.
  intros Hb Hwi Hst. pose proof (task_le_1 st Hwi) as Ht1. pose proof (idle_le_task (threads st)) as Hle.
  destruct Hst as [i p o s sig Hi Hp|i p j c Hi Hj|i p Hi Hno|i p Hi|i s t Hi Hd|i s p Hi Hw
    |i o pq pw thrown s stop Hi Htd Hc|i pq thrown Hi|i more Hi Hmore|i pq Hi].
  - by eapply (push_wake st).
  - by apply signal_wake.
  - eapply (local_wake st _ i _ (mk_thread p None) Hwi Hi); try done. intros _. right.
    apply count_none, (Forall_impl _ _ _ Hno). by intros [[] ?].
  - apply stop_wake. by eapply (local_wake st _ i _ (mk_thread p None) Hwi Hi).
  - by apply head_wake.
  - by apply wake_up_wake.
  - apply work_cleanup_same in Hc as (E1 & E2 & E3 & E4 & E5 & E6).
    by eapply (local_wake st _ i _ (mk_thread (cleaned pq thrown) _) Hwi Hi).
  - destruct thrown.
    + pose proof (thread_ok_lookup _ _ _ _ Hb Hi) as Hok. simpl in Hok. apply bool_decide_eq_true in Hok as ->.
      eapply (local_wake st _ i _ (mk_thread (finished true) None) Hwi Hi); simpl; try done. by rewrite app_nil_r.
    + pose proof (wi_task _ Hwi).
      eapply (heading_wake st _ i _ (mk_thread at_head None) Hwi Hi); simpl; try done; try (cbn; lia).
      * rewrite task_items_app, task_items_operations. lia.
      * intros Hidle _. by apply (wi_interrupt _ Hwi).
  - pose proof (wi_task _ Hwi).
    eapply (heading_wake st _ i _ (mk_thread (task_done []) None) Hwi Hi); simpl; try done; try (cbn; lia).
    intros Hidle Hne. pose proof (idle_other _ _ _ Hi eq_refl Hne). lia.
  - pose proof (wi_task _ Hwi). pose proof (idle_other _ _ _ Hi eq_refl eq_refl).
    eapply (heading_wake st _ i _ (mk_thread at_head None) Hwi Hi); simpl; try done; try (cbn; lia).
    rewrite !task_items_app, task_items_operations. unfold task_items at 2. simpl. lia.
Qed.

Lemma post_wake st i t o c :
  wake_inv st → threads st !! i = Some t → user_code t = true → wake_inv (post st i t o c).
Proof.
  intros Hwi Hi Hu. unfold post. apply user_code_inv in Hu as [->|(o' & pq & pw & ->)]; simpl.
  - by eapply (local_wake st _ i _ (mk_thread outside (Some (posting o))) Hwi Hi).
  - destruct (_ || _).
    + by eapply (local_wake st _ i _ (mk_thread (running o' (pq ++ [o]) (S pw)) None) Hwi Hi).
    + by eapply (local_wake st _ i _ (mk_thread (running o' pq pw) (Some (posting o))) Hwi Hi).
Qed.

Lemma deferred_wake st i t o l :
  wake_inv st → threads st !! i = Some t → user_code t = true → wake_inv (set_io (post_deferred st i t o) l).
Proof.
  intros Hwi Hi Hu. unfold post_deferred. destruct (push_and_wake (sched st) o) as [s sig] eqn:Ep.
  apply user_code_inv in Hu as [->|(o' & pq & pw & ->)]; simpl.
  - by eapply (push_wake st _ i outside None o sig Hwi Hi).
  - destruct (one_thread_ (sched st)).
    + by eapply (local_wake st _ i _ (mk_thread (running o' (pq ++ [o]) pw) None) Hwi Hi).
    + by eapply (push_wake st _ i (running o' pq pw) None o sig Hwi Hi).
Qed.

Lemma init_wake st i t s sig :
  wake_inv st → threads st !! i = Some t → user_code t = true → init_task (sched st) = (s, sig) →
  wake_inv (update st s i (mk_thread (th_pc t) (signal_call sig))).
Proof.
  intros Hwi Hi Hu Hin. pose proof (wi_task _ Hwi) as Ht. unfold init_task in Hin.
  destruct (task_ (sched st)) eqn:Et.
  - injection Hin as <- <-. apply user_code_inv in Hu as [->|(o' & pq & pw & ->)]; simpl;
      by eapply (local_wake st _ i _ _ Hwi Hi).
  - eapply (wake_step_inv st (update st s i (mk_thread (th_pc t) (signal_call sig))) i t (th_pc t) _ sig Hwi Hi eq_refl Hin); simpl; try done.
    + by apply user_code_inv in Hu as [->|(o' & pq & pw & ->)].
    + rewrite task_items_app. unfold task_items at 2. simpl. lia.
Qed.

Lemma step_wake st st' : base_inv true st → wake_inv st → sched_step true st st' → wake_inv st'.
Proof.
  intros Hb Hwi Hst. pose proof (task_le_1 st Hwi) as Ht1. pose proof (idle_le_task (threads st)) as Hle.
  pose proof (wi_task _ Hwi) as Ht.
  destruct Hst as [i t o c Hi Hu|i t o Hi Hu|i t o l Hi Hu Hl|i t s sig Hi Hu Hit|i t Hi Hu
    |i t n Hi Hu Hg|i Hi Hone|i c Hi|i more l l' b Hi Hl _|st' Hst].
  - by apply post_wake.
  - by eapply (local_wake st _ i t t Hwi Hi); auto.
  - by apply deferred_wake.
  - by apply init_wake.
  - apply stop_wake. by destruct Hwi.
  - apply user_code_inv in Hu as [->|(o' & pq & pw & ->)]; by eapply (local_wake st _ i _ (mk_thread _ _) Hwi Hi).
  - destruct (_ =? 0).
    + by eapply (local_wake st _ i _ (mk_thread (finished false) (Some stopping)) Hwi Hi).
    + eapply (heading_wake st _ i _ (mk_thread at_head None) Hwi Hi); simpl; try done; try (cbn; lia).
      intros Hidle _. by apply (wi_interrupt _ Hwi).
  - by eapply (local_wake st _ i _ (mk_thread woken c) Hwi Hi); auto.
  - eapply (heading_wake st _ i _ (mk_thread (task_done l) None) Hwi Hi); simpl; try done; try (cbn; lia).
    intros Hidle Hne. pose proof (idle_other _ _ _ Hi eq_refl Hne). lia.
  - by eapply internal_wake.
Qed.

Lemma reachable_wake n one st : sched_reachable true n one st → wake_inv st.
Proof.
  induction 1 as [|st st' Hr IH Hst]; [|eapply step_wake; eauto using reachable_base].
  assert (∀ f : thread → bool, f (mk_thread outside None) = false →
    count f (replicate n (mk_thread outside None)) = 0%nat) as Hc.
  { intros f Hf. by apply count_none, Forall_replicate. }
  split; simpl; rewrite ?Hc by done; try done. all: try lia. by exists false.
Qed.

(** ** The end of the work *)

(** Weights: with [n] threads, what a thread, an operation or a pending interrupt can still
    cause. An operation behind the reactor in the queue makes the reactor return once more. *)
Definition op_weight (n : nat) : nat := 2 * n + 10.
Definition weight (n : nat) (t : thread) : nat :=
  (op_weight n + 6) * length (held t) +
  match th_pc t with
  | at_head => 1 | running _ _ _ => 2 * n + 7 | cleaned _ _ => 2 | in_task true => 3
  | task_done _ => 2 | woken => 2 | _ => 0
  end +
  match th_call t with Some (posting _) => 4 | Some signal_one => 3 | Some stopping => 2 * n + 4 | None => 0 end.

Fixpoint behind (q : list item) : nat :=
  match q with
  | [] => 0
  | task_operation_ :: q' => length (ops_of q')
  | operation _ :: q' => behind q'
  end.

Definition sched_weight (n : nat) (s : scheduler) : nat :=
  op_weight n * length (ops_of (op_queue_ s)) + 6 * behind (op_queue_ s) + (if interrupted s then 3 else 0).
Definition measure (st : system) : nat :=
  let n := length (threads st) in sum_list_with (weight n) (threads st) + sched_weight n (sched st).

Lemma weight_update n l i t t' :
  l !! i = Some t →
  (sum_list_with (weight n) (<[i := t']> l) + weight n t = sum_list_with (weight n) l + weight n t')%nat.
Proof.
  intros Hi. destruct (update_split l i t t' Hi) as (l1 & l2 & -> & -> & _).
  rewrite !sum_list_with_app. simpl. lia.
Qed.

Lemma behind_app q l : (behind (q ++ l) ≤ behind q + length (ops_of l))%nat.
Proof.
  induction q as [|[|o] q IH]; simpl.
  - induction l as [|[|o] l IH]; simpl; lia.
  - rewrite ops_of_app, length_app. lia.
  - done.
Qed.

(** One thread changes: the measure decreases if its part does. *)
Lemma measure_update st st' i t t' :
  threads st !! i = Some t → threads st' = <[i := t']> (threads st) →
  (let n := length (threads st) in
   weight n t' + sched_weight n (sched st') < weight n t + sched_weight n (sched st))%nat →
  (measure st' < measure st)%nat.
Proof.
  intros Hi El Hlt. unfold measure. rewrite El, length_insert. cbn zeta in *.
  pose proof (weight_update (length (threads st)) _ _ _ t' Hi). lia.
Qed.

Lemma wake_weight n s s' sig :
  wake_one_thread_and_unlock s = (s', sig) →
  (sched_weight n s' + (if sig then 3 else 0) ≤ sched_weight n s + 3)%nat.
Proof.
  unfold wake_one_thread_and_unlock. destruct (posix_event.has_waiters _); intros [= <- <-]; unfold sched_weight.
  - done.
  - unfold interrupt_task. destruct (_ && _); simpl; [|lia]. destruct (interrupted s); lia.
Qed.

Lemma broadcast_weight n l :
  (sum_list_with (weight n) (map broadcast l) ≤ sum_list_with (weight n) l + 2 * length l)%nat.
Proof.
  induction l as [|[p c] l IH]; [done|]. simpl.
  assert (weight n (broadcast (mk_thread p c)) ≤ weight n (mk_thread p c) + 2)%nat
    by (destruct p; unfold weight, held; cbn -[op_weight Nat.mul]; lia). lia.
Qed.

Lemma head_measure st i s t :
  wake_inv st → threads st !! i = Some (mk_thread at_head None) → do_run_one (sched st) = (s, t) →
  (measure (log_begun (update st s i t) t) < measure st)%nat.
Proof.
  intros Hwi Hi Hd. pose proof (wi_task _ Hwi) as Ht.
  eapply (measure_update st _ i _ t Hi); [done|]. cbn zeta. set (n := length (threads st)). unfold do_run_one in Hd.
  simpl sched. destruct (stopped_ (sched st)); [injection Hd as <- <-; unfold weight; simpl; lia|].
  destruct (op_queue_ (sched st)) as [|[|o] q] eqn:Eq.
  - injection Hd as <- <-. unfold weight, sched_weight. simpl. rewrite Eq. lia.
  - rewrite task_item_head in Ht. set (s0 := set_interrupts _ _ _) in Hd.
    destruct (if _ && _ then unlock_and_signal_one s0 else (s0, false)) as [s1 sig] eqn:Es. injection Hd as <- <-.
    assert (sched_weight n s1 = sched_weight n s0) as -> by (destruct (_ && _); by injection Es as <- _).
    assert (task_items q = 0%nat) as Hq by (destruct (task_ (sched st)); lia).
    assert (behind q = 0%nat ∧ (q ≠ [] → 0 < length (ops_of q))%nat) as [Hb Hne].
    { clear -Hq. induction q as [|[|o] q IH]; [done|done|].
      rewrite operation_item_head in Hq. destruct (IH Hq). simpl. split; [done|lia]. }
    unfold sched_weight, weight. subst s0. simpl. rewrite Eq. simpl. rewrite Hb, held_signal. simpl.
    destruct (decide (q = [])) as [E|E]; [rewrite bool_decide_true by done|rewrite bool_decide_false by done]; simpl.
    + subst q. destruct sig; simpl; [|lia]. rewrite bool_decide_true in Es by done. done.
    + specialize (Hne E). destruct sig; simpl; lia.
  - set (s0 := set_queue _ _) in Hd.
    destruct (if _ && _ then wake_one_thread_and_unlock s0 else (s0, false)) as [s1 sig] eqn:Es. injection Hd as <- <-.
    assert (sched_weight n s1 + (if sig then 3 else 0) ≤ sched_weight n s0 + 3)%nat as Hle.
    { destruct (_ && _); [by eapply wake_weight|]. injection Es as <- <-. lia. }
    unfold weight. rewrite held_signal. subst s0. unfold sched_weight, op_weight in *. simpl in *. rewrite Eq. simpl.
    destruct sig; simpl in *; lia.
Qed.

Lemma stop_measure st i p :
  threads st !! i = Some (mk_thread p (Some stopping)) →
  (measure (stop_now (update st (sched st) i (mk_thread p None))) < measure st)%nat.
Proof.
  intros Hi. unfold measure. simpl. rewrite length_map, length_insert. set (n := length (threads st)).
  pose proof (broadcast_weight n (<[i := mk_thread p None]> (threads st))) as Hb. rewrite length_insert in Hb.
  pose proof (weight_update n _ _ _ (mk_thread p None) Hi) as Hw. fold n in Hb.
  assert (sched_weight n (stop_all_threads (sched st)) ≤ sched_weight n (sched st) + 3)%nat.
  { unfold sched_weight, stop_all_threads, interrupt_task. destruct (_ && _); simpl; destruct (interrupted (sched st)); lia. }
  assert (weight n (mk_thread p (Some stopping)) = weight n (mk_thread p None) + (2 * n + 4))%nat.
  { unfold weight, held. simpl. lia. }
  lia.
Qed.

Lemma signal_measure st i p j c :
  base_inv true st → threads st !! i = Some (mk_thread p (Some signal_one)) →
  threads st !! j = Some (mk_thread sleeping c) →
  (measure (update (update st (sched st) i (mk_thread p None)) (sched st) j (mk_thread woken c)) < measure st)%nat.
Proof.
  intros Hb Hi Hj. pose proof (thread_ok_lookup _ _ _ _ Hb Hj) as Hok. destruct c; [done|].
  destruct (decide (j = i)) as [->|Hne]; [by rewrite Hj in Hi|].
  assert (<[i := mk_thread p None]> (threads st) !! j = Some (mk_thread sleeping None)) as Hj'
    by (by rewrite list_lookup_insert_ne).
  unfold measure. simpl. rewrite !length_insert. set (n := length (threads st)).
  pose proof (weight_update n _ _ _ (mk_thread p None) Hi).
  pose proof (weight_update n _ _ _ (mk_thread woken None) Hj').
  assert (weight n (mk_thread p (Some signal_one)) = weight n (mk_thread p None) + 3)%nat.
  { unfold weight, held. simpl. lia. }
  unfold weight at 2 4 in H0. simpl in *. lia.
Qed.

Lemma internal_measure st st' :
  base_inv true st → wake_inv st → sched_internal true st st' → (measure st' < measure st)%nat.
Proof.
  intros Hb Hwi Hst. destruct Hst as [i p o s sig Hi Hp|i p j c Hi Hj|i p Hi Hno|i p Hi|i s t Hi Hd|i s p Hi Hw
    |i o pq pw thrown s stop Hi Htd Hc|i pq thrown Hi|i more Hi Hmore|i pq Hi].
  - eapply (measure_update st _ i _ _ Hi); [done|]. cbn zeta. set (n := length (threads st)).
    apply (wake_weight n) in Hp. unfold sched_weight in Hp at 2. simpl in Hp. rewrite ops_of_app, length_app in Hp.
    pose proof (behind_app (op_queue_ (sched st)) [operation o]) as Hbh. simpl in *.
    unfold weight. rewrite held_signal, held_posting, length_app. unfold sched_weight at 2. simpl in *.
    destruct sig; simpl in *; lia.
  - by apply signal_measure.
  - eapply (measure_update st _ i _ _ Hi); [done|]. cbn zeta. unfold weight, held. simpl. lia.
  - by apply stop_measure.
  - by apply head_measure.
  - eapply (measure_update st _ i _ _ Hi); [done|]. cbn zeta. unfold wake_up in Hw.
    destruct (posix_event.signalled _); injection Hw as <- <-; unfold weight, held, sched_weight; simpl; lia.
  - eapply (measure_update st _ i _ _ Hi); [done|]. cbn zeta. apply work_cleanup_same in Hc as (E1 & E2 & E3 & E4 & E5 & E6).
    unfold sched_weight, weight. simpl sched. rewrite E1, E5, held_stopping. unfold held. simpl. rewrite !app_nil_r.
    destruct stop; lia.
  - eapply (measure_update st _ i _ _ Hi); [done|]. cbn zeta. unfold sched_weight, weight, held. simpl.
    rewrite ops_of_app, ops_of_operations, !app_nil_r, length_app.
    pose proof (behind_app (op_queue_ (sched st)) (map operation pq)) as Hbh. rewrite ops_of_operations in Hbh.
    destruct thrown; simpl; nia.
  - eapply (measure_update st _ i _ _ Hi); [done|]. cbn zeta. unfold sched_weight, weight, held. simpl.
    destruct Hmore as [->| ->]; [destruct (interrupted (sched st))|destruct more]; simpl; lia.
  - eapply (measure_update st _ i _ _ Hi); [done|]. cbn zeta. unfold sched_weight, weight, held. simpl.
    pose proof (behind_app (op_queue_ (sched st)) (map operation pq ++ [task_operation_])) as Hbh.
    rewrite !ops_of_app, ops_of_operations, !app_nil_r, !length_app in *. simpl in *. nia.
Qed.

Lemma sched_internal_sn n one st : sched_reachable true n one st → sn (sched_internal true) st.
Proof.
  remember (measure st) as m eqn:Hm. revert st Hm. induction (lt_wf m) as [m _ IH]. intros st -> Hr.
  constructor. intros st' Hst. eapply IH; [|done|].
  - by apply internal_measure; [eapply reachable_base|eapply reachable_wake|].
  - eapply sched_next; [done|]. by apply step_inside.
Qed.

Lemma internal_closed tidy n one st st' :
  sched_reachable tidy n one st → rtc (sched_internal tidy) st st' → sched_reachable tidy n one st'.
Proof.
  intros Hr. induction 1 as [|st st1 st2 Hst _ IH]; [done|]. apply IH. eapply sched_next; [done|]. by apply step_inside.
Qed.

(** When no step is possible every thread sleeps, waits in the reactor, or is not in [run]. *)
Lemma nf_threads tidy st i t :
  base_inv tidy st → nf (sched_internal tidy) st → threads st !! i = Some t →
  th_call t = None ∧
  (th_pc t = outside ∨ th_pc t = sleeping ∨ (∃ b, th_pc t = finished b) ∨
   th_pc t = in_task false ∧ interrupted (sched st) = false).
Proof.
  intros Hb Hnf Hi. pose proof (thread_ok_lookup _ _ _ _ Hb Hi) as Hok. destruct t as [p c].
  assert (∀ st', ¬ sched_internal tidy st st') as Hno by (intros st' Hst; destruct Hnf; by exists st').
  assert (c = None) as ->.
  { destruct c as [[o| |]|]; [exfalso..|done].
    - destruct (push_and_wake (sched st) o) as [s sig] eqn:Ep. by eapply Hno, do_post.
    - destruct (count is_sleeping (threads st)) as [|k] eqn:Ek.
      + eapply Hno, (do_signal_nobody _ _ i); [done|]. apply Forall_lookup. intros j u Hj Hp.
        pose proof (count_zero is_sleeping _ _ _ Ek Hj) as Hz. unfold is_sleeping in Hz. by rewrite Hp in Hz.
      + destruct (count_positive is_sleeping (threads st)) as (j & [q d] & Hj & Hq); [lia|].
        unfold is_sleeping in Hq. simpl in Hq. destruct q; try done. by eapply Hno, do_signal.
    - by eapply Hno, do_stop. }
  split; [done|]. destruct p as [| |o pq pw|pq thrown|more|pq| | |b]; simpl; try (by eauto).
  - destruct (do_run_one (sched st)) as [s t] eqn:Ed. exfalso. by eapply Hno, do_head.
  - destruct (work_cleanup (sched st) pw) as [s stop] eqn:Ec. exfalso.
    by eapply Hno, (do_complete _ _ _ _ _ _ false).
  - exfalso. by eapply Hno, do_clean.
  - destruct more; [exfalso; by eapply Hno, do_task_return; auto|].
    destruct (interrupted (sched st)) eqn:Eint; [exfalso; by eapply Hno, do_task_return; auto|]. naive_solver.
  - exfalso. by eapply Hno, do_task_done.
  - destruct (wake_up (sched st)) as [s p] eqn:Ew. exfalso. by eapply Hno, do_wake.
Qed.

Lemma nf_count tidy st f :
  base_inv tidy st → nf (sched_internal tidy) st →
  (∀ b, f (mk_thread outside None) = false ∧ f (mk_thread sleeping None) = false ∧
    f (mk_thread (in_task false) None) = false ∧ f (mk_thread (finished b) None) = false) →
  count f (threads st) = 0%nat.
Proof.
  intros Hb Hnf Hf. apply count_none, Forall_lookup. intros i [p c] Hi.
  destruct (nf_threads tidy st i _ Hb Hnf Hi) as [Hc Hp]. simpl in *. subst c.
  destruct (Hf true) as (H1 & H2 & H3 & _).
  destruct Hp as [->|[->|[[b ->]|[-> _]]]]; [done|done|apply (Hf b)|done].
Qed.

(** When nothing moves and somebody is in [run], the queue is empty. *)
Lemma nf_queue st :
  base_inv true st → wake_inv st → nf (sched_internal true) st → stopped_ (sched st) = false →
  (0 < count in_run (threads st))%nat → op_queue_ (sched st) = [].
Proof.
  intros Hb Hwi Hnf Hst Hrun. destruct (decide (op_queue_ (sched st) = [])) as [|Hne]; [done|]. exfalso.
  pose proof (wi_alert _ Hwi Hst Hne) as Ha. unfold alert in Ha.
  rewrite (nf_count true st is_heading), (nf_count true st is_woken), (nf_count true st is_signalling) in Ha by done.
  destruct Ha as [?|[[_ ?]|[[Hidle Hint]|Hz]]]; [lia|lia|..].
  - destruct (count_positive _ _ Hidle) as (i & t & Hi & Ht).
    destruct (nf_threads true st i t Hb Hnf Hi) as [_ Hp]. unfold is_idle in Ht.
    destruct Hp as [E|[E|[[b E]|[_ E]]]]; [by rewrite E in Ht..|congruence].
  - destruct (count_positive _ _ Hrun) as (i & t & Hi & Ht).
    destruct (nf_threads true st i t Hb Hnf Hi) as [_ Hp]. unfold in_run in Ht.
    destruct Hp as [E|[E|[[b E]|[E _]]]].
    + by rewrite E in Ht.
    + assert (is_sleeping t = true) as Hs by (unfold is_sleeping; by rewrite E).
      pose proof (count_lookup _ _ _ _ Hi Hs). lia.
    + by rewrite E in Ht.
    + assert (is_idle t = true) as Hs by (unfold is_idle; by rewrite E).
      pose proof (count_lookup _ _ _ _ Hi Hs). lia.
Qed.

(** ** Theorems *)

(** C7: nobody sleeps on work: the steps that follow the calls of the user and the events of
    the reactor come to an end in whatever order they happen; and unless the scheduler was
    stopped, if a thread is left in [run] then, every operation handed over was started,
    except those the reactor waits for. It is assumed that a function that throws did not
    hand over operations to the private queue of its thread. *)
Theorem scheduler_drains n one st :
  sched_reachable true n one st →
  sn (sched_internal true) st ∧
  (∀ st', rtc (sched_internal true) st st' → nf (sched_internal true) st' →
    stopped_ (sched st') = false → (0 < count in_run (threads st'))%nat →
    op_queue_ (sched st') = [] ∧ given st' ≡ₚ begun st' ++ io st').
Proof.
  intros Hr. split; [by eapply sched_internal_sn|]. intros st' Hrtc Hnf Hst Hrun.
  pose proof (internal_closed true n one st st' Hr Hrtc) as Hr'.
  pose proof (reachable_base _ _ _ _ Hr') as Hb. pose proof (reachable_wake _ _ _ Hr') as Hwi.
  pose proof (nf_queue st' Hb Hwi Hnf Hst Hrun) as Hq. split; [done|].
  rewrite (bi_given _ _ Hb), (bi_fifo _ _ Hb), Hq. simpl. rewrite app_nil_r. f_equiv.
  assert (concat (map held (threads st')) = []) as ->; [|done].
  apply concat_nil_Forall, Forall_map, Forall_lookup. intros i [p c] Hi.
  destruct (nf_threads true st' i _ Hb Hnf Hi) as [Hc Hp]. simpl in *. subst c.
  by destruct Hp as [->|[->|[[b ->]|[-> _]]]].
Qed.

(** C40: an exception puts a pool to sleep on work: whenever the queue is empty, a thread [i] runs
    a function that has continued with operations complete at once (which wait in the private
    queue of the thread), the other threads sleep or are not in [run], and the function throws,
    the operations are pushed on the queue and the thread leaves [run] with the exception,
    without waking anybody: the scheduler is not stopped, its queue is not empty, every thread
    that slept sleeps on, and no step of the scheduler is possible. *)
Theorem scheduler_loses_wakeup n one st i o pq pw :
  sched_reachable false n one st → stopped_ (sched st) = false → op_queue_ (sched st) = [] →
  threads st !! i = Some (mk_thread (running o pq pw) None) → (0 < pw)%nat →
  (∀ j t, j ≠ i → threads st !! j = Some t →
    th_call t = None ∧ (th_pc t = sleeping ∨ th_pc t = outside ∨ ∃ b, th_pc t = finished b)) →
  ∃ st1 st2, sched_internal false st st1 ∧ sched_internal false st1 st2 ∧
    threads st1 = <[i := mk_thread (cleaned pq true) None]> (threads st) ∧
    threads st2 = <[i := mk_thread (finished true) None]> (threads st) ∧
    stopped_ (sched st2) = false ∧ op_queue_ (sched st2) = map operation pq ∧ pq ≠ [] ∧
    nf (sched_internal false) st2.
Proof.
  intros Hr Hst Hq Hi Hpw Hothers. pose proof (lookup_lt_Some _ _ _ Hi) as Hl.
  pose proof (thread_ok_lookup _ _ _ _ (reachable_base _ _ _ _ Hr) Hi) as Hok. simpl in Hok. apply Nat.leb_le in Hok.
  destruct (work_cleanup (sched st) pw) as [s stop] eqn:Ew.
  assert (stop = false ∧ op_queue_ s = [] ∧ stopped_ s = false) as (-> & Eq & Es).
  { unfold work_cleanup in Ew. destruct (1 <? pw)%nat; [by injection Ew as <- <-|].
    destruct (Nat.ltb_spec pw 1); [lia|]. by injection Ew as <- <-. }
  eexists _, _. split; [by eapply (do_complete false st i o pq pw true)|].
  split; [eapply (do_clean false _ i pq true); simpl; by rewrite list_lookup_insert_eq|].
  simpl. rewrite list_insert_insert_eq, Eq. split_and!; try done; [intros ->; simpl in Hok; lia|].
  intros [st' Hs]. inversion Hs as [k ? ? ? ? Hk|k ? ? ? Hk|k ? Hk|k ? Hk|k ? ? Hk|k ? ? Hk
    |k ? ? ? ? ? ? Hk|k ? ? Hk|k ? Hk|k ? Hk]; subst; simpl in Hk; rewrite ?list_insert_insert_eq in Hk.
  all: destruct (decide (k = i)) as [->|Hne];
    [rewrite list_lookup_insert_eq in Hk by done; discriminate Hk
    |rewrite list_lookup_insert_ne in Hk by done; destruct (Hothers _ _ Hne Hk) as [Hc Hp]; simpl in Hc, Hp;
     try discriminate Hc; destruct Hp as [Hp|[Hp|[? Hp]]]; discriminate Hp].
Qed.

(** Two threads in [run], one of which sleeps while the other runs a function that continues. *)
Module sample_lost.
Definition lost : system :=
  mk_system (mk_scheduler false [] false true false 2 false 2)
    [mk_thread (running 7%positive [8%positive] 1) None; mk_thread sleeping None; mk_thread outside None] [] 1
    [7%positive; 8%positive] [7%positive] [7%positive] false.

Lemma lost_reachable : sched_reachable false 3 false lost.
Proof.
  pose proof (sched_new false 3 false) as H. unfold new_system in H. cbn in H.
  sched_advance H ltac:(eapply (user_run _ _ 1%nat); [|by intros]).
  sched_inside H ltac:(eapply (do_head _ _ 1%nat)).
  sched_advance H ltac:(eapply (user_run _ _ 0%nat); [|by intros]).
  sched_advance H ltac:(eapply (user_post _ _ 2%nat _ 7%positive false)).
  sched_inside H ltac:(eapply (do_post _ _ 2%nat)).
  sched_inside H ltac:(eapply (do_signal _ _ 2%nat _ 1%nat)).
  sched_inside H ltac:(eapply (do_head _ _ 0%nat)).
  sched_inside H ltac:(eapply (do_wake _ _ 1%nat)).
  sched_inside H ltac:(eapply (do_head _ _ 1%nat)).
  sched_advance H ltac:(eapply (user_post _ _ 0%nat _ 8%positive true)). exact H.
Qed.

(** The second thread sleeps, and the continued operation is never started. *)
Lemma scheduler_loses_wakeup_witness :
  ∃ st1 st2, sched_internal false lost st1 ∧ sched_internal false st1 st2 ∧
    threads st2 = [mk_thread (finished true) None; mk_thread sleeping None; mk_thread outside None] ∧
    op_queue_ (sched st2) = [operation 8%positive] ∧ nf (sched_internal false) st2.
Proof.
  destruct (scheduler_loses_wakeup 3 false lost 0 7%positive [8%positive] 1) as
    (st1 & st2 & H1 & H2 & _ & Ht & _ & Hq & _ & Hnf).
  - exact lost_reachable.
  - reflexivity.
  - reflexivity.
  - reflexivity.
  - lia.
  - intros [|[|[|j]]] t Hj Ht; [done| | |discriminate]; injection Ht as <-; simpl; auto.
  - exists st1, st2. split; [exact H1|]. split; [exact H2|]. split; [exact Ht|]. split; [exact Hq|exact Hnf].
Defined.
End sample_lost.

Module sample_drain.
Import sample_scheduler.
Ltac sched_run tac := eapply rtc_l; [tac; reflexivity|vm_compute].

Lemma sched_run2 : rtc (sched_internal true) st1 st2.
Proof.
  sched_run ltac:(eapply (do_post _ _ 1%nat)).
  sched_run ltac:(eapply (do_head _ _ 0%nat)).
  sched_run ltac:(eapply (do_complete _ _ 0%nat _ _ _ false); [|by intros|]).
  sched_run ltac:(eapply (do_clean _ _ 0%nat)).
  sched_run ltac:(eapply (do_head _ _ 0%nat)). apply rtc_refl.
Qed.

Lemma scheduler_drains_witness :
  sched_reachable true 2 false st1 ∧ sn (sched_internal true) st1 ∧ rtc (sched_internal true) st1 st2 ∧
  given st2 ≡ₚ begun st2 ++ io st2.
Proof.
  split; [exact sched_reach1|].
  destruct (scheduler_drains 2 false st1 sched_reach1) as [Hsn Hend].
  split; [exact Hsn|]. split; [exact sched_run2|]. apply (Hend st2 sched_run2); [|done|vm_compute; lia].
  intros [st Hst]. inversion Hst as [i ? ? ? ? Hi|i ? ? ? Hi|i ? Hi|i ? Hi|i ? ? Hi|i ? ? Hi
    |i ? ? ? ? ? ? Hi|i ? ? Hi|i ? Hi|i ? Hi]; destruct i as [|[|i]]; discriminate.
Defined.
End sample_drain.
