(* ===== verification/Reactor.v ===== *)
(** The reactor of asio on Linux: extern/asio/asio/include/asio/detail/impl/epoll_reactor.ipp with
    epoll_reactor.hpp and reactor_op.hpp.

    Every read, write, accept and connect of mpRPC is an operation that the reactor tries at
    once or queues on its descriptor until epoll reports it ready. epoll is used edge-triggered:
    a readiness is reported once, and whoever misses it waits forever. A section under the mutex
    of a descriptor is a step here; system calls of other threads and events of the network
    happen between any two steps. What an operation does to its socket is an interface
    ([Kernel]) with what the reactor relies on as its laws ([KernelSpec]); [ReactorSocket] defines
    the operations of asio on sockets, proves the laws for them, and shows where an accept breaks
    one. Timers, the interrupter and
    the re-registration after a fork are left out. *)

From Stdlib Require Import ssreflect.
From stdpp Require Import list relations.
From S2P Require Import Prelude OpQueue.

Open Scope general_if_scope.
Open Scope Z_scope.

(** ** Events and operations *)

Definition EPOLLIN : Z := 0x001.
Definition EPOLLPRI : Z := 0x002.
Definition EPOLLOUT : Z := 0x004.
Definition EPOLLERR : Z := 0x008.
Definition EPOLLHUP : Z := 0x010.
Definition EPOLLET : Z := 0x80000000.

(** [connect_op] is [write_op]. *)
Inductive op_type : Type := read_op | write_op | except_op.
#[export] Instance op_type_eq_decision : EqDecision op_type.
Proof. solve_decision. Defined.

(** [flag] in [perform_io] *)
Definition flag (j : op_type) : Z :=
  match j with read_op => EPOLLIN | write_op => EPOLLOUT | except_op => EPOLLPRI end.

Definition has (events mask : Z) : bool := negb (Z.land events mask =? 0).

(** [reactor_op::status] *)
Inductive status : Type := not_done | done | done_and_exhausted.
#[export] Instance status_eq_decision : EqDecision status.
Proof. solve_decision. Defined.

(** ** The interface to the kernel *)

(** [perform] is [op->perform()], which makes a system call that does not block; [ready] tells
    whether epoll finds the descriptor ready for a kind of operation, with something to report
    that no operation has reported yet: the end of a stream keeps epoll ready for ever, and
    counts here until a read has returned it. *)
Class Kernel (K : Type) := {
  perform : op_type → op → K → status * K;
  ready : op_type → K → bool;
}.

(** What the reactor relies on: an operation that would block, or that reports that nothing is
    left, was right; and no operation makes its descriptor ready. [ReactorSocket] proves it of
    reads, writes, connects and waits, and of accepts when no connection is aborted before it is
    accepted; an accept that passes over an aborted connection breaks the first law. *)
Class KernelSpec (K : Type) `{Kernel K} := {
  not_done_blocked j o k k' : perform j o k = (not_done, k') → ready j k' = false;
  exhausted_blocked j o k k' : perform j o k = (done_and_exhausted, k') → ready j k' = false;
  perform_quiet i j o k s k' : perform j o k = (s, k') → ready i k' = true → ready i k = true;
}.

(** ** A value per kind of operation *)

Record per A := mk_per { per_read : A; per_write : A; per_except : A }.
Arguments mk_per {A} per_read per_write per_except.
Arguments per_read {A}. Arguments per_write {A}. Arguments per_except {A}.

Definition get {A} (p : per A) (j : op_type) : A :=
  match j with read_op => per_read p | write_op => per_write p | except_op => per_except p end.
Definition set {A} (p : per A) (j : op_type) (x : A) : per A :=
  match j with
  | read_op => mk_per x (per_write p) (per_except p)
  | write_op => mk_per (per_read p) x (per_except p)
  | except_op => mk_per (per_read p) (per_write p) x
  end.
Definition all_of {A} (x : A) : per A := mk_per x x x.

Lemma get_set {A} (p : per A) i j x : get (set p j x) i = if decide (i = j) then x else get p i.
Proof. by destruct i, j. Qed.
Lemma get_all {A} (x : A) j : get (all_of x) j = x.
Proof. by destruct j. Qed.

Section reactor.
Context {K : Type} `{Kernel K}.

(** ** Descriptors *)

(** [descriptor_state] with the field [task_result_] of its base [scheduler_operation], followed
    by what is not in memory: the socket, the events that epoll watches ([None] when the
    descriptor is not in the epoll set), whether it is on the list of ready descriptors, and the
    events of the threads that took it from the queue of the scheduler and are about to lock its
    mutex. *)
Record descriptor_state := mk_descriptor_state {
  registered_events_ : Z;
  op_queue_ : per (list op);
  try_speculative_ : per bool;
  shutdown_ : bool;
  task_result_ : Z;
  kernel : K;
  watched : option Z;
  signalled : bool;
  taken : list Z;
}.

(** The error code that an operation is completed with. *)
Inductive outcome : Type :=
| performed | operation_aborted | bad_descriptor | operation_not_supported | epoll_error | ec_unchanged.

Definition set_queues (d : descriptor_state) (q : per (list op)) : descriptor_state :=
  mk_descriptor_state (registered_events_ d) q (try_speculative_ d) (shutdown_ d) (task_result_ d)
    (kernel d) (watched d) (signalled d) (taken d).
Definition set_queue (d : descriptor_state) (j : op_type) (q : list op) : descriptor_state :=
  set_queues d (set (op_queue_ d) j q).
Definition set_speculative (d : descriptor_state) (j : op_type) (b : bool) : descriptor_state :=
  mk_descriptor_state (registered_events_ d) (op_queue_ d) (set (try_speculative_ d) j b) (shutdown_ d) (task_result_ d)
    (kernel d) (watched d) (signalled d) (taken d).
Definition set_registered (d : descriptor_state) (z : Z) : descriptor_state :=
  mk_descriptor_state z (op_queue_ d) (try_speculative_ d) (shutdown_ d) (task_result_ d)
    (kernel d) (watched d) (signalled d) (taken d).
Definition set_kernel (d : descriptor_state) (k : K) : descriptor_state :=
  mk_descriptor_state (registered_events_ d) (op_queue_ d) (try_speculative_ d) (shutdown_ d) (task_result_ d)
    k (watched d) (signalled d) (taken d).

(** The events that epoll has to report for a descriptor in this state. *)
Definition ready_events (k : K) : Z :=
  Z.lor (if ready read_op k then EPOLLIN else 0)
    (Z.lor (if ready write_op k then EPOLLOUT else 0) (if ready except_op k then EPOLLPRI else 0)).

(** [epoll_ctl] with [EPOLL_CTL_ADD] or [EPOLL_CTL_MOD]: a descriptor that is ready for what is
    watched now gets on the list. *)
Definition epoll_watch (d : descriptor_state) (events : Z) : descriptor_state :=
  mk_descriptor_state (registered_events_ d) (op_queue_ d) (try_speculative_ d) (shutdown_ d) (task_result_ d) (kernel d)
    (Some events) (signalled d || has (ready_events (kernel d)) events) (taken d).
Definition epoll_mod (d : descriptor_state) (events : Z) : descriptor_state :=
  match watched d with Some _ => epoll_watch d events | None => d end.
Definition epoll_del (d : descriptor_state) : descriptor_state :=
  mk_descriptor_state (registered_events_ d) (op_queue_ d) (try_speculative_ d) (shutdown_ d) (task_result_ d) (kernel d)
    None false (taken d).

(** ** Operations of the reactor *)

Definition base_events : Z :=
  Z.lor EPOLLIN (Z.lor EPOLLERR (Z.lor EPOLLHUP (Z.lor EPOLLPRI EPOLLET))).

(** What [epoll_ctl] answers when the descriptor is added. *)
Inductive ctl_result : Type := ctl_ok | ctl_eperm | ctl_error.
#[export] Instance ctl_result_eq_decision : EqDecision ctl_result.
Proof. solve_decision. Defined.

(** A [descriptor_state] as [object_pool] constructs it; [register_descriptor] sets what is left
    uninitialised. *)
Definition new_descriptor_state (k : K) : descriptor_state :=
  mk_descriptor_state 0 (all_of []) (all_of false) true 0 k None false [].

(** [register_descriptor] on the object that [allocate_descriptor_state] found, which may have
    served another descriptor; the answer is whether it succeeded. *)
Definition register_descriptor (d : descriptor_state) (k : K) (r : ctl_result) : descriptor_state * bool :=
  let d := mk_descriptor_state base_events (op_queue_ d) (all_of true) false (task_result_ d)
             k None false (taken d) in
  match r with
  | ctl_ok => (epoll_watch d base_events, true)
  | ctl_eperm => (set_registered d 0, true)
  | ctl_error => (d, false)
  end.

(** [start_op] from the lock on: the operation is completed with a code, or queued. [ok] is the
    answer of [epoll_ctl]. *)
Definition start_op (d : descriptor_state) (j : op_type) (o : op) (allow_speculative ok : bool) :
    descriptor_state * option outcome :=
  let queued d := (set_queue d j (get (op_queue_ d) j ++ [o]), None) in
  if shutdown_ d then (d, Some ec_unchanged)
  else if negb (bool_decide (get (op_queue_ d) j = [])) then queued d
  else if allow_speculative && (negb (bool_decide (j = read_op)) || bool_decide (get (op_queue_ d) except_op = []))
  then
    let '(st, d) :=
      if get (try_speculative_ d) j then
        let '(st, k) := perform j o (kernel d) in (st, set_kernel d k)
      else (not_done, d) in
    if decide (st ≠ not_done) then
      (if bool_decide (st = done_and_exhausted) && negb (registered_events_ d =? 0)
       then set_speculative d j false else d, Some performed)
    else if registered_events_ d =? 0 then (d, Some operation_not_supported)
    else if bool_decide (j = write_op) && negb (has (registered_events_ d) EPOLLOUT) then
      let events := Z.lor (registered_events_ d) EPOLLOUT in
      if ok then queued (set_registered (epoll_mod d events) (Z.lor (registered_events_ d) events))
      else (d, Some epoll_error)
    else queued d
  else if registered_events_ d =? 0 then (d, Some operation_not_supported)
  else
    let d := if bool_decide (j = write_op)
             then set_registered d (Z.lor (registered_events_ d) EPOLLOUT) else d in
    queued (if ok then epoll_mod d (registered_events_ d) else d).

(** The operations of all queues, in the order of the loops over [max_ops]. *)
Definition all_ops (d : descriptor_state) : list op :=
  per_read (op_queue_ d) ++ per_write (op_queue_ d) ++ per_except (op_queue_ d).

Definition set_shutdown (d : descriptor_state) : descriptor_state :=
  mk_descriptor_state (registered_events_ d) (op_queue_ d) (try_speculative_ d) true (task_result_ d)
    (kernel d) (watched d) (signalled d) (taken d).

(** [cancel_ops]: the operations that are completed with [operation_aborted]. *)
Definition cancel_ops (d : descriptor_state) : descriptor_state * list op :=
  (set_queues d (all_of []), all_ops d).

(** [deregister_descriptor]; a descriptor that is closed leaves the epoll set by itself. *)
Definition deregister_descriptor (d : descriptor_state) (closing : bool) : descriptor_state * list op :=
  if shutdown_ d then (d, [])
  else
    let d' := if closing || negb (registered_events_ d =? 0) then epoll_del d else d in
    (set_shutdown (set_queues d' (all_of [])), all_ops d).

(** The inner loop of [perform_io] on the queue of [j]. *)
Fixpoint perform_queue (j : op_type) (q : list op) (k : K) (speculative : bool) :
    list op * list op * K * bool :=
  match q with
  | [] => ([], [], k, speculative)
  | o :: q' =>
      match perform j o k with
      | (not_done, k') => ([], q, k', speculative)
      | (done_and_exhausted, k') => ([o], q', k', false)
      | (done, k') =>
          let '(ops, rest, k'', b) := perform_queue j q' k' speculative in (o :: ops, rest, k'', b)
      end
  end.

Definition perform_type (events : Z) (j : op_type) (d : descriptor_state) : descriptor_state * list op :=
  if has events (Z.lor (flag j) (Z.lor EPOLLERR EPOLLHUP)) then
    let '(ops, rest, k, b) := perform_queue j (get (op_queue_ d) j) (kernel d) true in
    (set_speculative (set_kernel (set_queue d j rest) k) j b, ops)
  else (d, []).

(** [perform_io]: exceptions first, then writes, then reads. *)
Definition perform_io (d : descriptor_state) (events : Z) : descriptor_state * list op :=
  let '(d, l2) := perform_type events except_op d in
  let '(d, l1) := perform_type events write_op d in
  let '(d, l0) := perform_type events read_op d in
  (d, l2 ++ l1 ++ l0).

(** [set_ready_events] and [add_ready_events] of [run], with [epoll_wait] taking the descriptor
    off the list of ready descriptors. *)
Definition report (d : descriptor_state) (events : Z) (is_enqueued : bool) : descriptor_state :=
  mk_descriptor_state (registered_events_ d) (op_queue_ d) (try_speculative_ d) (shutdown_ d)
    (if is_enqueued then Z.lor (task_result_ d) events else events) (kernel d) (watched d) false (taken d).

Definition set_taken (d : descriptor_state) (l : list Z) : descriptor_state :=
  mk_descriptor_state (registered_events_ d) (op_queue_ d) (try_speculative_ d) (shutdown_ d)
    (task_result_ d) (kernel d) (watched d) (signalled d) l.
(** The network changes the socket, and with it the list of ready descriptors. *)
Definition set_network (d : descriptor_state) (k : K) (b : bool) : descriptor_state :=
  mk_descriptor_state (registered_events_ d) (op_queue_ d) (try_speculative_ d) (shutdown_ d)
    (task_result_ d) k (watched d) b (taken d).

(** ** The reactor beside its scheduler *)

(** What the reactor puts in the queue of the scheduler: itself and descriptors with events. The
    operations of the user between them are in [posted]. *)
Inductive entry : Type := task_operation | descriptor (i : nat).
#[export] Instance entry_eq_decision : EqDecision entry.
Proof. solve_decision. Defined.

(** A thread that runs a completed operation: [thread_info], with the operations it has posted
    to its private queue and how many of them it has still to count as work. *)
Record run_thread := mk_run_thread {
  current : op * outcome;
  private_op_queue : list (op * outcome);
  private_outstanding_work : Z;
}.

(** [descs] holds every [descriptor_state] ever allocated and [pool] the free ones
    ([registered_descriptors_]); [in_run] the descriptors that a call of [run] has collected;
    [posted] the completed operations that wait for a thread and [running] the threads that run
    one. *)
Record system := mk_system {
  descs : list descriptor_state;
  pool : list nat;
  queue : list entry;
  in_run : option (list nat);
  posted : list (op * outcome);
  running : list run_thread;
  outstanding_work_ : Z;
  started : list op;
  finished : list (op * outcome);
  abandoned : list op;
  closed : bool;
  one_thread_ : bool;
}.

Definition set_desc (s : system) (i : nat) (d : descriptor_state) : system :=
  mk_system (<[i := d]> (descs s)) (pool s) (queue s) (in_run s) (posted s) (running s)
    (outstanding_work_ s) (started s) (finished s) (abandoned s) (closed s) (one_thread_ s).
Definition set_pool (s : system) (p : list nat) : system :=
  mk_system (descs s) p (queue s) (in_run s) (posted s) (running s)
    (outstanding_work_ s) (started s) (finished s) (abandoned s) (closed s) (one_thread_ s).
Definition set_run (s : system) (q : list entry) (r : option (list nat)) : system :=
  mk_system (descs s) (pool s) q r (posted s) (running s)
    (outstanding_work_ s) (started s) (finished s) (abandoned s) (closed s) (one_thread_ s).
Definition set_ops (s : system) (p : list (op * outcome)) (r : list run_thread) (f : list (op * outcome))
    (n : Z) : system :=
  mk_system (descs s) (pool s) (queue s) (in_run s) p r n (started s) f (abandoned s) (closed s) (one_thread_ s).
Definition log_started (s : system) (o : op) : system :=
  mk_system (descs s) (pool s) (queue s) (in_run s) (posted s) (running s)
    (outstanding_work_ s) (started s ++ [o]) (finished s) (abandoned s) (closed s) (one_thread_ s).

Definition work_started (s : system) : system :=
  set_ops s (posted s) (running s) (finished s) (outstanding_work_ s + 1).
(** [thread_call_stack::contains]: the thread that makes the call, if it is one that runs the
    scheduler. *)
Definition this_thread (s : system) (caller : option nat) : option (nat * run_thread) :=
  i ← caller; t ← running s !! i; Some (i, t).

Definition push_private (s : system) (i : nat) (t : run_thread) (l : list (op * outcome)) (n : Z) : system :=
  set_ops s (posted s)
    (<[i := mk_run_thread (current t) (private_op_queue t ++ l) (private_outstanding_work t + n)]> (running s))
    (finished s) (outstanding_work_ s).

Definition post_immediate_completion (s : system) (caller : option nat) (is_continuation : bool) (o : op)
    (e : outcome) : system :=
  match (if one_thread_ s || is_continuation then this_thread s caller else None) with
  | Some (i, t) => push_private s i t [(o, e)] 1
  | None => set_ops s (posted s ++ [(o, e)]) (running s) (finished s) (outstanding_work_ s + 1)
  end.
Definition post_deferred_completions (s : system) (caller : option nat) (l : list (op * outcome)) : system :=
  match (if one_thread_ s then this_thread s caller else None) with
  | Some (i, t) => push_private s i t l 0
  | None => set_ops s (posted s ++ l) (running s) (finished s) (outstanding_work_ s)
  end.

(** [work_cleanup]: the thread gives the work of its operation back, or counts the work of those
    it has posted, and passes its private queue on. *)
Definition work_cleanup (s : system) (t : run_thread) (rest : list run_thread) : system :=
  let n := private_outstanding_work t in
  set_ops s (posted s ++ private_op_queue t) rest (finished s ++ [current t])
    (if 1 <? n then outstanding_work_ s + (n - 1)
     else if n <? 1 then outstanding_work_ s - 1 else outstanding_work_ s).

(** [allocate_descriptor_state] and [register_descriptor]; a socket whose registration fails is
    closed by its owner and its descriptor stays unused. *)
Definition reactor_register (s : system) (k : K) (r : ctl_result) : system :=
  match pool s with
  | i :: p =>
      match descs s !! i with
      | Some d =>
          let '(d', ok) := register_descriptor d k r in
          if ok then set_desc (set_pool s p) i d' else set_pool s p
      | None => s
      end
  | [] =>
      let '(d', ok) := register_descriptor (new_descriptor_state k) k r in
      mk_system (descs s ++ [if ok then d' else new_descriptor_state k]) [] (queue s) (in_run s)
        (posted s) (running s) (outstanding_work_ s) (started s) (finished s) (abandoned s) (closed s) (one_thread_ s)
  end.

(** [epoll_reactor::start_op]; [None] is a null [descriptor_data]. *)
Definition reactor_start_op (s : system) (caller : option nat) (i : option nat) (j : op_type) (o : op)
    (is_continuation allow_speculative ok : bool) : system :=
  match i with
  | None => post_immediate_completion s caller is_continuation o bad_descriptor
  | Some i =>
      match descs s !! i with
      | Some d =>
          match start_op d j o allow_speculative ok with
          | (d', Some e) => post_immediate_completion (set_desc s i d') caller is_continuation o e
          | (d', None) => work_started (set_desc s i d')
          end
      | None => s
      end
  end.

Definition aborted (l : list op) : list (op * outcome) := map (λ o, (o, operation_aborted)) l.

Definition reactor_cancel (s : system) (caller : option nat) (i : nat) : system :=
  match descs s !! i with
  | Some d => let '(d', l) := cancel_ops d in post_deferred_completions (set_desc s i d') caller (aborted l)
  | None => s
  end.
Definition reactor_deregister (s : system) (caller : option nat) (i : nat) (closing : bool) : system :=
  match descs s !! i with
  | Some d => let '(d', l) := deregister_descriptor d closing in
              post_deferred_completions (set_desc s i d') caller (aborted l)
  | None => s
  end.

(** [cleanup_descriptor_data] *)
Definition cleanup_descriptor_data (s : system) (i : nat) : system := set_pool s (i :: pool s).

(** [do_complete] of a descriptor: the first operation is run by this thread, the others are
    posted as [post_deferred_completions] does, and without any the work that the scheduler is
    about to give back is compensated. *)
Definition reactor_perform_io (s : system) (i : nat) (d : descriptor_state) (events : Z) : system :=
  let '(d', l) := perform_io d events in
  let s := set_desc s i d' in
  match map (λ o, (o, performed)) l with
  | [] => set_ops s (posted s) (running s) (finished s) (outstanding_work_ s + 1 - 1)
  | x :: l =>
      if one_thread_ s
      then set_ops s (posted s) (running s ++ [mk_run_thread x l 0]) (finished s) (outstanding_work_ s)
      else set_ops s (posted s ++ l) (running s ++ [mk_run_thread x [] 0]) (finished s) (outstanding_work_ s)
  end.

(** [ops.is_enqueued]: the link of the operation is set, or it is the last of [ops]. *)
Definition is_enqueued (s : system) (ops : list nat) (i : nat) : bool :=
  bool_decide (i ∈ ops) || bool_decide (descriptor i ∈ removelast (queue s)).

(** One descriptor that [epoll_wait] has returned to [run]. *)
Definition reactor_report (s : system) (ops : list nat) (i : nat) (d : descriptor_state) (events : Z) : system :=
  let b := is_enqueued s ops i in
  set_run (set_desc s i (report d events b)) (queue s) (Some (if b then ops else ops ++ [i])).

(** [epoll_reactor::shutdown] *)
Definition reactor_shutdown (s : system) : system :=
  mk_system (map (λ d, set_shutdown (set_queues d (all_of []))) (descs s)) (seq 0 (length (descs s)))
    (queue s) (in_run s) (posted s) (running s) (outstanding_work_ s) (started s) (finished s)
    (abandoned s ++ concat (map all_ops (descs s))) true (one_thread_ s).

(** ** Steps *)

(** epoll watches the events of [j]. *)
Definition watches (d : descriptor_state) (j : op_type) : bool :=
  match watched d with Some z => has z (flag j) | None => false end.

(** The events that epoll reports include all that it watches and finds; it may report more. *)
Definition covers (d : descriptor_state) (events : Z) : Prop :=
  ∀ j, watches d j = true → ready j (kernel d) = true → has events (flag j) = true.

(** A change of the socket that makes it ready for what is watched puts the descriptor on the
    list of ready descriptors; other changes may. *)
Definition noticed (d : descriptor_state) (k : K) (b : bool) : Prop :=
  (signalled d = true → b = true) ∧
  ∀ j, watches d j = true → ready j (kernel d) = false → ready j k = true → b = true.

(** What the reactor and the scheduler do by themselves, with threads that call [run]. *)
Inductive reactor_internal (s : system) : system → Prop :=
| task_begin q :
    queue s = task_operation :: q → in_run s = None → reactor_internal s (set_run s q (Some []))
| task_report ops i d events :
    in_run s = Some ops → descs s !! i = Some d → signalled d = true → covers d events →
    reactor_internal s (reactor_report s ops i d events)
| task_end ops :
    in_run s = Some ops →
    reactor_internal s (set_run s (queue s ++ map descriptor ops ++ [task_operation]) None)
| take_descriptor i q d :
    queue s = descriptor i :: q → descs s !! i = Some d →
    reactor_internal s (set_run (set_desc s i (set_taken d (taken d ++ [task_result_ d]))) q (in_run s))
| do_perform_io i d l events l' :
    descs s !! i = Some d → taken d = l ++ events :: l' →
    reactor_internal s (reactor_perform_io s i (set_taken d (l ++ l')) events).

(** [reliable] says that [epoll_ctl] does not fail on a descriptor that it accepted before. *)
Inductive reactor_step (reliable : bool) (s : system) : system → Prop :=
| step_register k r :
    closed s = false → reactor_step reliable s (reactor_register s k r)
| step_start caller i j o cont spec ok :
    (∀ n, i = Some n → (n < length (descs s))%nat ∧ (closed s = true ∨ n ∉ pool s)) → (reliable = true → ok = true) →
    reactor_step reliable s (reactor_start_op (log_started s o) caller i j o cont spec ok)
| step_cancel caller i :
    closed s = true ∨ i ∉ pool s → reactor_step reliable s (reactor_cancel s caller i)
| step_deregister caller i closing :
    closed s = true ∨ i ∉ pool s → reactor_step reliable s (reactor_deregister s caller i closing)
| step_cleanup i d :
    closed s = false → i ∉ pool s → descs s !! i = Some d → shutdown_ d = true →
    reactor_step reliable s (cleanup_descriptor_data s i)
| step_network i d k b :
    descs s !! i = Some d → noticed d k b → reactor_step reliable s (set_desc s i (set_network d k b))
| step_spurious ops i d events :
    in_run s = Some ops → descs s !! i = Some d → covers d events →
    reactor_step reliable s (reactor_report s ops i d events)
| step_run_op l x l' :
    posted s = l ++ x :: l' →
    reactor_step reliable s (set_ops s (l ++ l') (running s ++ [mk_run_thread x [] 0]) (finished s) (outstanding_work_ s))
| step_finish_op l t l' :
    running s = l ++ t :: l' → reactor_step reliable s (work_cleanup s t (l ++ l'))
| step_shutdown :
    closed s = false → reactor_step reliable s (reactor_shutdown s)
| step_internal s' :
    reactor_internal s s' → reactor_step reliable s s'.

(** [init_task] has queued the reactor. *)
Definition new_system (one_thread : bool) : system :=
  mk_system [] [] [task_operation] None [] [] 0 [] [] [] false one_thread.

Inductive reactor_reachable (reliable : bool) : system → Prop :=
| reactor_new one_thread : reactor_reachable reliable (new_system one_thread)
| reactor_next s s' :
    reactor_reachable reliable s → reactor_step reliable s s' → reactor_reachable reliable s'.

(** ** Masks *)

Lemma has_comm a b : has a b = has b a.
Proof. by rw /has Z.land_comm. Qed.
Lemma has_lor a b m : has (Z.lor a b) m = has a m || has b m.
Proof.
  rw /has Z.land_lor_distr_l.
  destruct (Z.eqb_spec (Z.land a m) 0) as [->|Ha], (Z.eqb_spec (Z.land b m) 0) as [->|Hb]; simpl;
    try apply negb_true_iff, Z.eqb_neq; try done; rw Z.lor_eq_0_iff; tauto.
Qed.
Lemma has_zero m : has 0 m = false.
Proof. by rw /has Z.land_0_l. Qed.
Lemma has_if (b : bool) a m : has (if b then a else 0) m = b && has a m.
Proof. destruct b; [done|apply has_zero]. Qed.

Lemma ready_events_has k j z : ready j k = true → has z (flag j) = true → has (ready_events k) z = true.
Proof.
  intros Hr Hz. rw /ready_events !has_lor !has_if. rw has_comm in Hz.
  destruct j; simpl in Hz; rw Hr Hz; by destruct (ready _ k && _), (ready _ k && _).
Qed.

(** What [perform_io] tests for a kind of operation. *)
Definition mask (j : op_type) : Z := Z.lor (flag j) (Z.lor EPOLLERR EPOLLHUP).
Lemma has_mask z j : has z (flag j) = true → has z (mask j) = true.
Proof. intros Hz. by rw has_comm /mask has_lor has_comm Hz. Qed.

(** ** Accounting *)

(** Permutations of lists of operations by counting. *)
Definition occ (l : list op) (x : op) : nat := count_occ Pos.eq_dec l x.
Lemma occ_app l l' x : occ (l ++ l') x = (occ l x + occ l' x)%nat.
Proof. apply count_occ_app. Qed.
Lemma occ_perm l l' : l ≡ₚ l' ↔ ∀ x, occ l x = occ l' x.
Proof. apply Permutation_count_occ. Qed.
Lemma occ_cons o l x : occ (o :: l) x = (occ [o] x + occ l x)%nat.
Proof. apply (occ_app [o] l). Qed.
#[local] Ltac perm :=
  apply occ_perm; intros ?;
  repeat match goal with E : _ ≡ₚ _ |- occ _ ?x = _ =>
    let F := fresh in pose proof (proj1 (occ_perm _ _) E x) as F; clear E; rw ?occ_app in F end;
  rw ?occ_app ?(occ_cons _ (map _ _)); lia.

Definition queued (l : list descriptor_state) : list op := concat (map all_ops l).

Lemma queued_ops_app l l' : queued (l ++ l') = queued l ++ queued l'.
Proof. by rw /queued map_app concat_app. Qed.
Lemma queued_cons d l : queued (d :: l) = all_ops d ++ queued l.
Proof. done. Qed.

Lemma queued_insert l i d d' (x y : list op) :
  l !! i = Some d → all_ops d' ++ x ≡ₚ all_ops d ++ y → queued (<[i := d']> l) ++ x ≡ₚ queued l ++ y.
Proof.
  intros Hi Hp. rw -{2}(take_drop_middle l i d Hi) (insert_take_drop l i d' (lookup_lt_Some _ _ _ Hi)).
  rw !queued_ops_app !queued_cons. perm.
Qed.

Lemma epoll_mod_queue d z : op_queue_ (epoll_mod d z) = op_queue_ d.
Proof. rw /epoll_mod. by case_match. Qed.

Lemma all_ops_push d d0 j o :
  op_queue_ d = op_queue_ d0 → all_ops (set_queue d j (get (op_queue_ d) j ++ [o])) ≡ₚ all_ops d0 ++ [o].
Proof. intros E. rw /set_queue E. destruct j; rw /all_ops /=; perm. Qed.

Lemma start_op_ops d j o spec ok d' r :
  start_op d j o spec ok = (d', r) → all_ops d' ≡ₚ all_ops d ++ match r with None => [o] | Some _ => [] end.
Proof.
  rw /start_op. intros Hs. repeat case_match; simplify_eq; rw ?app_nil_r //;
    apply all_ops_push; simpl; by rw ?epoll_mod_queue.
Qed.

Lemma perform_queue_split j q k b ops rest k' b' :
  perform_queue j q k b = (ops, rest, k', b') → q = ops ++ rest.
Proof.
  revert k b ops rest k' b'. induction q as [|o q IH]; intros * Hq; simpl in Hq; [by simplify_eq|].
  repeat case_match; simplify_eq; [done| |done]. simpl. f_equal. by eapply IH.
Qed.

Lemma perform_type_ops events j d d' l :
  perform_type events j d = (d', l) → all_ops d ≡ₚ all_ops d' ++ l.
Proof.
  rw /perform_type. intros Hp. repeat case_match; simplify_eq; rw ?app_nil_r //.
  match goal with E : perform_queue _ _ _ _ = _ |- _ => apply perform_queue_split in E end.
  destruct j; simpl in *; rw /all_ops /=;
    match goal with E : _ = _ ++ _ |- _ => rw E end; perm.
Qed.

Lemma perform_io_ops d events d' l :
  perform_io d events = (d', l) → all_ops d ≡ₚ all_ops d' ++ l.
Proof.
  rw /perform_io. intros Hp. repeat case_match; simplify_eq.
  repeat match goal with E : perform_type _ _ _ = _ |- _ => apply perform_type_ops in E end. perm.
Qed.

(** The operations that the threads run or hold, and the work they have not counted. *)
Definition thread_ops (t : run_thread) : list op := (current t).1 :: map fst (private_op_queue t).
Definition run_ops (l : list run_thread) : list op := concat (map thread_ops l).
Definition private_work (l : list run_thread) : Z := foldr (λ t n, private_outstanding_work t + n) 0 l.

Lemma run_ops_app l l' : run_ops (l ++ l') = run_ops l ++ run_ops l'.
Proof. by rw /run_ops map_app concat_app. Qed.
Lemma private_work_app l l' : private_work (l ++ l') = private_work l + private_work l'.
Proof. induction l as [|t l IH]; [done|]. rw /private_work /= in IH |- *. lia. Qed.

(** The operations in the hands of the reactor and the scheduler, and those that have left. *)
Definition in_hands (s : system) : list op :=
  queued (descs s) ++ map fst (posted s) ++ run_ops (running s) ++ abandoned s.

Record acct_inv (s : system) : Prop := {
  acct_ops : started s ≡ₚ in_hands s ++ map fst (finished s);
  acct_work : outstanding_work_ s + private_work (running s) = Z.of_nat (length (in_hands s));
  acct_private : Forall (λ t, 0 ≤ private_outstanding_work t) (running s);
}.

Definition private_ok (s : system) : Prop := Forall (λ t, 0 ≤ private_outstanding_work t) (running s).
Definition balance (s : system) : Z := outstanding_work_ s + private_work (running s).

(** A step that moves operations: [x] come in, [y] finish. *)
Lemma acct_move s s' x y :
  acct_inv s → started s' = started s ++ x → map fst (finished s') = map fst (finished s) ++ y →
  in_hands s' ++ y ≡ₚ in_hands s ++ x →
  balance s' = balance s + Z.of_nat (length x) - Z.of_nat (length y) → private_ok s' →
  acct_inv s'.
Proof.
  intros [Ho Hw _] Hs Hf Hp Hw' Hok. rw /balance in Hw'. split; [| |done].
  - rw Hs Hf. perm.
  - apply Permutation_length in Hp. revert Hp Hw. generalize (in_hands s) (in_hands s').
    intros l l'. rw !length_app. lia.
Qed.

Lemma run_insert l i t t' x :
  l !! i = Some t → thread_ops t' ≡ₚ thread_ops t ++ x → run_ops (<[i := t']> l) ≡ₚ run_ops l ++ x.
Proof.
  intros Hi Hp. rw -{2}(take_drop_middle l i t Hi) (insert_take_drop l i t' (lookup_lt_Some _ _ _ Hi)).
  assert (∀ u l1, run_ops (u :: l1) = thread_ops u ++ run_ops l1) as Hc by done.
  rw !run_ops_app !Hc. apply occ_perm. intros y. pose proof (proj1 (occ_perm _ _) Hp y) as Hy.
  rw !occ_app in Hy |- *. lia.
Qed.
Lemma private_insert l i t t' :
  l !! i = Some t →
  private_work (<[i := t']> l) = private_work l + private_outstanding_work t' - private_outstanding_work t.
Proof.
  intros Hi. rw -{2}(take_drop_middle l i t Hi) (insert_take_drop l i t' (lookup_lt_Some _ _ _ Hi)).
  rw !private_work_app /=. lia.
Qed.

(** A thread pushes to its private queue. *)
Lemma push_private_spec s i t l n :
  running s !! i = Some t → private_ok s → 0 ≤ n →
  in_hands (push_private s i t l n) ≡ₚ in_hands s ++ map fst l ∧
  balance (push_private s i t l n) = balance s + n ∧ private_ok (push_private s i t l n).
Proof.
  intros Hi Hok Hn. rw /push_private /in_hands /balance /private_ok /=.
  set (t' := mk_run_thread _ _ _). pose proof (lookup_lt_Some _ _ _ Hi) as Hl.
  pose proof (Forall_lookup_1 _ _ _ _ Hok Hi) as Ht. simpl in Ht.
  split; [|split; [|by apply Forall_insert; [|simpl; lia]]].
  - pose proof (run_insert (running s) i t t' (map fst l) Hi) as Hp. rw /thread_ops /= map_app in Hp.
    specialize (Hp (reflexivity _)). perm.
  - rw (private_insert _ _ _ t' Hi) /=. lia.
Qed.

Lemma this_thread_Some s c i t : this_thread s c = Some (i, t) → running s !! i = Some t.
Proof.
  rw /this_thread. destruct c as [n|]; [|done]. simpl. destruct (running s !! n) as [u|] eqn:E; [|done].
  simpl. by intros [= <- <-].
Qed.

Lemma post_immediate_spec s c cont o e :
  private_ok s → let s' := post_immediate_completion s c cont o e in
  in_hands s' ≡ₚ in_hands s ++ [o] ∧ balance s' = balance s + 1 ∧ private_ok s'.
Proof.
  intros Hok. rw /post_immediate_completion /=. destruct (if one_thread_ s || cont then _ else None) as [[i t]|] eqn:E.
  - destruct (one_thread_ s || cont); [|done]. apply this_thread_Some in E. by apply (push_private_spec s i t [(o, e)] 1).
  - split; [|split; [|done]]; [|rw /balance /=; lia]. rw /in_hands /= map_app /=. perm.
Qed.

Lemma post_deferred_spec s c l :
  private_ok s → let s' := post_deferred_completions s c l in
  in_hands s' ≡ₚ in_hands s ++ map fst l ∧ balance s' = balance s ∧ private_ok s'.
Proof.
  intros Hok. rw /post_deferred_completions /=. destruct (if one_thread_ s then _ else None) as [[i t]|] eqn:E.
  - destruct (one_thread_ s); [|done]. apply this_thread_Some in E.
    destruct (push_private_spec s i t l 0) as (? & Hb & ?); [done..|]. rw Z.add_0_r in Hb. done.
  - split; [|done]. rw /in_hands /= map_app. perm.
Qed.

Lemma post_immediate_logs s c cont o e :
  let s' := post_immediate_completion s c cont o e in started s' = started s ∧ finished s' = finished s.
Proof. rw /post_immediate_completion /=. by repeat case_match. Qed.
Lemma post_deferred_logs s c l :
  let s' := post_deferred_completions s c l in started s' = started s ∧ finished s' = finished s.
Proof. rw /post_deferred_completions /=. by repeat case_match. Qed.

(** Posting leaves the reactor alone. *)
Lemma post_immediate_rest s c cont o e :
  let s' := post_immediate_completion s c cont o e in
  descs s' = descs s ∧ pool s' = pool s ∧ queue s' = queue s ∧ in_run s' = in_run s.
Proof. rw /post_immediate_completion /=. by repeat case_match. Qed.
Lemma post_deferred_rest s c l :
  let s' := post_deferred_completions s c l in
  descs s' = descs s ∧ pool s' = pool s ∧ queue s' = queue s ∧ in_run s' = in_run s.
Proof. rw /post_deferred_completions /=. by repeat case_match. Qed.

Lemma aborted_fst l : map fst (aborted l) = l.
Proof. rw /aborted map_map. apply map_id. Qed.

Lemma desc_move s i d d' x y :
  descs s !! i = Some d → all_ops d' ++ x ≡ₚ all_ops d ++ y →
  in_hands (set_desc s i d') ++ x ≡ₚ in_hands s ++ y.
Proof. intros Hi Hp. pose proof (queued_insert _ _ _ _ _ _ Hi Hp). rw /in_hands /=. clear Hp. perm. Qed.

Lemma acct_desc s i d d' :
  acct_inv s → descs s !! i = Some d → all_ops d' = all_ops d → acct_inv (set_desc s i d').
Proof.
  intros Ha Hi Hd. apply (acct_move s _ [] [] Ha).
  - by rw app_nil_r.
  - by rw app_nil_r.
  - apply (desc_move s i d d'); by rw ?Hd.
  - rw /balance /=. lia.
  - apply Ha.
Qed.

(** The pieces in which [in_hands] is counted. *)
#[local] Ltac hands :=
  rw /in_hands /= ?map_app /= ?aborted_fst ?app_nil_r; perm.

Lemma acct_new b : acct_inv (new_system b).
Proof. split; [done|done|constructor]. Qed.

Lemma acct_register s k r : acct_inv s → acct_inv (reactor_register s k r).
Proof.
  intros Ha. rw /reactor_register. case_match.
  - rw /register_descriptor. destruct r; apply (acct_move s _ [] [] Ha); rw ?app_nil_r /balance //=; try lia; try apply Ha.
    all: by rw /in_hands /= queued_ops_app app_nil_r.
  - case_match; [|done].
    rw /register_descriptor. repeat case_match; simplify_eq; try by destruct Ha.
    all: eapply acct_desc; [by destruct Ha|done|done].
Qed.

Lemma acct_start s c i j o cont spec ok :
  acct_inv s → (∀ n, i = Some n → (n < length (descs s))%nat) →
  acct_inv (reactor_start_op (log_started s o) c i j o cont spec ok).
Proof.
  intros Ha Hi. rw /reactor_start_op. destruct i as [i|]; simpl.
  2:{ destruct (post_immediate_spec (log_started s o) c cont o bad_descriptor) as (Hh & Hb & Hok); [apply Ha|].
      destruct (post_immediate_logs (log_started s o) c cont o bad_descriptor) as [Hs Hf].
      apply (acct_move s _ [o] [] Ha); [by rw Hs|by rw Hf app_nil_r|by rw Hh app_nil_r| |done].
      rw Hb /balance /=. lia. }
  destruct (lookup_lt_is_Some_2 (descs s) i (Hi _ eq_refl)) as [d Hd]. rw Hd.
  destruct (start_op d j o spec ok) as [d' r] eqn:E. apply start_op_ops in E. destruct r as [e|].
  - set (s1 := set_desc (log_started s o) i d').
    destruct (post_immediate_spec s1 c cont o e) as (Hh & Hb & Hok); [apply Ha|].
    destruct (post_immediate_logs s1 c cont o e) as [Hs Hf]. rw app_nil_r in E.
    pose proof (queued_insert _ _ _ d' [] [] Hd ltac:(by rw !app_nil_r)) as Hq. rw !app_nil_r in Hq.
    apply (acct_move s _ [o] [] Ha); [by rw Hs|by rw Hf app_nil_r| | |done].
    + rw Hh app_nil_r. rw /in_hands /=. clear Hh Hb. perm.
    + rw Hb /balance /=. lia.
  - pose proof (queued_insert _ _ _ d' [] [o] Hd ltac:(by rw !app_nil_r)) as Hq. rw app_nil_r in Hq.
    apply (acct_move s _ [o] [] Ha); [done|by rw app_nil_r| |rw /balance /=; lia|apply Ha].
    rw app_nil_r. hands.
Qed.

(** [cancel_ops] and [deregister_descriptor] post what they take from the queues. *)
Lemma acct_abort s c i d d' l :
  acct_inv s → descs s !! i = Some d → all_ops d' ++ l ≡ₚ all_ops d →
  acct_inv (post_deferred_completions (set_desc s i d') c (aborted l)).
Proof.
  intros Ha Hd Hp.
  destruct (post_deferred_spec (set_desc s i d') c (aborted l)) as (Hh & Hb & Hok); [apply Ha|].
  destruct (post_deferred_logs (set_desc s i d') c (aborted l)) as [Hs Hf]. rw aborted_fst in Hh.
  apply (acct_move s _ [] [] Ha); [by rw Hs app_nil_r|by rw Hf app_nil_r| | |done].
  - rw app_nil_r Hh. apply (desc_move s i d d' l []); [done|]. by rw app_nil_r.
  - rw Hb /balance /=. lia.
Qed.

Lemma acct_perform_io s i d d0 events :
  acct_inv s → descs s !! i = Some d0 → all_ops d = all_ops d0 → acct_inv (reactor_perform_io s i d events).
Proof.
  intros Ha Hd Hq. rw /reactor_perform_io. destruct (perform_io d events) as [d' l] eqn:E.
  apply perform_io_ops in E. rw Hq in E.
  pose proof (queued_insert _ _ _ d' l [] Hd ltac:(by rw app_nil_r E)) as Hp. rw app_nil_r in Hp.
  assert (∀ ts, Forall (λ t, private_outstanding_work t = 0) ts → Forall (λ t, 0 ≤ private_outstanding_work t) (running s ++ ts)) as Hok.
  { intros ts Hts. apply Forall_app. split; [apply Ha|]. eapply Forall_impl; [|exact Hts]. simpl. lia. }
  assert (map (fst (B := outcome)) (map (λ o, (o, performed)) l) = l) as Hfst by rw map_map map_id //.
  destruct l as [|o l]; simpl.
  - apply (acct_move s _ [] [] Ha); [by rw app_nil_r..| |rw /balance /=; lia|apply Ha].
    rw app_nil_r in Hp. hands.
  - simpl in Hfst. injection Hfst as Hfst.
    destruct (one_thread_ s); apply (acct_move s _ [] [] Ha); try (by rw app_nil_r);
      try (rw /balance /= private_work_app /=; lia); try (rw /private_ok /=; apply Hok; by repeat constructor).
    all: assert (run_ops [mk_run_thread (o, performed) (map (λ o, (o, performed)) l) 0] = o :: l) as Hr1
      by rw /run_ops /= /thread_ops /= Hfst app_nil_r //.
    all: assert (run_ops [mk_run_thread (o, performed) [] 0] = [o]) as Hr2 by done.
    all: rw /in_hands /= ?map_app run_ops_app ?Hr1 ?Hr2 ?Hfst !app_nil_r; apply occ_perm; intros x.
    all: pose proof (proj1 (occ_perm _ _) Hp x) as Hx; rw !occ_app (occ_cons o l) in Hx.
    all: rw !occ_app ?(occ_cons o l); lia.
Qed.

Lemma shutdown_queued l : queued (map (λ d, set_shutdown (set_queues d (all_of []))) l) = [].
Proof. induction l as [|d l IH]; [done|]. by rw /= queued_cons IH. Qed.

Lemma acct_finish s l t l' :
  acct_inv s → running s = l ++ t :: l' → acct_inv (work_cleanup s t (l ++ l')).
Proof.
  intros Ha Hr. pose proof (acct_private _ Ha) as Hok. rw Hr in Hok.
  apply Forall_app in Hok as [Hl Hok]. inversion Hok as [|? ? Ht Hl']; subst.
  apply (acct_move s _ [] [(current t).1] Ha).
  - by rw app_nil_r.
  - by rw /work_cleanup /= map_app.
  - assert (run_ops (t :: l') = [(current t).1] ++ map fst (private_op_queue t) ++ run_ops l') as Ht1 by done.
    rw /in_hands /work_cleanup /= Hr map_app !run_ops_app Ht1 (app_nil_r (_ ++ _)).
    apply occ_perm. intros x. rw !occ_app. lia.
  - rw /balance /work_cleanup /= Hr !private_work_app /=.
    destruct (Z.ltb_spec 1 (private_outstanding_work t)); [lia|].
    destruct (Z.ltb_spec (private_outstanding_work t) 1); lia.
  - by apply Forall_app.
Qed.

Lemma acct_step reliable s s' : acct_inv s → reactor_step reliable s s' → acct_inv s'.
Proof.
  intros Ha [].
  - by apply acct_register.
  - apply acct_start; naive_solver.
  - rw /reactor_cancel. case_match; [|done]. by eapply acct_abort.
  - rw /reactor_deregister /deregister_descriptor. destruct (descs s !! i) as [d|] eqn:Hd; [|done]. destruct (shutdown_ d).
    + eapply acct_abort; [done..|]. by rw app_nil_r.
    + by eapply acct_abort.
  - by destruct Ha.
  - by eapply acct_desc.
  - pose proof (acct_desc s i d (report d events (is_enqueued s ops i)) Ha ltac:(done) eq_refl) as []. by split.
  - apply (acct_move s _ [] [] Ha); [by rw app_nil_r..| | |].
    + assert (run_ops [mk_run_thread x [] 0] = [x.1]) as Hx by done.
      rw /in_hands H0 !map_app run_ops_app Hx map_cons !app_nil_r.
      apply occ_perm. intros y. rw !occ_app (occ_cons x.1 (map fst l')) /=. lia.
    + rw /balance /= private_work_app /=. lia.
    + apply Forall_app. split; [apply Ha|]. by apply Forall_singleton.
  - by apply acct_finish.
  - apply (acct_move s _ [] [] Ha); [by rw app_nil_r..| |rw /balance /=; lia|apply Ha].
    rw /in_hands /reactor_shutdown /= shutdown_queued -/(queued (descs s)). hands.
  - destruct H0.
    + by destruct Ha.
    + pose proof (acct_desc s i d (report d events (is_enqueued s ops i)) Ha ltac:(done) eq_refl) as []. by split.
    + by destruct Ha.
    + pose proof (acct_desc s i d (set_taken d (taken d ++ [task_result_ d])) Ha ltac:(done) eq_refl) as []. by split.
    + by eapply acct_perform_io.
Qed.

Lemma reachable_acct reliable s : reactor_reachable reliable s → acct_inv s.
Proof. induction 1; eauto using acct_new, acct_step. Qed.

(** C31: every operation handed to the reactor is in one place: in a queue of a descriptor,
    posted to the scheduler, with a thread that runs it or holds it in its private queue, given
    up by [shutdown], or completed, once; and the work count of the scheduler, together with the
    private counts of the threads ([private_outstanding_work], which a thread adds when its
    operation is done), is the number of those that are not completed. *)
Theorem reactor_accounts (reliable : bool) (s : system) :
  reactor_reachable reliable s →
  started s ≡ₚ queued (descs s) ++ map fst (posted s) ++ run_ops (running s) ++ abandoned s ++ map fst (finished s) ∧
  outstanding_work_ s + private_work (running s) =
    Z.of_nat (length (queued (descs s)) + length (posted s) + length (run_ops (running s)) + length (abandoned s)).
Proof.
  intros [Ho Hw _]%reachable_acct. split.
  - rw Ho /in_hands. perm.
  - rw Hw /in_hands !length_app !length_map. lia.
Qed.
End reactor.
