(* ===== verification/ReactorEvents.v ===== *)
(** The reactor loses no event: what Reactor.v leaves to prove about epoll_reactor.ipp in the
    edge-triggered mode of epoll. The invariant [desc_ok] says of every descriptor which events
    are watched and where the event is that a waiting operation needs; every step keeps it, and
    the threads of the scheduler bring the reactor to rest with nothing left to do. *)

From Stdlib Require Import ssreflect.
From stdpp Require Import list relations.
From S2P Require Import Prelude OpQueue Reactor.

Open Scope general_if_scope.
Open Scope Z_scope.

Section events.
Context {K : Type} `{Kernel K}.
#[local] Notation descriptor_state := (@descriptor_state K).
#[local] Notation system := (@system K).

(** An event for [j] is on its way: on the list of epoll, in the queue of the scheduler ([e j]),
    or in a thread. *)
Definition pending (e : op_type → Prop) (d : descriptor_state) (j : op_type) : Prop :=
  signalled d = true ∨ e j ∨ ∃ events, events ∈ taken d ∧ has events (mask j) = true.

(** The descriptor needs an event when its socket gets ready for [j]. *)
Definition waits (d : descriptor_state) (j : op_type) : Prop :=
  get (op_queue_ d) j ≠ [] ∨ get (try_speculative_ d) j = false.

Definition registration (d : descriptor_state) : Prop :=
  if registered_events_ d =? 0 then watched d = None ∧ op_queue_ d = all_of []
  else watched d = Some (registered_events_ d) ∧
       (registered_events_ d = base_events ∨ registered_events_ d = Z.lor base_events EPOLLOUT).

Record desc_ok (e : op_type → Prop) (d : descriptor_state) : Prop := {
  ok_shut : shutdown_ d = true → op_queue_ d = all_of [];
  ok_registered : shutdown_ d = false → registration d;
  ok_watched j : shutdown_ d = false → get (op_queue_ d) j ≠ [] → watches d j = true;
  ok_pending j :
    shutdown_ d = false → waits d j → watches d j = true → ready j (kernel d) = true → pending e d j;
}.

Lemma pending_mono (e e' : op_type → Prop) d j :
  pending e d j → (e j → pending e' d j) → pending e' d j.
Proof. rw /pending. naive_solver. Qed.

Lemma desc_ok_mono (e e' : op_type → Prop) d :
  desc_ok e d → (∀ j, e j → pending e' d j) → desc_ok e' d.
Proof. intros [] He. split; [done..|]. intros. eapply pending_mono; [eauto|apply He]. Qed.

Lemma base_watches j z :
  z = base_events ∨ z = Z.lor base_events EPOLLOUT → has z (flag j) = true ∨ j = write_op ∧ z = base_events.
Proof. intros [-> | ->]; destruct j; [left|right|left..]; done. Qed.

Context `{!KernelSpec K}.

Lemma get_all_nil {A} j : get (all_of ([] : list A)) j = [].
Proof. apply get_all. Qed.

Lemma register_ok e d k r d' :
  op_queue_ d = all_of [] → register_descriptor d k r = (d', true) → desc_ok e d'.
Proof.
  intros Hq Hr. rw /register_descriptor in Hr. split.
  - by destruct r; simplify_eq.
  - intros _. rw /registration. destruct r; simplify_eq; rw /=; auto.
  - intros j _. destruct r; simplify_eq; by rw /= Hq get_all.
  - intros j _ [Hw|Hw]; destruct r; simplify_eq; revert Hw; simpl; by rw ?Hq get_all.
Qed.

(** A socket that is only used. *)
Lemma desc_ok_kernel e d k :
  desc_ok e d → (∀ j, ready j k = true → ready j (kernel d) = true) → desc_ok e (set_kernel d k).
Proof.
  intros [] Hk. split; [done..|].
  intros j Hs Hw Hj Hr. apply (ok_pending0 j Hs Hw Hj), Hk, Hr.
Qed.

Lemma desc_ok_speculative e d j b :
  desc_ok e d → b = true ∨ ready j (kernel d) = false → desc_ok e (set_speculative d j b).
Proof.
  intros [] Hb. split; [done..|]. intros i Hs Hw Hj Hr. apply (ok_pending0 i Hs); [|done..].
  destruct Hw as [Hw|Hw]; [by left|]. rw /= get_set in Hw. case_decide; [|by right].
  subst i. simpl in Hr. destruct Hb; congruence.
Qed.

(** A queue changes to one that is watched and whose events are pending. *)
Lemma desc_ok_queue e d j q :
  desc_ok e d → shutdown_ d = false → registered_events_ d ≠ 0 →
  (q ≠ [] → watches d j = true ∧ (ready j (kernel d) = true → pending e d j)) →
  desc_ok e (set_queue d j q).
Proof.
  intros [] Hs Hz Hq. split.
  - simpl. congruence.
  - intros _. specialize (ok_registered0 Hs). revert ok_registered0. rw /registration /=.
    by rw (proj2 (Z.eqb_neq _ _) Hz).
  - intros i _. rw /= get_set. case_decide; [subst; intros; by apply Hq|by apply ok_watched0].
  - intros i _ Hw Hi Hr. destruct (decide (i = j)) as [->|Hij].
    + destruct (decide (q = [])) as [->|Hn]; [|by apply Hq].
      apply ok_pending0; [done| |done..]. right. destruct Hw as [Hw|Hw]; [|done].
      by rw /= get_set decide_True in Hw.
    + apply ok_pending0; [done| |done..]. destruct Hw as [Hw|Hw]; [|by right].
      left. by rw /= get_set decide_False in Hw.
Qed.

Lemma registered_nonzero e d j :
  desc_ok e d → shutdown_ d = false → get (op_queue_ d) j ≠ [] → registered_events_ d ≠ 0.
Proof.
  intros Hd Hs Hq Hz. pose proof (ok_registered _ _ Hd Hs) as Hr. rw /registration Hz /= in Hr.
  destruct Hr as [_ Hr]. by rw Hr get_all in Hq.
Qed.

Lemma registered_cases e d :
  desc_ok e d → shutdown_ d = false → registered_events_ d ≠ 0 →
  watched d = Some (registered_events_ d) ∧
  (registered_events_ d = base_events ∨ registered_events_ d = Z.lor base_events EPOLLOUT).
Proof.
  intros Hd Hs Hz. pose proof (ok_registered _ _ Hd Hs) as Hr. revert Hr. rw /registration.
  by rw (proj2 (Z.eqb_neq _ _) Hz).
Qed.

(** A renewed registration reports what is ready already. *)
Lemma watch_pending e d z j :
  ready j (kernel d) = true → has z (flag j) = true → pending e (epoll_watch d z) j.
Proof.
  intros Hr Hz. left. simpl. by rw (ready_events_has _ j z Hr Hz) orb_true_r.
Qed.

Lemma desc_ok_watch e d z :
  desc_ok e d → shutdown_ d = false → registered_events_ d ≠ 0 →
  z = Z.lor base_events EPOLLOUT ∨ z = registered_events_ d →
  desc_ok e (set_registered (epoll_watch d z) z).
Proof.
  intros Hd Hs Hz Hc. destruct (registered_cases _ _ Hd Hs Hz) as [Hw Hr].
  assert (z = base_events ∨ z = Z.lor base_events EPOLLOUT) as Hz' by (destruct Hc as [-> | ->]; auto).
  split.
  - simpl. congruence.
  - intros _. rw /registration /=. destruct Hz' as [-> | ->]; simpl; auto.
  - intros j _ Hq. rw /watches /=. destruct (base_watches j z Hz') as [|[-> ->]]; [done|].
    pose proof (ok_watched _ _ Hd write_op Hs Hq) as Ho. rw /watches Hw in Ho.
    destruct Hc as [Hc|Hc]; [done|by rw Hc].
  - intros j _ _ Hj Hready. eapply (watch_pending e d z j); done.
Qed.

(** The two ways in which [start_op] makes sure that a first operation is watched. *)
Lemma desc_ok_wait e d j o :
  desc_ok e d → shutdown_ d = false → watches d j = true → registered_events_ d ≠ 0 →
  (ready j (kernel d) = true → pending e d j) →
  desc_ok e (set_queue d j (get (op_queue_ d) j ++ [o])).
Proof. intros. by apply desc_ok_queue. Qed.

Lemma desc_ok_rearm e d j o z :
  desc_ok e d → shutdown_ d = false → registered_events_ d ≠ 0 →
  z = (if bool_decide (j = write_op) then Z.lor base_events EPOLLOUT else registered_events_ d) →
  let d' := set_registered (epoll_watch d z) z in
  desc_ok e (set_queue d' j (get (op_queue_ d') j ++ [o])).
Proof.
  intros Hd Hs Hz Hc d'.
  destruct (registered_cases _ _ Hd Hs Hz) as [Hw Hr].
  assert (has z (flag j) = true) as Hf.
  { subst z. destruct j; simpl; [|done|]; destruct Hr as [-> | ->]; done. }
  apply desc_ok_wait; [|done|done| |].
  - apply desc_ok_watch; [done..|]. destruct (bool_decide _); auto.
  - simpl. subst z. case_bool_decide; done.
  - intros Hready. by eapply (watch_pending e d z j).
Qed.

Lemma registered_out e d :
  desc_ok e d → shutdown_ d = false → registered_events_ d ≠ 0 →
  Z.lor (registered_events_ d) EPOLLOUT = Z.lor base_events EPOLLOUT.
Proof. intros Hd Hs Hz. by destruct (registered_cases _ _ Hd Hs Hz) as [_ [-> | ->]]. Qed.

Lemma epoll_mod_watch e d z :
  desc_ok e d → shutdown_ d = false → registered_events_ d ≠ 0 → epoll_mod d z = epoll_watch d z.
Proof. intros Hd Hs Hz. destruct (registered_cases _ _ Hd Hs Hz) as [Hw _]. by rw /epoll_mod Hw. Qed.

Lemma perform_ok e d j o st k :
  desc_ok e d → perform j o (kernel d) = (st, k) →
  desc_ok e (set_kernel d k) ∧ (st ≠ done → ready j k = false).
Proof.
  intros Hd Hp. split; [apply desc_ok_kernel; [done|]; intros i; by eapply perform_quiet|].
  destruct st; intros Hn; [by eapply not_done_blocked|done|by eapply exhausted_blocked].
Qed.

(** The speculative path of [start_op] after the attempt. *)
Lemma start_blocked_ok e d j o d' r :
  desc_ok e d → shutdown_ d = false →
  (watches d j = true → ready j (kernel d) = true → pending e d j) →
  (if registered_events_ d =? 0 then (d, Some operation_not_supported)
   else if bool_decide (j = write_op) && negb (has (registered_events_ d) EPOLLOUT) then
     let d' := set_registered (epoll_mod d (Z.lor (registered_events_ d) EPOLLOUT))
                 (Z.lor (registered_events_ d) (Z.lor (registered_events_ d) EPOLLOUT)) in
     (set_queue d' j (get (op_queue_ d') j ++ [o]), None)
   else (set_queue d j (get (op_queue_ d) j ++ [o]), None)) = (d', r) →
  desc_ok e d'.
Proof.
  intros Hd Hs Hp. destruct (Z.eqb_spec (registered_events_ d) 0) as [|Hz]; [by intros [= <-]|].
  rw (registered_out _ _ Hd Hs Hz) (epoll_mod_watch _ _ _ Hd Hs Hz).
  destruct (registered_cases _ _ Hd Hs Hz) as [Hw Hr].
  destruct (bool_decide (j = write_op) && negb (has (registered_events_ d) EPOLLOUT)) eqn:E.
  - apply andb_true_iff in E as [Ej _]. intros [= <- _].
    replace (Z.lor (registered_events_ d) (Z.lor base_events EPOLLOUT)) with (Z.lor base_events EPOLLOUT)
      by (destruct Hr as [-> | ->]; done).
    apply desc_ok_rearm; [done..|]. by rw Ej.
  - intros [= <- _].
    assert (watches d j = true) as Hj.
    { rw /watches Hw. destruct (base_watches j _ Hr) as [|[-> Hb]]; [done|]. rw Hb in E. done. }
    apply desc_ok_wait; auto.
Qed.

Lemma start_op_ok e d j o spec d' r :
  desc_ok e d → start_op d j o spec true = (d', r) → desc_ok e d'.
Proof.
  intros Hd. rw /start_op. destruct (shutdown_ d) eqn:Hs; [by intros [= <- _]|].
  case_bool_decide as Hq; simpl.
  2:{ intros [= <- _]. apply desc_ok_wait; [done..|by eapply ok_watched|by eapply registered_nonzero|].
      intros Hr. eapply ok_pending; [done..|by left|by eapply ok_watched|done]. }
  destruct (spec && _).
  - destruct (get (try_speculative_ d) j) eqn:Ht.
    + destruct (perform j o (kernel d)) as [st k] eqn:Hp. destruct (perform_ok _ _ _ _ _ _ Hd Hp) as [Hk Hb].
      destruct (decide (st ≠ not_done)) as [Hn|Hn].
      * intros [= <- _]. case_match eqn:E; [|done].
        apply andb_true_iff in E as [E _]. apply bool_decide_eq_true in E. subst.
        apply desc_ok_speculative; [done|right; by apply Hb].
      * apply (start_blocked_ok e (set_kernel d k) j o); [done..|]. intros _ Hr.
        apply dec_stable in Hn. rw Hb // Hn // in Hr.
    + apply (start_blocked_ok e d j o); [done..|].
      intros Hw Hr. eapply ok_pending; [done..|by right|done|done].
  - destruct (Z.eqb_spec (registered_events_ d) 0) as [|Hz]; [by intros [= <- _]|]. intros [= <- _].
    destruct (registered_cases _ _ Hd Hs Hz) as [Hw _]. rw /epoll_mod.
    destruct (bool_decide (j = write_op)) eqn:Ej; simpl; rw Hw.
    + rw (registered_out _ _ Hd Hs Hz). apply (desc_ok_rearm e d j o); [done..|by rw Ej].
    + apply (desc_ok_rearm e d j o (registered_events_ d)); [done..|by rw Ej].
Qed.

Lemma cancel_ok e d d' l : desc_ok e d → cancel_ops d = (d', l) → desc_ok e d'.
Proof.
  intros Hd [= <- _]. split; simpl.
  - done.
  - intros Hs. pose proof (ok_registered _ _ Hd Hs) as Hr. revert Hr. rw /registration /=.
    case_match; naive_solver.
  - intros j _. by rw get_all.
  - intros j Hs [Hw|Hw] Hj Hr; [by rw /= get_all in Hw|]. apply (ok_pending _ _ Hd j Hs); [by right|done..].
Qed.

Lemma shut_ok e (d : descriptor_state) : shutdown_ d = true → op_queue_ d = all_of [] → desc_ok e d.
Proof. intros Hs Hq. split; [done|congruence..]. Qed.

Lemma deregister_ok e d closing d' l :
  desc_ok e d → deregister_descriptor d closing = (d', l) → desc_ok e d'.
Proof.
  intros Hd. rw /deregister_descriptor. destruct (shutdown_ d) eqn:Hs; intros [= <- _]; [done|by apply shut_ok].
Qed.

(** After the loop of [perform_io] the socket is blocked or the queue is empty. *)
Lemma perform_queue_blocked j q k ops rest k' b :
  perform_queue j q k true = (ops, rest, k', b) →
  (∀ i, ready i k' = true → ready i k = true) ∧ (rest ≠ [] ∨ b = false → ready j k' = false).
Proof.
  revert k ops rest. induction q as [|o q IH]; intros k ops rest; simpl; [intros [= <- <- <- <-]; naive_solver|].
  destruct (perform j o k) as [[] k0] eqn:Hp; intros Hq.
  - simplify_eq. split; [intros i; by eapply perform_quiet|intros _; by eapply not_done_blocked].
  - destruct (perform_queue j q k0 true) as [[[ops1 rest1] k1] b1] eqn:E. simplify_eq.
    destruct (IH _ _ _ E) as [IH1 IH2]. split; [|done].
    intros i Hi. eapply perform_quiet; [done|by apply IH1].
  - simplify_eq. split; [intros i; by eapply perform_quiet|intros _; by eapply exhausted_blocked].
Qed.

Lemma perform_type_ok (e e' : op_type → Prop) events j d d' l :
  desc_ok e d → (∀ i, e i → e' i ∨ i = j ∧ has events (mask i) = true) →
  perform_type events j d = (d', l) → desc_ok e' d'.
Proof.
  intros Hd He. rw /perform_type -/(mask j). destruct (has events (mask j)) eqn:Hm.
  2:{ intros [= <- _]. apply (desc_ok_mono e); [done|]. intros i Hi. right; left.
      destruct (He i Hi) as [|[-> ?]]; [done|congruence]. }
  destruct (perform_queue j (get (op_queue_ d) j) (kernel d) true) as [[[ops rest] k] b] eqn:Hq.
  intros [= <- _]. pose proof (perform_queue_split _ _ _ _ _ _ _ _ Hq) as Hsplit.
  apply perform_queue_blocked in Hq as [Hk Hb].
  destruct (shutdown_ d) eqn:Hs.
  { apply shut_ok; [done|]. pose proof (ok_shut _ _ Hd Hs) as Hn. simpl. rw Hn in Hsplit |- *.
    destruct j; simpl in *; by destruct ops, rest. }
  split; simpl.
  - congruence.
  - intros _. pose proof (ok_registered _ _ Hd Hs) as Hr. revert Hr. rw /registration /=. case_match; [|done].
    intros [? Hn]. split; [done|]. rw Hn in Hsplit |- *. destruct j; simpl in *; by destruct ops, rest.
  - intros i _. rw get_set. case_decide as Hi; [|by apply (ok_watched _ _ Hd)]. subst i. intros Hrest.
    apply (ok_watched _ _ Hd j Hs). rw Hsplit. by destruct ops, rest.
  - intros i _ Hw Hi Hr. destruct (decide (i = j)) as [->|Hij].
    + rw Hb // in Hr. destruct Hw as [Hw|Hw]; [left|right]; by rw /= get_set decide_True in Hw.
    + apply (pending_mono e); [|intros Hei; destruct (He i Hei) as [|[? ?]]; [right; by left|done]].
      apply (ok_pending _ _ Hd i Hs); [|done|by apply Hk].
      destruct Hw as [Hw|Hw]; [left|right]; by rw /= get_set decide_False in Hw.
Qed.

Lemma perform_io_ok (e : op_type → Prop) d l events l' d' ops :
  desc_ok e d → taken d = l ++ events :: l' →
  perform_io (set_taken d (l ++ l')) events = (d', ops) → desc_ok e d'.
Proof.
  intros Hd Ht. rw /perform_io.
  destruct (perform_type _ except_op _) as [d2 l2] eqn:E2. destruct (perform_type _ write_op _) as [d1 l1] eqn:E1.
  destruct (perform_type _ read_op _) as [d0 l0] eqn:E0. intros [= <- _].
  assert (desc_ok (λ i, e i ∨ has events (mask i) = true) (set_taken d (l ++ l'))) as Hd'.
  { destruct Hd as [? ? ? Hp]. split; [done..|]. intros i Hs Hw Hi Hr.
    destruct (Hp i Hs Hw Hi Hr) as [Hg|[Hg|(z & Hz & Hm)]]; [by left|right; left; by left|].
    rw Ht in Hz. apply elem_of_app in Hz as [Hz|[->|Hz]%elem_of_cons].
    - right; right. exists z. split; [|done]. apply elem_of_app; by left.
    - right; left. by right.
    - right; right. exists z. split; [|done]. apply elem_of_app; by right. }
  refine (perform_type_ok (λ i, e i ∨ i = read_op ∧ has events (mask i) = true) _ _ _ _ _ _ _ _ E0); [|naive_solver].
  refine (perform_type_ok (λ i, e i ∨ i ≠ except_op ∧ has events (mask i) = true) _ _ _ _ _ _ _ _ E1);
    [|intros []; naive_solver].
  refine (perform_type_ok _ _ _ _ _ _ _ Hd' _ E2). intros []; naive_solver.
Qed.

(** The descriptor is in a queue, with its events in [task_result_]. *)
Definition enqueued (s : system) (i : nat) : Prop :=
  descriptor i ∈ queue s ∨ ∃ ops, in_run s = Some ops ∧ i ∈ ops.
Definition queued_event (s : system) (i : nat) (d : descriptor_state) (j : op_type) : Prop :=
  enqueued s i ∧ has (task_result_ d) (mask j) = true.

(** The reactor is queued behind all descriptors, or it runs and none is queued. *)
Definition queue_ok (s : system) : Prop :=
  match in_run s with
  | None => ∃ l, queue s = map descriptor l ++ [task_operation] ∧ ∀ i, i ∈ l → (i < length (descs s))%nat
  | Some ops => queue s = [] ∧ ∀ i, i ∈ ops → (i < length (descs s))%nat
  end.

Record event_inv (s : system) : Prop := {
  ev_desc i d : descs s !! i = Some d → desc_ok (queued_event s i d) d;
  ev_pool : NoDup (pool s);
  ev_free i : i ∈ pool s → ∃ d, descs s !! i = Some d ∧ shutdown_ d = true;
  ev_queue : queue_ok s;
}.

Lemma queue_ok_length s s' :
  queue_ok s → queue s' = queue s → in_run s' = in_run s → (length (descs s) ≤ length (descs s'))%nat →
  queue_ok s'.
Proof.
  rw /queue_ok. intros Hq -> -> Hl. case_match; [destruct Hq as [? Hq]|destruct Hq as (? & ? & Hq)]; eauto 6 using Nat.lt_le_trans.
Qed.

(** One descriptor changes, nothing else that matters here. *)
Lemma event_set_desc s s' i d d' :
  event_inv s → descs s !! i = Some d →
  descs s' = <[i := d']> (descs s) → pool s' = pool s → queue s' = queue s → in_run s' = in_run s →
  (shutdown_ d = true → shutdown_ d' = true) →
  (desc_ok (queued_event s i d) d → task_result_ d' = task_result_ d ∧ desc_ok (queued_event s i d) d') →
  event_inv s'.
Proof.
  intros Hi Hd Ed Ep Eq Er Hs Hok. destruct (Hok (ev_desc _ Hi _ _ Hd)) as [Ht Hd'].
  assert (∀ n, enqueued s n → enqueued s' n) as He by (intros n; by rw /enqueued Eq Er).
  pose proof (lookup_lt_Some _ _ _ Hd) as Hl.
  split.
  - intros n dn. rw Ed. intros [(<- & -> & _)|(Hn & Hdn)]%list_lookup_insert_Some.
    + eapply desc_ok_mono; [done|]. rw /queued_event Ht. intros j [? ?]. right; left. auto.
    + eapply desc_ok_mono; [by apply (ev_desc _ Hi)|]. intros j [? ?]. right; left. split; auto.
  - rw Ep. apply Hi.
  - intros n. rw Ep Ed. intros (dn & Hdn & Hsn)%(ev_free _ Hi). destruct (decide (n = i)) as [->|Hn].
    + exists d'. rw list_lookup_insert_eq //. simplify_eq. auto.
    + exists dn. by rw list_lookup_insert_ne.
  - eapply queue_ok_length; [apply Hi|done|done|]. by rw Ed length_insert.
Qed.

(** The operations on their way to a handler do not matter here. *)
Lemma event_frame s s' :
  event_inv s → descs s' = descs s ∧ pool s' = pool s ∧ queue s' = queue s ∧ in_run s' = in_run s → event_inv s'.
Proof.
  intros [Hd Hp Hf Hq] (Ed & Ep & Eq & Er). split; rw ?Ed ?Ep; [|done|done|].
  - intros i d Hi. eapply desc_ok_mono; [by apply Hd|]. intros j [He Hm]. right; left. split; [|done].
    revert He. by rw /enqueued Eq Er.
  - revert Hq. by rw /queue_ok Ed Eq Er.
Qed.

Lemma start_op_result (d : descriptor_state) j o spec ok d' r :
  start_op d j o spec ok = (d', r) → task_result_ d' = task_result_ d ∧ shutdown_ d' = shutdown_ d.
Proof.
  rw /start_op /epoll_mod. intros Hs. repeat case_match; simplify_eq; done.
Qed.

Lemma perform_type_result events j (d d' : descriptor_state) l :
  perform_type events j d = (d', l) → task_result_ d' = task_result_ d ∧ shutdown_ d' = shutdown_ d ∧
  signalled d' = signalled d ∧ taken d' = taken d.
Proof. rw /perform_type. intros Hp. by repeat case_match; simplify_eq. Qed.

Lemma perform_io_result events (d d' : descriptor_state) l :
  perform_io d events = (d', l) → task_result_ d' = task_result_ d ∧ shutdown_ d' = shutdown_ d ∧
  signalled d' = signalled d ∧ taken d' = taken d.
Proof.
  rw /perform_io. intros Hp. repeat case_match; simplify_eq.
  repeat match goal with E : perform_type _ _ _ = _ |- _ => apply perform_type_result in E end. intuition congruence.
Qed.

Lemma deregister_result (d : descriptor_state) closing d' l :
  deregister_descriptor d closing = (d', l) →
  task_result_ d' = task_result_ d ∧ (shutdown_ d = true → shutdown_ d' = true).
Proof. rw /deregister_descriptor /epoll_del. intros Hp. by repeat case_match; simplify_eq. Qed.

Lemma event_register s k r : event_inv s → event_inv (reactor_register s k r).
Proof.
  intros Hi. rw /reactor_register. destruct (pool s) as [|i p] eqn:Ep.
  - destruct (register_descriptor _ k r) as [d' ok] eqn:Hr. split; simpl.
    + intros n d [Hn|[_ Hn]]%lookup_app_Some; [by apply (ev_desc _ Hi)|].
      destruct (n - _)%nat; simplify_eq/=. destruct ok; [by eapply register_ok; [|exact Hr]|by apply shut_ok].
    + constructor.
    + intros n Hn. by apply elem_of_nil in Hn.
    + eapply queue_ok_length; [apply Hi|done..|]. rw /= length_app. lia.
  - destruct (ev_free _ Hi i) as (d & Hd & Hs); [rw Ep; by left|]. rw Hd.
    pose proof (ev_pool _ Hi) as Hnd. rw Ep in Hnd. inversion Hnd as [|? ? Hn Hnd']; subst.
    destruct (register_descriptor d k r) as [d' ok] eqn:Hr. pose proof (lookup_lt_Some _ _ _ Hd) as Hl.
    assert (op_queue_ d = all_of []) as Hq by (by apply (ev_desc _ Hi _ _ Hd)).
    destruct ok; (split; simpl; [|done| |]).
    + intros n dn [(<- & -> & _)|(Hni & Hdn)]%list_lookup_insert_Some; [by eapply register_ok; [|exact Hr]|by apply (ev_desc _ Hi)].
    + intros n Hin. destruct (ev_free _ Hi n) as (dn & Hdn & Hsn); [rw Ep; by right|].
      exists dn. rw list_lookup_insert_ne; [by intros ->|done].
    + eapply queue_ok_length; [apply Hi|done..|]. by rw /= length_insert.
    + apply (ev_desc _ Hi).
    + intros n Hin. apply (ev_free _ Hi). rw Ep. by right.
    + by eapply queue_ok_length; [apply Hi|..].
Qed.

Lemma event_shutdown s : event_inv s → event_inv (reactor_shutdown s).
Proof.
  intros Hi. split; simpl.
  - intros n d. rw list_lookup_fmap. intros (? & _ & ->)%fmap_Some. by apply shut_ok.
  - apply NoDup_ListNoDup, seq_NoDup.
  - intros n Hn%elem_of_seq. destruct (lookup_lt_is_Some_2 (descs s) n) as [d Hd]; [lia|].
    eexists. by rw list_lookup_fmap Hd.
  - eapply queue_ok_length; [apply Hi|done..|]. by rw /= length_map.
Qed.

(** What [epoll_wait] takes from its list is in the events it returns. *)
Lemma report_ok (e e' : op_type → Prop) d events b :
  desc_ok e d → covers d events → (∀ j, e j → e' j) → (∀ j, has events (flag j) = true → e' j) →
  desc_ok e' (report d events b).
Proof.
  intros [? ? Hwatch Hp] Hc He Hev. split; [done..|]. intros j Hs Hw Hj Hr.
  right. destruct (Hp j Hs Hw Hj Hr) as [_|[Hx|Hx]]; [left; auto|left; auto|by right].
Qed.

Lemma event_report s ops i d events :
  event_inv s → in_run s = Some ops → descs s !! i = Some d → covers d events →
  event_inv (reactor_report s ops i d events).
Proof.
  intros Hi Hr Hd Hc. pose proof (ev_queue _ Hi) as Hq. rw /queue_ok Hr in Hq. destruct Hq as [Hq Hlt].
  pose proof (lookup_lt_Some _ _ _ Hd) as Hl.
  assert (is_enqueued s ops i = bool_decide (i ∈ ops)) as Eb.
  { rw /is_enqueued Hq orb_false_r //. }
  rw /reactor_report Eb. set (ops' := if bool_decide (i ∈ ops) then ops else ops ++ [i]).
  assert (∀ n, n ∈ ops' ↔ n ∈ ops ∨ n = i) as Hops.
  { intros n. rw /ops'. case_bool_decide; [|rw elem_of_app list_elem_of_singleton]; naive_solver. }
  split; simpl.
  - intros n dn [(<- & <- & _)|(Hni & Hdn)]%list_lookup_insert_Some.
    + eapply report_ok; [by apply (ev_desc _ Hi)|done| |].
      * intros j [[Hx|(o & Ho & Hx)] Hm]; [rw Hq in Hx; by apply elem_of_nil in Hx|]. simplify_eq.
        split; [right; exists ops'; split; [done|apply Hops; by left]|]. simpl.
        rw bool_decide_true // has_lor Hm //.
      * intros j Hj%has_mask. split; [right; exists ops'; split; [done|apply Hops; by right]|]. simpl.
        case_bool_decide; [by rw has_lor Hj orb_true_r|done].
    + eapply desc_ok_mono; [by apply (ev_desc _ Hi)|].
      intros j [[Hx|(o & Ho & Hx)] Hm]; [rw Hq in Hx; by apply elem_of_nil in Hx|]. simplify_eq.
      right; left. split; [|done]. right. exists ops'. split; [done|apply Hops; by left].
  - apply Hi.
  - intros n (dn & Hdn & Hsn)%(ev_free _ Hi). destruct (decide (n = i)) as [->|Hn].
    + eexists. split; [by apply list_lookup_insert_eq|]. simplify_eq. done.
    + exists dn. by rw list_lookup_insert_ne.
  - rw /queue_ok /= length_insert. split; [done|]. intros n [?| ->]%Hops; auto.
Qed.

Lemma event_task_begin s q :
  event_inv s → queue s = task_operation :: q → in_run s = None → event_inv (set_run s q (Some [])).
Proof.
  intros Hi Hq Hr. pose proof (ev_queue _ Hi) as Ho. rw /queue_ok Hr in Ho. destruct Ho as (l & Hl & Hlt).
  rw Hq in Hl. destruct l as [|n l]; simplify_eq/=.
  split; [|apply Hi|apply Hi|split; [done|]; by intros i Hn%elem_of_nil].
  intros i d Hd. eapply desc_ok_mono; [by apply (ev_desc _ Hi)|].
  intros j [[Hx|(? & Hx & _)] _]; [|congruence]. rw Hq in Hx. by apply list_elem_of_singleton in Hx.
Qed.

Lemma event_task_end s ops :
  event_inv s → in_run s = Some ops →
  event_inv (set_run s (queue s ++ map descriptor ops ++ [task_operation]) None).
Proof.
  intros Hi Hr. pose proof (ev_queue _ Hi) as Ho. rw /queue_ok Hr in Ho. destruct Ho as [Hq Hlt]. rw Hq /=.
  split; [|apply Hi|apply Hi|by exists ops].
  intros i d Hd. eapply desc_ok_mono; [by apply (ev_desc _ Hi)|].
  intros j [[Hx|(ops' & Hx & Ho)] Hm]; [rw Hq in Hx; by apply elem_of_nil in Hx|].
  simplify_eq. right; left. split; [left|done]. apply elem_of_app. left. by apply list_elem_of_fmap_2.
Qed.

Lemma take_ok (e e' : op_type → Prop) d :
  desc_ok e d → (∀ j, e j → e' j ∨ has (task_result_ d) (mask j) = true) →
  desc_ok e' (set_taken d (taken d ++ [task_result_ d])).
Proof.
  intros [? ? ? Hp] He. split; [done..|]. intros j Hs Hw Hj Hr.
  destruct (Hp j Hs Hw Hj Hr) as [Hx|[Hx|(z & Hz & Hm)]]; [by left| |].
  - destruct (He j Hx); [by right; left|]. right; right. eexists. split; [|done]. set_solver.
  - right; right. exists z. split; [|done]. set_solver.
Qed.

Lemma event_take s i q d :
  event_inv s → queue s = descriptor i :: q → descs s !! i = Some d →
  event_inv (set_run (set_desc s i (set_taken d (taken d ++ [task_result_ d]))) q (in_run s)).
Proof.
  intros Hi Hq Hd. pose proof (lookup_lt_Some _ _ _ Hd) as Hl.
  pose proof (ev_queue _ Hi) as Ho. rw /queue_ok in Ho. destruct (in_run s) as [ops|] eqn:Hr; [destruct Ho; congruence|].
  destruct Ho as (l & Hl' & Hlt). rw Hq in Hl'. destruct l as [|n l]; simplify_eq/=.
  split; simpl.
  - intros m dm [(<- & <- & _)|(Hni & Hdn)]%list_lookup_insert_Some.
    + eapply take_ok; [by apply (ev_desc _ Hi)|]. intros j [_ Hm]. by right.
    + eapply desc_ok_mono; [by apply (ev_desc _ Hi)|].
      intros j [[Hx|(? & Hx & _)] Hm]; [|congruence]. right; left. split; [left|done].
      rw Hq in Hx. apply elem_of_cons in Hx as [Hx|Hx]; [congruence|done].
  - apply Hi.
  - intros m (dm & Hdm & Hsm)%(ev_free _ Hi). destruct (decide (m = n)) as [->|Hn].
    + eexists. split; [by apply list_lookup_insert_eq|]. by simplify_eq.
    + exists dm. by rw list_lookup_insert_ne.
  - exists l. rw length_insert. split; [done|]. intros m Hm. apply Hlt. by right.
Qed.

Lemma network_ok e d k b : desc_ok e d → noticed d k b → desc_ok e (set_network d k b).
Proof.
  intros [? ? ? Hp] [Hb Hn]. split; [done..|]. intros j Hs Hw Hj Hr.
  destruct (ready j (kernel d)) eqn:Hk; [|left; by eapply Hn].
  destruct (Hp j Hs Hw Hj Hk) as [Hx|Hx]; [left; by apply Hb|by right].
Qed.

Lemma event_start s c i j o cont spec :
  event_inv s → event_inv (reactor_start_op (log_started s o) c i j o cont spec true).
Proof.
  intros Hi. destruct i as [i|]; simpl; [|eapply event_frame; [|apply post_immediate_rest]; by destruct Hi].
  destruct (descs s !! i) as [d|] eqn:Hd; [|by destruct Hi].
  destruct (start_op d j o spec true) as [d' r] eqn:E.
  destruct (start_op_result _ _ _ _ _ _ _ E) as [Et Es].
  assert (event_inv (set_desc (log_started s o) i d')) as Hi'.
  { eapply (event_set_desc s _ i d d'); [done..|congruence|eauto using start_op_ok]. }
  destruct r; [eapply event_frame; [exact Hi'|apply post_immediate_rest]|by destruct Hi'].
Qed.

Lemma event_internal s s' : event_inv s → reactor_internal s s' → event_inv s'.
Proof.
  intros Hi [q Hq Hr|ops i d ev Hr Hd _ Hc|ops Hr|i q d Hq Hd|i d l ev l' Hd Ht].
  - by apply event_task_begin.
  - by apply event_report.
  - by apply event_task_end.
  - by apply event_take.
  - rw /reactor_perform_io. destruct (perform_io _ ev) as [d' ops] eqn:E.
    destruct (perform_io_result _ _ _ _ E) as (Et & Es & _).
    assert (event_inv (set_desc s i d')) as Hi'.
    { eapply (event_set_desc s _ i d d'); [done..|by rw Es|]; intros; split; [done|by eapply perform_io_ok]. }
    destruct ops; [|simpl; destruct (one_thread_ s)]; by destruct Hi'.
Qed.

Lemma event_step s s' : event_inv s → reactor_step true s s' → event_inv s'.
Proof.
  intros Hi [k r _|c i j o cont spec ok _ Hok|c i _|c i closing _|i d _ Hp Hd Hs|i d k b Hd Hn|ops i d ev Hr Hd Hc| | |_|s1 Hs].
  - by apply event_register.
  - rw Hok //. by apply event_start.
  - rw /reactor_cancel. destruct (descs s !! i) as [d|] eqn:Hd; [|done].
    destruct (cancel_ops d) as [d' l] eqn:E. eapply event_frame; [|apply post_deferred_rest].
    eapply (event_set_desc s _ i d d'); [done..| |]; injection E as <- <-; [done|].
    intros. split; [done|by eapply cancel_ok].
  - rw /reactor_deregister. destruct (descs s !! i) as [d|] eqn:Hd; [|done].
    destruct (deregister_descriptor d closing) as [d' l] eqn:E.
    destruct (deregister_result _ _ _ _ E) as [Et Es]. eapply event_frame; [|apply post_deferred_rest].
    eapply (event_set_desc s _ i d d'); [done..|]. eauto using deregister_ok.
  - split; [apply Hi| |intros n [->|Hn]%elem_of_cons; [eauto|by apply Hi]|apply Hi].
    constructor; [done|apply Hi].
  - eapply (event_set_desc s _ i d); [done..|]. eauto using network_ok.
  - by apply event_report.
  - by destruct Hi.
  - by destruct Hi.
  - by apply event_shutdown.
  - by eapply event_internal.
Qed.

Lemma event_new b : event_inv (@new_system K b).
Proof.
  split; simpl; [done|constructor|by intros i Hi%elem_of_nil|]. exists []. split; [done|]. by intros i Hi%elem_of_nil.
Qed.

Lemma reachable_event s : reactor_reachable true s → event_inv s.
Proof. induction 1; eauto using event_new, event_step. Qed.

(** ** The reactor settles *)

Definition desc_weight (d : descriptor_state) : nat := 20 * Nat.b2n (signalled d) + length (taken d).
Definition run_weight (s : system) : nat :=
  match in_run s with None => 1 + 2 * length (queue s) | Some ops => 10 * length ops end.
Definition reactor_measure (s : system) : nat := sum_list_with desc_weight (descs s) + run_weight s.

Lemma sum_insert (l : list descriptor_state) i d d' :
  l !! i = Some d →
  (sum_list_with desc_weight (<[i := d']> l) + desc_weight d = sum_list_with desc_weight l + desc_weight d')%nat.
Proof.
  intros Hi. rw -{2}(take_drop_middle l i d Hi) (insert_take_drop l i d' (lookup_lt_Some _ _ _ Hi)).
  rw !sum_list_with_app /=. lia.
Qed.

(** Nothing is on its way. *)
Definition settled (s : system) : Prop :=
  (∀ i d, descs s !! i = Some d → signalled d = false ∧ taken d = []) ∧ ∀ i, ¬ enqueued s i.

Lemma settled_blocked s i d j :
  event_inv s → settled s → descs s !! i = Some d → get (op_queue_ d) j ≠ [] → ready j (kernel d) = false.
Proof.
  intros Hi [Hq He] Hd Hn. destruct (ready j (kernel d)) eqn:Hr; [|done]. exfalso.
  pose proof (ev_desc _ Hi _ _ Hd) as Hok.
  destruct (shutdown_ d) eqn:Hs; [by rw (ok_shut _ _ Hok Hs) get_all in Hn|].
  destruct (Hq _ _ Hd) as [Hg Ht].
  destruct (ok_pending _ _ Hok j Hs) as [Hx|[[Hx _]|(z & Hx & _)]];
    [by left|by eapply ok_watched|done|congruence|by eapply He|]. rw Ht in Hx. by apply elem_of_nil in Hx.
Qed.

Lemma covers_all d : covers d (ready_events (kernel d)).
Proof. intros j _ Hr. by apply (ready_events_has _ j); [|destruct j]. Qed.

(** A step of the threads that run the scheduler, other than that [epoll_wait] returns nothing:
    without handlers to run it waits for an event. *)
Definition reactor_busy (s s' : system) : Prop :=
  reactor_internal s s' ∧ (in_run s = Some [] → in_run s' ≠ None).

Lemma perform_io_run s i d events : in_run (reactor_perform_io s i d events) = in_run s.
Proof. rw /reactor_perform_io. by repeat case_match. Qed.

Lemma perform_decreases s i d l z l' :
  descs s !! i = Some d → taken d = l ++ z :: l' →
  (reactor_measure (reactor_perform_io s i (set_taken d (l ++ l')) z) < reactor_measure s)%nat.
Proof.
  intros Hd Ht. pose proof (perform_io_run s i (set_taken d (l ++ l')) z) as Hr. revert Hr.
  rw /reactor_perform_io. destruct (perform_io _ z) as [d' ops] eqn:Ep.
  destruct (perform_io_result _ _ _ _ Ep) as (_ & _ & Eg & Et). simpl in Eg, Et.
  pose proof (sum_insert _ _ _ d' Hd) as Hs.
  assert (desc_weight d = S (desc_weight d')) by (rw /desc_weight Eg Et Ht !length_app /=; lia).
  destruct ops; [|simpl; destruct (one_thread_ s)]; rw /reactor_measure /run_weight /=; intros _; lia.
Qed.

Lemma take_decreases s i q d :
  event_inv s → queue s = descriptor i :: q → descs s !! i = Some d →
  (reactor_measure (set_run (set_desc s i (set_taken d (taken d ++ [task_result_ d]))) q (in_run s)) <
   reactor_measure s)%nat.
Proof.
  intros Hi Hq Hd. pose proof (ev_queue _ Hi) as Ho. rw /queue_ok in Ho.
  destruct (in_run s) as [ops|] eqn:Hr; [destruct Ho; congruence|].
  pose proof (sum_insert _ _ _ (set_taken d (taken d ++ [task_result_ d])) Hd) as Hs.
  assert (desc_weight (set_taken d (taken d ++ [task_result_ d])) = S (desc_weight d))
    by (rw /desc_weight /= length_app /=; lia).
  rw /reactor_measure /run_weight /= Hr Hq /=. lia.
Qed.

Lemma report_decreases s ops i d events :
  in_run s = Some ops → descs s !! i = Some d → signalled d = true →
  (reactor_measure (reactor_report s ops i d events) < reactor_measure s)%nat.
Proof.
  intros Hr Hd Hg. rw /reactor_report. set (b := is_enqueued _ _ _). set (d' := report _ _ _).
  pose proof (sum_insert _ _ _ d' Hd) as Hs.
  assert (desc_weight d = 20 + desc_weight d')%nat by (rw /desc_weight Hg /=; lia).
  rw /reactor_measure /run_weight /= Hr. destruct b; rw ?length_app /=; lia.
Qed.

Lemma busy_decreases s s' :
  event_inv s → reactor_busy s s' → (reactor_measure s' < reactor_measure s)%nat.
Proof.
  intros Hi [[q Hq Hr|ops i d events Hr Hd Hg _|ops Hr|i q d Hq Hd|i d l z l' Hd Ht] Hb].
  - rw /reactor_measure /run_weight /= Hr. lia.
  - by apply report_decreases.
  - pose proof (ev_queue _ Hi) as Ho. rw /queue_ok Hr in Ho. destruct Ho as [Hq _].
    destruct ops as [|n l]; [by destruct (Hb Hr)|].
    rw /reactor_measure /run_weight /= Hr Hq /= length_app length_map /=. lia.
  - by apply take_decreases.
  - by apply perform_decreases.
Qed.

Lemma busy_sn s : event_inv s → sn reactor_busy s.
Proof.
  induction s as [s IH] using (well_founded_induction (well_founded_ltof _ reactor_measure)). intros Hi.
  constructor. intros s' Hs. apply IH; [by apply busy_decreases|]. destruct Hs. by eapply event_internal.
Qed.

(** The threads have nothing to do: one of them waits in [epoll_wait], and nothing is on its way. *)
Lemma busy_end s : event_inv s → nf reactor_busy s → in_run s = Some [] ∧ settled s.
Proof.
  intros Hi Hn. pose proof (ev_queue _ Hi) as Ho. rw /queue_ok in Ho.
  assert (∀ i d, descs s !! i = Some d → taken d = []) as Ht.
  { intros i d Hd. destruct (taken d) as [|z l] eqn:E; [done|]. destruct Hn.
    exists (reactor_perform_io s i (set_taken d l) z). split; [by apply (do_perform_io s i d [] z l)|].
    rw perform_io_run. congruence. }
  destruct (in_run s) as [ops|] eqn:Hr.
  2:{ destruct Ho as ([|n l] & Hl & Hlt); destruct Hn.
      - exists (set_run s [] (Some [])). by split; [apply task_begin|].
      - destruct (lookup_lt_is_Some_2 (descs s) n) as [d Hd]; [apply Hlt; by left|].
        eexists. split; [eapply (take_descriptor s n); [exact Hl|exact Hd]|]. congruence. }
  destruct ops as [|n l].
  2:{ destruct Hn. eexists. split; [by apply (task_end s (n :: l) Hr)|]. congruence. }
  split; [done|]. split.
  - intros i d Hd. split; [|by eapply Ht]. destruct (signalled d) eqn:Hg; [|done]. destruct Hn.
    exists (reactor_report s [] i d (ready_events (kernel d))). split; [|done].
    apply task_report; [done..|apply covers_all].
  - intros i [Hx|(ops & Hx & Hx')]; [destruct Ho as [Ho _]; rw Ho in Hx|]; set_solver.
Qed.

(** No readiness is lost: an operation that waits while its socket is ready has an event on its
    way. *)
Lemma no_lost_event (s : system) (i : nat) (d : descriptor_state) (j : op_type) :
  reactor_reachable true s → descs s !! i = Some d →
  get (op_queue_ d) j ≠ [] → ready j (kernel d) = true →
  pending (queued_event s i d) d j.
Proof.
  intros Hi%reachable_event Hd Hq Hr. pose proof (ev_desc _ Hi _ _ Hd) as Hok.
  destruct (shutdown_ d) eqn:Hs; [by rw (ok_shut _ _ Hok Hs) get_all in Hq|].
  apply (ok_pending _ _ Hok j Hs); [by left|by eapply ok_watched|done].
Qed.

(** The threads come to rest, and then every operation that waits would block. *)
Lemma settles (s : system) :
  reactor_reachable true s →
  sn reactor_busy s ∧
  (nf reactor_busy s → in_run s = Some [] ∧
    ∀ i d j, descs s !! i = Some d → get (op_queue_ d) j ≠ [] → ready j (kernel d) = false).
Proof.
  intros Hi%reachable_event. split; [by apply busy_sn|]. intros Hn.
  destruct (busy_end s Hi Hn) as [Hr Hs]. split; [done|]. intros. by eapply settled_blocked.
Qed.

(** Steps of the threads lead to reachable states and start no operation. *)
Lemma busy_steps (s s' : system) :
  rtc reactor_busy s s' → reactor_reachable true s → reactor_reachable true s' ∧ started s' = started s.
Proof.
  induction 1 as [s|s s1 s' [Hs _] _ IH]; [done|]. intros Hr.
  destruct IH as [Hr' ->]; [eapply reactor_next; [done|by apply step_internal]|]. split; [done|].
  destruct Hs; try done. rw /reactor_perform_io. by repeat case_match.
Qed.
End events.
