(* ===== verification/ReactorSocket.v ===== *)
(** The operations that asio runs on sockets through the reactor: recv1, send1, accept and
    connect of extern/asio/asio/include/asio/detail/impl/socket_ops.ipp in their non-blocking
    form, the [do_perform] of reactive_socket_recv_op.hpp, reactive_socket_send_op.hpp,
    reactive_socket_accept_op.hpp, reactive_socket_connect_op.hpp and reactive_wait_op.hpp, and
    the entry points of reactive_socket_service_base.ipp.

    The system calls are an interface ([Socket]) with their documented behaviour as laws
    ([SocketSpec]); under them the operations are a [Kernel] as the reactor wants it. *)

From Stdlib Require Import ssreflect.
From stdpp Require Import list gmap relations.
From S2P Require Import Prelude OpQueue Reactor ReactorEvents.

Open Scope general_if_scope.
Open Scope Z_scope.

(** ** System calls *)

Definition EINTR : Z := 4.
Definition EAGAIN : Z := 11.
Definition EPROTO : Z := 71.
Definition ECONNABORTED : Z := 103.

(** What [asio::error_code] holds after a call: nothing, [error::eof], or [errno]. *)
Inductive error_code : Type := no_error | eof | system_error (e : Z).
#[export] Instance error_code_eq_decision : EqDecision error_code.
Proof. solve_decision. Defined.

(** [::recv] of a number of bytes, [::send], [::accept], [::poll] for [POLLOUT] with no timeout,
    and [getsockopt] of [SO_ERROR]; [inr] is a failure with [errno]. [sent_bytes] is what the
    socket has accepted for sending, [signals] bounds how often a call is interrupted, and
    [sock_ready] is [ready] of [Kernel]. *)
Class Socket (S : Type) := {
  sys_recv : nat → S → (list Z + Z) * S;
  sys_send : list Z → S → (nat + Z) * S;
  sys_accept : S → (nat + Z) * S;
  sys_poll_out : S → bool;
  sys_so_error : S → (Z + Z) * S;
  sent_bytes : S → list Z;
  signals : S → nat;
  sock_ready : op_type → S → bool;
}.

Class SocketSpec (S : Type) `{Socket S} := {
  recv_interrupted n s s' : sys_recv n s = (inr EINTR, s') → (signals s' < signals s)%nat;
  send_interrupted b s s' : sys_send b s = (inr EINTR, s') → (signals s' < signals s)%nat;
  accept_interrupted s s' : sys_accept s = (inr EINTR, s') → (signals s' < signals s)%nat;
  (** the end of the stream, [EAGAIN] and other errors leave nothing to report *)
  recv_end n s s' : (0 < n)%nat → sys_recv n s = (inl [], s') → sock_ready read_op s' = false;
  recv_failed n s e s' : e ≠ EINTR → sys_recv n s = (inr e, s') → sock_ready read_op s' = false;
  (** a write accepts a first part of the data, and a short write has filled the buffer *)
  send_count b s n s' : sys_send b s = (inl n, s') → (n ≤ length b)%nat ∧ (b ≠ [] → (0 < n)%nat);
  send_bytes b s n s' : sys_send b s = (inl n, s') → sent_bytes s' = sent_bytes s ++ take n b;
  send_nothing b s e s' : sys_send b s = (inr e, s') → sent_bytes s' = sent_bytes s;
  send_short b s n s' : (n < length b)%nat → sys_send b s = (inl n, s') → sock_ready write_op s' = false;
  send_failed b s e s' : e ≠ EINTR → sys_send b s = (inr e, s') → sock_ready write_op s' = false;
  accept_would_block s s' : sys_accept s = (inr EAGAIN, s') → sock_ready read_op s' = false;
  poll_out_ready s : sys_poll_out s = false → sock_ready write_op s = false;
  recv_quiet j n s r s' : sys_recv n s = (r, s') → sock_ready j s' = true → sock_ready j s = true;
  send_quiet j b s r s' : sys_send b s = (r, s') → sock_ready j s' = true → sock_ready j s = true;
  accept_quiet j s r s' : sys_accept s = (r, s') → sock_ready j s' = true → sock_ready j s = true;
  so_error_quiet j s r s' : sys_so_error s = (r, s') → sock_ready j s' = true → sock_ready j s = true;
}.

(** ** Operations *)

(** What the constructors of the operations store. A stream is read with a buffer of [size]
    bytes; [aborted] is the flag [enable_connection_aborted] of an acceptor. *)
Inductive read_kind : Type := recv_some (size : nat) | accept_one (aborted : bool) | wait_read.
Inductive write_kind : Type := send_some (data : list Z) | connect_one | wait_write.

(** The fields that [perform] leaves in the operation: [ec_], [bytes_transferred_] with what was
    read, and the accepted socket. *)
Record op_fields := mk_op_fields {
  ec_ : error_code;
  bytes_transferred_ : nat;
  received : list Z;
  new_socket_ : option nat;
}.
Definition no_fields : op_fields := mk_op_fields no_error 0 [] None.

Section socket.
Context {S : Type} `{Socket S}.

(** [non_blocking_recv1] on a stream: whether it is done, the fields, and the socket. [None] is
    a run out of fuel. *)
Fixpoint non_blocking_recv1 (fuel : nat) (size : nat) (s : S) : option (bool * op_fields * S) :=
  match fuel with
  | O => None
  | Datatypes.S fuel =>
      match sys_recv size s with
      | (inl [], s') => Some (true, mk_op_fields eof 0 [] None, s')
      | (inl data, s') => Some (true, mk_op_fields no_error (length data) data None, s')
      | (inr e, s') =>
          if decide (e = EINTR) then non_blocking_recv1 fuel size s'
          else if decide (e = EAGAIN) then Some (false, mk_op_fields (system_error e) 0 [] None, s')
          else Some (true, mk_op_fields (system_error e) 0 [] None, s')
      end
  end.

(** [non_blocking_send1] *)
Fixpoint non_blocking_send1 (fuel : nat) (data : list Z) (s : S) : option (bool * op_fields * S) :=
  match fuel with
  | O => None
  | Datatypes.S fuel =>
      match sys_send data s with
      | (inl n, s') => Some (true, mk_op_fields no_error n [] None, s')
      | (inr e, s') =>
          if decide (e = EINTR) then non_blocking_send1 fuel data s'
          else if decide (e = EAGAIN) then Some (false, mk_op_fields (system_error e) 0 [] None, s')
          else Some (true, mk_op_fields (system_error e) 0 [] None, s')
      end
  end.

(** [non_blocking_accept] *)
Fixpoint non_blocking_accept (fuel : nat) (enable_connection_aborted : bool) (s : S) :
    option (bool * op_fields * S) :=
  match fuel with
  | O => None
  | Datatypes.S fuel =>
      match sys_accept s with
      | (inl new_s, s') => Some (true, mk_op_fields no_error 0 [] (Some new_s), s')
      | (inr e, s') =>
          let failed b := Some (b, mk_op_fields (system_error e) 0 [] None, s') in
          if decide (e = EINTR) then non_blocking_accept fuel enable_connection_aborted s'
          else if decide (e = EAGAIN) then failed false
          else if decide (e = ECONNABORTED) then failed enable_connection_aborted
          else if decide (e = EPROTO) then failed enable_connection_aborted
          else failed true
      end
  end.

(** [non_blocking_connect] *)
Definition non_blocking_connect (s : S) : bool * op_fields * S :=
  if negb (sys_poll_out s) then (false, no_fields, s)
  else match sys_so_error s with
       | (inl connect_error, s') =>
           (true, mk_op_fields (if connect_error =? 0 then no_error else system_error connect_error) 0 [] None, s')
       | (inr e, s') => (true, mk_op_fields (system_error e) 0 [] None, s')
       end.

(** ** [do_perform] *)

(** The operations of a descriptor, each with its kind for the queue it is in; the fields of
    those that were performed. *)
Context (reads : op → read_kind) (writes : op → write_kind).

Record conn := mk_conn { sock : S; fields : gmap op op_fields }.

Definition done_if (b : bool) : status := if b then done else not_done.

(** A loop that ends; it does with one round more than there are signals. *)
Definition finish (r : option (bool * op_fields * S)) (c : conn) : bool * op_fields * S :=
  default (false, no_fields, sock c) r.

Definition do_perform (j : op_type) (o : op) (c : conn) : status * conn :=
  let fuel := Datatypes.S (signals (sock c)) in
  let store f s := mk_conn s (<[o := f]> (fields c)) in
  match j with
  | read_op =>
      match reads o with
      | recv_some size =>
          let '(b, f, s) := finish (non_blocking_recv1 fuel size (sock c)) c in
          (if b && (bytes_transferred_ f =? 0)%nat then done_and_exhausted else done_if b, store f s)
      | accept_one aborted =>
          let '(b, f, s) := finish (non_blocking_accept fuel aborted (sock c)) c in (done_if b, store f s)
      | wait_read => (done, c)
      end
  | write_op =>
      match writes o with
      | send_some data =>
          let '(b, f, s) := finish (non_blocking_send1 fuel data (sock c)) c in
          (if b && (bytes_transferred_ f <? length data)%nat then done_and_exhausted else done_if b, store f s)
      | connect_one => let '(b, f, s) := non_blocking_connect (sock c) in (done_if b, store f s)
      | wait_write => (done, c)
      end
  | except_op => (done, c)
  end.

#[export] Instance socket_kernel : Kernel conn := {
  perform := do_perform;
  ready j c := sock_ready j (sock c);
}.

(** ** The operations are what the reactor relies on *)

Context `{!SocketSpec S}.

(** A call, with its retries, leaves the socket in a state that passes [P] and no readier. *)
Definition quieter (s s' : S) : Prop := ∀ j, sock_ready j s' = true → sock_ready j s = true.

Lemma quieter_trans s1 s2 s3 : quieter s1 s2 → quieter s2 s3 → quieter s1 s3.
Proof. rw /quieter. auto. Qed.

Lemma non_blocking_recv1_spec fuel size s :
  (0 < size)%nat → (signals s < fuel)%nat →
  ∃ b f s', non_blocking_recv1 fuel size s = Some (b, f, s') ∧ quieter s s' ∧
    (b = false ∨ bytes_transferred_ f = 0%nat → sock_ready read_op s' = false).
Proof.
  intros Hn. revert s. induction fuel as [|fuel IH]; intros s Hs; [lia|]. simpl.
  destruct (sys_recv size s) as [[[|x l]|e] s'] eqn:E; (assert (quieter s s') by (intros j; by eapply recv_quiet)).
  - do 3 eexists. split; [done|]. split; [done|]. intros _. by eapply recv_end.
  - do 3 eexists. split; [done|]. split; [done|]. intros [?|?]; done.
  - destruct (decide (e = EINTR)) as [->|He].
    + destruct (IH s') as (b & f & s1 & -> & Hq & Hb); [apply recv_interrupted in E; lia|].
      do 3 eexists. split; [done|]. split; [by eapply quieter_trans|done].
    + destruct (decide (e = EAGAIN)); (do 3 eexists; split; [done|]; split; [done|]; intros _; by eapply recv_failed).
Qed.

Lemma non_blocking_send1_spec fuel data s :
  (signals s < fuel)%nat →
  ∃ b f s', non_blocking_send1 fuel data s = Some (b, f, s') ∧ quieter s s' ∧
    (b = false ∨ (bytes_transferred_ f < length data)%nat → sock_ready write_op s' = false).
Proof.
  revert s. induction fuel as [|fuel IH]; intros s Hs; [lia|]. simpl.
  destruct (sys_send data s) as [[n|e] s'] eqn:E; (assert (quieter s s') by (intros j; by eapply send_quiet)).
  - do 3 eexists. split; [done|]. split; [done|]. intros [?|?]; [done|by eapply send_short].
  - destruct (decide (e = EINTR)) as [->|He].
    + destruct (IH s') as (b & f & s1 & -> & Hq & Hb); [apply send_interrupted in E; lia|].
      do 3 eexists. split; [done|]. split; [by eapply quieter_trans|done].
    + destruct (decide (e = EAGAIN)); (do 3 eexists; split; [done|]; split; [done|]; intros _; by eapply send_failed).
Qed.

(** A send that is done has sent what it says: a first part of its data, and nothing only with
    an error or when there is none. *)
Lemma send_sends fuel data s b f s' :
  non_blocking_send1 fuel data s = Some (b, f, s') →
  let n := bytes_transferred_ f in
  sent_bytes s' = sent_bytes s ++ take n data ∧ (n ≤ length data)%nat ∧
  (ec_ f ≠ no_error → n = 0%nat) ∧ (ec_ f = no_error → data ≠ [] → (0 < n)%nat).
Proof.
  revert s. induction fuel as [|fuel IH]; intros s; [done|]. simpl.
  destruct (sys_send data s) as [[n|e] s1] eqn:E.
  - intros [= <- <- <-]. simpl. rw (send_bytes _ _ _ _ E). pose proof (send_count _ _ _ _ E) as [? ?]. naive_solver.
  - destruct (decide (e = EINTR)) as [->|He]; [intros Hs; rw -(send_nothing _ _ _ _ E); by apply IH|].
    destruct (decide (e = EAGAIN)); intros [= <- <- <-]; simpl;
      rw (send_nothing _ _ _ _ E) app_nil_r; (split; [done|split; [lia|naive_solver]]).
Qed.

Lemma send_blocked fuel data s f s' :
  non_blocking_send1 fuel data s = Some (false, f, s') → sent_bytes s' = sent_bytes s.
Proof.
  revert s. induction fuel as [|fuel IH]; intros s; [done|]. simpl.
  destruct (sys_send data s) as [[n|e] s1] eqn:E; [done|]. rw -(send_nothing _ _ _ _ E).
  destruct (decide (e = EINTR)) as [->|He]; [by apply IH|]. destruct (decide (e = EAGAIN)); by intros [= _ <-].
Qed.

(** A connection that was aborted is passed over silently, with others that may still be
    waiting, unless the acceptor asks to be told: so no operation is such an accept, or no
    connection is aborted. *)
Definition accept_whole : Prop := ∀ s e s', sys_accept s = (inr e, s') → e ≠ ECONNABORTED ∧ e ≠ EPROTO.
Context (accept_ok : (∀ o, reads o ≠ accept_one false) ∨ accept_whole).
Context (size_positive : ∀ o size, reads o = recv_some size → (0 < size)%nat).

Lemma non_blocking_accept_spec fuel aborted s :
  aborted = true ∨ accept_whole → (signals s < fuel)%nat →
  ∃ b f s', non_blocking_accept fuel aborted s = Some (b, f, s') ∧ quieter s s' ∧
    (b = false → sock_ready read_op s' = false).
Proof.
  intros Hok. revert s. induction fuel as [|fuel IH]; intros s Hs; [lia|]. simpl.
  destruct (sys_accept s) as [[n|e] s'] eqn:E; (assert (quieter s s') by (intros j; by eapply accept_quiet)).
  - do 3 eexists. split; [done|]. split; [done|]. done.
  - destruct (decide (e = EINTR)) as [->|He].
    + destruct (IH s') as (b & f & s1 & -> & Hq & Hb); [apply accept_interrupted in E; lia|].
      do 3 eexists. split; [done|]. split; [by eapply quieter_trans|done].
    + assert (e = ECONNABORTED ∨ e = EPROTO → aborted = true) as Hab.
      { destruct Hok as [|Hw]; [done|]. destruct (Hw _ _ _ E). naive_solver. }
      destruct (decide (e = EAGAIN)) as [->|].
      { do 3 eexists. split; [done|]. split; [done|]. intros _. by eapply accept_would_block. }
      destruct (decide (e = ECONNABORTED)); [|destruct (decide (e = EPROTO))];
        (do 3 eexists; split; [done|]; split; [done|]); try done; intros Hb; discriminate (eq_trans (eq_sym Hb) (Hab ltac:(auto))).
Qed.

Lemma non_blocking_connect_spec s b f s' :
  non_blocking_connect s = (b, f, s') → quieter s s' ∧ (b = false → sock_ready write_op s' = false).
Proof.
  rw /non_blocking_connect. destruct (sys_poll_out s) eqn:E; simpl; intros Hc.
  - destruct (sys_so_error s) as [[z|z] s1] eqn:Ee; simplify_eq; (split; [intros j; by eapply so_error_quiet|done]).
  - simplify_eq. split; [by intros j|]. intros _. by apply poll_out_ready.
Qed.

Lemma do_perform_spec j o c st c' :
  do_perform j o c = (st, c') →
  quieter (sock c) (sock c') ∧ (st ≠ done → sock_ready j (sock c') = false).
Proof.
  rw /do_perform. set (fuel := Datatypes.S (signals (sock c))).
  assert (signals (sock c) < fuel)%nat as Hf by (rw /fuel; lia).
  destruct j; [destruct (reads o) as [size|a|] eqn:Er|destruct (writes o) as [data| |]|].
  - destruct (non_blocking_recv1_spec fuel size (sock c) (size_positive _ _ Er) Hf) as (b & f & s' & -> & Hq & Hb).
    simpl. intros [= <- <-]. split; [done|]. simpl. destruct b; simpl; [|auto].
    destruct (Nat.eqb_spec (bytes_transferred_ f) 0); [auto|done].
  - assert (a = true ∨ accept_whole) as Hok.
    { destruct accept_ok as [Hn|]; [|by right]. left. destruct a; [done|]. by destruct (Hn o). }
    destruct (non_blocking_accept_spec fuel a (sock c) Hok Hf) as (b & f & s' & -> & Hq & Hb).
    simpl. intros [= <- <-]. split; [done|]. destruct b; simpl; [done|auto].
  - intros [= <- <-]. split; [by intros i|done].
  - destruct (non_blocking_send1_spec fuel data (sock c) Hf) as (b & f & s' & -> & Hq & Hb).
    simpl. intros [= <- <-]. split; [done|]. simpl. destruct b; simpl; [|auto].
    destruct (Nat.ltb_spec (bytes_transferred_ f) (length data)); [auto|done].
  - destruct (non_blocking_connect (sock c)) as [[b f] s'] eqn:E. apply non_blocking_connect_spec in E as [Hq Hb].
    intros [= <- <-]. split; [done|]. destruct b; simpl; [done|auto].
  - intros [= <- <-]. split; [by intros i|done].
  - intros [= <- <-]. split; [by intros i|done].
Qed.

#[export] Instance socket_kernel_spec : KernelSpec conn.
Proof.
  split.
  - intros j o k k' Hp. apply (do_perform_spec j o k not_done k' Hp). done.
  - intros j o k k' Hp. apply (do_perform_spec j o k done_and_exhausted k' Hp). done.
  - intros i j o k st k' Hp. apply (do_perform_spec j o k st k' Hp).
Qed.
End socket.

(** ** The reactor on sockets *)

(** C16: no readiness is lost, for the operations of asio on sockets whose system calls behave as
    documented: in every reachable state, with registrations ([epoll_ctl]) that do not fail once
    they succeeded, an operation that waits while its socket is ready has an event on its way:
    on the list of epoll, in the queue of the scheduler, or in the hands of a thread. Ready is a
    socket with data, room or a connection, or with an error or an end of stream that no read
    has returned yet. No operation may be an accept that passes over aborted connections while
    connections are aborted. *)
Theorem reactor_no_lost_event {S} `{SocketSpec S} (reads : op → read_kind) (writes : op → write_kind) :
  let _ := socket_kernel reads writes in
  (∀ o size, reads o = recv_some size → (0 < size)%nat) →
  (∀ o, reads o ≠ accept_one false) ∨ accept_whole (S := S) →
  ∀ (s : system (K := @conn S)) i d j,
  reactor_reachable true s → descs s !! i = Some d →
  get (op_queue_ d) j ≠ [] → sock_ready j (sock (kernel d)) = true →
  pending (queued_event s i d) d j.
Proof.
  intros Hk Hsize Hacc s i d j Hs Hd Hq Hr.
  pose proof (socket_kernel_spec reads writes Hacc Hsize) as Hspec. by apply no_lost_event.
Qed.

(** C19: the reactor comes to rest without leaving anything undone, for the same sockets and
    operations: in whatever order the threads that run the scheduler act, they have after
    finitely many steps nothing to do but to wait for [epoll_wait] to return something; no
    operation was started on the way, and then every operation that still waits has a socket
    that is not ready for it. *)
Theorem reactor_settles {S} `{SocketSpec S} (reads : op → read_kind) (writes : op → write_kind) :
  let _ := socket_kernel reads writes in
  (∀ o size, reads o = recv_some size → (0 < size)%nat) →
  (∀ o, reads o ≠ accept_one false) ∨ accept_whole (S := S) →
  ∀ (s : system (K := @conn S)),
  reactor_reachable true s →
  sn reactor_busy s ∧
  ∀ s', rtc reactor_busy s s' → nf reactor_busy s' →
    in_run s' = Some [] ∧ started s' = started s ∧
    ∀ i d j, descs s' !! i = Some d → get (op_queue_ d) j ≠ [] → sock_ready j (sock (kernel d)) = false.
Proof.
  intros Hk Hsize Hacc s Hs. pose proof (socket_kernel_spec reads writes Hacc Hsize) as Hspec.
  split; [by apply settles|]. intros s' Hst Hn. destruct (busy_steps s s' Hst Hs) as [Hs' Est].
  destruct (settles s' Hs') as [_ He]. destruct (He Hn) as [Hr Hb]. split; [done|]. split; [done|exact Hb].
Qed.

(** ** One turn of the reactor *)

(** The reactor runs, finds the only descriptor ready, queues it, and a thread acts on it. *)
Section turn.
Context {K : Type} `{Kernel K}.

Definition poll_once (s : system) (d : descriptor_state) (events : Z) : system (K := K) :=
  let s1 := reactor_report (set_run s [] (Some [])) [] 0 d events in
  let s2 := set_run s1 [descriptor 0; task_operation] None in
  let d1 := report d events false in
  let d2 := set_taken d1 [events] in
  reactor_perform_io (set_run (set_desc s2 0 d2) [task_operation] None) 0 (set_taken d2 []) events.

Lemma poll_once_run s d events :
  queue s = [task_operation] → in_run s = None → descs s = [d] → taken d = [] → signalled d = true →
  covers d events → rtc reactor_internal s (poll_once s d events).
Proof.
  intros Hq Hr Hd Ht Hs Hc.
  apply (rtc_l _ _ (set_run s [] (Some []))); [by apply task_begin|].
  eapply rtc_l; [eapply (task_report _ [] 0 d events); simpl; rw ?Hd; done|].
  eapply rtc_l; [by eapply (task_end _ [0%nat])|].
  eapply rtc_l; [eapply (take_descriptor _ 0 [task_operation] (report d events false)); [done|by rw /= Hd]|].
  simpl. rw Ht.
  eapply rtc_once. apply (do_perform_io _ 0 _ [] events []); [by rw /= Hd|done].
Qed.

Lemma internal_reach s s' : rtc reactor_internal s s' → reactor_reachable true s → reactor_reachable true s'.
Proof. induction 1; eauto using reactor_reachable, reactor_step. Qed.
End turn.

(** ** A stream and an acceptor *)

(** A stream: what was received, whether the peer has closed it and a read has said so, the room
    for sending, what was sent, and the signals on their way. *)
Module sample_stream.
Record stream := mk_stream {
  rx : list Z; fin : bool; told : bool; room : nat; tx : list Z; sigs : nat;
}.

Definition recv (n : nat) (s : stream) : (list Z + Z) * stream :=
  match sigs s with
  | S k => (inr EINTR, mk_stream (rx s) (fin s) (told s) (room s) (tx s) k)
  | O =>
      if bool_decide (rx s = []) then
        if fin s then (inl [], mk_stream [] true true (room s) (tx s) 0) else (inr EAGAIN, s)
      else (inl (take n (rx s)), mk_stream (drop n (rx s)) (fin s) (told s) (room s) (tx s) 0)
  end.
Definition send (b : list Z) (s : stream) : (nat + Z) * stream :=
  let n := Nat.min (room s) (length b) in
  if (room s =? 0)%nat then (inr EAGAIN, s)
  else (inl n, mk_stream (rx s) (fin s) (told s) (room s - n) (tx s ++ take n b) (sigs s)).

#[export] Instance stream_socket : Socket stream := {
  sys_recv := recv;
  sys_send := send;
  sys_accept s := (inr 22, s);
  sys_poll_out s := negb (room s =? 0)%nat;
  sys_so_error s := (inl 0, s);
  sent_bytes := tx;
  signals := sigs;
  sock_ready j s :=
    match j with
    | read_op => negb (bool_decide (rx s = [])) || fin s && negb (told s)
    | write_op => negb (room s =? 0)%nat
    | except_op => false
    end;
}.

Lemma recv_stream n s r s' :
  recv n s = (r, s') →
  match r with
  | inr e => rx s' = rx s ∧ fin s' = fin s ∧ told s' = told s ∧ room s' = room s ∧
             (e = EINTR ∧ sigs s = S (sigs s') ∨ e = EAGAIN ∧ rx s = [] ∧ fin s = false)
  | inl l => l = take n (rx s) ∧ room s' = room s ∧
             (rx s ≠ [] ∨ rx s = [] ∧ rx s' = [] ∧ told s' = true)
  end.
Proof.
  rw /recv. destruct (sigs s) as [|k] eqn:E; [|intros [= <- <-]; auto 10].
  case_bool_decide as Hr; [|intros [= <- <-]; auto 10].
  destruct (fin s) eqn:Hf; intros [= <- <-]; rw ?Hr ?take_nil; auto 10.
Qed.

#[export] Instance stream_spec : SocketSpec stream.
Proof.
  split; simpl.
  - intros n s s' Hr%recv_stream. destruct Hr as (_ & _ & _ & _ & [[_ ?]|[? _]]); [lia|done].
  - intros b s s'. rw /send. by case_match.
  - done.
  - intros n s s' Hn Hr%recv_stream. destruct Hr as (Hl & _ & [Hr|(_ & -> & ->)]); [|by rw andb_false_r].
    destruct n as [|n]; [lia|]. by destruct (rx s).
  - intros n s e s' He Hr%recv_stream. by destruct Hr as (-> & -> & -> & _ & [[? _]|(_ & -> & ->)]).
  - intros b s n s'. rw /send. destruct (Nat.eqb_spec (room s) 0) as [|Hz]; [done|]. intros [= <- <-].
    split; [lia|]. intros Hb. destruct b; [done|]. simpl. lia.
  - intros b s n s'. rw /send. destruct (Nat.eqb_spec (room s) 0); [done|]. by intros [= <- <-].
  - intros b s e s'. rw /send. destruct (Nat.eqb_spec (room s) 0); [|done]. by intros [= <- <-].
  - intros b s n s' Hn. rw /send. destruct (Nat.eqb_spec (room s) 0) as [|Hz]; [done|]. intros [= <- <-]. simpl.
    apply negb_false_iff, Nat.eqb_eq. lia.
  - intros b s e s' He. rw /send. destruct (Nat.eqb_spec (room s) 0) as [Hz|]; [|done]. intros [= <- <-]. by rw Hz.
  - done.
  - intros s. by destruct (Nat.eqb _ _).
  - intros j n s r s' Hr%recv_stream. destruct r.
    + destruct Hr as (_ & -> & [Hr|(_ & -> & ->)]); destruct j; try done; [by destruct (rx s)|by rw andb_false_r].
    + by destruct Hr as (-> & -> & -> & -> & _).
  - intros j b s r s'. rw /send. destruct (Nat.eqb_spec (room s) 0) as [Hz|Hz]; intros [= <- <-] Hr; [by rw Hz in Hr |- *|].
    by destruct j.
  - intros j s r s' [= <- <-]; auto.
  - intros j s r s' [= <- <-]; auto.
Qed.

Definition reads (o : op) : read_kind := recv_some 4.
Definition writes (o : op) : write_kind := send_some [1; 2; 3].
#[export] Instance stream_kernel : Kernel (@conn stream) := socket_kernel reads writes.

Definition quiet_stream : conn := mk_conn (mk_stream [] false false 2 [] 1) ∅.
Definition with_data : conn := mk_conn (mk_stream [7; 8] false false 2 [] 0) ∅.
Definition at_end : conn := mk_conn (mk_stream [] true false 2 [] 0) ∅.

(** A read waits, and data arrives. *)
Definition s1 : system := reactor_register (new_system false) quiet_stream ctl_ok.
Definition s2 : system := reactor_start_op (log_started s1 1%positive) None (Some 0%nat) read_op 1%positive false true true.
Definition d2 : descriptor_state := default (new_descriptor_state quiet_stream) (descs s2 !! 0%nat).
Definition s3 : system := set_desc s2 0 (set_network d2 with_data true).
Definition d3 : descriptor_state := default (new_descriptor_state quiet_stream) (descs s3 !! 0%nat).

Lemma reactor_reach3 : reactor_reachable true s3.
Proof.
  apply (reactor_next _ s2); [apply (reactor_next _ s1); [apply (reactor_next _ (new_system false)); [constructor|]|]|].
  - by apply step_register.
  - apply step_start; [|done]. intros n [= <-]. split; [vm_compute; lia|right; by vm_compute; intros ?%elem_of_nil].
  - apply step_network with (d := d2); [by vm_compute|]. split; [done|]. intros j. by destruct j.
Qed.

Lemma reactor_accounts_witness :
  reactor_reachable true s3 ∧ started s3 = [1%positive] ∧ outstanding_work_ s3 = 1 ∧
  outstanding_work_ s3 + private_work (running s3) =
    Z.of_nat (length (queued (descs s3)) + length (posted s3) + length (run_ops (running s3)) + length (abandoned s3)).
Proof.
  split; [apply reactor_reach3|]. split; [by vm_compute|]. split; [by vm_compute|].
  apply (reactor_accounts true s3), reactor_reach3.
Defined.

Lemma reads_some (o : op) size : reads o = recv_some size → (0 < size)%nat.
Proof. intros [= <-]. lia. Qed.
Lemma no_accepts : (∀ o, reads o ≠ accept_one false) ∨ accept_whole (S := stream).
Proof. by left. Qed.

Lemma reactor_no_lost_event_witness :
  get (op_queue_ d3) read_op = [1%positive] ∧ pending (queued_event s3 0 d3) d3 read_op.
Proof.
  split; [by vm_compute|].
  apply (reactor_no_lost_event reads writes reads_some no_accepts s3 0 d3 read_op); [apply reactor_reach3|by vm_compute..].
Defined.

Lemma reactor_settles_witness :
  reactor_reachable true s3 ∧ sn reactor_busy s3 ∧
  ∀ s', rtc reactor_busy s3 s' → nf reactor_busy s' →
    in_run s' = Some [] ∧ started s' = started s3 ∧
    ∀ i d j, descs s' !! i = Some d → get (op_queue_ d) j ≠ [] → sock_ready j (sock (kernel d)) = false.
Proof.
  split; [apply reactor_reach3|].
  apply (reactor_settles reads writes reads_some no_accepts s3), reactor_reach3.
Defined.

(** A read that returned the end of the stream leaves [try_speculative_] false: the next read is
    queued, although the stream is at its end still, and no event will come for it. *)
Definition e1 : system := reactor_register (new_system false) at_end ctl_ok.
Definition e2 : system := poll_once e1 (default (new_descriptor_state at_end) (descs e1 !! 0%nat)) EPOLLIN.
Definition start_read (s : system) (o : op) : system :=
  reactor_start_op (log_started s o) None (Some 0%nat) read_op o false true true.
Definition e4 : system := start_read (start_read e2 1%positive) 2%positive.

Lemma start_read_reach s o :
  (0 < length (descs s))%nat → pool s = [] → reactor_reachable true s → reactor_reachable true (start_read s o).
Proof.
  intros Hl Hp Hr. eapply reactor_next; [done|]. apply step_start; [|done]. intros n [= <-].
  split; [done|right]. rw Hp. by intros ?%elem_of_nil.
Qed.

Theorem read_after_eof_waits :
  reactor_reachable true e4 ∧ settled e4 ∧ finished e4 = [] ∧ posted e4 = [(1%positive, performed)] ∧
  ∃ d, descs e4 = [d] ∧ get (op_queue_ d) read_op = [2%positive] ∧ fin (sock (kernel d)) = true.
Proof.
  split; [|split; [|split; [by vm_compute|split; [by vm_compute|eexists; by vm_compute]]]].
  - do 2 (apply start_read_reach; [vm_compute; lia|by vm_compute|]).
    eapply internal_reach; [eapply poll_once_run; [by vm_compute..|]|].
    + intros []; by vm_compute.
    + eapply reactor_next; [constructor|by apply step_register].
  - split.
    + intros [|i] d Hd; [|by vm_compute in Hd]. vm_compute in Hd. by simplify_eq.
    + intros i [Hx|(ops & Hx & _)]; [|by vm_compute in Hx]. vm_compute in Hx. by apply list_elem_of_singleton in Hx.
Qed.
End sample_stream.

(** A listening socket with the connections that wait, some of them aborted. *)
Module sample_acceptor.
Definition backlog : Type := list (nat + Z).
#[export] Instance backlog_socket : Socket backlog := {
  sys_recv n s := (inr 107, s);
  sys_send b s := (inr 107, s);
  sys_accept s := match s with [] => (inr EAGAIN, s) | x :: s => (x, s) end;
  sys_poll_out s := false;
  sys_so_error s := (inl 0, s);
  sent_bytes s := [];
  signals s := length s;
  sock_ready j s := match j with read_op => negb (bool_decide (s = [])) | _ => false end;
}.
#[export] Instance backlog_kernel : Kernel (@conn backlog) :=
  socket_kernel (λ _, accept_one false) (λ _, connect_one).

(** An aborted connection makes [non_blocking_accept] answer that it would block; the accept
    stays queued although another connection waits, and no event will come for it. *)
Definition a1 : system := reactor_register (new_system false) (mk_conn ([] : backlog) ∅) ctl_ok.
Definition a2 : system :=
  reactor_start_op (log_started a1 1%positive) None (Some 0%nat) read_op 1%positive false true true.
Definition desc (s : system) : descriptor_state := default (new_descriptor_state (mk_conn ([] : backlog) ∅)) (descs s !! 0%nat).
Definition a3 : system := set_desc a2 0 (set_network (desc a2) (mk_conn ([inr ECONNABORTED; inl 5%nat] : backlog) ∅) true).
Definition a4 : system := poll_once a3 (desc a3) EPOLLIN.

Theorem accept_waits_behind_aborted :
  reactor_reachable true a4 ∧ settled a4 ∧ posted a4 = [] ∧ running a4 = [] ∧
  ∃ d, descs a4 = [d] ∧ get (op_queue_ d) read_op = [1%positive] ∧ sock (kernel d) = [inl 5%nat].
Proof.
  split; [|split; [|split; [by vm_compute|split; [by vm_compute|eexists; by vm_compute]]]].
  - eapply internal_reach; [eapply poll_once_run; [by vm_compute..|]|].
    + intros []; by vm_compute.
    + apply (reactor_next _ a2); [apply (reactor_next _ a1); [apply (reactor_next _ (new_system false)); [constructor|by apply step_register]|]|].
      * apply step_start; [|done]. intros n [= <-]. split; [vm_compute; lia|right; by vm_compute; intros ?%elem_of_nil].
      * apply step_network with (d := desc a2); [by vm_compute|]. split; [done|]. intros j. by destruct j.
  - split.
    + intros [|i] d Hd; [|by vm_compute in Hd]. vm_compute in Hd. by simplify_eq.
    + intros i [Hx|(ops & Hx & _)]; [|by vm_compute in Hx]. vm_compute in Hx. by apply list_elem_of_singleton in Hx.
Qed.
End sample_acceptor.
