(* ===== verification/WriteOp.v ===== *)
(** [asio::async_write] of one buffer, which [stream_socket_helper] calls for every message:
    [write_op] of extern/asio/asio/include/asio/impl/write.hpp with
    detail/consuming_buffers.hpp and completion_condition.hpp, and the synchronous loop
    [write_buffer_sequence] beside it.

    A write of a message is a chain of writes to the stream, each of which may take only a part
    of what it is given. A stream is an interface; [ReactorSocket] shows that a send on a socket
    obeys it. *)

From Stdlib Require Import ssreflect.
From stdpp Require Import list.
From S2P Require Import Prelude OpQueue Reactor ReactorSocket.

Open Scope general_if_scope.
Open Scope Z_scope.

(** ** Buffers *)

Definition default_max_transfer_size : Z := 65536.

Definition transfer_all (err : error_code) (bytes_transferred : Z) : Z :=
  if decide (err = no_error) then default_max_transfer_size else 0.

(** [const_buffer + n] and [buffer(b, max_size)] *)
Definition buffer_plus (b : list Z) (n : Z) : list Z :=
  drop (Z.to_nat (if n <? Z.of_nat (length b) then n else Z.of_nat (length b))) b.
Definition buffer (b : list Z) (max_size : Z) : list Z :=
  take (Z.to_nat (if Z.of_nat (length b) <? max_size then Z.of_nat (length b) else max_size)) b.

(** [consuming_single_buffer]; a count of bytes does not leave the range of [size_t], since it
    is at most the size of the buffer. *)
Record consuming_single_buffer := mk_consuming { buffer_ : list Z; total_consumed_ : Z }.
Definition empty (c : consuming_single_buffer) : bool := Z.of_nat (length (buffer_ c)) <=? total_consumed_ c.
Definition prepare (c : consuming_single_buffer) (max_size : Z) : list Z :=
  buffer (buffer_plus (buffer_ c) (total_consumed_ c)) max_size.
Definition consume (c : consuming_single_buffer) (size : Z) : consuming_single_buffer :=
  mk_consuming (buffer_ c) (wrap64 (total_consumed_ c + size)).

(** ** The operation *)

Inductive write_action : Type :=
| async_write_some (data : list Z)
| write_handler (ec : error_code) (bytes_transferred : Z).

(** [write_op::operator()], with [start] as 1 or 0: what it calls before it returns. *)
Definition write_op_call (c : consuming_single_buffer) (ec : error_code) (bytes_transferred : Z) (start : bool) :
    consuming_single_buffer * write_action :=
  if start then (c, async_write_some (prepare c (transfer_all ec (total_consumed_ c))))
  else
    let c := consume c bytes_transferred in
    if bool_decide (ec = no_error) && (bytes_transferred =? 0) || empty c
    then (c, write_handler ec (total_consumed_ c))
    else
      let max_size := transfer_all ec (total_consumed_ c) in
      if 0 <? max_size then (c, async_write_some (prepare c max_size))
      else (c, write_handler ec (total_consumed_ c)).

(** ** Streams *)

(** The completion of [async_write_some]: an error code and a number of bytes. *)
Class WriteStream (W : Type) := {
  write_some : list Z → W → error_code * nat * W;
  written : W → list Z;
}.
Class WriteStreamSpec (W : Type) `{WriteStream W} := {
  write_some_written b w ec n w' : write_some b w = (ec, n, w') → written w' = written w ++ take n b;
  write_some_count b w ec n w' : write_some b w = (ec, n, w') → (n ≤ length b)%nat;
  write_some_failed b w ec n w' : write_some b w = (ec, n, w') → ec ≠ no_error → n = 0%nat;
  write_some_progress b w n w' : write_some b w = (no_error, n, w') → b ≠ [] → (0 < n)%nat;
}.

Section write.
Context {W : Type} `{WriteStream W}.

(** The chain of completions until the handler is called, with the pieces that were offered to
    the stream. *)
Fixpoint write_chain (fuel : nat) (c : consuming_single_buffer) (act : write_action) (w : W) :
    option (error_code * Z * W * list (list Z)) :=
  match act with
  | write_handler ec n => Some (ec, n, w, [])
  | async_write_some b =>
      match fuel with
      | O => None
      | S fuel =>
          let '(ec, n, w') := write_some b w in
          let '(c', act') := write_op_call c ec (Z.of_nat n) false in
          match write_chain fuel c' act' w' with
          | Some (ec', total, w'', l) => Some (ec', total, w'', b :: l)
          | None => None
          end
      end
  end.

(** [start_write_buffer_sequence_op] *)
Definition async_write (fuel : nat) (data : list Z) (w : W) : option (error_code * Z * W * list (list Z)) :=
  let '(c, act) := write_op_call (mk_consuming data 0) no_error 0 true in write_chain fuel c act w.

(** [write_buffer_sequence]: the loop of the synchronous [write]. *)
Fixpoint write_buffer_sequence (fuel : nat) (c : consuming_single_buffer) (ec : error_code) (w : W) :
    option (error_code * Z * W) :=
  match fuel with
  | O => None
  | S fuel =>
      if empty c then Some (ec, total_consumed_ c, w)
      else
        let max_size := transfer_all ec (total_consumed_ c) in
        if max_size =? 0 then Some (ec, total_consumed_ c, w)
        else
          let '(ec', n, w') := write_some (prepare c max_size) w in
          write_buffer_sequence fuel (consume c (Z.of_nat n)) ec' w'
  end.

(** ** What it does *)

Context `{!WriteStreamSpec W}.

Lemma buffer_plus_drop b n : 0 ≤ n → buffer_plus b n = drop (Z.to_nat n) b.
Proof.
  intros Hn. rw /buffer_plus. destruct (Z.ltb_spec n (Z.of_nat (length b))); [done|]. rw !drop_ge //; lia.
Qed.

(** A piece is the next bytes, up to the limit. *)
Lemma prepare_piece c max_size :
  0 ≤ total_consumed_ c → 0 ≤ max_size →
  ∃ rest, drop (Z.to_nat (total_consumed_ c)) (buffer_ c) = prepare c max_size ++ rest ∧
    Z.of_nat (length (prepare c max_size)) ≤ max_size ∧
    (0 < max_size → drop (Z.to_nat (total_consumed_ c)) (buffer_ c) ≠ [] → prepare c max_size ≠ []).
Proof.
  intros Hc Hm. rw /prepare buffer_plus_drop //. set (b := drop _ _). rw /buffer.
  destruct (Z.ltb_spec (Z.of_nat (length b)) max_size) as [Hl|Hl].
  - rw take_ge; [lia|]. exists []. rw app_nil_r. split; [done|split; [lia|done]].
  - exists (drop (Z.to_nat max_size) b). rw take_drop length_take. split; [done|split; [lia|]].
    intros Hp Hb Hx. apply (f_equal length) in Hx. rw length_take /= in Hx. destruct b; [done|]. simpl in Hx. lia.
Qed.

(** The state between two completions: [w0] is the stream at the start. *)
Record chain_inv (w0 : W) (data : list Z) (c : consuming_single_buffer) (w : W) : Prop := {
  chain_buffer : buffer_ c = data;
  chain_range : 0 ≤ total_consumed_ c ≤ Z.of_nat (length data);
  chain_written : written w = written w0 ++ take (Z.to_nat (total_consumed_ c)) data;
}.

Lemma chain_step w0 data c w max_size ec n w' :
  Z.of_nat (length data) < 2 ^ 64 → 0 ≤ max_size → chain_inv w0 data c w →
  write_some (prepare c max_size) w = (ec, n, w') →
  total_consumed_ (consume c (Z.of_nat n)) = total_consumed_ c + Z.of_nat n ∧
  chain_inv w0 data (consume c (Z.of_nat n)) w'.
Proof.
  intros Hs Hm [Hb Hr Hw] Hsome. destruct (prepare_piece c max_size) as (rest & Hp & _ & _); [lia..|].
  pose proof (write_some_count _ _ _ _ _ Hsome) as Hn.
  assert (total_consumed_ c + Z.of_nat n ≤ Z.of_nat (length data)) as Hle.
  { apply (f_equal length) in Hp. rw length_drop length_app Hb in Hp. lia. }
  assert (total_consumed_ (consume c (Z.of_nat n)) = total_consumed_ c + Z.of_nat n) as Ht.
  { simpl. apply Z.mod_small. lia. }
  split; [done|]. split; [done|lia|].
  rw (write_some_written _ _ _ _ _ Hsome) Hw Ht Z2Nat.inj_add; [lia..|].
  rw Nat2Z.id -app_assoc -take_take_drop. do 2 f_equal.
  rw -Hb Hp take_app_le //.
Qed.

Lemma call_next c n :
  0 < n → empty (consume c n) = false →
  write_op_call c no_error n false =
    (consume c n, async_write_some (prepare (consume c n) default_max_transfer_size)).
Proof. intros Hn He. rw /write_op_call He. by destruct (Z.eqb_spec n 0); [lia|]. Qed.

Lemma call_last c n :
  empty (consume c n) = true → ∀ ec,
  write_op_call c ec n false = (consume c n, write_handler ec (total_consumed_ (consume c n))).
Proof. intros He ec. by rw /write_op_call He orb_true_r. Qed.

Lemma call_failed c n ec :
  ec ≠ no_error →
  write_op_call c ec n false = (consume c n, write_handler ec (total_consumed_ (consume c n))).
Proof. intros He. rw /write_op_call /transfer_all bool_decide_false // decide_False //=. by case_match. Qed.

Definition piece_ok (b : list Z) : Prop := b ≠ [] ∧ Z.of_nat (length b) ≤ default_max_transfer_size.

Lemma next_piece w0 data c w :
  chain_inv w0 data c w → total_consumed_ c < Z.of_nat (length data) →
  piece_ok (prepare c default_max_transfer_size).
Proof.
  intros [Hb Hr _] Ht. destruct (prepare_piece c default_max_transfer_size) as (_ & _ & Hl & Hn); [lia|done|].
  split; [|done]. apply Hn; [done|]. intros Hx. apply (f_equal length) in Hx. rw length_drop Hb /= in Hx. lia.
Qed.

(** From a state with bytes left the handler is reached, and the loop of [write] goes the same
    way. *)
Lemma write_chain_spec fuel w0 data c w :
  Z.of_nat (length data) < 2 ^ 64 → chain_inv w0 data c w → total_consumed_ c < Z.of_nat (length data) →
  Z.of_nat (length data) - total_consumed_ c ≤ Z.of_nat fuel →
  ∃ ec total w' l,
    write_chain fuel c (async_write_some (prepare c default_max_transfer_size)) w = Some (ec, total, w', l) ∧
    write_buffer_sequence (S fuel) c no_error w = Some (ec, total, w') ∧
    chain_inv w0 data (mk_consuming data total) w' ∧ (ec = no_error → total = Z.of_nat (length data)) ∧
    Forall piece_ok l ∧ (length l ≤ fuel)%nat.
Proof.
  intros Hs. revert c w. induction fuel as [|fuel IH]; intros c w Hi Hlt Hf; [lia|].
  pose proof (next_piece _ _ _ _ Hi Hlt) as Hpiece.
  assert (empty c = false) as Hec by (rw /empty; destruct Hi as [-> _ _]; apply Z.leb_gt; lia).
  cbn [write_chain write_buffer_sequence]. rw Hec. change (transfer_all no_error _) with default_max_transfer_size.
  change (default_max_transfer_size =? 0) with false. cbn beta iota zeta.
  destruct (write_some _ w) as [[ec n] w'] eqn:E.
  destruct (chain_step _ _ _ _ default_max_transfer_size _ _ _ Hs ltac:(done) Hi E) as [Ht Hi']. simpl in Ht.
  assert (chain_inv w0 data (mk_consuming data (wrap64 (total_consumed_ c + Z.of_nat n))) w') as Hi2
    by (destruct Hi'; by split).
  destruct (decide (ec = no_error)) as [->|He].
  - assert (0 < Z.of_nat n) as Hn by (apply (write_some_progress _ _ _ _) in E; [lia|apply Hpiece]).
    destruct (empty (consume c (Z.of_nat n))) eqn:Ee.
    + rw (call_last _ _ Ee no_error). destruct fuel; simpl; rw ?Ee;
        (do 4 eexists; split; [done|]; split; [done|]; split; [done|]; split; [|split; [by constructor; [|constructor]|simpl; lia]]);
        intros _; move: Ee; rw /empty /= Ht => /Z.leb_le; destruct Hi' as [Hb Hr _]; simpl in Hb, Hr; rw Hb; lia.
    + rw (call_next _ _ Hn Ee).
      assert (total_consumed_ (consume c (Z.of_nat n)) < Z.of_nat (length data)) as Hlt'.
      { move: Ee. rw /empty (chain_buffer _ _ _ _ Hi') => /Z.leb_gt. lia. }
      destruct (IH (consume c (Z.of_nat n)) w' Hi' Hlt') as (ec' & total & w'' & l & -> & Hw & Hx & Hy & Hl & Hll); [simpl; lia|].
      do 4 eexists. split; [done|]. split; [cbn [write_buffer_sequence] in Hw; rw Ee in Hw; exact Hw|].
      split; [done|]. split; [done|].
      split; [by constructor|simpl; lia].
  - rw (call_failed _ _ _ He).
    do 4 eexists. split; [by destruct fuel|]. split.
    { destruct (empty (consume c (Z.of_nat n))); [done|]. by rw /transfer_all decide_False. }
    split; [done|]. split; [done|]. split; [by constructor; [|constructor]|simpl; lia].
Qed.

Lemma write_chain_more f c a w r : write_chain f c a w = Some r → write_chain (S f) c a w = Some r.
Proof.
  revert c a w r. induction f as [|f IH]; intros c [b|e z] w r Hc; try done. cbn [write_chain] in Hc |- *.
  destruct (write_some b w) as [[ec n] w2]. destruct (write_op_call c ec (Z.of_nat n) false) as [c' a'].
  destruct (write_chain f c' a' w2) as [x|] eqn:Ex; [|done].
  apply IH in Ex. cbn [write_chain] in Ex. by rw Ex.
Qed.

(** C36: Whatever pieces the stream takes, a write ends, with the first [total] bytes of the data
    written in order, all of them when it succeeds; each piece offered to the stream has at most
    65536 bytes, and the same bytes are written as by the synchronous loop. *)
Theorem async_write_completes (data : list Z) (w : W) :
  Z.of_nat (length data) < 2 ^ 64 →
  ∃ ec total w' l,
    async_write (S (length data)) data w = Some (ec, total, w', l) ∧
    0 ≤ total ≤ Z.of_nat (length data) ∧
    written w' = written w ++ take (Z.to_nat total) data ∧
    (ec = no_error → total = Z.of_nat (length data)) ∧
    (length l ≤ Nat.max 1 (length data))%nat ∧
    Forall (λ b, Z.of_nat (length b) ≤ default_max_transfer_size) l ∧
    (data ≠ [] → write_buffer_sequence (S (length data)) (mk_consuming data 0) no_error w = Some (ec, total, w')).
Proof.
  intros Hs. rw /async_write. cbn [write_op_call].
  change (transfer_all no_error _) with default_max_transfer_size.
  assert (chain_inv w data (mk_consuming data 0) w) as Hi by (split; [done|simpl; lia|by rw app_nil_r]).
  destruct (decide (data = [])) as [->|Hd].
  - cbn [write_chain]. change (prepare _ _) with (@nil Z). destruct (write_some [] w) as [[ec n] w'] eqn:E.
    pose proof (write_some_count _ _ _ _ _ E) as Hn. destruct n; [|simpl in Hn; lia].
    exists ec, 0, w', [[]]. rw (call_last (mk_consuming [] 0) 0 eq_refl) /= (write_some_written _ _ _ _ _ E).
    split; [done|]. split; [lia|]. split; [done|]. split; [done|]. split; [lia|].
    split; [by constructor; [|constructor]|done].
  - assert (length data ≠ 0%nat) by (by destruct data).
    destruct (write_chain_spec (length data) w data (mk_consuming data 0) w)
      as (ec & total & w' & l & Hc & Hw & [_ Hr Hx] & Hy & Hl & Hll); [done..|simpl; lia|simpl; lia|].
    exists ec, total, w', l. split; [by apply write_chain_more|]. split; [done|]. split; [done|]. split; [done|].
    split; [lia|]. split; [|done]. eapply Forall_impl; [|exact Hl]. by intros b [_ Hb].
Qed.
End write.

(** ** A socket is such a stream *)

Section socket_stream.
Context {S : Type} `{SocketSpec S}.

(** What the network does to the socket between two attempts, which sends nothing. *)
Context {E : Type} (net : E → S → S) (net_sent : ∀ e s, sent_bytes (net e s) = sent_bytes s).

Definition operation_aborted_code : error_code := system_error 125.

(** An [async_send] as the reactor runs it: tried at once and whenever the socket may be ready,
    until it is done or cancelled. *)
Fixpoint send_when_ready (data : list Z) (l : list E) (s : S) : error_code * nat * (S * list E) :=
  match non_blocking_send1 (Datatypes.S (signals s)) data s with
  | Some (true, f, s') => (ec_ f, bytes_transferred_ f, (s', l))
  | Some (false, _, s') =>
      match l with
      | [] => (operation_aborted_code, 0%nat, (s', []))
      | e :: l' => send_when_ready data l' (net e s')
      end
  | None => (operation_aborted_code, 0%nat, (s, l))
  end.

(** [async_send]; a write of nothing to a stream is not tried. *)
Definition async_send (data : list Z) (w : S * list E) : error_code * nat * (S * list E) :=
  if decide (data = []) then (no_error, 0%nat, w) else send_when_ready data w.2 w.1.

#[export] Instance socket_stream : WriteStream (S * list E) := {
  write_some := async_send;
  written w := sent_bytes w.1;
}.

Lemma send_when_ready_spec data l s ec n w :
  send_when_ready data l s = (ec, n, w) →
  sent_bytes w.1 = sent_bytes s ++ take n data ∧ (n ≤ length data)%nat ∧
  (ec ≠ no_error → n = 0%nat) ∧ (ec = no_error → data ≠ [] → (0 < n)%nat).
Proof.
  revert s. induction l as [|e l IH]; intros s; cbn [send_when_ready];
    destruct (non_blocking_send1_spec (Datatypes.S (signals s)) data s) as (b & f & s' & Hs & _ & Hb); [lia| |lia|];
    rw Hs; pose proof (send_sends _ _ _ _ _ _ Hs) as (H1 & H2 & H3 & H4); destruct b.
  - intros [= <- <- <-]. auto.
  - intros [= <- <- <-]. simpl. apply send_blocked in Hs. rw Hs app_nil_r. split; [done|split; [lia|done]].
  - intros [= <- <- <-]. auto.
  - intros Hr. apply IH in Hr as (Hr & Hn). rw Hr net_sent. apply send_blocked in Hs. by rw Hs.
Qed.

#[export] Instance socket_stream_spec : WriteStreamSpec (S * list E).
Proof.
  split; simpl; rw /async_send.
  - intros b w ec n w'. destruct (decide (b = [])) as [->|Hb]; [intros [= <- <- <-]; by rw app_nil_r|].
    by intros (? & _)%send_when_ready_spec.
  - intros b w ec n w'. destruct (decide (b = [])) as [->|Hb]; [by intros [= <- <- <-]|].
    by intros (_ & ? & _)%send_when_ready_spec.
  - intros b w ec n w'. destruct (decide (b = [])) as [->|Hb]; [by intros [= <- <- <-]|].
    by intros (_ & _ & ? & _)%send_when_ready_spec.
  - intros b w n w'. destruct (decide (b = [])) as [->|Hb]; [done|].
    intros (_ & _ & _ & ?)%send_when_ready_spec. auto.
Qed.
End socket_stream.

(** Three bytes over a socket with room for one, then for two more. *)
Module sample_write.
Import sample_stream.
Definition make_room (n : nat) (s : stream) : stream :=
  mk_stream (rx s) (fin s) (told s) (room s + n) (tx s) (sigs s).
Definition start : stream * list nat := (mk_stream [] false false 1 [] 0, [0%nat; 2%nat]).
Lemma make_room_sent n s : sent_bytes (make_room n s) = sent_bytes s.
Proof. done. Qed.
#[export] Instance room_stream : WriteStream (stream * list nat) := socket_stream make_room.

Lemma async_write_completes_witness :
  (Z.of_nat (length [1; 2; 3]) < 2 ^ 64) ∧
  ∃ ec total w' l, async_write 4 [1; 2; 3] start = Some (ec, total, w', l) ∧
    ec = no_error ∧ written w' = [1; 2; 3] ∧ l = [[1; 2; 3]; [2; 3]].
Proof.
  split; [done|].
  destruct (async_write_completes (WriteStreamSpec0 := socket_stream_spec make_room make_room_sent) [1; 2; 3] start)
    as (ec & total & w' & l & He & _); [done|].
  exists ec, total, w', l. split; [exact He|]. vm_compute in He. by simplify_eq.
Defined.
End sample_write.
