(* ===== verification/MsgpackObject.v ===== *)
(** MessagePack objects and their packing.

    Models the packer of extern/msgpack-c/include/msgpack/v1/pack.hpp and the walk of
    [msgpack::object] in v1/object.hpp ([object_pack_visitor]), which every message that
    mpRPC sends goes through. *)

From S2P Require Import Prelude Errors.

(** ** Objects *)

(** [msgpack::object] with its [type::object_type] tag. Floating-point values are kept as
    their IEEE bit patterns; an [EXT] holds its type byte followed by its body, as [via.ext]
    points to them. *)
Inductive object : Type :=
| NIL
| BOOLEAN (b : bool)
| POSITIVE_INTEGER (u64 : Z)
| NEGATIVE_INTEGER (i64 : Z)
| FLOAT32 (bits : Z)
| FLOAT64 (bits : Z)
| STR (s : list byte)
| BIN (s : list byte)
| ARRAY (l : list object)
| MAP (m : list (object * object))
| EXT (content : list byte).

Definition is_nil (o : object) : bool := match o with NIL => true | _ => false end.

Section object_induction.
Context (P : object → Prop).
Context (Hnil : P NIL) (Hbool : ∀ b, P (BOOLEAN b)) (Hpos : ∀ z, P (POSITIVE_INTEGER z))
  (Hneg : ∀ z, P (NEGATIVE_INTEGER z)) (Hf32 : ∀ z, P (FLOAT32 z))
  (Hf64 : ∀ z, P (FLOAT64 z)) (Hstr : ∀ s, P (STR s)) (Hbin : ∀ s, P (BIN s))
  (Harr : ∀ l, Forall P l → P (ARRAY l))
  (Hmap : ∀ m, Forall (λ kv, P kv.1 ∧ P kv.2) m → P (MAP m))
  (Hext : ∀ c, P (EXT c)).

Fixpoint object_nested_ind (o : object) : P o :=
  match o with
  | NIL => Hnil
  | BOOLEAN b => Hbool b
  | POSITIVE_INTEGER z => Hpos z
  | NEGATIVE_INTEGER z => Hneg z
  | FLOAT32 z => Hf32 z
  | FLOAT64 z => Hf64 z
  | STR s => Hstr s
  | BIN s => Hbin s
  | ARRAY l =>
      Harr l ((fix go l : Forall P l :=
        match l with
        | [] => Forall_nil_2 _
        | o :: l' => Forall_cons_2 _ _ _ (object_nested_ind o) (go l')
        end) l)
  | MAP m =>
      Hmap m ((fix go m : Forall (λ kv, P kv.1 ∧ P kv.2) m :=
        match m with
        | [] => Forall_nil_2 _
        | (k, v) :: m' =>
            Forall_cons_2 _ (k, v) _ (conj (object_nested_ind k) (object_nested_ind v)) (go m')
        end) m)
  | EXT c => Hext c
  end.
End object_induction.

(** ** Packing *)

(** [pack_imp_uint32] *)
Definition pack_imp_uint32 (d : Z) : list byte :=
  if d <? 2 ^ 8 then
    if d <? 2 ^ 7 then [Z_to_byte d]
    else [Z_to_byte 0xcc; Z_to_byte d]
  else if d <? 2 ^ 16 then Z_to_byte 0xcd :: be_store 2 d
  else Z_to_byte 0xce :: be_store 4 d.

(** [pack_imp_uint64] *)
Definition pack_imp_uint64 (d : Z) : list byte :=
  if d <? 2 ^ 8 then
    if d <? 2 ^ 7 then [Z_to_byte d]
    else [Z_to_byte 0xcc; Z_to_byte d]
  else if d <? 2 ^ 16 then Z_to_byte 0xcd :: be_store 2 d
  else if d <? 2 ^ 32 then Z_to_byte 0xce :: be_store 4 d
  else Z_to_byte 0xcf :: be_store 8 d.

(** [pack_imp_int32] *)
Definition pack_imp_int32 (d : Z) : list byte :=
  if d <? - 2 ^ 5 then
    if d <? - 2 ^ 15 then Z_to_byte 0xd2 :: be_store 4 d
    else if d <? - 2 ^ 7 then Z_to_byte 0xd1 :: be_store 2 d
    else [Z_to_byte 0xd0; Z_to_byte d]
  else if d <? 2 ^ 7 then [Z_to_byte d]
  else if d <? 2 ^ 8 then [Z_to_byte 0xcc; Z_to_byte d]
  else if d <? 2 ^ 16 then Z_to_byte 0xcd :: be_store 2 d
  else Z_to_byte 0xce :: be_store 4 d.

(** [pack_imp_int64] *)
Definition pack_imp_int64 (d : Z) : list byte :=
  if d <? - 2 ^ 5 then
    if d <? - 2 ^ 15 then
      if d <? - 2 ^ 31 then Z_to_byte 0xd3 :: be_store 8 d
      else Z_to_byte 0xd2 :: be_store 4 d
    else if d <? - 2 ^ 7 then Z_to_byte 0xd1 :: be_store 2 d
    else [Z_to_byte 0xd0; Z_to_byte d]
  else if d <? 2 ^ 7 then [Z_to_byte d]
  else if d <? 2 ^ 16 then
    if d <? 2 ^ 8 then [Z_to_byte 0xcc; Z_to_byte d]
    else Z_to_byte 0xcd :: be_store 2 d
  else if d <? 2 ^ 32 then Z_to_byte 0xce :: be_store 4 d
  else Z_to_byte 0xcf :: be_store 8 d.

Definition pack_float (bits : Z) : list byte := Z_to_byte 0xca :: be_store 4 bits.
Definition pack_double (bits : Z) : list byte := Z_to_byte 0xcb :: be_store 8 bits.
Definition pack_nil : list byte := [Z_to_byte 0xc0].
Definition pack_true : list byte := [Z_to_byte 0xc3].
Definition pack_false : list byte := [Z_to_byte 0xc2].

Definition pack_array (n : Z) : list byte :=
  if n <? 16 then [Z_to_byte (Z.lor 0x90 n)]
  else if n <? 65536 then Z_to_byte 0xdc :: be_store 2 n
  else Z_to_byte 0xdd :: be_store 4 n.

Definition pack_map (n : Z) : list byte :=
  if n <? 16 then [Z_to_byte (Z.lor 0x80 n)]
  else if n <? 65536 then Z_to_byte 0xde :: be_store 2 n
  else Z_to_byte 0xdf :: be_store 4 n.

Definition pack_str (l : Z) : list byte :=
  if l <? 32 then [Z_to_byte (Z.lor 0xa0 l)]
  else if l <? 256 then [Z_to_byte 0xd9; Z_to_byte l]
  else if l <? 65536 then Z_to_byte 0xda :: be_store 2 l
  else Z_to_byte 0xdb :: be_store 4 l.

Definition pack_bin (l : Z) : list byte :=
  if l <? 256 then [Z_to_byte 0xc4; Z_to_byte l]
  else if l <? 65536 then Z_to_byte 0xc5 :: be_store 2 l
  else Z_to_byte 0xc6 :: be_store 4 l.

Definition pack_ext (l : Z) (type : byte) : list byte :=
  if l =? 1 then [Z_to_byte 0xd4; type]
  else if l =? 2 then [Z_to_byte 0xd5; type]
  else if l =? 4 then [Z_to_byte 0xd6; type]
  else if l =? 8 then [Z_to_byte 0xd7; type]
  else if l =? 16 then [Z_to_byte 0xd8; type]
  else if l <? 256 then [Z_to_byte 0xc7; Z_to_byte l; type]
  else if l <? 65536 then (Z_to_byte 0xc8 :: be_store 2 l) ++ [type]
  else (Z_to_byte 0xc9 :: be_store 4 l) ++ [type].

(** [object_pack_visitor] driven over an object: the sizes are [uint32_t] fields of the
    object, the counts of its children. *)
Fixpoint pack_object (o : object) : list byte :=
  match o with
  | NIL => pack_nil
  | BOOLEAN b => if b then pack_true else pack_false
  | POSITIVE_INTEGER u => pack_imp_uint64 u
  | NEGATIVE_INTEGER i => pack_imp_int64 i
  | FLOAT32 b => pack_float b
  | FLOAT64 b => pack_double b
  | STR s => pack_str (Z.of_nat (length s)) ++ s
  | BIN s => pack_bin (Z.of_nat (length s)) ++ s
  | ARRAY l => pack_array (Z.of_nat (length l)) ++ List.flat_map pack_object l
  | MAP m =>
      pack_map (Z.of_nat (length m)) ++
      List.flat_map (λ '(k, v), pack_object k ++ pack_object v) m
  | EXT [] => []
  | EXT (type :: body) => pack_ext (Z.of_nat (length body)) type ++ body
  end.

(** ** Representable objects *)

(** What the fields of a [msgpack::object] can hold: 64-bit integers with the sign the tag
    says, bit patterns of their width, [uint32_t] sizes, and an [EXT] that has its type
    byte. *)
Definition small (n : nat) : bool := Z.of_nat n <? 2 ^ 32.
Definition wf_ext (c : list byte) : bool :=
  match c with [] => false | _ :: _ => small (length c) end.

Fixpoint wf_object (o : object) : bool :=
  match o with
  | NIL | BOOLEAN _ => true
  | POSITIVE_INTEGER u => (0 <=? u) && (u <? 2 ^ 64)
  | NEGATIVE_INTEGER i => (- 2 ^ 63 <=? i) && (i <? 0)
  | FLOAT32 b => (0 <=? b) && (b <? 2 ^ 32)
  | FLOAT64 b => (0 <=? b) && (b <? 2 ^ 64)
  | STR s | BIN s => small (length s)
  | ARRAY l => small (length l) && forallb wf_object l
  | MAP m => small (length m) && forallb (λ '(k, v), wf_object k && wf_object v) m
  | EXT c => wf_ext c
  end.

(** Number of levels of nesting. *)
Fixpoint depth (o : object) : nat :=
  match o with
  | ARRAY l => S (foldr (λ o n, Nat.max (depth o) n) 0%nat l)
  | MAP m => S (foldr (λ '(k, v) n, Nat.max (Nat.max (depth k) (depth v)) n) 0%nat m)
  | _ => 0%nat
  end.

(** Packing a signed integer gives the same bytes as packing the object it becomes. *)
Lemma pack_int64_pos z : 0 ≤ z → pack_imp_int64 z = pack_imp_uint64 z.
Proof. intros. unfold pack_imp_int64, pack_imp_uint64. repeat (zcase; try reflexivity). Qed.

Lemma pack_int32_int64 z : - 2 ^ 31 ≤ z < 2 ^ 31 → pack_imp_int32 z = pack_imp_int64 z.
Proof. intros. unfold pack_imp_int32, pack_imp_int64. repeat (zcase; try reflexivity). Qed.

Lemma pack_uint32_uint64 z : 0 ≤ z < 2 ^ 32 → pack_imp_uint32 z = pack_imp_uint64 z.
Proof. intros. unfold pack_imp_uint32, pack_imp_uint64. repeat (zcase; try reflexivity). Qed.
#[export] Hint Rewrite pack_int64_pos pack_int32_int64 pack_uint32_uint64 using lia : mprpc.

Lemma pack_object_nonempty o : wf_object o = true → pack_object o ≠ [].
Proof.
  destruct o as [|[]| | | | | | | | |[|? ?]]; intros Hwf; try discriminate; cbn [pack_object];
    unfold pack_imp_uint64, pack_imp_int64, pack_str, pack_bin, pack_array, pack_map, pack_ext;
    repeat case_match; discriminate.
Qed.
