(* ===== verification/MsgpackParse.v ===== *)
(** The MessagePack parser and its visitors.

    Models [msgpack::detail::context::execute] and its helpers
    (extern/msgpack-c/include/msgpack/v3/parse.hpp), [msgpack::parse] (v2/parse.hpp), the
    [null_visitor], and [create_object_visitor] with [msgpack::unpack], as mpRPC uses them:
    a fresh context per call. *)

From S2P Require Import Prelude Errors MsgpackObject.

(** ** Visitors *)

(** The calls a parser makes to its visitor. Strings, binaries and extensions come with the
    bytes the pointer and the size argument delimit. *)
Inductive event : Type :=
| visit_nil
| visit_boolean (v : bool)
| visit_positive_integer (v : Z)
| visit_negative_integer (v : Z)
| visit_float32 (bits : Z)
| visit_float64 (bits : Z)
| visit_str (v : list byte)
| visit_bin (v : list byte)
| visit_ext (v : list byte)
| start_array (num_elements : Z)
| start_array_item
| end_array_item
| end_array
| start_map (num_kv_pairs : Z)
| start_map_key
| end_map_key
| start_map_value
| end_map_value
| end_map.

(** A visitor answers whether to go on, or throws. *)
Class Visitor (V : Type) := {
  visit : V → event → result (bool * V);
  on_parse_error : V → Z → Z → result V;
  on_insufficient_bytes : V → Z → Z → result V;
}.

Inductive parse_return : Type :=
| PARSE_SUCCESS
| PARSE_EXTRA_BYTES
| PARSE_CONTINUE
| PARSE_PARSE_ERROR
| PARSE_STOP_VISITOR.

#[export] Instance parse_return_eq_dec : EqDecision parse_return.
Proof. solve_decision. Defined.

(** [msgpack_unpack_state] *)
Inductive unpack_state : Type :=
| CS_HEADER
| CS_BIN_8 | CS_BIN_16 | CS_BIN_32
| CS_EXT_8 | CS_EXT_16 | CS_EXT_32
| CS_FLOAT | CS_DOUBLE
| CS_UINT_8 | CS_UINT_16 | CS_UINT_32 | CS_UINT_64
| CS_INT_8 | CS_INT_16 | CS_INT_32 | CS_INT_64
| CS_FIXEXT_1 | CS_FIXEXT_2 | CS_FIXEXT_4 | CS_FIXEXT_8 | CS_FIXEXT_16
| CS_STR_8 | CS_STR_16 | CS_STR_32
| CS_ARRAY_16 | CS_ARRAY_32
| CS_MAP_16 | CS_MAP_32
| ACS_STR_VALUE | ACS_BIN_VALUE | ACS_EXT_VALUE.
#[export] Instance unpack_state_eq_dec : EqDecision unpack_state.
Proof. solve_decision. Defined.

(** [msgpack_container_type] *)
Inductive container_type : Type := CT_ARRAY_ITEM | CT_MAP_KEY | CT_MAP_VALUE.

(** [unpack_stack::stack_elem] *)
Record stack_elem := mk_stack_elem { m_type : container_type; m_rest : Z }.

(** The states of the enumeration from 0x04 on, in its order: [next_cs] is the low five bits
    of the selector, which the table of the selectors 0xc4 to 0xdf runs through. *)
Definition trail_states : list unpack_state :=
  [CS_BIN_8; CS_BIN_16; CS_BIN_32; CS_EXT_8; CS_EXT_16; CS_EXT_32; CS_FLOAT; CS_DOUBLE;
   CS_UINT_8; CS_UINT_16; CS_UINT_32; CS_UINT_64; CS_INT_8; CS_INT_16; CS_INT_32; CS_INT_64;
   CS_FIXEXT_1; CS_FIXEXT_2; CS_FIXEXT_4; CS_FIXEXT_8; CS_FIXEXT_16;
   CS_STR_8; CS_STR_16; CS_STR_32; CS_ARRAY_16; CS_ARRAY_32; CS_MAP_16; CS_MAP_32].

Definition trail_table : list Z :=
  [1; 2; 4; 1; 2; 4; 4; 8; 1; 2; 4; 8; 1; 2; 4; 8; 2; 3; 5; 9; 17; 1; 2; 4; 2; 4; 2; 4].

Definition next_cs (selector : Z) : unpack_state :=
  nth (Z.to_nat (Z.land selector 0x1f - 0x04)) trail_states CS_HEADER.
Definition trail_of (selector : Z) : Z :=
  nth (Z.to_nat (selector - 0xc4)) trail_table 0.

(** ** The parser *)

Section parser.
Context {V : Type} `{Visitor V}.
Local Open Scope outcome_scope.

(** [context]: [m_current] as the offset [m_current - m_start] together with the bytes
    from there to the end of the data; the local [fixed_trail_again] of [execute]; and the
    visitor. The back of [m_stack] is the head of the list. *)
Record context := mk_context {
  m_current : Z;
  rest : list byte;
  m_trail : Z;
  m_cs : unpack_state;
  fixed_trail_again : bool;
  m_stack : list stack_elem;
  visitor : V;
}.

(** One iteration of the loop of [execute] goes on with a new context or returns from
    [execute] with the offset it stored. *)
Definition step_result : Type := context + (parse_return * Z * V).

(** Call the visitor; [stop] gives the result when it answers false. *)
Definition visit_or {A} (v : V) (ev : event) (stop : V → A) (k : V → result A) : result A :=
  let! p := visit v ev in
  let '(go, v') := p in
  if go : bool then k v' else Ok (stop v').

(** [unpack_stack::consume]: the second component is the change of [current]. *)
Fixpoint consume (st : list stack_elem) (v : V) :
    result (parse_return * Z * list stack_elem * V) :=
  match st with
  | [] => Ok (PARSE_SUCCESS, 0, [], v)
  | e :: st' =>
      match m_type e with
      | CT_ARRAY_ITEM =>
          visit_or v end_array_item (λ v, (PARSE_STOP_VISITOR, -1, st, v)) (λ v,
          let m_rest' := wrap32 (m_rest e - 1) in
          if m_rest' =? 0 then
            visit_or v end_array (λ v, (PARSE_STOP_VISITOR, -1, st', v)) (λ v,
            consume st' v)
          else
            let st1 := mk_stack_elem CT_ARRAY_ITEM m_rest' :: st' in
            visit_or v start_array_item (λ v, (PARSE_STOP_VISITOR, 0, st1, v)) (λ v,
            Ok (PARSE_CONTINUE, 0, st1, v)))
      | CT_MAP_KEY =>
          visit_or v end_map_key (λ v, (PARSE_STOP_VISITOR, -1, st, v)) (λ v,
          visit_or v start_map_value (λ v, (PARSE_STOP_VISITOR, 0, st, v)) (λ v,
          Ok (PARSE_CONTINUE, 0, mk_stack_elem CT_MAP_VALUE (m_rest e) :: st', v)))
      | CT_MAP_VALUE =>
          visit_or v end_map_value (λ v, (PARSE_STOP_VISITOR, -1, st, v)) (λ v,
          let m_rest' := wrap32 (m_rest e - 1) in
          if m_rest' =? 0 then
            visit_or v end_map (λ v, (PARSE_STOP_VISITOR, -1, st', v)) (λ v,
            consume st' v)
          else
            let st1 := mk_stack_elem CT_MAP_KEY m_rest' :: st' in
            visit_or v start_map_key (λ v, (PARSE_STOP_VISITOR, 0, st1, v)) (λ v,
            Ok (PARSE_CONTINUE, 0, st1, v)))
      end
  end.

(** [unpack_stack::push] (only called with the two start types). *)
Definition push (st : list stack_elem) (type : container_type) (r : Z) (v : V) :
    result (parse_return * list stack_elem * V) :=
  let st' := mk_stack_elem type r :: st in
  match type with
  | CT_ARRAY_ITEM =>
      visit_or v start_array_item (λ v, (PARSE_STOP_VISITOR, st', v)) (λ v,
      Ok (PARSE_CONTINUE, st', v))
  | CT_MAP_KEY =>
      visit_or v start_map_key (λ v, (PARSE_STOP_VISITOR, st', v)) (λ v,
      Ok (PARSE_CONTINUE, st', v))
  | CT_MAP_VALUE => Ok (PARSE_STOP_VISITOR, st', v)
  end.

(** The context after [++m_current; m_cs = MSGPACK_CS_HEADER]. *)
Definition advance (c : context) (st : list stack_elem) (v : V) : context :=
  mk_context (m_current c + 1) (tail (rest c)) (m_trail c) CS_HEADER
    (fixed_trail_again c) st v.

(** The call to [consume] that [after_visit_proc] and an empty aggregate share. *)
Definition consume_and_advance (c : context) (v : V) : result step_result :=
  let! r := consume (m_stack c) v in
  let '(ret, d, st, v) := r in
  match ret with
  | PARSE_CONTINUE => Ok (inl (advance c st v))
  | _ => Ok (inr (ret, m_current c + d + 1, v))
  end.

Definition after_visit_proc (c : context) (ev : event) : result step_result :=
  visit_or (visitor c) ev (λ v, inr (PARSE_STOP_VISITOR, m_current c, v)) (λ v,
  consume_and_advance c v).

Definition start_aggregate (c : context) (sv : Z → event) (ev : event)
    (type : container_type) (size : Z) : result step_result :=
  visit_or (visitor c) (sv size) (λ v, inr (PARSE_STOP_VISITOR, m_current c, v)) (λ v,
  if size =? 0 then
    visit_or v ev (λ v, inr (PARSE_STOP_VISITOR, m_current c, v)) (λ v,
    consume_and_advance c v)
  else
    let! r := push (m_stack c) type size v in
    let '(ret, st, v) := r in
    match ret with
    | PARSE_CONTINUE => Ok (inl (advance c st v))
    | _ => Ok (inr (ret, m_current c + 1, v))
    end).

Definition set_trail (c : context) (trail : Z) (cs : unpack_state) (again : bool) :
    context :=
  mk_context (m_current c) (rest c) trail cs again (m_stack c) (visitor c).

(** The part of an iteration for [m_cs == MSGPACK_CS_HEADER]. *)
Definition header_step (c0 : context) (selector : Z) : result step_result :=
  let c := set_trail c0 (m_trail c0) CS_HEADER false in
  if (0x00 <=? selector) && (selector <=? 0x7f) then
    after_visit_proc c (visit_positive_integer selector)
  else if (0xe0 <=? selector) && (selector <=? 0xff) then
    after_visit_proc c (visit_negative_integer (to_signed 8 selector))
  else if (0xc4 <=? selector) && (selector <=? 0xdf) then
    Ok (inl (set_trail c (trail_of selector) (next_cs selector) true))
  else if (0xa0 <=? selector) && (selector <=? 0xbf) then
    let trail := Z.land selector 0x1f in
    if trail =? 0 then after_visit_proc (set_trail c trail CS_HEADER false) (visit_str [])
    else Ok (inl (set_trail c trail ACS_STR_VALUE true))
  else if (0x90 <=? selector) && (selector <=? 0x9f) then
    start_aggregate c start_array end_array CT_ARRAY_ITEM (Z.land selector 0x0f)
  else if (0x80 <=? selector) && (selector <=? 0x8f) then
    start_aggregate c start_map end_map CT_MAP_KEY (Z.land selector 0x0f)
  else if selector =? 0xc2 then after_visit_proc c (visit_boolean false)
  else if selector =? 0xc3 then after_visit_proc c (visit_boolean true)
  else if selector =? 0xc0 then after_visit_proc c visit_nil
  else
    let! v := on_parse_error (visitor c) (m_current c - 1) (m_current c) in
    Ok (inr (PARSE_PARSE_ERROR, m_current c, v)).

(** A length-prefixed value: the length was loaded into [m_trail]. *)
Definition sized_value (c : context) (trail : Z) (value_cs : unpack_state)
    (ev : list byte → event) : result step_result :=
  if trail =? 0 then after_visit_proc (set_trail c trail (m_cs c) false) (ev [])
  else Ok (inl (set_trail c trail value_cs true)).

(** The [switch] of an iteration; [n] holds the [m_trail] bytes at [n], [noff] is
    [n - m_start]. [check_ext_size] does nothing with a 64-bit [size_t]. *)
Definition trail_switch (c : context) (n : list byte) (noff : Z) : result step_result :=
  let bytes := take (Z.to_nat (wrap32 (m_trail c))) n in
  match m_cs c with
  | CS_FLOAT => after_visit_proc c (visit_float32 (be_load n))
  | CS_DOUBLE => after_visit_proc c (visit_float64 (be_load n))
  | CS_UINT_8 | CS_UINT_16 | CS_UINT_32 | CS_UINT_64 =>
      after_visit_proc c (visit_positive_integer (be_load n))
  | CS_INT_8 => after_visit_proc c (visit_negative_integer (to_signed 8 (be_load n)))
  | CS_INT_16 => after_visit_proc c (visit_negative_integer (to_signed 16 (be_load n)))
  | CS_INT_32 => after_visit_proc c (visit_negative_integer (to_signed 32 (be_load n)))
  | CS_INT_64 => after_visit_proc c (visit_negative_integer (to_signed 64 (be_load n)))
  | CS_FIXEXT_1 => after_visit_proc c (visit_ext (take 2 n))
  | CS_FIXEXT_2 => after_visit_proc c (visit_ext (take 3 n))
  | CS_FIXEXT_4 => after_visit_proc c (visit_ext (take 5 n))
  | CS_FIXEXT_8 => after_visit_proc c (visit_ext (take 9 n))
  | CS_FIXEXT_16 => after_visit_proc c (visit_ext (take 17 n))
  | CS_STR_8 | CS_STR_16 | CS_STR_32 => sized_value c (be_load n) ACS_STR_VALUE visit_str
  | CS_BIN_8 | CS_BIN_16 | CS_BIN_32 => sized_value c (be_load n) ACS_BIN_VALUE visit_bin
  | CS_EXT_8 | CS_EXT_16 | CS_EXT_32 =>
      sized_value c (be_load n + 1) ACS_EXT_VALUE visit_ext
  | ACS_STR_VALUE => after_visit_proc c (visit_str bytes)
  | ACS_BIN_VALUE => after_visit_proc c (visit_bin bytes)
  | ACS_EXT_VALUE => after_visit_proc c (visit_ext bytes)
  | CS_ARRAY_16 | CS_ARRAY_32 =>
      start_aggregate c start_array end_array CT_ARRAY_ITEM (be_load n)
  | CS_MAP_16 | CS_MAP_32 => start_aggregate c start_map end_map CT_MAP_KEY (be_load n)
  | CS_HEADER =>
      let! v := on_parse_error (visitor c) (noff - 1) noff in
      Ok (inr (PARSE_PARSE_ERROR, m_current c, v))
  end.

(** [if (fixed_trail_again) { ++m_current; fixed_trail_again = false; }] *)
Definition skip_header (c : context) : context :=
  if fixed_trail_again c then
    mk_context (m_current c + 1) (tail (rest c)) (m_trail c) (m_cs c) false (m_stack c)
      (visitor c)
  else c.

(** The part of an iteration for the other states. *)
Definition trail_step (c0 : context) : result step_result :=
  let c := skip_header c0 in
  if Z.of_nat (length (rest c)) <? m_trail c then
    Ok (inr (PARSE_CONTINUE, m_current c, visitor c))
  else
    let c' :=
      mk_context (m_current c + (m_trail c - 1)) (drop (Z.to_nat (m_trail c - 1)) (rest c))
        (m_trail c) (m_cs c) false (m_stack c) (visitor c) in
    trail_switch c' (take (Z.to_nat (m_trail c)) (rest c)) (m_current c).

(** One iteration; it starts with [m_current != pe]. *)
Definition step (c : context) : result step_result :=
  let! r :=
    match m_cs c, rest c with
    | CS_HEADER, b :: _ => header_step c (byte_to_Z b)
    | _, _ => Ok (inl c)
    end in
  match r with
  | inl c' =>
      if negb (bool_decide (m_cs c' = CS_HEADER)) || fixed_trail_again c' then trail_step c'
      else Ok (inl c')
  | inr ret => Ok (inr ret)
  end.

(** The [do ... while (m_current != pe)] loop. *)
Fixpoint loop (fuel : nat) (c : context) : result (parse_return * Z * V) :=
  match rest c, fuel with
  | [], _ | _, O => Ok (PARSE_CONTINUE, m_current c, visitor c)
  | _, S fuel' =>
      let! r := step c in
      match r with
      | inl c' => loop fuel' c'
      | inr ret => Ok ret
      end
  end.

Definition run (c : context) : result (parse_return * Z * V) := loop (length (rest c)) c.

(** [parse_helper::execute] on a fresh context. *)
Definition init_context (off : Z) (data : list byte) (v : V) : context :=
  mk_context off (drop (Z.to_nat off) data) 0 CS_HEADER false [] v.
Definition execute (data : list byte) (off : Z) (v : V) : result (parse_return * Z * V) :=
  run (init_context off data v).

(** [parse_imp] *)
Definition parse_imp (data : list byte) (off : Z) (v : V) : result (parse_return * Z * V) :=
  let len := Z.of_nat (length data) in
  if len <=? off then
    let! v := on_insufficient_bytes v off off in Ok (PARSE_CONTINUE, off, v)
  else
    let! r := execute data off v in
    let '(ret, noff, v) := r in
    match ret with
    | PARSE_CONTINUE =>
        let! v := on_insufficient_bytes v (noff - 1) noff in Ok (PARSE_CONTINUE, noff, v)
    | PARSE_SUCCESS =>
        if noff <? len then Ok (PARSE_EXTRA_BYTES, noff, v) else Ok (PARSE_SUCCESS, noff, v)
    | _ => Ok (ret, noff, v)
    end.

(** [msgpack::parse]: whether an object was parsed, and the offset behind it. *)
Definition parse (data : list byte) (off : Z) (v : V) : result (bool * Z * V) :=
  let! r := parse_imp data off v in
  let '(ret, noff, v) := r in
  match ret with
  | PARSE_SUCCESS | PARSE_EXTRA_BYTES => Ok (true, noff, v)
  | _ => Ok (false, noff, v)
  end.
End parser.
Arguments context : clear implicits.
Arguments step_result : clear implicits.
