(* ===== verification/MsgpackFacts.v ===== *)
(** Facts about the MessagePack parser that hold for every visitor: each iteration makes
    progress and stays inside the data, a finished parse does not depend on what follows the
    object, and an unfinished one cannot have finished on less. *)

From S2P Require Import Prelude Errors MsgpackObject MsgpackParse.

Section facts.
Context {V : Type} `{Visitor V}.

Abbreviation context := (MsgpackParse.context V).
Abbreviation step_result := (MsgpackParse.step_result V).
Abbreviation parsed := (result (parse_return * Z * V)).
Implicit Types (c : context) (v : V).

(** ** Contexts of the loop *)

Definition loop_inv c : Prop :=
  match m_cs c with
  | CS_HEADER => fixed_trail_again c = false
  | _ => fixed_trail_again c = true ∧ 1 ≤ m_trail c
  end.

Lemma loop_inv_trail c :
  m_cs c ≠ CS_HEADER → loop_inv c ↔ fixed_trail_again c = true ∧ 1 ≤ m_trail c.
Proof. unfold loop_inv. by destruct (m_cs c). Qed.

Definition end_off c : Z := m_current c + Z.of_nat (length (rest c)).

(** What an iteration that starts in [c] may answer: a context at least [lo] bytes further
    on, or an offset inside the data, behind at least one byte for a complete object. *)
Definition within (lo : nat) c (r : result step_result) : Prop :=
  match r with
  | Ok (inl c') =>
      ∃ k : nat, (lo ≤ k)%nat ∧ (k ≤ length (rest c))%nat ∧
        m_current c' = m_current c + Z.of_nat k ∧ rest c' = drop k (rest c) ∧ loop_inv c' ∧
        (m_cs c' = CS_HEADER → (1 ≤ k)%nat) ∧ (m_cs c' ≠ CS_HEADER → rest c' ≠ [])
  | Ok (inr (ret, off, _)) =>
      m_current c ≤ off ≤ end_off c ∧ ret ≠ PARSE_EXTRA_BYTES ∧
      (ret = PARSE_SUCCESS → m_current c < off)
  | Throw _ => True
  end.

(** What a call to [visit_or] does, case by case. *)
Lemma visit_or_cases {A} (P : result A → Prop) v ev stop (k : V → result A) :
  (∀ e, P (Throw e)) → (∀ v', P (Ok (stop v'))) → (∀ v', P (k v')) →
  P (visit_or v ev stop k).
Proof. unfold visit_or. destruct (visit v ev) as [[[] v']|e]; simpl; auto. Qed.

Definition consume_answer (r : result (parse_return * Z * list stack_elem * V)) : Prop :=
  match r with
  | Ok (PARSE_STOP_VISITOR, d, _, _) => -1 ≤ d ≤ 0
  | Ok (PARSE_SUCCESS, d, _, _) | Ok (PARSE_CONTINUE, d, _, _) => d = 0
  | Ok _ => False
  | Throw _ => True
  end.

Lemma consume_ret st v : consume_answer (consume st v).
Proof.
  revert v. induction st as [|e st IH]; intros v; [done|].
  cbn [consume]. destruct (m_type e);
    repeat (apply visit_or_cases; intros; [done|simpl; lia|]);
    try case_match; repeat (apply visit_or_cases; intros; [done|simpl; lia|]); auto; done.
Qed.

Lemma consume_and_advance_within c v :
  rest c ≠ [] → fixed_trail_again c = false → within 1 c (consume_and_advance c v).
Proof.
  intros Hr Hf. unfold consume_and_advance.
  pose proof (consume_ret (m_stack c) v) as E.
  destruct (consume (m_stack c) v) as [[[[ret d] st] v']|e]; [|done]. simpl in *.
  unfold within, end_off.
  assert (1 ≤ length (rest c))%nat by (destruct (rest c); simpl; [done|lia]).
  destruct ret; simpl; try done; try (split_and!; [lia..|done|intros; congruence || lia]).
  exists 1%nat. by repeat split; try lia.
Qed.

Lemma after_visit_within c ev :
  rest c ≠ [] → fixed_trail_again c = false → within 1 c (after_visit_proc c ev).
Proof.
  intros Hr Hf. unfold after_visit_proc. apply visit_or_cases; intros; simpl; [done| |].
  - unfold end_off. split; [lia|done].
  - by apply consume_and_advance_within.
Qed.

Lemma within_weaken lo lo' c r : (lo' ≤ lo)%nat → within lo c r → within lo' c r.
Proof.
  intros Hlo. unfold within. destruct r as [[c'|[[ret off] v]]|e]; [|done..].
  intros (k & ? & ?). exists k. split; [lia|done].
Qed.

(** An answer seen from [c], for a context [j] bytes further on. *)
Lemma within_shift lo (j : nat) c c' r :
  m_current c' = m_current c + Z.of_nat j → rest c' = drop j (rest c) →
  (j ≤ length (rest c))%nat → within lo c' r → within (lo + j) c r.
Proof.
  intros Hcur Hrest Hj. unfold within, end_off. rewrite Hrest, length_drop.
  destruct r as [[c''|[[ret off] v]]|e]; [|intros (? & ? & Hs); split_and!; [lia..|done|]; intros ->|done].
  - intros (k & ? & ? & ? & Hd & ? & Hk & ?). exists (j + k)%nat.
    rewrite Hd in *. rewrite drop_drop in *. repeat split; try done; try lia.
    intros Hc%Hk. lia.
  - specialize (Hs eq_refl). lia.
Qed.

Lemma start_aggregate_within c sv ev ty size :
  rest c ≠ [] → fixed_trail_again c = false → within 1 c (start_aggregate c sv ev ty size).
Proof.
  intros Hr Hf. unfold start_aggregate.
  assert (1 ≤ length (rest c))%nat by (destruct (rest c); simpl; [done|lia]).
  assert (∀ v', within 1 c (Ok (inr (PARSE_STOP_VISITOR, m_current c, v')))).
  { intros v'. unfold within, end_off. split; [lia|done]. }
  apply visit_or_cases; intros; [done|auto|].
  case_match; [apply visit_or_cases; intros; [done|auto|by apply consume_and_advance_within]|].
  unfold push. destruct ty; simpl.
  1, 2: unfold visit_or; destruct (visit _ _) as [[[] v1]|]; simpl; [|unfold end_off; split; [lia|done]|done].
  1, 2: exists 1%nat; repeat split; try done; try lia; by destruct (rest c).
  unfold end_off; split; [lia|done].
Qed.

Lemma sized_value_within c trail cs ev :
  rest c ≠ [] → 0 ≤ trail → cs ≠ CS_HEADER → within 0 c (sized_value c trail cs ev).
Proof.
  intros Hr Ht Hcs. unfold sized_value. destruct (Z.eqb_spec trail 0).
  - apply (within_weaken 1); [lia|]. by apply (after_visit_within (set_trail _ _ _ _)).
  - exists 0%nat. simpl. rewrite drop_0. repeat split; try done; try lia.
    apply loop_inv_trail; [done|]. simpl. split; [done|lia].
Qed.

Lemma trail_switch_within c n noff :
  rest c ≠ [] → fixed_trail_again c = false → within 0 c (trail_switch c n noff).
Proof.
  intros Hr Hf. pose proof (be_load_range n). unfold trail_switch.
  destruct (m_cs c);
    first [ apply (within_weaken 1); [lia|]; first [by apply after_visit_within|by apply start_aggregate_within]
          | apply sized_value_within; [done|lia|done]
          | idtac ].
  destruct (on_parse_error _ _ _); simpl; [|done]. unfold end_off. split; [lia|done].
Qed.

Lemma trail_step_within c :
  rest c ≠ [] → fixed_trail_again c = true → 1 ≤ m_trail c → within 1 c (trail_step c).
Proof.
  intros Hr Hf Ht. unfold trail_step, skip_header. rewrite Hf.
  destruct (rest c) as [|b tl] eqn:E; [done|]. cbn [rest m_trail m_current m_cs m_stack visitor tail].
  destruct (Z.ltb_spec0 (Z.of_nat (length tl)) (m_trail c)) as [Hlt|Hge].
  { simpl. unfold end_off. rewrite E. simpl. split; [lia|done]. }
  apply (within_weaken (0 + Z.to_nat (m_trail c))); [lia|].
  eapply within_shift; cycle 3.
  - apply trail_switch_within; [|done]. simpl. intros Hnil%(f_equal length).
    rewrite length_drop in Hnil. simpl in Hnil. lia.
  - simpl. lia.
  - simpl. rewrite E. destruct (Z.to_nat (m_trail c)) eqn:Et; [lia|]. simpl. f_equal. lia.
  - rewrite E. simpl. lia.
Qed.

Lemma next_cs_trail selector :
  0xc4 ≤ selector ≤ 0xdf → next_cs selector ≠ CS_HEADER ∧ 1 ≤ trail_of selector.
Proof.
  intros Hs.
  pose proof (Z_below (λ k, bool_decide (next_cs (0xc4 + k) ≠ CS_HEADER ∧
    1 ≤ trail_of (0xc4 + k))) 28 eq_refl (selector - 0xc4) ltac:(lia)) as Hb.
  cbv beta in Hb. replace (0xc4 + (selector - 0xc4)) with selector in Hb by lia.
  exact (bool_decide_eq_true_1 _ Hb).
Qed.

Lemma header_step_within c selector :
  rest c ≠ [] → within 0 c (header_step c selector).
Proof.
  intros Hr. unfold header_step.
  set (c' := set_trail c (m_trail c) CS_HEADER false).
  assert (∀ ev, within 0 c (after_visit_proc c' ev)) as Hav.
  { intros. apply (within_weaken 1); [lia|]. by apply (after_visit_within c'). }
  assert (∀ ev, within 0 c (after_visit_proc (set_trail c' (Z.land selector 31) CS_HEADER false) ev)).
  { intros. apply (within_weaken 1); [lia|]. by apply (after_visit_within (set_trail c' _ _ _)). }
  assert (∀ sv ev ty size, within 0 c (start_aggregate c' sv ev ty size)).
  { intros. apply (within_weaken 1); [lia|]. by apply (start_aggregate_within c'). }
  assert (∀ t cs, cs ≠ CS_HEADER → 1 ≤ t → within 0 c (Ok (inl (set_trail c' t cs true)))) as Hset.
  { intros. exists 0%nat. simpl. rewrite drop_0. repeat split; try done; try lia.
    by apply loop_inv_trail. }
  repeat case_match; auto.
  - match goal with Hs : (_ && _)%bool = true |- _ => apply andb_prop in Hs as [?%Z.leb_le ?%Z.leb_le] end.
    destruct (next_cs_trail selector); auto; lia.
  - match goal with Hs : (Z.land _ _ =? _) = false |- _ => apply Z.eqb_neq in Hs end.
    apply Hset; [done|]. pose proof (Z.land_nonneg selector 31). lia.
  - simpl. destruct (on_parse_error _ _ _); simpl; [|done]. unfold end_off. split; [lia|done].
Qed.

(** The two forms of an iteration. *)
Lemma step_trail c : m_cs c ≠ CS_HEADER → step c = trail_step c.
Proof. intros. unfold step. destruct (m_cs c) eqn:Ec; try done; simpl; by rewrite Ec. Qed.

Definition after_header c (r : result step_result) : result step_result :=
  match r with
  | Ok (inl c') => if decide (m_cs c' = CS_HEADER) then Ok (inl c') else trail_step c'
  | _ => r
  end.

Lemma step_header c b tl :
  m_cs c = CS_HEADER → rest c = b :: tl →
  step c = after_header c (header_step c (byte_to_Z b)).
Proof.
  intros Hh E. unfold step. rewrite Hh, E.
  pose proof (header_step_within c (byte_to_Z b) ltac:(congruence)) as Hw.
  destruct (header_step c (byte_to_Z b)) as [[c'|[[ret off] v]]|e]; [|done..]. simpl in *.
  destruct Hw as (k & _ & _ & _ & _ & Hinv & _).
  destruct (decide (m_cs c' = CS_HEADER)) as [Hc|Hc].
  - rewrite (bool_decide_eq_true_2 _ Hc). unfold loop_inv in Hinv. rewrite Hc in Hinv.
    by rewrite Hinv.
  - by rewrite (bool_decide_eq_false_2 _ Hc).
Qed.

Lemma step_within c : loop_inv c → rest c ≠ [] → within 1 c (step c).
Proof.
  intros Hinv Hr. destruct (decide (m_cs c = CS_HEADER)) as [Hh|Hh].
  - destruct (rest c) as [|b tl] eqn:E; [done|]. rewrite (step_header c b tl) by done.
    pose proof (header_step_within c (byte_to_Z b) ltac:(congruence)) as Hw.
    destruct (header_step c (byte_to_Z b)) as [[c'|[[ret off] v]]|e]; [|done..]. simpl in Hw |- *.
    destruct Hw as (k & _ & ? & Hcur & Hrest & Hinv' & Hk & Hne).
    destruct (decide (m_cs c' = CS_HEADER)) as [Hc|Hc]; [exists k; repeat split; auto; done|].
    apply loop_inv_trail in Hinv' as [? ?]; [|done].
    apply (within_weaken (1 + k)); [lia|].
    eapply within_shift; [done|done|done|apply trail_step_within; auto].
  - rewrite step_trail by done. apply loop_inv_trail in Hinv as [? ?]; [|done].
    by apply trail_step_within.
Qed.

(** ** Termination *)

Lemma loop_step n c :
  rest c ≠ [] →
  loop (S n) c = outcome_bind (step c) (λ r, match r with inl c' => loop n c' | inr ret => Ok ret end).
Proof. intros. simpl. by destruct (rest c). Qed.

Lemma loop_empty n c : rest c = [] → loop n c = Ok (PARSE_CONTINUE, m_current c, visitor c).
Proof. intros Hr. destruct n; simpl; by rewrite Hr. Qed.

Lemma loop_fuels n m c :
  loop_inv c → (length (rest c) ≤ n)%nat → (length (rest c) ≤ m)%nat → loop n c = loop m c.
Proof.
  revert m c. induction n as [|n IH]; intros m c Hinv Hn Hm.
  { rewrite !loop_empty; [done|apply nil_length_inv; lia..]. }
  destruct (decide (rest c = [])) as [|Hr]; [by rewrite !loop_empty|].
  destruct m as [|m]; [destruct (rest c); simpl in *; [done|lia]|].
  rewrite !loop_step by done. pose proof (step_within c Hinv Hr) as Hw.
  destruct (step c) as [[c'|[[ret off] v]]|e]; [|done..]. simpl in *.
  destruct Hw as (k & ? & ? & _ & Hrest & Hinv' & _).
  apply (f_equal length) in Hrest. rewrite length_drop in Hrest.
  rewrite (IH m c'); [done|done|lia|lia].
Qed.

(** The length of the data is enough fuel: [run] satisfies the equation of the loop. *)
Lemma run_unfold c :
  loop_inv c → rest c ≠ [] →
  run c = outcome_bind (step c) (λ r, match r with inl c' => run c' | inr ret => Ok ret end).
Proof.
  intros Hinv Hr. unfold run. destruct (length (rest c)) as [|n] eqn:Hl.
  { by apply nil_length_inv in Hl. }
  rewrite loop_step by done. pose proof (step_within c Hinv Hr) as Hw.
  destruct (step c) as [[c'|ret]|e]; [|done..]. simpl in *.
  destruct Hw as (k & ? & ? & _ & Hrest & Hinv' & _).
  apply (f_equal length) in Hrest. rewrite length_drop in Hrest.
  apply loop_fuels; [done|lia..].
Qed.

Lemma run_empty c : rest c = [] → run c = Ok (PARSE_CONTINUE, m_current c, visitor c).
Proof. apply loop_empty. Qed.

(** Induction along the iterations of a parse. *)
Lemma run_ind (P : context → Prop) :
  (∀ c, loop_inv c → rest c = [] → P c) →
  (∀ c, loop_inv c → rest c ≠ [] →
    (∀ c', step c = Ok (inl c') → loop_inv c' → P c') → P c) →
  ∀ c, loop_inv c → P c.
Proof.
  intros Hnil Hcons c. remember (length (rest c)) as n eqn:Hn.
  assert (length (rest c) ≤ n)%nat as Hle by lia. clear Hn. revert c Hle.
  induction n as [|n IH]; intros c Hle Hinv;
    (destruct (decide (rest c = [])) as [|Hr]; [by apply Hnil|]).
  { destruct (rest c); simpl in *; [done|lia]. }
  apply Hcons; [done..|]. intros c' Hstep Hinv'. apply IH; [|done].
  pose proof (step_within c Hinv Hr) as Hw. rewrite Hstep in Hw.
  destruct Hw as (k & ? & ? & _ & Hrest & _).
  apply (f_equal length) in Hrest. rewrite length_drop in Hrest. lia.
Qed.

(** ** Bounds *)

Lemma step_inl_inv c c' :
  loop_inv c → rest c ≠ [] → step c = Ok (inl c') →
  loop_inv c' ∧ end_off c' = end_off c ∧ m_current c < m_current c' ∧
  m_current c' ≤ end_off c.
Proof.
  intros Hinv Hr Hs. pose proof (step_within c Hinv Hr) as Hw. rewrite Hs in Hw.
  destruct Hw as (k & ? & ? & Hcur & Hrest & Hinv' & _). unfold end_off.
  rewrite Hrest, length_drop. split; [done|lia].
Qed.

Lemma run_bounds c :
  loop_inv c → ∀ ret off v, run c = Ok (ret, off, v) →
  m_current c ≤ off ≤ end_off c ∧ ret ≠ PARSE_EXTRA_BYTES ∧
  (ret = PARSE_SUCCESS → m_current c < off).
Proof.
  revert c. apply (run_ind (λ c, ∀ ret off v, run c = Ok (ret, off, v) → _)).
  - intros c _ Hr ret off v. rewrite run_empty by done. intros [= <- <- <-].
    unfold end_off. split; [lia|done].
  - intros c Hinv Hr IH ret off v. rewrite run_unfold by done.
    pose proof (step_within c Hinv Hr) as Hw.
    destruct (step c) as [[c'|[[ret' off'] v']]|e] eqn:Hs; simpl; [|intros [= <- <- <-]; done|done].
    destruct (step_inl_inv c c' Hinv Hr Hs) as (Hinv' & He & Hlt & _). intros Hrun.
    destruct (IH c' eq_refl Hinv' _ _ _ Hrun) as (? & ? & _).
    split_and!; [lia..|done|]. intros _. lia.
Qed.

(** ** Independence from the bytes behind the object *)

Definition ext (x : list byte) c : context :=
  mk_context (m_current c) (rest c ++ x) (m_trail c) (m_cs c) (fixed_trail_again c)
    (m_stack c) (visitor c).
Definition ext_res (x : list byte) (r : result step_result) : result step_result :=
  match r with Ok (inl c) => Ok (inl (ext x c)) | _ => r end.

Lemma ext_visit_or x v ev s (k1 k2 : V → result step_result) :
  (∀ v', k1 v' = ext_res x (k2 v')) →
  visit_or v ev (λ v', inr (s v')) k1 = ext_res x (visit_or v ev (λ v', inr (s v')) k2).
Proof. intros Hk. unfold visit_or. destruct (visit v ev) as [[[] ?]|]; simpl; auto. Qed.

Lemma consume_and_advance_ext x c v :
  rest c ≠ [] → consume_and_advance (ext x c) v = ext_res x (consume_and_advance c v).
Proof.
  intros Hr. unfold consume_and_advance. simpl.
  destruct (consume _ _) as [[[[[] d] st] v']|]; simpl; try done.
  unfold advance, ext. simpl. by destruct (rest c).
Qed.

Lemma after_visit_ext x c ev :
  rest c ≠ [] → after_visit_proc (ext x c) ev = ext_res x (after_visit_proc c ev).
Proof. intros. apply ext_visit_or. intros. by apply consume_and_advance_ext. Qed.

Lemma start_aggregate_ext x c sv ev ty size :
  rest c ≠ [] →
  start_aggregate (ext x c) sv ev ty size = ext_res x (start_aggregate c sv ev ty size).
Proof.
  intros Hr. apply ext_visit_or. intros v. case_match.
  { apply ext_visit_or. intros. by apply consume_and_advance_ext. }
  simpl. destruct (push _ _ _ _) as [[[[] st] v']|]; simpl; try done.
  unfold advance, ext. simpl. by destruct (rest c).
Qed.

Lemma trail_switch_ext x c n noff :
  rest c ≠ [] → trail_switch (ext x c) n noff = ext_res x (trail_switch c n noff).
Proof.
  intros Hr.
  assert (∀ t cs ev, sized_value (ext x c) t cs ev = ext_res x (sized_value c t cs ev)).
  { intros. unfold sized_value. case_match; [|done].
    by apply (after_visit_ext x (set_trail _ _ _ _)). }
  unfold trail_switch. simpl.
  destruct (m_cs c); auto using after_visit_ext, start_aggregate_ext.
  destruct (on_parse_error _ _ _); done.
Qed.

Lemma header_step_ext x c selector :
  rest c ≠ [] → header_step (ext x c) selector = ext_res x (header_step c selector).
Proof.
  intros Hr. unfold header_step.
  set (c' := set_trail c (m_trail c) CS_HEADER false).
  change (set_trail (ext x c) _ CS_HEADER false) with (ext x c').
  change (set_trail (ext x c') (Z.land selector 31) CS_HEADER false)
    with (ext x (set_trail c' (Z.land selector 31) CS_HEADER false)).
  rewrite !after_visit_ext, !start_aggregate_ext by done.
  repeat case_match; try done. by destruct (on_parse_error _ _ _).
Qed.

(** An iteration that needs bytes behind the end of [c]. *)
Definition overruns c (r : result step_result) : Prop :=
  match r with
  | Ok (inl c') => end_off c ≤ m_current c'
  | Ok (inr (ret, off, _)) => ret = PARSE_SUCCESS → end_off c < off
  | Throw _ => True
  end.

Definition ext_cases x c (f : context → result step_result) : Prop :=
  f (ext x c) = ext_res x (f c) ∨
  (∃ off v, f c = Ok (inr (PARSE_CONTINUE, off, v))) ∧ overruns c (f (ext x c)).

Lemma trail_step_ext x c :
  rest c ≠ [] → fixed_trail_again c = true → 1 ≤ m_trail c → ext_cases x c trail_step.
Proof.
  intros Hr Hf Ht. unfold ext_cases, trail_step, skip_header. simpl. rewrite Hf.
  destruct (rest c) as [|b tl] eqn:E; [done|]. simpl.
  set (m := Z.to_nat (m_trail c - 1)).
  destruct (Z.ltb_spec0 (Z.of_nat (length tl)) (m_trail c)) as [Hlt|Hge].
  - right. split; [eauto|].
    destruct (Z.ltb_spec0 (Z.of_nat (length (tl ++ x))) (m_trail c)) as [|Hge']; [done|].
    rewrite length_app in Hge'.
    match goal with |- overruns c (trail_switch ?c' ?n ?o) =>
      pose proof (trail_switch_within c' n o) as Hw; destruct (trail_switch c' n o)
        as [[c''|[[ret off] v]]|e] end; [| |done];
      simpl in *; unfold end_off in *; rewrite E; simpl in *.
    + destruct Hw as (k & _ & _ & Hcur & _); [|done|lia].
      intros Hn%(f_equal length). rewrite length_drop, length_app in Hn. simpl in Hn. lia.
    + destruct Hw as (_ & _ & Hs); [|done|intros ->; specialize (Hs eq_refl); lia].
      intros Hn%(f_equal length). rewrite length_drop, length_app in Hn. simpl in Hn. lia.
  - left. destruct (Z.ltb_spec0 (Z.of_nat (length (tl ++ x))) (m_trail c)) as [Hlt|_];
      [rewrite length_app in Hlt; lia|].
    rewrite take_app_le by lia. rewrite drop_app_le by lia.
    rewrite <-trail_switch_ext; [done|]. simpl. intros Hn%(f_equal length).
    rewrite length_drop in Hn. simpl in Hn. lia.
Qed.

Lemma step_ext x c : loop_inv c → rest c ≠ [] → ext_cases x c step.
Proof.
  intros Hinv Hr. unfold ext_cases. destruct (decide (m_cs c = CS_HEADER)) as [Hh|Hh].
  - destruct (rest c) as [|b tl] eqn:E; [done|]. rewrite (step_header c b tl) by done.
    rewrite (step_header (ext x c) b (tl ++ x)) by (simpl; rewrite ?E; done).
    pose proof (header_step_within c (byte_to_Z b) ltac:(congruence)) as Hw.
    rewrite header_step_ext by congruence.
    destruct (header_step c (byte_to_Z b)) as [[c'|[[ret off] v]]|e]; [|by left..]. simpl in Hw |- *.
    destruct Hw as (k & _ & ? & Hcur & Hrest & Hinv' & _ & Hne).
    destruct (decide (m_cs c' = CS_HEADER)) as [Hc|Hc]; [by left|].
    apply loop_inv_trail in Hinv' as [? ?]; [|done].
    destruct (trail_step_ext x c' (Hne Hc)) as [?|[? Hov]]; [done..|by left|right].
    split; [done|]. unfold overruns, end_off in *.
    rewrite Hrest, length_drop, E in Hov. rewrite E.
    destruct (trail_step (ext x c')) as [[?|[[? ?] ?]]|]; [|intros ?%Hov|]; lia || done.
  - rewrite !step_trail by done. apply loop_inv_trail in Hinv as [? ?]; [|done].
    by apply trail_step_ext.
Qed.

Lemma loop_inv_ext x c : loop_inv (ext x c) ↔ loop_inv c.
Proof. done. Qed.

(** A parse that came to an end answers the same whatever follows the data. *)
Lemma run_ext x c :
  loop_inv c → (∀ off v, run c ≠ Ok (PARSE_CONTINUE, off, v)) → run (ext x c) = run c.
Proof.
  revert c. apply (run_ind (λ c, (∀ off v, run c ≠ Ok (PARSE_CONTINUE, off, v)) → _)).
  - intros c _ Hr Hn. rewrite run_empty in Hn by done. by destruct (Hn _ _ eq_refl).
  - intros c Hinv Hr IH Hn. rewrite run_unfold in Hn by done.
    rewrite (run_unfold (ext x c)) by (simpl; try done; by destruct (rest c)).
    rewrite run_unfold by done. destruct (step_ext x c Hinv Hr) as [Heq|[(off & v & Hs) _]].
    + rewrite Heq. destruct (step c) as [[c'|[[ret' off'] v']]|e] eqn:Hs; [|done..]. simpl.
      apply IH; [done| |done]. by destruct (step_inl_inv c c').
    + rewrite Hs in Hn. by destruct (Hn _ _ eq_refl).
Qed.

(** A complete object is parsed the same from its own bytes alone. *)
Lemma run_trunc x c :
  loop_inv c → ∀ off v, run (ext x c) = Ok (PARSE_SUCCESS, off, v) → off ≤ end_off c →
  run c = Ok (PARSE_SUCCESS, off, v).
Proof.
  revert c. apply (run_ind (λ c, ∀ off v, run (ext x c) = Ok (PARSE_SUCCESS, off, v) → _ → _)).
  - intros c Hinv Hr off v Hrun Hle. apply run_bounds in Hrun as (_ & _ & Hlt); [|done].
    specialize (Hlt eq_refl). unfold end_off in Hle. rewrite Hr in Hle. simpl in *. lia.
  - intros c Hinv Hr IH off v Hrun Hle. rewrite run_unfold by done.
    assert (rest (ext x c) ≠ []) as Hr' by (simpl; by destruct (rest c)).
    rewrite (run_unfold (ext x c)) in Hrun by done.
    destruct (step_ext x c Hinv Hr) as [Heq|[_ Hov]].
    + rewrite Heq in Hrun. destruct (step c) as [[c'|[[ret' off'] v']]|e] eqn:Hs; [|done..].
      destruct (step_inl_inv c c') as (? & He & _); [done..|].
      simpl in *. apply IH; [done..|congruence].
    + destruct (step (ext x c)) as [[c'|[[ret' off'] v']]|e] eqn:Hs; simpl in *; [| |done].
      * destruct (step_inl_inv (ext x c) c') as (? & He & _); [done..|].
        apply run_bounds in Hrun as (_ & _ & Hlt); [|done]. specialize (Hlt eq_refl). lia.
      * inv Hrun. specialize (Hov eq_refl). lia.
Qed.

(** ** Whole parses *)

Lemma execute_bounds data v ret off v' :
  execute data 0 v = Ok (ret, off, v') →
  0 ≤ off ≤ Z.of_nat (length data) ∧ ret ≠ PARSE_EXTRA_BYTES ∧
  (ret = PARSE_SUCCESS → 0 < off).
Proof. intros Hr. by apply (run_bounds (init_context 0 data v)) in Hr. Qed.

(** An answer other than "more bytes are needed" is final. *)
Lemma execute_app data x v :
  (∀ off v', execute data 0 v ≠ Ok (PARSE_CONTINUE, off, v')) →
  execute (data ++ x) 0 v = execute data 0 v.
Proof. apply (run_ext x (init_context 0 data v)). done. Qed.

Lemma execute_success_app data x v off v' :
  execute data 0 v = Ok (PARSE_SUCCESS, off, v') →
  execute (data ++ x) 0 v = Ok (PARSE_SUCCESS, off, v').
Proof. intros Hd. rewrite execute_app; [done|]. intros ? ?. by rewrite Hd. Qed.

(** The bytes of a parsed object alone are parsed to the same. *)
Lemma execute_trunc data x v off v' :
  execute (data ++ x) 0 v = Ok (PARSE_SUCCESS, off, v') → off ≤ Z.of_nat (length data) →
  execute data 0 v = Ok (PARSE_SUCCESS, off, v').
Proof. intros Hr Ho. by apply (run_trunc x (init_context 0 data v)). Qed.

(** Fewer bytes than those of the object: more are needed, and nothing is thrown. *)
Lemma execute_prefix data x v off v' :
  execute (data ++ x) 0 v = Ok (PARSE_SUCCESS, off, v') → Z.of_nat (length data) < off →
  ∃ off' v'', execute data 0 v = Ok (PARSE_CONTINUE, off', v'').
Proof.
  intros Hr Hlt. destruct (execute data 0 v) as [[[ret o] v0]|e] eqn:E.
  - destruct (decide (ret = PARSE_CONTINUE)) as [->|Hne]; [by eauto|].
    rewrite execute_app in Hr by (intros ? ? Heq; congruence).
    apply execute_bounds in Hr. lia.
  - rewrite execute_app in Hr; rewrite E in *; congruence.
Qed.
End facts.

(** ** Visitor invariants

    A rule for properties of the visitor: [P] while it answers true, [Q] once it stopped the
    parse or an error was reported, [E] of the exceptions. The payloads of the events are no
    longer than the data. *)

Definition payload (ev : event) : nat :=
  match ev with visit_str v | visit_bin v | visit_ext v => length v | _ => 0 end.

Section visitor_rule.
Context {V : Type} `{Visitor V}.
Context (P Q : V → Prop) (E : exn → Prop) (N : nat).

Definition visited (r : result (bool * V)) : Prop :=
  match r with Ok (true, v) => P v | Ok (false, v) => Q v | Throw e => E e end.
Context (Hvisit : ∀ v ev, (payload ev ≤ N)%nat → P v → visited (visit v ev)).
Context (Herror : ∀ v a b, P v →
  match on_parse_error v a b with Ok v' => Q v' | Throw e => E e end).

Definition returned (ret : parse_return) (v : V) : Prop :=
  match ret with
  | PARSE_STOP_VISITOR | PARSE_PARSE_ERROR => Q v
  | _ => P v
  end.
Definition keeps (r : result (step_result V)) : Prop :=
  match r with
  | Ok (inl c) => P (visitor c)
  | Ok (inr (ret, _, v)) => returned ret v
  | Throw e => E e
  end.

(** The rule for one call; [R] is what is wanted of the whole. *)
Lemma visit_or_keeps {A} (R : result A → Prop) v ev stop (k : V → result A) :
  (payload ev ≤ N)%nat → P v → (∀ e, E e → R (Throw e)) →
  (∀ v', Q v' → R (Ok (stop v'))) → (∀ v', P v' → R (k v')) → R (visit_or v ev stop k).
Proof.
  intros Hev Hp Ht Hs Hk. unfold visit_or. specialize (Hvisit v ev Hev Hp).
  destruct (visit v ev) as [[[] v']|]; simpl in *; auto.
Qed.

Definition consume_keeps (r : result (parse_return * Z * list stack_elem * V)) : Prop :=
  match r with Ok (ret, _, _, v) => returned ret v | Throw e => E e end.

Ltac keeps_visit := eapply visit_or_keeps; [simpl; lia|done|done|done|intros].

Lemma consume_visitor st v : P v → consume_keeps (consume st v).
Proof.
  revert v. induction st as [|e st IH]; intros v Hp; [done|]. cbn [consume].
  destruct (m_type e); keeps_visit; cbv zeta; [case_match| |case_match];
    keeps_visit; auto; done.
Qed.

Lemma consume_and_advance_visitor c v : P v → keeps (consume_and_advance c v).
Proof.
  intros Hp. unfold consume_and_advance. pose proof (consume_visitor (m_stack c) v Hp) as Hc.
  by destruct (consume _ _) as [[[[[] ?] ?] ?]|].
Qed.

Lemma after_visit_visitor c ev :
  (payload ev ≤ N)%nat → P (visitor c) → keeps (after_visit_proc c ev).
Proof.
  intros Hev Hp. unfold after_visit_proc.
  eapply visit_or_keeps; [done..|]. apply consume_and_advance_visitor.
Qed.

Lemma push_visitor st ty r v :
  ty ≠ CT_MAP_VALUE → P v →
  match push st ty r v with Ok (ret, _, v') => returned ret v' | Throw e => E e end.
Proof.
  intros Hty Hp. unfold push.
  destruct ty; [| |done]; eapply visit_or_keeps; try done; simpl; lia.
Qed.

Lemma start_aggregate_visitor c sv ev ty size :
  payload (sv size) = 0%nat → payload ev = 0%nat → ty ≠ CT_MAP_VALUE → P (visitor c) →
  keeps (start_aggregate c sv ev ty size).
Proof.
  intros Hsv Hev Hty Hp. unfold start_aggregate.
  eapply visit_or_keeps; [lia|done..|]. intros v Hv. case_match.
  - eapply visit_or_keeps; [lia|done..|]. apply consume_and_advance_visitor.
  - pose proof (push_visitor (m_stack c) ty size v Hty Hv) as Hpush.
    by destruct (push _ _ _ _) as [[[[] ?] ?]|].
Qed.

Lemma error_visitor c a b off :
  P (visitor c) →
  keeps (outcome_bind (on_parse_error (visitor c) a b) (λ v, Ok (inr (PARSE_PARSE_ERROR, off, v)))).
Proof. intros Hp. specialize (Herror _ a b Hp). by destruct (on_parse_error _ _ _). Qed.

Lemma trail_switch_visitor c n noff :
  (length n ≤ N)%nat → P (visitor c) → keeps (trail_switch c n noff).
Proof.
  intros Hn Hp.
  assert (∀ ev t cs, payload (ev []) = 0%nat → keeps (sized_value c t cs ev)) as Hs.
  { intros ev t cs Hev. unfold sized_value. case_match; [|done].
    apply after_visit_visitor; [|done]. lia. }
  assert (∀ k, (length (take k n) ≤ N)%nat) as Ht.
  { intros k. rewrite length_take. lia. }
  unfold trail_switch.
  destruct (m_cs c); first
    [ by apply error_visitor | by apply Hs | by apply start_aggregate_visitor
    | apply after_visit_visitor; [|done]; try apply Ht; simpl; lia ].
Qed.

Lemma trail_step_visitor c :
  (length (rest c) ≤ N)%nat → P (visitor c) → keeps (trail_step c).
Proof.
  intros Hn Hp. unfold trail_step, skip_header.
  assert (length (tail (rest c)) ≤ length (rest c))%nat by (destruct (rest c); simpl; lia).
  destruct (fixed_trail_again c); simpl; case_match; try done;
    (apply trail_switch_visitor; [|done]); rewrite length_take; lia.
Qed.

Lemma header_step_visitor c selector : P (visitor c) → keeps (header_step c selector).
Proof.
  intros Hp. unfold header_step.
  repeat case_match; try done; try (by apply error_visitor);
    try (by apply start_aggregate_visitor); (apply after_visit_visitor; [simpl; lia|done]).
Qed.

Lemma step_visitor c : (length (rest c) ≤ N)%nat → P (visitor c) → keeps (step c).
Proof.
  intros Hn Hp. destruct (decide (m_cs c = CS_HEADER)) as [Hh|Hh];
    [|rewrite step_trail by done; by apply trail_step_visitor].
  destruct (rest c) as [|b tl] eqn:Er.
  { unfold step. rewrite Hh, Er. simpl. case_match; [|done].
    apply trail_step_visitor; [by rewrite Er|done]. }
  rewrite (step_header c b tl) by done.
  pose proof (header_step_visitor c (byte_to_Z b) Hp) as Hk.
  pose proof (header_step_within c (byte_to_Z b) ltac:(congruence)) as Hw.
  destruct (header_step c (byte_to_Z b)) as [[c'|[[ret off] v]]|e]; [|done..]. simpl in *.
  case_match; [done|]. apply trail_step_visitor; [|done].
  destruct Hw as (k & _ & _ & _ & -> & _). rewrite length_drop, Er. simpl. lia.
Qed.

Lemma run_visitor c :
  loop_inv c → (length (rest c) ≤ N)%nat → P (visitor c) →
  match run c with Ok (ret, _, v) => returned ret v | Throw e => E e end.
Proof.
  revert c. apply (run_ind (λ c, (length (rest c) ≤ N)%nat → P (visitor c) → _)).
  - intros c _ Hr _ Hp. by rewrite run_empty.
  - intros c Hinv Hr IH Hn Hp. rewrite run_unfold by done.
    pose proof (step_visitor c Hn Hp) as Hk. pose proof (step_within c Hinv Hr) as Hw.
    destruct (step c) as [[c'|[[ret off] v]]|e] eqn:Hs; simpl in *; [|done..].
    destruct Hw as (k & _ & _ & _ & Hrest & Hinv' & _).
    apply IH; [done..| |done]. rewrite Hrest, length_drop. lia.
Qed.
End visitor_rule.
