(* ===== verification/MsgpackEvents.v ===== *)
(** The parser drives any visitor through exactly the events of the packed object.

    For every visitor: parsing the packing of an object, whatever follows it, makes the calls
    [events] lists, in order, until the visitor answers false or throws, and ends behind the
    object. *)

From S2P Require Import Prelude Errors MsgpackObject MsgpackParse MsgpackFacts.

(** The calls a visitor receives for an object. *)
Fixpoint events (o : object) : list event :=
  match o with
  | NIL => [visit_nil]
  | BOOLEAN b => [visit_boolean b]
  | POSITIVE_INTEGER u => [visit_positive_integer u]
  | NEGATIVE_INTEGER i => [visit_negative_integer i]
  | FLOAT32 b => [visit_float32 b]
  | FLOAT64 b => [visit_float64 b]
  | STR s => [visit_str s]
  | BIN s => [visit_bin s]
  | EXT c => [visit_ext c]
  | ARRAY l =>
      start_array (Z.of_nat (length l)) ::
      List.flat_map (λ o, start_array_item :: events o ++ [end_array_item]) l ++ [end_array]
  | MAP m =>
      start_map (Z.of_nat (length m)) ::
      List.flat_map (λ '(k, v),
        start_map_key :: events k ++ [end_map_key; start_map_value] ++
        events v ++ [end_map_value]) m ++ [end_map]
  end.

Section events_facts.
Context {V : Type} `{Visitor V}.
Abbreviation context := (MsgpackParse.context V).
Abbreviation parsed := (result (parse_return * Z * V)).
Implicit Types (c : context) (v : V).

(** A visitor on a sequence of calls. *)
Fixpoint feed (es : list event) v : result (bool * V) :=
  match es with
  | [] => Ok (true, v)
  | e :: es' =>
      outcome_bind (visit v e) (λ p, if p.1 : bool then feed es' p.2 else Ok (false, p.2))
  end.

Lemma feed_app es es' v :
  feed (es ++ es') v =
  outcome_bind (feed es v) (λ p, if p.1 : bool then feed es' p.2 else Ok (false, p.2)).
Proof.
  revert v. induction es as [|e es IH]; intros v; [done|]. simpl.
  destruct (visit v e) as [[[] v']|]; simpl; auto.
Qed.

(** The offset is not specified when the visitor stops the parse. *)
Definition obs (r : parsed) : parsed :=
  match r with
  | Ok (PARSE_STOP_VISITOR, _, v) => Ok (PARSE_STOP_VISITOR, 0, v)
  | _ => r
  end.

Fixpoint feed_then (es : list event) v (k : V → parsed) : parsed :=
  match es with
  | [] => k v
  | e :: es' => visit_or v e (λ v', (PARSE_STOP_VISITOR, 0, v')) (λ v', feed_then es' v' k)
  end.

Lemma feed_then_feed es v k :
  feed_then es v k =
  outcome_bind (feed es v) (λ p, if p.1 : bool then k p.2 else Ok (PARSE_STOP_VISITOR, 0, p.2)).
Proof.
  revert v. induction es as [|e es IH]; intros v; [done|]. simpl. unfold visit_or.
  destruct (visit v e) as [[[] v']|]; simpl; auto.
Qed.

Lemma feed_then_app es es' v k :
  feed_then (es ++ es') v k = feed_then es v (λ v', feed_then es' v' k).
Proof.
  rewrite !feed_then_feed, feed_app. destruct (feed es v) as [[[] v']|]; simpl; try done.
  by rewrite feed_then_feed.
Qed.

Lemma obs_visit_or v ev s k1 k2 :
  (∀ v', obs (k1 v') = obs (k2 v')) →
  obs (visit_or v ev (λ v', (PARSE_STOP_VISITOR, s v', v')) k1) =
  obs (visit_or v ev (λ v', (PARSE_STOP_VISITOR, 0, v')) k2).
Proof. intros Hk. unfold visit_or. destruct (visit v ev) as [[[] ?]|]; simpl; auto. Qed.

Lemma obs_feed_then es v k1 k2 :
  (∀ v', obs (k1 v') = obs (k2 v')) → obs (feed_then es v k1) = obs (feed_then es v k2).
Proof.
  intros Hk. revert v. induction es as [|e es IH]; intros v; [apply Hk|].
  by apply obs_visit_or.
Qed.

(** ** The trail is dead in the header state *)

Definition norm c : context :=
  match m_cs c with
  | CS_HEADER => mk_context (m_current c) (rest c) 0 CS_HEADER (fixed_trail_again c) (m_stack c) (visitor c)
  | _ => c
  end.
Definition norm_res (r : result (step_result V)) : result (step_result V) :=
  match r with Ok (inl c) => Ok (inl (norm c)) | _ => r end.
Definition retrail t c : context := set_trail c t (m_cs c) (fixed_trail_again c).

Lemma norm_eq c1 c2 :
  norm c1 = norm c2 → c1 = c2 ∨ (m_cs c1 = CS_HEADER ∧ c2 = retrail (m_trail c2) c1).
Proof.
  destruct c1 as [? ? ? [] ? ? ?], c2 as [? ? ? [] ? ? ?]; unfold norm, retrail, set_trail; simpl;
    intros [=]; subst; auto.
Qed.

Lemma norm_visit_or v ev s k1 k2 :
  (∀ v', norm_res (k1 v') = norm_res (k2 v')) →
  norm_res (visit_or v ev (λ v', inr (s v')) k1) = norm_res (visit_or v ev (λ v', inr (s v')) k2).
Proof. intros Hk. unfold visit_or. destruct (visit v ev) as [[[] ?]|]; simpl; auto. Qed.

Lemma after_visit_norm t c ev :
  norm_res (after_visit_proc (retrail t c) ev) = norm_res (after_visit_proc c ev).
Proof.
  apply norm_visit_or. intros. unfold consume_and_advance. simpl.
  by destruct (consume _ _) as [[[[[] ?] ?] ?]|].
Qed.

Lemma start_aggregate_norm t c sv ev ty size :
  norm_res (start_aggregate (retrail t c) sv ev ty size) =
  norm_res (start_aggregate c sv ev ty size).
Proof.
  apply norm_visit_or. intros. case_match.
  - apply norm_visit_or. intros. unfold consume_and_advance. simpl.
    by destruct (consume _ _) as [[[[[] ?] ?] ?]|].
  - simpl. by destruct (push _ _ _ _) as [[[[] ?] ?]|].
Qed.

Lemma header_step_norm t c selector :
  norm_res (header_step (retrail t c) selector) = norm_res (header_step c selector).
Proof.
  unfold header_step. set (c' := set_trail c (m_trail c) CS_HEADER false).
  change (set_trail (retrail t c) (m_trail (retrail t c)) CS_HEADER false) with (retrail t c').
  repeat case_match; try done; auto using after_visit_norm, start_aggregate_norm.
Qed.

Lemma step_norm c1 c2 :
  rest c1 ≠ [] → norm c1 = norm c2 → norm_res (step c1) = norm_res (step c2).
Proof.
  intros Hr [->|[Hh ->]]%norm_eq; [done|]. set (t := m_trail c2). clearbody t.
  destruct (rest c1) as [|b tl] eqn:E; [done|].
  rewrite (step_header c1 b tl), (step_header (retrail t c1) b tl) by done.
  pose proof (header_step_norm t c1 (byte_to_Z b)) as Hn.
  destruct (header_step (retrail t c1) (byte_to_Z b)) as [[c|]|],
    (header_step c1 (byte_to_Z b)) as [[c'|]|]; simpl in Hn |- *; try congruence.
  injection Hn as [->|[Hc ->]]%norm_eq; [done|]. simpl. rewrite !decide_True by done. simpl.
  unfold norm. simpl. by rewrite Hc.
Qed.

Lemma loop_norm n c1 c2 : norm c1 = norm c2 → loop n c1 = loop n c2.
Proof.
  revert c1 c2. induction n as [|n IH]; intros c1 c2 Hn.
  - destruct (norm_eq _ _ Hn) as [->|[_ ->]]; done.
  - assert (rest c1 = rest c2 ∧ m_current c1 = m_current c2 ∧ visitor c1 = visitor c2) as (Hr & Hc & Hv).
    { destruct (norm_eq _ _ Hn) as [->|[_ ->]]; done. }
    destruct (decide (rest c1 = [])) as [He|He]; [rewrite !loop_empty; congruence|].
    rewrite !loop_step by congruence. pose proof (step_norm c1 c2 He Hn) as Hs.
    destruct (step c1) as [[c1'|]|], (step c2) as [[c2'|]|]; simpl in *; try congruence.
    apply IH. congruence.
Qed.

Lemma run_norm c1 c2 : norm c1 = norm c2 → run c1 = run c2.
Proof.
  intros Hn. unfold run. replace (length (rest c2)) with (length (rest c1)).
  - by apply loop_norm.
  - destruct (norm_eq _ _ Hn) as [->|[_ ->]]; done.
Qed.

(** ** Runs over one value *)

Definition hdr (off : Z) (data : list byte) (st : list stack_elem) v : context :=
  mk_context off data 0 CS_HEADER false st v.

(** What follows a value that ended at [off], before the bytes [r]. *)
Definition complete (off : Z) (r : list byte) (st : list stack_elem) v : parsed :=
  outcome_bind (consume st v) (λ '(ret, d, st', v'),
    match ret with
    | PARSE_CONTINUE => run (hdr off r st' v')
    | _ => Ok (ret, off + d, v')
    end).

Definition cont (r : step_result V) : parsed :=
  match r with inl c' => run c' | inr ret => Ok ret end.

Lemma run_step c : loop_inv c → rest c ≠ [] → run c = outcome_bind (step c) cont.
Proof. apply run_unfold. Qed.

Lemma consume_and_advance_run c v :
  fixed_trail_again c = false →
  outcome_bind (consume_and_advance c v) cont =
  complete (m_current c + 1) (tail (rest c)) (m_stack c) v.
Proof.
  intros Hf. unfold consume_and_advance, complete.
  destruct (consume (m_stack c) v) as [[[[[] d] st] v']|]; simpl; try done;
    try (do 2 f_equal; f_equal; lia).
  apply run_norm. unfold norm, advance. simpl. by rewrite Hf.
Qed.

Lemma after_visit_run c ev :
  fixed_trail_again c = false →
  obs (outcome_bind (after_visit_proc c ev) cont) =
  obs (feed_then [ev] (visitor c) (complete (m_current c + 1) (tail (rest c)) (m_stack c))).
Proof.
  intros Hf. unfold after_visit_proc, feed_then, visit_or.
  destruct (visit (visitor c) ev) as [[[] v']|]; simpl; try done.
  by rewrite consume_and_advance_run.
Qed.

Lemma start_aggregate_run c sv ev ty size :
  fixed_trail_again c = false → ty ≠ CT_MAP_VALUE →
  obs (outcome_bind (start_aggregate c sv ev ty size) cont) =
  obs (feed_then [sv size] (visitor c) (λ v,
    if size =? 0 then
      feed_then [ev] v (complete (m_current c + 1) (tail (rest c)) (m_stack c))
    else
      feed_then [match ty with CT_ARRAY_ITEM => start_array_item | _ => start_map_key end] v
        (λ v, run (hdr (m_current c + 1) (tail (rest c)) (mk_stack_elem ty size :: m_stack c) v)))).
Proof.
  intros Hf Hty. unfold start_aggregate, feed_then, visit_or.
  destruct (visit (visitor c) (sv size)) as [[[] v']|]; simpl; try done.
  destruct (Z.eqb_spec size 0).
  - destruct (visit v' ev) as [[[] v1]|]; simpl; try done. by rewrite consume_and_advance_run.
  - unfold push, visit_or. destruct ty; [| |done];
    destruct (visit v' _) as [[[] v1]|]; simpl; try done;
      f_equal; apply run_norm; unfold norm, advance; simpl; by rewrite Hf.
Qed.

(** A one-byte header that is not followed by a trail. *)
Lemma run_header off b r st v :
  run (hdr off (b :: r) st v) =
  outcome_bind (after_header (hdr off (b :: r) st v) (header_step (hdr off (b :: r) st v) (byte_to_Z b))) cont.
Proof. rewrite run_step by done. by rewrite (step_header _ b r). Qed.

(** The context in which the trail [n] behind a header is interpreted. *)
Definition trail_ctx off cs (n r : list byte) st v : context :=
  mk_context (off + Z.of_nat (length n) - 1) (drop (length n - 1) (n ++ r))
    (Z.of_nat (length n)) cs false st v.

Lemma length_last_byte {A} (n r : list A) :
  n ≠ [] → ∃ b, drop (length n - 1) (n ++ r) = b :: r.
Proof.
  intros Hn. destruct n as [|b n] using rev_ind; [done|]. exists b.
  rewrite length_app, <-app_assoc. simpl.
  by replace (length n + 1 - 1)%nat with (length n) by lia; rewrite drop_app_length.
Qed.

Lemma tail_drop_last {A} (n r : list A) : n ≠ [] → tail (drop (length n - 1) (n ++ r)) = r.
Proof. intros Hn. by destruct (length_last_byte n r Hn) as [b ->]. Qed.

(** Iterations that read a trail, entered from a header or from a loaded length. *)
Lemma trail_step_run off b n r st v cs :
  n ≠ [] →
  trail_step (mk_context off (b :: n ++ r) (Z.of_nat (length n)) cs true st v) =
  trail_switch (trail_ctx (off + 1) cs n r st v) n (off + 1).
Proof.
  intros Hn. unfold trail_step. cbn [skip_header fixed_trail_again m_current rest m_trail m_cs m_stack visitor tail].
  rewrite (proj2 (Z.ltb_ge _ _)) by (rewrite length_app; lia).
  unfold trail_ctx. rewrite Nat2Z.id, take_app_length.
  assert (1 ≤ length n)%nat by (destruct n; simpl; [done|lia]).
  do 2 f_equal; [lia|]. f_equal. lia.
Qed.

Lemma run_trail off b n r st v :
  0xc4 ≤ byte_to_Z b ≤ 0xdf → trail_of (byte_to_Z b) = Z.of_nat (length n) →
  run (hdr off (b :: n ++ r) st v) =
  outcome_bind (trail_switch (trail_ctx (off + 1) (next_cs (byte_to_Z b)) n r st v) n (off + 1)) cont.
Proof.
  intros Hb Ht. destruct (next_cs_trail _ Hb) as [Hcs Htr]. rewrite run_header.
  unfold header_step. repeat (zcase; simpl). rewrite decide_False by done.
  unfold set_trail. cbn [m_current rest m_stack visitor hdr]. rewrite Ht.
  rewrite trail_step_run; [done|]. intros ->. simpl in *. lia.
Qed.

Lemma run_value off b n r st v cs :
  n ≠ [] → cs ≠ CS_HEADER →
  run (mk_context off (b :: n ++ r) (Z.of_nat (length n)) cs true st v) =
  outcome_bind (trail_switch (trail_ctx (off + 1) cs n r st v) n (off + 1)) cont.
Proof.
  intros Hn Hcs. assert (1 ≤ length n)%nat by (destruct n; simpl; [done|lia]).
  rewrite run_step; [|apply loop_inv_trail; simpl; [done|split; [done|lia]]|done].
  rewrite step_trail by done. by rewrite trail_step_run.
Qed.

(** A length-prefixed value behind its header and length. *)
Lemma sized_value_run off n body r st v cs0 cs ev :
  n ≠ [] → small (length body) = true →
  cs = ACS_STR_VALUE ∧ ev = visit_str ∨ cs = ACS_BIN_VALUE ∧ ev = visit_bin ∨
  cs = ACS_EXT_VALUE ∧ ev = visit_ext →
  obs (outcome_bind (sized_value (trail_ctx off cs0 n (body ++ r) st v)
    (Z.of_nat (length body)) cs ev) cont) =
  obs (feed_then [ev body] v (complete (off + Z.of_nat (length n + length body)) r st)).
Proof.
  intros Hn Hs Hcs. unfold small in Hs. apply Z.ltb_lt in Hs. unfold sized_value.
  destruct (Z.eqb_spec (Z.of_nat (length body)) 0) as [He|Hne].
  - destruct body; [|simpl in *; lia]. rewrite after_visit_run by done.
    cbn [set_trail trail_ctx rest m_current m_stack visitor length app].
    rewrite tail_drop_last by done.
    by replace (off + Z.of_nat (length n) - 1 + 1) with (off + Z.of_nat (length n + 0)) by lia.
  - assert (body ≠ []) as Hb by (by destruct body).
    simpl. unfold set_trail. simpl. destruct (length_last_byte n (body ++ r) Hn) as [b ->].
    rewrite run_value by (try done; destruct Hcs as [[-> _]|[[-> _]|[-> _]]]; done).
    assert (∀ off', take (Z.to_nat (wrap32 (m_trail (trail_ctx off' cs body r st v)))) body = body) as Htk.
    { intros. simpl. unfold wrap32. rewrite Z.mod_small by lia. rewrite Nat2Z.id. by apply firstn_all. }
    unfold trail_switch. rewrite Htk. cbn [m_cs trail_ctx].
    replace (complete (off + Z.of_nat (length n + length body)) r st)
      with (complete (m_current (trail_ctx (off + Z.of_nat (length n) - 1 + 1) cs body r st v) + 1)
        (tail (rest (trail_ctx (off + Z.of_nat (length n) - 1 + 1) cs body r st v))) st).
    + destruct Hcs as [[-> ->]|[[-> ->]|[-> ->]]]; by rewrite after_visit_run.
    + cbn [trail_ctx rest m_current]. rewrite tail_drop_last by done. f_equal. lia.
Qed.

Lemma after_header_consume c c0 v :
  after_header c0 (consume_and_advance c v) = consume_and_advance c v.
Proof.
  unfold consume_and_advance. by destruct (consume _ _) as [[[[[] ?] ?] ?]|].
Qed.

Lemma after_header_visit c c0 ev :
  after_header c0 (after_visit_proc c ev) = after_visit_proc c ev.
Proof.
  unfold after_visit_proc, visit_or. destruct (visit _ _) as [[[] ?]|]; try done.
  apply after_header_consume.
Qed.

Lemma after_header_aggregate c c0 sv ev ty size :
  after_header c0 (start_aggregate c sv ev ty size) = start_aggregate c sv ev ty size.
Proof.
  unfold start_aggregate, visit_or. destruct (visit _ _) as [[[] v]|]; try done. simpl.
  case_match.
  - destruct (visit v ev) as [[[] ?]|]; try done. apply after_header_consume.
  - by destruct (push _ _ _ _) as [[[[] ?] ?]|].
Qed.

(** A value whose header byte is the whole of it. *)
Lemma run_leaf_header off b r st v ev :
  header_step (hdr off (b :: r) st v) (byte_to_Z b) =
    after_visit_proc (hdr off (b :: r) st v) ev →
  obs (run (hdr off (b :: r) st v)) = obs (feed_then [ev] v (complete (off + 1) r st)).
Proof.
  intros Hh. rewrite run_header, Hh, after_header_visit. by rewrite after_visit_run.
Qed.

(** A header byte followed by a trail that is visited at once. *)
Lemma run_leaf_trail off sel n r st v ev :
  0xc4 ≤ sel ≤ 0xdf → trail_of sel = Z.of_nat (length n) →
  (∀ off, trail_switch (trail_ctx off (next_cs sel) n r st v) n off =
    after_visit_proc (trail_ctx off (next_cs sel) n r st v) ev) →
  obs (run (hdr off (Z_to_byte sel :: n ++ r) st v)) =
  obs (feed_then [ev] v (complete (off + Z.of_nat (length (Z_to_byte sel :: n))) r st)).
Proof.
  intros Hsel Ht Hsw.
  assert (byte_to_Z (Z_to_byte sel) = sel) as Hb.
  { rewrite byte_to_Z_to_byte. apply Z.mod_small. lia. }
  assert (n ≠ []) as Hn.
  { intros ->. destruct (next_cs_trail sel Hsel). simpl in *. lia. }
  rewrite run_trail by (rewrite Hb; done). rewrite Hb, Hsw, after_visit_run by done.
  cbn [trail_ctx rest m_current m_stack visitor length].
  rewrite tail_drop_last by done.
  by replace (off + 1 + Z.of_nat (length n) - 1 + 1) with (off + Z.of_nat (S (length n))) by lia.
Qed.

(** A header byte, a length and the bytes it announces. *)
Lemma run_leaf_sized off sel n body r st v cs ev :
  0xc4 ≤ sel ≤ 0xdf → trail_of sel = Z.of_nat (length n) → small (length body) = true →
  cs = ACS_STR_VALUE ∧ ev = visit_str ∨ cs = ACS_BIN_VALUE ∧ ev = visit_bin ∨
  cs = ACS_EXT_VALUE ∧ ev = visit_ext →
  (∀ off r, trail_switch (trail_ctx off (next_cs sel) n r st v) n off =
    sized_value (trail_ctx off (next_cs sel) n r st v) (Z.of_nat (length body)) cs ev) →
  obs (run (hdr off (Z_to_byte sel :: n ++ body ++ r) st v)) =
  obs (feed_then [ev body] v
    (complete (off + Z.of_nat (length (Z_to_byte sel :: n ++ body))) r st)).
Proof.
  intros Hsel Ht Hs Hcs Hsw.
  assert (byte_to_Z (Z_to_byte sel) = sel) as Hb.
  { rewrite byte_to_Z_to_byte. apply Z.mod_small. lia. }
  assert (n ≠ []) as Hn.
  { intros ->. destruct (next_cs_trail sel Hsel). simpl in *. lia. }
  rewrite run_trail by (rewrite Hb; done). rewrite Hb, Hsw, sized_value_run by done.
  replace (off + 1 + Z.of_nat (length n + length body))
    with (off + Z.of_nat (length (Z_to_byte sel :: n ++ body))); [done|].
  simpl. rewrite length_app. lia.
Qed.

Definition drives (o : object) : Prop :=
  wf_object o = true → ∀ off r st v,
  obs (run (hdr off (pack_object o ++ r) st v)) =
  obs (feed_then (events o) v (complete (off + Z.of_nat (length (pack_object o))) r st)).

Ltac small_sel := rewrite byte_to_Z_to_byte, Z.mod_small by lia.
Ltac trail_leaf sel n :=
  apply (run_leaf_trail _ sel n); [lia|try rewrite length_be_store; reflexivity|];
  intros; unfold trail_switch; cbn [trail_ctx m_cs next_cs nth Z.land Z.to_nat];
  simpl next_cs; cbn iota.
Ltac leaf_value :=
  first [rewrite be_load_store | cbn [be_load length]; rewrite byte_to_Z_to_byte].

Lemma drives_nil : drives NIL.
Proof. intros _ off r st v. apply run_leaf_header. reflexivity. Qed.

Lemma drives_boolean b : drives (BOOLEAN b).
Proof. intros _ off r st v. destruct b; apply run_leaf_header; reflexivity. Qed.

Lemma drives_positive u : drives (POSITIVE_INTEGER u).
Proof.
  intros Hwf off r st v. simpl in Hwf. apply andb_prop in Hwf as [?%Z.leb_le ?%Z.ltb_lt].
  cbn [pack_object events]. unfold pack_imp_uint64.
  zcase; [zcase|zcase; [|zcase]].
  - apply run_leaf_header. unfold header_step. small_sel. by repeat (zcase; simpl).
  - trail_leaf 0xcc [Z_to_byte u]. do 2 f_equal. leaf_value. rewrite Z.mod_small; simpl; lia.
  - trail_leaf 0xcd (be_store 2 u). do 2 f_equal. leaf_value. rewrite Z.mod_small; simpl; lia.
  - trail_leaf 0xce (be_store 4 u). do 2 f_equal. leaf_value. rewrite Z.mod_small; simpl; lia.
  - trail_leaf 0xcf (be_store 8 u). do 2 f_equal. leaf_value. rewrite Z.mod_small; simpl; lia.
Qed.

Lemma drives_negative i : drives (NEGATIVE_INTEGER i).
Proof.
  intros Hwf off r st v. simpl in Hwf. apply andb_prop in Hwf as [?%Z.leb_le ?%Z.ltb_lt].
  cbn [pack_object events]. unfold pack_imp_int64.
  zcase; [zcase; [zcase|zcase]|zcase].
  - trail_leaf 0xd3 (be_store 8 i). do 2 f_equal. leaf_value. apply to_signed_mod; lia.
  - trail_leaf 0xd2 (be_store 4 i). do 2 f_equal. leaf_value. apply to_signed_mod; lia.
  - trail_leaf 0xd1 (be_store 2 i). do 2 f_equal. leaf_value. apply to_signed_mod; lia.
  - trail_leaf 0xd0 [Z_to_byte i]. do 2 f_equal. leaf_value.
    rewrite Z.mul_1_r, Z.add_0_r. apply (to_signed_mod 8); lia.
  - apply run_leaf_header. unfold header_step. rewrite byte_to_Z_to_byte.
    rewrite (to_signed_mod 8 i ltac:(lia) ltac:(lia) : to_signed 8 (i mod 256) = i).
    rewrite <-(Z.mod_unique i 256 (-1) (256 + i)) by lia. by repeat (zcase; simpl).
Qed.

Lemma drives_float32 b : drives (FLOAT32 b).
Proof.
  intros Hwf off r st v. simpl in Hwf. apply andb_prop in Hwf as [?%Z.leb_le ?%Z.ltb_lt].
  trail_leaf 0xca (be_store 4 b). do 2 f_equal. leaf_value. rewrite Z.mod_small; simpl; lia.
Qed.

Lemma drives_float64 b : drives (FLOAT64 b).
Proof.
  intros Hwf off r st v. simpl in Hwf. apply andb_prop in Hwf as [?%Z.leb_le ?%Z.ltb_lt].
  trail_leaf 0xcb (be_store 8 b). do 2 f_equal. leaf_value. rewrite Z.mod_small; simpl; lia.
Qed.

(** A short string is visited in the iteration of its header. *)
Lemma run_fixstr off (s : list byte) r st v :
  Z.of_nat (length s) < 32 →
  obs (run (hdr off (Z_to_byte (Z.lor 0xa0 (Z.of_nat (length s))) :: s ++ r) st v)) =
  obs (feed_then [visit_str s] v (complete (off + Z.of_nat (1 + length s)) r st)).
Proof.
  intros Hl.
  destruct (header_bits_spec 0xa0 0x1f 32 (Z.of_nat (length s)) eq_refl) as [-> Hand]; [lia|].
  rewrite run_header. unfold header_step. small_sel. rewrite Hand.
  repeat (zcase; simpl).
  - destruct s; [|simpl in *; lia]. rewrite after_header_visit. by rewrite after_visit_run.
  - assert (s ≠ []) by (by destruct s). unfold set_trail. cbn [hdr m_current rest m_stack visitor].
    rewrite trail_step_run by done. unfold trail_switch. cbn [trail_ctx m_cs m_trail].
    unfold wrap32. rewrite Z.mod_small, Nat2Z.id, take_ge by lia.
    rewrite after_visit_run by done. cbn [rest m_current m_stack visitor trail_ctx].
    rewrite tail_drop_last by done. simpl.
    by replace (off + 1 + Z.of_nat (length s) - 1 + 1) with (off + Z.of_nat (S (length s))) by lia.
Qed.

Ltac sized_leaf sel n s cs :=
  apply (run_leaf_sized _ sel n s _ _ _ cs); [lia|try rewrite length_be_store; reflexivity|done|by auto|];
  intros; unfold trail_switch; cbn [trail_ctx m_cs]; simpl next_cs; cbn iota; f_equal.

Lemma drives_str s : drives (STR s).
Proof.
  intros Hwf off r st v. assert (small (length s) = true) as Hs by done.
  apply Z.ltb_lt in Hs. cbn [pack_object events]. unfold pack_str.
  zcase; [|zcase; [|zcase]]; rewrite <-app_assoc, <-?app_comm_cons.
  - apply (run_fixstr off s). lia.
  - sized_leaf 0xd9 [Z_to_byte (Z.of_nat (length s))] s ACS_STR_VALUE. leaf_value. rewrite Z.mod_small; simpl; lia.
  - sized_leaf 0xda (be_store 2 (Z.of_nat (length s))) s ACS_STR_VALUE. leaf_value. rewrite Z.mod_small; simpl; lia.
  - sized_leaf 0xdb (be_store 4 (Z.of_nat (length s))) s ACS_STR_VALUE. leaf_value. rewrite Z.mod_small; simpl; lia.
Qed.

Lemma drives_bin s : drives (BIN s).
Proof.
  intros Hwf off r st v. assert (small (length s) = true) as Hs by done.
  apply Z.ltb_lt in Hs. cbn [pack_object events]. unfold pack_bin.
  zcase; [|zcase]; rewrite <-app_assoc, <-?app_comm_cons.
  - sized_leaf 0xc4 [Z_to_byte (Z.of_nat (length s))] s ACS_BIN_VALUE. leaf_value. rewrite Z.mod_small; simpl; lia.
  - sized_leaf 0xc5 (be_store 2 (Z.of_nat (length s))) s ACS_BIN_VALUE. leaf_value. rewrite Z.mod_small; simpl; lia.
  - sized_leaf 0xc6 (be_store 4 (Z.of_nat (length s))) s ACS_BIN_VALUE. leaf_value. rewrite Z.mod_small; simpl; lia.
Qed.

Lemma drives_ext (x : list byte) : drives (EXT x).
Proof.
  intros Hwf off r st v. destruct x as [|ty body]; [done|].
  assert (small (S (length body)) = true) as Hs by done.
  pose proof Hs as Hs'. apply Z.ltb_lt in Hs'. cbn [pack_object events]. unfold pack_ext.
  assert (∀ sel (n : list byte), 0xc4 ≤ sel ≤ 0xdf → trail_of sel = Z.of_nat (length n) →
    be_load n = Z.of_nat (length body) →
    next_cs sel = CS_EXT_8 ∨ next_cs sel = CS_EXT_16 ∨ next_cs sel = CS_EXT_32 →
    obs (run (hdr off (((Z_to_byte sel :: n) ++ [ty]) ++ body ++ r) st v)) =
    obs (feed_then [visit_ext (ty :: body)] v
      (complete (off + Z.of_nat (length (((Z_to_byte sel :: n) ++ [ty]) ++ body))) r st)))
    as Hsized.
  { intros sel n Hsel Ht Hn Hcs. rewrite <-!app_assoc, <-!app_comm_cons.
    apply (run_leaf_sized off sel n (ty :: body) r st v ACS_EXT_VALUE); [done..|by auto|].
    intros off' r'. unfold trail_switch. cbn [trail_ctx m_cs].
    destruct Hcs as [->|[->| ->]]; rewrite Hn; simpl length; f_equal; lia. }
  rewrite <-app_assoc.
  set (l := Z.of_nat (length body)) in *.
  destruct (Z.eqb_spec l 1); [|destruct (Z.eqb_spec l 2); [|destruct (Z.eqb_spec l 4);
    [|destruct (Z.eqb_spec l 8); [|destruct (Z.eqb_spec l 16); [|zcase; [|zcase]]]]]];
    subst l.
  1-5: match goal with He : Z.of_nat _ = _ |- context [[Z_to_byte ?sel; ?t] ++ ?b ++ _] =>
    apply (run_leaf_trail _ sel (t :: b)); [lia|simpl; rewrite Nat2Z.inj_succ, He; reflexivity|];
    intros; unfold trail_switch; cbn [trail_ctx m_cs]; simpl next_cs; cbn iota;
    do 2 f_equal; rewrite take_ge by (simpl; lia); done end.
  - apply (Hsized 0xc7 [Z_to_byte (Z.of_nat (length body))]); [lia|done| |by left].
    leaf_value. rewrite Z.mod_small; simpl; lia.
  - apply (Hsized 0xc8 (be_store 2 (Z.of_nat (length body)))); [lia|by rewrite length_be_store| |by auto].
    leaf_value. rewrite Z.mod_small; simpl; lia.
  - apply (Hsized 0xc9 (be_store 4 (Z.of_nat (length body)))); [lia|by rewrite length_be_store| |by auto].
    leaf_value. rewrite Z.mod_small; simpl; lia.
Qed.

(** ** Aggregates *)

(** The header of an aggregate of [size] items, up to its first item. *)
Definition aggregate_start (sv : Z → event) (ev item : event) (ty : container_type)
    (off : Z) (r : list byte) st (size : Z) v : parsed :=
  feed_then [sv size] v (λ v,
    if size =? 0 then feed_then [ev] v (complete off r st)
    else feed_then [item] v (λ v, run (hdr off r (mk_stack_elem ty size :: st) v))).

Lemma run_aggregate_trail off sel n r st v sv ev ty size :
  0xc4 ≤ sel ≤ 0xdf → trail_of sel = Z.of_nat (length n) → ty ≠ CT_MAP_VALUE →
  (∀ off, trail_switch (trail_ctx off (next_cs sel) n r st v) n off =
    start_aggregate (trail_ctx off (next_cs sel) n r st v) sv ev ty size) →
  obs (run (hdr off (Z_to_byte sel :: n ++ r) st v)) =
  obs (aggregate_start sv ev (match ty with CT_ARRAY_ITEM => start_array_item | _ => start_map_key end)
    ty (off + Z.of_nat (length (Z_to_byte sel :: n))) r st size v).
Proof.
  intros Hsel Ht Hty Hsw.
  assert (byte_to_Z (Z_to_byte sel) = sel) as Hb.
  { rewrite byte_to_Z_to_byte. apply Z.mod_small. lia. }
  assert (n ≠ []) as Hn.
  { intros ->. destruct (next_cs_trail sel Hsel). simpl in *. lia. }
  rewrite run_trail by (rewrite Hb; done). rewrite Hb, Hsw, start_aggregate_run by done.
  cbn [trail_ctx rest m_current m_stack visitor length]. rewrite tail_drop_last by done.
  by replace (off + 1 + Z.of_nat (length n) - 1 + 1) with (off + Z.of_nat (S (length n))) by lia.
Qed.

Lemma run_aggregate_header off b r st v sv ev ty size :
  header_step (hdr off (b :: r) st v) (byte_to_Z b) =
    start_aggregate (hdr off (b :: r) st v) sv ev ty size → ty ≠ CT_MAP_VALUE →
  obs (run (hdr off (b :: r) st v)) =
  obs (aggregate_start sv ev (match ty with CT_ARRAY_ITEM => start_array_item | _ => start_map_key end)
    ty (off + 1) r st size v).
Proof.
  intros Hh Hty. rewrite run_header, Hh, after_header_aggregate. by rewrite start_aggregate_run.
Qed.

Ltac aggregate_trail sel n ty :=
  apply (run_aggregate_trail _ sel n _ _ _ _ _ ty); [lia|by rewrite length_be_store|done|];
  intros; unfold trail_switch; cbn [trail_ctx m_cs]; simpl next_cs; cbn iota; f_equal;
  leaf_value; rewrite Z.mod_small; simpl; lia.

Lemma run_pack_array off n r st v :
  0 ≤ n < 2 ^ 32 →
  obs (run (hdr off (pack_array n ++ r) st v)) =
  obs (aggregate_start start_array end_array start_array_item CT_ARRAY_ITEM
    (off + Z.of_nat (length (pack_array n))) r st n v).
Proof.
  intros Hn. unfold pack_array. zcase; [|zcase].
  - destruct (header_bits_spec 0x90 0x0f 16 n eq_refl) as [-> Hand]; [lia|].
    apply (run_aggregate_header off _ r st v start_array end_array CT_ARRAY_ITEM n); [|done].
    unfold header_step. small_sel. rewrite Hand. by repeat (zcase; simpl).
  - aggregate_trail 0xdc (be_store 2 n) CT_ARRAY_ITEM.
  - aggregate_trail 0xdd (be_store 4 n) CT_ARRAY_ITEM.
Qed.

Lemma run_pack_map off n r st v :
  0 ≤ n < 2 ^ 32 →
  obs (run (hdr off (pack_map n ++ r) st v)) =
  obs (aggregate_start start_map end_map start_map_key CT_MAP_KEY
    (off + Z.of_nat (length (pack_map n))) r st n v).
Proof.
  intros Hn. unfold pack_map. zcase; [|zcase].
  - destruct (header_bits_spec 0x80 0x0f 16 n eq_refl) as [-> Hand]; [lia|].
    apply (run_aggregate_header off _ r st v start_map end_map CT_MAP_KEY n); [|done].
    unfold header_step. small_sel. rewrite Hand. by repeat (zcase; simpl).
  - aggregate_trail 0xde (be_store 2 n) CT_MAP_KEY.
  - aggregate_trail 0xdf (be_store 4 n) CT_MAP_KEY.
Qed.

(** What follows an item of an array, or a key or a value of a map, in events. *)
Lemma complete_array_item off r n st v :
  1 ≤ n < 2 ^ 32 →
  obs (complete off r (mk_stack_elem CT_ARRAY_ITEM n :: st) v) =
  obs (feed_then [end_array_item] v (λ v,
    if n =? 1 then feed_then [end_array] v (complete off r st)
    else feed_then [start_array_item] v (λ v,
      run (hdr off r (mk_stack_elem CT_ARRAY_ITEM (n - 1) :: st) v)))).
Proof.
  intros Hn. unfold complete. cbn [consume m_type m_rest feed_then]. unfold visit_or, wrap32.
  rewrite Z.mod_small by lia.
  destruct (visit v end_array_item) as [[[] v1]|]; simpl; try done.
  destruct (Z.eqb_spec (n - 1) 0), (Z.eqb_spec n 1); try lia;
    destruct (visit v1 _) as [[[] v2]|]; simpl; done.
Qed.

Lemma complete_map_key off r n st v :
  obs (complete off r (mk_stack_elem CT_MAP_KEY n :: st) v) =
  obs (feed_then [end_map_key; start_map_value] v (λ v,
    run (hdr off r (mk_stack_elem CT_MAP_VALUE n :: st) v))).
Proof.
  unfold complete. cbn [consume m_type m_rest feed_then]. unfold visit_or.
  destruct (visit v end_map_key) as [[[] v1]|]; simpl; try done.
  destruct (visit v1 _) as [[[] v2]|]; simpl; done.
Qed.

Lemma complete_map_value off r n st v :
  1 ≤ n < 2 ^ 32 →
  obs (complete off r (mk_stack_elem CT_MAP_VALUE n :: st) v) =
  obs (feed_then [end_map_value] v (λ v,
    if n =? 1 then feed_then [end_map] v (complete off r st)
    else feed_then [start_map_key] v (λ v,
      run (hdr off r (mk_stack_elem CT_MAP_KEY (n - 1) :: st) v)))).
Proof.
  intros Hn. unfold complete. cbn [consume m_type m_rest feed_then]. unfold visit_or, wrap32.
  rewrite Z.mod_small by lia.
  destruct (visit v end_map_value) as [[[] v1]|]; simpl; try done.
  destruct (Z.eqb_spec (n - 1) 0), (Z.eqb_spec n 1); try lia;
    destruct (visit v1 _) as [[[] v2]|]; simpl; done.
Qed.

(** The items of an array, from inside its first item. *)
Lemma run_items l o off r st v :
  Forall drives (o :: l) → forallb wf_object (o :: l) = true →
  Z.of_nat (length (o :: l)) < 2 ^ 32 →
  obs (run (hdr off (List.flat_map pack_object (o :: l) ++ r)
    (mk_stack_elem CT_ARRAY_ITEM (Z.of_nat (length (o :: l))) :: st) v)) =
  obs (feed_then (events o ++ [end_array_item] ++
    List.flat_map (λ o, start_array_item :: events o ++ [end_array_item]) l ++ [end_array]) v
    (complete (off + Z.of_nat (length (List.flat_map pack_object (o :: l)))) r st)).
Proof.
  revert o off v. induction l as [|o' l IH]; intros o off v Hd Hwf Hlen;
    inversion Hd as [|? ? Ho Hl]; subst; simpl in Hwf; apply andb_prop in Hwf as [Hwo Hwl].
  - cbn [List.flat_map]. rewrite app_nil_r, (Ho Hwo), feed_then_app.
    apply obs_feed_then. intros v1. rewrite complete_array_item by (simpl; lia). done.
  - change (List.flat_map pack_object (o :: o' :: l))
      with (pack_object o ++ List.flat_map pack_object (o' :: l)).
    rewrite <-app_assoc, (Ho Hwo), feed_then_app.
    apply obs_feed_then. intros v1. rewrite complete_array_item by (simpl length in *; lia).
    rewrite feed_then_app. apply obs_feed_then. intros v2.
    simpl length in Hlen |- *. zcase.
    cbn [List.flat_map]. rewrite <-(app_assoc (start_array_item :: _)), <-app_comm_cons.
    apply obs_visit_or. intros v3.
    replace (Z.of_nat (S (S (length l))) - 1) with (Z.of_nat (length (o' :: l))) by (simpl length; lia).
    cbn [List.flat_map] in IH. rewrite IH by (try done; simpl length; lia).
    rewrite <-app_assoc, length_app. do 3 f_equal. rewrite !length_app. lia.
Qed.

Definition pack_kv (kv : object * object) : list byte :=
  let '(k, v) := kv in pack_object k ++ pack_object v.
Definition map_events (kv : object * object) : list event :=
  let '(k, v) := kv in
  start_map_key :: events k ++ [end_map_key; start_map_value] ++ events v ++ [end_map_value].

(** The pairs of a map, from inside its first key. *)
Lemma run_pairs m k x off r st v :
  Forall (λ kv, drives kv.1 ∧ drives kv.2) ((k, x) :: m) →
  forallb (λ '(k, v), wf_object k && wf_object v) ((k, x) :: m) = true →
  Z.of_nat (length ((k, x) :: m)) < 2 ^ 32 →
  obs (run (hdr off (List.flat_map pack_kv ((k, x) :: m) ++ r)
    (mk_stack_elem CT_MAP_KEY (Z.of_nat (length ((k, x) :: m))) :: st) v)) =
  obs (feed_then (events k ++ [end_map_key; start_map_value] ++ events x ++ [end_map_value] ++
    List.flat_map map_events m ++ [end_map]) v
    (complete (off + Z.of_nat (length (List.flat_map pack_kv ((k, x) :: m)))) r st)).
Proof.
  revert k x off v. induction m as [|[k' x'] m IH]; intros k x off v Hd Hwf Hlen;
    inversion Hd as [|? ? [Hk Hx] Hm]; subst; simpl in Hwf, Hk, Hx;
    apply andb_prop in Hwf as [[Hwk Hwx]%andb_prop Hwm].
  - cbn [List.flat_map pack_kv]. rewrite app_nil_r, <-app_assoc, (Hk Hwk), feed_then_app.
    apply obs_feed_then. intros v1. rewrite complete_map_key, feed_then_app.
    apply obs_feed_then. intros v2. rewrite (Hx Hwx), feed_then_app.
    apply obs_feed_then. intros v3. rewrite complete_map_value by (simpl; lia).
    rewrite length_app, Nat2Z.inj_add, Z.add_assoc. done.
  - change (List.flat_map pack_kv ((k, x) :: (k', x') :: m))
      with ((pack_object k ++ pack_object x) ++ List.flat_map pack_kv ((k', x') :: m)).
    rewrite <-!app_assoc, (Hk Hwk), feed_then_app.
    apply obs_feed_then. intros v1. rewrite complete_map_key, feed_then_app.
    apply obs_feed_then. intros v2. rewrite (Hx Hwx), feed_then_app.
    apply obs_feed_then. intros v3. rewrite complete_map_value by (simpl length in *; lia).
    rewrite feed_then_app. apply obs_feed_then. intros v4.
    simpl length in Hlen |- *. zcase.
    cbn [List.flat_map map_events]. rewrite <-(app_assoc (start_map_key :: _)), <-app_comm_cons.
    apply obs_visit_or. intros v5.
    replace (Z.of_nat (S (S (length m))) - 1)
      with (Z.of_nat (length ((k', x') :: m))) by (simpl length; lia).
    change (pack_kv (k', x') ++ List.flat_map pack_kv m)
      with (List.flat_map pack_kv ((k', x') :: m)).
    rewrite IH by (try done; simpl length; lia).
    rewrite <-!app_assoc. do 3 f_equal. cbn [List.flat_map pack_kv]. rewrite !length_app. lia.
Qed.

Lemma drives_array l : Forall drives l → drives (ARRAY l).
Proof.
  intros Hl Hwf off r st v. simpl in Hwf. apply andb_prop in Hwf as [Hs Hwf].
  apply Z.ltb_lt in Hs. cbn [pack_object events]. rewrite <-app_assoc, run_pack_array by lia.
  apply obs_visit_or. intros v1. destruct l as [|o l].
  - simpl. by rewrite ?app_nil_r.
  - simpl length. zcase. cbn [List.flat_map].
    rewrite <-(app_assoc (start_array_item :: _)), <-app_comm_cons.
    apply obs_visit_or. intros v2. rewrite <-(app_assoc (events o)).
    change (pack_object o ++ List.flat_map pack_object l)
      with (List.flat_map pack_object (o :: l)).
    change (S (length l)) with (length (o :: l)) at 1 2.
    rewrite run_items by done. rewrite length_app, Nat2Z.inj_add, Z.add_assoc. done.
Qed.

Lemma drives_map m : Forall (λ kv, drives kv.1 ∧ drives kv.2) m → drives (MAP m).
Proof.
  intros Hm Hwf off r st v. simpl in Hwf. apply andb_prop in Hwf as [Hs Hwf].
  apply Z.ltb_lt in Hs. cbn [pack_object events].
  change (λ '(k, v0), pack_object k ++ pack_object v0) with pack_kv.
  match goal with |- context [List.flat_map ?f m ++ [end_map]] => change f with map_events end.
  rewrite <-app_assoc, run_pack_map by lia.
  apply obs_visit_or. intros v1. destruct m as [|[k x] m].
  - simpl. by rewrite ?app_nil_r.
  - simpl length. zcase. cbn [List.flat_map map_events].
    rewrite <-(app_assoc (start_map_key :: _)), <-app_comm_cons.
    apply obs_visit_or. intros v2. rewrite <-!(app_assoc (events k)), <-!app_assoc.
    rewrite (app_assoc (pack_kv (k, x))).
    change (pack_kv (k, x) ++ List.flat_map pack_kv m)
      with (List.flat_map pack_kv ((k, x) :: m)).
    change (S (length m)) with (length ((k, x) :: m)).
    rewrite run_pairs by done. do 3 f_equal.
    cbn [List.flat_map pack_kv]. rewrite !length_app. lia.
Qed.

Lemma drives_object o : drives o.
Proof.
  induction o using object_nested_ind; eauto using drives_nil, drives_boolean, drives_positive,
    drives_negative, drives_float32, drives_float64, drives_str, drives_bin, drives_ext,
    drives_array, drives_map.
Qed.

(** Parsing a packed object feeds its events to the visitor and stops behind it. *)
Lemma execute_pack_object o r v :
  wf_object o = true →
  obs (execute (pack_object o ++ r) 0 v) =
  outcome_bind (feed (events o) v) (λ p,
    if p.1 : bool then Ok (PARSE_SUCCESS, Z.of_nat (length (pack_object o)), p.2)
    else Ok (PARSE_STOP_VISITOR, 0, p.2)).
Proof.
  intros Hwf. change (execute _ 0 v) with (run (hdr 0 (pack_object o ++ r) [] v)).
  rewrite (drives_object o Hwf), feed_then_feed.
  destruct (feed (events o) v) as [[[] v']|]; simpl; [|done..].
  unfold complete. simpl. by rewrite Z.add_0_r.
Qed.
End events_facts.
