(* ===== verification/MsgpackUnpack.v ===== *)
(** [msgpack::unpack]: building objects from data.

    Models [create_object_visitor] (extern/msgpack-c/include/msgpack/v2/create_object_visitor.hpp),
    [unpack_limit], [null_visitor] and [msgpack::unpack] (v3/unpack.hpp), and proves that
    unpacking inverts packing. *)

From S2P Require Import Prelude Errors MsgpackObject MsgpackParse MsgpackFacts MsgpackEvents.

(** ** [null_visitor] *)

Record null_visitor := mk_null_visitor {}.

#[export] Instance null_visitor_Visitor : Visitor null_visitor := {
  visit v _ := Ok (true, v);
  on_parse_error v _ _ := Ok v;
  on_insufficient_bytes v _ _ := Ok v;
}.

(** ** [create_object_visitor] *)

(** [unpack_limit] *)
Record unpack_limit := mk_unpack_limit {
  array_ : Z; map_ : Z; str_ : Z; bin_ : Z; ext_ : Z; depth_ : Z;
}.
Definition default_limit : unpack_limit :=
  mk_unpack_limit 0xffffffff 0xffffffff 0xffffffff 0xffffffff 0xffffffff 0xffffffff.

(** The visitor keeps a stack of pointers: to the object being written and, below it, to the
    slots of the containers around it. A container and the pointer into its elements is a
    frame: its kind and the elements already written, last first. *)
Inductive frame : Type :=
| array_frame (written : list object)
| map_frame (written : list object).

Record create_object_visitor := mk_create_object_visitor {
  m_limit : unpack_limit;
  slot : object;        (* the object [m_stack.back()] points to *)
  frames : list frame;  (* the containers that hold it, innermost first *)
}.

(** The constructor pushes a pointer to [m_obj], a nil object. *)
Definition create_object_visitor_init (limit : unpack_limit) : create_object_visitor :=
  mk_create_object_visitor limit NIL [].

Definition stack_size (b : create_object_visitor) : Z := Z.of_nat (S (length (frames b))).

Definition set_slot (b : create_object_visitor) (o : object) : create_object_visitor :=
  mk_create_object_visitor (m_limit b) o (frames b).

Definition push_frame (b : create_object_visitor) (f : frame) : create_object_visitor :=
  mk_create_object_visitor (m_limit b) NIL (f :: frames b).

(** [++m_stack.back()]: the element is written, the pointer moves to the next slot. *)
Definition next_slot (b : create_object_visitor) : create_object_visitor :=
  match frames b with
  | array_frame l :: fs =>
      mk_create_object_visitor (m_limit b) NIL (array_frame (slot b :: l) :: fs)
  | map_frame l :: fs =>
      mk_create_object_visitor (m_limit b) NIL (map_frame (slot b :: l) :: fs)
  | [] => b
  end.

(** The key and value slots of a map lie behind each other ([object_kv]). *)
Fixpoint pairs (l : list object) : list (object * object) :=
  match l with
  | k :: v :: l' => (k, v) :: pairs l'
  | _ => []
  end.

(** [m_stack.pop_back()]: back to the slot of the container, which owns its elements. *)
Definition pop_frame (b : create_object_visitor) : create_object_visitor :=
  match frames b with
  | array_frame l :: fs => mk_create_object_visitor (m_limit b) (ARRAY (rev l)) fs
  | map_frame l :: fs => mk_create_object_visitor (m_limit b) (MAP (pairs (rev l))) fs
  | [] => b
  end.

Definition zlen (l : list byte) : Z := Z.of_nat (length l).

Definition create_object_visit (b : create_object_visitor) (ev : event) :
    result (bool * create_object_visitor) :=
  match ev with
  | visit_nil => Ok (true, set_slot b NIL)
  | visit_boolean v => Ok (true, set_slot b (BOOLEAN v))
  | visit_positive_integer v => Ok (true, set_slot b (POSITIVE_INTEGER v))
  | visit_negative_integer v =>
      if 0 <=? v then Ok (true, set_slot b (POSITIVE_INTEGER v))
      else Ok (true, set_slot b (NEGATIVE_INTEGER v))
  | visit_float32 v => Ok (true, set_slot b (FLOAT32 v))
  | visit_float64 v => Ok (true, set_slot b (FLOAT64 v))
  | visit_str v =>
      if str_ (m_limit b) <? zlen v then Throw (msgpack_size_overflow "str size overflow")
      else Ok (true, set_slot b (STR v))
  | visit_bin v =>
      if bin_ (m_limit b) <? zlen v then Throw (msgpack_size_overflow "bin size overflow")
      else Ok (true, set_slot b (BIN v))
  | visit_ext v =>
      if ext_ (m_limit b) <? zlen v then Throw (msgpack_size_overflow "ext size overflow")
      else Ok (true, set_slot b (EXT v))
  | start_array n =>
      if array_ (m_limit b) <? n then Throw (msgpack_size_overflow "array size overflow")
      else if depth_ (m_limit b) <? stack_size b then
        Throw (msgpack_size_overflow "depth size overflow")
      else Ok (true, push_frame b (array_frame []))
  | start_map n =>
      if map_ (m_limit b) <? n then Throw (msgpack_size_overflow "map size overflow")
      else if depth_ (m_limit b) <? stack_size b then
        Throw (msgpack_size_overflow "depth size overflow")
      else Ok (true, push_frame b (map_frame []))
  | start_array_item | start_map_key | start_map_value => Ok (true, b)
  | end_array_item | end_map_key | end_map_value => Ok (true, next_slot b)
  | end_array | end_map => Ok (true, pop_frame b)
  end.

#[export] Instance create_object_visitor_Visitor : Visitor create_object_visitor := {
  visit := create_object_visit;
  on_parse_error _ _ _ := Throw (msgpack_parse_error "parse error");
  on_insufficient_bytes _ _ _ := Throw (msgpack_insufficient_bytes "insufficient bytes");
}.

(** [msgpack::unpack]: an empty handle (nil) for the answers that are not an object. *)
Definition unpack (data : list byte) (off : Z) : result (object * Z) :=
  outcome_bind (parse_imp data off (create_object_visitor_init default_limit))
    (λ '(ret, noff, b),
      match ret with
      | PARSE_SUCCESS | PARSE_EXTRA_BYTES => Ok (slot b, noff)
      | _ => Ok (NIL, noff)
      end).

(** ** Building an object from its events *)

(** Nesting that the default limit admits. *)
Definition shallow (o : object) : bool := Z.of_nat (depth o) <=? 0xffffffff.

Definition builds (o : object) : Prop :=
  wf_object o = true → ∀ b, m_limit b = default_limit →
  Z.of_nat (length (frames b) + depth o) ≤ 0xffffffff →
  feed (events o) b = Ok (true, set_slot b o).

Ltac feed_simpl :=
  cbn [feed visit create_object_visitor_Visitor create_object_visit outcome_bind fst snd app].

Lemma builds_items l lf b :
  Forall builds l → forallb wf_object l = true → m_limit b = default_limit →
  Z.of_nat (S (length (frames b) + foldr (λ o n, Nat.max (depth o) n) 0%nat l)) ≤ 0xffffffff →
  feed (List.flat_map (λ o, start_array_item :: events o ++ [end_array_item]) l)
    (push_frame b (array_frame lf)) = Ok (true, push_frame b (array_frame (rev l ++ lf))).
Proof.
  revert lf. induction l as [|o l IH]; intros lf Hl Hwf Hlim Hd; [done|].
  inversion Hl as [|? ? Ho Hl']; subst. simpl in Hwf. apply andb_prop in Hwf as [Hwo Hwl].
  cbn [foldr] in Hd. cbn [List.flat_map]. rewrite feed_app. feed_simpl.
  rewrite feed_app, (Ho Hwo); [|exact Hlim|cbn [push_frame frames length]; lia].
  feed_simpl.
  change (next_slot (set_slot (push_frame b (array_frame lf)) o))
    with (push_frame b (array_frame (o :: lf))).
  rewrite IH; [|done..|lia]. cbn [rev]. by rewrite <-app_assoc.
Qed.

Lemma builds_pairs m lf b :
  Forall (λ kv, builds kv.1 ∧ builds kv.2) m →
  forallb (λ '(k, v), wf_object k && wf_object v) m = true → m_limit b = default_limit →
  Z.of_nat (S (length (frames b) +
    foldr (λ '(k, v) n, Nat.max (Nat.max (depth k) (depth v)) n) 0%nat m)) ≤ 0xffffffff →
  feed (List.flat_map map_events m) (push_frame b (map_frame lf)) =
  Ok (true, push_frame b (map_frame (rev (List.flat_map (λ '(k, v), [k; v]) m) ++ lf))).
Proof.
  revert lf. induction m as [|[k v] m IH]; intros lf Hm Hwf Hlim Hd; [done|].
  inversion Hm as [|? ? [Hk Hv] Hm']; subst. simpl in Hwf, Hk, Hv.
  apply andb_prop in Hwf as [[Hwk Hwv]%andb_prop Hwm].
  cbn [foldr] in Hd. cbn [List.flat_map map_events]. rewrite feed_app. feed_simpl.
  rewrite feed_app, (Hk Hwk); [|exact Hlim|cbn [push_frame frames length]; lia]. feed_simpl.
  change (next_slot (set_slot (push_frame b (map_frame lf)) k))
    with (push_frame b (map_frame (k :: lf))).
  rewrite feed_app, (Hv Hwv); [|exact Hlim|cbn [push_frame frames length]; lia]. feed_simpl.
  change (next_slot (set_slot (push_frame b (map_frame (k :: lf))) v))
    with (push_frame b (map_frame (v :: k :: lf))).
  rewrite IH; [|done..|lia]. cbn [rev List.flat_map app]. by rewrite <-!app_assoc.
Qed.

Lemma pairs_flat (m : list (object * object)) :
  pairs (List.flat_map (λ '(k, v), [k; v]) m) = m.
Proof. induction m as [|[k v] m IH]; [done|]. simpl. by rewrite IH. Qed.

Lemma small_limit n : small n = true → (0xffffffff <? Z.of_nat n) = false.
Proof. unfold small. rewrite Z.ltb_lt, Z.ltb_ge. lia. Qed.

Lemma builds_array l : Forall builds l → builds (ARRAY l).
Proof.
  intros Hl Hwf b Hlim Hd. cbn [wf_object] in Hwf. apply andb_prop in Hwf as [Hs Hwl].
  cbn [depth] in Hd. cbn [events]. feed_simpl. rewrite Hlim. cbn [array_ depth_ default_limit].
  rewrite small_limit by done. rewrite (proj2 (Z.ltb_ge _ _)) by (unfold stack_size; lia).
  feed_simpl. rewrite feed_app, builds_items; [|done..|lia]. feed_simpl.
  unfold pop_frame. cbn [push_frame frames m_limit]. by rewrite app_nil_r, rev_involutive.
Qed.

Lemma builds_map m : Forall (λ kv, builds kv.1 ∧ builds kv.2) m → builds (MAP m).
Proof.
  intros Hl Hwf b Hlim Hd. cbn [wf_object] in Hwf. apply andb_prop in Hwf as [Hs Hwl].
  cbn [depth] in Hd. cbn [events]. feed_simpl. rewrite Hlim. cbn [map_ depth_ default_limit].
  rewrite small_limit by done. rewrite (proj2 (Z.ltb_ge _ _)) by (unfold stack_size; lia).
  feed_simpl. match goal with |- context [List.flat_map ?f m ++ _] => change f with map_events end.
  rewrite feed_app, builds_pairs; [|done..|lia]. feed_simpl.
  unfold pop_frame. cbn [push_frame frames m_limit].
  by rewrite app_nil_r, rev_involutive, pairs_flat.
Qed.

Lemma builds_object o : builds o.
Proof.
  induction o using object_nested_ind; auto using builds_array, builds_map;
    intros Hwf bd Hlim Hd; cbn [events]; feed_simpl; try reflexivity; simpl in Hwf.
  - apply andb_prop in Hwf as [_ Hz%Z.ltb_lt].
    rewrite (proj2 (Z.leb_gt _ _)) by lia. reflexivity.
  - rewrite Hlim. unfold zlen. cbn [str_ default_limit]. by rewrite small_limit.
  - rewrite Hlim. unfold zlen. cbn [bin_ default_limit]. by rewrite small_limit.
  - rewrite Hlim. unfold zlen. cbn [ext_ default_limit]. rewrite small_limit; [done|].
    by destruct c.
Qed.

(** ** Round trip *)

Lemma unpack_pack_aux o r :
  wf_object o = true → shallow o = true →
  unpack (pack_object o ++ r) 0 = Ok (o, Z.of_nat (length (pack_object o))).
Proof.
  intros Hwf Hsh%Z.leb_le. unfold unpack, parse_imp.
  assert (0 < length (pack_object o))%nat.
  { pose proof (pack_object_nonempty o Hwf). destruct (pack_object o); simpl; [done|lia]. }
  rewrite length_app, (proj2 (Z.leb_gt _ _)) by lia.
  pose proof (execute_pack_object o r (create_object_visitor_init default_limit) Hwf) as He.
  rewrite (builds_object o Hwf) in He; [|reflexivity|cbn [create_object_visitor_init frames length]; lia].
  cbn [outcome_bind fst snd] in He.
  destruct (execute _ _ _) as [[[ret off] b]|]; [|discriminate].
  destruct ret; simpl in He; try discriminate. injection He as -> ->.
  cbn [outcome_bind]. destruct (_ <? _); reflexivity.
Qed.

(** C10: unpacking inverts packing: the packing of any representable object, followed by any
    bytes, is unpacked to that object, and the offset is left right behind it. *)
Theorem unpack_pack_roundtrip o r :
  wf_object o = true → shallow o = true →
  unpack (pack_object o ++ r) 0 = Ok (o, Z.of_nat (length (pack_object o))).
Proof. apply unpack_pack_aux. Qed.

Definition sample_object : object :=
  ARRAY [POSITIVE_INTEGER 70000; NEGATIVE_INTEGER (-129); STR [Byte.x61; Byte.x62];
    MAP [(STR [], BOOLEAN true)]; EXT [Byte.x05; Byte.x01; Byte.x02; Byte.x03]; NIL].

Lemma unpack_pack_roundtrip_witness :
  unpack (pack_object sample_object ++ [Byte.xc0]) 0 =
  Ok (sample_object, Z.of_nat (length (pack_object sample_object))).
Proof. apply unpack_pack_roundtrip; reflexivity. Defined.

Lemma unpack_truncated_aux o data x :
  wf_object o = true → shallow o = true → pack_object o = data ++ x → x ≠ [] →
  unpack data 0 = Throw (msgpack_insufficient_bytes "insufficient bytes").
Proof.
  intros Hwf Hsh%Z.leb_le Hp Hx. unfold unpack, parse_imp.
  destruct (Z.leb_spec0 (Z.of_nat (length data)) 0); [done|].
  pose proof (execute_pack_object o [] (create_object_visitor_init default_limit) Hwf) as He.
  rewrite (builds_object o Hwf) in He; [|reflexivity|cbn [create_object_visitor_init frames length]; lia].
  rewrite app_nil_r, Hp in He. cbn [outcome_bind fst snd] in He.
  destruct (execute (data ++ x) _ _) as [[[[] off] b]|] eqn:E; simpl in He; try discriminate.
  injection He as Hoff _. apply execute_prefix in E as (off' & v & ->); [done|].
  rewrite Hoff, length_app. destruct x; simpl; [done|lia].
Qed.

(** a message cut anywhere is reported as [insufficient_bytes], never as a parse error
    and never as a shorter object. *)
Theorem unpack_truncated o data x :
  wf_object o = true → shallow o = true → pack_object o = data ++ x → x ≠ [] →
  unpack data 0 = Throw (msgpack_insufficient_bytes "insufficient bytes").
Proof. apply unpack_truncated_aux. Qed.

Lemma unpack_truncated_witness :
  unpack (take 5 (pack_object sample_object)) 0 =
  Throw (msgpack_insufficient_bytes "insufficient bytes").
Proof.
  apply (unpack_truncated sample_object _ (drop 5 (pack_object sample_object)));
    [reflexivity..|discriminate].
Defined.

(** parsing is self-delimiting, for every visitor: once an object is recognised in some
    data, the same answer is given for every longer data and for every prefix that holds the
    object, and every shorter prefix is answered with "more bytes are needed". *)
Theorem parse_self_delimiting {V} `{Visitor V} (data : list byte) (v v' : V) off n :
  execute data 0 v = Ok (PARSE_SUCCESS, off, v') →
  (∀ x, execute (data ++ x) 0 v = Ok (PARSE_SUCCESS, off, v')) ∧
  (off ≤ Z.of_nat n → execute (take n data) 0 v = Ok (PARSE_SUCCESS, off, v')) ∧
  (Z.of_nat n < off → ∃ off' v'', execute (take n data) 0 v = Ok (PARSE_CONTINUE, off', v'')).
Proof.
  intros He. pose proof (execute_bounds _ _ _ _ _ He) as [Hb _].
  split; [intros; by apply execute_success_app|].
  rewrite <-(take_drop n data) in He. split; intros Hn.
  - eapply execute_trunc; [done|]. rewrite length_take. lia.
  - eapply execute_prefix; [done|]. rewrite length_take. lia.
Qed.

Lemma parse_self_delimiting_witness :
  execute [Byte.x92; Byte.x01; Byte.x02] 0 mk_null_visitor = Ok (PARSE_SUCCESS, 3, mk_null_visitor) ∧
  (∃ off' v'', execute (take 2 [Byte.x92; Byte.x01; Byte.x02]) 0 mk_null_visitor =
    Ok (PARSE_CONTINUE, off', v'')).
Proof.
  split; [reflexivity|].
  eapply (parse_self_delimiting [Byte.x92; Byte.x01; Byte.x02] mk_null_visitor _ 3 2); [reflexivity|lia].
Defined.
