(* ===== verification/MsgpackAdaptor.v ===== *)
(** Typed packing and conversion.

    Models the adaptors of msgpack-c that mpRPC instantiates: integers
    (v1/adaptor/int.hpp), [std::string] (v1/adaptor/string.hpp), [nil_t], [bool],
    enumerations (define_decl.hpp), [std::tuple] (v1/adaptor/cpp11/tuple.hpp) and
    [msgpack::object] itself. [Pack] and [Convert] are the operations a template parameter
    brings, [PackSpec] and [RoundTrip] what the rest of the development needs of them. *)

From S2P Require Import Prelude Errors MsgpackObject MsgpackParse MsgpackUnpack.

(** ** Interfaces *)

(** [msgpack::pack] and [object::as] of a type; [init] is a default-constructed value. *)
Class Pack (T : Type) := pack : T → result (list byte).
Class Convert (T : Type) := {
  init : T;
  convert : object → result T;
}.

(** Packing a value is packing an object that stands for it. *)
Class PackSpec (T : Type) `{Pack T} := {
  object_of : T → object;
  packable : T → bool;
  pack_spec x : packable x = true → pack x = Ok (pack_object (object_of x));
  object_of_wf x : packable x = true → wf_object (object_of x) = true;
}.

(** Conversion gets the packed value back. *)
Class RoundTrip (T : Type) `{PackSpec T, Convert T} :=
  convert_object_of x : packable x = true → convert (object_of x) = Ok x.

(** ** Scalars *)

Record nil_t := mk_nil_t {}.
#[export] Instance nil_t_Pack : Pack nil_t := λ _, Ok pack_nil.
#[export] Instance nil_t_Convert : Convert nil_t := {
  init := mk_nil_t;
  convert o := match o with NIL => Ok mk_nil_t | _ => Throw msgpack_type_error end;
}.

#[export] Instance bool_Pack : Pack bool := λ b, Ok (if b then pack_true else pack_false).
#[export] Instance bool_Convert : Convert bool := {
  init := false;
  convert o := match o with BOOLEAN b => Ok b | _ => Throw msgpack_type_error end;
}.

(** [int] and [std::uint32_t] values. *)
Record int32 := mk_int32 { int32_val : Z }.
Record uint32 := mk_uint32 { uint32_val : Z }.

(** [convert_integer_sign<T, true>] and [convert_integer_sign<T, false>] with the limits of
    the type. *)
Definition convert_signed (min max : Z) (o : object) : result Z :=
  match o with
  | POSITIVE_INTEGER u => if max <? u then Throw msgpack_type_error else Ok u
  | NEGATIVE_INTEGER i => if i <? min then Throw msgpack_type_error else Ok i
  | _ => Throw msgpack_type_error
  end.
Definition convert_unsigned (max : Z) (o : object) : result Z :=
  match o with
  | POSITIVE_INTEGER u => if max <? u then Throw msgpack_type_error else Ok u
  | _ => Throw msgpack_type_error
  end.

#[export] Instance int32_Pack : Pack int32 := λ x, Ok (pack_imp_int32 (int32_val x)).
#[export] Instance int32_Convert : Convert int32 := {
  init := mk_int32 0;
  convert o := outcome_bind (convert_signed (- 2 ^ 31) (2 ^ 31 - 1) o) (λ z, Ok (mk_int32 z));
}.
#[export] Instance uint32_Pack : Pack uint32 := λ x, Ok (pack_imp_uint32 (uint32_val x)).
#[export] Instance uint32_Convert : Convert uint32 := {
  init := mk_uint32 0;
  convert o := outcome_bind (convert_unsigned (2 ^ 32 - 1) o) (λ z, Ok (mk_uint32 z));
}.

(** [std::string], a sequence of bytes. *)
Definition std_string : Type := list byte.

(** [checked_get_container_size] *)
Definition checked_get_container_size (size : Z) : result Z :=
  if 0xffffffff <? size then
    Throw (msgpack_container_size_overflow "container size overflow")
  else Ok size.

#[export] Instance string_Pack : Pack std_string := λ s,
  outcome_bind (checked_get_container_size (Z.of_nat (length s))) (λ size, Ok (pack_str size ++ s)).
#[export] Instance string_Convert : Convert std_string := {
  init := [];
  convert o := match o with BIN s | STR s => Ok s | _ => Throw msgpack_type_error end;
}.

#[export] Instance object_Pack : Pack object := λ o, Ok (pack_object o).
#[export] Instance object_Convert : Convert object := { init := NIL; convert o := Ok o }.

(** ** Tuples *)

(** The elements of a tuple type: nested pairs that end in [unit]. *)
Class TupleElements (T : Type) := {
  tuple_size : nat;
  pack_elements : T → result (list byte);
  init_elements : T;
  convert_elements : list object → T → result T;
}.

#[export] Instance tuple_nil : TupleElements () := {
  tuple_size := 0;
  pack_elements _ := Ok [];
  init_elements := ();
  convert_elements _ _ := Ok ();
}.

(** [StdTupleConverter]: an element that the array does not have keeps its value. *)
#[export] Instance tuple_cons A T `{Pack A, Convert A, TupleElements T} :
    TupleElements (A * T) := {
  tuple_size := S (tuple_size (T := T));
  pack_elements '(a, t) :=
    outcome_bind (pack a) (λ x, outcome_bind (pack_elements t) (λ y, Ok (x ++ y)));
  init_elements := (init, init_elements);
  convert_elements l '(a, t) :=
    match l with
    | [] => Ok (a, t)
    | o :: l' =>
        outcome_bind (convert o) (λ a', outcome_bind (convert_elements l' t) (λ t', Ok (a', t')))
    end;
}.

Record tuple T := mk_tuple { elements : T }.
Arguments mk_tuple {T} elements.
Arguments elements {T} t.

#[export] Instance tuple_Pack T `{TupleElements T} : Pack (tuple T) := λ t,
  outcome_bind (pack_elements (elements t)) (λ b,
    Ok (pack_array (Z.of_nat (tuple_size (T := T))) ++ b)).
#[export] Instance tuple_Convert T `{TupleElements T} : Convert (tuple T) := {
  init := mk_tuple init_elements;
  convert o :=
    match o with
    | ARRAY l => outcome_bind (convert_elements l init_elements) (λ t, Ok (mk_tuple t))
    | _ => Throw msgpack_type_error
    end;
}.

(** ** Specifications of the instances *)

#[export, refine] Instance nil_t_PackSpec : PackSpec nil_t := {
  object_of _ := NIL; packable _ := true }.
Proof. all: done. Defined.
#[export, refine] Instance bool_PackSpec : PackSpec bool := {
  object_of := BOOLEAN; packable _ := true }.
Proof. all: done. Defined.

(** [object_sign::make]: the tag of an integer is its sign. *)
Definition integer_object (z : Z) : object :=
  if z <? 0 then NEGATIVE_INTEGER z else POSITIVE_INTEGER z.

#[export, refine] Instance int32_PackSpec : PackSpec int32 := {
  object_of x := integer_object (int32_val x);
  packable x := (- 2 ^ 31 <=? int32_val x) && (int32_val x <? 2 ^ 31) }.
Proof.
  - intros [z] [?%Z.leb_le ?%Z.ltb_lt]%andb_prop. simpl in *. unfold pack, int32_Pack, integer_object.
    simpl. rewrite pack_int32_int64 by lia. destruct (Z.ltb_spec0 z 0); [done|].
    simpl. by rewrite pack_int64_pos by lia.
  - intros [z] [?%Z.leb_le ?%Z.ltb_lt]%andb_prop. simpl in *. unfold integer_object.
    zcase; simpl; apply andb_true_intro; split;
      first [apply Z.leb_le | apply Z.ltb_lt]; lia.
Defined.

#[export, refine] Instance uint32_PackSpec : PackSpec uint32 := {
  object_of x := POSITIVE_INTEGER (uint32_val x);
  packable x := (0 <=? uint32_val x) && (uint32_val x <? 2 ^ 32) }.
Proof.
  - intros [z] [?%Z.leb_le ?%Z.ltb_lt]%andb_prop. simpl in *. unfold pack, uint32_Pack.
    by rewrite pack_uint32_uint64 by (simpl; lia).
  - intros [z] [?%Z.leb_le ?%Z.ltb_lt]%andb_prop. simpl in *.
    apply andb_true_intro; split; [apply Z.leb_le|apply Z.ltb_lt]; lia.
Defined.

#[export, refine] Instance string_PackSpec : PackSpec std_string := {
  object_of := STR; packable s := small (length s) }.
Proof.
  - intros s Hs%Z.ltb_lt. unfold pack, string_Pack, checked_get_container_size.
    rewrite (proj2 (Z.ltb_ge _ _)) by lia. done.
  - done.
Defined.

#[export, refine] Instance object_PackSpec : PackSpec object := {
  object_of o := o; packable := wf_object }.
Proof. all: done. Defined.

(** Elements of tuples. *)
Class TupleSpec (T : Type) `{TupleElements T} := {
  objects_of : T → list object;
  elements_packable : T → bool;
  pack_elements_spec t : elements_packable t = true →
    pack_elements t = Ok (List.flat_map pack_object (objects_of t));
  objects_of_wf t : elements_packable t = true → forallb wf_object (objects_of t) = true;
  length_objects_of t : length (objects_of t) = tuple_size (T := T);
}.

#[export, refine] Instance tuple_nil_Spec : TupleSpec () := {
  objects_of _ := []; elements_packable _ := true }.
Proof. all: done. Defined.

#[export, refine] Instance tuple_cons_Spec A T `{PackSpec A, Convert A, TupleSpec T} :
    TupleSpec (A * T) := {
  objects_of '(a, t) := object_of a :: objects_of t;
  elements_packable '(a, t) := packable a && elements_packable t }.
Proof.
  - intros [a t] [Ha Ht]%andb_prop. simpl. by rewrite pack_spec, pack_elements_spec.
  - intros [a t] [Ha Ht]%andb_prop. simpl. by rewrite object_of_wf, objects_of_wf.
  - intros [a t]. simpl. by rewrite length_objects_of.
Defined.

#[export, refine] Instance tuple_PackSpec T `{TupleSpec T} : PackSpec (tuple T) := {
  object_of t := ARRAY (objects_of (elements t));
  packable t := small (tuple_size (T := T)) && elements_packable (elements t) }.
Proof.
  - intros [t] [Hs Ht]%andb_prop. unfold pack, tuple_Pack. simpl in *.
    rewrite pack_elements_spec by done. simpl. by rewrite length_objects_of.
  - intros [t] [Hs Ht]%andb_prop. simpl in *. by rewrite length_objects_of, Hs, objects_of_wf.
Defined.

(** ** Round trips of the instances *)

#[export] Instance nil_t_RoundTrip : RoundTrip nil_t.
Proof. by intros []. Qed.
#[export] Instance bool_RoundTrip : RoundTrip bool.
Proof. done. Qed.
#[export] Instance int32_RoundTrip : RoundTrip int32.
Proof.
  intros [z] [?%Z.leb_le ?%Z.ltb_lt]%andb_prop. simpl in *. unfold integer_object.
  destruct (Z.ltb_spec0 z 0); simpl; zcase; reflexivity.
Qed.
#[export] Instance uint32_RoundTrip : RoundTrip uint32.
Proof.
  intros [z] [?%Z.leb_le ?%Z.ltb_lt]%andb_prop. simpl in *. zcase. reflexivity.
Qed.
#[export] Instance string_RoundTrip : RoundTrip std_string.
Proof. done. Qed.
#[export] Instance object_RoundTrip : RoundTrip object.
Proof. done. Qed.

Class TupleRoundTrip (T : Type) `{TupleSpec T} :=
  convert_objects_of t t0 : elements_packable t = true →
    convert_elements (objects_of t) t0 = Ok t.
#[export] Instance tuple_nil_RoundTrip : TupleRoundTrip ().
Proof. by intros [] ?. Qed.
#[export] Instance tuple_cons_RoundTrip A T `{RoundTrip A, TupleRoundTrip T} :
  TupleRoundTrip (A * T).
Proof.
  intros [a t] [a0 t0] [Ha Ht]%andb_prop. simpl.
  rewrite convert_object_of by done. simpl. by rewrite convert_objects_of.
Qed.
#[export] Instance tuple_RoundTrip T `{TupleRoundTrip T} : RoundTrip (tuple T).
Proof.
  intros [t] [_ Ht]%andb_prop. simpl in *. by rewrite convert_objects_of.
Qed.

(** What [pack] writes is unpacked and converted back to the value. *)
Lemma typed_roundtrip_aux {T} `{RoundTrip T} (x : T) :
  packable x = true → shallow (object_of x) = true →
  ∃ b, pack x = Ok b ∧ outcome_bind (unpack b 0) (λ '(o, _), convert o) = Ok x.
Proof.
  intros Hx Hs. exists (pack_object (object_of x)). split; [by apply pack_spec|].
  rewrite <-(app_nil_r (pack_object _)), unpack_pack_aux by (try done; by apply object_of_wf).
  by apply convert_object_of.
Qed.

Definition sample_args : tuple (int32 * (std_string * ())) :=
  mk_tuple (mk_int32 (-7), ([Byte.x61; Byte.x62], ())).
