(* ===== verification/MsgpackContainers.v ===== *)
(** More adaptors of msgpack-c, for the types that users of mpRPC pass to methods: 64-bit
    integers (v1/adaptor/int.hpp), [std::vector] (vector.hpp), byte vectors (vector_char.hpp),
    [std::pair] (pair.hpp) and [std::shared_ptr] (cpp11/shared_ptr.hpp), with the laws that
    [typed_roundtrip] and the end-to-end theorems ask of the types of parameters and results. *)

From S2P Require Import Prelude Errors MsgpackObject MsgpackFacts MsgpackUnpack MsgpackAdaptor.

Open Scope outcome_scope.

(** ** 64-bit integers *)

Record int64 := mk_int64 { int64_val : Z }.
Record uint64 := mk_uint64 { uint64_val : Z }.

#[export] Instance int64_Pack : Pack int64 := λ x, Ok (pack_imp_int64 (int64_val x)).
#[export] Instance int64_Convert : Convert int64 := {
  init := mk_int64 0;
  convert o := outcome_bind (convert_signed (- 2 ^ 63) (2 ^ 63 - 1) o) (λ z, Ok (mk_int64 z));
}.
#[export] Instance uint64_Pack : Pack uint64 := λ x, Ok (pack_imp_uint64 (uint64_val x)).
#[export] Instance uint64_Convert : Convert uint64 := {
  init := mk_uint64 0;
  convert o := outcome_bind (convert_unsigned (2 ^ 64 - 1) o) (λ z, Ok (mk_uint64 z));
}.

#[export, refine] Instance int64_PackSpec : PackSpec int64 := {
  object_of x := integer_object (int64_val x);
  packable x := (- 2 ^ 63 <=? int64_val x) && (int64_val x <? 2 ^ 63) }.
Proof.
  - intros [z] [?%Z.leb_le ?%Z.ltb_lt]%andb_prop. simpl in *. unfold pack, int64_Pack, integer_object.
    simpl. destruct (Z.ltb_spec0 z 0); [done|]. simpl. by rewrite pack_int64_pos by lia.
  - intros [z] [?%Z.leb_le ?%Z.ltb_lt]%andb_prop. simpl in *. unfold integer_object.
    zcase; simpl; apply andb_true_intro; split; first [apply Z.leb_le | apply Z.ltb_lt]; lia.
Defined.
#[export, refine] Instance uint64_PackSpec : PackSpec uint64 := {
  object_of x := POSITIVE_INTEGER (uint64_val x);
  packable x := (0 <=? uint64_val x) && (uint64_val x <? 2 ^ 64) }.
Proof. all: done. Defined.

#[export] Instance int64_RoundTrip : RoundTrip int64.
Proof.
  intros [z] [?%Z.leb_le ?%Z.ltb_lt]%andb_prop. simpl in *. unfold integer_object.
  destruct (Z.ltb_spec0 z 0); simpl; zcase; reflexivity.
Qed.
#[export] Instance uint64_RoundTrip : RoundTrip uint64.
Proof. intros [z] [?%Z.leb_le ?%Z.ltb_lt]%andb_prop. simpl in *. zcase. reflexivity. Qed.

(** ** Vectors *)

Record vector T := mk_vector { items : list T }.
Arguments mk_vector {T} items.
Arguments items {T}.

(** The loops over the elements stop at the first exception. *)
Fixpoint pack_items {T} `{Pack T} (l : list T) : result (list byte) :=
  match l with
  | [] => Ok []
  | x :: l' => let! b := pack x in let! b' := pack_items l' in Ok (b ++ b')
  end.
Fixpoint convert_items {T} `{Convert T} (l : list object) : result (list T) :=
  match l with
  | [] => Ok []
  | o :: l' => let! x := convert o in let! xs := convert_items l' in Ok (x :: xs)
  end.

#[export] Instance vector_Pack T `{Pack T} : Pack (vector T) := λ v,
  let! size := checked_get_container_size (Z.of_nat (length (items v))) in
  let! b := pack_items (items v) in
  Ok (pack_array size ++ b).
#[export] Instance vector_Convert T `{Convert T} : Convert (vector T) := {
  init := mk_vector [];
  convert o :=
    match o with
    | ARRAY l => let! xs := convert_items l in Ok (mk_vector xs)
    | _ => Throw msgpack_type_error
    end;
}.

Lemma pack_items_spec {T} `{PackSpec T} (l : list T) :
  forallb packable l = true → pack_items l = Ok (List.flat_map pack_object (map object_of l)).
Proof.
  induction l as [|x l IH]; [done|]. intros [Hx Hl]%andb_prop. simpl.
  by rewrite pack_spec, IH.
Qed.
Lemma items_wf {T} `{PackSpec T} (l : list T) :
  forallb packable l = true → forallb wf_object (map object_of l) = true.
Proof.
  induction l as [|x l IH]; [done|]. intros [Hx Hl]%andb_prop. simpl.
  by rewrite object_of_wf, IH.
Qed.
Lemma convert_items_of {T} `{RoundTrip T} (l : list T) :
  forallb packable l = true → convert_items (map object_of l) = Ok l.
Proof.
  induction l as [|x l IH]; [done|]. intros [Hx Hl]%andb_prop. simpl.
  by rewrite convert_object_of, IH.
Qed.

#[export, refine] Instance vector_PackSpec T `{PackSpec T} : PackSpec (vector T) := {
  object_of v := ARRAY (map object_of (items v));
  packable v := small (length (items v)) && forallb packable (items v) }.
Proof.
  - intros [l] [Hs%Z.ltb_lt Hl]%andb_prop. unfold pack, vector_Pack, checked_get_container_size. simpl in *.
    rewrite (proj2 (Z.ltb_ge _ _)) by lia. simpl. rewrite pack_items_spec by done. simpl.
    by rewrite length_map.
  - intros [l] [Hs Hl]%andb_prop. simpl in *. by rewrite length_map, Hs, items_wf.
Defined.
#[export] Instance vector_RoundTrip T `{RoundTrip T} : RoundTrip (vector T).
Proof. intros [l] [_ Hl]%andb_prop. simpl in *. by rewrite convert_items_of. Qed.

(** ** Byte vectors *)

Record byte_vector := mk_byte_vector { bytes_of : list byte }.

#[export] Instance byte_vector_Pack : Pack byte_vector := λ v,
  let! size := checked_get_container_size (Z.of_nat (length (bytes_of v))) in
  Ok (pack_bin size ++ bytes_of v).
#[export] Instance byte_vector_Convert : Convert byte_vector := {
  init := mk_byte_vector [];
  convert o := match o with BIN s | STR s => Ok (mk_byte_vector s) | _ => Throw msgpack_type_error end;
}.
#[export, refine] Instance byte_vector_PackSpec : PackSpec byte_vector := {
  object_of v := BIN (bytes_of v); packable v := small (length (bytes_of v)) }.
Proof.
  - intros [s] Hs%Z.ltb_lt. unfold pack, byte_vector_Pack, checked_get_container_size.
    simpl in *. rewrite (proj2 (Z.ltb_ge _ _)) by lia. done.
  - done.
Defined.
#[export] Instance byte_vector_RoundTrip : RoundTrip byte_vector.
Proof. by intros []. Qed.

(** ** Pairs *)

Record std_pair A B := mk_pair { first : A; second : B }.
Arguments mk_pair {A B} first second.
Arguments first {A B}.
Arguments second {A B}.

#[export] Instance pair_Pack A B `{Pack A, Pack B} : Pack (std_pair A B) := λ p,
  let! a := pack (first p) in let! b := pack (second p) in Ok (pack_array 2 ++ a ++ b).
#[export] Instance pair_Convert A B `{Convert A, Convert B} : Convert (std_pair A B) := {
  init := mk_pair init init;
  convert o :=
    match o with
    | ARRAY [x; y] => let! a := convert x in let! b := convert y in Ok (mk_pair a b)
    | _ => Throw msgpack_type_error
    end;
}.
#[export, refine] Instance pair_PackSpec A B `{PackSpec A, PackSpec B} : PackSpec (std_pair A B) := {
  object_of p := ARRAY [object_of (first p); object_of (second p)];
  packable p := packable (first p) && packable (second p) }.
Proof.
  - intros [a b] [Ha Hb]%andb_prop. unfold pack, pair_Pack. simpl in *. rewrite !pack_spec by done. simpl.
    by rewrite app_nil_r.
  - intros [a b] [Ha Hb]%andb_prop. simpl in *. by rewrite !object_of_wf.
Defined.
#[export] Instance pair_RoundTrip A B `{RoundTrip A, RoundTrip B} : RoundTrip (std_pair A B).
Proof.
  intros [a b] [Ha Hb]%andb_prop. unfold convert, pair_Convert. simpl in *.
  by rewrite !convert_object_of by done.
Qed.

(** ** Shared pointers *)

Record shared_ptr T := mk_shared_ptr { pointee : option T }.
Arguments mk_shared_ptr {T} pointee.
Arguments pointee {T}.

#[export] Instance shared_ptr_Pack T `{Pack T} : Pack (shared_ptr T) := λ p,
  match pointee p with Some x => pack x | None => Ok pack_nil end.
#[export] Instance shared_ptr_Convert T `{Convert T} : Convert (shared_ptr T) := {
  init := mk_shared_ptr None;
  convert o :=
    match o with
    | NIL => Ok (mk_shared_ptr None)
    | _ => let! x := convert o in Ok (mk_shared_ptr (Some x))
    end;
}.

(** A pointer to a value that is packed as nil comes back as a null pointer: such values are
    left out. *)
#[export, refine] Instance shared_ptr_PackSpec T `{PackSpec T} : PackSpec (shared_ptr T) := {
  object_of p := match pointee p with Some x => object_of x | None => NIL end;
  packable p :=
    match pointee p with Some x => packable x && negb (is_nil (object_of x)) | None => true end }.
Proof.
  - intros [[x|]]; [|done]. intros [Hx _]%andb_prop. exact (pack_spec x Hx).
  - intros [[x|]]; [|done]. intros [Hx _]%andb_prop. exact (object_of_wf x Hx).
Defined.
#[export] Instance shared_ptr_RoundTrip T `{RoundTrip T} : RoundTrip (shared_ptr T).
Proof.
  intros [[x|]]; [|done]. intros [Hx Hn]%andb_prop. pose proof (convert_object_of x Hx) as Hc.
  change (match object_of x with
          | NIL => Ok (mk_shared_ptr None)
          | _ => let! y := convert (object_of x) in Ok (mk_shared_ptr (Some y))
          end = Ok (mk_shared_ptr (Some x))).
  rewrite Hc. by destruct (object_of x).
Qed.

(** The arguments of a method with all of these. *)
Definition sample_containers : tuple (vector (std_pair int64 std_string) * (shared_ptr byte_vector * ())) :=
  mk_tuple (mk_vector [mk_pair (mk_int64 (-5)) [Byte.x61]; mk_pair (mk_int64 (2 ^ 40)) []],
    (mk_shared_ptr (Some (mk_byte_vector [Byte.x00; Byte.xff])), ())).
Lemma sample_containers_roundtrip :
  outcome_bind (pack sample_containers) (λ b, outcome_bind (unpack b 0) (λ '(o, _), convert o)) = Ok sample_containers.
Proof. vm_compute. reflexivity. Qed.
