(* ===== verification/MsgpackMaps.v ===== *)
(** The adaptors of msgpack-c for ordered containers: [std::map] and [std::multimap]
    (v1/adaptor/map.hpp), [std::set] and [std::multiset] (set.hpp), with the laws of
    [MsgpackAdaptor] for their use as parameters and results of methods, and what they make of
    objects that no container packs (keys repeated or out of order). *)

From stdpp Require Import sets.
From S2P Require Import Prelude Errors MsgpackObject MsgpackFacts MsgpackUnpack MsgpackAdaptor MsgpackContainers.

Open Scope outcome_scope.

(** ** Keys *)

(** The [Compare] of a container, a strict total order. *)
Class Less (K : Type) := less : K → K → bool.
Class LessSpec (K : Type) `{Less K} := {
  less_irrefl k : less k k = false;
  less_trans a b c : less a b = true → less b c = true → less a c = true;
  less_total a b : less a b = false → less b a = false → a = b;
}.

Lemma less_asym {K} `{LessSpec K} a b : less a b = true → less b a = false.
Proof.
  intros Hab. destruct (less b a) eqn:Hba; [|done].
  pose proof (less_trans a b a Hab Hba) as Ha. by rewrite less_irrefl in Ha.
Qed.

#[export] Instance int64_Less : Less int64 := λ a b, int64_val a <? int64_val b.
#[export] Instance int32_Less : Less int32 := λ a b, int32_val a <? int32_val b.
#[export] Instance uint64_Less : Less uint64 := λ a b, uint64_val a <? uint64_val b.

Ltac solve_less :=
  unfold less; simpl; intros; rewrite ?Z.ltb_lt, ?Z.ltb_ge in *; f_equal; lia.

#[export] Instance int64_LessSpec : LessSpec int64.
Proof. split; unfold less, int64_Less; [intros []|intros [] [] []|intros [] []]; solve_less. Qed.
#[export] Instance int32_LessSpec : LessSpec int32.
Proof. split; unfold less, int32_Less; [intros []|intros [] [] []|intros [] []]; solve_less. Qed.
#[export] Instance uint64_LessSpec : LessSpec uint64.
Proof. split; unfold less, uint64_Less; [intros []|intros [] [] []|intros [] []]; solve_less. Qed.

(** [operator<] of [std::string]: lexicographic, with [char_traits<char>::lt] on the bytes as
    [unsigned char]. *)
Fixpoint string_less (a b : list byte) : bool :=
  match a, b with
  | _, [] => false
  | [], _ :: _ => true
  | x :: a', y :: b' =>
      if byte_to_Z x <? byte_to_Z y then true
      else if byte_to_Z y <? byte_to_Z x then false
      else string_less a' b'
  end.
#[export] Instance string_Less : Less std_string := string_less.

#[export] Instance string_LessSpec : LessSpec std_string.
Proof.
  split; unfold less, string_Less.
  - intros k. induction k as [|x k IH]; [done|]. simpl. by rewrite Z.ltb_irrefl.
  - intros a. induction a as [|x a IH]; intros [|y b] [|z c]; simpl; try done.
    specialize (IH b c). repeat zcase; try done; lia.
  - intros a. induction a as [|x a IH]; intros [|y b]; simpl; try done.
    repeat zcase; try done. intros Hab Hba. assert (x = y) as -> by (apply byte_to_Z_inj; lia).
    f_equal. by apply IH.
Qed.

(** ** Conversion into an object that has a value *)

(** [object::convert(v)] for a [v] that was not just constructed: most adaptors overwrite it,
    those of vectors, pairs and tuples convert into the elements. *)
Class ConvertInto (T : Type) `{Convert T} := {
  convert_into : object → T → result T;
  convert_into_init o : convert_into o init = convert o;
}.

Definition overwrite (T : Type) `{Convert T} : ConvertInto T :=
  {| convert_into o _ := convert o; convert_into_init _ := eq_refl |}.

#[export] Instance nil_t_Into : ConvertInto nil_t := overwrite nil_t.
#[export] Instance bool_Into : ConvertInto bool := overwrite bool.
#[export] Instance int32_Into : ConvertInto int32 := overwrite int32.
#[export] Instance uint32_Into : ConvertInto uint32 := overwrite uint32.
#[export] Instance int64_Into : ConvertInto int64 := overwrite int64.
#[export] Instance uint64_Into : ConvertInto uint64 := overwrite uint64.
#[export] Instance string_Into : ConvertInto std_string := overwrite std_string.
#[export] Instance object_Into : ConvertInto object := overwrite object.
#[export] Instance byte_vector_Into : ConvertInto byte_vector := overwrite byte_vector.
#[export] Instance shared_ptr_Into T `{Convert T} : ConvertInto (shared_ptr T) := overwrite (shared_ptr T).

(** [v.resize(size)] keeps the elements there are. *)
Fixpoint convert_items_into {T} `{ConvertInto T} (l : list object) (old : list T) : result (list T) :=
  match l with
  | [] => Ok []
  | o :: l' =>
      let! x := convert_into o (hd init old) in
      let! xs := convert_items_into l' (tl old) in Ok (x :: xs)
  end.
Lemma convert_items_into_new {T} `{ConvertInto T} (l : list object) :
  convert_items_into l [] = convert_items l.
Proof. induction l as [|o l IH]; [done|]. simpl. by rewrite convert_into_init, IH. Qed.

#[export, refine] Instance vector_Into T `{ConvertInto T} : ConvertInto (vector T) := {
  convert_into o v :=
    match o with
    | ARRAY l => let! xs := convert_items_into l (items v) in Ok (mk_vector xs)
    | _ => Throw msgpack_type_error
    end }.
Proof. intros []; simpl; try done. by rewrite convert_items_into_new. Defined.

#[export, refine] Instance pair_Into A B `{ConvertInto A, ConvertInto B} : ConvertInto (std_pair A B) := {
  convert_into o p :=
    match o with
    | ARRAY [x; y] =>
        let! a := convert_into x (first p) in let! b := convert_into y (second p) in Ok (mk_pair a b)
    | _ => Throw msgpack_type_error
    end }.
Proof.
  intros []; try done. destruct l as [|x [|y [|]]]; try done. simpl. by rewrite !convert_into_init.
Defined.

(** The elements of a tuple that the array does not have keep their value. *)
Class ElementsInto (T : Type) `{TupleElements T} := {
  elements_into : list object → T → result T;
  elements_into_init l : elements_into l init_elements = convert_elements l init_elements;
}.
#[export, refine] Instance tuple_nil_Into : ElementsInto () := { elements_into _ _ := Ok () }.
Proof. done. Defined.
#[export, refine] Instance tuple_cons_Into A T `{Pack A, ConvertInto A, ElementsInto T} : ElementsInto (A * T) := {
  elements_into l '(a, t) :=
    match l with
    | [] => Ok (a, t)
    | o :: l' => let! a' := convert_into o a in let! t' := elements_into l' t in Ok (a', t')
    end }.
Proof. intros [|o l]; [done|]. simpl. by rewrite convert_into_init, elements_into_init. Defined.
#[export, refine] Instance tuple_Into T `{ElementsInto T} : ConvertInto (tuple T) := {
  convert_into o t :=
    match o with
    | ARRAY l => let! e := elements_into l (elements t) in Ok (mk_tuple e)
    | _ => Throw msgpack_type_error
    end }.
Proof. intros []; simpl; try done. by rewrite elements_into_init. Defined.

(** ** Ordered sequences *)

(** The containers as the sequences that iteration gives. *)
Section ordered.
Context {K A : Type} `{LessSpec K} (key : A → K).

(** [insert] and [emplace] of [map] and [set]: an element with an equivalent key stays. *)
Fixpoint insert_unique (x : A) (l : list A) : list A :=
  match l with
  | [] => [x]
  | y :: l' =>
      if less (key x) (key y) then x :: l
      else if less (key y) (key x) then y :: insert_unique x l'
      else l
  end.

(** [insert] and [emplace] of [multimap] and [multiset]: behind the equivalent elements. *)
Fixpoint insert_multi (x : A) (l : list A) : list A :=
  match l with
  | [] => [x]
  | y :: l' => if less (key x) (key y) then x :: l else y :: insert_multi x l'
  end.

Fixpoint increasing (l : list A) : bool :=
  match l with
  | [] => true
  | x :: l' => forallb (λ y, less (key x) (key y)) l' && increasing l'
  end.
Fixpoint nondecreasing (l : list A) : bool :=
  match l with
  | [] => true
  | x :: l' => forallb (λ y, negb (less (key y) (key x))) l' && nondecreasing l'
  end.

Lemma insert_unique_forallb (p : A → bool) x l :
  p x = true → forallb p l = true → forallb p (insert_unique x l) = true.
Proof.
  intros Hx. induction l as [|y l IH]; simpl; [by rewrite Hx|]. intros [Hy Hl]%andb_prop.
  repeat case_match; simpl; rewrite ?Hx, ?Hy, ?Hl; simpl; auto.
Qed.
Lemma insert_multi_forallb (p : A → bool) x l :
  p x = true → forallb p l = true → forallb p (insert_multi x l) = true.
Proof.
  intros Hx. induction l as [|y l IH]; simpl; [by rewrite Hx|]. intros [Hy Hl]%andb_prop.
  repeat case_match; simpl; rewrite ?Hx, ?Hy, ?Hl; simpl; auto.
Qed.

Lemma insert_unique_increasing x l :
  increasing l = true → increasing (insert_unique x l) = true.
Proof.
  induction l as [|y l IH]; [done|]. simpl. intros [Hy Hl]%andb_prop.
  destruct (less (key x) (key y)) eqn:Hxy.
  - simpl. rewrite Hxy, Hy, Hl. simpl. rewrite andb_true_r. apply List.forallb_forall. intros z Hz.
    eapply less_trans; [done|]. by apply (proj1 (List.forallb_forall _ _) Hy).
  - destruct (less (key y) (key x)) eqn:Hyx; simpl; [|by rewrite Hy, Hl].
    by rewrite IH, insert_unique_forallb.
Qed.

Lemma less_not_trans a b c : less b a = false → less c b = false → less c a = false.
Proof.
  intros Hba Hcb. destruct (less c a) eqn:Hca; [|done].
  destruct (less a b) eqn:Hab.
  - by rewrite (less_trans c a b) in Hcb.
  - by rewrite (less_total a b Hab Hba), Hcb in Hca.
Qed.

Lemma insert_multi_nondecreasing x l :
  nondecreasing l = true → nondecreasing (insert_multi x l) = true.
Proof.
  induction l as [|y l IH]; [done|]. simpl. intros [Hy Hl]%andb_prop.
  destruct (less (key x) (key y)) eqn:Hxy; simpl.
  - rewrite Hy, Hl, (less_asym _ _ Hxy). simpl. rewrite andb_true_r. apply List.forallb_forall.
    intros z Hz. apply negb_true_iff, (less_not_trans _ (key y)); [by apply less_asym|].
    by apply negb_true_iff, (proj1 (List.forallb_forall _ _) Hy).
  - rewrite IH, insert_multi_forallb by (by rewrite ?Hxy). done.
Qed.

Lemma insert_multi_perm x l : insert_multi x l ≡ₚ x :: l.
Proof.
  induction l as [|y l IH]; [done|]. simpl. case_match; [done|].
  rewrite IH. apply Permutation_swap.
Qed.

(** Inserting at the ends. *)
Lemma insert_unique_last x l :
  forallb (λ y, less (key y) (key x)) l = true → insert_unique x l = l ++ [x].
Proof.
  induction l as [|y l IH]; [done|]. simpl. intros [Hy Hl]%andb_prop.
  by rewrite (less_asym _ _ Hy), Hy, IH.
Qed.
Lemma insert_unique_first x l : increasing (x :: l) = true → insert_unique x l = x :: l.
Proof. destruct l as [|y l]; [done|]. simpl. by intros [[-> _]%andb_prop _]%andb_prop. Qed.
Lemma insert_multi_last x l :
  forallb (λ y, negb (less (key x) (key y))) l = true → insert_multi x l = l ++ [x].
Proof.
  induction l as [|y l IH]; [done|]. simpl. intros [Hy%negb_true_iff Hl]%andb_prop. by rewrite Hy, IH.
Qed.

(** A sequence in order is rebuilt by inserting its elements from the first to the last. *)
Lemma increasing_snoc l x :
  increasing (l ++ [x]) = true ↔ increasing l = true ∧ forallb (λ y, less (key y) (key x)) l = true.
Proof.
  induction l as [|y l IH]; [done|]. simpl. rewrite forallb_app, !andb_true_iff, IH. simpl.
  rewrite andb_true_r. naive_solver.
Qed.
Lemma nondecreasing_snoc l x :
  nondecreasing (l ++ [x]) = true ↔
  nondecreasing l = true ∧ forallb (λ y, negb (less (key x) (key y))) l = true.
Proof.
  induction l as [|y l IH]; [done|]. simpl. rewrite forallb_app, !andb_true_iff, IH. simpl.
  rewrite andb_true_r. naive_solver.
Qed.

Definition insert_all (ins : A → list A → list A) (l : list A) : list A :=
  foldl (λ m x, ins x m) [] l.

Lemma insert_all_unique l : increasing l = true → insert_all insert_unique l = l.
Proof.
  unfold insert_all. induction l as [|x l IH] using rev_ind; [done|].
  intros [Hl Hx]%increasing_snoc. rewrite foldl_app. simpl. by rewrite IH, insert_unique_last.
Qed.
Lemma insert_all_multi l : nondecreasing l = true → insert_all insert_multi l = l.
Proof.
  unfold insert_all. induction l as [|x l IH] using rev_ind; [done|].
  intros [Hl Hx]%nondecreasing_snoc. rewrite foldl_app. simpl. by rewrite IH, insert_multi_last.
Qed.
Lemma insert_all_unique_increasing l : increasing (insert_all insert_unique l) = true.
Proof.
  unfold insert_all. induction l as [|x l IH] using rev_ind; [done|].
  rewrite foldl_app. by apply insert_unique_increasing.
Qed.
Lemma insert_all_multi_spec l :
  nondecreasing (insert_all insert_multi l) = true ∧ insert_all insert_multi l ≡ₚ l.
Proof.
  unfold insert_all. induction l as [|x l [IHn IHp]] using rev_ind; [done|].
  rewrite foldl_app. simpl. split; [by apply insert_multi_nondecreasing|].
  rewrite insert_multi_perm, IHp. apply Permutation_cons_append.
Qed.
End ordered.

(** ** Maps *)

Record std_map K V := mk_map { entries : list (K * V) }.
Record multimap K V := mk_multimap { multi_entries : list (K * V) }.
Arguments mk_map {K V} entries.
Arguments entries {K V}.
Arguments mk_multimap {K V} multi_entries.
Arguments multi_entries {K V}.

(** The loop of [pack], the same for both. *)
Fixpoint pack_entries {K V} `{Pack K, Pack V} (l : list (K * V)) : result (list byte) :=
  match l with
  | [] => Ok []
  | (k, v) :: l' =>
      let! a := pack k in let! b := pack v in let! b' := pack_entries l' in Ok (a ++ b ++ b')
  end.
Definition pack_as_map {K V} `{Pack K, Pack V} (l : list (K * V)) : result (list byte) :=
  let! size := checked_get_container_size (Z.of_nat (length l)) in
  let! b := pack_entries l in
  Ok (pack_map size ++ b).
#[export] Instance map_Pack K V `{Pack K, Pack V} : Pack (std_map K V) := λ m, pack_as_map (entries m).
#[export] Instance multimap_Pack K V `{Pack K, Pack V} : Pack (multimap K V) := λ m, pack_as_map (multi_entries m).

(** [f] applied to the element [m[k]], which [operator[]] makes when there is none. *)
Fixpoint subscript {K V} `{Less K} (m : list (K * V)) (k : K) (def : V) (f : V → result V) : result (list (K * V)) :=
  match m with
  | [] => let! v := f def in Ok [(k, v)]
  | (k', v') :: m' =>
      if less k k' then let! v := f def in Ok ((k, v) :: m)
      else if less k' k then let! r := subscript m' k def f in Ok ((k', v') :: r)
      else let! v := f v' in Ok ((k', v) :: m')
  end.

Fixpoint convert_entries_loop {K V} `{Less K, Convert K, ConvertInto V}
    (l : list (object * object)) (tmp : list (K * V)) : result (list (K * V)) :=
  match l with
  | [] => Ok tmp
  | (ok, ov) :: l' =>
      let! k := convert ok in
      let! tmp' := subscript tmp k init (convert_into ov) in
      convert_entries_loop l' tmp'
  end.

(** The loops that convert both parts of an entry and insert them. *)
Fixpoint insert_entries_loop {K V} `{Convert K, Convert V} (ins : K * V → list (K * V) → list (K * V))
    (l : list (object * object)) (tmp : list (K * V)) : result (list (K * V)) :=
  match l with
  | [] => Ok tmp
  | (ok, ov) :: l' =>
      let! k := convert ok in let! v := convert ov in insert_entries_loop ins l' (ins (k, v) tmp)
  end.

#[export] Instance map_Convert K V `{Less K, Convert K, ConvertInto V} : Convert (std_map K V) := {
  init := mk_map [];
  convert o :=
    match o with
    | MAP l => let! r := convert_entries_loop l [] in Ok (mk_map r)
    | _ => Throw msgpack_type_error
    end;
}.

(** [as] for keys or values that have one (types without a default constructor), the arguments
    of [emplace] evaluated in their order. *)
Definition map_as {K V} `{Less K, Convert K, Convert V} (o : object) : result (std_map K V) :=
  match o with
  | MAP l => let! r := insert_entries_loop (insert_unique fst) l [] in Ok (mk_map r)
  | _ => Throw msgpack_type_error
  end.

#[export] Instance multimap_Convert K V `{Less K, Convert K, Convert V} : Convert (multimap K V) := {
  init := mk_multimap [];
  convert o :=
    match o with
    | MAP l => let! r := insert_entries_loop (insert_multi fst) l [] in Ok (mk_multimap r)
    | _ => Throw msgpack_type_error
    end;
}.

#[export] Instance map_Into K V `{Less K, Convert K, ConvertInto V} : ConvertInto (std_map K V) :=
  overwrite (std_map K V).
#[export] Instance multimap_Into K V `{Less K, Convert K, Convert V} : ConvertInto (multimap K V) :=
  overwrite (multimap K V).

(** ** Sets *)

Record std_set T := mk_set { set_items : list T }.
Record multiset T := mk_multiset { multi_items : list T }.
Arguments mk_set {T} set_items.
Arguments set_items {T}.
Arguments mk_multiset {T} multi_items.
Arguments multi_items {T}.

Definition pack_as_array {T} `{Pack T} (l : list T) : result (list byte) :=
  let! size := checked_get_container_size (Z.of_nat (length l)) in
  let! b := pack_items l in
  Ok (pack_array size ++ b).
#[export] Instance set_Pack T `{Pack T} : Pack (std_set T) := λ s, pack_as_array (set_items s).
#[export] Instance multiset_Pack T `{Pack T} : Pack (multiset T) := λ s, pack_as_array (multi_items s).

(** The loop goes from the last element to the first. *)
Fixpoint insert_items_loop {T} `{Convert T} (ins : T → list T → list T) (l : list object) (tmp : list T) :
    result (list T) :=
  match l with
  | [] => Ok tmp
  | o :: l' => let! x := convert o in insert_items_loop ins l' (ins x tmp)
  end.

#[export] Instance set_Convert T `{Less T, Convert T} : Convert (std_set T) := {
  init := mk_set [];
  convert o :=
    match o with
    | ARRAY l => let! r := insert_items_loop (insert_unique id) (rev l) [] in Ok (mk_set r)
    | _ => Throw msgpack_type_error
    end;
}.
#[export] Instance multiset_Convert T `{Less T, Convert T} : Convert (multiset T) := {
  init := mk_multiset [];
  convert o :=
    match o with
    | ARRAY l => let! r := insert_items_loop (insert_multi id) (rev l) [] in Ok (mk_multiset r)
    | _ => Throw msgpack_type_error
    end;
}.
#[export] Instance set_Into T `{Less T, Convert T} : ConvertInto (std_set T) := overwrite (std_set T).
#[export] Instance multiset_Into T `{Less T, Convert T} : ConvertInto (multiset T) := overwrite (multiset T).

(** ** Laws of maps *)

Definition entry_object {K V} `{PackSpec K, PackSpec V} (e : K * V) : object * object :=
  (object_of e.1, object_of e.2).
Definition entry_packable {K V} `{PackSpec K, PackSpec V} (e : K * V) : bool :=
  packable e.1 && packable e.2.

Lemma pack_entries_spec {K V} `{PackSpec K, PackSpec V} (l : list (K * V)) :
  forallb entry_packable l = true →
  pack_entries l = Ok (List.flat_map (λ '(k, v), pack_object k ++ pack_object v) (map entry_object l)).
Proof.
  induction l as [|[k v] l IH]; [done|]. intros [[Hk Hv]%andb_prop Hl]%andb_prop. simpl in *.
  rewrite !pack_spec, IH by done. simpl. by rewrite app_assoc.
Qed.
Lemma pack_as_map_spec {K V} `{PackSpec K, PackSpec V} (l : list (K * V)) :
  small (length l) && forallb entry_packable l = true →
  pack_as_map l = Ok (pack_object (MAP (map entry_object l))).
Proof.
  intros [Hs%Z.ltb_lt Hl]%andb_prop. unfold pack_as_map, checked_get_container_size.
  rewrite (proj2 (Z.ltb_ge _ _)) by lia. simpl. rewrite pack_entries_spec by done. simpl.
  by rewrite length_map.
Qed.
Lemma map_object_wf {K V} `{PackSpec K, PackSpec V} (l : list (K * V)) :
  small (length l) && forallb entry_packable l = true → wf_object (MAP (map entry_object l)) = true.
Proof.
  intros [Hs Hl]%andb_prop. simpl. rewrite length_map, Hs. simpl. clear Hs.
  induction l as [|[k v] l IH]; [done|]. apply andb_prop in Hl as [[Hk Hv]%andb_prop Hl]. simpl in *.
  by rewrite !object_of_wf, IH.
Qed.

#[export, refine] Instance map_PackSpec K V `{PackSpec K, Less K, PackSpec V} : PackSpec (std_map K V) := {
  object_of m := MAP (map entry_object (entries m));
  packable m := small (length (entries m)) && forallb entry_packable (entries m) && increasing fst (entries m) }.
Proof.
  - intros [l] [Hl _]%andb_prop. by apply pack_as_map_spec.
  - intros [l] [Hl _]%andb_prop. by apply map_object_wf.
Defined.
#[export, refine] Instance multimap_PackSpec K V `{PackSpec K, Less K, PackSpec V} : PackSpec (multimap K V) := {
  object_of m := MAP (map entry_object (multi_entries m));
  packable m :=
    small (length (multi_entries m)) && forallb entry_packable (multi_entries m) &&
    nondecreasing fst (multi_entries m) }.
Proof.
  - intros [l] [Hl _]%andb_prop. by apply pack_as_map_spec.
  - intros [l] [Hl _]%andb_prop. by apply map_object_wf.
Defined.

(** All entries of an object, converted. *)
Fixpoint convert_entries {K V} `{Convert K, Convert V} (l : list (object * object)) : result (list (K * V)) :=
  match l with
  | [] => Ok []
  | (ok, ov) :: l' =>
      let! k := convert ok in let! v := convert ov in let! es := convert_entries l' in Ok ((k, v) :: es)
  end.

Lemma convert_entries_of {K V} `{RoundTrip K, RoundTrip V} (l : list (K * V)) :
  forallb entry_packable l = true → convert_entries (map entry_object l) = Ok l.
Proof.
  induction l as [|[k v] l IH]; [done|]. intros [[Hk Hv]%andb_prop Hl]%andb_prop. simpl in *.
  rewrite !convert_object_of by done. simpl. by rewrite IH.
Qed.

Lemma insert_entries_loop_all {K V} `{Convert K, Convert V} ins (l : list (object * object)) (tmp : list (K * V)) :
  insert_entries_loop ins l tmp = let! es := convert_entries l in Ok (foldl (λ m x, ins x m) tmp es).
Proof.
  revert tmp. induction l as [|[ok ov] l IH]; intros tmp; [done|]. simpl.
  destruct (convert ok) as [k|e]; [|done]. simpl. destruct (convert ov) as [v|e]; [|done]. simpl.
  rewrite IH. by destruct (convert_entries l).
Qed.

Lemma subscript_last {K V} `{LessSpec K} (m : list (K * V)) k def f :
  forallb (λ e, less e.1 k) m = true → subscript m k def f = let! v := f def in Ok (m ++ [(k, v)]).
Proof.
  induction m as [|[k' v'] m IH]; [done|]. simpl. intros [Hk Hm]%andb_prop.
  rewrite (less_asym _ _ Hk), Hk, IH by done. by destruct (f def).
Qed.

Lemma convert_entries_loop_of {K V} `{RoundTrip K, LessSpec K, RoundTrip V, !ConvertInto V} (l tmp : list (K * V)) :
  forallb entry_packable l = true → increasing fst (tmp ++ l) = true →
  convert_entries_loop (map entry_object l) tmp = Ok (tmp ++ l).
Proof.
  revert tmp. induction l as [|[k v] l IH]; intros tmp; [by rewrite app_nil_r|].
  intros [[Hk Hv]%andb_prop Hl]%andb_prop Hi. simpl in *. rewrite convert_object_of by done. simpl.
  rewrite cons_middle, app_assoc in Hi.
  rewrite subscript_last.
  - rewrite convert_into_init, convert_object_of by done. simpl. rewrite IH by done. by rewrite <-app_assoc.
  - clear -Hi. induction tmp as [|e tmp IH]; [done|]. simpl in *. apply andb_prop in Hi as [Hf Hi].
    rewrite <-app_assoc, forallb_app in Hf. apply andb_prop in Hf as [_ [Hek _]%andb_prop].
    simpl in Hek. rewrite Hek. by apply IH.
Qed.

#[export] Instance map_RoundTrip K V `{RoundTrip K, LessSpec K, RoundTrip V, !ConvertInto V} : RoundTrip (std_map K V).
Proof.
  intros [l] [[_ Hl]%andb_prop Hi]%andb_prop. unfold convert, map_Convert, object_of, map_PackSpec. simpl in *.
  by rewrite convert_entries_loop_of.
Qed.
#[export] Instance multimap_RoundTrip K V `{RoundTrip K, LessSpec K, RoundTrip V} : RoundTrip (multimap K V).
Proof.
  intros [l] [[_ Hl]%andb_prop Hi]%andb_prop. unfold convert, multimap_Convert, object_of, multimap_PackSpec. simpl in *.
  rewrite insert_entries_loop_all, convert_entries_of by done. simpl. do 2 f_equal. by apply insert_all_multi.
Qed.

(** ** Laws of sets *)

Lemma pack_as_array_spec {T} `{PackSpec T} (l : list T) :
  small (length l) && forallb packable l = true →
  pack_as_array l = Ok (pack_object (ARRAY (map object_of l))).
Proof.
  intros [Hs%Z.ltb_lt Hl]%andb_prop. unfold pack_as_array, checked_get_container_size.
  rewrite (proj2 (Z.ltb_ge _ _)) by lia. simpl. rewrite pack_items_spec by done. simpl. by rewrite length_map.
Qed.
Lemma array_object_wf {T} `{PackSpec T} (l : list T) :
  small (length l) && forallb packable l = true → wf_object (ARRAY (map object_of l)) = true.
Proof. intros [Hs Hl]%andb_prop. simpl. by rewrite length_map, Hs, items_wf. Qed.

#[export, refine] Instance set_PackSpec T `{PackSpec T, Less T} : PackSpec (std_set T) := {
  object_of s := ARRAY (map object_of (set_items s));
  packable s := small (length (set_items s)) && forallb packable (set_items s) && increasing id (set_items s) }.
Proof.
  - intros [l] [Hl _]%andb_prop. by apply pack_as_array_spec.
  - intros [l] [Hl _]%andb_prop. by apply array_object_wf.
Defined.
#[export, refine] Instance multiset_PackSpec T `{PackSpec T, Less T} : PackSpec (multiset T) := {
  object_of s := ARRAY (map object_of (multi_items s));
  packable s :=
    small (length (multi_items s)) && forallb packable (multi_items s) && nondecreasing id (multi_items s) }.
Proof.
  - intros [l] [Hl _]%andb_prop. by apply pack_as_array_spec.
  - intros [l] [Hl _]%andb_prop. by apply array_object_wf.
Defined.

Lemma insert_items_loop_all {T} `{Convert T} ins (l : list object) (tmp : list T) :
  insert_items_loop ins l tmp = let! xs := convert_items l in Ok (foldl (λ m x, ins x m) tmp xs).
Proof.
  revert tmp. induction l as [|o l IH]; intros tmp; [done|]. simpl.
  destruct (convert o) as [x|e]; [|done]. simpl. rewrite IH. by destruct (convert_items l).
Qed.
Lemma convert_items_rev {T} `{Convert T} (l : list object) (xs : list T) :
  convert_items l = Ok xs → convert_items (rev l) = Ok (rev xs).
Proof.
  assert (Happ : ∀ (a b : list object) (x y : list T), convert_items a = Ok x → convert_items b = Ok y →
    convert_items (a ++ b) = Ok (x ++ y)).
  { intros a. induction a as [|o a IH]; intros b x y; simpl; [by intros [= <-]|].
    destruct (convert o) as [z|e]; [|done]. simpl. destruct (convert_items a) as [x'|e]; [|done].
    simpl. intros [= <-] Hb. by rewrite (IH b x' y). }
  revert xs. induction l as [|o l IH]; intros xs; simpl; [by intros [= <-]|].
  destruct (convert o) as [z|e] eqn:Eo; [|done]. simpl. destruct (convert_items l) as [x'|e]; [|done].
  simpl. intros [= <-]. simpl. apply Happ; [by apply IH|]. simpl. by rewrite Eo.
Qed.

Section rebuilt.
Context {T : Type} `{LessSpec T}.

Lemma insert_rev_unique (l : list T) :
  increasing id l = true → foldl (λ m x, insert_unique id x m) [] (rev l) = l.
Proof.
  induction l as [|x l IH]; [done|]. intros Hi. simpl. rewrite foldl_app. simpl.
  rewrite IH by (by apply andb_prop in Hi as [_ ?]). by apply insert_unique_first.
Qed.
Lemma insert_multi_first (x : T) l : nondecreasing id (x :: l) = true → insert_multi id x l = x :: l.
Proof.
  induction l as [|y l IH]; [done|]. simpl. intros [[Hxy%negb_true_iff Hl]%andb_prop [_ Hn]%andb_prop]%andb_prop.
  destruct (less x y) eqn:Hlt; unfold id in *; rewrite ?Hlt; [done|].
  rewrite (less_total x y Hlt Hxy) in *. f_equal. apply IH. simpl. unfold id in *. by rewrite Hl, Hn.
Qed.
Lemma insert_rev_multi (l : list T) :
  nondecreasing id l = true → foldl (λ m x, insert_multi id x m) [] (rev l) = l.
Proof.
  induction l as [|x l IH]; [done|]. intros Hi. simpl. rewrite foldl_app. simpl.
  rewrite IH by (by apply andb_prop in Hi as [_ ?]). by apply insert_multi_first.
Qed.
End rebuilt.

#[export] Instance set_RoundTrip T `{RoundTrip T, LessSpec T} : RoundTrip (std_set T).
Proof.
  intros [l] [[_ Hl]%andb_prop Hi]%andb_prop. unfold convert, set_Convert, object_of, set_PackSpec. simpl in *.
  rewrite insert_items_loop_all, (convert_items_rev _ l) by (by apply convert_items_of). simpl.
  by rewrite insert_rev_unique.
Qed.
#[export] Instance multiset_RoundTrip T `{RoundTrip T, LessSpec T} : RoundTrip (multiset T).
Proof.
  intros [l] [[_ Hl]%andb_prop Hi]%andb_prop. unfold convert, multiset_Convert, object_of, multiset_PackSpec. simpl in *.
  rewrite insert_items_loop_all, (convert_items_rev _ l) by (by apply convert_items_of). simpl.
  by rewrite insert_rev_multi.
Qed.

(** ** Objects that no container packs *)

Definition key_eq {K} `{Less K} (a b : K) : bool := negb (less a b) && negb (less b a).

(** [find], and the first value of a key in a sequence of entries. *)
Fixpoint map_find {K V} `{Less K} (k : K) (l : list (K * V)) : option V :=
  match l with
  | [] => None
  | (k', v) :: l' => if key_eq k k' then Some v else map_find k l'
  end.

Section duplicates.
Context {K V : Type} `{LessSpec K}.

Lemma key_eq_spec a b : key_eq a b = true ↔ a = b.
Proof.
  unfold key_eq. rewrite andb_true_iff, !negb_true_iff. split.
  - intros [Hab Hba]. by apply less_total.
  - intros ->. by rewrite less_irrefl.
Qed.
Lemma key_eq_refl k : key_eq k k = true.
Proof. by apply key_eq_spec. Qed.
Lemma key_eq_less a b : less a b = true → key_eq a b = false ∧ key_eq b a = false.
Proof. unfold key_eq. intros ->. by rewrite andb_false_r. Qed.

(** What [operator[]] with a conversion that overwrites does. *)
Fixpoint assign (m : list (K * V)) (k : K) (v : V) : list (K * V) :=
  match m with
  | [] => [(k, v)]
  | (k', v') :: m' =>
      if less k k' then (k, v) :: m
      else if less k' k then (k', v') :: assign m' k v
      else (k', v) :: m'
  end.

Lemma subscript_assign m k def (r : result V) :
  subscript m k def (λ _, r) = let! v := r in Ok (assign m k v).
Proof.
  induction m as [|[k' v'] m IH]; [done|]. simpl. rewrite IH. destruct r; simpl; by repeat case_match.
Qed.

Lemma assign_keys m k v : map fst (assign m k v) = map fst (insert_unique fst (k, v) m).
Proof.
  induction m as [|[k' v'] m IH]; [done|]. simpl. repeat case_match; simpl; [done| |done]. by rewrite IH.
Qed.
Lemma increasing_keys (l : list (K * V)) : increasing fst l = increasing id (map fst l).
Proof.
  induction l as [|e l IH]; [done|]. simpl. rewrite IH. f_equal. clear IH.
  induction l as [|e' l IH]; [done|]. simpl. by rewrite IH.
Qed.
Lemma assign_increasing m k v : increasing fst m = true → increasing fst (assign m k v) = true.
Proof. intros Hm. rewrite increasing_keys, assign_keys, <-increasing_keys. by apply insert_unique_increasing. Qed.

Lemma find_assign m k v k0 :
  map_find k0 (assign m k v) = if key_eq k0 k then Some v else map_find k0 m.
Proof.
  induction m as [|[k' v'] m IH]; [done|]. simpl. destruct (less k k') eqn:Hlt; [done|].
  destruct (less k' k) eqn:Hgt; simpl.
  - rewrite IH. destruct (key_eq k0 k') eqn:Hk'; [|done]. apply key_eq_spec in Hk' as ->.
    by rewrite (proj1 (key_eq_less _ _ Hgt)).
  - rewrite (less_total k k' Hlt Hgt). by destruct (key_eq k0 k').
Qed.

Lemma find_below k (m : list (K * V)) : forallb (λ e, less k e.1) m = true → map_find k m = None.
Proof.
  induction m as [|[k' v'] m IH]; [done|]. simpl. intros [Hk Hm]%andb_prop.
  rewrite (proj1 (key_eq_less _ _ Hk)). by apply IH.
Qed.

Lemma find_insert_unique (m : list (K * V)) k v k0 :
  increasing fst m = true →
  map_find k0 (insert_unique fst (k, v) m) =
  match map_find k0 m with Some v' => Some v' | None => if key_eq k0 k then Some v else None end.
Proof.
  induction m as [|[k' v'] m IH]; [done|]. intros Hi. pose proof Hi as [Hk Hm]%andb_prop. simpl.
  destruct (less k k') eqn:Hlt; [|destruct (less k' k) eqn:Hgt]; simpl.
  - destruct (key_eq k0 k) eqn:E; [|by repeat case_match]. apply key_eq_spec in E as ->.
    rewrite (proj1 (key_eq_less _ _ Hlt)), find_below; [done|].
    apply List.forallb_forall. intros e He. eapply less_trans; [done|]. by apply (proj1 (List.forallb_forall _ _) Hk).
  - rewrite IH by done. by destruct (key_eq k0 k').
  - rewrite (less_total k k' Hlt Hgt). by repeat case_match.
Qed.

Lemma find_assign_all (es : list (K * V)) k :
  increasing fst (foldl (λ m e, assign m e.1 e.2) [] es) = true ∧
  map_find k (foldl (λ m e, assign m e.1 e.2) [] es) = map_find k (rev es).
Proof.
  induction es as [|[k' v] es [IHi IHf]] using rev_ind; [done|].
  rewrite foldl_app, rev_app_distr. simpl. split; [by apply assign_increasing|]. by rewrite find_assign, IHf.
Qed.
Lemma find_insert_all (es : list (K * V)) k (tmp : list (K * V)) :
  increasing fst tmp = true →
  map_find k (foldl (λ m e, insert_unique fst e m) tmp es) =
  match map_find k tmp with Some v => Some v | None => map_find k es end.
Proof.
  revert tmp. induction es as [|[k' v] es IH]; intros tmp Hi; simpl; [by case_match|].
  rewrite IH, find_insert_unique by (try done; by apply insert_unique_increasing).
  by repeat case_match.
Qed.
End duplicates.

(** Types whose conversion does not depend on the value that is overwritten. *)
Class Overwrites (T : Type) `{ConvertInto T} :=
  convert_into_any o v : convert_into o v = convert o.
#[export] Instance string_Overwrites : Overwrites std_string.
Proof. done. Qed.
#[export] Instance int64_Overwrites : Overwrites int64.
Proof. done. Qed.
#[export] Instance object_Overwrites : Overwrites object.
Proof. done. Qed.
#[export] Instance map_Overwrites K V `{Less K, Convert K, ConvertInto V} : Overwrites (std_map K V).
Proof. done. Qed.
#[export] Instance pair_Overwrites A B `{Overwrites A, Overwrites B} : Overwrites (std_pair A B).
Proof.
  intros o v. destruct o as [| | | | | | | |[|x [|y [|]]]| |]; try done. simpl. by rewrite !convert_into_any.
Qed.
#[export] Instance vector_Overwrites T `{Overwrites T} : Overwrites (vector T).
Proof.
  intros o v. destruct o as [| | | | | | | |l| |]; try done. simpl. f_equal.
  generalize (items v) as old. induction l as [|x l IH]; intros old; [done|]. simpl.
  by rewrite convert_into_any, IH.
Qed.

Lemma convert_entries_loop_all {K V} `{LessSpec K, Convert K, Overwrites V} (l : list (object * object)) (tmp : list (K * V)) :
  convert_entries_loop l tmp = let! es := convert_entries l in Ok (foldl (λ m e, assign m e.1 e.2) tmp es).
Proof.
  revert tmp. induction l as [|[ok ov] l IH]; intros tmp; [done|]. simpl.
  destruct (convert ok) as [k|e]; [|done]. simpl.
  assert (Hs : subscript tmp k init (convert_into ov) = subscript tmp k init (λ _, convert ov)).
  { generalize init as d. intros d. induction tmp as [|[k' v'] tmp IHt]; simpl; rewrite !convert_into_any; [done|].
    by rewrite IHt. }
  rewrite Hs, subscript_assign. destruct (convert ov) as [v|e]; [|done]. simpl.
  rewrite IH. by destruct (convert_entries l).
Qed.

(** [convert] to a map accepts any object whose entries it can convert, in any order; of
    entries with the same key the last one counts. Any other object is refused with the
    error of the first part that cannot be converted. *)
Theorem map_last_wins {K V} `{LessSpec K, Convert K, Overwrites V} (l : list (object * object)) :
  match convert_entries (K := K) (V := V) l with
  | Ok es => ∃ m : std_map K V, convert (MAP l) = Ok m ∧ increasing fst (entries m) = true ∧
      ∀ k, map_find k (entries m) = map_find k (rev es)
  | Throw e => convert (T := std_map K V) (MAP l) = Throw e
  end.
Proof.
  unfold convert at 1 2, map_Convert. rewrite convert_entries_loop_all.
  destruct (convert_entries l) as [es|e]; [|done]. simpl. eexists. split; [done|]. simpl. split.
  - destruct es as [|[k v] es]; [done|]. by apply (find_assign_all _ k).
  - intros k. by apply find_assign_all.
Qed.

(** [as] keeps the first one instead. *)
Theorem map_as_first_wins {K V} `{LessSpec K, Convert K, Convert V} (l : list (object * object)) :
  match convert_entries (K := K) (V := V) l with
  | Ok es => ∃ m : std_map K V, map_as (MAP l) = Ok m ∧ increasing fst (entries m) = true ∧
      ∀ k, map_find k (entries m) = map_find k es
  | Throw e => map_as (K := K) (V := V) (MAP l) = Throw e
  end.
Proof.
  unfold map_as. rewrite insert_entries_loop_all. destruct (convert_entries l) as [es|e]; [|done].
  simpl. eexists. split; [done|]. split; [apply (insert_all_unique_increasing fst)|].
  intros k. exact (find_insert_all es k [] eq_refl).
Qed.

Lemma filter_insert_multi {K V} `{LessSpec K} (m : list (K * V)) (e : K * V) k :
  nondecreasing fst m = true →
  List.filter (λ e, key_eq k e.1) (insert_multi fst e m) =
  List.filter (λ e, key_eq k e.1) m ++ (if key_eq k e.1 then [e] else []).
Proof.
  induction m as [|e' m IH]; intros Hn; [done|]. pose proof Hn as [Hk Hm]%andb_prop. simpl.
  destruct (less e.1 e'.1) eqn:Hlt; simpl; [|rewrite IH by done; by destruct (key_eq k e'.1)].
  destruct (key_eq k e.1) eqn:E; [|by rewrite app_nil_r]. apply key_eq_spec in E as ->.
  rewrite (proj1 (key_eq_less _ _ Hlt)).
  assert (List.filter (λ e0, key_eq e.1 e0.1) m = []) as ->; [|done].
  clear -Hk Hlt H0. induction m as [|e2 m IH]; [done|]. simpl in *. apply andb_prop in Hk as [H2%negb_true_iff Hk].
  unfold key_eq at 1. destruct (less e.1 e2.1) eqn:E2; simpl; [by apply IH|].
  by rewrite (less_not_trans e'.1 e2.1 e.1 H2 E2) in Hlt.
Qed.

(** A multimap keeps every entry, in the order of the keys, and entries with the same key in
    the order of the object. *)
Theorem multimap_keeps_all {K V} `{LessSpec K, Convert K, Convert V} (l : list (object * object)) :
  match convert_entries (K := K) (V := V) l with
  | Ok es => ∃ m : multimap K V, convert (MAP l) = Ok m ∧ nondecreasing fst (multi_entries m) = true ∧
      multi_entries m ≡ₚ es ∧
      ∀ k, List.filter (λ e, key_eq k e.1) (multi_entries m) = List.filter (λ e, key_eq k e.1) es
  | Throw e => convert (T := multimap K V) (MAP l) = Throw e
  end.
Proof.
  unfold convert at 1 2, multimap_Convert. rewrite insert_entries_loop_all.
  destruct (convert_entries l) as [es|e]; [|done]. simpl. eexists. split; [done|].
  destruct (insert_all_multi_spec fst es) as [Hn Hp]. split_and!; [done|done|].
  intros k. simpl. clear Hn Hp. induction es as [|e es IH] using rev_ind; [done|].
  rewrite foldl_app, List.filter_app. simpl.
  rewrite filter_insert_multi by (by apply insert_all_multi_spec). rewrite IH. by case_match.
Qed.

Lemma elem_of_insert_unique {T} `{LessSpec T} (x y : T) l : x ∈ insert_unique id y l ↔ x = y ∨ x ∈ l.
Proof.
  induction l as [|z l IH]; simpl; [set_solver|].
  destruct (less y z) eqn:Hlt; unfold id in *; rewrite ?Hlt; [set_solver|].
  destruct (less z y) eqn:Hgt; [set_solver|]. rewrite (less_total y z Hlt Hgt). set_solver.
Qed.

(** A set has the elements of the array, once each and in order. *)
Theorem set_holds_items {T} `{LessSpec T, Convert T} (l : list object) (xs : list T) :
  convert_items l = Ok xs →
  ∃ s : std_set T, convert (ARRAY l) = Ok s ∧ increasing id (set_items s) = true ∧
    ∀ x, x ∈ set_items s ↔ x ∈ xs.
Proof.
  intros Hl. unfold convert, set_Convert. rewrite insert_items_loop_all, (convert_items_rev _ xs Hl).
  simpl. eexists. split; [done|]. split; [apply (insert_all_unique_increasing id)|].
  intros x. simpl. rewrite (list_elem_of_In xs), in_rev, <-list_elem_of_In. clear Hl.
  induction (rev xs) as [|y ys IH] using rev_ind; [done|].
  rewrite foldl_app. simpl. rewrite elem_of_insert_unique, IH. set_solver.
Qed.

(** ** Samples *)

Definition entries_of (l : list (Z * Z)) : object :=
  MAP (map (λ '(k, v), (integer_object k, integer_object v)) l).

(** The two conversions of the same object differ. *)
Lemma map_conversions_differ :
  convert (entries_of [(2, 5); (1, 6); (2, 7)]) = Ok (mk_map [(mk_int64 1, mk_int64 6); (mk_int64 2, mk_int64 7)]) ∧
  map_as (entries_of [(2, 5); (1, 6); (2, 7)]) = Ok (mk_map [(mk_int64 1, mk_int64 6); (mk_int64 2, mk_int64 5)]).
Proof. split; reflexivity. Qed.

(** A short array that comes again for a key leaves the rest of the tuple as it was. *)
Lemma map_tuple_merged :
  convert (MAP [(integer_object 1, ARRAY [integer_object 3; integer_object 4]);
                (integer_object 1, ARRAY [integer_object 5])]) =
  Ok (mk_map [(mk_int64 1, mk_tuple (mk_int64 5, (mk_int64 4, ())))]).
Proof. reflexivity. Qed.

Definition sample_map : std_map std_string (std_pair (std_set int64) (multimap int32 std_string)) :=
  mk_map [([Byte.x61], mk_pair (mk_set [mk_int64 (-1); mk_int64 3]) (mk_multimap []));
          ([Byte.xe3; Byte.x81], mk_pair (mk_set []) (mk_multimap
             [(mk_int32 0, [Byte.x62]); (mk_int32 0, [Byte.x61])]))].

Lemma sample_map_roundtrip :
  packable sample_map = true ∧
  outcome_bind (pack sample_map) (λ b, outcome_bind (unpack b 0) (λ '(o, _), convert o)) = Ok sample_map.
Proof. split; vm_compute; reflexivity. Qed.

Lemma set_holds_items_witness :
  ∃ s : std_set int64, convert (ARRAY [integer_object 3; integer_object (-1); integer_object 3]) = Ok s ∧
    increasing id (set_items s) = true ∧
    ∀ x, x ∈ set_items s ↔ x ∈ [mk_int64 3; mk_int64 (-1); mk_int64 3].
Proof. apply set_holds_items. reflexivity. Defined.
