(* ===== verification/MsgpackTypes.v ===== *)
(** The types of parameters and results, as the adaptors of msgpack-c compose them: a universe of
    all types built from the adaptors of [MsgpackAdaptor], [MsgpackContainers] and [MsgpackMaps],
    with the adaptor that overload resolution selects for each (the class instances of these
    files), and the round trip of their values. *)

From S2P Require Import Prelude Errors MsgpackObject MsgpackFacts MsgpackUnpack MsgpackAdaptor MsgpackContainers MsgpackMaps.

(** ** Types *)

(** The types that are used as keys, with [operator<]. *)
Inductive key : Type := k_int32 | k_int64 | k_uint64 | k_string.

Inductive ty : Type :=
| t_nil | t_bool | t_int32 | t_uint32 | t_int64 | t_uint64 | t_string | t_bytes | t_object
| t_vector (t : ty)
| t_pair (t u : ty)
| t_shared_ptr (t : ty)
| t_map (k : key) (t : ty)
| t_multimap (k : key) (t : ty)
| t_set (k : key)
| t_multiset (k : key)
| t_tuple (ts : tys)
with tys : Type :=
| ts_nil
| ts_cons (t : ty) (ts : tys).

Definition key_value (k : key) : Type :=
  match k with
  | k_int32 => int32 | k_int64 => int64 | k_uint64 => uint64 | k_string => std_string
  end.

Fixpoint value (t : ty) : Type :=
  match t with
  | t_nil => nil_t
  | t_bool => bool
  | t_int32 => int32
  | t_uint32 => uint32
  | t_int64 => int64
  | t_uint64 => uint64
  | t_string => std_string
  | t_bytes => byte_vector
  | t_object => object
  | t_vector t => vector (value t)
  | t_pair t u => std_pair (value t) (value u)
  | t_shared_ptr t => shared_ptr (value t)
  | t_map k t => std_map (key_value k) (value t)
  | t_multimap k t => multimap (key_value k) (value t)
  | t_set k => std_set (key_value k)
  | t_multiset k => multiset (key_value k)
  | t_tuple ts => tuple (values ts)
  end
with values (ts : tys) : Type :=
  match ts with ts_nil => () | ts_cons t ts => value t * values ts end.

(** ** Adaptors *)

(** What an adaptor consists of, with the proof of its round trip. *)
Record adaptor (T : Type) := mk_adaptor {
  a_pack : Pack T;
  a_convert : Convert T;
  a_into : ConvertInto T;
  a_spec : PackSpec T;
  a_roundtrip : RoundTrip T;
}.
Arguments mk_adaptor T {_ _ _ _ _}.
Arguments a_pack {T}. Arguments a_convert {T}. Arguments a_into {T}. Arguments a_spec {T}.
Arguments a_roundtrip {T}.

Record tuple_adaptor (T : Type) := mk_tuple_adaptor {
  ta_elements : TupleElements T;
  ta_into : ElementsInto T;
  ta_spec : TupleSpec T;
  ta_roundtrip : TupleRoundTrip T;
}.
Arguments mk_tuple_adaptor T {_ _ _ _}.
Arguments ta_elements {T}. Arguments ta_into {T}. Arguments ta_spec {T}. Arguments ta_roundtrip {T}.

(** The adaptors of a key, and its order. *)
Record key_adaptor (K : Type) := mk_key_adaptor {
  ka_adaptor : adaptor K;
  ka_less : Less K;
  ka_less_spec : LessSpec K;
}.
Arguments mk_key_adaptor K {_ _ _}.
Arguments ka_adaptor {K}. Arguments ka_less {K}. Arguments ka_less_spec {K}.

Definition key_adaptor_of (k : key) : key_adaptor (key_value k) :=
  match k with
  | k_int32 => @mk_key_adaptor int32 (mk_adaptor int32) _ _
  | k_int64 => @mk_key_adaptor int64 (mk_adaptor int64) _ _
  | k_uint64 => @mk_key_adaptor uint64 (mk_adaptor uint64) _ _
  | k_string => @mk_key_adaptor std_string (mk_adaptor std_string) _ _
  end.

Section composed.
Context {A B : Type} (a : adaptor A) (b : adaptor B) {K : Type} (k : key_adaptor K)
  {T : Type} (ts : tuple_adaptor T).
#[local] Instance ka_pack : Pack K := a_pack (ka_adaptor k).
#[local] Instance ka_convert : Convert K := a_convert (ka_adaptor k).
#[local] Instance ka_into : ConvertInto K := a_into (ka_adaptor k).
#[local] Instance ka_spec : PackSpec K := a_spec (ka_adaptor k).
#[local] Instance ka_roundtrip : RoundTrip K := a_roundtrip (ka_adaptor k).
#[local] Instance ka_order : Less K := ka_less k.
#[local] Instance ka_order_spec : LessSpec K := ka_less_spec k.
#[local] Instance left_pack : Pack A := a_pack a.
#[local] Instance left_convert : Convert A := a_convert a.
#[local] Instance left_into : ConvertInto A := a_into a.
#[local] Instance left_spec : PackSpec A := a_spec a.
#[local] Instance left_roundtrip : RoundTrip A := a_roundtrip a.
#[local] Instance right_pack : Pack B := a_pack b.
#[local] Instance right_convert : Convert B := a_convert b.
#[local] Instance right_into : ConvertInto B := a_into b.
#[local] Instance right_spec : PackSpec B := a_spec b.
#[local] Instance right_roundtrip : RoundTrip B := a_roundtrip b.
#[local] Instance rest_elements : TupleElements T := ta_elements ts.
#[local] Instance rest_into : ElementsInto T := ta_into ts.
#[local] Instance rest_spec : TupleSpec T := ta_spec ts.
#[local] Instance rest_roundtrip : TupleRoundTrip T := ta_roundtrip ts.

Definition vector_adaptor : adaptor (vector A) := mk_adaptor (vector A).
Definition pair_adaptor : adaptor (std_pair A B) := mk_adaptor (std_pair A B).
Definition shared_ptr_adaptor : adaptor (shared_ptr A) := mk_adaptor (shared_ptr A).
Definition map_adaptor : adaptor (std_map K A) := mk_adaptor (std_map K A).
Definition multimap_adaptor : adaptor (multimap K A) := mk_adaptor (multimap K A).
Definition set_adaptor : adaptor (std_set K) := mk_adaptor (std_set K).
Definition multiset_adaptor : adaptor (multiset K) := mk_adaptor (multiset K).
Definition tuple_of_adaptor : adaptor (tuple T) := mk_adaptor (tuple T).
Definition cons_adaptor : tuple_adaptor (A * T) := mk_tuple_adaptor (A * T).
End composed.

Fixpoint adaptor_of (t : ty) : adaptor (value t) :=
  match t with
  | t_nil => mk_adaptor nil_t
  | t_bool => mk_adaptor bool
  | t_int32 => mk_adaptor int32
  | t_uint32 => mk_adaptor uint32
  | t_int64 => mk_adaptor int64
  | t_uint64 => mk_adaptor uint64
  | t_string => mk_adaptor std_string
  | t_bytes => mk_adaptor byte_vector
  | t_object => mk_adaptor object
  | t_vector t => vector_adaptor (adaptor_of t)
  | t_pair t u => pair_adaptor (adaptor_of t) (adaptor_of u)
  | t_shared_ptr t => shared_ptr_adaptor (adaptor_of t)
  | t_map k t => map_adaptor (adaptor_of t) (key_adaptor_of k)
  | t_multimap k t => multimap_adaptor (adaptor_of t) (key_adaptor_of k)
  | t_set k => set_adaptor (key_adaptor_of k)
  | t_multiset k => multiset_adaptor (key_adaptor_of k)
  | t_tuple ts => tuple_of_adaptor (tuple_adaptor_of ts)
  end
with tuple_adaptor_of (ts : tys) : tuple_adaptor (values ts) :=
  match ts with
  | ts_nil => mk_tuple_adaptor ()
  | ts_cons t ts => cons_adaptor (adaptor_of t) (tuple_adaptor_of ts)
  end.

#[export] Instance ty_Pack t : Pack (value t) := a_pack (adaptor_of t).
#[export] Instance ty_Convert t : Convert (value t) := a_convert (adaptor_of t).
#[export] Instance ty_PackSpec t : PackSpec (value t) := a_spec (adaptor_of t).
#[export] Instance ty_RoundTrip t : RoundTrip (value t) := a_roundtrip (adaptor_of t).

(** C26: a typed value survives the trip through bytes, for every type [t] that the adaptors
    compose: booleans, integers, strings, byte vectors, objects, vectors, pairs, shared
    pointers, maps, multimaps, sets and multisets in order, and tuples, nested in any way; what
    [pack] writes for a packable value is unpacked and converted back to exactly that value.
    Packable are values with integers in the range of their type, fewer than 2^32 elements or
    bytes, containers in the order of their keys, and no pointer to a value that is packed as
    nil. *)
Theorem typed_roundtrip (t : ty) (x : value t) :
  packable x = true → shallow (object_of x) = true →
  ∃ b, pack x = Ok b ∧ outcome_bind (unpack b 0) (λ '(o, _), convert o) = Ok x.
Proof. apply typed_roundtrip_aux. Qed.

(** A map from strings to pairs of a set and a vector of pointers, in a tuple with an integer. *)
Definition sample_ty : ty :=
  t_tuple (ts_cons (t_map k_string (t_pair (t_set k_int64) (t_vector (t_shared_ptr t_bytes))))
    (ts_cons t_int32 ts_nil)).
Definition sample_value : value sample_ty :=
  mk_tuple (mk_map [([Byte.x61], mk_pair (mk_set [mk_int64 (-5); mk_int64 (2 ^ 40)])
                                   (mk_vector [mk_shared_ptr None; mk_shared_ptr (Some (mk_byte_vector [Byte.x00]))]));
                    ([Byte.x62], mk_pair (mk_set []) (mk_vector []))],
    (mk_int32 (-7), ())).

Lemma typed_roundtrip_witness :
  ∃ b, pack sample_value = Ok b ∧
    outcome_bind (unpack b 0) (λ '(o, _), convert (T := value sample_ty) o) = Ok sample_value.
Proof. apply (typed_roundtrip sample_ty sample_value); reflexivity. Defined.
