(* ===== verification/Message.v ===== *)
(** Messages: packing, parsing and access.

    Models include/mprpc/message_def.h, include/mprpc/pack_data.h and
    include/mprpc/message.h. *)

From S2P Require Import Prelude Errors MsgpackObject MsgpackParse MsgpackFacts MsgpackEvents MsgpackUnpack MsgpackAdaptor.

(** ** message_def.h *)

(** [enum class msgtype], an [int]; a converted value need not be an enumerator. *)
Definition msgtype : Type := int32.
Definition msgtype_request : msgtype := mk_int32 0.
Definition msgtype_response : msgtype := mk_int32 1.
Definition msgtype_notification : msgtype := mk_int32 2.

(** [msgid_t] *)
Definition msgid_t : Type := uint32.

#[export] Instance int32_eq_dec : EqDecision int32.
Proof. solve_decision. Defined.
#[export] Instance uint32_eq_dec : EqDecision uint32.
Proof. solve_decision. Defined.

(** ** pack_data.h *)

Section pack_data.
Local Open Scope outcome_scope.

Definition pack_data {T} `{Pack T} (data : T) : result message_data :=
  let! buf := pack data in Ok (Some buf).

Definition pack_request {T} `{Pack T, Convert T} (id : msgid_t) (method : std_string)
    (params : T) : result message_data :=
  pack_data (mk_tuple (msgtype_request, (id, (method, (params, ()))))).

Definition pack_response {T} `{Pack T, Convert T} (id : msgid_t) (res : T) :
    result message_data :=
  pack_data (mk_tuple (msgtype_response, (id, (mk_nil_t, (res, ()))))).

Definition pack_error_response {T} `{Pack T, Convert T} (id : msgid_t) (error : T) :
    result message_data :=
  pack_data (mk_tuple (msgtype_response, (id, (error, (mk_nil_t, ()))))).

Definition pack_notification {T} `{Pack T, Convert T} (method : std_string) (params : T) :
    result message_data :=
  pack_data (mk_tuple (msgtype_notification, (method, (params, ())))).
End pack_data.

(** ** message.h *)

(** [message::inner_data]; the pointers into the parsed object are null until set. *)
Record message := mk_message {
  msg_data : message_data;
  handle : object;
  type_ : msgtype;
  msgid_ : msgid_t;
  method_ : std_string;
  params_ : option object;
  error_ : option object;
  result_ : option object;
}.

Module message_ops.
Local Open Scope outcome_scope.

Definition empty : message :=
  mk_message None NIL (mk_int32 (-1)) (mk_uint32 0) [] None None None.

(** [throw exception(error_info(error_code::invalid_message, what, pack_data(handle)))] *)
Definition invalid {A} (m : message) (what : string) : result A :=
  let! d := pack_data (handle m) in throw_error_data error_code.invalid_message what d.

(** [try { as<T>() } catch (const msgpack::type_error&) { throw ... }] *)
Definition as_or_invalid {T} `{Convert T} (m : message) (what : string) (o : object) :
    result T :=
  try_catch (convert o) (λ e,
    match e with msgpack_type_error => Some (invalid m what) | _ => None end).

Definition elem (l : list object) (i : nat) : object := nth i l NIL.

Definition set_msgid (m : message) (id : msgid_t) : message :=
  mk_message (msg_data m) (handle m) (type_ m) id (method_ m) (params_ m) (error_ m) (result_ m).
Definition set_method (m : message) (s : std_string) : message :=
  mk_message (msg_data m) (handle m) (type_ m) (msgid_ m) s (params_ m) (error_ m) (result_ m).
Definition set_params (m : message) (o : object) : message :=
  mk_message (msg_data m) (handle m) (type_ m) (msgid_ m) (method_ m) (Some o) (error_ m)
    (result_ m).
Definition set_type (m : message) (t : msgtype) : message :=
  mk_message (msg_data m) (handle m) t (msgid_ m) (method_ m) (params_ m) (error_ m) (result_ m).
Definition set_error_result (m : message) (e r : object) : message :=
  mk_message (msg_data m) (handle m) (type_ m) (msgid_ m) (method_ m) (params_ m) (Some e)
    (Some r).
Definition set_handle (m : message) (o : object) : message :=
  mk_message (msg_data m) o (type_ m) (msgid_ m) (method_ m) (params_ m) (error_ m) (result_ m).
Definition set_msg_data (m : message) (d : message_data) : message :=
  mk_message d (handle m) (type_ m) (msgid_ m) (method_ m) (params_ m) (error_ m) (result_ m).

Definition is_array (o : object) : bool := match o with ARRAY _ => true | _ => false end.

Definition parse_request (m : message) (array : list object) : result message :=
  if negb (length array =? 4)%nat then invalid m "request message must have 4 elements"
  else
    let! id := as_or_invalid m "message ID must a 32-but unsigned integer" (elem array 1) in
    let m := set_msgid m id in
    let! method := as_or_invalid m "method name must be a string" (elem array 2) in
    let m := set_method m method in
    let m := set_params m (elem array 3) in
    if negb (is_array (elem array 3)) then invalid m "paramters must be an array"
    else Ok m.

Definition parse_response (m : message) (array : list object) : result message :=
  if negb (length array =? 4)%nat then invalid m "response message must have 4 elements"
  else
    let! id := as_or_invalid m "message ID must a 32-but unsigned integer" (elem array 1) in
    let m := set_msgid m id in
    Ok (set_error_result m (elem array 2) (elem array 3)).

Definition parse_notification (m : message) (array : list object) : result message :=
  if negb (length array =? 3)%nat then invalid m "notification message must have 3 elements"
  else
    let! method := as_or_invalid m "method name must be a string" (elem array 1) in
    let m := set_method m method in
    let m := set_params m (elem array 2) in
    if negb (is_array (elem array 2)) then invalid m "paramters must be an array"
    else Ok m.

Definition parse (m0 : message) (h : object) : result message :=
  let m := set_handle m0 h in
  match h with
  | ARRAY array =>
      if (length array <? 3)%nat then invalid m "message must have at least 3 elements"
      else
        let! ty := as_or_invalid (T := msgtype) m "message type is not an integer" (elem array 0) in
        let m := set_type m ty in
        if decide (ty = msgtype_request) then parse_request m array
        else if decide (ty = msgtype_response) then parse_response m array
        else if decide (ty = msgtype_notification) then parse_notification m array
        else invalid m "invalid message type"
  | _ => invalid m "message is not an array"
  end.

(** The constructor from message data. *)
Definition make (data : message_data) : result message :=
  try_catch
    (let! p := unpack (message_data_ops.bytes data) 0 in
     parse (set_msg_data empty data) p.1)
    (λ e, match e with
          | msgpack_parse_error _ => Some (throw_error error_code.parse_error "parse error of message")
          | _ => None
          end).

(** Accessors. [params], [error] and [result] dereference a pointer: [Ok None] stands for
    a null pointer. *)
Definition method (m : message) : result std_string :=
  if decide (type_ m = msgtype_response) then
    invalid m "tried to access to method name of response message"
  else Ok (method_ m).

Definition params (m : message) : result (option object) :=
  if decide (type_ m = msgtype_response) then
    invalid m "tried to access to parameters of response message"
  else Ok (params_ m).

Definition error (m : message) : result (option object) :=
  if decide (type_ m = msgtype_response) then Ok (error_ m)
  else invalid m "tried to access to error of message not a response".

Definition has_error (m : message) : result (option bool) :=
  if decide (type_ m = msgtype_response) then
    Ok (match error_ m with Some e => Some (negb (is_nil e)) | None => None end)
  else invalid m "tried to access to error of message not a response".

Definition get_result (m : message) : result (option object) :=
  if decide (type_ m = msgtype_response) then Ok (result_ m)
  else invalid m "tried to access to result of message not a response".

(** [params_as], [error_as] and [result_as]: the [type_error] of the conversion becomes an
    [invalid_message] error; the exception of the accessor passes through. *)
Definition access_as {T} `{Convert T} (m : message) (what : string)
    (access : message → result (option object)) : result (option T) :=
  try_catch
    (let! o := access m in
     match o with
     | Some o => let! x := convert o in Ok (Some x)
     | None => Ok None
     end)
    (λ e, match e with msgpack_type_error => Some (invalid m what) | _ => None end).

Definition params_as {T} `{Convert T} (m : message) : result (option T) :=
  access_as m "failed to convert parameters" params.
Definition error_as {T} `{Convert T} (m : message) : result (option T) :=
  access_as m "failed to convert error" error.
Definition result_as {T} `{Convert T} (m : message) : result (option T) :=
  access_as m "failed to convert result" get_result.
End message_ops.

(** ** Theorems *)

Import message_ops.

(** The objects that the messages are packed as. *)
Definition request_object (id : msgid_t) (method : std_string) (params : object) : object :=
  ARRAY [POSITIVE_INTEGER 0; POSITIVE_INTEGER (uint32_val id); STR method; params].
Definition response_object (id : msgid_t) (error res : object) : object :=
  ARRAY [POSITIVE_INTEGER 1; POSITIVE_INTEGER (uint32_val id); error; res].
Definition notification_object (method : std_string) (params : object) : object :=
  ARRAY [POSITIVE_INTEGER 2; STR method; params].

(** Nesting of a message whose deepest part is [o]. *)
Definition fits (o : object) : bool := Z.of_nat (depth o) <? 0xffffffff.

Lemma invalid_code {A} m what :
  ∃ d, invalid (A := A) m what =
    Throw (mprpc_exception (Some (mk_inner_data error_code.invalid_message what (Some (Some d))))).
Proof. eexists. reflexivity. Qed.

Section roundtrips.
Context {T : Type} `{PackSpec T, Convert T}.

Lemma pack_request_spec id method (params : T) :
  packable id = true → packable method = true → packable params = true →
  pack_request id method params =
    Ok (Some (pack_object (request_object id method (object_of params)))) ∧
  wf_object (request_object id method (object_of params)) = true.
Proof.
  intros Hi Hm Hp. set (t := mk_tuple (msgtype_request, (id, (method, (params, ()))))).
  assert (packable t = true) as Ht.
  { cbn [packable tuple_PackSpec tuple_cons_Spec tuple_nil_Spec elements_packable t elements].
    by rewrite Hi, Hm, Hp. }
  unfold pack_request, pack_data. fold t. rewrite (pack_spec t Ht). split; [done|].
  exact (object_of_wf t Ht).
Qed.

Lemma pack_notification_spec method (params : T) :
  packable method = true → packable params = true →
  pack_notification method params =
    Ok (Some (pack_object (notification_object method (object_of params)))) ∧
  wf_object (notification_object method (object_of params)) = true.
Proof.
  intros Hm Hp. set (t := mk_tuple (msgtype_notification, (method, (params, ())))).
  assert (packable t = true) as Ht.
  { cbn [packable tuple_PackSpec tuple_cons_Spec tuple_nil_Spec elements_packable t elements].
    by rewrite Hm, Hp. }
  unfold pack_notification, pack_data. fold t. rewrite (pack_spec t Ht). split; [done|].
  exact (object_of_wf t Ht).
Qed.

Lemma pack_response_spec id (x : T) :
  packable id = true → packable x = true →
  pack_response id x = Ok (Some (pack_object (response_object id NIL (object_of x)))) ∧
  wf_object (response_object id NIL (object_of x)) = true.
Proof.
  intros Hi Hp. set (t := mk_tuple (msgtype_response, (id, (mk_nil_t, (x, ()))))).
  assert (packable t = true) as Ht.
  { cbn [packable tuple_PackSpec tuple_cons_Spec tuple_nil_Spec elements_packable t elements].
    by rewrite Hi, Hp. }
  unfold pack_response, pack_data. fold t. rewrite (pack_spec t Ht). split; [done|].
  exact (object_of_wf t Ht).
Qed.

Lemma pack_error_response_spec id (x : T) :
  packable id = true → packable x = true →
  pack_error_response id x = Ok (Some (pack_object (response_object id (object_of x) NIL))) ∧
  wf_object (response_object id (object_of x) NIL) = true.
Proof.
  intros Hi Hp. set (t := mk_tuple (msgtype_response, (id, (x, (mk_nil_t, ()))))).
  assert (packable t = true) as Ht.
  { cbn [packable tuple_PackSpec tuple_cons_Spec tuple_nil_Spec elements_packable t elements].
    by rewrite Hi, Hp. }
  unfold pack_error_response, pack_data. fold t. rewrite (pack_spec t Ht). split; [done|].
  exact (object_of_wf t Ht).
Qed.

Lemma make_pack_object o :
  wf_object o = true → shallow o = true →
  make (Some (pack_object o)) =
  try_catch (parse (set_msg_data empty (Some (pack_object o))) o)
    (λ e, match e with
          | msgpack_parse_error _ => Some (throw_error error_code.parse_error "parse error of message")
          | _ => None
          end).
Proof.
  intros Hwf Hs. unfold make. simpl message_data_ops.bytes.
  rewrite <-(app_nil_r (pack_object o)) at 1. by rewrite unpack_pack_aux.
Qed.

Lemma uint32_convert (id : msgid_t) :
  packable id = true → convert (POSITIVE_INTEGER (uint32_val id)) = Ok id.
Proof. exact (convert_object_of (T := uint32) id). Qed.

Lemma parse_request_object m id method params :
  packable id = true → is_array params = true →
  parse m (request_object id method params) =
  Ok (mk_message (msg_data m) (request_object id method params) msgtype_request id method
    (Some params) (error_ m) (result_ m)).
Proof.
  intros Hi Ha. unfold parse. cbn [request_object length Nat.ltb Nat.leb elem nth].
  change (as_or_invalid _ _ (POSITIVE_INTEGER 0)) with (Ok (E := exn) msgtype_request).
  cbn [outcome_bind]. rewrite decide_True by done. unfold parse_request.
  cbn [length Nat.eqb negb elem nth]. unfold as_or_invalid. rewrite uint32_convert by done.
  simpl. by rewrite Ha.
Qed.

Lemma parse_notification_object m method params :
  is_array params = true →
  parse m (notification_object method params) =
  Ok (mk_message (msg_data m) (notification_object method params) msgtype_notification
    (msgid_ m) method (Some params) (error_ m) (result_ m)).
Proof.
  intros Ha. unfold parse. cbn [notification_object length Nat.ltb Nat.leb elem nth].
  change (as_or_invalid _ _ (POSITIVE_INTEGER 2)) with (Ok (E := exn) msgtype_notification).
  cbn [outcome_bind]. rewrite decide_False, decide_False, decide_True by done.
  unfold parse_notification. by destruct params.
Qed.

Lemma parse_response_object m id e x :
  packable id = true →
  parse m (response_object id e x) =
  Ok (mk_message (msg_data m) (response_object id e x) msgtype_response id (method_ m)
    (params_ m) (Some e) (Some x)).
Proof.
  intros Hi. unfold parse. cbn [response_object length Nat.ltb Nat.leb elem nth].
  change (as_or_invalid _ _ (POSITIVE_INTEGER 1)) with (Ok (E := exn) msgtype_response).
  cbn [outcome_bind]. rewrite decide_False, decide_True by done. unfold parse_response.
  cbn [length Nat.eqb negb elem nth]. unfold as_or_invalid. by rewrite uint32_convert.
Qed.
End roundtrips.

Lemma shallow_message l o :
  fits o = true → Forall (λ x, x = o ∨ depth x = 0%nat) l → shallow (ARRAY l) = true.
Proof.
  unfold fits, shallow. intros Ho%Z.ltb_lt Hl. apply Z.leb_le. cbn [depth].
  assert (foldr (λ o n, Nat.max (depth o) n) 0 l ≤ depth o)%nat; [|lia].
  induction Hl as [|x l [->|Hx] _ IH]; cbn [foldr]; lia.
Qed.

(** What a receiver constructs from what the [pack_*] functions produce. *)
Section received.
Context {T : Type} `{PackSpec T, Convert T}.

Lemma make_request_aux id method (params : T) :
  packable id = true → packable method = true → packable params = true →
  is_array (object_of params) = true → fits (object_of params) = true →
  ∃ d, pack_request id method params = Ok d ∧
    make d = Ok (mk_message d (request_object id method (object_of params)) msgtype_request id
      method (Some (object_of params)) None None).
Proof.
  intros Hi Hm Hp Ha Hf. destruct (pack_request_spec id method params) as [-> Hwf]; [done..|].
  eexists. split; [done|]. rewrite make_pack_object; [by rewrite parse_request_object|done|].
  apply (shallow_message _ (object_of params)); [done|]. repeat (apply Forall_cons_2; [by auto|]); by apply Forall_nil_2.
Qed.

Lemma make_notification_aux method (params : T) :
  packable method = true → packable params = true →
  is_array (object_of params) = true → fits (object_of params) = true →
  ∃ d, pack_notification method params = Ok d ∧
    make d = Ok (mk_message d (notification_object method (object_of params))
      msgtype_notification (mk_uint32 0) method (Some (object_of params)) None None).
Proof.
  intros Hm Hp Ha Hf. destruct (pack_notification_spec method params) as [-> Hwf]; [done..|].
  eexists. split; [done|]. rewrite make_pack_object; [by rewrite parse_notification_object|done|].
  apply (shallow_message _ (object_of params)); [done|]. repeat (apply Forall_cons_2; [by auto|]); by apply Forall_nil_2.
Qed.

Lemma make_response_aux id (x : T) :
  packable id = true → packable x = true → fits (object_of x) = true →
  ∃ d, pack_response id x = Ok d ∧
    make d = Ok (mk_message d (response_object id NIL (object_of x)) msgtype_response id [] None
      (Some NIL) (Some (object_of x))).
Proof.
  intros Hi Hp Hf. destruct (pack_response_spec id x) as [-> Hwf]; [done..|].
  eexists. split; [done|]. rewrite make_pack_object; [by rewrite parse_response_object|done|].
  apply (shallow_message _ (object_of x)); [done|]. repeat (apply Forall_cons_2; [by auto|]); by apply Forall_nil_2.
Qed.

Lemma make_error_response_aux id (x : T) :
  packable id = true → packable x = true → fits (object_of x) = true →
  ∃ d, pack_error_response id x = Ok d ∧
    make d = Ok (mk_message d (response_object id (object_of x) NIL) msgtype_response id [] None
      (Some (object_of x)) (Some NIL)).
Proof.
  intros Hi Hp Hf. destruct (pack_error_response_spec id x) as [-> Hwf]; [done..|].
  eexists. split; [done|]. rewrite make_pack_object; [by rewrite parse_response_object|done|].
  apply (shallow_message _ (object_of x)); [done|]. repeat (apply Forall_cons_2; [by auto|]); by apply Forall_nil_2.
Qed.
End received.

(** a request is received as it was sent: packing a request and constructing a message
    from the bytes gives the same type, message ID, method name and parameters, and the
    parameters convert back to the values that were passed. *)
Theorem request_roundtrip {T} `{RoundTrip T} id name (args : T) :
  packable id = true → packable name = true → packable args = true →
  is_array (object_of args) = true → fits (object_of args) = true →
  ∃ d m, pack_request id name args = Ok d ∧ make d = Ok m ∧
    type_ m = msgtype_request ∧ msgid_ m = id ∧ method m = Ok name ∧
    params_as m = Ok (Some args).
Proof.
  intros Hi Hn Hp Ha Hf. destruct (make_request_aux id name args) as (d & Hd & Hm); [done..|].
  do 2 eexists. split; [done|]. split; [done|]. repeat split.
  unfold params_as, access_as. simpl. by rewrite convert_object_of.
Qed.

Lemma request_roundtrip_witness :
  ∃ d m, pack_request (mk_uint32 5) [Byte.x61] sample_args = Ok d ∧ make d = Ok m ∧
    type_ m = msgtype_request ∧ msgid_ m = mk_uint32 5 ∧ method m = Ok [Byte.x61] ∧
    params_as m = Ok (Some sample_args).
Proof. apply request_roundtrip; reflexivity. Defined.

(** the same for notifications, which have no message ID. *)
Theorem notification_roundtrip {T} `{RoundTrip T} name (args : T) :
  packable name = true → packable args = true →
  is_array (object_of args) = true → fits (object_of args) = true →
  ∃ d m, pack_notification name args = Ok d ∧ make d = Ok m ∧
    type_ m = msgtype_notification ∧ method m = Ok name ∧ params_as m = Ok (Some args).
Proof.
  intros Hn Hp Ha Hf. destruct (make_notification_aux name args) as (d & Hd & Hm); [done..|].
  do 2 eexists. split; [done|]. split; [done|]. repeat split.
  unfold params_as, access_as. simpl. by rewrite convert_object_of.
Qed.

Lemma notification_roundtrip_witness :
  ∃ d m, pack_notification [Byte.x61] sample_args = Ok d ∧ make d = Ok m ∧
    type_ m = msgtype_notification ∧ method m = Ok [Byte.x61] ∧
    params_as m = Ok (Some sample_args).
Proof. apply notification_roundtrip; reflexivity. Defined.

(** a response carries its result or its error, never both, and the receiver can tell
    which: [has_error] is false for [pack_response] and true for [pack_error_response] of
    anything but nil, and the value converts back. *)
Theorem response_roundtrip {T} `{RoundTrip T} id (x : T) :
  packable id = true → packable x = true → fits (object_of x) = true →
  (∃ d m, pack_response id x = Ok d ∧ make d = Ok m ∧ type_ m = msgtype_response ∧
    msgid_ m = id ∧ has_error m = Ok (Some false) ∧ result_as m = Ok (Some x)) ∧
  (∃ d m, pack_error_response id x = Ok d ∧ make d = Ok m ∧ type_ m = msgtype_response ∧
    msgid_ m = id ∧ has_error m = Ok (Some (negb (is_nil (object_of x)))) ∧
    error_as m = Ok (Some x)).
Proof.
  intros Hi Hp Hf. split.
  - destruct (make_response_aux id x) as (d & Hd & Hm); [done..|].
    do 2 eexists. split; [done|]. split; [done|]. repeat split.
    unfold result_as, access_as. simpl. by rewrite convert_object_of.
  - destruct (make_error_response_aux id x) as (d & Hd & Hm); [done..|].
    do 2 eexists. split; [done|]. split; [done|]. repeat split.
    unfold error_as, access_as. simpl. by rewrite convert_object_of.
Qed.

Lemma response_roundtrip_witness :
  (∃ d m, pack_response (mk_uint32 9) (mk_int32 3) = Ok d ∧ make d = Ok m ∧
    type_ m = msgtype_response ∧ msgid_ m = mk_uint32 9 ∧ has_error m = Ok (Some false) ∧
    result_as m = Ok (Some (mk_int32 3))) ∧
  (∃ d m, pack_error_response (mk_uint32 9) (mk_int32 3) = Ok d ∧ make d = Ok m ∧
    type_ m = msgtype_response ∧ msgid_ m = mk_uint32 9 ∧
    has_error m = Ok (Some (negb (is_nil (object_of (mk_int32 3))))) ∧
    error_as m = Ok (Some (mk_int32 3))).
Proof. apply (response_roundtrip (mk_uint32 9) (mk_int32 3)); reflexivity. Defined.

(** ** Messages that cannot be constructed *)

(** The exceptions of [unpack]. *)
Definition unpack_error (e : exn) : Prop :=
  e = msgpack_parse_error "parse error" ∨
  e = msgpack_insufficient_bytes "insufficient bytes" ∨ (∃ w, e = msgpack_size_overflow w).

Lemma unpack_throws data e : unpack data 0 = Throw e → unpack_error e.
Proof.
  unfold unpack, parse_imp. intros Hu.
  destruct (_ <=? _); simpl in Hu; [injection Hu as <-; unfold unpack_error; auto|].
  pose proof (run_visitor (λ _, True) (λ _, True) unpack_error (length data)
    (V := create_object_visitor)) as Hr.
  specialize (Hr ltac:(intros v [] _ _; simpl; unfold unpack_error; repeat case_match; simpl; eauto)).
  specialize (Hr ltac:(intros; simpl; unfold unpack_error; auto)).
  specialize (Hr (init_context 0 data (create_object_visitor_init default_limit)) eq_refl
    (Nat.le_refl _) I).
  unfold execute in Hu. destruct (run _) as [[[[] off] v]|e']; simpl in *;
    repeat case_match; simplify_eq/=; unfold unpack_error in *; auto.
Qed.

(** What the accessors rely on. *)
Definition wf_message (m : message) : Prop :=
  ((type_ m = msgtype_request ∨ type_ m = msgtype_notification) ∧
    ∃ l, params_ m = Some (ARRAY l)) ∨
  (type_ m = msgtype_response ∧ is_Some (error_ m) ∧ is_Some (result_ m)).

(** The array has the size of its type and the pointers point into it. *)
Definition points_into_array (m : message) : Prop :=
  ∃ array, handle m = ARRAY array ∧
    (type_ m = msgtype_request ∧ length array = 4%nat ∧ params_ m = array !! 3%nat ∨
     type_ m = msgtype_response ∧ length array = 4%nat ∧ error_ m = array !! 2%nat ∧ result_ m = array !! 3%nat ∨
     type_ m = msgtype_notification ∧ length array = 3%nat ∧ params_ m = array !! 2%nat).

(** An element that is inside the array. *)
Lemma elem_lookup l i : (i < length l)%nat → l !! i = Some (elem l i).
Proof. intros Hi. unfold elem. destruct (nth_lookup_or_length l i NIL) as [->|]; [done|lia]. Qed.

(** Errors that a receiver is told with [mprpc::exception]. *)
Definition message_error (e : exn) : Prop :=
  ∃ i, e = mprpc_exception (Some i) ∧
    (code_ i = error_code.invalid_message ∨ code_ i = error_code.parse_error).

Definition constructed (data : message_data) (r : result message) : Prop :=
  match r with
  | Ok m => wf_message m ∧ points_into_array m ∧ msg_data m = data
  | Throw e => message_error e
  end.

Lemma invalid_constructed data m what : constructed data (invalid m what).
Proof. eexists. split; [reflexivity|]. by left. Qed.

Lemma as_or_invalid_cases {T} `{Convert T} m what o (k : T → result message) data :
  (∀ x, constructed data (k x)) → (∀ e, convert o = Throw e → e = msgpack_type_error) →
  constructed data (outcome_bind (as_or_invalid m what o) k).
Proof.
  intros Hk He. unfold as_or_invalid. destruct (convert o) as [x|e]; simpl; [apply Hk|].
  rewrite (He e eq_refl). apply (invalid_constructed data m).
Qed.

Lemma convert_int32_throws o e : convert (T := int32) o = Throw e → e = msgpack_type_error.
Proof. destruct o; simpl; try case_match; simpl; congruence. Qed.
Lemma convert_uint32_throws o e : convert (T := uint32) o = Throw e → e = msgpack_type_error.
Proof. destruct o; simpl; try case_match; simpl; congruence. Qed.
Lemma convert_string_throws o e : convert (T := std_string) o = Throw e → e = msgpack_type_error.
Proof. destruct o; simpl; congruence. Qed.

#[local] Hint Resolve invalid_constructed convert_int32_throws convert_uint32_throws
  convert_string_throws : mprpc.

Lemma parse_request_constructed m l :
  type_ m = msgtype_request → handle m = ARRAY l → constructed (msg_data m) (parse_request m l).
Proof.
  intros Ht Hh. unfold parse_request. destruct (negb _) eqn:El; [apply invalid_constructed|].
  apply negb_false_iff, Nat.eqb_eq in El.
  apply as_or_invalid_cases; [intros id|eauto with mprpc].
  apply as_or_invalid_cases; [intros name|eauto with mprpc]. cbv zeta.
  destruct (elem l 3) eqn:E3; try apply (invalid_constructed (msg_data m)). simpl. split_and!; [| |done].
  - left. split; [by left|]. simpl. eauto.
  - exists l. split; [done|]. left. split_and!; [done|done|]. simpl. by rewrite elem_lookup, E3 by lia.
Qed.

Lemma parse_notification_constructed m l :
  type_ m = msgtype_notification → handle m = ARRAY l → constructed (msg_data m) (parse_notification m l).
Proof.
  intros Ht Hh. unfold parse_notification. destruct (negb _) eqn:El; [apply invalid_constructed|].
  apply negb_false_iff, Nat.eqb_eq in El.
  apply as_or_invalid_cases; [intros name|eauto with mprpc]. cbv zeta.
  destruct (elem l 2) eqn:E2; try apply (invalid_constructed (msg_data m)). simpl. split_and!; [| |done].
  - left. split; [by right|]. simpl. eauto.
  - exists l. split; [done|]. right. right. split_and!; [done|done|]. simpl. by rewrite elem_lookup, E2 by lia.
Qed.

Lemma parse_response_constructed m l :
  type_ m = msgtype_response → handle m = ARRAY l → constructed (msg_data m) (parse_response m l).
Proof.
  intros Ht Hh. unfold parse_response. destruct (negb _) eqn:El; [apply invalid_constructed|].
  apply negb_false_iff, Nat.eqb_eq in El.
  apply as_or_invalid_cases; [intros name|eauto with mprpc]. split_and!; [right; simpl; eauto| |done].
  exists l. split; [done|]. right. left. simpl. rewrite !elem_lookup by lia. done.
Qed.

Lemma parse_constructed m o : constructed (msg_data m) (parse m o).
Proof.
  unfold parse. destruct o as [| | | | | | | |l| |];
    try (apply (invalid_constructed (msg_data m))).
  case_match; [apply (invalid_constructed (msg_data m))|].
  apply as_or_invalid_cases; [intros ty|eauto with mprpc]. cbv zeta.
  repeat case_decide.
  - by apply (parse_request_constructed (set_type (set_handle m (ARRAY l)) ty)).
  - by apply (parse_response_constructed (set_type (set_handle m (ARRAY l)) ty)).
  - by apply (parse_notification_constructed (set_type (set_handle m (ARRAY l)) ty)).
  - apply (invalid_constructed (msg_data m)).
Qed.

Lemma make_cases_aux data :
  match make data with
  | Ok m => wf_message m ∧ points_into_array m ∧ msg_data m = data
  | Throw e =>
      message_error e ∨ e = msgpack_insufficient_bytes "insufficient bytes" ∨
      (∃ w, e = msgpack_size_overflow w)
  end.
Proof.
  unfold make. destruct (unpack _ 0) as [[o off]|e] eqn:Hu; simpl.
  - pose proof (parse_constructed (set_msg_data empty data) o) as Hc.
    destruct (parse _ o) as [m|e]; simpl in *; [done|].
    destruct Hc as (i & -> & Hi). left. by exists i.
  - apply unpack_throws in Hu as [->|[->|[w ->]]]; simpl; eauto.
    left. eexists. split; [done|]. by right.
Qed.



(** every way in which constructing a message fails: an [mprpc::exception] with code
    [parse_error] or [invalid_message], or one of two exceptions of msgpack-c that the
    constructor does not catch ([insufficient_bytes] and [size_overflow]). *)
Theorem message_make_errors data e :
  make data = Throw e →
  message_error e ∨ e = msgpack_insufficient_bytes "insufficient bytes" ∨
  (∃ w, e = msgpack_size_overflow w).
Proof. intros Hm. pose proof (make_cases_aux data) as Hc. by rewrite Hm in Hc. Qed.

Lemma message_make_errors_witness :
  make (Some [Byte.xc1]) =
    Throw (mprpc_exception (error_info_ops.make error_code.parse_error "parse error of message")) ∧
  message_error (mprpc_exception (error_info_ops.make error_code.parse_error "parse error of message")).
Proof.
  split; [reflexivity|].
  destruct (message_make_errors (Some [Byte.xc1]) _ eq_refl) as [Hm|[Hm|[w Hm]]];
    [exact Hm|discriminate Hm..].
Defined.

(** truncated data is not reported as the documented parse error: for every proper prefix
    of a packed message the constructor lets [msgpack::insufficient_bytes] escape. *)
Theorem message_truncated_escapes o data x :
  wf_object o = true → shallow o = true → pack_object o = data ++ x → x ≠ [] →
  make (Some data) = Throw (msgpack_insufficient_bytes "insufficient bytes").
Proof.
  intros Hwf Hs Hp Hx. unfold make. simpl message_data_ops.bytes.
  by rewrite (unpack_truncated_aux o data x).
Qed.

Lemma message_truncated_escapes_witness :
  make (Some [Byte.x93; Byte.x02; Byte.xa1; Byte.x61]) =
  Throw (msgpack_insufficient_bytes "insufficient bytes").
Proof.
  apply (message_truncated_escapes (notification_object [Byte.x61] (ARRAY [])) _ [Byte.x90]);
    [reflexivity..|discriminate].
Defined.
