(* ===== verification/StreamParser.v ===== *)
(** Parsers of incoming data.

    Models include/mprpc/transport/parser.h (the interface) and
    impl/mprpc/transport/parsers/impl/msgpack_parser_impl.h (both parsers). The interface is
    a class of operations and a class of laws: what a streaming parser promises to the socket
    that feeds it, whatever the sizes of the pieces that arrive. *)

From S2P Require Import Prelude Errors Buffer MsgpackObject MsgpackParse MsgpackFacts MsgpackEvents MsgpackUnpack.

(** ** The interface [streaming_parser] *)

(** [None] stands for undefined behaviour (reading memory that was never written) or a call
    that does not return. [buffer_write] is the socket writing bytes to [buffer()]. An
    exception leaves the parser in the state it had reached. *)
Class StreamingParser (P : Type) := {
  prepare_buffer : P → Z → option (result P);
  buffer_write : P → list byte → P;
  consumed : P → Z → P;
  parse_next : P → Z → option (result bool * P);
  get : P → option (message_data * P);
}.

(** What the bytes received so far begin with. *)
Inductive decoded : Type :=
| need_more
| decoded_message (m rest : list byte)
| decode_error (e : exn).

Definition decoded_app (d : decoded) (x : list byte) : decoded :=
  match d with
  | decoded_message m r => decoded_message m (r ++ x)
  | _ => d
  end.

(** [represents p data room]: [p] holds the unparsed bytes [data] and [room] more may be
    written to its buffer. *)
Class StreamingParserSpec (P : Type) `{StreamingParser P} := {
  decode : list byte → decoded;
  represents : P → list byte → nat → Prop;
  decode_app data x : decode data ≠ need_more → decode (data ++ x) = decoded_app (decode data) x;
  decode_shrinks data m r : decode data = decoded_message m r → (length r < length data)%nat;
  buffer_write_nil p : buffer_write p [] = p;
  prepare_buffer_spec p data room n :
    represents p data room → 0 ≤ n → Z.of_nat (length data) + n ≤ size_max →
    ∃ r, prepare_buffer p n = Some r ∧
      match r with Ok p' => represents p' data (Z.to_nat n) | Throw e => e = std_bad_alloc end;
  consumed_spec p data room chunk :
    represents p data room → (length chunk ≤ room)%nat →
    represents (consumed (buffer_write p chunk) (Z.of_nat (length chunk))) (data ++ chunk)
      (room - length chunk);
  parse_next_spec p data room chunk :
    represents p data room → (length chunk ≤ room)%nat →
    ∃ r p', parse_next (buffer_write p chunk) (Z.of_nat (length chunk)) = Some (r, p') ∧
      match decode (data ++ chunk) with
      | need_more => r = Ok false ∧ represents p' (data ++ chunk) (room - length chunk)
      | decode_error e => r = Throw e ∧ represents p' (data ++ chunk) (room - length chunk)
      | decoded_message m rest =>
          r = Ok true ∧ ∃ p'', get p' = Some (Some m, p'') ∧
            represents p'' rest (room - length chunk)
      end;
}.

(** ** [msgpack_parser] *)

(** [msgpack_parser::parse] copies the datagram. *)
Definition msgpack_parser_parse (data : option (list byte)) : result message_data :=
  outcome_bind
    (require_nonull data (Some "data") (Some "mprpc::transport::parsers::impl::msgpack_parser::parse"))
    (λ p, Ok (Some p)).

(** ** [msgpack_streaming_parser] *)

(** The visitor that only reports parse errors. *)
Record error_visitor := mk_error_visitor {}.
#[export] Instance error_visitor_Visitor : Visitor error_visitor := {
  visit v _ := Ok (true, v);
  on_parse_error _ _ _ := throw_error error_code.parse_error "failed to parse a message";
  on_insufficient_bytes v _ _ := Ok v;
}.

Record msgpack_streaming_parser := mk_msgpack_streaming_parser {
  buffer_ : buffer;
  consumed_buf_size_ : Z;
  parsed_buf_size_ : Z;
}.

(** Read [n] bytes of a block. *)
Definition read_bytes (m : list cell) (n : Z) : option (list byte) :=
  if Z.of_nat (length m) <? n then None else mapM (λ c : cell, c) (take (Z.to_nat n) m).

Module msgpack_streaming_parser_ops.
Section ops.
Context (alloc_ok : Z → bool).

Definition construct : option (result msgpack_streaming_parser) :=
  match Buffer.construct alloc_ok 0 with
  | None => None
  | Some r => Some (outcome_bind r (λ b, Ok (mk_msgpack_streaming_parser b 0 0)))
  end.

Definition prepare_buffer (p : msgpack_streaming_parser) (size : Z) :
    option (result msgpack_streaming_parser) :=
  match Buffer.resize alloc_ok (buffer_ p) (wrap64 (consumed_buf_size_ p + size)) with
  | None => None
  | Some r =>
      Some (outcome_bind r (λ b,
        Ok (mk_msgpack_streaming_parser b (consumed_buf_size_ p) (parsed_buf_size_ p))))
  end.
End ops.

(** Bytes written at [buffer_.data() + consumed_buf_size_]. *)
Definition buffer_write (p : msgpack_streaming_parser) (bytes : list byte) :
    msgpack_streaming_parser :=
  mk_msgpack_streaming_parser
    (mk_buffer (Buffer.write_cells (Z.to_nat (consumed_buf_size_ p)) bytes (mem (buffer_ p)))
      (size_ (buffer_ p)) (capacity_ (buffer_ p)))
    (consumed_buf_size_ p) (parsed_buf_size_ p).

Definition consumed (p : msgpack_streaming_parser) (n : Z) : msgpack_streaming_parser :=
  mk_msgpack_streaming_parser (buffer_ p) (wrap64 (consumed_buf_size_ p + n))
    (parsed_buf_size_ p).

Definition parse_next (p0 : msgpack_streaming_parser) (n : Z) :
    option (result bool * msgpack_streaming_parser) :=
  let p := consumed p0 n in
  match read_bytes (mem (buffer_ p)) (consumed_buf_size_ p) with
  | None => None
  | Some data =>
      Some (match MsgpackParse.parse data 0 mk_error_visitor with
            | Ok (parse_result, offset, _) =>
                if parse_result : bool then
                  (Ok true, mk_msgpack_streaming_parser (buffer_ p) (consumed_buf_size_ p) offset)
                else (Ok false, p)
            | Throw e => (Throw e, p)
            end)
  end.

Definition get (p : msgpack_streaming_parser) : option (message_data * msgpack_streaming_parser) :=
  match read_bytes (mem (buffer_ p)) (parsed_buf_size_ p) with
  | None => None
  | Some data =>
      Some (Some data,
        mk_msgpack_streaming_parser (Buffer.consume (buffer_ p) (parsed_buf_size_ p))
          (wrap64 (consumed_buf_size_ p - parsed_buf_size_ p)) 0)
  end.
End msgpack_streaming_parser_ops.

(** ** The msgpack streaming parser keeps the promises of the interface *)

Definition msgpack_decode (data : list byte) : decoded :=
  match execute data 0 mk_error_visitor with
  | Ok (PARSE_SUCCESS, off, _) =>
      decoded_message (take (Z.to_nat off) data) (drop (Z.to_nat off) data)
  | Ok _ => need_more
  | Throw e => decode_error e
  end.

(** [msgpack::parse] with the error visitor, in terms of [msgpack_decode]. *)
Lemma parse_decode data :
  match msgpack_decode data with
  | need_more => ∃ off v, MsgpackParse.parse data 0 mk_error_visitor = Ok (false, off, v)
  | decoded_message m r =>
      ∃ off v, MsgpackParse.parse data 0 mk_error_visitor = Ok (true, off, v) ∧
        0 < off ≤ Z.of_nat (length data) ∧ m = take (Z.to_nat off) data ∧
        r = drop (Z.to_nat off) data
  | decode_error e => MsgpackParse.parse data 0 mk_error_visitor = Throw e
  end.
Proof.
  unfold msgpack_decode, parse, parse_imp.
  destruct (Z.leb_spec0 (Z.of_nat (length data)) 0) as [Hle|Hgt].
  { assert (data = []) as -> by (apply nil_length_inv; lia). simpl. eauto. }
  destruct (execute data 0 mk_error_visitor) as [[[[] off] v]|e] eqn:E; simpl; eauto;
    [|by apply execute_bounds in E as (_ & ? & _)].
  apply execute_bounds in E as (? & _ & Hpos). specialize (Hpos eq_refl).
  zcase; do 2 eexists; split_and!; try done; lia.
Qed.

Lemma msgpack_decode_app data x :
  msgpack_decode data ≠ need_more →
  msgpack_decode (data ++ x) = decoded_app (msgpack_decode data) x.
Proof.
  unfold msgpack_decode. intros Hn. rewrite execute_app.
  - destruct (execute data 0 mk_error_visitor) as [[[[] off] v]|e] eqn:E; try done.
    apply execute_bounds in E as [? _]. simpl.
    rewrite take_app_le, drop_app_le by lia. done.
  - intros off v E. by rewrite E in Hn.
Qed.

Lemma msgpack_decode_shrinks data m r :
  msgpack_decode data = decoded_message m r → (length r < length data)%nat.
Proof.
  unfold msgpack_decode. destruct (execute data 0 mk_error_visitor) as [[[[] off] v]|e] eqn:E;
    try done. intros [= <- <-]. apply execute_bounds in E as (? & _ & Hpos). specialize (Hpos eq_refl).
  rewrite length_drop. lia.
Qed.

(** The representation: the bytes in the front of the buffer, and the room behind them. *)
Record msgpack_represents (p : msgpack_streaming_parser) (data : list byte) (room : nat) : Prop := {
  mr_buffer : Buffer.wf (buffer_ p);
  mr_consumed : consumed_buf_size_ p = Z.of_nat (length data);
  mr_room : size_ (buffer_ p) = Z.of_nat (length data + room);
  mr_data : take (length data) (mem (buffer_ p)) = Some <$> data;
}.

Lemma mapM_cells (l : list byte) : mapM (λ c : cell, c) (Some <$> l) = Some l.
Proof. apply mapM_Some. induction l; constructor; done. Qed.

Lemma read_bytes_prefix (m : list cell) l n :
  take (length l) m = Some <$> l → (n ≤ length l)%nat → read_bytes m (Z.of_nat n) = Some (take n l).
Proof.
  intros Hm Hn. pose proof (f_equal length Hm) as Hlen. rewrite length_take, length_fmap in Hlen.
  unfold read_bytes. zcase. rewrite Nat2Z.id.
  rewrite <-(mapM_cells (take n l)), fmap_take, <-Hm, take_take. do 2 f_equal. lia.
Qed.

Section msgpack_spec.
Context (alloc_ok : Z → bool).
Import msgpack_streaming_parser_ops.

(** Writing a chunk and counting it. *)
Lemma msgpack_consumed_spec p data room chunk :
  msgpack_represents p data room → (length chunk ≤ room)%nat →
  msgpack_represents (consumed (buffer_write p chunk) (Z.of_nat (length chunk)))
    (data ++ chunk) (room - length chunk).
Proof.
  intros [[Hb Hs Hc] Hcons Hroom Hdata] Hle. rewrite Hroom in Hs.
  assert (Hlen : (length data + length chunk ≤ length (mem (buffer_ p)))%nat) by lia.
  split; simpl.
  - rewrite Hcons, Nat2Z.id. split; simpl; [rewrite length_write_cells; lia|lia|lia].
  - rewrite Hcons, length_app. unfold wrap64. rewrite Z.mod_small; unfold size_max in *; lia.
  - rewrite length_app. lia.
  - rewrite length_app, Hcons, Nat2Z.id, take_write_cells by done.
    by rewrite Hdata, fmap_app.
Qed.

Lemma msgpack_write_nil p : buffer_write p [] = p.
Proof.
  unfold buffer_write, write_cells. simpl. rewrite Nat.add_0_r, take_drop.
  by destruct p as [[]].
Qed.

Lemma msgpack_prepare_spec p data room n :
  msgpack_represents p data room → 0 ≤ n → Z.of_nat (length data) + n ≤ size_max →
  ∃ r, prepare_buffer alloc_ok p n = Some r ∧
    match r with
    | Ok p' => msgpack_represents p' data (Z.to_nat n)
    | Throw e => e = std_bad_alloc
    end.
Proof.
  intros [Hwf Hcons Hroom Hdata] Hn Hmax. unfold prepare_buffer. rewrite Hcons.
  assert (wrap64 (Z.of_nat (length data) + n) = Z.of_nat (length data) + n) as ->.
  { apply Z.mod_small. unfold size_max in *. lia. }
  destruct (resize_terminates_aux alloc_ok (buffer_ p) (Z.of_nat (length data) + n))
    as (r & Hr & Hcases); [done|lia|].
  rewrite Hr. eexists. split; [done|]. destruct Hcases as [->|[b ->]]; [done|]. simpl.
  apply resize_wf_aux in Hr as (Hwf' & Hsz & _ & Htake); [|done|lia].
  split; simpl; [done|done|lia|].
  assert (length data = length data `min` Z.to_nat (Z.min (size_ (buffer_ p))
    (Z.of_nat (length data) + n)))%nat as Hmin by lia.
  rewrite Hmin, <-!take_take, Htake, take_take, <-Hmin. done.
Qed.

(** Taking the parsed front of the buffer out. *)
Lemma msgpack_get_spec p data room (off : nat) :
  msgpack_represents p data room → (off ≤ length data)%nat →
  parsed_buf_size_ p = Z.of_nat off →
  ∃ p', get p = Some (Some (take off data), p') ∧ msgpack_represents p' (drop off data) room.
Proof.
  intros [Hwf Hcons Hroom Hdata] Hoff Hp. unfold get. rewrite Hp.
  rewrite (read_bytes_prefix _ data) by (done || lia). eexists. split; [done|].
  destruct (consume_wf_aux (buffer_ p) (Z.of_nat off)) as [Hwf' Hcont]; [done|lia|].
  pose proof (length_contents _ Hwf') as Hlen. rewrite Hcont, length_drop in Hlen.
  pose proof (length_contents _ Hwf) as Hlen0.
  split; simpl; [done| | |].
  - rewrite Hcons, length_drop. unfold wrap64. destruct Hwf as [_ Hs Hc].
    rewrite Z.mod_small; unfold size_max in *; lia.
  - rewrite length_drop. lia.
  - unfold contents in Hcont. rewrite length_drop.
    apply (f_equal (take (length data - off))) in Hcont.
    rewrite take_take, take_drop_commute, take_take in Hcont.
    replace ((length data - off) `min` Z.to_nat (size_ (Buffer.consume (buffer_ p) (Z.of_nat off))))%nat
      with (length data - off)%nat in Hcont by lia.
    rewrite Hcont, Nat2Z.id.
    replace ((off + (length data - off)) `min` Z.to_nat (size_ (buffer_ p)))%nat
      with (length data) by lia.
    by rewrite Hdata, fmap_drop.
Qed.

Lemma msgpack_parse_next_spec p data room chunk :
  msgpack_represents p data room → (length chunk ≤ room)%nat →
  ∃ r p', parse_next (buffer_write p chunk) (Z.of_nat (length chunk)) = Some (r, p') ∧
    match msgpack_decode (data ++ chunk) with
    | need_more => r = Ok false ∧ msgpack_represents p' (data ++ chunk) (room - length chunk)
    | decode_error e => r = Throw e ∧ msgpack_represents p' (data ++ chunk) (room - length chunk)
    | decoded_message m rest =>
        r = Ok true ∧ ∃ p'', get p' = Some (Some m, p'') ∧
          msgpack_represents p'' rest (room - length chunk)
    end.
Proof.
  intros Hr Hle. pose proof (msgpack_consumed_spec p data room chunk Hr Hle) as Hc.
  unfold parse_next. set (p1 := consumed _ _) in *. clearbody p1. clear Hr.
  pose proof Hc as [Hwf Hcons Hroom Hdata]. rewrite Hcons.
  rewrite (read_bytes_prefix _ (data ++ chunk)), firstn_all by (done || lia).
  pose proof (parse_decode (data ++ chunk)) as Hp.
  destruct (msgpack_decode (data ++ chunk)) as [|m rest|e].
  - destruct Hp as (off & v & ->). eauto.
  - destruct Hp as (off & v & -> & Hoff & -> & ->). do 2 eexists. split; [done|]. split; [done|].
    apply (msgpack_get_spec _ (data ++ chunk)); simpl; [|lia|lia].
    by destruct Hc.
  - rewrite Hp. eauto.
Qed.

#[local] Instance msgpack_StreamingParser : StreamingParser msgpack_streaming_parser := {
  StreamParser.prepare_buffer := prepare_buffer alloc_ok;
  StreamParser.buffer_write := buffer_write;
  StreamParser.consumed := consumed;
  StreamParser.parse_next := parse_next;
  StreamParser.get := get;
}.

#[local] Instance msgpack_StreamingParserSpec : StreamingParserSpec msgpack_streaming_parser := {
  decode := msgpack_decode;
  represents := msgpack_represents;
  decode_app := msgpack_decode_app;
  decode_shrinks := msgpack_decode_shrinks;
  buffer_write_nil := msgpack_write_nil;
  prepare_buffer_spec := msgpack_prepare_spec;
  consumed_spec := msgpack_consumed_spec;
  parse_next_spec := msgpack_parse_next_spec;
}.
End msgpack_spec.

(** ** Splitting a stream into messages *)

Section stream.
Context {P : Type} `{StreamingParserSpec P}.

(** The messages at the front of a stream, what is left, and the error that stopped it. *)
Fixpoint split_fuel (fuel : nat) (data : list byte) : list (list byte) * list byte * option exn :=
  match fuel with
  | O => ([], data, None)
  | S fuel' =>
      match decode data with
      | need_more => ([], data, None)
      | decode_error e => ([], data, Some e)
      | decoded_message m rest =>
          let '(ms, r, e) := split_fuel fuel' rest in (m :: ms, r, e)
      end
  end.
Definition split (data : list byte) := split_fuel (S (length data)) data.

Lemma split_fuel_enough n m data :
  (length data < n)%nat → (length data < m)%nat → split_fuel n data = split_fuel m data.
Proof.
  revert m data. induction n as [|n IH]; intros m data Hn Hm; [lia|].
  destruct m as [|m]; [lia|]. simpl. destruct (decode data) as [|x r|e] eqn:E; try done.
  apply decode_shrinks in E. rewrite (IH m r) by lia. done.
Qed.

Lemma split_unfold data :
  split data =
  match decode data with
  | need_more => ([], data, None)
  | decode_error e => ([], data, Some e)
  | decoded_message m rest => let '(ms, r, e) := split rest in (m :: ms, r, e)
  end.
Proof.
  unfold split. simpl. destruct (decode data) as [|x r|e] eqn:E; try done.
  apply decode_shrinks in E. by rewrite (split_fuel_enough (length data) (S (length r))) by lia.
Qed.

(** More bytes behind a stream only add messages. *)
Lemma split_app data x :
  split (data ++ x) =
  let '(ms, r, e) := split data in
  match e with
  | None => let '(ms', r', e') := split (r ++ x) in (ms ++ ms', r', e')
  | Some e => (ms, r ++ x, Some e)
  end.
Proof.
  remember (length data) as n eqn:Hn. assert (length data ≤ n)%nat as Hle by lia. clear Hn.
  revert data Hle. induction n as [|n IH]; intros data Hle; rewrite (split_unfold data);
    (destruct (decode data) as [|m r|e] eqn:E; [by destruct (split (data ++ x)) as [[? ?] ?]|..]);
    rewrite split_unfold, decode_app, E by congruence; try done;
    apply decode_shrinks in E; simpl; [lia|].
  rewrite IH by lia. destruct (split r) as [[ms r'] [e|]]; [done|].
  by destruct (split (r' ++ x)) as [[? ?] ?].
Qed.
End stream.

(** A new parser holds nothing. *)
Lemma msgpack_construct_represents alloc_ok p :
  msgpack_streaming_parser_ops.construct alloc_ok = Some (Ok p) → msgpack_represents p [] 0.
Proof.
  unfold msgpack_streaming_parser_ops.construct.
  destruct (construct_spec alloc_ok 0) as (c & -> & Hwf); [unfold size_max; lia|].
  destruct (alloc_ok c); [|done]. intros [= <-]. by split.
Qed.

(** C13: the streaming parser implements its contract: after any bytes written to the buffer,
    [parse_next] answers true exactly when the unparsed bytes begin with a whole object, and
    [get] then returns exactly the bytes of that object and keeps those behind it; it throws
    only the parse error, answers false when bytes are missing, and never reads a byte that
    was not written. *)
Theorem msgpack_streaming_parser_correct p data room chunk :
  msgpack_represents p data room → (length chunk ≤ room)%nat →
  ∃ r p', msgpack_streaming_parser_ops.parse_next
      (msgpack_streaming_parser_ops.buffer_write p chunk) (Z.of_nat (length chunk)) = Some (r, p') ∧
    match execute (data ++ chunk) 0 mk_error_visitor with
    | Ok (PARSE_SUCCESS, off, _) =>
        r = Ok true ∧
        ∃ p'', msgpack_streaming_parser_ops.get p' =
            Some (Some (take (Z.to_nat off) (data ++ chunk)), p'') ∧
          msgpack_represents p'' (drop (Z.to_nat off) (data ++ chunk)) (room - length chunk)
    | Ok _ => r = Ok false ∧ msgpack_represents p' (data ++ chunk) (room - length chunk)
    | Throw e => r = Throw e ∧ msgpack_represents p' (data ++ chunk) (room - length chunk)
    end.
Proof.
  intros Hr Hle. destruct (msgpack_parse_next_spec p data room chunk Hr Hle) as (r & p' & -> & Hc).
  exists r, p'. split; [done|]. unfold msgpack_decode in Hc.
  by destruct (execute _ _ _) as [[[[] off] v]|e].
Qed.

Definition sample_parser : msgpack_streaming_parser :=
  mk_msgpack_streaming_parser (mk_buffer (replicate 1024 None) 10 1024) 0 0.

Lemma msgpack_streaming_parser_correct_witness :
  ∃ r p', msgpack_streaming_parser_ops.parse_next
      (msgpack_streaming_parser_ops.buffer_write sample_parser [Byte.x92; Byte.x01; Byte.x02; Byte.x03]) 4 =
      Some (r, p') ∧ r = Ok true.
Proof.
  destruct (msgpack_streaming_parser_correct sample_parser [] 10 [Byte.x92; Byte.x01; Byte.x02; Byte.x03])
    as (r & p' & Hp & Hm).
  - split; [split; unfold size_max; simpl; lia|reflexivity..].
  - simpl. lia.
  - exists r, p'. split; [exact Hp|]. exact (proj1 Hm).
Defined.

Lemma msgpack_execute_packed o r :
  wf_object o = true →
  execute (pack_object o ++ r) 0 mk_error_visitor =
  Ok (PARSE_SUCCESS, Z.of_nat (length (pack_object o)), mk_error_visitor).
Proof.
  intros Hwf. assert (∀ es, feed es mk_error_visitor = Ok (true, mk_error_visitor)) as Hf.
  { induction es; done. }
  pose proof (execute_pack_object o r mk_error_visitor Hwf) as He. rewrite Hf in He.
  destruct (execute _ _ _) as [[[[] ?] ?]|]; simpl in He; congruence.
Qed.

Lemma msgpack_decode_packed_aux o r :
  wf_object o = true → msgpack_decode (pack_object o ++ r) = decoded_message (pack_object o) r.
Proof.
  intros Hwf. unfold msgpack_decode. rewrite msgpack_execute_packed by done.
  by rewrite Nat2Z.id, take_app_length, drop_app_length.
Qed.

(** Decoding cuts, it does not change bytes. *)
Lemma msgpack_decode_cut data m r :
  msgpack_decode data = decoded_message m r → data = m ++ r.
Proof.
  unfold msgpack_decode. destruct (execute data 0 mk_error_visitor) as [[[[] off] v]|]; try done.
  intros [= <- <-]. by rewrite take_drop.
Qed.

(** a packed object is recognised at once in a stream: the decoder of the streaming
    parser takes exactly the packing of the first object, whatever follows, and waits for
    more on every proper prefix of it. *)
Theorem msgpack_decode_packed o r n :
  wf_object o = true →
  msgpack_decode (pack_object o ++ r) = decoded_message (pack_object o) r ∧
  ((n < length (pack_object o))%nat → msgpack_decode (take n (pack_object o)) = need_more).
Proof.
  intros Hwf. split; [by apply msgpack_decode_packed_aux|].
  intros Hn. pose proof (msgpack_execute_packed o [] Hwf) as He. rewrite app_nil_r in He.
  rewrite <-(take_drop n (pack_object o)) in He at 1.
  apply execute_prefix in He as (off & v & He); [|rewrite length_take; lia].
  unfold msgpack_decode. by rewrite He.
Qed.

Lemma msgpack_decode_packed_witness :
  msgpack_decode (pack_object sample_object ++ [Byte.xc1]) =
    decoded_message (pack_object sample_object) [Byte.xc1] ∧
  ((7 < length (pack_object sample_object))%nat →
    msgpack_decode (take 7 (pack_object sample_object)) = need_more).
Proof. apply (msgpack_decode_packed sample_object [Byte.xc1] 7). reflexivity. Defined.
