(* ===== verification/FmtInt.v ===== *)
(** Integers as text: extern/fmt/include/fmt/format.h and the tables of format-inl.h.

    fmt counts the digits of an integer with the position of its highest bit and two tables,
    reserves as many characters, and writes the digits from the back, two at a time. Here the
    characters are cells that may be uninitialised, and a write outside of them is [None]; the
    theorems show that the cells are filled exactly, with the digits of the number. *)

From S2P Require Import Prelude.

Open Scope Z_scope.

(** ** Tables *)

Definition bsr2log10_data : list Z :=
  [1;  1;  1;  2;  2;  2;  3;  3;  3;  4;  4;  4;  4;  5;  5;  5;
   6;  6;  6;  7;  7;  7;  7;  8;  8;  8;  9;  9;  9;  10; 10; 10;
   10; 11; 11; 11; 12; 12; 12; 13; 13; 13; 13; 14; 14; 14; 15; 15;
   15; 16; 16; 16; 16; 17; 17; 17; 18; 18; 18; 19; 19; 19; 19; 20].
Definition bsr2log10 (bsr : Z) : option Z := bsr2log10_data !! Z.to_nat bsr.

(** [FMT_POWERS_OF_10] *)
Definition powers_of_10 (factor : Z) : list Z :=
  [factor * 10; factor * 100; factor * 1000; factor * 10000; factor * 100000; factor * 1000000;
   factor * 10000000; factor * 100000000; factor * 1000000000].
Definition zero_or_powers_of_10_32_new : list Z := [0; 0] ++ powers_of_10 1.
Definition zero_or_powers_of_10_64_new : list Z :=
  [0; 0] ++ powers_of_10 1 ++ powers_of_10 1000000000 ++ [10000000000000000000].

(** [data::digits], pairs of characters, and [data::hex_digits]. *)
Definition digit_pairs : list byte := String.list_byte_of_string
  "00010203040506070809101112131415161718192021222324252627282930313233343536373839404142434445464748495051525354555657585960616263646566676869707172737475767778798081828384858687888990919293949596979899".
Definition digit_pair (i : Z) : option (list byte) :=
  if (0 <=? i) && (i <? 100) then Some (take 2 (drop (2 * Z.to_nat i) digit_pairs)) else None.
Definition hex_digits (upper : bool) : list byte :=
  String.list_byte_of_string (if upper then "0123456789ABCDEF" else "0123456789abcdef").

(** ** Number of digits *)

(** The builtin that counts leading zeros of a [w]-bit number other than 0. *)
Definition builtin_clz (w n : Z) : Z := w - 1 - Z.log2 n.

Definition count_digits_with (w : Z) (powers : list Z) (n : Z) : option Z :=
  t ← bsr2log10 (Z.lxor (builtin_clz w (Z.lor n 1)) (w - 1));
  p ← powers !! Z.to_nat t;
  Some (t - if n <? p then 1 else 0).
Definition count_digits64 : Z → option Z := count_digits_with 64 zero_or_powers_of_10_64_new.
Definition count_digits32 : Z → option Z := count_digits_with 32 zero_or_powers_of_10_32_new.

(** The version without the builtin, which is also the one of 128-bit integers. *)
Fixpoint count_digits_loop (fuel : nat) (count n : Z) : option Z :=
  match fuel with
  | O => None
  | S fuel =>
      if n <? 10 then Some count
      else if n <? 100 then Some (count + 1)
      else if n <? 1000 then Some (count + 2)
      else if n <? 10000 then Some (count + 3)
      else count_digits_loop fuel (count + 4) (n / 10000)
  end.

(** [count_digits<BITS>]: the radix is a power of two. *)
Fixpoint count_digits_bits (fuel : nat) (bits num_digits n : Z) : option Z :=
  match fuel with
  | O => None
  | S fuel =>
      let num_digits := num_digits + 1 in
      let n := Z.shiftr n bits in
      if n =? 0 then Some num_digits else count_digits_bits fuel bits num_digits n
  end.

(** ** Writing digits *)

Abbreviation cells := (list (option byte)).

(** [*p = c] *)
Definition store (b : cells) (p : Z) (c : byte) : option cells :=
  if (0 <=? p) && (p <? Z.of_nat (length b)) then Some (<[Z.to_nat p := Some c]> b) else None.
Definition copy2 (b : cells) (p : Z) (src : list byte) : option cells :=
  match src with
  | [c; d] => b ← store b p c; store b (p + 1) d
  | _ => None
  end.
Definition char_digit (d : Z) : byte := Z_to_byte (48 + d).

(** [format_decimal]: [out] is the end of the buffer and moves towards its beginning. *)
Fixpoint format_decimal_loop (fuel : nat) (b : cells) (out value : Z) : option (cells * Z) :=
  match fuel with
  | O => None
  | S fuel =>
      if 100 <=? value then
        let out := out - 2 in
        src ← digit_pair (value mod 100);
        b ← copy2 b out src;
        format_decimal_loop fuel b out (value / 100)
      else if value <? 10 then
        let out := out - 1 in
        b ← store b out (char_digit value); Some (b, out)
      else
        let out := out - 2 in
        src ← digit_pair value;
        b ← copy2 b out src; Some (b, out)
  end.
Definition format_decimal (b : cells) (out value size : Z) : option (cells * Z * Z) :=
  let end_ := out + size in
  '(b, begin_) ← format_decimal_loop (S (Z.to_nat (Z.log2 value))) b end_ value;
  Some (b, begin_, end_).

(** [format_uint<BASE_BITS>]: at least one digit is written. *)
Fixpoint format_uint_loop (fuel : nat) (bits : Z) (upper : bool) (b : cells) (buffer value : Z) :
    option cells :=
  match fuel with
  | O => None
  | S fuel =>
      let digit := Z.land value (Z.shiftl 1 bits - 1) in
      c ← if bits <? 4 then Some (char_digit digit) else hex_digits upper !! Z.to_nat digit;
      let buffer := buffer - 1 in
      b ← store b buffer c;
      let value := Z.shiftr value bits in
      if value =? 0 then Some b else format_uint_loop fuel bits upper b buffer value
  end.
Definition format_uint (bits : Z) (upper : bool) (b : cells) (buffer value num_digits : Z) :
    option cells :=
  format_uint_loop (S (Z.to_nat (Z.log2 value))) bits upper b (buffer + num_digits) value.

(** Reading characters, which have to be initialised. *)
Definition read_cells (b : cells) : option (list byte) := mapM id b.

(** [format_decimal] and [format_uint] on other iterators: through a buffer of their own. *)
Definition decimal_text (max_digits value size : Z) : option (list byte) :=
  '(b, _, end_) ← format_decimal (replicate (Z.to_nat max_digits) None) 0 value size;
  read_cells (take (Z.to_nat end_) b).
Definition uint_text (w bits : Z) (upper : bool) (value num_digits : Z) : option (list byte) :=
  b ← format_uint bits upper (replicate (Z.to_nat (w / bits + 1)) None) 0 value num_digits;
  read_cells (take (Z.to_nat num_digits) b).

(** ** The types of integers that fmt handles, by their width *)

Inductive width : Type := w32 | w64.
Definition bits_of (w : width) : Z := match w with w32 => 32 | w64 => 64 end.
Definition count_digits (w : width) : Z → option Z :=
  match w with w32 => count_digits32 | w64 => count_digits64 end.
(** [digits10<UInt>() + 1] *)
Definition max_digits (w : width) : Z := match w with w32 => 10 | w64 => 20 end.

(** [write(OutputIt, T)] of an integer, whose magnitude is computed at its width:
    [~abs_value + 1]. *)
Definition magnitude (w : width) (value : Z) : Z :=
  let abs_value := value mod 2 ^ bits_of w in
  if value <? 0 then (2 ^ bits_of w - 1 - abs_value + 1) mod 2 ^ bits_of w else abs_value.
Definition minus : byte := Byte.x2d.
Definition write_integer (w : width) (value : Z) : option (list byte) :=
  let negative := value <? 0 in
  num_digits ← count_digits w (magnitude w value);
  let size := (if negative then 1 else 0) + num_digits in
  let b := replicate (Z.to_nat size) None in
  b ← if negative then store b 0 minus else Some b;
  '(b, _, _) ← format_decimal b (if negative then 1 else 0) (magnitude w value) num_digits;
  read_cells b.

(** ** Reference: the digits of a number *)

Fixpoint digits_go (base : Z) (fuel : nat) (n : Z) : list Z :=
  match fuel with
  | O => []
  | S fuel => if n <? base then [n] else digits_go base fuel (n / base) ++ [n mod base]
  end.
Definition digits_of (base n : Z) : list Z := digits_go base (S (Z.to_nat (Z.log2 n))) n.
#[local] Arguments digits_of : simpl never.

Definition value_of (base : Z) (ds : list Z) : Z := foldl (λ n d, n * base + d) 0 ds.

(** A digit as a character, and a number as text. *)
Definition digit_char (upper : bool) (d : Z) : byte := nth (Z.to_nat d) (hex_digits upper) Byte.x00.
Definition numeral (upper : bool) (base n : Z) : list byte := map (digit_char upper) (digits_of base n).

Section digits.
Context (base : Z) (Hbase : 2 ≤ base).

Lemma div_base n f : 0 ≤ n < 2 ^ Z.of_nat (S f) → 0 ≤ n / base < 2 ^ Z.of_nat f.
Proof.
  rewrite Nat2Z.inj_succ, Z.pow_succ_r by lia. intros Hn. split; [apply Z.div_pos; lia|].
  apply Z.le_lt_trans with (n / 2).
  - apply Z.div_le_compat_l; lia.
  - apply Z.div_lt_upper_bound; lia.
Qed.

Lemma digits_fuel f g n :
  (0 < f)%nat → (0 < g)%nat → 0 ≤ n < 2 ^ Z.of_nat f → n < 2 ^ Z.of_nat g →
  digits_go base f n = digits_go base g n.
Proof.
  revert g n. induction f as [|f IH]; intros g n Hf Hg Hn Hn'; [lia|]. destruct g as [|g]; [lia|]. simpl.
  destruct (Z.ltb_spec0 n base) as [|Hge]; [done|]. f_equal.
  assert (∀ h : nat, n < 2 ^ Z.of_nat (S h) → (0 < h)%nat) as Hpos by (intros [|h]; [simpl|]; lia).
  apply IH; [apply Hpos, Hn|apply Hpos, Hn'|by apply (div_base n f)|apply (div_base n g); lia].
Qed.

Lemma log2_fuel n : 0 ≤ n → n < 2 ^ Z.of_nat (S (Z.to_nat (Z.log2 n))).
Proof.
  intros Hn. rewrite Nat2Z.inj_succ, Z2Nat.id by apply Z.log2_nonneg.
  destruct (Z.eq_dec n 0) as [->|]; [done|]. apply Z.log2_spec. lia.
Qed.

Lemma digits_small n : 0 ≤ n < base → digits_of base n = [n].
Proof. intros Hn. unfold digits_of. simpl. by rewrite (proj2 (Z.ltb_lt _ _)) by lia. Qed.
Lemma digits_step n : base ≤ n → digits_of base n = digits_of base (n / base) ++ [n mod base].
Proof.
  intros Hn. unfold digits_of at 1. cbn [digits_go]. rewrite (proj2 (Z.ltb_ge _ _)) by lia. f_equal.
  destruct (div_base n (Z.to_nat (Z.log2 n))) as [Hq Hl]; [split; [lia|apply log2_fuel; lia]|].
  apply digits_fuel; [|lia|done|by apply log2_fuel].
  assert (1 ≤ Z.log2 n); [|lia]. apply Z.log2_le_pow2; lia.
Qed.

(** Induction on the digits of a number. *)
Lemma digits_ind (P : Z → Prop) :
  (∀ n, 0 ≤ n < base → P n) → (∀ n, base ≤ n → P (n / base) → P n) → ∀ n, 0 ≤ n → P n.
Proof.
  intros Hs Hst n Hn. pose proof (log2_fuel n Hn) as Hf. revert n Hn Hf.
  generalize (Z.log2) as g. intros g n Hn. generalize (S (Z.to_nat (g n))) as f. intros f. revert n Hn.
  induction f as [|f IH]; intros n Hn Hf; [apply Hs; simpl in Hf; lia|].
  destruct (Z.lt_ge_cases n base); [by apply Hs; lia|]. apply Hst; [done|].
  destruct (div_base n f (conj Hn Hf)). by apply IH.
Qed.

Lemma digits_range n : 0 ≤ n → Forall (λ d, 0 ≤ d < base) (digits_of base n).
Proof.
  revert n. apply digits_ind; [intros n Hn|intros n Hn IH].
  - rewrite digits_small by done. by apply Forall_singleton.
  - rewrite digits_step by done. apply Forall_app. split; [done|]. apply Forall_singleton, Z.mod_pos_bound. lia.
Qed.
Lemma value_digits n : 0 ≤ n → value_of base (digits_of base n) = n.
Proof.
  revert n. apply digits_ind; [intros n Hn|intros n Hn IH].
  - rewrite digits_small by done. unfold value_of. simpl. lia.
  - rewrite digits_step by done. unfold value_of in *. rewrite foldl_app, IH. simpl.
    pose proof (Z.div_mod n base ltac:(lia)). lia.
Qed.
Lemma digits_nonempty n : 0 ≤ n → digits_of base n ≠ [].
Proof.
  intros Hn. destruct (Z.lt_ge_cases n base).
  - by rewrite digits_small by lia.
  - rewrite digits_step by done. by intros [_ ?]%app_eq_nil.
Qed.
(** No leading zero. *)
Lemma digits_head n : 0 ≤ n → head (digits_of base n) = Some 0 → n = 0.
Proof.
  revert n. apply (digits_ind (λ n, head (digits_of base n) = Some 0 → n = 0)); [intros n Hn|intros n Hn IH].
  - rewrite digits_small by done. by intros [= ->].
  - rewrite digits_step by done. pose proof (digits_nonempty (n / base)) as Hne.
    assert (1 ≤ n / base) by (apply Z.div_le_lower_bound; lia).
    destruct (digits_of base (n / base)) as [|d l]; [by destruct Hne; [lia|]|]. simpl. intros Hd.
    specialize (IH Hd). lia.
Qed.

(** The number of digits. *)
Lemma digits_length n k :
  0 ≤ n → 1 ≤ k → n < base ^ k → (2 ≤ k → base ^ (k - 1) ≤ n) → Z.of_nat (length (digits_of base n)) = k.
Proof.
  intros Hn. revert n Hn k. apply (digits_ind (λ n, ∀ k, 1 ≤ k → n < base ^ k →
    (2 ≤ k → base ^ (k - 1) ≤ n) → Z.of_nat (length (digits_of base n)) = k)); [intros n Hs|intros n Hs IH].
  - intros k Hk Hlt Hge. rewrite digits_small by done. simpl. destruct (Z.eq_dec k 1); [lia|].
    specialize (Hge ltac:(lia)). assert (base ^ 1 ≤ base ^ (k - 1)) by (apply Z.pow_le_mono_r; lia). lia.
  - intros k Hk Hlt Hge. rewrite digits_step, length_app by done. simpl.
    assert (k ≠ 1) by (intros ->; rewrite Z.pow_1_r in Hlt; lia).
    replace k with (Z.succ (k - 1)) in Hlt by lia. rewrite Z.pow_succ_r in Hlt by lia.
    rewrite Nat2Z.inj_add, (IH (k - 1)); [lia|lia|by apply Z.div_lt_upper_bound; lia|].
    intros Hk2. apply Z.div_le_lower_bound; [lia|]. rewrite <-Z.pow_succ_r by lia.
    replace (Z.succ (k - 1 - 1)) with (k - 1) by lia. apply Hge. lia.
Qed.
End digits.

(** ** The number of digits is right *)

(** What the tables say about the numbers with highest bit [b]. *)
Definition table_ok (powers : list Z) (b : Z) : bool :=
  match bsr2log10 b with
  | Some t =>
      match powers !! Z.to_nat t with
      | Some p =>
          (1 <=? t) && (2 ^ (b + 1) <=? 10 ^ t) &&
          (if t =? 1 then p =? 0 else (p =? 10 ^ (t - 1)) && (10 ^ (t - 2) <=? 2 ^ b))
      | None => false
      end
  | None => false
  end.

Lemma bsr_of_clz w n :
  w = 32 ∨ w = 64 → 0 ≤ n < 2 ^ w →
  Z.lxor (builtin_clz w (Z.lor n 1)) (w - 1) = Z.log2 (Z.lor n 1) ∧ 0 ≤ Z.log2 (Z.lor n 1) < w.
Proof.
  intros Hw Hn. assert (0 ≤ Z.log2 (Z.lor n 1) < w) as Hb.
  { split; [apply Z.log2_nonneg|]. rewrite Z.log2_lor by lia. change (Z.log2 1) with 0.
    destruct (Z.eq_dec n 0) as [->|]; [simpl; lia|].
    assert (Z.log2 n < w) by (apply Z.log2_lt_pow2; lia). lia. }
  split; [|done]. unfold builtin_clz. generalize dependent (Z.log2 (Z.lor n 1)). intros b Hb.
  assert ((Z.lxor (w - 1 - b) (w - 1) =? b) = true) as H%Z.eqb_eq; [|done].
  destruct Hw as [-> | ->].
  - by apply (Z_below (λ b, Z.lxor (32 - 1 - b) (32 - 1) =? b) 32).
  - by apply (Z_below (λ b, Z.lxor (64 - 1 - b) (64 - 1) =? b) 64).
Qed.

Lemma highest_bit n : 0 ≤ n → n < 2 ^ (Z.log2 (Z.lor n 1) + 1) ∧ (2 ≤ n → 2 ^ Z.log2 (Z.lor n 1) ≤ n).
Proof.
  intros Hn. rewrite Z.log2_lor by lia. change (Z.log2 1) with 0.
  destruct (Z.eq_dec n 0) as [->|Hz]; [split; [done|lia]|].
  rewrite Z.max_l by apply Z.log2_nonneg. destruct (Z.log2_spec n) as [H1 H2]; [lia|]. rewrite <-Z.add_1_r in H2. lia.
Qed.

Lemma count_digits_with_spec w powers n :
  w = 32 ∨ w = 64 → forallb (table_ok powers) (map Z.of_nat (seq 0 (Z.to_nat w))) = true →
  0 ≤ n < 2 ^ w → count_digits_with w powers n = Some (Z.of_nat (length (digits_of 10 n))).
Proof.
  intros Hw Ht Hn. destruct (bsr_of_clz w n Hw Hn) as [Hx Hb]. unfold count_digits_with. rewrite Hx.
  pose proof (Z_below _ _ Ht (Z.log2 (Z.lor n 1))) as Hok. rewrite Z2Nat.id in Hok by lia. specialize (Hok Hb).
  unfold table_ok in Hok. destruct (bsr2log10 _) as [t|]; [|done]. simpl.
  destruct (powers !! Z.to_nat t) as [p|]; [|done]. simpl.
  destruct (highest_bit n) as [Hhi Hlo]; [lia|].
  apply andb_prop in Hok as [[H1%Z.leb_le H2%Z.leb_le]%andb_prop H3]. f_equal. symmetry.
  destruct (Z.eqb_spec t 1) as [->|Ht1].
  - apply Z.eqb_eq in H3 as ->. rewrite (proj2 (Z.ltb_ge _ _)) by lia. apply digits_length; lia.
  - apply andb_prop in H3 as [->%Z.eqb_eq H3%Z.leb_le]. destruct (Z.ltb_spec0 n (10 ^ (t - 1))) as [Hlt|Hge].
    + apply digits_length; [lia..|]. intros Ht2. transitivity (2 ^ Z.log2 (Z.lor n 1)).
      * by replace (t - 1 - 1) with (t - 2) by lia.
      * apply Hlo. assert (10 ^ 1 ≤ 10 ^ (t - 2)) by (apply Z.pow_le_mono_r; lia).
        destruct (Z.lt_ge_cases n 2) as [Hn2|]; [|done].
        assert (2 ^ Z.log2 (Z.lor n 1) = 1) as Hone.
        { assert (n = 0 ∨ n = 1) as [-> | ->] by lia; done. }
        lia.
    + replace (t - 0) with t by lia. apply digits_length; lia.
Qed.

Lemma count_digits_spec w n :
  0 ≤ n < 2 ^ bits_of w → count_digits w n = Some (Z.of_nat (length (digits_of 10 n))).
Proof.
  destruct w; intros Hn; apply count_digits_with_spec; auto; vm_compute; reflexivity.
Qed.

(** Dividing by 10000 takes four digits off. *)
Lemma digits_10000 n :
  10000 ≤ n → length (digits_of 10 n) = (4 + length (digits_of 10 (n / 10000)))%nat.
Proof.
  intros Hn. assert (∀ m, 10 ≤ m → length (digits_of 10 m) = S (length (digits_of 10 (m / 10)))) as Hs.
  { intros m Hm. rewrite digits_step, length_app by lia. simpl. lia. }
  rewrite (Hs n), (Hs (n / 10)), (Hs (n / 10 / 10)), (Hs (n / 10 / 10 / 10)), !Z.div_div
    by (rewrite ?Z.div_div by lia; try apply Z.div_le_lower_bound; lia). done.
Qed.

Lemma count_digits_loop_spec fuel count n :
  0 ≤ n < 10000 ^ Z.of_nat fuel → (0 < fuel)%nat →
  count_digits_loop fuel count n = Some (count - 1 + Z.of_nat (length (digits_of 10 n))).
Proof.
  revert count n. induction fuel as [|fuel IH]; intros count n Hn Hf; [lia|]. cbn [count_digits_loop].
  assert (∀ k, 1 ≤ k → n < 10 ^ k → (2 ≤ k → 10 ^ (k - 1) ≤ n) →
    Some (count + (k - 1)) = Some (count - 1 + Z.of_nat (length (digits_of 10 n)))) as Hk.
  { intros k Hk Hlt Hge. rewrite (digits_length 10 ltac:(lia) n k) by lia. f_equal. lia. }
  destruct (Z.ltb_spec0 n 10); [replace count with (count + (1 - 1)) at 1 by lia; apply Hk; lia|].
  destruct (Z.ltb_spec0 n 100); [apply (Hk 2); lia|]. destruct (Z.ltb_spec0 n 1000); [apply (Hk 3); lia|].
  destruct (Z.ltb_spec0 n 10000); [apply (Hk 4); lia|].
  rewrite Nat2Z.inj_succ, Z.pow_succ_r in Hn by lia.
  rewrite (digits_10000 n), IH; [f_equal; lia|split; [apply Z.div_pos; lia|apply Z.div_lt_upper_bound; lia]| |lia].
  destruct fuel; [change (10000 ^ Z.of_nat 0) with 1 in Hn; lia|lia].
Qed.

(** In a radix that is a power of two. *)
Lemma digits_bits_step bits n :
  1 ≤ bits → 0 ≤ n → Z.shiftr n bits = n / 2 ^ bits ∧ Z.land n (Z.shiftl 1 bits - 1) = n mod 2 ^ bits ∧
  (Z.shiftr n bits = 0 ↔ n < 2 ^ bits).
Proof.
  intros Hb Hn. assert (0 < 2 ^ bits) by (apply Z.pow_pos_nonneg; lia).
  rewrite Z.shiftr_div_pow2, Z.shiftl_1_l by lia. replace (2 ^ bits - 1) with (Z.ones bits) by (rewrite Z.ones_equiv; lia).
  rewrite Z.land_ones by lia. split; [done|]. split; [done|].
  rewrite Z.div_small_iff by lia. lia.
Qed.

Lemma pow_bits bits : 1 ≤ bits → 2 ≤ 2 ^ bits.
Proof. intros Hb. change 2 with (2 ^ 1) at 1. apply Z.pow_le_mono_r; lia. Qed.

(** A loop on the digits of a number has enough fuel for the rest. *)
Lemma rest_fuel (f : nat) base n :
  2 ≤ base → base ≤ n → n < 2 ^ Z.of_nat (S f) → (0 < f)%nat ∧ 0 ≤ n / base < 2 ^ Z.of_nat f.
Proof.
  intros Hb Hn Hf. split; [destruct f; [simpl in Hf|]; lia|]. apply div_base; lia.
Qed.

Lemma count_digits_bits_spec fuel bits k n :
  1 ≤ bits → 0 ≤ n < 2 ^ Z.of_nat fuel → (0 < fuel)%nat →
  count_digits_bits fuel bits k n = Some (k + Z.of_nat (length (digits_of (2 ^ bits) n))).
Proof.
  intros Hb. pose proof (pow_bits bits Hb) as Hp. revert k n.
  induction fuel as [|fuel IH]; intros k n Hn Hf; [lia|]. cbn [count_digits_bits].
  destruct (digits_bits_step bits n) as (Hs & _ & Hz); [lia..|].
  destruct (Z.eqb_spec (Z.shiftr n bits) 0) as [E|E].
  - rewrite digits_small by (split; [lia|by apply Hz]). done.
  - assert (2 ^ bits ≤ n) by lia. destruct (rest_fuel fuel (2 ^ bits) n) as [Hf' Hn']; [lia..|].
    rewrite Hs, IH, (digits_step _ Hp n), length_app by done. simpl. f_equal. lia.
Qed.

(** ** Writing fills the cells exactly *)

Lemma store_spec pre x post c p :
  p = Z.of_nat (length pre) → store (pre ++ x :: post) p c = Some (pre ++ Some c :: post).
Proof.
  intros ->. unfold store. rewrite length_app. simpl.
  rewrite (proj2 (Z.leb_le _ _)), (proj2 (Z.ltb_lt _ _)) by lia. simpl.
  by rewrite Nat2Z.id, insert_app_r_alt, Nat.sub_diag by lia.
Qed.
Lemma copy2_spec pre x y post c d p :
  p = Z.of_nat (length pre) → copy2 (pre ++ x :: y :: post) p [c; d] = Some (pre ++ Some c :: Some d :: post).
Proof.
  intros ->. unfold copy2. rewrite store_spec by done. simpl.
  change (pre ++ Some c :: y :: post) with (pre ++ [Some c] ++ y :: post). rewrite app_assoc.
  rewrite store_spec by (rewrite length_app; simpl; lia). by rewrite <-app_assoc.
Qed.

#[local] Arguments store : simpl never.
#[local] Arguments copy2 : simpl never.

Lemma char_digit_spec d : 0 ≤ d < 10 → ∀ upper, char_digit d = digit_char upper d.
Proof.
  intros Hd upper. revert d Hd. apply (Z_below_dec _ 10). by destruct upper; vm_compute.
Qed.
Lemma digit_pair_spec i :
  0 ≤ i < 100 → digit_pair i = Some [digit_char false (i / 10); digit_char false (i mod 10)].
Proof. revert i. apply (Z_below_dec _ 100). by vm_compute. Qed.
Lemma hex_digit_spec upper d : 0 ≤ d < 16 → hex_digits upper !! Z.to_nat d = Some (digit_char upper d).
Proof.
  intros Hd. unfold digit_char. destruct (hex_digits upper !! Z.to_nat d) as [c|] eqn:E.
  - by rewrite (nth_lookup_Some _ _ _ _ E).
  - apply lookup_ge_None in E. destruct upper; simpl in E; lia.
Qed.

(** The last two digits of a number. *)
Lemma numeral_two n :
  100 ≤ n → numeral false 10 n =
    numeral false 10 (n / 100) ++ [digit_char false (n mod 100 / 10); digit_char false (n mod 100 mod 10)].
Proof.
  intros Hn. unfold numeral. rewrite (digits_step 10 ltac:(lia) n), (digits_step 10 ltac:(lia) (n / 10)), !map_app, <-app_assoc
    by (try apply Z.div_le_lower_bound; lia).
  rewrite Z.div_div by lia. simpl. do 3 f_equal; [|f_equal].
  - Z.div_mod_to_equations. lia.
  - Z.div_mod_to_equations. lia.
Qed.
Lemma length_numeral upper base n : length (numeral upper base n) = length (digits_of base n).
Proof. apply length_map. Qed.

Lemma format_decimal_loop_spec fuel v pre post out :
  0 ≤ v < 2 ^ Z.of_nat fuel → (0 < fuel)%nat →
  out = Z.of_nat (length pre + length (numeral false 10 v)) →
  format_decimal_loop fuel (pre ++ replicate (length (numeral false 10 v)) None ++ post) out v =
  Some (pre ++ map Some (numeral false 10 v) ++ post, Z.of_nat (length pre)).
Proof.
  revert v post out. induction fuel as [|fuel IH]; intros v post out Hv Hf ->; [lia|]. cbn [format_decimal_loop].
  destruct (Z.leb_spec0 100 v) as [Hge|Hlt].
  - rewrite digit_pair_spec by (apply Z.mod_pos_bound; lia). simpl. rewrite (numeral_two v Hge), length_app. simpl.
    rewrite replicate_add, <-app_assoc, app_assoc. simpl.
    rewrite copy2_spec by (rewrite length_app, length_replicate; lia). simpl.
    destruct (rest_fuel fuel 100 v) as [Hf' Hv']; [lia..|].
    rewrite <-app_assoc, IH by (done || lia). by rewrite map_app, <-!app_assoc.
  - destruct (Z.ltb_spec0 v 10) as [Hl|Hg].
    + unfold numeral. rewrite digits_small by lia. simpl. rewrite store_spec by lia. simpl.
      rewrite (char_digit_spec v ltac:(lia) false). do 2 f_equal. lia.
    + rewrite digit_pair_spec by lia. unfold numeral. rewrite (digits_step 10 ltac:(lia) v), digits_small
        by (Z.div_mod_to_equations; lia). simpl. rewrite copy2_spec by lia. simpl. do 2 f_equal. lia.
Qed.

Lemma format_decimal_spec v pre post :
  0 ≤ v →
  format_decimal (pre ++ replicate (length (numeral false 10 v)) None ++ post) (Z.of_nat (length pre)) v
    (Z.of_nat (length (numeral false 10 v))) =
  Some (pre ++ map Some (numeral false 10 v) ++ post, Z.of_nat (length pre),
    Z.of_nat (length pre + length (numeral false 10 v))).
Proof.
  intros Hv. unfold format_decimal. rewrite <-Nat2Z.inj_add.
  rewrite format_decimal_loop_spec; [done|split; [done|by apply log2_fuel]|lia|done].
Qed.

Lemma read_cells_spec s : read_cells (map Some s) = Some s.
Proof. unfold read_cells. induction s as [|c s IH]; [done|]. simpl. by rewrite IH. Qed.

Lemma format_uint_loop_spec fuel bits upper v pre post out :
  1 ≤ bits ≤ 4 → 0 ≤ v < 2 ^ Z.of_nat fuel → (0 < fuel)%nat →
  out = Z.of_nat (length pre + length (numeral upper (2 ^ bits) v)) →
  format_uint_loop fuel bits upper (pre ++ replicate (length (numeral upper (2 ^ bits) v)) None ++ post) out v =
  Some (pre ++ map Some (numeral upper (2 ^ bits) v) ++ post).
Proof.
  intros Hb. pose proof (pow_bits bits ltac:(lia)) as Hp. revert v post out.
  induction fuel as [|fuel IH]; intros v post out Hv Hf ->; [lia|]. cbn [format_uint_loop].
  destruct (digits_bits_step bits v) as (Hs & Hm & Hz); [lia..|]. rewrite Hm.
  assert (2 ^ bits ≤ 2 ^ 4) by (apply Z.pow_le_mono_r; lia).
  pose proof (Z.mod_pos_bound v (2 ^ bits) ltac:(lia)) as Hd.
  assert ((if bits <? 4 then Some (char_digit (v mod 2 ^ bits)) else hex_digits upper !! Z.to_nat (v mod 2 ^ bits)) =
    Some (digit_char upper (v mod 2 ^ bits))) as ->.
  { destruct (Z.ltb_spec0 bits 4); [|apply hex_digit_spec; lia]. f_equal. apply char_digit_spec.
    assert (2 ^ bits ≤ 2 ^ 3) by (apply Z.pow_le_mono_r; lia). lia. }
  simpl. destruct (Z.eqb_spec (Z.shiftr v bits) 0) as [E|E].
  - apply Hz in E. unfold numeral. rewrite digits_small by lia. simpl. rewrite store_spec by lia. simpl.
    by rewrite Z.mod_small by lia.
  - assert (2 ^ bits ≤ v) by lia. destruct (rest_fuel fuel (2 ^ bits) v) as [Hf' Hv']; [lia..|].
    assert (numeral upper (2 ^ bits) v = numeral upper (2 ^ bits) (v / 2 ^ bits) ++ [digit_char upper (v mod 2 ^ bits)]) as ->.
    { unfold numeral. by rewrite (digits_step _ Hp v), map_app by done. }
    rewrite length_app, replicate_add, <-app_assoc, app_assoc. simpl.
    rewrite store_spec by (rewrite length_app, length_replicate; lia). simpl. rewrite Hs.
    rewrite <-app_assoc, IH by (done || lia). by rewrite map_app, <-!app_assoc.
Qed.

Lemma decimal_text_spec k v :
  0 ≤ v → Z.of_nat (length (numeral false 10 v)) ≤ k →
  decimal_text k v (Z.of_nat (length (numeral false 10 v))) = Some (numeral false 10 v).
Proof.
  intros Hv Hk. unfold decimal_text. pose proof (format_decimal_spec v [] (replicate (Z.to_nat k - length (numeral false 10 v)) None) Hv) as Hf.
  rewrite <-replicate_add in Hf. replace (_ + (_ - _))%nat with (Z.to_nat k) in Hf by lia.
  cbn [app length Nat.add] in Hf. change (Z.of_nat 0) with 0 in Hf. rewrite Hf. cbn [mbind option_bind]. rewrite Nat2Z.id, take_app_le by (by rewrite length_map).
  rewrite take_ge by (by rewrite length_map). apply read_cells_spec.
Qed.
Lemma uint_text_spec w bits upper v :
  1 ≤ bits ≤ 4 → 0 ≤ v → Z.of_nat (length (numeral upper (2 ^ bits) v)) ≤ w / bits + 1 →
  uint_text w bits upper v (Z.of_nat (length (numeral upper (2 ^ bits) v))) = Some (numeral upper (2 ^ bits) v).
Proof.
  intros Hb Hv Hk. unfold uint_text, format_uint. rewrite Z.add_0_l.
  pose proof (format_uint_loop_spec (S (Z.to_nat (Z.log2 v))) bits upper v []
    (replicate (Z.to_nat (w / bits + 1) - length (numeral upper (2 ^ bits) v)) None)
    (Z.of_nat (length (numeral upper (2 ^ bits) v))) Hb) as Hf.
  simpl app in Hf. rewrite <-replicate_add in Hf. replace (_ + (_ - _))%nat with (Z.to_nat (w / bits + 1)) in Hf by lia.
  rewrite Hf by (done || lia || (split; [done|by apply log2_fuel])). cbn [mbind option_bind].
  rewrite Nat2Z.id, take_app_le by (by rewrite length_map).
  rewrite take_ge by (by rewrite length_map). apply read_cells_spec.
Qed.

(** A number below [base ^ k] has at most [k] digits. *)
Lemma digits_at_most base n k : 2 ≤ base → 0 ≤ n < base ^ k → 1 ≤ k → Z.of_nat (length (digits_of base n)) ≤ k.
Proof.
  intros Hb Hn Hk. revert n Hn. apply (Zlt_lower_bound_ind (λ k, ∀ n, 0 ≤ n < base ^ k → _ ≤ k) 1); [|done].
  clear k Hk. intros k IH Hk n Hn. destruct (Z.lt_ge_cases n base).
  - rewrite digits_small by lia. simpl. lia.
  - rewrite digits_step, length_app by lia. simpl. assert (k ≠ 1) by (intros ->; rewrite Z.pow_1_r in Hn; lia).
    specialize (IH (k - 1) ltac:(lia) (n / base)).
    replace k with (Z.succ (k - 1)) in Hn by lia. rewrite Z.pow_succ_r in Hn by lia.
    pose proof (Z.div_lt_upper_bound n base (base ^ (k - 1)) ltac:(lia) ltac:(lia)).
    pose proof (Z.div_pos n base ltac:(lia) ltac:(lia)). lia.
Qed.

(** ** Reading a number back *)

Definition digit_value (c : byte) : option Z :=
  let z := byte_to_Z c in
  if (48 <=? z) && (z <=? 57) then Some (z - 48)
  else if (65 <=? z) && (z <=? 70) then Some (z - 55)
  else if (97 <=? z) && (z <=? 102) then Some (z - 87)
  else None.
Definition read_numeral (base : Z) (s : list byte) : option Z := value_of base <$> mapM digit_value s.
Definition read_integer (s : list byte) : option Z :=
  match s with
  | [] => None
  | c :: s' => if decide (c = minus) then Z.opp <$> read_numeral 10 s' else read_numeral 10 s
  end.

Lemma digit_value_char upper d : 0 ≤ d < 16 → digit_value (digit_char upper d) = Some d.
Proof. revert d. apply (Z_below_dec _ 16). by destruct upper; vm_compute. Qed.

Lemma read_numeral_spec upper base n :
  2 ≤ base ≤ 16 → 0 ≤ n → read_numeral base (numeral upper base n) = Some n.
Proof.
  intros Hb Hn. unfold read_numeral, numeral.
  assert (mapM digit_value (map (digit_char upper) (digits_of base n)) = Some (digits_of base n)) as ->.
  { pose proof (digits_range base ltac:(lia) n Hn) as Hr.
    induction Hr as [|d l Hd _ IH]; [done|]. simpl. rewrite digit_value_char by lia. simpl. by rewrite IH. }
  simpl. by rewrite value_digits by lia.
Qed.

(** An integer in decimal, as it should be. *)
Definition decimal (z : Z) : list byte :=
  (if z <? 0 then [minus] else []) ++ numeral false 10 (Z.abs z).

Lemma numeral_head upper base n c :
  2 ≤ base ≤ 16 → 0 ≤ n → head (numeral upper base n) = Some c → ∃ d, 0 ≤ d < 16 ∧ c = digit_char upper d.
Proof.
  intros Hb Hn. unfold numeral. pose proof (digits_range base ltac:(lia) n Hn) as Hr.
  destruct (digits_of base n) as [|d l]; [done|]. apply list.Forall_cons in Hr as [Hd _].
  intros [= <-]. exists d. split; [lia|done].
Qed.
Lemma digit_not_minus upper d : 0 ≤ d < 16 → digit_char upper d ≠ minus.
Proof. intros Hd E. pose proof (digit_value_char upper d Hd) as Hv. by rewrite E in Hv. Qed.

Lemma read_decimal z : read_integer (decimal z) = Some z.
Proof.
  unfold decimal, read_integer. destruct (Z.ltb_spec0 z 0); simpl.
  - rewrite read_numeral_spec by lia. simpl. f_equal. lia.
  - pose proof (numeral_head false 10 (Z.abs z)) as Hh. pose proof (read_numeral_spec false 10 (Z.abs z)) as Hr.
    pose proof (digits_nonempty 10 ltac:(lia) (Z.abs z) ltac:(lia)) as Hne. unfold numeral in *.
    destruct (digits_of 10 (Z.abs z)) as [|d l]; [done|]. simpl in *.
    destruct (Hh _ ltac:(lia) ltac:(lia) eq_refl) as (d' & Hd' & E').
    destruct (decide _) as [E|_]; [rewrite E' in E; by apply digit_not_minus in E|]. rewrite Hr by lia. f_equal. lia.
Qed.

(** The values of the integer types of a width, signed and unsigned. *)
Definition fits_width (w : width) (z : Z) : Prop := - 2 ^ (bits_of w - 1) ≤ z < 2 ^ bits_of w.

Lemma magnitude_abs w z : fits_width w z → magnitude w z = Z.abs z.
Proof.
  unfold fits_width, magnitude. intros Hz.
  assert (2 ^ bits_of w = 2 * 2 ^ (bits_of w - 1)) as Hp by (by destruct w).
  assert (0 < 2 ^ (bits_of w - 1)) by (by destruct w). destruct (Z.ltb_spec0 z 0).
  - rewrite <-(Z.mod_unique z (2 ^ bits_of w) (-1) (z + 2 ^ bits_of w)) by lia.
    rewrite Z.mod_small by lia. lia.
  - rewrite Z.mod_small by lia. lia.
Qed.
Lemma magnitude_range w z : fits_width w z → 0 ≤ Z.abs z < 2 ^ bits_of w.
Proof. unfold fits_width. destruct w; simpl; lia. Qed.
Lemma decimal_digits w n : 0 ≤ n < 2 ^ bits_of w → Z.of_nat (length (numeral false 10 n)) ≤ max_digits w.
Proof. intros Hn. rewrite length_numeral. apply digits_at_most; destruct w; simpl in *; lia. Qed.

Lemma write_integer_spec w z : fits_width w z → write_integer w z = Some (decimal z).
Proof.
  intros Hz. unfold write_integer, decimal. rewrite magnitude_abs by done.
  rewrite count_digits_spec by (by apply magnitude_range). cbn [mbind option_bind].
  rewrite <-(length_numeral false). set (m := numeral false 10 (Z.abs z)) in *.
  pose proof (format_decimal_spec (Z.abs z) (if z <? 0 then [Some minus] else []) [] ltac:(lia)) as Hf.
  fold m in Hf. rewrite !app_nil_r in Hf. destruct (Z.ltb_spec0 z 0).
  - replace (Z.to_nat (1 + Z.of_nat (length m))) with (S (length m)) by lia.
    pose proof (store_spec [] None (replicate (length m) None) minus 0 eq_refl) as Hst.
    cbn [app replicate] in Hst |- *. rewrite Hst.
    cbn [mbind option_bind app length] in *. change (Z.of_nat 1) with 1 in Hf. rewrite Hf. cbn [mbind option_bind].
    exact (read_cells_spec (minus :: m)).
  - rewrite Z.add_0_l, Nat2Z.id. cbn [mbind option_bind app length] in *. change (Z.of_nat 0) with 0 in Hf.
    rewrite Hf. cbn [mbind option_bind]. apply read_cells_spec.
Qed.

(** ** Theorem *)

(** C20: integers are printed exactly: for every value of a 32-bit or 64-bit integer type, signed or
    not, counting digits with the highest bit and the tables gives the number of decimal digits,
    as dividing by 10000 again and again does; the characters reserved are all written, none
    outside of them, whatever the order in which pairs of digits are copied; and the text is the
    sign and the digits without leading zeros, which read back as the value. *)
Theorem fmt_integers_exact w z :
  fits_width w z →
  write_integer w z = Some (decimal z) ∧ read_integer (decimal z) = Some z ∧
  (head (digits_of 10 (Z.abs z)) = Some 0 → z = 0) ∧
  count_digits w (Z.abs z) = Some (Z.of_nat (length (digits_of 10 (Z.abs z)))) ∧
  count_digits_loop 5 1 (Z.abs z) = count_digits w (Z.abs z).
Proof.
  intros Hz. pose proof (magnitude_range w z Hz) as Hr. split; [by apply write_integer_spec|].
  split; [apply read_decimal|]. split.
  { intros Hh. apply digits_head in Hh; lia. }
  rewrite count_digits_spec by done. split; [done|].
  rewrite count_digits_loop_spec; [f_equal; lia| |lia]. destruct w; simpl in *; lia.
Qed.

Lemma fmt_integers_exact_witness :
  write_integer w64 (- 2 ^ 63) = Some (String.list_byte_of_string "-9223372036854775808") ∧
  write_integer w32 (2 ^ 32 - 1) = Some (String.list_byte_of_string "4294967295").
Proof.
  split.
  - destruct (fmt_integers_exact w64 (- 2 ^ 63)) as [-> _]; [split; vm_compute; congruence|]. vm_compute. reflexivity.
  - destruct (fmt_integers_exact w32 (2 ^ 32 - 1)) as [-> _]; [split; vm_compute; congruence|]. vm_compute. reflexivity.
Defined.
