(* ===== verification/FormatMessage.v ===== *)
(** Formatting of messages for logs: src/format_message.cpp.

    Strings are sequences of bytes. Numbers are converted by fmt: integers as in [FmtInt], while
    floating-point numbers are a parameter here: [fmt_float32] and [fmt_float64] give the
    characters of a value with its precision. [FormatFloats] defines them with the formatter
    of [FmtFloat] and states the theorems on whole messages. *)

From S2P Require Import Prelude Errors FmtInt MsgpackObject MsgpackParse MsgpackFacts MsgpackEvents.
From stdpp Require pretty.

(** Characters of a string literal. *)
Definition chars (s : string) : list byte := String.list_byte_of_string s.

(** ** [format_hex] *)

Definition hex : list byte := chars "0123456789ABCDEF".

Definition hex_byte (b : byte) : list byte :=
  let value := byte_to_Z b in
  let upper := Z.shiftr value 4 in
  let lower := Z.land value 0x0f in
  [nth (Z.to_nat upper) hex Byte.x00; nth (Z.to_nat lower) hex Byte.x00].

Definition format_hex (ptr : list byte) (size limit : Z) : list byte :=
  let proccess_bytes := Z.min size (limit / 2) in
  List.flat_map hex_byte (take (Z.to_nat proccess_bytes) ptr).

(** ** [formatting_visitor] *)

Record formatting_visitor := mk_formatting_visitor { msg_ : list byte; len_limit_ : Z }.

(** [fmt::format("{}", value)] for an [std::uint64_t] and an [std::int64_t]. *)
Definition fmt_uint64 (z : Z) : list byte := default [] (write_integer w64 (wrap64 z)).
Definition fmt_int64 (z : Z) : list byte := default [] (write_integer w64 (to_signed 64 (wrap64 z))).

Section format.
Context (fmt_float32 fmt_float64 : Z → list byte).

Definition msg_size (v : formatting_visitor) : Z := Z.of_nat (length (msg_ v)).

Definition append (v : formatting_visitor) (s : list byte) : formatting_visitor :=
  mk_formatting_visitor (msg_ v ++ s) (len_limit_ v).

Definition check_length (v : formatting_visitor) : bool * formatting_visitor :=
  if len_limit_ v <=? wrap64 (msg_size v + 4) then (false, append v (chars " ..."))
  else (true, v).

(** The guard of strings, binaries and extensions: [size * 2] is a [std::uint32_t]. *)
Definition too_long (v : formatting_visitor) (size : Z) : bool :=
  len_limit_ v <? wrap64 (msg_size v + wrap32 (size * 2)).

Definition visit_sized (v : formatting_visitor) (size : Z) (text : list byte) :
    bool * formatting_visitor :=
  if too_long v size then (false, append v (chars " ..."))
  else check_length (append v text).

(** [if (msg_.back() == ',') msg_.pop_back();] *)
Definition pop_comma (v : formatting_visitor) : formatting_visitor :=
  if decide (list.last (msg_ v) = Some Byte.x2c) then
    mk_formatting_visitor (take (length (msg_ v) - 1) (msg_ v)) (len_limit_ v)
  else v.

Definition formatting_visit (v : formatting_visitor) (ev : event) : bool * formatting_visitor :=
  match ev with
  | visit_nil => check_length (append v (chars "nil"))
  | visit_boolean b => check_length (append v (chars (if b then "true" else "false")))
  | visit_positive_integer z => check_length (append v (fmt_uint64 z))
  | visit_negative_integer z => check_length (append v (fmt_int64 z))
  | visit_float32 z => check_length (append v (fmt_float32 z ++ chars "F"))
  | visit_float64 z => check_length (append v (fmt_float64 z))
  | visit_str s =>
      visit_sized v (Z.of_nat (length s)) ([Byte.x22] ++ s ++ [Byte.x22])
  | visit_bin s =>
      visit_sized v (Z.of_nat (length s))
        (chars "hex(" ++ format_hex s (Z.of_nat (length s)) (len_limit_ v) ++ chars ")")
  | visit_ext s =>
      visit_sized v (Z.of_nat (length s))
        (chars "ext(" ++ format_hex s (Z.of_nat (length s)) (len_limit_ v) ++ chars ")")
  | start_array _ => check_length (append v (chars "["))
  | end_array_item => check_length (append v (chars ","))
  | end_array => check_length (append (pop_comma v) (chars "]"))
  | start_map _ => check_length (append v (chars "{"))
  | end_map_key => check_length (append v (chars ":"))
  | end_map_value => check_length (append v (chars ","))
  | end_map => check_length (append (pop_comma v) (chars "}"))
  | start_array_item | start_map_key | start_map_value => (true, v)
  end.

#[local] Instance formatting_visitor_Visitor : Visitor formatting_visitor := {
  visit v ev := Ok (formatting_visit v ev);
  on_parse_error _ _ _ := Throw (msgpack_parse_error "parse error");
  on_insufficient_bytes _ _ _ := Throw (msgpack_parse_error "parse error");
}.

(** [format_message]; an exception that is not caught would leave a [noexcept] function. *)
Definition format_message (data : message_data) (length_limit : Z) : result (list byte) :=
  let bytes := message_data_ops.bytes data in
  try_catch
    (outcome_bind (parse bytes 0 (mk_formatting_visitor [] length_limit))
      (λ '(_, _, v), Ok (msg_ v)))
    (λ e, match e with
          | msgpack_parse_error _ =>
              let limit := Z.max length_limit 14 - 14 in
              Some (Ok (chars "invalid_data(" ++
                format_hex bytes (message_data_ops.size data) limit ++ chars ")"))
          | _ => None
          end).

(** ** Length of the output *)

Lemma length_hex_bytes l : length (List.flat_map hex_byte l) = (2 * length l)%nat.
Proof. induction l as [|b l IH]; [done|]. simpl. rewrite IH. lia. Qed.

Lemma length_format_hex l size limit :
  Z.of_nat (length (format_hex l size limit)) ≤ 2 * Z.max 0 (Z.min size (limit / 2)).
Proof. unfold format_hex. rewrite length_hex_bytes, length_take. lia. Qed.

Lemma length_decimal z : fits_width w64 z → (length (decimal z) ≤ 20)%nat.
Proof.
  intros Hz. unfold decimal. rewrite length_app. pose proof (decimal_digits w64 (Z.abs z) (magnitude_range w64 z Hz)).
  destruct (Z.ltb_spec0 z 0); simpl length; [|simpl in *; lia].
  assert (Z.of_nat (length (numeral false 10 (Z.abs z))) ≤ 19); [|lia].
  rewrite length_numeral. apply digits_at_most; unfold fits_width in Hz; simpl in *; lia.
Qed.
Lemma length_fmt_uint64 z : (length (fmt_uint64 z) ≤ 20)%nat.
Proof.
  unfold fmt_uint64, wrap64. pose proof (Z.mod_pos_bound z (2 ^ 64) ltac:(lia)).
  assert (fits_width w64 (z mod 2 ^ 64)) by (split; simpl; lia).
  rewrite write_integer_spec by done. by apply length_decimal.
Qed.
Lemma length_fmt_int64 z : (length (fmt_int64 z) ≤ 20)%nat.
Proof.
  unfold fmt_int64, wrap64, to_signed. pose proof (Z.mod_pos_bound z (2 ^ 64) ltac:(lia)).
  assert (fits_width w64 (if z mod 2 ^ 64 <? 2 ^ (64 - 1) then z mod 2 ^ 64 else z mod 2 ^ 64 - 2 ^ 64))
    by (split; simpl; zcase; lia).
  rewrite write_integer_spec by done. by apply length_decimal.
Qed.

(** What fmt is documented to write: the precisions 6 and 12 bound the number of characters. *)
Context (Hf32 : ∀ z, (length (fmt_float32 z) ≤ 19)%nat).
Context (Hf64 : ∀ z, (length (fmt_float64 z) ≤ 20)%nat).
Context (L : Z) (HL : 0 ≤ L ≤ 2 ^ 63).

Definition is_parse_error (e : exn) : Prop := e = msgpack_parse_error "parse error".
Definition within_limit (v : formatting_visitor) : Prop :=
  len_limit_ v = L ∧ (msg_size v = 0 ∨ msg_size v + 4 < L).
Definition output_bound (v : formatting_visitor) : Prop := msg_size v ≤ Z.max L 5 + 19.

Lemma msg_size_append v s : msg_size (append v s) = msg_size v + Z.of_nat (length s).
Proof. unfold msg_size. simpl. rewrite length_app. lia. Qed.

Lemma check_length_bound v :
  len_limit_ v = L → msg_size v ≤ Z.max L 5 + 15 →
  visited within_limit output_bound is_parse_error (Ok (check_length v)).
Proof.
  intros Hl Hs. unfold check_length. rewrite Hl. unfold wrap64.
  assert (0 ≤ msg_size v) by (unfold msg_size; lia). rewrite Z.mod_small by lia.
  zcase; simpl; [|split; [done|lia]]. unfold output_bound. rewrite msg_size_append.
  change (length (chars " ...")) with 4%nat. lia.
Qed.

Lemma append_bound v s :
  within_limit v → (length s ≤ 20)%nat →
  visited within_limit output_bound is_parse_error (Ok (check_length (append v s))).
Proof.
  intros [Hl Hs] Hlen. apply check_length_bound; [done|]. rewrite msg_size_append. lia.
Qed.

Lemma visit_sized_bound v size text :
  within_limit v → 0 ≤ size < 2 ^ 31 → Z.of_nat (length text) ≤ Z.max 20 (2 * size + 5) →
  visited within_limit output_bound is_parse_error (Ok (visit_sized v size text)).
Proof.
  intros [Hl Hs] Hsize Hlen. unfold visit_sized, too_long, wrap64, wrap32.
  assert (0 ≤ msg_size v) by (unfold msg_size; lia).
  rewrite Hl, (Z.mod_small (size * 2)), Z.mod_small by lia. zcase.
  - unfold visited, output_bound. rewrite msg_size_append.
    change (length (chars " ...")) with 4%nat. lia.
  - apply check_length_bound; [done|]. rewrite msg_size_append. lia.
Qed.

Lemma pop_comma_bound v : within_limit v → within_limit (pop_comma v).
Proof.
  unfold pop_comma. case_decide; [|done]. intros [Hl Hs]. split; [done|].
  unfold msg_size in *. simpl. rewrite length_take. lia.
Qed.

Lemma formatting_visit_bound v ev :
  (payload ev ≤ Z.to_nat (2 ^ 31 - 1))%nat → within_limit v →
  visited within_limit output_bound is_parse_error (Ok (formatting_visit v ev)).
Proof.
  intros Hev Hv. destruct ev; cbn [formatting_visit payload] in *;
    try (apply append_bound; [by try apply pop_comma_bound|];
         rewrite ?length_app; try case_match; simpl; auto using length_fmt_uint64, length_fmt_int64; lia);
    try done.
  - apply append_bound; [done|]. rewrite length_app. specialize (Hf32 bits). simpl. lia.
  - apply visit_sized_bound; [done|lia|]. rewrite !length_app. simpl. lia.
  - apply visit_sized_bound; [done|lia|]. rewrite !length_app.
    change (length (chars "hex(")) with 4%nat. change (length (chars ")")) with 1%nat.
    pose proof (length_format_hex v0 (Z.of_nat (length v0)) (len_limit_ v)). lia.
  - apply visit_sized_bound; [done|lia|]. rewrite !length_app.
    change (length (chars "ext(")) with 4%nat. change (length (chars ")")) with 1%nat.
    pose proof (length_format_hex v0 (Z.of_nat (length v0)) (len_limit_ v)). lia.
Qed.

Lemma format_message_bounded_aux data :
  message_data_ops.size data < 2 ^ 31 →
  ∃ s, format_message data L = Ok s ∧ Z.of_nat (length s) ≤ Z.max L 5 + 19.
Proof.
  intros Hd. unfold format_message, parse, parse_imp.
  set (bytes := message_data_ops.bytes data).
  assert (∃ s, Ok (E := exn) (chars "invalid_data(" ++ format_hex bytes (message_data_ops.size data)
    (Z.max L 14 - 14) ++ chars ")") = Ok s ∧ Z.of_nat (length s) ≤ Z.max L 5 + 19) as Hinvalid.
  { eexists. split; [done|]. rewrite !length_app.
    change (length (chars "invalid_data(")) with 13%nat. change (length (chars ")")) with 1%nat.
    pose proof (length_format_hex bytes (message_data_ops.size data) (Z.max L 14 - 14)).
    pose proof (Z.mul_div_le (Z.max L 14 - 14) 2 ltac:(lia)). lia. }
  destruct (_ <=? 0); [exact Hinvalid|].
  pose proof (run_visitor within_limit output_bound is_parse_error (Z.to_nat (2 ^ 31 - 1))
    formatting_visit_bound ltac:(done) (init_context 0 bytes (mk_formatting_visitor [] L))
    eq_refl) as Hr.
  fold (execute bytes 0 (mk_formatting_visitor [] L)) in Hr.
  assert (∀ v, within_limit v → output_bound v) as Hw by (intros v [_ ?]; unfold output_bound; lia).
  destruct (execute bytes 0 _) as [[[ret off] v]|e]; simpl in *.
  - assert (returned within_limit output_bound ret v) as Hret.
    { apply Hr; [|by split; auto].
      unfold message_data_ops.size in Hd. fold bytes in Hd. rewrite drop_0. lia. }
    destruct ret; simpl in *; try case_match; simpl; try exact Hinvalid;
      (eexists; split; [done|]); (exact Hret || exact (Hw v Hret)).
  - rewrite Hr; [exact Hinvalid| |by split; auto].
    unfold message_data_ops.size in Hd. fold bytes in Hd. rewrite drop_0. lia.
Qed.
End format.

(** ** The text of an object *)

Definition comma : list byte := chars ",".

(** Texts separated by commas. *)
Fixpoint join (l : list (list byte)) : list byte :=
  match l with
  | [] => []
  | [x] => x
  | x :: l' => x ++ comma ++ join l'
  end.

Section render.
Context (fmt_float32 fmt_float64 : Z → list byte).

Definition hex_text (s : list byte) : list byte := List.flat_map hex_byte s.

Fixpoint render (o : object) : list byte :=
  match o with
  | NIL => chars "nil"
  | BOOLEAN b => chars (if b then "true" else "false")
  | POSITIVE_INTEGER z | NEGATIVE_INTEGER z => decimal z
  | FLOAT32 z => fmt_float32 z ++ chars "F"
  | FLOAT64 z => fmt_float64 z
  | STR s => [Byte.x22] ++ s ++ [Byte.x22]
  | BIN s => chars "hex(" ++ hex_text s ++ chars ")"
  | EXT s => chars "ext(" ++ hex_text s ++ chars ")"
  | ARRAY l => chars "[" ++ join (map render l) ++ chars "]"
  | MAP m => chars "{" ++ join (map (λ '(k, v), render k ++ chars ":" ++ render v) m) ++ chars "}"
  end.

Lemma join_suffix x l : List.flat_map (λ t, t ++ comma) (x :: l) = join (x :: l) ++ comma.
Proof.
  revert x. induction l as [|y l IH]; intros x; [simpl; by rewrite app_nil_r|].
  change (List.flat_map (λ t, t ++ comma) (x :: y :: l))
    with ((x ++ comma) ++ List.flat_map (λ t, t ++ comma) (y :: l)).
  rewrite IH. simpl join at 2. by rewrite <-!app_assoc.
Qed.

Context (L : Z) (HL : L < 2 ^ 32).
#[local] Existing Instance formatting_visitor_Visitor.
Abbreviation feed_ := (feed (H := formatting_visitor_Visitor fmt_float32 fmt_float64)).

(** Room for [n] more characters, twice over: the guard of strings counts them double. *)
Definition room (v : formatting_visitor) (n : nat) : Prop :=
  len_limit_ v = L ∧ 2 * (msg_size v + Z.of_nat n) + 5 ≤ L.

Lemma room_append v s n : room v (length s + n) → room (append v s) n.
Proof. intros [Hl Hr]. split; [done|]. rewrite msg_size_append. lia. Qed.

Lemma append_app v s t : append (append v s) t = append v (s ++ t).
Proof. unfold append. simpl. by rewrite app_assoc. Qed.

Lemma check_length_room v s :
  room v (length s) → check_length (append v s) = (true, append v s).
Proof.
  intros [Hl Hr]. unfold check_length. simpl. rewrite Hl.
  pose proof (msg_size_append v s) as Hm. unfold wrap64.
  assert (0 ≤ msg_size v) by (unfold msg_size; lia).
  rewrite Z.mod_small by lia. zcase. done.
Qed.

Lemma visit_sized_room v size s :
  room v (length s) → 0 ≤ size ≤ Z.of_nat (length s) → visit_sized v size s = (true, append v s).
Proof.
  intros Hroom Hs. unfold visit_sized, too_long, wrap64, wrap32. pose proof Hroom as [Hl Hr].
  assert (0 ≤ msg_size v) by (unfold msg_size; lia).
  rewrite Hl, (Z.mod_small (size * 2)), Z.mod_small by lia. zcase. by apply check_length_room.
Qed.

Lemma format_hex_room s size :
  size = Z.of_nat (length s) → 2 * size ≤ L → format_hex s size L = hex_text s.
Proof.
  intros -> Hs. unfold format_hex, hex_text. rewrite take_ge; [done|].
  pose proof (Z.div_le_lower_bound L 2 (Z.of_nat (length s))). lia.
Qed.

Lemma pop_comma_append v s :
  pop_comma (append v (s ++ comma)) = append v s.
Proof.
  unfold pop_comma, append. simpl. rewrite app_assoc.
  change comma with [Byte.x2c]. rewrite decide_True by apply last_snoc.
  f_equal. rewrite length_app. simpl. by rewrite Nat.add_sub, take_app_length.
Qed.

Definition formats (o : object) : Prop :=
  ∀ v, room v (length (render o)) → feed_ (events o) v = Ok (true, append v (render o)).

Lemma feed_one v ev s :
  formatting_visit fmt_float32 fmt_float64 v ev = (true, append v s) →
  ∀ es, feed_ (ev :: es) v = feed_ es (append v s).
Proof.
  intros Hv es. cbn [feed visit formatting_visitor_Visitor outcome_bind]. by rewrite Hv.
Qed.

Lemma formats_leaf o ev :
  events o = [ev] →
  (∀ v, room v (length (render o)) →
    formatting_visit fmt_float32 fmt_float64 v ev = (true, append v (render o))) →
  formats o.
Proof. intros He Hv v Hr. rewrite He, (feed_one v ev (render o)); auto. Qed.

Lemma formats_sized o ev s (pre : list byte) size :
  events o = [ev] → render o = pre ++ hex_text s ++ chars ")" → size = Z.of_nat (length s) →
  (∀ v, formatting_visit fmt_float32 fmt_float64 v ev =
    visit_sized v size (pre ++ format_hex s size (len_limit_ v) ++ chars ")")) →
  formats o.
Proof.
  intros He Hren Hs Hv. apply (formats_leaf _ ev He). intros v Hr.
  assert (Z.of_nat (length s) ≤ Z.of_nat (length (render o)) ∧
          2 * Z.of_nat (length s) ≤ Z.of_nat (length (render o))) as [? ?].
  { rewrite Hren, !length_app. unfold hex_text. rewrite length_hex_bytes. lia. }
  pose proof Hr as [Hl Hlim]. assert (0 ≤ msg_size v) by (unfold msg_size; lia).
  rewrite Hv, Hl, format_hex_room, <-Hren by (done || lia).
  apply visit_sized_room; [done|lia].
Qed.

Abbreviation texts := (List.flat_map (λ t, t ++ comma)).

Lemma formats_items l v :
  Forall formats l → room v (length (texts (map render l))) →
  feed_ (List.flat_map (λ o, start_array_item :: events o ++ [end_array_item]) l) v =
  Ok (true, append v (texts (map render l))).
Proof.
  revert v. induction l as [|o l IH]; intros v Hl Hr.
  { simpl. unfold append. rewrite app_nil_r. by destruct v. }
  inversion Hl as [|? ? Ho Hl']; subst. cbn [map List.flat_map] in Hr |- *.
  rewrite feed_app. cbn [feed visit formatting_visitor_Visitor formatting_visit outcome_bind fst snd].
  rewrite <-app_assoc, length_app, length_app in Hr. rewrite feed_app, Ho.
  2:{ destruct Hr as [? Hr]. split; [done|lia]. }
  cbn [outcome_bind fst snd]. rewrite (feed_one _ end_array_item comma); cycle 1.
  { apply check_length_room, room_append. destruct Hr as [? Hr]. split; [done|lia]. }
  cbn [feed outcome_bind fst snd]. rewrite IH, !append_app; [by rewrite <-?app_assoc|done|].
  apply room_append, room_append. done.
Qed.

Lemma formats_pairs m v :
  Forall (λ kv, formats kv.1 ∧ formats kv.2) m →
  room v (length (texts (map (λ '(k, x), render k ++ chars ":" ++ render x) m))) →
  feed_ (List.flat_map map_events m) v =
  Ok (true, append v (texts (map (λ '(k, x), render k ++ chars ":" ++ render x) m))).
Proof.
  revert v. induction m as [|[k x] m IH]; intros v Hm Hr.
  { simpl. unfold append. rewrite app_nil_r. by destruct v. }
  inversion Hm as [|? ? [Hk Hx] Hm']; subst. simpl in Hk, Hx.
  cbn [map List.flat_map map_events] in Hr |- *. rewrite !length_app in Hr.
  rewrite feed_app. cbn [feed visit formatting_visitor_Visitor formatting_visit outcome_bind fst snd].
  rewrite feed_app, Hk. 2:{ destruct Hr as [? Hr]. split; [done|lia]. }
  cbn [outcome_bind fst snd app]. rewrite (feed_one _ end_map_key (chars ":")); cycle 1.
  { apply check_length_room, room_append. destruct Hr as [? Hr]. split; [done|lia]. }
  cbn [feed visit formatting_visitor_Visitor formatting_visit outcome_bind fst snd].
  rewrite feed_app, Hx.
  2:{ do 2 apply room_append. destruct Hr as [? Hr]. split; [done|lia]. }
  cbn [outcome_bind fst snd]. rewrite (feed_one _ end_map_value comma); cycle 1.
  { apply check_length_room. do 3 apply room_append. destruct Hr as [? Hr]. split; [done|lia]. }
  cbn [feed outcome_bind fst snd]. rewrite IH, !append_app; [by rewrite <-?app_assoc|done|].
  do 4 apply room_append. destruct Hr as [? Hr]. split; [done|lia].
Qed.

(** The brackets around the items, and the comma that is taken back. *)
Lemma formats_close v (op cl : list byte) ev (ts : list (list byte)) :
  op ≠ [] → list.last op ≠ Some Byte.x2c →
  (∀ v, formatting_visit fmt_float32 fmt_float64 v ev =
    check_length (append (pop_comma v) cl)) →
  room v (length (op ++ join ts ++ cl)) →
  feed_ [ev] (append v (op ++ texts ts)) = Ok (true, append v (op ++ join ts ++ cl)).
Proof.
  intros Hop Hlast Hev Hr.
  cbn [feed visit formatting_visitor_Visitor outcome_bind]. rewrite Hev.
  assert (pop_comma (append v (op ++ texts ts)) = append v (op ++ join ts)) as ->.
  { destruct ts as [|t ts].
    - simpl. rewrite app_nil_r. unfold pop_comma. rewrite decide_False; [done|]. simpl.
      destruct op as [|b op] using rev_ind; [done|]. rewrite app_assoc, !last_snoc in *. done.
    - rewrite join_suffix, app_assoc. apply pop_comma_append. }
  rewrite append_app, <-app_assoc, check_length_room; done.
Qed.

Lemma length_texts ts : (length (texts ts) ≤ length (join ts) + 1)%nat.
Proof. destruct ts; [simpl; lia|]. rewrite join_suffix, length_app. done. Qed.

Lemma formats_array l : Forall formats l → formats (ARRAY l).
Proof.
  intros Hl v Hr. cbn [events render] in *. pose proof Hr as Hr'.
  rewrite !length_app in Hr'. change (length (chars "[")) with 1%nat in Hr'.
  change (length (chars "]")) with 1%nat in Hr'. destruct Hr' as [Hlim Hr'].
  rewrite (feed_one _ _ (chars "[")).
  2:{ apply check_length_room. split; [done|]. change (length (chars "[")) with 1%nat. lia. }
  rewrite feed_app, formats_items; [|done|].
  2:{ apply room_append. split; [done|]. change (length (chars "[")) with 1%nat.
      pose proof (length_texts (map render l)). lia. }
  cbn [outcome_bind fst snd]. rewrite append_app. by apply formats_close.
Qed.

Lemma formats_map m : Forall (λ kv, formats kv.1 ∧ formats kv.2) m → formats (MAP m).
Proof.
  intros Hm v Hr. cbn [events render] in *. pose proof Hr as Hr'.
  rewrite !length_app in Hr'. change (length (chars "{")) with 1%nat in Hr'.
  change (length (chars "}")) with 1%nat in Hr'. destruct Hr' as [Hlim Hr'].
  match goal with |- context [List.flat_map ?f m ++ [end_map]] => change f with map_events end.
  rewrite (feed_one _ _ (chars "{")).
  2:{ apply check_length_room. split; [done|]. change (length (chars "{")) with 1%nat. lia. }
  rewrite feed_app, formats_pairs; [|done|].
  2:{ apply room_append. split; [done|]. change (length (chars "{")) with 1%nat.
      pose proof (length_texts (map (λ '(k, x), render k ++ chars ":" ++ render x) m)). lia. }
  cbn [outcome_bind fst snd]. rewrite append_app. by apply formats_close.
Qed.

Lemma fmt_uint64_decimal z : 0 ≤ z < 2 ^ 64 → fmt_uint64 z = decimal z.
Proof.
  intros Hz. unfold fmt_uint64, wrap64. rewrite Z.mod_small by done.
  by rewrite write_integer_spec by (split; simpl; lia).
Qed.
Lemma fmt_int64_decimal z : - 2 ^ 63 ≤ z < 2 ^ 63 → fmt_int64 z = decimal z.
Proof.
  intros Hz. unfold fmt_int64, wrap64. rewrite to_signed_mod by lia.
  by rewrite write_integer_spec by (split; simpl; lia).
Qed.

Lemma formats_object o : wf_object o = true → formats o.
Proof.
  induction o using object_nested_ind; intros Hwf; cbn [wf_object] in Hwf;
    try (eapply formats_leaf; [done|]; intros; by apply check_length_room).
  - apply andb_prop in Hwf as [?%Z.leb_le ?%Z.ltb_lt]. eapply formats_leaf; [done|]. intros v Hr.
    cbn [formatting_visit]. rewrite fmt_uint64_decimal by done. by apply check_length_room.
  - apply andb_prop in Hwf as [?%Z.leb_le ?%Z.ltb_lt]. eapply formats_leaf; [done|]. intros v Hr.
    cbn [formatting_visit]. rewrite fmt_int64_decimal by lia. by apply check_length_room.
  - eapply formats_leaf; [done|]. intros v Hr. apply visit_sized_room; [done|].
    cbn [render]. rewrite !length_app. lia.
  - by eapply (formats_sized _ _ s (chars "hex(")).
  - apply andb_prop in Hwf as [_ Hl]. apply formats_array. rewrite forallb_forall in Hl.
    rewrite Forall_forall in *. intros o Ho. auto.
  - apply andb_prop in Hwf as [_ Hm]. apply formats_map. rewrite forallb_forall in Hm.
    rewrite Forall_forall in *. intros [k x] Ho. destruct (H _ Ho) as [Hk Hx].
    specialize (Hm (k, x) Ho). apply andb_prop in Hm as [? ?]. auto.
  - by eapply (formats_sized _ _ c (chars "ext(")).
Qed.
End render.

(** ** Theorems *)

(** A conversion of numbers to look at concrete outputs. *)
Definition digits (z : Z) : list byte := chars (pretty.pretty z).

(** A message whose text is short enough is formatted as [render] says, whatever the text of
    floating-point numbers is. *)
Lemma format_message_renders_aux fmt_float32 fmt_float64 o L :
  wf_object o = true → L < 2 ^ 32 →
  2 * Z.of_nat (length (render fmt_float32 fmt_float64 o)) + 5 ≤ L →
  format_message fmt_float32 fmt_float64 (Some (pack_object o)) L =
  Ok (render fmt_float32 fmt_float64 o).
Proof.
  intros Hwf HL Hlen. unfold format_message, parse, parse_imp. simpl message_data_ops.bytes.
  assert (0 < length (pack_object o))%nat.
  { pose proof (pack_object_nonempty o Hwf). destruct (pack_object o); simpl; [done|lia]. }
  rewrite (proj2 (Z.leb_gt _ _)) by lia.
  pose proof (execute_pack_object (H := formatting_visitor_Visitor fmt_float32 fmt_float64)
    o [] (mk_formatting_visitor [] L) Hwf) as He.
  rewrite app_nil_r, (formats_object fmt_float32 fmt_float64 L HL o) in He by (done || by split).
  destruct (execute _ _ _) as [[[[] off] v]|]; simpl in He; try discriminate.
  injection He as -> ->. cbn [outcome_bind]. by destruct (_ <? _).
Qed.

(** the guard of long strings doubles their size in 32 bits, so a string of 2 GiB passes
    it: the visitor appends all of it, whatever the limit. *)
Theorem format_limit_wraps fmt_float32 fmt_float64 s L :
  Z.of_nat (length s) = 2 ^ 31 → 0 ≤ L →
  ∃ go v, formatting_visit fmt_float32 fmt_float64 (mk_formatting_visitor [] L)
    (visit_str s) = (go, v) ∧ 2 ^ 31 < msg_size v.
Proof.
  intros Hs HL. cbn [formatting_visit]. unfold visit_sized, too_long. rewrite Hs.
  change (wrap64 (msg_size (mk_formatting_visitor [] L) + wrap32 (2 ^ 31 * 2))) with 0.
  cbn [len_limit_]. rewrite (proj2 (Z.ltb_ge _ _)) by lia. unfold check_length.
  match goal with |- context [append _ ?t] =>
    assert (2 ^ 31 < Z.of_nat (length t)) as Ht by (rewrite !length_app; simpl; lia);
    generalize dependent t end. intros t Ht.
  destruct (_ <=? _); do 2 eexists; (split; [done|]); rewrite ?msg_size_append; unfold msg_size;
    simpl; lia.
Qed.

Lemma format_limit_wraps_witness :
  ∃ go v, formatting_visit digits digits (mk_formatting_visitor [] 100)
    (visit_str (replicate (Z.to_nat (2 ^ 31)) Byte.x41)) = (go, v) ∧ 2 ^ 31 < msg_size v.
Proof. apply format_limit_wraps; [rewrite length_replicate; lia|lia]. Defined.
