(* ===== verification/Fmt.v ===== *)
(** The formatting of messages: extern/fmt/include/fmt/format.h and core.h.

    Models [vformat_to], [parse_format_string] with its two loops, [parse_replacement_field],
    [parse_arg_id] and [parse_nonnegative_int], the indexing of arguments, and the
    [format_handler]. How an argument is printed belongs to its type (the specializations of
    [formatter]) and is an interface here. *)

From S2P Require Import Prelude Errors.

Open Scope Z_scope.
Open Scope outcome_scope.

Definition text : Type := list byte.

(** A type that can be formatted: with the default format, and with the format specifiers at
    the head of a text; the latter may use other arguments (dynamic width and precision, with
    the next index as state) and says how many characters it read. *)
Class Formatter (A : Type) := {
  format_default : A → result text;
  format_specs : list A → A → text → Z → result (text * nat * Z);
}.

Definition format_error {A} (what_arg : string) : result A := Throw (std_runtime_error what_arg).

Definition open_brace : byte := Byte.x7b.
Definition close_brace : byte := Byte.x7d.
Definition colon : byte := Byte.x3a.

Definition is_digit (c : byte) : bool := (48 <=? byte_to_Z c) && (byte_to_Z c <=? 57).
Definition is_name_start (c : byte) : bool :=
  ((97 <=? byte_to_Z c) && (byte_to_Z c <=? 122)) ||
  ((65 <=? byte_to_Z c) && (byte_to_Z c <=? 90)) || (byte_to_Z c =? 95).

(** [parse_nonnegative_int], from the second digit on; [value] fits in an [unsigned]. *)
Definition max_int : Z := 2 ^ 31 - 1.
Fixpoint parse_digits (value : Z) (s : text) : Z * text :=
  match s with
  | c :: s' =>
      if is_digit c then
        if max_int / 10 <? value then (max_int + 1, s)
        else parse_digits (value * 10 + (byte_to_Z c - 48)) s'
      else (value, s)
  | [] => (value, [])
  end.
Definition parse_nonnegative_int (s : text) : result (Z * text) :=
  let '(value, s') := parse_digits 0 s in
  if max_int <? value then format_error "number is too big" else Ok (value, s').

(** The identifier of [parse_arg_id]; [begin] is its first character. *)
Fixpoint take_name (s : text) : text * text :=
  match s with
  | c :: s' =>
      if is_name_start c || is_digit c then let '(n, r) := take_name s' in (c :: n, r) else ([], s)
  | [] => ([], [])
  end.

Section format.
Context {A : Type} `{Formatter A} (args : list A).
Context (get_id : text → option Z).    (* the indices of named arguments *)

(** The parse context: [next] is the next automatic index, negative in manual mode. *)
Definition next_arg_id (next : Z) : result (Z * Z) :=
  if 0 <=? next then Ok (next, next + 1)
  else format_error "cannot switch from manual to automatic argument indexing".
Definition check_arg_id (next : Z) : result Z :=
  if 0 <? next then format_error "cannot switch from automatic to manual argument indexing"
  else Ok (-1).

Definition get_arg (id : Z) : result A :=
  match args !! Z.to_nat id with
  | Some a => Ok a
  | None => format_error "argument not found"
  end.

(** [parse_arg_id] with [id_adapter]: the index, what is left, and the next index. *)
Definition parse_arg_id (s : text) (next : Z) : result (Z * text * Z) :=
  match s with
  | [] => format_error "invalid format string"
  | c :: s' =>
      if decide (c = close_brace ∨ c = colon) then
        let! (id, next) := next_arg_id next in Ok (id, s, next)
      else if is_digit c then
        let! (index, rest) :=
          if decide (c = Byte.x30) then Ok (0, s') else parse_nonnegative_int s in
        match rest with
        | d :: _ =>
            if decide (d = close_brace ∨ d = colon) then
              let! next := check_arg_id next in Ok (index, rest, next)
            else format_error "invalid format string"
        | [] => format_error "invalid format string"
        end
      else if negb (is_name_start c) then format_error "invalid format string"
      else
        let '(name, rest) := take_name s in
        match get_id name with
        | Some id => Ok (id, rest, next)
        | None => format_error "argument not found"
        end
  end.

Definition on_replacement_field (id : Z) : result text :=
  let! a := get_arg id in format_default a.
Definition on_format_specs (id : Z) (s : text) (next : Z) : result (text * text * Z) :=
  let! a := get_arg id in
  let! (t, n, next) := format_specs args a s next in
  Ok (t, drop n s, next).

(** [s] follows an opening brace: the text it stands for, what is left, the next index. *)
Definition parse_replacement_field (s : text) (next : Z) : result (text * text * Z) :=
  match s with
  | [] => format_error "invalid format string"
  | c :: s' =>
      if decide (c = close_brace) then
        let! (id, next) := next_arg_id next in
        let! t := on_replacement_field id in
        Ok (t, s', next)
      else if decide (c = open_brace) then Ok ([c], s', next)
      else
        let! (id, rest, next) := parse_arg_id s next in
        match rest with
        | d :: rest' =>
            if decide (d = close_brace) then
              let! t := on_replacement_field id in Ok (t, rest', next)
            else if decide (d = colon) then
              let! (t, rest, next) := on_format_specs id rest' next in
              match rest with
              | d :: rest' =>
                  if decide (d = close_brace) then Ok (t, rest', next)
                  else format_error "unknown format specifier"
              | [] => format_error "unknown format specifier"
              end
            else format_error "missing '}' in format string"
        | [] => format_error "missing '}' in format string"
        end
  end.

(** Output before the rest. *)
Definition prepend (t : text) (m : option (result text)) : option (result text) :=
  match m with
  | Some (Ok r) => Some (Ok (t ++ r))
  | m => m
  end.

(** The loop for short strings; [pending] is the text from [begin] on. *)
Fixpoint parse_short (fuel : nat) (pending : text) (s : text) (next : Z) : option (result text) :=
  match fuel with
  | O => None
  | S fuel =>
      match s with
      | [] => Some (Ok pending)
      | c :: s' =>
          if decide (c = open_brace) then
            match parse_replacement_field s' next with
            | Throw e => Some (Throw e)
            | Ok (t, rest, next) => prepend (pending ++ t) (parse_short fuel [] rest next)
            end
          else if decide (c = close_brace) then
            match s' with
            | d :: rest =>
                if decide (d = close_brace) then
                  prepend (pending ++ [c]) (parse_short fuel [] rest next)
                else Some (format_error "unmatched '}' in format string")
            | [] => Some (format_error "unmatched '}' in format string")
            end
          else parse_short fuel (pending ++ [c]) s' next
      end
  end.

(** [find]: the text before the first [c], and the text from there on. *)
Fixpoint find (c : byte) (s : text) : option (text * text) :=
  match s with
  | [] => None
  | d :: s' =>
      if decide (d = c) then Some ([], s)
      else match find c s' with Some (pre, r) => Some (d :: pre, r) | None => None end
  end.

(** The function object [writer]. *)
Fixpoint write_text (fuel : nat) (s : text) : option (result text) :=
  match fuel with
  | O => None
  | S fuel =>
      match find close_brace s with
      | None => Some (Ok s)
      | Some (pre, r) =>
          match tail r with
          | d :: rest =>
              if decide (d = close_brace) then prepend (pre ++ [close_brace]) (write_text fuel rest)
              else Some (format_error "unmatched '}' in format string")
          | [] => Some (format_error "unmatched '}' in format string")
          end
      end
  end.

(** The loop for long strings. *)
Fixpoint parse_long (fuel : nat) (s : text) (next : Z) : option (result text) :=
  match fuel with
  | O => None
  | S fuel =>
      match s with
      | [] => Some (Ok [])
      | c :: s' =>
          match (if decide (c = open_brace) then Some ([], s)
                 else match find open_brace s' with
                      | Some (pre, r) => Some (c :: pre, r)
                      | None => None
                      end) with
          | None => write_text (S (length s)) s
          | Some (pre, r) =>
              match write_text (S (length pre)) pre with
              | Some (Ok out) =>
                  match parse_replacement_field (tail r) next with
                  | Throw e => Some (Throw e)
                  | Ok (t, rest, next) => prepend (out ++ t) (parse_long fuel rest next)
                  end
              | m => m
              end
          end
      end
  end.

Definition parse_format_string (s : text) : option (result text) :=
  if Z.of_nat (length s) <? 32 then parse_short (S (length s)) [] s 0 else parse_long (S (length s)) s 0.

(** [vformat_to], with its short cut for ["{}"]. *)
Definition vformat (s : text) : option (result text) :=
  if decide (s = [open_brace; close_brace]) then
    Some (match args with
          | a :: _ => format_default a
          | [] => format_error "argument not found"
          end)
  else parse_format_string s.
End format.

(** ** The two loops agree *)

Lemma prepend_prepend t t' m : prepend t (prepend t' m) = prepend (t ++ t') m.
Proof. destruct m as [[r|e]|]; simpl; by rewrite ?app_assoc. Qed.
Lemma prepend_nil m : prepend [] m = m.
Proof. by destruct m as [[r|e]|]. Qed.

Lemma parse_digits_rest v s v' r : parse_digits v s = (v', r) → (length r ≤ length s)%nat.
Proof.
  revert v. induction s as [|c s IH]; intros v; simpl; [by intros [= _ <-]|].
  destruct (is_digit c); [|by intros [= _ <-]]. destruct (_ <? _); [by intros [= _ <-]|].
  intros Hp%IH. lia.
Qed.
Lemma take_name_rest s n r : take_name s = (n, r) → (length r ≤ length s)%nat.
Proof.
  revert n. induction s as [|c s IH]; intros n; simpl; [by intros [= _ <-]|].
  destruct (_ || _); [|by intros [= _ <-]]. destruct (take_name s) as [m r'] eqn:E.
  intros [= _ <-]. specialize (IH m eq_refl). lia.
Qed.

Lemma find_Some c s pre r : find c s = Some (pre, r) → s = pre ++ c :: tail r ∧ c ∉ pre.
Proof.
  revert pre. induction s as [|d s IH]; intros pre; simpl; [done|].
  destruct (decide (d = c)) as [->|Hne].
  - intros [= <- <-]. split; [done|apply not_elem_of_nil].
  - destruct (find c s) as [[pre' r']|] eqn:E; [|done]. intros [= <- ->].
    destruct (IH pre' eq_refl) as [-> Hn]. split; [done|]. apply not_elem_of_cons. by split.
Qed.
Lemma find_None c s : find c s = None → c ∉ s.
Proof.
  induction s as [|d s IH]; simpl; intros Hf; [apply not_elem_of_nil|].
  destruct (decide (d = c)) as [->|Hne]; [done|].
  destruct (find c s) as [[pre' r']|]; [done|]. apply not_elem_of_cons. split; [done|by apply IH].
Qed.

Lemma outcome_bind_Ok {B C} (m : result B) (k : B → result C) c :
  outcome_bind m k = Ok c → ∃ b, m = Ok b ∧ k b = Ok c.
Proof. destruct m as [b|e]; [|done]. eauto. Qed.

Section loops.
Context {A : Type} `{Formatter A} (args : list A) (get_id : text → option Z).
Abbreviation field := (parse_replacement_field args get_id).
Abbreviation short := (parse_short args get_id).
Abbreviation long := (parse_long args get_id).

Lemma parse_arg_id_rest s next id r next' :
  parse_arg_id get_id s next = Ok (id, r, next') → (length r ≤ length s)%nat.
Proof.
  destruct s as [|c s]; [done|]. cbn [parse_arg_id]. destruct (decide _).
  { intros ([i n] & _ & [= _ <- _])%outcome_bind_Ok. done. }
  destruct (is_digit c).
  - intros ([i rest] & Hi & Hr)%outcome_bind_Ok. destruct rest as [|d rest]; [done|].
    destruct (decide (d = close_brace ∨ d = colon)); [|done].
    apply outcome_bind_Ok in Hr as (nx & _ & [= _ <- _]).
    destruct (decide (c = Byte.x30)); [injection Hi as _ ->; simpl; lia|].
    unfold parse_nonnegative_int in Hi. destruct (parse_digits 0 (c :: s)) as [v r'] eqn:Ed.
    destruct (_ <? _); [done|]. injection Hi as _ ->. by apply parse_digits_rest in Ed.
  - destruct (negb _); [done|]. destruct (take_name (c :: s)) as [m r'] eqn:Et.
    destruct (get_id m); [|done]. intros [= _ <- _]. by apply take_name_rest in Et.
Qed.

(** A replacement field reads at least one character. *)
Lemma field_rest s next t r next' : field s next = Ok (t, r, next') → (length r < length s)%nat.
Proof.
  destruct s as [|c s]; [done|]. cbn [parse_replacement_field]. destruct (decide _).
  { intros ([i n] & _ & (x & _ & [= _ <- _])%outcome_bind_Ok)%outcome_bind_Ok. simpl. lia. }
  destruct (decide _); [intros [= _ <- _]; simpl; lia|].
  intros ([[i rest] nx] & Hi & Hr)%outcome_bind_Ok. apply parse_arg_id_rest in Hi.
  destruct rest as [|d rest]; [done|]. simpl in Hi |- *. destruct (decide (d = close_brace)).
  { apply outcome_bind_Ok in Hr as (x & _ & [= _ <- _]). lia. }
  destruct (decide (d = colon)); [|done]. apply outcome_bind_Ok in Hr as ([[x rest'] n'] & Hx & Hr).
  destruct rest' as [|d' rest']; [done|]. destruct (decide (d' = close_brace)); [|done]. injection Hr as _ <- _.
  unfold on_format_specs in Hx. apply outcome_bind_Ok in Hx as (a & _ & Hx).
  apply outcome_bind_Ok in Hx as ([[y k] n''] & _ & [= _ Hd _]).
  apply (f_equal length) in Hd. rewrite length_drop in Hd. simpl in Hd. lia.
Qed.

Lemma short_pending fuel pending s next :
  short fuel pending s next = prepend pending (short fuel [] s next).
Proof.
  revert pending s next. induction fuel as [|fuel IH]; intros pending s next; [done|]. cbn [parse_short].
  destruct s as [|c s]; [simpl; by rewrite app_nil_r|]. destruct (decide _) as [Hc|Hc].
  - destruct (field s next) as [[[t r] n]|ex]; [|done]. by rewrite prepend_prepend.
  - destruct (decide _) as [Hc'|Hc'].
    + destruct s as [|d s]; [done|]. destruct (decide _) as [Hd|Hd]; [|done]. by rewrite prepend_prepend.
    + rewrite IH, (IH ([] ++ [c])), prepend_prepend. done.
Qed.

(** Fuel does not matter when there is enough. *)
Lemma short_fuel fuel fuel' s next :
  (length s < fuel)%nat → (length s < fuel')%nat → short fuel [] s next = short fuel' [] s next.
Proof.
  revert fuel' s next. induction fuel as [|fuel IH]; intros fuel' s next Hf Hf'; [lia|].
  destruct fuel' as [|fuel']; [lia|]. cbn [parse_short]. destruct s as [|c s]; [done|]. simpl in Hf, Hf'.
  destruct (decide _) as [Hc|Hc].
  - destruct (field s next) as [[[t r] n]|ex] eqn:Ef; [|done]. apply field_rest in Ef.
    rewrite (IH fuel'); [done|lia..].
  - destruct (decide _) as [Hc'|Hc'].
    + destruct s as [|d s]; [done|]. destruct (decide _) as [Hd|Hd]; [|done]. simpl in Hf, Hf'. rewrite (IH fuel'); [done|lia..].
    + rewrite (short_pending fuel), (short_pending fuel'), (IH fuel'); [done|lia..].
Qed.

(** The reference: one pass from left to right. *)
Definition one_pass (s : text) (next : Z) : option (result text) := short (S (length s)) [] s next.
#[local] Arguments one_pass : simpl never.

Lemma one_pass_eq s next :
  one_pass s next =
  match s with
  | [] => Some (Ok [])
  | c :: s' =>
      if decide (c = open_brace) then
        match field s' next with
        | Throw e => Some (Throw e)
        | Ok (t, rest, next) => prepend t (one_pass rest next)
        end
      else if decide (c = close_brace) then
        match s' with
        | d :: rest =>
            if decide (d = close_brace) then prepend [c] (one_pass rest next)
            else Some (format_error "unmatched '}' in format string")
        | [] => Some (format_error "unmatched '}' in format string")
        end
      else prepend [c] (one_pass s' next)
  end.
Proof.
  unfold one_pass at 1. cbn [parse_short]. destruct s as [|c s]; [done|]. cbn [length]. destruct (decide _) as [Hc|Hc].
  - destruct (field s next) as [[[t r] n]|ex] eqn:Ef; [|done]. apply field_rest in Ef.
    unfold one_pass. by rewrite (short_fuel (S (length s)) (S (length r))) by (simpl; lia).
  - destruct (decide _) as [Hc'|Hc'].
    + destruct s as [|d s]; [done|]. destruct (decide _) as [Hd|Hd]; [|done].
      unfold one_pass. by rewrite (short_fuel (S (length (d :: s))) (S (length s))) by (simpl; lia).
    + by rewrite short_pending.
Qed.

Lemma one_pass_total s next : one_pass s next ≠ None.
Proof.
  remember (length s) as k eqn:Hk. revert s next Hk. induction (lt_wf k) as [k _ IH]. intros s next ->.
  assert (∀ t r n, (length r < length s)%nat → prepend t (one_pass r n) ≠ None) as Hrec.
  { intros t r n Hlt. specialize (IH (length r) Hlt r n eq_refl). by destruct (one_pass r n) as [[]|]. }
  rewrite one_pass_eq. destruct s as [|c s]; [done|]. destruct (decide _) as [Hc|Hc].
  - destruct (field s next) as [[[t r] n]|ex] eqn:Ef; [|done]. apply field_rest in Ef. apply Hrec. simpl. lia.
  - destruct (decide _) as [Hc'|Hc']; [|apply Hrec; simpl; lia]. destruct s as [|d s]; [done|].
    destruct (decide _) as [Hd|Hd]; [|done]. apply Hrec. simpl. lia.
Qed.

(** Text without braces. *)
Lemma one_pass_plain pre rest next :
  open_brace ∉ pre → close_brace ∉ pre → one_pass (pre ++ rest) next = prepend pre (one_pass rest next).
Proof.
  induction pre as [|c pre IH]; intros Ho Hc; [by rewrite prepend_nil|].
  apply not_elem_of_cons in Ho as [Ho Ho']. apply not_elem_of_cons in Hc as [Hc Hc'].
  simpl. rewrite one_pass_eq, !decide_False by done. by rewrite IH, prepend_prepend.
Qed.

(** Text without opening braces, up to the end or to an opening brace. *)
Lemma one_pass_text fuel pre rest next :
  (length pre < fuel)%nat → open_brace ∉ pre → head rest = None ∨ head rest = Some open_brace →
  one_pass (pre ++ rest) next =
  match write_text fuel pre with
  | Some (Ok out) => prepend out (one_pass rest next)
  | m => m
  end.
Proof.
  revert pre. induction fuel as [|fuel IH]; intros pre Hf Ho Hr; [lia|]. cbn [write_text].
  destruct (find close_brace pre) as [[p r]|] eqn:E.
  2: { apply find_None in E. by apply one_pass_plain. }
  apply find_Some in E as [-> Hp]. apply not_elem_of_app in Ho as [Ho Ho'].
  apply not_elem_of_cons in Ho' as [_ Ho']. rewrite length_app in Hf. simpl in Hf.
  rewrite <-app_assoc, one_pass_plain by done. change ((close_brace :: tail r) ++ rest) with (close_brace :: (tail r ++ rest)).
  rewrite (one_pass_eq (close_brace :: _)), decide_False, decide_True by done.
  destruct (tail r) as [|d r'].
  - destruct rest as [|b rest]; [done|]. destruct Hr as [|[= ->]]; [done|]. done.
  - simpl. apply not_elem_of_cons in Ho' as [_ Ho']. destruct (decide (d = close_brace)) as [Hd|Hd]; [|done].
    simpl in Hf. rewrite prepend_prepend, IH by (done || lia).
    destruct (write_text fuel r') as [[out|e]|]; simpl; by rewrite ?prepend_prepend.
Qed.

Lemma write_text_eq s next : open_brace ∉ s → write_text (S (length s)) s = one_pass s next.
Proof.
  intros Hs. pose proof (one_pass_text (S (length s)) s [] next) as Ht. rewrite app_nil_r in Ht.
  rewrite Ht; [|lia|done|by left]. destruct (write_text _ s) as [[out|e]|]; [|done..].
  simpl. by rewrite app_nil_r.
Qed.

Lemma long_eq fuel s next : (length s < fuel)%nat → long fuel s next = one_pass s next.
Proof.
  revert s next. induction fuel as [|fuel IH]; intros s next Hf; [lia|]. cbn [parse_long].
  destruct s as [|c s]; [done|].
  destruct (if decide (c = open_brace) then _ else _) as [[pre r]|] eqn:E.
  - assert (c :: s = pre ++ open_brace :: tail r ∧ open_brace ∉ pre) as [Hs Hpre].
    { destruct (decide (c = open_brace)) as [->|Hc].
      - injection E as <- <-. split; [done|apply not_elem_of_nil].
      - destruct (find open_brace s) as [[p r']|] eqn:Ef; [|done]. injection E as <- ->.
        apply find_Some in Ef as [-> Hp]. split; [done|]. apply not_elem_of_cons. by split. }
    rewrite Hs in Hf |- *. rewrite length_app in Hf. simpl in Hf.
    rewrite (one_pass_text (S (length pre))) by (auto || lia).
    destruct (write_text _ pre) as [[out|ex]|]; [|done..].
    rewrite one_pass_eq, decide_True by done.
    destruct (field (tail r) next) as [[[t rest] n']|ex] eqn:Ef; [|done]. apply field_rest in Ef.
    by rewrite prepend_prepend, IH by lia.
  - rewrite (write_text_eq _ next); [done|]. destruct (decide (c = open_brace)) as [|Hc]; [done|].
    destruct (find open_brace s) as [[p r']|] eqn:Ef; [done|]. apply find_None in Ef.
    apply not_elem_of_cons. by split.
Qed.

Lemma vformat_one_pass s : vformat args get_id s = one_pass s 0.
Proof.
  unfold vformat, parse_format_string. destruct (decide _) as [->|Hs].
  - rewrite one_pass_eq. simpl. unfold on_replacement_field, get_arg. simpl.
    destruct args as [|a l]; simpl; [done|]. destruct (format_default a); simpl; [|done]. by rewrite app_nil_r.
  - destruct (_ <? 32); [done|]. apply long_eq. lia.
Qed.
End loops.

(** Without arguments: doubled braces stand for single ones, others are errors. *)
Fixpoint unescape (s : text) : option text :=
  match s with
  | [] => Some []
  | c :: s' =>
      if decide (c = open_brace ∨ c = close_brace) then
        match s' with
        | d :: s'' => if decide (d = c) then (c ::.) <$> unescape s'' else None
        | [] => None
        end
      else (c ::.) <$> unescape s'
  end.

#[local] Arguments one_pass : simpl never.

Section no_arguments.
Context {A : Type} `{Formatter A}.

Lemma field_no_arguments s next :
  match s with
  | c :: s' =>
      if decide (c = open_brace) then
        parse_replacement_field (A := A) [] (λ _, None) s next = Ok ([c], s', next)
      else ∃ e, parse_replacement_field (A := A) [] (λ _, None) s next = Throw e
  | [] => ∃ e, parse_replacement_field (A := A) [] (λ _, None) s next = Throw e
  end.
Proof.
  destruct s as [|c s]; [by eexists|]. cbn [parse_replacement_field].
  destruct (decide (c = open_brace)) as [->|Ho]; [by rewrite decide_False|].
  assert (∀ id, get_arg (A := A) [] id = format_error "argument not found") as Hget by done.
  unfold on_replacement_field, on_format_specs.
  destruct (decide (c = close_brace)).
  { destruct (next_arg_id next) as [[id n']|e']; [|by eexists]. simpl. by eexists. }
  destruct (parse_arg_id (λ _, None) (c :: s) next) as [[[id rest] n']|e']; simpl; [|by eexists].
  destruct rest as [|d rest]; [by eexists|]. repeat (destruct (decide _); [by eexists|]). by eexists.
Qed.

Lemma one_pass_no_arguments s next :
  match unescape s with
  | Some t => one_pass (A := A) [] (λ _, None) s next = Some (Ok t)
  | None => ∃ e, one_pass (A := A) [] (λ _, None) s next = Some (Throw e)
  end.
Proof.
  remember (length s) as k eqn:Hk. revert s next Hk. induction (lt_wf k) as [k _ IH]. intros s next ->.
  assert (∀ c r, (length r < length s)%nat →
    match (c ::.) <$> unescape r with
    | Some t => prepend [c] (one_pass (A := A) [] (λ _, None) r next) = Some (Ok t)
    | None => ∃ e, prepend [c] (one_pass (A := A) [] (λ _, None) r next) = Some (Throw e)
    end) as Hrec.
  { intros c r Hlt. specialize (IH (length r) Hlt r next eq_refl).
    destruct (unescape r) as [t|]; simpl; [by rewrite IH|]. destruct IH as [e ->]. by exists e. }
  rewrite one_pass_eq. destruct s as [|c s]; [done|]. cbn [unescape].
  destruct (decide (c = open_brace)) as [->|Ho].
  - rewrite decide_True by (by left). pose proof (field_no_arguments s next) as Hf.
    destruct s as [|d s]; [destruct Hf as [e ->]; by exists e|]. destruct (decide (d = open_brace)) as [->|Hd].
    + rewrite Hf. apply Hrec. simpl. lia.
    + destruct Hf as [e ->]. by exists e.
  - destruct (decide (c = close_brace)) as [->|Hc].
    + rewrite decide_True by (by right). destruct s as [|d s]; [by eexists|].
      destruct (decide (d = close_brace)); [apply Hrec; simpl; lia|by eexists].
    + rewrite decide_False by naive_solver. apply Hrec. simpl. lia.
Qed.
End no_arguments.

(** the fast path of the formatter does what the plain one does: for every format string,
    argument list and argument index, the loop for long strings, which looks for braces with
    [memchr] in two passes, gives the same text or the same error as the loop for short strings;
    so formatting, with its short cut for ["{}"], is that single pass from left to right, and it
    always terminates. *)
Theorem fmt_loops_agree {A} `{Formatter A} (args : list A) get_id s next :
  parse_long args get_id (S (length s)) s next = parse_short args get_id (S (length s)) [] s next ∧
  vformat args get_id s = parse_short args get_id (S (length s)) [] s 0 ∧
  vformat args get_id s ≠ None.
Proof.
  split; [|split].
  - apply long_eq. lia.
  - apply vformat_one_pass.
  - rewrite vformat_one_pass. apply one_pass_total.
Qed.
