(* ===== verification/FmtSpecs.v ===== *)
(** Format specifiers and the formatting of arguments: extern/fmt/include/fmt/format.h.

    Models [parse_format_specs] with its handlers ([specs_setter], [specs_checker],
    [specs_handler]), [write_padded], [write_int], [int_writer] and [arg_formatter_base], and
    makes the arguments of fmt an instance of the interface of [Fmt]. Floating-point numbers,
    the types of the user and the locale are parameters; 128-bit integers and [long double] are
    left out. *)

From S2P Require Import Prelude Errors FmtInt Fmt.

Open Scope Z_scope.
Open Scope outcome_scope.

(** ** Specifiers *)

Inductive align_t : Type := align_none | align_left | align_right | align_center | align_numeric.
Inductive sign_t : Type := sign_none | sign_minus | sign_plus | sign_space.
#[export] Instance align_eq_decision : EqDecision align_t.
Proof. solve_decision. Defined.
#[export] Instance sign_eq_decision : EqDecision sign_t.
Proof. solve_decision. Defined.

(** [basic_format_specs]; the type 0 is no type. *)
Record specs := mk_specs {
  width_ : Z;
  precision : Z;
  type_ : byte;
  align : align_t;
  sign : sign_t;
  alt : bool;
  fill_ : text;
}.
Definition default_specs : specs := mk_specs 0 (-1) Byte.x00 align_none sign_none false [Byte.x20].

(** [specs_setter] *)
Definition set_align (p : specs) (a : align_t) : specs :=
  mk_specs (width_ p) (precision p) (type_ p) a (sign p) (alt p) (fill_ p).
Definition set_fill (p : specs) (s : text) : specs :=
  mk_specs (width_ p) (precision p) (type_ p) (align p) (sign p) (alt p) s.
Definition set_sign (p : specs) (s : sign_t) : specs :=
  mk_specs (width_ p) (precision p) (type_ p) (align p) s (alt p) (fill_ p).
Definition set_alt (p : specs) : specs :=
  mk_specs (width_ p) (precision p) (type_ p) (align p) (sign p) true (fill_ p).
(** [on_zero] replaces the first byte of the fill, whatever its size. *)
Definition set_zero (p : specs) : specs := set_fill (set_align p align_numeric) (Byte.x30 :: tail (fill_ p)).
Definition set_width (p : specs) (w : Z) : specs :=
  mk_specs w (precision p) (type_ p) (align p) (sign p) (alt p) (fill_ p).
Definition set_precision (p : specs) (n : Z) : specs :=
  mk_specs (width_ p) n (type_ p) (align p) (sign p) (alt p) (fill_ p).
Definition set_type (p : specs) (c : byte) : specs :=
  mk_specs (width_ p) (precision p) c (align p) (sign p) (alt p) (fill_ p).

(** ** Arguments *)

(** A C string has an address; a null pointer is 0. *)
Inductive fmt_arg (K : Type) : Type :=
| int_arg (z : Z)
| uint_arg (z : Z)
| long_long_arg (z : Z)
| ulong_long_arg (z : Z)
| bool_arg (b : bool)
| char_arg (c : byte)
| float_arg (bits : Z)
| double_arg (bits : Z)
| cstring_arg (p : Z) (s : text)
| string_arg (s : text)
| pointer_arg (p : Z)
| custom_arg (k : K).
Arguments int_arg {K} z.
Arguments uint_arg {K} z.
Arguments long_long_arg {K} z.
Arguments ulong_long_arg {K} z.
Arguments bool_arg {K} b.
Arguments char_arg {K} c.
Arguments float_arg {K} bits.
Arguments double_arg {K} bits.
Arguments cstring_arg {K} p s.
Arguments string_arg {K} s.
Arguments pointer_arg {K} p.
Arguments custom_arg {K} k.

Section specs_parser.
Context {K : Type}.
Implicit Types (a : fmt_arg K) (p : specs).

Definition is_integral_type a : bool :=
  match a with
  | int_arg _ | uint_arg _ | long_long_arg _ | ulong_long_arg _ | bool_arg _ | char_arg _ => true
  | _ => false
  end.
Definition is_arithmetic_type a : bool :=
  is_integral_type a || match a with float_arg _ | double_arg _ => true | _ => false end.

(** [numeric_specs_checker] *)
Definition require_numeric_argument a : result () :=
  if is_arithmetic_type a then Ok () else format_error "format specifier requires numeric argument".
Definition check_sign a : result () :=
  let! _ := require_numeric_argument a in
  if is_integral_type a && negb match a with int_arg _ | long_long_arg _ | char_arg _ => true | _ => false end
  then format_error "format specifier requires signed argument" else Ok ().
Definition check_precision a : result () :=
  if is_integral_type a || match a with pointer_arg _ => true | _ => false end
  then format_error "precision not allowed for this argument type" else Ok ().

(** ** Parsing *)

Definition code_point_lengths : list nat :=
  [1; 1; 1; 1; 1; 1; 1; 1; 1; 1; 1; 1; 1; 1; 1; 1;
   0; 0; 0; 0; 0; 0; 0; 0; 2; 2; 2; 2; 3; 3; 4; 0]%nat.
Definition code_point_length (c : byte) : nat :=
  let len := nth (Z.to_nat (Z.shiftr (byte_to_Z c) 3)) code_point_lengths 0%nat in
  (len + (if (len =? 0)%nat then 1 else 0))%nat.

Definition align_of (c : byte) : option align_t :=
  if decide (c = Byte.x3c) then Some align_left
  else if decide (c = Byte.x3e) then Some align_right
  else if decide (c = Byte.x5e) then Some align_center
  else None.

(** [parse_align]: first behind the code point that may be a fill, then at the beginning. *)
Definition parse_align (s : text) p : result (specs * text) :=
  match s with
  | [] => Ok (p, s)
  | c :: s' =>
      let n := code_point_length c in
      match s !! n ≫= align_of with
      | Some al =>
          if decide (c = open_brace) then format_error "invalid fill character '{'"
          else Ok (set_align (set_fill p (take n s)) al, drop (S n) s)
      | None =>
          match align_of c with
          | Some al => Ok (set_align p al, s')
          | None => Ok (p, s)
          end
      end
  end.

Definition parse_sign a (s : text) p : result (specs * text) :=
  match s with
  | [] => Ok (p, s)
  | c :: s' =>
      if decide (c = Byte.x2b) then let! _ := check_sign a in Ok (set_sign p sign_plus, s')
      else if decide (c = Byte.x2d) then let! _ := check_sign a in Ok (set_sign p sign_minus, s')
      else if decide (c = Byte.x20) then let! _ := check_sign a in Ok (set_sign p sign_space, s')
      else Ok (p, s)
  end.

(** A flag: one character that asks for a number. *)
Definition parse_flag (flag : byte) (set : specs → specs) a (s : text) p : result (specs * text) :=
  match s with
  | c :: s' =>
      if decide (c = flag) then let! _ := require_numeric_argument a in Ok (set p, s') else Ok (p, s)
  | [] => Ok (p, s)
  end.

(** [get_dynamic_spec] with [width_checker] or [precision_checker]. *)
Definition get_dynamic_spec (negative not_integer : string) a : result Z :=
  match a with
  | int_arg z | uint_arg z | long_long_arg z | ulong_long_arg z =>
      if z <? 0 then format_error negative
      else if max_int <? z then format_error "number is too big" else Ok z
  | _ => format_error not_integer
  end.

Context (args : list (fmt_arg K)) (get_id : text → option Z).

(** The number in braces of [parse_width] and [parse_precision]; [s] follows the brace. *)
Definition parse_dynamic (negative not_integer : string) (s : text) (next : Z) : result (Z * text * Z) :=
  match s with
  | [] => format_error "invalid format string"
  | _ =>
      let! (id, rest, next) := parse_arg_id get_id s next in
      let! a := get_arg args id in
      let! z := get_dynamic_spec negative not_integer a in
      match rest with
      | c :: rest => if decide (c = close_brace) then Ok (z, rest, next) else format_error "invalid format string"
      | [] => format_error "invalid format string"
      end
  end.

Definition parse_width (s : text) (next : Z) p : result (specs * text * Z) :=
  match s with
  | c :: s' =>
      if is_digit c then
        let! (w, rest) := parse_nonnegative_int s in Ok (set_width p w, rest, next)
      else if decide (c = open_brace) then
        let! (w, rest, next) := parse_dynamic "negative width" "width is not integer" s' next in
        Ok (set_width p w, rest, next)
      else Ok (p, s, next)
  | [] => Ok (p, s, next)
  end.

(** [s] follows the period. *)
Definition parse_precision a (s : text) (next : Z) p : result (specs * text * Z) :=
  match s with
  | c :: s' =>
      if is_digit c then
        let! (n, rest) := parse_nonnegative_int s in
        let! _ := check_precision a in Ok (set_precision p n, rest, next)
      else if decide (c = open_brace) then
        let! (n, rest, next) := parse_dynamic "negative precision" "precision is not integer" s' next in
        let! _ := check_precision a in Ok (set_precision p n, rest, next)
      else format_error "missing precision specifier"
  | [] => format_error "missing precision specifier"
  end.

(** The rest of [parse_format_specs] after the width. *)
Definition parse_type (s : text) p : specs * text :=
  match s with
  | c :: s' => if decide (c = close_brace) then (p, s) else (set_type p c, s')
  | [] => (p, s)
  end.

Definition parse_format_specs a (s : text) (next : Z) p : result (specs * text * Z) :=
  let! (p, s) := parse_align s p in
  let! (p, s) := parse_sign a s p in
  let! (p, s) := parse_flag Byte.x23 set_alt a s p in
  let! (p, s) := parse_flag Byte.x30 set_zero a s p in
  let! (p, s, next) := parse_width s next p in
  let! (p, s, next) :=
    match s with
    | c :: s' => if decide (c = Byte.x2e) then parse_precision a s' next p else Ok (p, s, next)
    | [] => Ok (p, s, next)
    end in
  let '(p, s) := parse_type s p in
  Ok (p, s, next).
End specs_parser.

(** ** Padding *)

(** [fill] *)
Definition fill_n (n : Z) (s : text) : text := concat (replicate (Z.to_nat n) s).

(** [left_padding_shifts] and [right_padding_shifts] *)
Definition padding_shift (default_right : bool) (al : align_t) : Z :=
  match al with
  | align_none => if default_right then 0 else 31
  | align_left => 31
  | align_right => 0
  | align_center => 1
  | align_numeric => 0
  end.

Definition write_padded (default_right : bool) (p : specs) (width : Z) (s : text) : text :=
  let padding := if width <? width_ p then width_ p - width else 0 in
  let left_padding := Z.shiftr padding (padding_shift default_right (align p)) in
  fill_n left_padding (fill_ p) ++ s ++ fill_n (padding - left_padding) (fill_ p).

(** ** Integers *)

(** [write_int_data] *)
Definition write_int_data (num_digits prefix_size : Z) (p : specs) : Z * Z :=
  let size := prefix_size + num_digits in
  if decide (align p = align_numeric) then
    if size <? width_ p then (width_ p, width_ p - size) else (size, 0)
  else if num_digits <? precision p then (prefix_size + precision p, precision p - num_digits)
  else (size, 0).
Definition write_int (num_digits : Z) (prefix : text) (p : specs) (digits : text) : text :=
  let '(size, padding) := write_int_data num_digits (Z.of_nat (length prefix)) p in
  write_padded true p size (prefix ++ fill_n padding [Byte.x30] ++ digits).

(** The constructor of [int_writer]. *)
Definition int_prefix (p : specs) (value : Z) : text :=
  if value <? 0 then [minus]
  else match sign p with
       | sign_plus => [Byte.x2b]
       | sign_space => [Byte.x20]
       | sign_none | sign_minus => []
       end.

Section int_writer.
Context (w : width) (p : specs) (value : Z).
Abbreviation abs_value := (magnitude w value).

Definition on_dec : option text :=
  num_digits ← count_digits w abs_value;
  s ← decimal_text (max_digits w) abs_value num_digits;
  Some (write_int num_digits (int_prefix p value) p s).
(** [on_hex], [on_bin] and [on_oct]: in a radix that is a power of two. *)
Definition on_bits (bits : Z) (upper : bool) (prefix : Z → text) : option text :=
  num_digits ← count_digits_bits (S (Z.to_nat (Z.log2 abs_value))) bits 0 abs_value;
  s ← uint_text (bits_of w) bits upper abs_value num_digits;
  Some (write_int num_digits (int_prefix p value ++ prefix num_digits) p s).
Definition alt_prefix (num_digits : Z) : text := if alt p then [Byte.x30; type_ p] else [].
Definition oct_prefix (num_digits : Z) : text :=
  if alt p && (precision p <=? num_digits) && negb (abs_value =? 0) then [Byte.x30] else [].
Definition on_hex : option text := on_bits 4 (negb (bool_decide (type_ p = Byte.x78))) alt_prefix.
Definition on_bin : option text := on_bits 1 false alt_prefix.
Definition on_oct : option text := on_bits 3 false oct_prefix.
Definition on_chr : option text := Some [Z_to_byte abs_value].
End int_writer.

(** [on_num]: the digits in groups, as the locale has them: [grouping] are the sizes of the
    groups from the right, [sep] separates them. *)
Definition max_char : Z := 127.
Fixpoint num_size (size n : Z) (group : list Z) : Z * Z * bool :=
  match group with
  | [] => (size, n, true)
  | g :: group' =>
      if (g <? n) && (0 <? g) && negb (g =? max_char) then num_size (size + 1) (n - g) group'
      else (size, n, false)
  end.
Fixpoint num_loop (fuel : nat) (digits : text) (i : Z) (sep : byte) (b : cells) (q digit_index : Z)
    (group : list Z) : option (cells * Z) :=
  match fuel with
  | O => None
  | S fuel =>
      if i <=? 0 then Some (b, q)
      else
        c ← digits !! Z.to_nat i;
        b ← store b q c;
        let q := q - 1 in
        g ← head group;
        if g <=? 0 then num_loop fuel digits (i - 1) sep b q digit_index group
        else
          let digit_index := digit_index + 1 in
          if negb (digit_index mod g =? 0) || (g =? max_char) then
            num_loop fuel digits (i - 1) sep b q digit_index group
          else
            let '(digit_index, group) :=
              match tail group with [] => (digit_index, group) | group' => (0, group') end in
            b ← store b q sep;
            num_loop fuel digits (i - 1) sep b (q - 1) digit_index group
  end.
Definition num_total (num_digits : Z) (grouping : list Z) : option Z :=
  match num_size num_digits num_digits grouping, list.last grouping with
  | (size, n, true), Some back => if back =? 0 then None else Some (size + Z.quot (n - 1) back)
  | (size, _, false), Some _ => Some size
  | _, None => None
  end.
Definition on_num (grouping : list Z) (sep : byte) (w : width) (p : specs) (value : Z) : option text :=
  if decide (grouping = []) then on_dec w p value
  else if decide (sep = Byte.x00) then on_dec w p value
  else
    num_digits ← count_digits w (magnitude w value);
    size ← num_total num_digits grouping;
    '(digits, _, _) ← format_decimal (replicate 40 None) 0 (magnitude w value) num_digits;
    digits ← read_cells (take (Z.to_nat num_digits) digits);
    let prefix := int_prefix p value in
    let size := size + Z.of_nat (length prefix) in
    '(b, q) ← num_loop (S (Z.to_nat num_digits)) digits (num_digits - 1) sep
      (replicate (Z.to_nat size) None) (size - 1) 0 grouping;
    c ← head digits;
    b ← store b q c;
    b ← if decide (prefix = []) then Some b else store b (q - 1) minus;
    s ← read_cells b;
    Some (write_padded true p size s).

(** ** Other arguments *)

(** [count_code_points] *)
Definition count_code_points (s : text) : Z :=
  Z.of_nat (length (filter (λ c, Z.land (byte_to_Z c) 0xc0 ≠ 0x80) s)).
(** [write(OutputIt, basic_string_view, specs)]: the precision counts bytes. *)
Definition write_string (p : specs) (s : text) : text :=
  let s := if (0 <=? precision p) && (precision p <? Z.of_nat (length s))
    then take (Z.to_nat (precision p)) s else s in
  write_padded false p (if width_ p =? 0 then 0 else count_code_points s) s.
Definition write_ptr (p : option specs) (value : Z) : option text :=
  num_digits ← count_digits_bits (S (Z.to_nat (Z.log2 value))) 4 0 value;
  s ← uint_text 64 4 false value num_digits;
  let s := [Byte.x30; Byte.x78] ++ s in
  Some (match p with Some p => write_padded true p (num_digits + 2) s | None => s end).
Definition bool_text (b : bool) : text := String.list_byte_of_string (if b then "true" else "false").

Section formatter.
Context {K : Type}.
Context (write_float : bool → Z → specs → result text).   (* of a double or a float *)
Context (custom_default : K → result text) (custom_specs : K → text → Z → result (text * nat * Z)).
Context (grouping : list Z) (sep : byte) (get_id : text → option Z).

(** The characters of an operation that is defined, which the theorems show. *)
Definition written (o : option text) : result text := Ok (default [] o).

(** [handle_int_type_spec] with [int_writer] *)
Definition write_int_arg (w : width) (p : specs) (value : Z) : result text :=
  let t := type_ p in
  if decide (t = Byte.x00 ∨ t = Byte.x64) then written (on_dec w p value)
  else if decide (t = Byte.x78 ∨ t = Byte.x58) then written (on_hex w p value)
  else if decide (t = Byte.x62 ∨ t = Byte.x42) then written (on_bin w p value)
  else if decide (t = Byte.x6f) then written (on_oct w p value)
  else if decide (t = Byte.x4c) then written (on_num grouping sep w p value)
  else if decide (t = Byte.x63) then written (on_chr w value)
  else format_error "invalid type specifier".

Definition write_cstring (p : option specs) (addr : Z) (s : text) : result text :=
  if addr =? 0 then format_error "string pointer is null"
  else Ok (match p with Some p => write_string p s | None => s end).

(** [arg_formatter_base] with specifiers *)
Definition arg_formatter (p : specs) (a : fmt_arg K) : result text :=
  let t := type_ p in
  match a with
  | int_arg z | uint_arg z => write_int_arg w32 p z
  | long_long_arg z | ulong_long_arg z => write_int_arg w64 p z
  | bool_arg b =>
      if decide (t = Byte.x00) then Ok (write_string p (bool_text b))
      else write_int_arg w32 p (if b then 1 else 0)
  | char_arg c =>
      if decide (t ≠ Byte.x00 ∧ t ≠ Byte.x63) then write_int_arg w32 p (to_signed 8 (byte_to_Z c))
      else if decide (align p = align_numeric ∨ sign p ≠ sign_none ∨ alt p = true)
      then format_error "invalid format specifier for char"
      else Ok (write_padded false p 1 [c])
  | float_arg b => write_float false b p
  | double_arg b => write_float true b p
  | cstring_arg addr s =>
      if decide (t = Byte.x00 ∨ t = Byte.x73) then write_cstring (Some p) addr s
      else if decide (t = Byte.x70) then written (write_ptr (Some p) addr)
      else format_error "invalid type specifier"
  | string_arg s =>
      if decide (t = Byte.x00 ∨ t = Byte.x73) then Ok (write_string p s)
      else format_error "invalid type specifier"
  | pointer_arg v =>
      if decide (t = Byte.x00 ∨ t = Byte.x70) then written (write_ptr (Some p) v)
      else format_error "invalid type specifier"
  | custom_arg k => Ok []   (* handled before *)
  end.

(** [default_arg_formatter] *)
Definition default_arg_formatter (a : fmt_arg K) : result text :=
  match a with
  | int_arg z | uint_arg z => written (write_integer w32 z)
  | long_long_arg z | ulong_long_arg z => written (write_integer w64 z)
  | bool_arg b => Ok (bool_text b)
  | char_arg c => Ok [c]
  | float_arg b => write_float false b default_specs
  | double_arg b => write_float true b default_specs
  | cstring_arg addr s => write_cstring None addr s
  | string_arg s => Ok s
  | pointer_arg v => written (write_ptr None v)
  | custom_arg k => custom_default k
  end.

Definition is_ascii_letter (c : byte) : bool :=
  ((97 <=? byte_to_Z c) && (byte_to_Z c <=? 122)) || ((65 <=? byte_to_Z c) && (byte_to_Z c <=? 90)).

(** [format_handler::on_format_specs], with its short cut for a single letter. *)
Definition format_arg (args : list (fmt_arg K)) (a : fmt_arg K) (s : text) (next : Z) :
    result (text * nat * Z) :=
  match a with
  | custom_arg k => custom_specs k s next
  | _ =>
      let! (p, rest, next) :=
        match s with
        | c :: ((d :: _) as s') =>
            if decide (d = close_brace ∧ is_ascii_letter c = true) then Ok (set_type default_specs c, s', next)
            else parse_format_specs args get_id a s next default_specs
        | _ => parse_format_specs args get_id a s next default_specs
        end in
      match rest with
      | c :: _ =>
          if decide (c = close_brace) then
            let! t := arg_formatter p a in Ok (t, (length s - length rest)%nat, next)
          else format_error "missing '}' in format string"
      | [] => format_error "missing '}' in format string"
      end
  end.

#[export] Instance arg_Formatter : Formatter (fmt_arg K) := {
  format_default := default_arg_formatter;
  format_specs := format_arg;
}.
End formatter.

(** ** Replacement fields as they are written *)

(** The parts of a specifier: fill and alignment, sign, alternate form, zeros, width,
    precision and type. *)
Record field := mk_field {
  f_align : option (option text * align_t);
  f_sign : option sign_t;
  f_alt : bool;
  f_zero : bool;
  f_width : option Z;
  f_precision : option Z;
  f_type : option byte;
}.

Definition align_char (al : align_t) : byte :=
  match al with align_left => Byte.x3c | align_right => Byte.x3e | _ => Byte.x5e end.
Definition sign_char (s : sign_t) : byte :=
  match s with sign_plus => Byte.x2b | sign_minus => Byte.x2d | _ => Byte.x20 end.
Definition print_option {B} (print : B → text) (o : option B) : text :=
  match o with Some x => print x | None => [] end.

Definition print_align : option (option text * align_t) → text :=
  print_option (λ '(fl, al), default [] fl ++ [align_char al]).
Definition print_sign : option sign_t → text := print_option (λ s, [sign_char s]).
Definition print_number : option Z → text := print_option (numeral false 10).
Definition print_precision : option Z → text := print_option (λ n, Byte.x2e :: numeral false 10 n).
Definition print_type : option byte → text := print_option (λ c, [c]).
Definition print_rest (f : field) : text :=
  print_sign (f_sign f) ++ (if f_alt f then [Byte.x23] else []) ++ (if f_zero f then [Byte.x30] else []) ++
  print_number (f_width f) ++ print_precision (f_precision f) ++ print_type (f_type f).
Definition print_field (f : field) : text := print_align (f_align f) ++ print_rest f.

(** What they mean. *)
Definition on_option {B} (set : specs → B → specs) (o : option B) (p : specs) : specs :=
  match o with Some x => set p x | None => p end.
Definition align_specs (p : specs) (x : option text * align_t) : specs :=
  set_align (match x.1 with Some t => set_fill p t | None => p end) x.2.
Definition field_specs (f : field) : specs :=
  on_option set_type (f_type f) (on_option set_precision (f_precision f) (on_option set_width (f_width f)
    ((if f_zero f then set_zero else id) ((if f_alt f then set_alt else id)
      (on_option set_sign (f_sign f) (on_option align_specs (f_align f) default_specs)))))).

(** The checks of [specs_checker], in the order in which they are made. *)
Definition check_field {K} (a : fmt_arg K) (f : field) : result () :=
  let! _ := if f_sign f is Some _ then check_sign a else Ok () in
  let! _ := if f_alt f then require_numeric_argument a else Ok () in
  let! _ := if f_zero f then require_numeric_argument a else Ok () in
  if f_precision f is Some _ then check_precision a else Ok ().

Definition valid_number (n : Z) : bool := (0 <=? n) && (n <=? max_int).
Definition valid_fill (t : text) : bool :=
  match t with
  | c :: _ => bool_decide (length t = code_point_length c) && negb (bool_decide (c = open_brace))
  | [] => false
  end.
Definition valid_align (x : option text * align_t) : bool :=
  (if x.1 is Some t then valid_fill t else true) &&
  match x.2 with align_left | align_right | align_center => true | _ => false end.
Definition valid_field (f : field) : bool :=
  (if f_align f is Some x then valid_align x else true) &&
  (if f_sign f is Some sign_none then false else true) &&
  (if f_width f is Some n then valid_number n && negb (n =? 0) else true) &&
  (if f_precision f is Some n then valid_number n else true) &&
  (if f_type f is Some c then is_ascii_letter c else true).

(** ** Parsing what was written *)

(** The first characters of what follows each part. *)
Definition begins (P : byte → bool) (s : text) : Prop := ∃ c s', s = c :: s' ∧ P c = true.
Definition type_start (c : byte) : bool := is_ascii_letter c || bool_decide (c = close_brace).
Definition precision_start (c : byte) : bool := type_start c || bool_decide (c = Byte.x2e).
Definition width_start (c : byte) : bool := precision_start c || (is_digit c && negb (bool_decide (c = Byte.x30))).
Definition zero_start (c : byte) : bool := width_start c || bool_decide (c = Byte.x30).
Definition alt_start (c : byte) : bool := zero_start c || bool_decide (c = Byte.x23).
Definition sign_start (c : byte) : bool :=
  alt_start c || bool_decide (c = Byte.x2b) || bool_decide (c = Byte.x2d) || bool_decide (c = Byte.x20).

Lemma begins_weaken (P Q : byte → bool) s : (∀ c, P c = true → Q c = true) → begins P s → begins Q s.
Proof. intros HPQ (c & s' & -> & Hc). exists c, s'. auto. Qed.
(** A part that is there begins as it should, one that is not leaves the rest. *)
Lemma begins_part (P Q : byte → bool) (b : bool) c s :
  (b = true → Q c = true) → (∀ c, P c = true → Q c = true) → begins P s →
  begins Q ((if b then [c] else []) ++ s).
Proof. intros Hc HPQ Hs. destruct b; [exists c, s; auto|by apply (begins_weaken P Q)]. Qed.

(** Facts about all bytes, by evaluation. *)
Lemma all_bytes (P : byte → Prop) `{∀ c, Decision (P c)} :
  forallb (λ z, bool_decide (P (Z_to_byte z))) (map Z.of_nat (seq 0 256)) = true → ∀ c, P c.
Proof.
  intros Hall c. rewrite <-(Z_to_byte_to_Z c). apply (Z_below_dec (λ z, P (Z_to_byte z)) 256); [done|apply byte_to_Z_range].
Qed.

Lemma sign_start_plain c : sign_start c = true → align_of c = None ∧ code_point_length c = 1%nat.
Proof.
  revert c. apply (all_bytes (λ c, sign_start c = true → align_of c = None ∧ code_point_length c = 1%nat)).
  by vm_compute.
Qed.
Lemma width_start_other c :
  precision_start c = true → is_digit c = false ∧ c ≠ open_brace.
Proof.
  revert c. apply (all_bytes (λ c, precision_start c = true → is_digit c = false ∧ c ≠ open_brace)).
  by vm_compute.
Qed.

Lemma digit_char_digit d : 0 ≤ d < 10 → is_digit (digit_char false d) = true ∧ byte_to_Z (digit_char false d) - 48 = d.
Proof. revert d. apply (Z_below_dec _ 10). by vm_compute. Qed.

(** Reading a number that was printed. *)
Lemma foldl_grows ds v : Forall (λ d, 0 ≤ d < 10) ds → 0 ≤ v → v ≤ foldl (λ n d, n * 10 + d) v ds.
Proof.
  intros Hds. revert v. induction Hds as [|d ds Hd _ IH]; intros v Hv; simpl; [lia|].
  specialize (IH (v * 10 + d) ltac:(lia)). lia.
Qed.
Lemma parse_digits_spec ds v t :
  Forall (λ d, 0 ≤ d < 10) ds → 0 ≤ v → foldl (λ n d, n * 10 + d) v ds ≤ max_int →
  (∀ c s, t = c :: s → is_digit c = false) →
  parse_digits v (map (digit_char false) ds ++ t) = (foldl (λ n d, n * 10 + d) v ds, t).
Proof.
  intros Hds. revert v. induction Hds as [|d ds Hd Hds IH]; intros v Hv Hm Ht; simpl.
  - destruct t as [|c t]; [done|]. simpl. by rewrite (Ht c t eq_refl).
  - destruct (digit_char_digit d Hd) as [-> ->]. simpl in Hm.
    pose proof (foldl_grows ds (v * 10 + d) Hds ltac:(lia)).
    rewrite (proj2 (Z.ltb_ge _ _)); [apply IH; [lia|done|done]|]. apply Z.div_le_lower_bound; lia.
Qed.
Lemma parse_number_spec n t :
  valid_number n = true → (∀ c s, t = c :: s → is_digit c = false) →
  parse_nonnegative_int (numeral false 10 n ++ t) = Ok (n, t).
Proof.
  intros [Hn%Z.leb_le Hm%Z.leb_le]%andb_prop Ht. unfold parse_nonnegative_int, numeral.
  pose proof (value_digits 10 ltac:(lia) n Hn) as Hv. unfold value_of in Hv.
  rewrite parse_digits_spec; [|apply digits_range; lia|lia|lia|done]. rewrite Hv.
  by rewrite (proj2 (Z.ltb_ge _ _)) by lia.
Qed.
(** Its first digit. *)
Lemma numeral_first n :
  0 ≤ n → ∃ d l, numeral false 10 n = digit_char false d :: l ∧ 0 ≤ d < 10 ∧ (d = 0 → n = 0).
Proof.
  intros Hn. unfold numeral. pose proof (digits_nonempty 10 ltac:(lia) n Hn) as Hne.
  pose proof (digits_head 10 ltac:(lia) n Hn) as Hh. pose proof (digits_range 10 ltac:(lia) n Hn) as Hr.
  destruct (digits_of 10 n) as [|d l]; [done|]. apply list.Forall_cons in Hr as [Hd _]. simpl in *.
  exists d, (map (digit_char false) l). split; [done|]. split; [done|]. intros ->. auto.
Qed.

Lemma parse_flag_spec {K} (a : fmt_arg K) (P : byte → bool) (b : bool) flag set s p :
  begins P s → P flag = false →
  parse_flag flag set a ((if b then [flag] else []) ++ s) p =
  (let! _ := if b then require_numeric_argument a else Ok () in Ok ((if b then set else id) p, s)).
Proof.
  intros (c & s' & -> & Hc) Hflag. destruct b; simpl.
  - by rewrite decide_True.
  - rewrite decide_False by congruence. done.
Qed.

Lemma parse_align_fill t al s p :
  valid_fill t = true → match al with align_left | align_right | align_center => true | _ => false end = true →
  parse_align (t ++ align_char al :: s) p = Ok (set_align (set_fill p t) al, s).
Proof.
  destruct t as [|d t]; [done|]. intros [Hl%bool_decide_eq_true Ho]%andb_prop Hal.
  apply negb_true_iff, bool_decide_eq_false in Ho.
  change ((d :: t) ++ align_char al :: s) with (d :: (t ++ align_char al :: s)). cbn [parse_align]. rewrite <-Hl.
  change (d :: (t ++ align_char al :: s)) with ((d :: t) ++ align_char al :: s).
  unfold text. rewrite list_lookup_middle by done. cbn [mbind option_bind].
  assert (align_of (align_char al) = Some al) as -> by (by destruct al). rewrite decide_False by done.
  rewrite take_app_length. change ((d :: t) ++ align_char al :: s) with ((d :: t) ++ [align_char al] ++ s).
  rewrite app_assoc, drop_app_length' by (rewrite length_app; simpl; lia). done.
Qed.

(** What follows each part of a field. *)
Section parts.
Context (f : field) (Hf : valid_field f = true) (rest : text).
Definition after_precision : text := print_type (f_type f) ++ close_brace :: rest.
Definition after_width : text := print_precision (f_precision f) ++ after_precision.
Definition after_zero : text := print_number (f_width f) ++ after_width.
Definition after_alt : text := (if f_zero f then [Byte.x30] else []) ++ after_zero.
Definition after_sign : text := (if f_alt f then [Byte.x23] else []) ++ after_alt.
Definition after_align : text := print_sign (f_sign f) ++ after_sign.

Lemma valid_parts :
  (∀ x, f_align f = Some x → valid_align x = true) ∧ (∀ s, f_sign f = Some s → s ≠ sign_none) ∧
  (∀ n, f_width f = Some n → valid_number n = true ∧ n ≠ 0) ∧
  (∀ n, f_precision f = Some n → valid_number n = true) ∧
  (∀ c, f_type f = Some c → is_ascii_letter c = true).
Proof.
  unfold valid_field in Hf. repeat (apply andb_prop in Hf as [Hf ?]). split_and!.
  - intros x E. by rewrite E in *.
  - intros s E ->. by rewrite E in *.
  - intros n E. rewrite E in *. match goal with H : _ && _ = true |- _ => apply andb_prop in H as [? Hn] end.
    split; [done|]. intros ->. done.
  - intros n E. by rewrite E in *.
  - intros c E. by rewrite E in *.
Qed.

Lemma begins_type : begins type_start after_precision.
Proof.
  destruct valid_parts as (_ & _ & _ & _ & Ht). unfold after_precision, print_type, type_start.
  destruct (f_type f) as [c|]; simpl; do 2 eexists; (split; [done|]); [by rewrite Ht|done].
Qed.
Lemma begins_precision : begins precision_start after_width.
Proof.
  unfold after_width, print_precision, precision_start. destruct (f_precision f) as [n|]; simpl.
  - do 2 eexists. split; [done|]. done.
  - eapply begins_weaken; [|apply begins_type]. intros c ->. done.
Qed.
Lemma begins_width : begins width_start after_zero.
Proof.
  destruct valid_parts as (_ & _ & Hw & _). unfold after_zero, print_number, width_start.
  destruct (f_width f) as [n|]; simpl.
  - destruct (Hw n eq_refl) as [[Hn%Z.leb_le _]%andb_prop Hz]. destruct (numeral_first n Hn) as (d & l & -> & Hd & Hd0).
    do 2 eexists. split; [done|]. destruct (digit_char_digit d Hd) as [Hc Hv]. rewrite Hc.
    rewrite bool_decide_eq_false_2; [by rewrite orb_comm|]. intros E. rewrite E in Hv.
    change (byte_to_Z Byte.x30 - 48) with 0 in Hv. auto.
  - eapply begins_weaken; [|apply begins_precision]. intros c ->. done.
Qed.
Lemma begins_zero : begins zero_start after_alt.
Proof. eapply begins_part; [done| |apply begins_width]. unfold zero_start. by intros c ->. Qed.
Lemma begins_alt : begins alt_start after_sign.
Proof. eapply begins_part; [done| |apply begins_zero]. unfold alt_start. by intros c ->. Qed.
Lemma begins_sign : begins sign_start after_align.
Proof.
  unfold after_align, print_sign. destruct (f_sign f) as [s|]; simpl.
  - do 2 eexists. split; [done|]. by destruct s.
  - eapply begins_weaken; [|apply begins_alt]. unfold sign_start. by intros c ->.
Qed.

Lemma parse_sign_spec {K} (a : fmt_arg K) p :
  parse_sign a after_align p =
  (let! _ := if f_sign f is Some _ then check_sign a else Ok () in Ok (on_option set_sign (f_sign f) p, after_sign)).
Proof.
  destruct valid_parts as (_ & Hs & _). unfold after_align, print_sign, on_option.
  destruct (f_sign f) as [s|]; simpl.
  - specialize (Hs s eq_refl). destruct s; [done|..]; simpl; by destruct (check_sign a).
  - destruct begins_alt as (c & s' & -> & Hc). simpl.
    rewrite !decide_False by (intros ->; discriminate). done.
Qed.

Lemma parse_width_spec {K} args get_id next p :
  parse_width (K := K) args get_id after_zero next p = Ok (on_option set_width (f_width f) p, after_width, next).
Proof.
  destruct valid_parts as (_ & _ & Hw & _). unfold after_zero, print_number, on_option.
  destruct begins_precision as (c & s' & E & Hc). destruct (width_start_other c Hc) as [Hd Ho].
  destruct (f_width f) as [n|]; simpl.
  - destruct (Hw n eq_refl) as [Hn _]. pose proof Hn as [Hn0%Z.leb_le _]%andb_prop.
    destruct (numeral_first n Hn0) as (d & l & En & Hd' & _).
    assert (parse_nonnegative_int (numeral false 10 n ++ after_width) = Ok (n, after_width)) as Hp.
    { apply parse_number_spec; [done|]. rewrite E. by intros ? ? [= <- <-]. }
    rewrite En in *. simpl in Hp |- *. destruct (digit_char_digit d Hd') as [-> _]. by rewrite Hp.
  - rewrite E. simpl. by rewrite Hd, decide_False.
Qed.

Lemma parse_precision_spec {K} (a : fmt_arg K) args get_id next p :
  match after_width with
  | c :: s' => if decide (c = Byte.x2e) then parse_precision args get_id a s' next p else Ok (p, after_width, next)
  | [] => Ok (p, after_width, next)
  end =
  (let! _ := if f_precision f is Some _ then check_precision a else Ok () in
   Ok (on_option set_precision (f_precision f) p, after_precision, next)).
Proof.
  destruct valid_parts as (_ & _ & _ & Hp & _). unfold after_width, print_precision, on_option.
  destruct begins_type as (c & s' & E & Hc). destruct (f_precision f) as [n|]; simpl.
  - specialize (Hp n eq_refl). pose proof Hp as [Hn0%Z.leb_le _]%andb_prop.
    destruct (numeral_first n Hn0) as (d & l & En & Hd' & _).
    assert (parse_nonnegative_int (numeral false 10 n ++ after_precision) = Ok (n, after_precision)) as Hq.
    { apply parse_number_spec; [done|]. rewrite E. intros ? ? [= <- <-]. apply width_start_other.
      unfold precision_start. by rewrite Hc. }
    rewrite En in *. simpl in Hq |- *. destruct (digit_char_digit d Hd') as [-> _]. by rewrite Hq.
  - rewrite E. simpl. rewrite decide_False; [done|]. intros ->. discriminate.
Qed.

Lemma parse_type_spec p : parse_type after_precision p = (on_option set_type (f_type f) p, close_brace :: rest).
Proof.
  destruct valid_parts as (_ & _ & _ & _ & Ht). unfold after_precision, print_type, on_option.
  destruct (f_type f) as [c|]; simpl; [|done]. rewrite decide_False; [done|]. intros ->.
  by specialize (Ht _ eq_refl).
Qed.

(** None of these characters is an alignment. *)
Abbreviation no_align := (λ c, align_of c = None).
Lemma numeral_no_align n : 0 ≤ n → Forall no_align (numeral false 10 n).
Proof.
  intros Hn. apply Forall_map. eapply list.Forall_impl; [by apply (digits_range 10)|].
  apply (Z_below_dec (λ d, align_of (digit_char false d) = None) 10). by vm_compute.
Qed.
Lemma letter_no_align c : is_ascii_letter c = true → align_of c = None.
Proof. revert c. apply (all_bytes (λ c, is_ascii_letter c = true → align_of c = None)). by vm_compute. Qed.
Lemma print_rest_no_align : Forall no_align (print_rest f).
Proof.
  destruct valid_parts as (_ & Hs & Hw & Hp & Ht). unfold print_rest. repeat (apply Forall_app; split).
  - unfold print_sign. destruct (f_sign f) as [s|]; [|done]. apply Forall_singleton. by destruct s.
  - destruct (f_alt f); [|done]. by apply Forall_singleton.
  - destruct (f_zero f); [|done]. by apply Forall_singleton.
  - unfold print_number. destruct (f_width f) as [n|]; [|done].
    destruct (Hw n eq_refl) as [[?%Z.leb_le _]%andb_prop _]. by apply numeral_no_align.
  - unfold print_precision. destruct (f_precision f) as [n|]; [|done].
    pose proof (Hp n eq_refl) as [?%Z.leb_le _]%andb_prop. constructor; [done|by apply numeral_no_align].
  - unfold print_type. destruct (f_type f) as [c|]; [|done]. apply Forall_singleton, letter_no_align. auto.
Qed.
Lemma after_align_rest : after_align = print_rest f ++ close_brace :: rest.
Proof. unfold print_rest. by rewrite <-!app_assoc. Qed.

(** A closing brace in front of an alignment would be taken for a fill. *)
Definition no_fill_brace : Prop := print_field f = [] → head rest ≫= align_of = None.

Lemma second_no_align : print_rest f ≠ [] ∨ head rest ≫= align_of = None → after_align !! 1%nat ≫= align_of = None.
Proof.
  intros Hb. rewrite after_align_rest. pose proof print_rest_no_align as Hn.
  destruct (print_rest f) as [|c [|d l]]; simpl.
  - destruct Hb as [|Hb]; [done|]. by destruct rest.
  - done.
  - apply list.Forall_cons in Hn as [_ Hn]. by apply list.Forall_cons in Hn as [Hd _].
Qed.

Lemma parse_align_spec :
  no_fill_brace →
  parse_align (print_field f ++ close_brace :: rest) default_specs =
  Ok (on_option align_specs (f_align f) default_specs, after_align).
Proof.
  intros Hb. destruct valid_parts as (Ha & _). unfold print_field, print_align, no_fill_brace in *.
  rewrite <-app_assoc, <-after_align_rest. destruct begins_sign as (c & s' & E & Hc).
  destruct (sign_start_plain c Hc) as [Hal Hlen]. unfold print_field, print_align in Hb.
  destruct (f_align f) as [[fl al]|]; simpl.
  - specialize (Ha _ eq_refl). apply andb_prop in Ha as [Hfl Hv]. simpl in *.
    destruct fl as [t|]; simpl in *.
    + rewrite <-app_assoc. simpl. by rewrite parse_align_fill.
    + rewrite E. destruct al; try done; simpl; by rewrite Hal.
  - pose proof (second_no_align ltac:(destruct (print_rest f); [right; by apply Hb|by left])) as H1.
    rewrite E in H1 |- *. unfold parse_align. by rewrite Hlen, H1, Hal.
Qed.
End parts.

(** Parsing a field that was printed gives its parts, or the error of the first part that the
    argument does not allow. *)
Lemma parse_print_field {K} f rest (args : list (fmt_arg K)) get_id a next :
  valid_field f = true → no_fill_brace f rest →
  parse_format_specs args get_id a (print_field f ++ close_brace :: rest) next default_specs =
  (let! _ := check_field a f in Ok (field_specs f, close_brace :: rest, next)).
Proof.
  intros Hf Hb. unfold parse_format_specs, check_field, field_specs.
  rewrite parse_align_spec by done. cbn [outcome_bind]. rewrite parse_sign_spec by done.
  destruct (if f_sign f is Some _ then check_sign a else Ok ()) as [[]|]; [|done]. cbn [outcome_bind].
  unfold after_sign. rewrite (parse_flag_spec a zero_start) by (done || by apply begins_zero).
  destruct (if f_alt f then require_numeric_argument a else Ok ()) as [[]|]; [|done]. cbn [outcome_bind].
  unfold after_alt. rewrite (parse_flag_spec a width_start) by (done || by apply begins_width).
  destruct (if f_zero f then require_numeric_argument a else Ok ()) as [[]|]; [|done]. cbn [outcome_bind].
  rewrite parse_width_spec by done. cbn [outcome_bind]. rewrite parse_precision_spec by done.
  destruct (if f_precision f is Some _ then check_precision a else Ok ()) as [[]|]; [|done]. cbn [outcome_bind].
  by rewrite parse_type_spec.
Qed.

(** ** The layout of integers *)

(** Prefix and digits, padded to the width: with zeros behind the prefix, or with the fill on
    the sides that the alignment says. *)
Definition int_layout (p : specs) (prefix digits : text) : text :=
  let n := Z.max 0 (width_ p - Z.of_nat (length prefix + length digits)) in
  if decide (align p = align_numeric) then prefix ++ replicate (Z.to_nat n) Byte.x30 ++ digits
  else
    let l := match align p with align_left => 0 | align_center => n / 2 | _ => n end in
    fill_n l (fill_ p) ++ prefix ++ digits ++ fill_n (n - l) (fill_ p).

Lemma fill_n_zeros n : fill_n n [Byte.x30] = replicate (Z.to_nat n) Byte.x30.
Proof. unfold fill_n. induction (Z.to_nat n) as [|k IH]; [done|]. simpl. by rewrite IH. Qed.

Lemma write_int_layout prefix p digits :
  precision p < 0 → 0 ≤ width_ p ≤ max_int →
  write_int (Z.of_nat (length digits)) prefix p digits = int_layout p prefix digits.
Proof.
  intros Hp Hw. unfold write_int, write_int_data, int_layout. rewrite <-Nat2Z.inj_add.
  set (size := Z.of_nat (length prefix + length digits)). unfold write_padded.
  destruct (decide (align p = align_numeric)) as [Ha|Ha].
  - rewrite Ha. cbn [padding_shift]. destruct (Z.ltb_spec0 size (width_ p)).
    + rewrite (proj2 (Z.ltb_ge _ _)) by lia. rewrite Z.shiftr_0_r. simpl. rewrite app_nil_r, fill_n_zeros.
      by rewrite Z.max_r by lia.
    + rewrite (proj2 (Z.ltb_ge _ _)) by lia. rewrite Z.shiftr_0_r. simpl. rewrite app_nil_r.
      by rewrite Z.max_l by lia.
  - rewrite (proj2 (Z.ltb_ge _ _)) by lia.
    change (fill_n 0 [Byte.x30]) with (@nil byte). rewrite app_nil_l.
    assert ((if size <? width_ p then width_ p - size else 0) = Z.max 0 (width_ p - size)) as ->
      by (destruct (Z.ltb_spec0 size (width_ p)); lia).
    set (n := Z.max 0 (width_ p - size)).
    assert (Z.shiftr n (padding_shift true (align p)) =
      match align p with align_left => 0 | align_center => n / 2 | _ => n end) as ->.
    { destruct (align p); cbn [padding_shift]; rewrite ?Z.shiftr_0_r, ?Z.shiftr_div_pow2 by lia; try done.
      apply Z.div_small. unfold n, size, max_int in *. simpl. lia. }
    by rewrite <-!app_assoc.
Qed.

(** The radix of a type, and what is put in front of the digits. *)
Definition int_radix (t : byte) : option (Z * bool) :=
  if decide (t = Byte.x00 ∨ t = Byte.x64) then Some (10, false)
  else if decide (t = Byte.x78) then Some (16, false)
  else if decide (t = Byte.x58) then Some (16, true)
  else if decide (t = Byte.x62 ∨ t = Byte.x42) then Some (2, false)
  else if decide (t = Byte.x6f) then Some (8, false)
  else None.
Definition radix_prefix (p : specs) (base value : Z) : text :=
  int_prefix p value ++
  (if alt p then
     if base =? 10 then [] else if base =? 8 then (if value =? 0 then [] else [Byte.x30])
     else [Byte.x30; type_ p]
   else []).

Lemma on_bits_spec w p value bits upper prefix :
  fits_width w value → bits = 1 ∨ bits = 3 ∨ bits = 4 → precision p < 0 → 0 ≤ width_ p ≤ max_int →
  on_bits w p value bits upper prefix =
  Some (int_layout p (int_prefix p value ++ prefix (Z.of_nat (length (numeral upper (2 ^ bits) (Z.abs value)))))
    (numeral upper (2 ^ bits) (Z.abs value))).
Proof.
  intros Hv Hb Hp Hw. pose proof (magnitude_range w value Hv) as Hr. unfold on_bits.
  rewrite magnitude_abs by done.
  rewrite count_digits_bits_spec by (lia || (split; [lia|apply log2_fuel; lia])). cbn [mbind option_bind].
  rewrite Z.add_0_l, <-(length_numeral upper).
  rewrite uint_text_spec; [|lia|lia|]. 2: {
    rewrite length_numeral. apply digits_at_most; [by apply pow_bits; lia| |destruct w, Hb as [->|[->| ->]]; done].
    split; [lia|]. rewrite <-Z.pow_mul_r by (destruct w, Hb as [->|[->| ->]]; done).
    eapply Z.lt_le_trans; [apply Hr|]. apply Z.pow_le_mono_r; [lia|].
    destruct w, Hb as [->|[->| ->]]; done. }
  cbn [mbind option_bind]. by rewrite write_int_layout.
Qed.
Lemma on_dec_spec w p value :
  fits_width w value → precision p < 0 → 0 ≤ width_ p ≤ max_int →
  on_dec w p value = Some (int_layout p (int_prefix p value) (numeral false 10 (Z.abs value))).
Proof.
  intros Hv Hp Hw. pose proof (magnitude_range w value Hv) as Hr. unfold on_dec.
  rewrite magnitude_abs, count_digits_spec by done. cbn [mbind option_bind]. rewrite <-(length_numeral false).
  rewrite decimal_text_spec by (lia || by apply decimal_digits). cbn [mbind option_bind]. by rewrite write_int_layout.
Qed.

Lemma write_int_arg_spec grouping sep w p value base upper :
  fits_width w value → precision p < 0 → 0 ≤ width_ p ≤ max_int → int_radix (type_ p) = Some (base, upper) →
  write_int_arg grouping sep w p value =
  Ok (int_layout p (radix_prefix p base value) (numeral upper base (Z.abs value))).
Proof.
  intros Hv Hp Hw Ht. unfold write_int_arg, int_radix, radix_prefix, written in *.
  destruct (decide (type_ p = Byte.x00 ∨ type_ p = Byte.x64)).
  { injection Ht as <- <-. rewrite on_dec_spec by done. simpl. destruct (alt p); by rewrite app_nil_r. }
  destruct (decide (type_ p = Byte.x78)) as [E|E].
  { injection Ht as <- <-. rewrite decide_True by auto. unfold on_hex. rewrite bool_decide_eq_true_2 by done.
    by rewrite on_bits_spec by (done || lia). }
  destruct (decide (type_ p = Byte.x58)) as [E'|E'].
  { injection Ht as <- <-. rewrite decide_True by auto. unfold on_hex. rewrite bool_decide_eq_false_2 by done.
    by rewrite on_bits_spec by (done || lia). }
  rewrite decide_False by tauto. destruct (decide (type_ p = Byte.x62 ∨ type_ p = Byte.x42)).
  { injection Ht as <- <-. unfold on_bin. by rewrite on_bits_spec by (done || lia). }
  destruct (decide (type_ p = Byte.x6f)); [|done]. injection Ht as <- <-.
  unfold on_oct. rewrite on_bits_spec by (done || lia). unfold oct_prefix. rewrite magnitude_abs by done.
  rewrite (proj2 (Z.leb_le _ _)) by lia. rewrite andb_true_r. simpl.
  destruct (Z.eqb_spec value 0) as [->|Hne]; [by destruct (alt p)|].
  rewrite (proj2 (Z.eqb_neq (Z.abs value) 0)) by lia. by destruct (alt p).
Qed.

Lemma field_specs_width f : valid_field f = true → 0 ≤ width_ (field_specs f) ≤ max_int.
Proof.
  intros Hf. destruct (valid_parts f Hf) as (_ & _ & Hw & _).
  assert (width_ (field_specs f) = default 0 (f_width f)) as ->.
  { unfold field_specs, on_option. destruct f as [[[[t|] al]|] [s|] [] [] [n|] [m|] [c|]]; done. }
  destruct (f_width f) as [n|]; [|done]. destruct (Hw n eq_refl) as [[?%Z.leb_le ?%Z.leb_le]%andb_prop _]. done.
Qed.
Lemma field_specs_precision f : precision (field_specs f) = default (-1) (f_precision f).
Proof. unfold field_specs, on_option. destruct f as [[[[t|] al]|] [s|] [] [] [n|] [m|] [c|]]; done. Qed.
Lemma field_specs_type f : type_ (field_specs f) = default Byte.x00 (f_type f).
Proof. unfold field_specs, on_option. destruct f as [[[[t|] al]|] [s|] [] [] [n|] [m|] [c|]]; done. Qed.

(** The short cut for a single letter agrees with the parser. *)
Lemma parse_letter {K} (args : list (fmt_arg K)) get_id a c rest next :
  is_ascii_letter c = true →
  parse_format_specs args get_id a (c :: close_brace :: rest) next default_specs =
  Ok (set_type default_specs c, close_brace :: rest, next).
Proof.
  intros Hc. pose proof (letter_no_align c Hc) as Hal.
  assert (type_start c = true) as Hs by (unfold type_start; by rewrite Hc).
  assert (precision_start c = true) as Hp by (unfold precision_start; by rewrite Hs).
  assert (sign_start c = true) as Hg
    by (unfold sign_start, alt_start, zero_start, width_start; by rewrite Hp).
  destruct (sign_start_plain c Hg) as [_ Hl]. destruct (width_start_other c Hp) as [Hd Ho].
  unfold parse_format_specs, parse_align. rewrite Hl, Hal. simpl.
  repeat (first [rewrite Hd | rewrite (decide_False (P := c = _)) by (done || intros ->; discriminate)]; simpl).
  done.
Qed.

Section printed.
Context {K : Type} (write_float : bool → Z → specs → result text).
Context (custom_default : K → result text) (custom_specs : K → text → Z → result (text * nat * Z)).
Context (grouping : list Z) (sep : byte) (get_id : text → option Z).
Abbreviation formatter := (arg_formatter write_float grouping sep).

Lemma format_arg_spec args (a : fmt_arg K) f rest next :
  valid_field f = true → no_fill_brace f rest → (∀ k, a ≠ custom_arg k) →
  format_arg write_float custom_specs grouping sep get_id args a (print_field f ++ close_brace :: rest) next =
  (let! _ := check_field a f in let! t := formatter (field_specs f) a in Ok (t, length (print_field f), next)).
Proof.
  intros Hf Hb Ha. pose proof (parse_print_field f rest args get_id a next Hf Hb) as Hp.
  set (s := print_field f ++ close_brace :: rest) in *.
  assert (length s - length (close_brace :: rest) = length (print_field f))%nat as Hlen
    by (unfold s; rewrite length_app; lia).
  assert (format_arg write_float custom_specs grouping sep get_id args a s next =
    (let! (p, rest, next) := parse_format_specs args get_id a s next default_specs in
     match rest with
     | c :: _ =>
         if decide (c = close_brace) then
           let! t := formatter p a in Ok (t, (length s - length rest)%nat, next)
         else format_error "missing '}' in format string"
     | [] => format_error "missing '}' in format string"
     end)) as ->.
  { unfold format_arg. clearbody s. destruct a; try (by destruct (Ha k)); destruct s as [|c0 [|d0 s]]; try done;
      (destruct (decide _) as [[-> Hc]|]; [by rewrite parse_letter|done]). }
  rewrite Hp. destruct (check_field a f) as [[]|]; [|done]. cbn [outcome_bind]. rewrite decide_True by done.
  by rewrite Hlen.
Qed.

(** A format string of one field. *)
Lemma vformat_field (a : fmt_arg K) f :
  valid_field f = true → (∀ k, a ≠ custom_arg k) →
  vformat (H := arg_Formatter write_float custom_default custom_specs grouping sep get_id) [a] get_id
    ([open_brace; colon] ++ print_field f ++ [close_brace]) =
  Some (let! _ := check_field a f in formatter (field_specs f) a).
Proof.
  intros Hf Ha. rewrite vformat_one_pass, one_pass_eq. simpl.
  unfold on_format_specs. simpl. rewrite (format_arg_spec [a] a f []) by (done || by intros _).
  destruct (check_field a f) as [[]|]; [|done]. simpl. destruct (formatter (field_specs f) a) as [t|]; [|done]. simpl.
  rewrite drop_app_length. simpl. by rewrite app_nil_r.
Qed.
End printed.

(** ** Theorems *)

Definition int_of {K} (a : fmt_arg K) : option (width * Z) :=
  match a with
  | int_arg z | uint_arg z => Some (w32, z)
  | long_long_arg z | ulong_long_arg z => Some (w64, z)
  | _ => None
  end.

(** integers are formatted as their field says: for every replacement field without precision
    (fill and alignment, sign, alternate form, zeros, width and type, each present or not) and
    every integer argument, parsing the field as it is written and formatting the argument gives
    the sign, the prefix of the radix and the digits in that radix, which read back as the
    magnitude, padded to the width as the alignment says; or the error of the first part that the
    type of the argument does not allow. The short cut for a single letter makes no difference. *)
Theorem fmt_integer_field {K} write_float custom_default custom_specs grouping sep get_id
    (a : fmt_arg K) f w z base upper :
  valid_field f = true → f_precision f = None → int_of a = Some (w, z) → fits_width w z →
  int_radix (default Byte.x00 (f_type f)) = Some (base, upper) →
  vformat (H := arg_Formatter write_float custom_default custom_specs grouping sep get_id) [a] get_id
    ([open_brace; colon] ++ print_field f ++ [close_brace]) =
  Some (let! _ := check_field a f in
    Ok (int_layout (field_specs f) (radix_prefix (field_specs f) base z) (numeral upper base (Z.abs z)))) ∧
  read_numeral base (numeral upper base (Z.abs z)) = Some (Z.abs z).
Proof.
  intros Hf Hp Ha Hz Hr. split.
  - rewrite vformat_field; [|done|intros k Hk; by rewrite Hk in Ha]. f_equal.
    destruct (check_field a f) as [[]|]; [|done]. cbn [outcome_bind].
    assert (write_int_arg grouping sep w (field_specs f) z =
      Ok (int_layout (field_specs f) (radix_prefix (field_specs f) base z) (numeral upper base (Z.abs z)))) as <-.
    { apply write_int_arg_spec; [done| |by apply field_specs_width|by rewrite field_specs_type].
      rewrite field_specs_precision, Hp. simpl. lia. }
    destruct a; try done; by injection Ha as <- <-.
  - apply read_numeral_spec; [|lia]. clear -Hr. unfold int_radix in Hr. repeat case_decide; simplify_eq; lia.
Qed.

(** The arguments of the examples: no user types, and the groups of an English locale. *)
Definition sample_Formatter : Formatter (fmt_arg ()) :=
  arg_Formatter (λ _ _ _, Ok []) (λ _, Ok []) (λ _ _ _, Ok ([], 0%nat, 0)) [3] Byte.x2c (λ _, None).
Definition sample_format (s : string) (args : list (fmt_arg ())) : option (result text) :=
  vformat (H := sample_Formatter) args (λ _, None) (String.list_byte_of_string s).
Definition sample_text (s : string) : option (result text) := Some (Ok (String.list_byte_of_string s)).

Lemma fmt_integer_field_witness :
  sample_format "{:*^+#12x}" [int_arg (-48879)] = sample_text "**-0xbeef***" ∧
  sample_format "{:+}" [uint_arg 1] = Some (format_error "format specifier requires signed argument").
Proof.
  set (f := mk_field (Some (Some [Byte.x2a], align_center)) (Some sign_plus) true false (Some 12) None (Some Byte.x78)).
  set (g := mk_field None (Some sign_plus) false false None None None). split.
  - destruct (fmt_integer_field (K := ()) (λ _ _ _, Ok []) (λ _, Ok []) (λ _ _ _, Ok ([], 0%nat, 0)) [3] Byte.x2c
      (λ _, None) (int_arg (-48879)) f w32 (-48879) 16 false) as [Hv _]; [reflexivity..|split; vm_compute; congruence|reflexivity|].
    transitivity (Some (let! _ := check_field (K := ()) (int_arg (-48879)) f in
      Ok (int_layout (field_specs f) (radix_prefix (field_specs f) 16 (-48879)) (numeral false 16 (Z.abs (-48879))))));
      [exact Hv|vm_compute; reflexivity].
  - destruct (fmt_integer_field (K := ()) (λ _ _ _, Ok []) (λ _, Ok []) (λ _ _ _, Ok ([], 0%nat, 0)) [3] Byte.x2c
      (λ _, None) (uint_arg 1) g w32 1 10 false) as [Hv _]; [reflexivity..|split; vm_compute; congruence|reflexivity|].
    transitivity (Some (let! _ := check_field (K := ()) (uint_arg 1) g in
      Ok (int_layout (field_specs g) (radix_prefix (field_specs g) 10 1) (numeral false 10 (Z.abs 1)))));
      [exact Hv|vm_compute; reflexivity].
Defined.

(** grouping writes a minus sign for every prefix: with a plus sign asked for, a positive number
    in a locale with groups is printed as a negative one. *)
Theorem grouped_sign_wrong :
  sample_format "{:+d}" [int_arg 1234567] = sample_text "+1234567" ∧
  sample_format "{:L}" [int_arg 1234567] = sample_text "1,234,567" ∧
  sample_format "{:+L}" [int_arg 1234567] = sample_text "-1,234,567".
Proof. vm_compute. done. Qed.

(** a closing brace is accepted as a fill, so an empty field followed by an alignment character
    is an error instead of the argument and the character. *)
Theorem brace_taken_for_fill :
  sample_format "{:}=" [int_arg 7] = sample_text "7=" ∧
  sample_format "{:}<" [int_arg 7] = Some (format_error "missing '}' in format string").
Proof. vm_compute. done. Qed.
