(* ===== verification/FmtBigint.v ===== *)
(** The big integers of fmt: class [bigint] of extern/fmt/include/fmt/format-inl.h, on which the
    exact printing of floating-point numbers rests.

    A number is a list of bigits of 32 bits, the lowest first, and a count [exp_] of bigits that
    are zero below them. Every operation is shown to compute what its name says on the number
    that is meant ([value]). *)

From Stdlib Require Import ssreflect.
From stdpp Require Import list.
From S2P Require Import Prelude.

Open Scope general_if_scope.
Open Scope Z_scope.

(** ** Representation *)

Definition B : Z := 2 ^ 32.

Record bigint := mk_bigint { bigits_ : list Z; exp_ : Z }.

(** The number of a list of bigits, and of a [bigint]. *)
Fixpoint eval (l : list Z) : Z :=
  match l with [] => 0 | x :: l => x + B * eval l end.
Definition value (b : bigint) : Z := eval (bigits_ b) * B ^ exp_ b.

Definition size (b : bigint) : Z := Z.of_nat (length (bigits_ b)).
Definition num_bigits (b : bigint) : Z := size b + exp_ b.

(** ** Operations *)

(** [subtract_bigits]; [None] is an index out of range. *)
Definition subtract_bigits (l : list Z) (index : nat) (other borrow : Z) : option (list Z * Z) :=
  x ← l !! index;
  let result := wrap64 (x - other - borrow) in
  Some (<[index := wrap32 result]> l, wrap32 (Z.shiftr result 63)).

(** [remove_leading_zeros]: the loop and the resize. *)
Fixpoint last_bigit (l : list Z) (n : nat) : nat :=
  match n with
  | O => O
  | S m => if nth n l 0 =? 0 then last_bigit l m else n
  end.
Definition remove_leading_zeros (l : list Z) : list Z := take (S (last_bigit l (length l - 1))) l.

(** The two loops of [subtract_aligned]. The second one stays at its index; a bigit is not zero
    after a second round. *)
Fixpoint subtract_all (l : list Z) (i : nat) (other : list Z) (borrow : Z) : option (list Z * nat * Z) :=
  match other with
  | [] => Some (l, i, borrow)
  | y :: other => '(l, borrow) ← subtract_bigits l i y borrow; subtract_all l (S i) other borrow
  end.
Fixpoint subtract_borrow (fuel : nat) (l : list Z) (i : nat) (borrow : Z) : option (list Z) :=
  if 0 <? borrow then
    match fuel with
    | O => None
    | S fuel => '(l, borrow) ← subtract_bigits l i 0 borrow; subtract_borrow fuel l i borrow
    end
  else Some l.
Definition subtract_aligned (b other : bigint) : option bigint :=
  '(l, i, borrow) ← subtract_all (bigits_ b) (Z.to_nat (exp_ other - exp_ b)) (bigits_ other) 0;
  l ← subtract_borrow 2 l i borrow;
  Some (mk_bigint (remove_leading_zeros l) (exp_ b)).

(** [multiply(uint32_t)] *)
Fixpoint multiply32_loop (l : list Z) (value carry : Z) : list Z :=
  match l with
  | [] => if carry =? 0 then [] else [carry]
  | x :: l =>
      let result := wrap64 (x * value + carry) in
      wrap32 result :: multiply32_loop l value (wrap32 (Z.shiftr result 32))
  end.
Definition multiply32 (b : bigint) (value : Z) : bigint :=
  mk_bigint (multiply32_loop (bigits_ b) value 0) (exp_ b).

(** [multiply(uint64_t)] *)
Fixpoint push_carry (fuel : nat) (carry : Z) : list Z :=
  match fuel with
  | O => []
  | S fuel => if carry =? 0 then [] else Z.land carry (2 ^ 32 - 1) :: push_carry fuel (Z.shiftr carry 32)
  end.
Fixpoint multiply64_loop (l : list Z) (lower upper carry : Z) : list Z :=
  match l with
  | [] => push_carry 2 carry
  | x :: l =>
      let result := wrap64 (x * lower + Z.land carry (2 ^ 32 - 1)) in
      let carry := wrap64 (x * upper + Z.shiftr result 32 + Z.shiftr carry 32) in
      wrap32 result :: multiply64_loop l lower upper carry
  end.
Definition multiply64 (b : bigint) (value : Z) : bigint :=
  mk_bigint (multiply64_loop (bigits_ b) (Z.land value (2 ^ 32 - 1)) (Z.shiftr value 32) 0) (exp_ b).

(** [assign(uint64_t)]: at most two rounds. *)
Fixpoint assign_loop (fuel : nat) (n : Z) : list Z :=
  match fuel with
  | O => []
  | S fuel =>
      let n' := Z.shiftr n 32 in
      Z.land n (2 ^ 32 - 1) :: (if n' =? 0 then [] else assign_loop fuel n')
  end.
Definition assign (n : Z) : bigint := mk_bigint (assign_loop 2 n) 0.

(** [operator<<=] *)
Fixpoint shift_loop (l : list Z) (shift carry : Z) : list Z :=
  match l with
  | [] => if carry =? 0 then [] else [carry]
  | x :: l => wrap32 (wrap32 (Z.shiftl x shift) + carry) :: shift_loop l shift (Z.shiftr x (32 - shift))
  end.
Definition shift_left (b : bigint) (shift : Z) : bigint :=
  let e := exp_ b + shift / 32 in
  let shift := shift mod 32 in
  if shift =? 0 then mk_bigint (bigits_ b) e else mk_bigint (shift_loop (bigits_ b) shift 0) e.

(** [compare]: from the highest bigit on, so over the reversed lists; at the end the longer one
    is taken for the greater. *)
Fixpoint compare_bigits (l r : list Z) : Z :=
  match l, r with
  | x :: l, y :: r => if x =? y then compare_bigits l r else if y <? x then 1 else -1
  | _ :: _, [] => 1
  | [], _ :: _ => -1
  | [], [] => 0
  end.
Definition compare (lhs rhs : bigint) : Z :=
  if num_bigits lhs =? num_bigits rhs then compare_bigits (reverse (bigits_ lhs)) (reverse (bigits_ rhs))
  else if num_bigits rhs <? num_bigits lhs then 1 else -1.

(** [add_compare]; [n] bigits from index [i] on are left. *)
Definition get_bigit (b : bigint) (i : Z) : Z :=
  if (exp_ b <=? i) && (i <? num_bigits b) then nth (Z.to_nat (i - exp_ b)) (bigits_ b) 0 else 0.
Fixpoint add_compare_loop (lhs1 lhs2 rhs : bigint) (min_exp : Z) (n : nat) (borrow : Z) : Z :=
  match n with
  | O => if borrow =? 0 then 0 else -1
  | S m =>
      let i := min_exp + Z.of_nat m in
      let sum := get_bigit lhs1 i + get_bigit lhs2 i in
      if get_bigit rhs i + borrow <? sum then 1
      else
        let borrow := get_bigit rhs i + borrow - sum in
        if 1 <? borrow then -1 else add_compare_loop lhs1 lhs2 rhs min_exp m (wrap64 (Z.shiftl borrow 32))
  end.
Definition add_compare (lhs1 lhs2 rhs : bigint) : Z :=
  let max_lhs_bigits := Z.max (num_bigits lhs1) (num_bigits lhs2) in
  let num_rhs_bigits := num_bigits rhs in
  if max_lhs_bigits + 1 <? num_rhs_bigits then -1
  else if num_rhs_bigits <? max_lhs_bigits then 1
  else
    let min_exp := Z.min (Z.min (exp_ lhs1) (exp_ lhs2)) (exp_ rhs) in
    add_compare_loop lhs1 lhs2 rhs min_exp (Z.to_nat (num_rhs_bigits - min_exp)) 0.

(** [square]: the columns of the product, low half and high half, and the carries. *)
Definition wrap128 (z : Z) : Z := z mod 2 ^ 128.
Definition cross_products (n : list Z) (bigit_index from count : nat) (sum : Z) : Z :=
  foldl (λ sum i, wrap128 (sum + wrap64 (nth i n 0 * nth (bigit_index - i) n 0))) sum (seq from count).
Definition column (n : list Z) (bigit_index : nat) (sum : Z) : Z :=
  let num_bigits := length n in
  if (bigit_index <? num_bigits)%nat then cross_products n bigit_index 0 (S bigit_index) sum
  else cross_products n bigit_index (bigit_index - (num_bigits - 1)) (2 * num_bigits - 1 - bigit_index) sum.
Fixpoint square_loop (n : list Z) (bigit_index count : nat) (sum : Z) : list Z :=
  match count with
  | O => []
  | S count =>
      let sum := column n bigit_index sum in
      wrap32 sum :: square_loop n (S bigit_index) count (Z.shiftr sum 32)
  end.
Definition square (b : bigint) : bigint :=
  mk_bigint (remove_leading_zeros (square_loop (bigits_ b) 0 (2 * length (bigits_ b)) 0)) (exp_ b * 2).

(** [assign_pow10] *)
Fixpoint top_bit (fuel : nat) (exp bitmask : Z) : option Z :=
  if bitmask <=? exp then
    match fuel with O => None | S fuel => top_bit fuel exp (Z.shiftl bitmask 1) end
  else Some bitmask.
Fixpoint pow5_loop (fuel : nat) (exp bitmask : Z) (b : bigint) : option bigint :=
  if bitmask =? 0 then Some b
  else match fuel with
       | O => None
       | S fuel =>
           let b := square b in
           let b := if Z.land exp bitmask =? 0 then b else multiply32 b 5 in
           pow5_loop fuel exp (Z.shiftr bitmask 1) b
       end.
Definition assign_pow10 (exp : Z) : option bigint :=
  if exp =? 0 then Some (assign 1)
  else
    match top_bit 31 exp 1 with
    | None => None
    | Some bitmask =>
        let bitmask := Z.shiftr bitmask 1 in
        match pow5_loop 31 exp (Z.shiftr bitmask 1) (assign 5) with
        | None => None
        | Some b => Some (shift_left b exp)
        end
    end.

(** [align] *)
Definition align (b other : bigint) : bigint :=
  let exp_difference := exp_ b - exp_ other in
  if exp_difference <=? 0 then b
  else mk_bigint (replicate (Z.to_nat exp_difference) 0 ++ bigits_ b) (exp_ b - exp_difference).

(** [divmod_assign]: the quotient and the remainder, by subtraction. *)
Fixpoint divmod_loop (fuel : nat) (b divisor : bigint) (quotient : Z) : option (Z * bigint) :=
  match fuel with
  | O => None
  | S fuel =>
      b ← subtract_aligned b divisor;
      let quotient := quotient + 1 in
      if 0 <=? compare b divisor then divmod_loop fuel b divisor quotient else Some (quotient, b)
  end.
Definition divmod_assign (fuel : nat) (b divisor : bigint) : option (Z * bigint) :=
  if compare b divisor <? 0 then Some (0, b) else divmod_loop fuel (align b divisor) divisor 0.

(** ** Lists of bigits *)

Definition bigit_ok (x : Z) : Prop := 0 ≤ x < B.
Abbreviation bigits_ok := (Forall bigit_ok).

Lemma B_pos : 0 < B.
Proof. done. Qed.
Lemma B_large : 10 < B.
Proof. done. Qed.
#[local] Hint Resolve B_pos : core.
Lemma pow_B_pos n : 0 ≤ n → 0 < B ^ n.
Proof. intros. by apply Z.pow_pos_nonneg. Qed.
Lemma pow_B_succ n : 0 ≤ n → B ^ (n + 1) = B * B ^ n.
Proof. intros. rw Z.pow_add_r // Z.pow_1_r. lia. Qed.
Lemma pow_B_le n m : n ≤ m → B ^ n ≤ B ^ m.
Proof. intros. by apply Z.pow_le_mono_r. Qed.
Lemma pow_B_nat (n : nat) : B ^ Z.of_nat (S n) = B * B ^ Z.of_nat n.
Proof. rw Nat2Z.inj_succ -Z.add_1_r pow_B_succ //. lia. Qed.

Lemma eval_app l r : eval (l ++ r) = eval l + B ^ Z.of_nat (length l) * eval r.
Proof.
  induction l as [|x l IH]; [by rw Z.mul_1_l|]. cbn [app eval length]. rw IH pow_B_nat. ring.
Qed.

Lemma eval_bounds l : bigits_ok l → 0 ≤ eval l < B ^ Z.of_nat (length l).
Proof.
  induction 1 as [|x l Hx _ IH]; [done|]. cbn [eval length]. rw pow_B_nat. rw /bigit_ok in Hx. nia.
Qed.

Lemma eval_insert l i x y :
  l !! i = Some x → eval (<[i := y]> l) = eval l + (y - x) * B ^ Z.of_nat i.
Proof.
  revert i. induction l as [|z l IH]; intros [|i] Hi; [done|done| |].
  - injection Hi as ->. change (<[0%nat := y]> (x :: l)) with (y :: l). cbn [eval]. change (Z.of_nat 0) with 0. lia.
  - change (<[S i := y]> (z :: l)) with (z :: <[i := y]> l). cbn [eval]. rw (IH i Hi) pow_B_nat. ring.
Qed.

Lemma eval_take_drop l n : (n ≤ length l)%nat → eval l = eval (take n l) + B ^ Z.of_nat n * eval (drop n l).
Proof. intros Hn. rw -{1}(take_drop n l) eval_app length_take Nat.min_l //. Qed.

Lemma eval_zeros n l : eval (replicate n 0 ++ l) = B ^ Z.of_nat n * eval l.
Proof. induction n as [|n IH]; [by rw Z.mul_1_l|]. cbn [replicate app eval]. rw IH pow_B_nat. ring. Qed.

(** No zero on top. *)
Definition canonical (l : list Z) : Prop := bigits_ok l ∧ ∃ l' x, l = l' ++ [x] ∧ x ≠ 0.

Lemma canonical_bounds l :
  canonical l → B ^ (Z.of_nat (length l) - 1) ≤ eval l < B ^ Z.of_nat (length l).
Proof.
  intros [Hl (l' & x & -> & Hx)]. split; [|by apply eval_bounds].
  apply Forall_app in Hl as [Hl Hx'%Forall_inv]. apply eval_bounds in Hl. rw /bigit_ok in Hx'.
  rw eval_app length_app. cbn [eval length]. replace (Z.of_nat (length l' + 1) - 1) with (Z.of_nat (length l')) by lia.
  pose proof (pow_B_pos (Z.of_nat (length l'))). nia.
Qed.

Lemma canonical_length l : canonical l → (0 < length l)%nat.
Proof. intros [_ (l' & x & -> & _)]. rw length_app /=. lia. Qed.

(** [remove_leading_zeros] *)
Lemma last_bigit_spec l n :
  (n < length l)%nat → Forall (λ x, x = 0) (drop (S n) l) →
  let m := last_bigit l n in
  (m ≤ n)%nat ∧ Forall (λ x, x = 0) (drop (S m) l) ∧ (m = 0%nat ∨ nth m l 0 ≠ 0).
Proof.
  induction n as [|n IH]; intros Hn Hz; [cbn; auto|]. cbn [last_bigit].
  destruct (Z.eqb_spec (nth (S n) l 0) 0) as [E|E]; [|auto].
  destruct IH as (? & ? & ?); [lia| |auto with lia].
  destruct (lookup_lt_is_Some_2 l (S n) Hn) as [x Hx]. rw (drop_S _ _ _ Hx).
  constructor; [|done]. by rw (nth_lookup_Some _ _ _ _ Hx) in E.
Qed.

Lemma eval_all_zero l : Forall (λ x, x = 0) l → eval l = 0.
Proof. induction 1 as [|x l -> _ IH]; [done|]. cbn [eval]. by rw IH. Qed.

Lemma remove_leading_zeros_spec l :
  bigits_ok l → l ≠ [] →
  let r := remove_leading_zeros l in
  eval r = eval l ∧ bigits_ok r ∧ (length r ≤ length l)%nat ∧ (canonical r ∨ r = [0]).
Proof.
  intros Hl Hn r. assert (0 < length l)%nat by (by destruct l; [|simpl; lia]).
  destruct (last_bigit_spec l (length l - 1)) as (Hm & Hz & Ht); [lia|rw drop_ge; [lia|constructor]|].
  fold (remove_leading_zeros l) in r. subst r. rw /remove_leading_zeros. set (m := last_bigit _ _) in *.
  assert (m < length l)%nat as Hlt by lia.
  assert (bigits_ok (take (S m) l)) as Hok by (by apply Forall_take).
  split; [rw (eval_take_drop l (S m)); [lia|]; by rw (eval_all_zero (drop _ _)) // Z.mul_0_r Z.add_0_r|].
  split; [done|]. split; [rw length_take; lia|].
  destruct (lookup_lt_is_Some_2 l m Hlt) as [x Hx].
  rw (take_S_r _ _ _ Hx). destruct Ht as [Ht|Ht].
  - rw Ht /=. destruct (decide (x = 0)) as [->|Hx0]; [by right|left]. split; [|by exists [], x].
    rw (take_S_r _ _ _ Hx) Ht in Hok. done.
  - left. split; [by rw (take_S_r _ _ _ Hx) in Hok|]. exists (take m l), x. split; [done|].
    by rw (nth_lookup_Some _ _ _ _ Hx) in Ht.
Qed.

(** ** Arithmetic on lists *)

Lemma split32 z : 0 ≤ z → wrap32 z + B * Z.shiftr z 32 = z ∧ bigit_ok (wrap32 z).
Proof.
  intros Hz. rw Z.shiftr_div_pow2 // /wrap32 /bigit_ok /B. pose proof (Z.div_mod z (2 ^ 32)).
  pose proof (Z.mod_pos_bound z (2 ^ 32)). lia.
Qed.

Lemma land_mask z : Z.land z (2 ^ 32 - 1) = wrap32 z.
Proof. change (2 ^ 32 - 1) with (Z.ones 32). by rw Z.land_ones. Qed.

Lemma shiftr32_bound z m : 0 ≤ z < B * m → 0 ≤ Z.shiftr z 32 < m.
Proof.
  intros Hz. rw Z.shiftr_div_pow2 //. fold B. pose proof B_pos. split; [apply Z.div_pos; lia|apply Z.div_lt_upper_bound; lia].
Qed.

Lemma wrap32_small z : bigit_ok z → wrap32 z = z.
Proof. intros Hz. by apply Z.mod_small. Qed.
Lemma wrap64_small z : 0 ≤ z < B * B → wrap64 z = z.
Proof. intros Hz. by apply Z.mod_small. Qed.

Lemma multiply32_loop_spec l v carry :
  bigits_ok l → bigit_ok v → bigit_ok carry →
  eval (multiply32_loop l v carry) = eval l * v + carry ∧ bigits_ok (multiply32_loop l v carry).
Proof.
  intros Hl Hv. revert carry. induction Hl as [|x l Hx _ IH]; intros carry Hc; cbn [multiply32_loop].
  - destruct (Z.eqb_spec carry 0) as [->|]; [done|]. split; [cbn; lia|by constructor; [|constructor]].
  - rw /bigit_ok in Hx, Hv, Hc. rw wrap64_small; [nia|].
    destruct (split32 (x * v + carry)) as [Hs Hok]; [nia|].
    destruct (shiftr32_bound (x * v + carry) B) as [H1 H2]; [nia|].
    rw (wrap32_small (Z.shiftr _ _)) //. destruct (IH (Z.shiftr (x * v + carry) 32)) as [He Ho]; [done|].
    split; [cbn [eval]; rw He; lia|by constructor].
Qed.

Lemma push_carry_spec z : 0 ≤ z < B * B → eval (push_carry 2 z) = z ∧ bigits_ok (push_carry 2 z).
Proof.
  intros Hz. cbn [push_carry]. destruct (Z.eqb_spec z 0) as [->|]; [done|]. rw !land_mask.
  destruct (split32 z) as [Hs Hok]; [lia|]. destruct (shiftr32_bound z B) as [H1 H2]; [lia|].
  destruct (Z.eqb_spec (Z.shiftr z 32) 0) as [E|E].
  - split; [cbn; lia|by constructor; [|constructor]].
  - rw (wrap32_small (Z.shiftr _ _)) //. split; [cbn; lia|]. by repeat (constructor; [done|]).
Qed.

Lemma multiply64_loop_spec l lower upper carry :
  bigits_ok l → bigit_ok lower → bigit_ok upper → 0 ≤ carry < B * B →
  eval (multiply64_loop l lower upper carry) = eval l * (lower + B * upper) + carry ∧
  bigits_ok (multiply64_loop l lower upper carry).
Proof.
  intros Hl Hlo Hup. revert carry. induction Hl as [|x l Hx _ IH]; intros carry Hc; cbn [multiply64_loop].
  - destruct (push_carry_spec carry Hc) as [-> ?]. split; [cbn; lia|done].
  - rw land_mask. destruct (split32 carry) as [Hs Hok]; [lia|].
    destruct (shiftr32_bound carry B) as [Hc1 Hc2]; [lia|]. rw /bigit_ok in Hx, Hlo, Hup, Hok.
    set (clo := wrap32 carry) in *. set (chi := Z.shiftr carry 32) in *.
    rw (wrap64_small (x * lower + clo)); [nia|].
    destruct (split32 (x * lower + clo)) as [Hs' Hok']; [nia|].
    destruct (shiftr32_bound (x * lower + clo) B) as [H1 H2]; [nia|].
    set (rlo := wrap32 (x * lower + clo)) in *. set (rhi := Z.shiftr (x * lower + clo) 32) in *.
    rw wrap64_small; [nia|]. destruct (IH (x * upper + rhi + chi)) as [He Ho]; [nia|].
    split; [cbn [eval]; rw He; nia|by constructor].
Qed.

Lemma assign_loop_spec n : 0 ≤ n < B * B → eval (assign_loop 2 n) = n ∧ bigits_ok (assign_loop 2 n).
Proof.
  intros Hn. cbn [assign_loop]. rw !land_mask. destruct (split32 n) as [Hs Hok]; [lia|].
  destruct (shiftr32_bound n B) as [H1 H2]; [lia|]. destruct (Z.eqb_spec (Z.shiftr n 32) 0) as [E|E].
  - split; [cbn; lia|by constructor; [|constructor]].
  - rw (wrap32_small (Z.shiftr n 32)) //. destruct (Z.eqb_spec (Z.shiftr (Z.shiftr n 32) 32) 0) as [E'|E'].
    + split; [cbn; lia|]. by repeat (constructor; [done|]).
    + destruct (shiftr32_bound (Z.shiftr n 32) 1); lia.
Qed.

Lemma shift_loop_spec l shift carry :
  bigits_ok l → 0 < shift < 32 → 0 ≤ carry < 2 ^ shift →
  eval (shift_loop l shift carry) = eval l * 2 ^ shift + carry ∧ bigits_ok (shift_loop l shift carry).
Proof.
  intros Hl Hs. revert carry. induction Hl as [|x l Hx _ IH]; intros carry Hc; cbn [shift_loop].
  - destruct (Z.eqb_spec carry 0) as [->|]; [done|]. split; [cbn; lia|]. constructor; [|constructor].
    split; [lia|]. assert (2 ^ shift ≤ 2 ^ 32) by (apply Z.pow_le_mono_r; lia). rw /B. lia.
  - rw Z.shiftl_mul_pow2; [lia|]. rw Z.shiftr_div_pow2; [lia|].
    assert (B = 2 ^ shift * 2 ^ (32 - shift)) as HB by (rw -Z.pow_add_r; [lia..|]; rw /B; f_equal; lia).
    assert (0 < 2 ^ shift) by (apply Z.pow_pos_nonneg; lia).
    assert (0 < 2 ^ (32 - shift)) by (apply Z.pow_pos_nonneg; lia).
    set (p := 2 ^ shift) in *. set (q := 2 ^ (32 - shift)) in *. rw /bigit_ok in Hx.
    pose proof (Z.div_mod x q) as Hdm. pose proof (Z.mod_pos_bound x q) as Hmb.
    assert (wrap32 (x * p) = (x mod q) * p) as ->.
    { rw /wrap32. change (2 ^ 32) with B. rw HB (Z.mul_comm x) Z.mul_mod_distr_l; [lia..|]. lia. }
    assert (0 ≤ x / q < p) by (split; [apply Z.div_pos; lia|apply Z.div_lt_upper_bound; lia]).
    assert (bigit_ok (x mod q * p + carry)) by (rw /bigit_ok HB; nia).
    rw wrap32_small //. destruct (IH (x / q)) as [He Ho]; [done|].
    split; [cbn [eval]; rw He HB; nia|by constructor].
Qed.

(** ** The top bigit *)

Lemma canonical_large r :
  bigits_ok r → r ≠ [] → B ^ (Z.of_nat (length r) - 1) ≤ eval r → canonical r.
Proof.
  intros Hr Hn He. split; [done|]. destruct (exists_last Hn) as (r' & x & ->). exists r', x. split; [done|]. intros ->.
  apply Forall_app in Hr as [Hr _]. apply eval_bounds in Hr. move: He. rw eval_app length_app. cbn [length eval].
  replace (Z.of_nat (length r' + 1) - 1) with (Z.of_nat (length r')) by lia. lia.
Qed.

(** What is pushed behind the bigits of a loop: nothing, or something with a top. *)
Definition pushed (t : list Z) : Prop := t = [] ∨ ∃ t' x, t = t' ++ [x] ∧ x ≠ 0.

Lemma canonical_pushed l r t :
  canonical l → bigits_ok (r ++ t) → length r = length l → pushed t → eval l ≤ eval (r ++ t) → canonical (r ++ t).
Proof.
  intros Hl Hr Hlen Ht He. destruct Ht as [->|(t' & x & -> & Hx)].
  - rw app_nil_r in Hr, He |- *. apply canonical_bounds in Hl as Hb. apply canonical_large; [done| |].
    + apply canonical_length in Hl. by destruct r; [simpl in Hlen; lia|].
    + rw Hlen. lia.
  - split; [done|]. exists (r ++ t'), x. by rw app_assoc.
Qed.

Lemma multiply32_loop_shape l v carry :
  ∃ r t, multiply32_loop l v carry = r ++ t ∧ length r = length l ∧ pushed t.
Proof.
  revert carry. induction l as [|x l IH]; intros carry; cbn [multiply32_loop].
  - destruct (Z.eqb_spec carry 0); [exists [], []; split; [done|split; [done|by left]]|].
    exists [], [carry]. split; [done|split; [done|right]]. by exists [], carry.
  - destruct (IH (wrap32 (Z.shiftr (wrap64 (x * v + carry)) 32))) as (r & t & -> & Hl & Ht).
    eexists (_ :: r), t. split; [done|split; [cbn; lia|done]].
Qed.

Lemma push_carry_pushed n z : 0 ≤ z < B ^ Z.of_nat n → pushed (push_carry n z).
Proof.
  revert z. induction n as [|n IH]; intros z Hz; cbn [push_carry]; [by left|].
  destruct (Z.eqb_spec z 0) as [|Hz0]; [by left|right]. rw pow_B_nat in Hz. apply shiftr32_bound in Hz as Hs.
  destruct (IH (Z.shiftr z 32) Hs) as [E|(t & x & -> & Hx)]; [|by exists (Z.land z (2 ^ 32 - 1) :: t), x].
  rw E. eexists [], _. split; [done|]. rw land_mask. destruct (split32 z) as [Hz' _]; [lia|].
  assert (Z.shiftr z 32 = 0); [|lia]. destruct n; [rw Z.pow_0_r in Hs; lia|].
  cbn [push_carry] in E. by destruct (Z.eqb_spec (Z.shiftr z 32) 0).
Qed.

Lemma multiply64_loop_shape l lower upper carry :
  bigits_ok l → bigit_ok lower → bigit_ok upper → 0 ≤ carry < B * B →
  ∃ r t, multiply64_loop l lower upper carry = r ++ t ∧ length r = length l ∧ pushed t.
Proof.
  intros Hl Hlo Hup. revert carry. induction Hl as [|x l Hx _ IH]; intros carry Hc; cbn [multiply64_loop].
  - exists [], (push_carry 2 carry). split; [done|split; [done|]]. apply push_carry_pushed. exact Hc.
  - rw land_mask. set (res := wrap64 _). set (carry' := wrap64 _).
    destruct (IH carry') as (r & t & -> & Hl' & Ht); [by apply Z.mod_pos_bound|].
    eexists (_ :: r), t. split; [done|split; [cbn; lia|done]].
Qed.

Lemma shift_loop_shape l shift carry :
  ∃ r t, shift_loop l shift carry = r ++ t ∧ length r = length l ∧ pushed t.
Proof.
  revert carry. induction l as [|x l IH]; intros carry; cbn [shift_loop].
  - destruct (Z.eqb_spec carry 0); [exists [], []; split; [done|split; [done|by left]]|].
    exists [], [carry]. split; [done|split; [done|right]]. by exists [], carry.
  - destruct (IH (Z.shiftr x (32 - shift))) as (r & t & -> & Hl & Ht).
    eexists (_ :: r), t. split; [done|split; [cbn; lia|done]].
Qed.

(** ** Numbers *)

(** A number as the operations keep it: positive with a bigit on top, or zero. *)
Definition positive (b : bigint) : Prop := canonical (bigits_ b) ∧ 0 ≤ exp_ b.
Definition zero (b : bigint) : Prop := bigits_ b = [0] ∧ 0 ≤ exp_ b.

(** Its lowest bigit is not zero. *)
Definition tight (b : bigint) : Prop := head (bigits_ b) ≠ Some 0.

Lemma positive_bounds b : positive b → B ^ (num_bigits b - 1) ≤ value b < B ^ num_bigits b.
Proof.
  intros [Hc He]. apply canonical_bounds in Hc as Hb. apply canonical_length in Hc.
  rw /value /num_bigits /size. pose proof (pow_B_pos _ He).
  replace (Z.of_nat (length (bigits_ b)) + exp_ b - 1) with (Z.of_nat (length (bigits_ b)) - 1 + exp_ b) by lia.
  assert (∀ n, 0 ≤ n → B ^ (n + exp_ b) = B ^ n * B ^ exp_ b) as Hp by (intros; by apply Z.pow_add_r).
  rw (Hp (Z.of_nat _ - 1)); [lia|]. rw Hp; [lia|]. nia.
Qed.

Lemma positive_value b : positive b → 0 < value b.
Proof.
  intros Hb. apply positive_bounds in Hb as H1. destruct Hb as [Hc He]. apply canonical_length in Hc.
  assert (0 < B ^ (num_bigits b - 1)) by (apply pow_B_pos; rw /num_bigits /size; lia). lia.
Qed.

Lemma zero_value b : zero b → value b = 0.
Proof. intros [Hb _]. by rw /value Hb. Qed.

Lemma assign_spec n : 0 < n < 2 ^ 64 → value (assign n) = n ∧ positive (assign n).
Proof.
  intros Hn. destruct (assign_loop_spec n) as [He Ho]; [exact (conj (Z.lt_le_incl _ _ (proj1 Hn)) (proj2 Hn))|].
  split; [by rw /value Z.mul_1_r|]. split; [|done]. cbn [bigits_ assign].
  apply canonical_large; [done|done|]. rw He. cbn [assign_loop]. destruct (Z.eqb_spec (Z.shiftr n 32) 0) as [E|E]; [cbn; lia|].
  destruct (split32 n) as [Hs Hb]; [lia|]. destruct (shiftr32_bound n B) as [H1 H2]; [exact (conj (Z.lt_le_incl _ _ (proj1 Hn)) (proj2 Hn))|].
  assert (Z.shiftr (Z.shiftr n 32) 32 = 0) as -> by (destruct (shiftr32_bound (Z.shiftr n 32) 1); lia).
  cbn [Z.eqb length]. change (B ^ _) with B. rw /bigit_ok in Hb. pose proof B_pos. nia.
Qed.

Lemma multiply32_spec b v :
  0 < v < B →
  (positive b → positive (multiply32 b v) ∧ value (multiply32 b v) = value b * v) ∧
  (zero b → zero (multiply32 b v)).
Proof.
  intros Hv. split.
  - intros [Hc He]. destruct (multiply32_loop_spec (bigits_ b) v 0) as [Hx Ho]; [apply Hc|rw /bigit_ok; lia|done|].
    split; [split; [|done]|rw /value /multiply32 /= Hx; ring]. cbn [multiply32 bigits_].
    destruct (multiply32_loop_shape (bigits_ b) v 0) as (r & t & E & Hl & Ht). rw E in Hx, Ho |- *.
    apply (canonical_pushed (bigits_ b)); [done..|]. apply canonical_bounds in Hc as Hb.
    pose proof (pow_B_pos (Z.of_nat (length (bigits_ b)) - 1)). apply canonical_length in Hc. nia.
  - intros [Hb He]. split; [|done]. by rw /multiply32 Hb.
Qed.

Lemma multiply64_spec b v :
  positive b → 0 < v < 2 ^ 64 → positive (multiply64 b v) ∧ value (multiply64 b v) = value b * v.
Proof.
  intros [Hc He] Hv. destruct (split32 v) as [Hs Hlo]; [lia|]. destruct (shiftr32_bound v B) as [Hu1 Hu2]; [exact (conj (Z.lt_le_incl _ _ (proj1 Hv)) (proj2 Hv))|].
  rw /multiply64 land_mask.
  destruct (multiply64_loop_spec (bigits_ b) (wrap32 v) (Z.shiftr v 32) 0) as [Hx Ho]; [apply Hc|done..|].
  split; [split; [|done]|rw /value /= Hx Hs; ring]. cbn [bigits_].
  destruct (multiply64_loop_shape (bigits_ b) (wrap32 v) (Z.shiftr v 32) 0) as (r & t & E & Hl & Ht); [apply Hc|done..|].
  rw E in Hx, Ho |- *. apply (canonical_pushed (bigits_ b)); [done..|]. apply canonical_bounds in Hc as Hb.
  pose proof (pow_B_pos (Z.of_nat (length (bigits_ b)) - 1)). apply canonical_length in Hc. nia.
Qed.

Lemma shift_left_spec b n :
  positive b → 0 ≤ n → positive (shift_left b n) ∧ value (shift_left b n) = value b * 2 ^ n.
Proof.
  intros [Hc He] Hn. rw /shift_left.
  assert (0 ≤ n / 32) by (by apply Z.div_pos). pose proof (Z.mod_pos_bound n 32) as Hm.
  assert (B ^ (exp_ b + n / 32) * 2 ^ (n mod 32) = B ^ exp_ b * 2 ^ n) as Hp.
  { rw Z.pow_add_r // /B -!Z.pow_mul_r // -!Z.pow_add_r; [lia..|]. f_equal. pose proof (Z.div_mod n 32). lia. }
  destruct (Z.eqb_spec (n mod 32) 0) as [E|E].
  - rw E Z.pow_0_r Z.mul_1_r in Hp. split; [split; [done|cbn; lia]|]. rw /value /= Hp. ring.
  - destruct (shift_loop_spec (bigits_ b) (n mod 32) 0) as [Hx Ho]; [apply Hc|lia|split; [done|apply Z.pow_pos_nonneg; lia]|].
    split; [split; [|cbn; lia]|].
    + cbn [bigits_]. destruct (shift_loop_shape (bigits_ b) (n mod 32) 0) as (r & t & E' & Hl & Ht). rw E' in Hx, Ho |- *.
      apply (canonical_pushed (bigits_ b)); [done..|]. rw Hx. apply canonical_bounds in Hc as Hb.
      apply canonical_length in Hc. pose proof (pow_B_pos (Z.of_nat (length (bigits_ b)) - 1)).
      assert (0 < 2 ^ (n mod 32)) by (apply Z.pow_pos_nonneg; lia). nia.
    + rw /value /= Hx -Z.mul_assoc. rw Z.add_0_r. rw -Z.mul_assoc (Z.mul_comm (2 ^ _)) Hp. ring.
Qed.

(** ** Comparison *)

(** A list with its highest bigit first, as the top of [n] bigits. *)
Definition top (l : list Z) (n : nat) : Z := eval (reverse l) * B ^ Z.of_nat (n - length l).

Lemma top_bounds l n : bigits_ok l → (length l ≤ n)%nat → 0 ≤ top l n < B ^ Z.of_nat n.
Proof.
  intros Hl Hn. assert (bigits_ok (reverse l)) as Hb%eval_bounds by (by apply Forall_reverse). rw length_reverse in Hb.
  rw /top. pose proof (pow_B_pos (Z.of_nat (n - length l))). split; [nia|].
  replace (Z.of_nat n) with (Z.of_nat (length l) + Z.of_nat (n - length l)) by lia. rw Z.pow_add_r; [lia..|]. nia.
Qed.

Lemma top_cons x l n : (length l ≤ n)%nat → top (x :: l) (S n) = x * B ^ Z.of_nat n + top l n.
Proof.
  intros Hn. rw /top reverse_cons eval_app length_reverse. cbn [eval length].
  replace (Z.of_nat n) with (Z.of_nat (length l) + Z.of_nat (n - length l)) by lia.
  rw Z.pow_add_r; [lia..|]. rw Nat.sub_succ. ring.
Qed.

Lemma compare_bigits_spec l r n :
  bigits_ok l → bigits_ok r → (length l ≤ n)%nat → (length r ≤ n)%nat →
  (top l n < top r n → compare_bigits l r = -1) ∧ (top r n < top l n → compare_bigits l r = 1) ∧
  (top l n = top r n → compare_bigits l r = Z.sgn (Z.of_nat (length l) - Z.of_nat (length r))).
Proof.
  intros Hl. revert r n. induction Hl as [|x l Hx Hl IH]; intros r n Hr Hln Hrn.
  - destruct Hr as [|y r Hy Hr]; [cbn; lia|].
    destruct (top_bounds (y :: r) n) as [? _]; [by constructor|done|].
    change (top [] n) with 0. cbn [compare_bigits length]. split; [done|]. split; lia.
  - destruct Hr as [|y r Hy Hr].
    + destruct (top_bounds (x :: l) n) as [? _]; [by constructor|done|].
      change (top [] n) with 0. cbn [compare_bigits length]. split; [lia|]. split; lia.
    + destruct n as [|n]; [cbn in Hln; lia|]. cbn in Hln, Hrn. rw !top_cons; [lia..|].
      destruct (top_bounds l n Hl) as [? ?]; [lia|]. destruct (top_bounds r n Hr) as [? ?]; [lia|].
      cbn [compare_bigits]. destruct (Z.eqb_spec x y) as [->|Hxy].
      * destruct (IH r n Hr) as (I1 & I2 & I3); [lia..|]. split; [intros; apply I1; lia|]. split; [intros; apply I2; lia|].
        intros. rw I3; [lia|]. cbn [length]. f_equal. lia.
      * destruct (Z.ltb_spec y x); (split; [nia|split; nia]).
Qed.

(** A number that is compared with [o]: a zero must not have more low bigits than [o]. *)
Definition fits (b o : bigint) : Prop := positive b ∨ zero b ∧ exp_ b ≤ exp_ o.

Lemma fits_ok b o : fits b o → bigits_ok (bigits_ b) ∧ 0 ≤ exp_ b ∧ (0 < length (bigits_ b))%nat.
Proof.
  intros [[Hc He]|[[-> He] _]]; [split; [apply Hc|split; [done|by apply canonical_length]]|].
  split; [by constructor; [|constructor]|split; [done|cbn; lia]].
Qed.

Lemma fits_bound b o : fits b o → 0 ≤ value b < B ^ num_bigits b.
Proof.
  intros Hf. apply fits_ok in Hf as (Hb%eval_bounds & He & _). rw /value /num_bigits /size.
  pose proof (pow_B_pos _ He). rw Z.pow_add_r; [lia..|]. nia.
Qed.

Lemma fits_longer b o : positive o → fits b o → num_bigits o < num_bigits b → value o < value b.
Proof.
  intros Ho Hf Hn. destruct Hf as [Hb|[[Hb _] He]].
  - apply positive_bounds in Ho, Hb. assert (B ^ num_bigits o ≤ B ^ (num_bigits b - 1)) by (apply pow_B_le; lia). lia.
  - destruct Ho as [Hc%canonical_length _]. rw /num_bigits /size Hb /= in Hn. lia.
Qed.

Lemma fits_shorter b o : positive o → fits b o → num_bigits b < num_bigits o → value b < value o.
Proof.
  intros Ho Hf Hn. apply positive_bounds in Ho. apply fits_bound in Hf.
  assert (B ^ num_bigits b ≤ B ^ (num_bigits o - 1)) by (apply pow_B_le; lia). lia.
Qed.

Lemma value_top b n e :
  0 ≤ e ≤ exp_ b → Z.of_nat n = size b + exp_ b - e → value b = top (reverse (bigits_ b)) n * B ^ e.
Proof.
  intros He Hn. rw /value /top reverse_involutive length_reverse -Z.mul_assoc -Z.pow_add_r; [lia..|].
  do 2 f_equal. rw /size in Hn. lia.
Qed.

Lemma compare_spec b o :
  positive o → fits b o →
  (value b < value o → compare b o = -1) ∧ (value o < value b → compare b o = 1) ∧
  (value b = value o → compare b o = Z.sgn (exp_ o - exp_ b)).
Proof.
  intros Ho Hf. rw /compare. destruct (Z.eqb_spec (num_bigits b) (num_bigits o)) as [E|E].
  - apply fits_ok in Hf as (Hb & Heb & Hlb). destruct Ho as [Hc Heo]. apply canonical_length in Hc as Hlo.
    set (e := Z.min (exp_ b) (exp_ o)). set (n := Z.to_nat (num_bigits b - e)).
    rw /num_bigits /size in E. assert (Z.of_nat n = size b + exp_ b - e) as Hn by (rw /n /num_bigits /size; lia).
    rw (value_top b n e) ?(value_top o n e); [rw /size in Hn |- *; lia..|]. rw /size in Hn.
    destruct (compare_bigits_spec (reverse (bigits_ b)) (reverse (bigits_ o)) n) as (I1 & I2 & I3);
      [by apply Forall_reverse|apply Forall_reverse, Hc|rw length_reverse; lia..|].
    pose proof (pow_B_pos e). rw !length_reverse in I3.
    split; [intros; apply I1; nia|]. split; [intros; apply I2; nia|].
    intros Heq. rw I3; [nia|]. f_equal. lia.
  - destruct (Z.ltb_spec (num_bigits o) (num_bigits b)).
    + pose proof (fits_longer _ _ Ho Hf). split; [lia|split; [done|lia]].
    + pose proof (fits_shorter _ _ Ho Hf). split; [done|split; lia].
Qed.

(** Equal numbers are told apart when the left one has more low bigits left out. *)
Definition comparable (b o : bigint) : Prop := fits b o ∧ (value b = value o → exp_ b ≤ exp_ o).

Lemma compare_ge b o : positive o → comparable b o → 0 ≤ compare b o ↔ value o ≤ value b.
Proof.
  intros Ho [Hf He]. destruct (compare_spec b o Ho Hf) as (I1 & I2 & I3).
  destruct (Z.lt_trichotomy (value b) (value o)) as [H|[H|H]]; [rw I1; [done|]; lia| |rw I2; [done|]; lia].
  rw I3 //. specialize (He H). split; lia.
Qed.

Lemma tight_comparable b o : positive o → fits b o → tight o → comparable b o.
Proof.
  intros Ho Hf Ht. split; [done|]. intros H. destruct (Z.le_gt_cases (exp_ b) (exp_ o)); [done|]. exfalso.
  apply fits_ok in Hf as (Hb%eval_bounds & Heb & _). destruct Ho as [[Ho (l & x & E & _)] Heo].
  assert (B ^ exp_ b = B * B ^ (exp_ b - exp_ o - 1) * B ^ exp_ o) as Hp
    by (rw -pow_B_succ; [lia|]; rw -Z.pow_add_r; [lia..|]; f_equal; lia).
  rw /value Hp in H. pose proof (pow_B_pos (exp_ o)).
  assert (eval (bigits_ o) = B * (eval (bigits_ b) * B ^ (exp_ b - exp_ o - 1))) as He by nia.
  rw /tight in Ht. destruct (bigits_ o) as [|y r]; [by destruct l|]. apply Ht. cbn [head]. f_equal.
  apply Forall_inv in Ho. rw /bigit_ok in Ho. cbn [eval] in He.
  set (z := eval (bigits_ b) * _) in He. assert (y = B * (z - eval r)) as Hy by lia.
  assert (z - eval r = 0) as Hz by nia. by rw Hy Hz Z.mul_0_r.
Qed.

(** ** Subtraction *)

Lemma subtract_bigits_spec l i x y borrow :
  l !! i = Some x → bigits_ok l → bigit_ok y → 0 ≤ borrow ≤ 1 →
  ∃ l' borrow', subtract_bigits l i y borrow = Some (l', borrow') ∧ bigits_ok l' ∧ length l' = length l ∧
    0 ≤ borrow' ≤ 1 ∧ (y + borrow ≤ x → borrow' = 0) ∧
    eval l' = eval l - (y + borrow) * B ^ Z.of_nat i + borrow' * B ^ Z.of_nat (S i).
Proof.
  intros Hi Hl Hy Hb. rw /subtract_bigits Hi /=.
  assert (bigit_ok x) as Hx by (by eapply Forall_lookup_1). rw /bigit_ok in Hx, Hy.
  set (r := x - y - borrow).
  assert (∃ z c, wrap32 (wrap64 r) = z ∧ wrap32 (Z.shiftr (wrap64 r) 63) = c ∧ bigit_ok z ∧ 0 ≤ c ≤ 1 ∧
                 (0 ≤ r → c = 0) ∧ z = r + c * B) as (z & c & -> & -> & Hz & Hc & Hr & Ez).
  { destruct (Z.le_gt_cases 0 r) as [H0|H0].
    - exists r, 0. rw (wrap64_small r); [rw /r; unfold B in *; lia|]. rw wrap32_small; [rw /bigit_ok /r; lia|].
      rw Z.shiftr_div_pow2 // Z.div_small; [rw /r; unfold B in *; lia|]. rw /bigit_ok /r. repeat split; try done; lia.
    - exists (r + B), 1.
      assert (wrap64 r = r + 2 ^ 64) as -> by (rw /wrap64 -(Z.mod_add r 1) // Z.mul_1_l Z.mod_small //; rw /r; unfold B in *; lia).
      split; [rw /wrap32; replace (r + 2 ^ 64) with ((r + B) + (2 ^ 32 - 1) * 2 ^ 32) by (rw /B; lia);
        rw Z.mod_add // Z.mod_small //; rw /r; unfold B in *; lia|].
      split; [rw Z.shiftr_div_pow2 //; replace (r + 2 ^ 64) with ((r + 2 ^ 63) + 1 * 2 ^ 63) by lia;
        rw Z.div_add // Z.div_small //; rw /r; unfold B in *; lia|].
      rw /bigit_ok. repeat split; rw /r; unfold B in *; lia. }
  do 2 eexists. split; [done|]. split; [by apply Forall_insert|]. split; [apply length_insert|].
  split; [done|]. split; [intros; apply Hr; rw /r; lia|].
  rw (eval_insert _ _ _ _ Hi) pow_B_nat Ez /r. ring.
Qed.

Lemma subtract_all_spec l i other borrow :
  bigits_ok l → bigits_ok other → (i + length other ≤ length l)%nat → 0 ≤ borrow ≤ 1 →
  ∃ l' borrow', subtract_all l i other borrow = Some (l', (i + length other)%nat, borrow') ∧
    bigits_ok l' ∧ length l' = length l ∧ 0 ≤ borrow' ≤ 1 ∧
    eval l' = eval l - (eval other + borrow) * B ^ Z.of_nat i + borrow' * B ^ Z.of_nat (i + length other).
Proof.
  intros Hl Ho. revert l i borrow Hl. induction Ho as [|y other Hy _ IH]; intros l i borrow Hl Hlen Hb; cbn [subtract_all].
  - exists l, borrow. rw Nat.add_0_r. cbn [eval]. repeat split; try done; lia.
  - cbn [length] in Hlen. destruct (lookup_lt_is_Some_2 l i) as [x Hx]; [lia|].
    destruct (subtract_bigits_spec l i x y borrow Hx Hl Hy Hb) as (l1 & b1 & -> & Hl1 & Hlen1 & Hb1 & _ & He1).
    cbn. destruct (IH l1 (S i) b1 Hl1) as (l2 & b2 & -> & Hl2 & Hlen2 & Hb2 & He2); [lia|done|].
    exists l2, b2. replace (S i + length other)%nat with (i + S (length other))%nat in * by lia.
    split; [done|]. split; [done|]. split; [lia|]. split; [done|]. rw He2 He1 !pow_B_nat. cbn [eval]. ring.
Qed.

#[local] Opaque B.

(** The loop after the last bigit of the subtrahend, where at most one bigit is left. *)
Lemma subtract_borrow_spec l i c x :
  bigits_ok l → 0 ≤ c ≤ 1 → 0 ≤ x → eval l = x + c * B ^ Z.of_nat i → (length l ≤ S i)%nat →
  ∃ l', subtract_borrow 2 l i c = Some l' ∧ bigits_ok l' ∧ length l' = length l ∧ eval l' = x.
Proof.
  intros Hl Hc Hx He Hi. assert (c = 0 ∨ c = 1) as [-> | ->] by lia; [exists l; split; [done|]; split; [done|]; split; [done|lia]|].
  pose proof (eval_bounds l Hl) as Hb. rw Z.mul_1_l in He.
  assert (i < length l)%nat as Hlt.
  { apply Nat.lt_nge. intros Hle. assert (B ^ Z.of_nat (length l) ≤ B ^ Z.of_nat i) by (by apply pow_B_le, Nat2Z.inj_le). lia. }
  destruct (lookup_lt_is_Some_2 l i Hlt) as [y Hy].
  destruct (subtract_bigits_spec l i y 0 1 Hy Hl) as (l2 & c2 & E2 & Hl2 & Hlen2 & Hc2 & Hz2 & Ev2); [done|lia|].
  assert (c2 = 0) as ->.
  { apply Hz2. rw (eval_take_drop l i) in He; [lia|]. rw (drop_S _ _ _ Hy) drop_ge in He; [lia|]. cbn [eval] in He.
    assert (bigits_ok (take i l)) as Ht%eval_bounds by (by apply Forall_take). rw length_take Nat.min_l in Ht; [lia|].
    clear -He Ht Hx. nia. }
  exists l2. cbn [subtract_borrow]. cbn [Z.ltb]. rw E2 /=. split; [done|]. split; [done|]. split; [done|]. lia.
Qed.

Lemma subtract_aligned_spec b o :
  positive b → positive o → exp_ b ≤ exp_ o → value o ≤ value b < B * value o →
  ∃ b', subtract_aligned b o = Some b' ∧ value b' = value b - value o ∧ exp_ b' = exp_ b ∧ (positive b' ∨ zero b').
Proof.
  intros Hb Ho He Hv. pose proof (positive_bounds b Hb) as Bb. pose proof (positive_bounds o Ho) as Bo.
  destruct Hb as [[Hb Hbt] Heb], Ho as [[Ho Hot] Heo].
  assert (num_bigits o ≤ num_bigits b ≤ num_bigits o + 1) as Hn.
  { split.
    - apply Z.le_ngt. intros Hlt. assert (B ^ num_bigits b ≤ B ^ (num_bigits o - 1)) by (apply pow_B_le; lia). lia.
    - apply Z.le_ngt. intros Hlt. assert (B ^ (num_bigits o + 1) ≤ B ^ (num_bigits b - 1)) by (apply pow_B_le; lia).
      rw pow_B_succ in H; [rw /num_bigits /size; lia|]. pose proof B_pos.
      assert (B * value o ≤ B * B ^ num_bigits o) by (apply Z.mul_le_mono_nonneg_l; lia). lia. }
  rw /num_bigits /size in Hn. rw /subtract_aligned. set (k := Z.to_nat (exp_ o - exp_ b)).
  assert (value b - value o = (eval (bigits_ b) - eval (bigits_ o) * B ^ Z.of_nat k) * B ^ exp_ b) as Hval.
  { rw /value Z.mul_sub_distr_r -Z.mul_assoc -Z.pow_add_r; [lia..|]. do 3 f_equal. lia. }
  pose proof (pow_B_pos _ Heb) as Hpos.
  destruct (subtract_all_spec (bigits_ b) k (bigits_ o) 0 Hb Ho) as (l1 & c & -> & Hl1 & Hlen1 & Hc & Ev1); [rw /k; clear -Hn He; lia|lia|].
  cbn [mbind option_bind]. rw Z.add_0_r in Ev1. set (i := (k + length (bigits_ o))%nat) in *.
  assert (∃ l2, subtract_borrow 2 l1 i c = Some l2 ∧ bigits_ok l2 ∧ length l2 = length (bigits_ b) ∧
                eval l2 = eval (bigits_ b) - eval (bigits_ o) * B ^ Z.of_nat k) as (l2 & -> & Hl2 & Hlen2 & Ev2).
  { destruct (subtract_borrow_spec l1 i c (eval (bigits_ b) - eval (bigits_ o) * B ^ Z.of_nat k)) as (l2 & ? & ? & ? & ?);
      [done|done|apply (Z.mul_nonneg_cancel_r _ _ Hpos); rw -Hval; lia|done|rw /i; clear -Hn Hlen1 He; lia|].
    exists l2. by rw -Hlen1. }
  cbn [mbind option_bind]. assert (l2 ≠ []) as Hne.
  { intros ->. destruct Hbt as (? & ? & Eb & _). rw Eb length_app in Hlen2. cbn in Hlen2. clear -Hlen2. lia. }
  destruct (remove_leading_zeros_spec l2 Hl2 Hne) as (Er & Hr & _ & Hcan).
  eexists. split; [done|]. split; [rw Hval /value /= Er Ev2; done|]. split; [done|].
  destruct Hcan as [Hcan| ->]; [by left|by right].
Qed.

(** ** Division *)

Lemma align_spec b o :
  positive b → 0 ≤ exp_ o → value (align b o) = value b ∧ positive (align b o) ∧ exp_ (align b o) ≤ exp_ o.
Proof.
  intros Hb Ho. rw /align. destruct (Z.leb_spec (exp_ b - exp_ o) 0); [split; [done|split; [done|lia]]|].
  destruct Hb as [[Hb (l & x & E & Hx)] He]. set (k := Z.to_nat (exp_ b - exp_ o)).
  split; [|split; [split; [split|cbn; lia]|cbn; lia]]; cbn [bigits_ exp_].
  - rw /value eval_zeros /=. replace (exp_ b - (exp_ b - exp_ o)) with (exp_ o) by lia.
    rw (Z.mul_comm (B ^ _)) -Z.mul_assoc -Z.pow_add_r; [lia..|]. do 2 f_equal. lia.
  - apply Forall_app. split; [|done]. apply Forall_replicate. rw /bigit_ok. pose proof B_pos. lia.
  - exists (replicate k 0 ++ l), x. by rw E app_assoc.
Qed.

Lemma positive_or_zero b : positive b ∨ zero b → 0 < value b → positive b.
Proof. intros [Hb|Hb%zero_value] Hv; [done|lia]. Qed.

Lemma div_once a d : 0 < d → d ≤ a → a / d = 1 + (a - d) / d ∧ a mod d = (a - d) mod d.
Proof.
  intros Hd Ha. replace a with ((a - d) + 1 * d) at 1 3 by lia. rw Z.div_add; [lia|]. rw Z.mod_add; [lia|]. lia.
Qed.

Lemma divmod_loop_spec fuel b o q :
  positive o → positive b → exp_ b ≤ exp_ o → value o ≤ value b < B * value o →
  value b / value o ≤ Z.of_nat fuel →
  ∃ b', divmod_loop fuel b o q = Some (q + value b / value o, b') ∧ value b' = value b mod value o ∧
        fits b' o ∧ exp_ b' ≤ exp_ o.
Proof.
  intros Ho. revert b q. induction fuel as [|fuel IH]; intros b q Hb He Hv Hf;
    pose proof (positive_value o Ho) as Hpos; destruct (div_once (value b) (value o)) as [Ed Em]; [done|lia| |done|lia|].
  - assert (0 ≤ (value b - value o) / value o) by (apply Z.div_pos; lia). lia.
  - cbn [divmod_loop]. destruct (subtract_aligned_spec b o Hb Ho He Hv) as (b1 & -> & Ev & Ee & Hb1).
    cbn [mbind option_bind]. rw -Ev in Ed, Em. rw Ed Em.
    assert (fits b1 o) as Hfit by (destruct Hb1; [by left|right; split; [done|lia]]).
    assert (0 ≤ compare b1 o ↔ value o ≤ value b1) as Hcmp by (apply compare_ge; [done|split; [done|lia]]).
    destruct (Z.leb_spec 0 (compare b1 o)) as [Hc|Hc].
    + apply Hcmp in Hc. destruct (IH b1 (q + 1)) as (b' & -> & ? & ?); [apply positive_or_zero; [done|lia]|lia|lia|lia|].
      exists b'. split; [do 2 f_equal; lia|done].
    + assert (value b1 < value o) by (apply Z.nle_gt; intros ?%Hcmp; lia).
      rw Z.div_small; [lia|]. rw Z.mod_small; [lia|]. exists b1. split; [do 2 f_equal; lia|]. split; [done|]. split; [done|lia].
Qed.

Lemma divmod_assign_spec fuel b o :
  positive o → comparable b o → value b < B * value o → value b / value o ≤ Z.of_nat fuel →
  ∃ b', divmod_assign fuel b o = Some (value b / value o, b') ∧ value b' = value b mod value o ∧
        fits b' o ∧ (exp_ b ≤ exp_ o ∨ value o ≤ value b → exp_ b' ≤ exp_ o).
Proof.
  intros Ho Hc Hlt Hfuel. rw /divmod_assign. pose proof (positive_value o Ho). pose proof (compare_ge b o Ho Hc) as Hcmp.
  destruct Hc as [Hf _]. pose proof (fits_bound _ _ Hf).
  destruct (Z.ltb_spec (compare b o) 0) as [Hc|Hc].
  - assert (value b < value o) by (apply Z.nle_gt; intros ?%Hcmp; lia).
    exists b. rw Z.div_small; [lia|]. rw Z.mod_small; [lia|]. split; [done|]. split; [done|]. split; [done|]. lia.
  - apply Hcmp in Hc. assert (positive b) as Hb by (destruct Hf as [|[Hz%zero_value _]]; [done|lia]).
    destruct (align_spec b o Hb (proj2 Ho)) as (Ev & Hp & He).
    destruct (divmod_loop_spec fuel (align b o) o 0 Ho Hp He) as (b' & -> & E & Hb' & He'); [lia|by rw Ev|].
    exists b'. rw -Ev. split; [done|]. split; [done|]. split; [done|]. done.
Qed.

(** The remainder has no fewer low bigits. *)
Lemma divmod_loop_exp fuel b o q q' b' : divmod_loop fuel b o q = Some (q', b') → exp_ b' = exp_ b.
Proof.
  revert b q. induction fuel as [|fuel IH]; intros b q H; [done|]. cbn [divmod_loop] in H.
  apply bind_Some in H as (b1 & H1 & H). assert (exp_ b1 = exp_ b) as E.
  { rw /subtract_aligned in H1. apply bind_Some in H1 as ([[l i] c] & _ & H1). apply bind_Some in H1 as (l' & _ & H1). by injection H1 as <-. }
  cbn zeta in H. case_match; [by apply IH in H as -> |]. by injection H as _ <-.
Qed.
Lemma divmod_exp fuel b o q b' : divmod_assign fuel b o = Some (q, b') → exp_ b' ≤ exp_ b.
Proof.
  rw /divmod_assign. case_match; [intros [= _ <-]; lia|]. intros ->%divmod_loop_exp. rw /align. destruct (Z.leb_spec (exp_ b - exp_ o) 0); cbn; lia.
Qed.

(** ** Sum and comparison *)

Lemma nth_digit l k : bigits_ok l → nth k l 0 = (eval l / B ^ Z.of_nat k) mod B.
Proof.
  intros Hl. revert k. induction Hl as [|x l Hx _ IH]; intros k.
  - cbn [eval]. rw Z.div_0_l; [pose proof (pow_B_pos (Z.of_nat k)); lia|]. by destruct k.
  - pose proof B_pos. rw /bigit_ok in Hx. destruct k as [|k]; cbn [nth eval].
    + rw Z.div_1_r (Z.mul_comm B) Z.mod_add; [lia|]. by rw Z.mod_small.
    + rw IH pow_B_nat -Z.div_div; [lia|apply pow_B_pos; lia|].
      rw (Z.mul_comm B (eval l)) Z.div_add; [lia|]. rw (Z.div_small x B); [lia|]. by rw Z.add_0_l.
Qed.

Lemma get_bigit_digit b i :
  bigits_ok (bigits_ b) → 0 ≤ exp_ b → 0 ≤ i → get_bigit b i = (value b / B ^ i) mod B.
Proof.
  intros Hb He Hi. pose proof B_pos. pose proof (pow_B_pos i Hi). rw /get_bigit /num_bigits /size.
  destruct (Z.leb_spec (exp_ b) i) as [Hle|Hgt]; cbn [andb].
  - destruct (Z.ltb_spec i (Z.of_nat (length (bigits_ b)) + exp_ b)) as [Hlt|Hge].
    + rw nth_digit // /value. f_equal. rw Z2Nat.id; [lia|].
      replace i with (i - exp_ b + exp_ b) at 2 by lia. rw Z.pow_add_r; [lia..|].
      rw Z.div_mul_cancel_r //; pose proof (pow_B_pos (exp_ b)); pose proof (pow_B_pos (i - exp_ b)); lia.
    + apply eval_bounds in Hb. rw (Z.div_small (value b)); [|by rw Z.mod_0_l; [lia|]]. rw /value.
      pose proof (pow_B_pos (exp_ b) He). split; [nia|].
      assert (B ^ (Z.of_nat (length (bigits_ b)) + exp_ b) ≤ B ^ i) by (apply pow_B_le; lia).
      rw Z.pow_add_r in H2; [lia..|]. nia.
  - rw /value. replace (exp_ b) with (exp_ b - i - 1 + 1 + i) by lia. rw Z.pow_add_r; [lia..|].
    rw pow_B_succ; [lia|]. rw Z.mul_assoc Z.div_mul; [lia|].
    rw (Z.mul_comm B) Z.mul_assoc Z.mod_mul //; lia.
Qed.

Lemma div_step v i : 0 ≤ i → v / B ^ i = B * (v / B ^ (i + 1)) + (v / B ^ i) mod B.
Proof.
  intros Hi. rw pow_B_succ // (Z.mul_comm B (B ^ i)) -Z.div_div; [pose proof (pow_B_pos i Hi); lia|done|].
  apply Z.div_mod. pose proof B_pos. lia.
Qed.

Lemma div_range v i : 0 ≤ i → v / B ^ i * B ^ i ≤ v < (v / B ^ i + 1) * B ^ i.
Proof.
  intros Hi. pose proof (pow_B_pos i Hi) as Hp. pose proof (Z.div_mod v (B ^ i)). pose proof (Z.mod_pos_bound v (B ^ i) Hp). nia.
Qed.

(** The bigits from index [i] on. *)
Definition high (b : bigint) (i : Z) : Z := value b / B ^ i.

Lemma add_compare_loop_spec l1 l2 r e n :
  bigits_ok (bigits_ l1) → bigits_ok (bigits_ l2) → bigits_ok (bigits_ r) →
  0 ≤ e → e ≤ exp_ l1 → e ≤ exp_ l2 → e ≤ exp_ r →
  let i := e + Z.of_nat n in
  let d := high r i - (high l1 i + high l2 i) in
  0 ≤ d ≤ 1 →
  add_compare_loop l1 l2 r e n (B * d) = Z.sgn (value l1 + value l2 - value r).
Proof.
  intros H1 H2 Hr He E1 E2 Er. induction n as [|n IH]; intros i d Hd; cbn [add_compare_loop].
  - assert (∀ b, e ≤ exp_ b → high b e * B ^ e = value b) as Hx.
    { intros b Hb. rw /high /value. replace (exp_ b) with (exp_ b - e + e) by lia. rw Z.pow_add_r; [lia..|].
      rw Z.mul_assoc Z.div_mul //. pose proof (pow_B_pos e He). lia. }
    rw /d /i Z.add_0_r -(Hx l1 E1) -(Hx l2 E2) -(Hx r Er). pose proof (pow_B_pos e He). pose proof B_pos.
    rw /d /i Z.add_0_r in Hd. destruct (Z.eqb_spec (B * (high r e - (high l1 e + high l2 e))) 0); [nia|]. nia.
  - set (j := e + Z.of_nat n) in *. assert (i = j + 1) as Ei by (rw /i /j; lia). assert (0 ≤ j) as Hj by (rw /j; lia).
    rw !get_bigit_digit //; [lia..|].
    pose proof (div_step (value l1) j Hj) as S1. pose proof (div_step (value l2) j Hj) as S2. pose proof (div_step (value r) j Hj) as Sr.
    pose proof (div_range (value l1) j Hj) as R1. pose proof (div_range (value l2) j Hj) as R2. pose proof (div_range (value r) j Hj) as Rr.
    rw /d Ei /high in Hd |- *. rw /high in IH. pose proof (pow_B_pos j Hj) as Hp.
    set (a1 := (value l1 / B ^ j) mod B) in *. set (a2 := (value l2 / B ^ j) mod B) in *. set (ar := (value r / B ^ j) mod B) in *.
    set (q1 := value l1 / B ^ j) in *. set (q2 := value l2 / B ^ j) in *. set (qr := value r / B ^ j) in *.
    assert (ar + B * (value r / B ^ (j + 1) - (value l1 / B ^ (j + 1) + value l2 / B ^ (j + 1))) - (a1 + a2) = qr - (q1 + q2)) as Hs by lia.
    destruct (Z.ltb_spec (ar + B * (value r / B ^ (j + 1) - (value l1 / B ^ (j + 1) + value l2 / B ^ (j + 1)))) (a1 + a2)).
    { symmetry. apply Z.sgn_pos. nia. }
    rw Hs. destruct (Z.ltb_spec 1 (qr - (q1 + q2))).
    { symmetry. apply Z.sgn_neg. nia. }
    rw -IH; [lia|]. f_equal. assert (qr - (q1 + q2) = 0 ∨ qr - (q1 + q2) = 1) as [-> | ->] by lia; done.
Qed.

Lemma add_compare_spec l1 l2 r :
  positive r → fits l1 r → fits l2 r → add_compare l1 l2 r = Z.sgn (value l1 + value l2 - value r).
Proof.
  intros Hr F1 F2. rw /add_compare. pose proof (positive_bounds r Hr) as Br. pose proof (positive_value r Hr) as Vr.
  pose proof (fits_bound _ _ F1) as B1. pose proof (fits_bound _ _ F2) as B2.
  destruct (fits_ok _ _ F1) as (O1 & X1 & L1). destruct (fits_ok _ _ F2) as (O2 & X2 & L2).
  set (m := Z.max (num_bigits l1) (num_bigits l2)).
  assert (B ^ num_bigits l1 ≤ B ^ m) as M1 by (apply pow_B_le; rw /m; clear; lia).
  assert (B ^ num_bigits l2 ≤ B ^ m) as M2 by (apply pow_B_le; rw /m; clear; lia).
  assert (0 ≤ m) by (rw /m /num_bigits /size; clear -X1; lia).
  destruct (Z.ltb_spec (m + 1) (num_bigits r)) as [Hm|Hm].
  { symmetry. apply Z.sgn_neg. assert (B ^ (m + 1) ≤ B ^ (num_bigits r - 1)) as Hp by (apply pow_B_le; lia).
    rw pow_B_succ // in Hp. pose proof B_large. nia. }
  destruct (Z.ltb_spec (num_bigits r) m) as [Hn|Hn].
  { symmetry. apply Z.sgn_pos. destruct (Z.max_spec (num_bigits l1) (num_bigits l2)) as [[_ E]|[_ E]].
    - pose proof (fits_longer l2 r Hr F2). lia.
    - pose proof (fits_longer l1 r Hr F1). lia. }
  destruct Hr as [Hc Xr]. apply canonical_length in Hc as Lr. set (e := Z.min _ _).
  assert (0 ≤ e) as He0 by (rw /e; clear -X1 X2 Xr; lia). assert (e ≤ num_bigits r) as Her by (rw /e /num_bigits /size; clear; lia).
  set (n := Z.to_nat (num_bigits r - e)). assert (e + Z.of_nat n = num_bigits r) as En by (rw /n; clear -Her; lia).
  assert (∀ b, 0 ≤ value b < B ^ num_bigits r → high b (e + Z.of_nat n) = 0) as Hh
    by (intros b Hb; rw En; by apply Z.div_small).
  assert (B ^ m ≤ B ^ num_bigits r) as Mr by (apply pow_B_le; clear -Hn; lia).
  assert (high r (e + Z.of_nat n) = 0) as Hr0 by (apply Hh; clear -Br Vr; lia).
  assert (high l1 (e + Z.of_nat n) = 0) as H10 by (apply Hh; clear -B1 M1 Mr; lia).
  assert (high l2 (e + Z.of_nat n) = 0) as H20 by (apply Hh; clear -B2 M2 Mr; lia).
  pose proof (add_compare_loop_spec l1 l2 r e n O1 O2 (proj1 Hc)) as Hl. cbv zeta in Hl. rw Hr0 H10 H20 in Hl.
  rw Z.mul_0_r in Hl. apply Hl; rw /e; clear -X1 X2 Xr; lia.
Qed.

(** ** Squares *)

Definition zsum (l : list Z) : Z := foldr Z.add 0 l.
Definition cross (n : list Z) (k i : nat) : Z := nth i n 0 * nth (k - i) n 0.

Lemma zsum_app l r : zsum (l ++ r) = zsum l + zsum r.
Proof. induction l as [|x l IH]; [done|]. cbn [app zsum foldr]. rw /zsum in IH |- *. rw IH. lia. Qed.

Lemma nth_bigit n i : bigits_ok n → 0 ≤ nth i n 0 < B.
Proof.
  intros Hn. destruct (nth_in_or_default i n 0) as [Hi| ->]; [|pose proof B_pos; lia].
  exact (proj1 (List.Forall_forall _ _) Hn _ Hi).
Qed.

Lemma cross_bound n k i : bigits_ok n → 0 ≤ cross n k i < B * B.
Proof. intros Hn. pose proof (nth_bigit n i Hn). pose proof (nth_bigit n (k - i) Hn). rw /cross. nia. Qed.

Lemma B2_width : B * B = 2 ^ 64.
Proof. by vm_compute. Qed.
Lemma B4_width : B * B * (B * B) = 2 ^ 128.
Proof. by vm_compute. Qed.

Lemma cross_products_spec n k from count sum :
  bigits_ok n → 0 ≤ sum → sum + Z.of_nat count * (B * B) < B * B * (B * B) →
  cross_products n k from count sum = sum + zsum (map (cross n k) (seq from count)).
Proof.
  intros Hn. rw /cross_products. revert from sum. induction count as [|count IH]; intros from sum Hs Hlt; [cbn; lia|].
  cbn [seq foldl map zsum foldr]. fold (cross n k from). pose proof (cross_bound n k from Hn) as Hc.
  rw Nat2Z.inj_succ in Hlt.
  assert (0 ≤ Z.of_nat count * (B * B)) by (apply Z.mul_nonneg_nonneg; [lia|rw B2_width; done]).
  rw wrap64_small; [done|]. rw /wrap128 Z.mod_small; [rw -B4_width; lia|].
  rw IH; [lia|lia|]. rw /zsum. lia.
Qed.

(** The columns of a product by their rows. *)
Fixpoint conv (a b : list Z) (k : nat) : Z :=
  match a with
  | [] => 0
  | x :: a => x * nth k b 0 + match k with O => 0 | S k => conv a b k end
  end.

Lemma conv_seq a b k : conv a b k = zsum (map (λ i, nth i a 0 * nth (k - i) b 0) (seq 0 (S k))).
Proof.
  revert k. induction a as [|x a IH]; intros k.
  - cbn [conv]. generalize (seq 0 (S k)). induction l as [|i l IH]; [done|].
    cbn [map]. rw (zsum_app [_]) -IH. by destruct i.
  - cbn [conv seq map]. rw Nat.sub_0_r. rw -seq_shift map_map. cbn [zsum foldr nth].
    destruct k as [|k]; [done|]. rw IH. f_equal.
Qed.

Lemma conv_high n k :
  (length n ≤ k)%nat →
  zsum (map (cross n k) (seq (k - (length n - 1)) (2 * length n - 1 - k))) = conv n n k.
Proof.
  intros Hk. rw conv_seq. change (λ i, nth i n 0 * nth (k - i) n 0) with (cross n k).
  assert (∀ from count, (∀ i, (from ≤ i < from + count)%nat → cross n k i = 0) →
            zsum (map (cross n k) (seq from count)) = 0) as Hz.
  { intros from count. revert from. induction count as [|c IH]; intros from Hi; [done|]. cbn [seq map zsum foldr].
    rw Hi; [lia|]. apply IH. intros i Hr. apply Hi. lia. }
  destruct (decide (length n = 0%nat)) as [E|E].
  { rw (Hz 0%nat (S k)); [intros i _; rw /cross !nth_overflow //; lia|]. apply Hz. intros i _. rw /cross !nth_overflow //; lia. }
  replace (S k) with ((k - (length n - 1)) + ((2 * length n - 1 - k) + (S k - (k - (length n - 1)) - (2 * length n - 1 - k))))%nat by lia.
  rw !seq_app !map_app !zsum_app. rw Nat.add_0_l.
  rw (Hz 0%nat); [intros i Hi; rw /cross (nth_overflow n (n := k - i)); [lia|lia]|].
  rw (Hz (_ + _)%nat); [intros i Hi; rw /cross (nth_overflow n (n := i)); [lia|lia]|]. lia.
Qed.

Lemma zsum_cross n k from count :
  bigits_ok n → 0 ≤ zsum (map (cross n k) (seq from count)) ≤ Z.of_nat count * ((B - 1) * (B - 1)).
Proof.
  intros Hn. revert from. induction count as [|count IH]; intros from; [done|].
  cbn [seq map]. rw (zsum_app [_]) Nat2Z.inj_succ. specialize (IH (S from)).
  assert (0 ≤ cross n k from ≤ (B - 1) * (B - 1)).
  { pose proof (nth_bigit n from Hn). pose proof (nth_bigit n (k - from) Hn). rw /cross. nia. }
  change (zsum [cross n k from]) with (cross n k from + 0). set (m := (B - 1) * (B - 1)) in *. lia.
Qed.

(** A column with the carry of the last one does not overflow 128 bits. *)
Lemma column_spec n k sum :
  bigits_ok n → Z.of_nat (length n) < B → 0 ≤ sum ≤ Z.of_nat (length n) * B → (k < 2 * length n)%nat →
  column n k sum = sum + conv n n k ∧ 0 ≤ conv n n k ≤ Z.of_nat (length n) * ((B - 1) * (B - 1)).
Proof.
  intros Hn Hlen Hs Hk. set (len := Z.of_nat (length n)) in *.
  assert (∀ count, Z.of_nat count ≤ len → sum + Z.of_nat count * (B * B) < B * B * (B * B)) as Hbound.
  { intros count Hc. pose proof B_large. assert (Z.of_nat count * (B * B) ≤ (B - 1) * (B * B)) by (apply Z.mul_le_mono_nonneg_r; nia).
    assert (len * B ≤ B * B) by nia. nia. }
  assert (∀ count, Z.of_nat count ≤ len → Z.of_nat count * ((B - 1) * (B - 1)) ≤ len * ((B - 1) * (B - 1))) as Hmono
    by (intros; apply Z.mul_le_mono_nonneg_r; [apply Z.mul_nonneg_nonneg; pose proof B_pos; lia|done]).
  rw /column. destruct (Nat.ltb_spec k (length n)) as [Hlt|Hge].
  - rw cross_products_spec; [done|lia|apply Hbound; rw /len; lia|].
    assert (conv n n k = zsum (map (cross n k) (seq 0 (S k)))) as Hc by apply conv_seq. rw -Hc. split; [done|]. rw Hc.
    destruct (zsum_cross n k 0 (S k) Hn) as [? H]. split; [done|]. etransitivity; [exact H|]. apply Hmono. rw /len. lia.
  - rw cross_products_spec; [done|lia|apply Hbound; rw /len; lia|]. rw conv_high //. split; [done|]. rw -(conv_high n k) //.
    destruct (zsum_cross n k (k - (length n - 1)) (2 * length n - 1 - k) Hn) as [? H].
    split; [done|]. etransitivity; [exact H|]. apply Hmono. rw /len. lia.
Qed.

(** The number with given columns. *)
Fixpoint columns (f : nat → Z) (m : nat) : Z :=
  match m with O => 0 | S m => f O + B * columns (λ t, f (S t)) m end.

Lemma columns_ext f g m : (∀ t, f t = g t) → columns f m = columns g m.
Proof. revert f g. induction m as [|m IH]; intros f g E; [done|]. cbn [columns]. rw E (IH _ (λ t, g (S t))) //. Qed.
Lemma columns_add f g m : columns (λ t, f t + g t) m = columns f m + columns g m.
Proof. revert f g. induction m as [|m IH]; intros f g; [done|]. cbn [columns]. rw IH. ring. Qed.
Lemma columns_scale x f m : columns (λ t, x * f t) m = x * columns f m.
Proof. revert f. induction m as [|m IH]; intros f; [cbn; lia|]. cbn [columns]. rw IH. ring. Qed.
Lemma columns_nil m : columns (λ _, 0) m = 0.
Proof. induction m as [|m IH]; [done|]. cbn [columns]. by rw IH Z.mul_0_r. Qed.

Lemma columns_nth b m : (length b ≤ m)%nat → columns (λ t, nth t b 0) m = eval b.
Proof.
  revert m. induction b as [|x b IH]; intros m Hm.
  - rw (columns_ext _ (λ _, 0)); [by intros []|apply columns_nil].
  - destruct m as [|m]; [cbn in Hm; lia|]. cbn [columns nth eval]. rw IH //. cbn in Hm. lia.
Qed.

Lemma columns_conv a b m : (length a + length b ≤ m)%nat → columns (conv a b) m = eval a * eval b.
Proof.
  revert m. induction a as [|x a IH]; intros m Hm; [apply columns_nil|].
  destruct m as [|m]; [cbn in Hm; lia|]. cbn [length] in Hm. cbn [columns conv eval].
  rw columns_add columns_scale. change (λ t, conv a b t) with (conv a b). rw IH; [lia|].
  rw -(columns_nth b (S m)); [lia|]. cbn [columns]. ring.
Qed.

Lemma square_loop_spec n k count sum :
  bigits_ok n → Z.of_nat (length n) < B → 0 ≤ sum ≤ Z.of_nat (length n) * B → (k + count ≤ 2 * length n)%nat →
  bigits_ok (square_loop n k count sum) ∧ length (square_loop n k count sum) = count ∧
  eval (square_loop n k count sum) = (sum + columns (λ t, conv n n (k + t)) count) mod B ^ Z.of_nat count.
Proof.
  intros Hn Hlen. revert k sum. induction count as [|count IH]; intros k sum Hs Hk; cbn [square_loop].
  - split; [constructor|split; [done|]]. by rw Z.mod_1_r.
  - destruct (column_spec n k sum Hn Hlen Hs) as [-> Hc]; [lia|]. set (len := Z.of_nat (length n)) in *.
    set (c := conv n n k) in *. destruct (split32 (sum + c)) as [Hsp Hok]; [lia|].
    pose proof B_large. rw /bigit_ok in Hok.
    assert (0 ≤ Z.shiftr (sum + c) 32 ≤ len * B) as Hcarry by nia.
    destruct (IH (S k) (Z.shiftr (sum + c) 32)) as (Ho & Hl & He); [done|lia|].
    split; [by constructor|]. split; [cbn; lia|]. cbn [eval columns]. rw He pow_B_nat Nat.add_0_r. fold c.
    rw (columns_ext (λ t, conv n n (k + S t)) (λ t, conv n n (S k + t))); [intros t; f_equal; lia|].
    set (x := columns _ count). pose proof (pow_B_pos (Z.of_nat count)) as Hp.
    rw Z.rem_mul_r; [lia|lia|]. 
    assert (sum + (c + B * x) = wrap32 (sum + c) + (Z.shiftr (sum + c) 32 + x) * B) as -> by lia.
    rw Z.mod_add; [lia|]. rw (Z.mod_small (wrap32 _)); [lia|]. rw Z.div_add; [lia|]. rw (Z.div_small (wrap32 _)); [lia|done].
Qed.

Lemma square_spec b :
  positive b → Z.of_nat (length (bigits_ b)) < B → positive (square b) ∧ value (square b) = value b * value b ∧
  exp_ (square b) = 2 * exp_ b.
Proof.
  intros [Hc He] Hlen. apply canonical_length in Hc as Hl. apply canonical_bounds in Hc as Hb.
  destruct (square_loop_spec (bigits_ b) 0 (2 * length (bigits_ b)) 0 (proj1 Hc) Hlen) as (Ho & Hsl & Hev); [split; [done|]; pose proof B_pos; nia|lia|].
  assert (eval (square_loop (bigits_ b) 0 (2 * length (bigits_ b)) 0) = eval (bigits_ b) * eval (bigits_ b)) as Hsq.
  { rw Hev Z.add_0_l columns_conv; [lia|]. apply Z.mod_small. pose proof (eval_bounds _ (proj1 Hc)) as Hx.
    replace (Z.of_nat (2 * length (bigits_ b))) with (Z.of_nat (length (bigits_ b)) + Z.of_nat (length (bigits_ b))) by lia.
    rw Z.pow_add_r; [lia..|]. nia. }
  destruct (remove_leading_zeros_spec (square_loop (bigits_ b) 0 (2 * length (bigits_ b)) 0) Ho) as (Er & Hr & _ & Hcan).
  { intros E. rw E in Hsl. cbn in Hsl. lia. }
  assert (0 < eval (bigits_ b)) as Hpos by (pose proof (pow_B_pos (Z.of_nat (length (bigits_ b)) - 1)); lia).
  split; [split; [|cbn; lia]|split; [|cbn; lia]]; cbn [square bigits_ exp_].
  - destruct Hcan as [|E]; [done|]. rw E Hsq in Er. cbn in Er. nia.
  - rw /value /= Er Hsq. replace (exp_ b * 2) with (exp_ b + exp_ b) by lia. rw Z.pow_add_r //. ring.
Qed.

(** ** Powers of ten *)

Lemma land_bit exp j : 0 ≤ exp → 0 ≤ j → (Z.land exp (2 ^ j) =? 0) = negb (Z.testbit exp j).
Proof.
  intros He Hj. destruct (Z.eqb_spec (Z.land exp (2 ^ j)) 0) as [E|E].
  - apply (f_equal (λ z, Z.testbit z j)) in E. rw Z.land_spec Z.pow2_bits_true // andb_true_r Z.bits_0 in E. by rw E.
  - destruct (Z.testbit exp j) eqn:Et; [done|]. destruct E. apply Z.bits_inj'. intros m Hm.
    rw Z.land_spec Z.bits_0. destruct (Z.eq_dec j m) as [->|Hjm]; [by rw Et|].
    rw Z.pow2_bits_false // andb_false_r //.
Qed.

Lemma div_bit exp j : 0 ≤ j → exp / 2 ^ j = 2 * (exp / 2 ^ (j + 1)) + Z.b2z (Z.testbit exp j).
Proof.
  intros Hj. rw Z.testbit_spec' // Z.pow_add_r // Z.pow_1_r -Z.div_div; [|done|]; [pose proof (Z.pow_pos_nonneg 2 j); lia|].
  apply Z.div_mod. done.
Qed.

Lemma short_power b n :
  positive b → 0 ≤ n → value b = 5 ^ n → exp_ b = 0 → Z.of_nat (length (bigits_ b)) ≤ n + 1.
Proof.
  intros Hb Hn Hv He. pose proof (positive_bounds b Hb) as Bb. rw /num_bigits /size He Z.add_0_r Hv in Bb.
  apply Z.le_ngt. intros Hlt. assert (B ^ (n + 0) ≤ B ^ (Z.of_nat (length (bigits_ b)) - 1)) as Hp by (apply pow_B_le; lia).
  rw Z.add_0_r in Hp.
  destruct (Z.eq_dec n 0) as [->|Hn0].
  - assert (B ^ 1 ≤ B ^ (Z.of_nat (length (bigits_ b)) - 1)) as Hq by (apply pow_B_le; lia).
    rw Z.pow_1_r in Hq. pose proof B_large. change (5 ^ 0) with 1 in Bb. lia.
  - assert (5 ^ n < B ^ n) by (apply Z.pow_lt_mono_l; [lia|pose proof B_large; lia]). lia.
Qed.

Lemma pow5_loop_spec exp k fuel b :
  0 < exp < 2 ^ 30 → (k ≤ fuel)%nat → positive b → exp_ b = 0 → value b = 5 ^ (exp / 2 ^ Z.of_nat k) →
  ∃ b', pow5_loop fuel exp (if k is S j then 2 ^ Z.of_nat j else 0) b = Some b' ∧
    positive b' ∧ exp_ b' = 0 ∧ value b' = 5 ^ exp.
Proof.
  intros He. revert fuel b. induction k as [|k IH]; intros fuel b Hk Hb He0 Hv.
  - exists b. rw Z.div_1_r in Hv. split; [by destruct fuel|done].
  - assert (0 < 2 ^ Z.of_nat k) as Hp by (apply Z.pow_pos_nonneg; lia).
    destruct fuel as [|fuel]; [lia|]. cbn [pow5_loop]. destruct (Z.eqb_spec (2 ^ Z.of_nat k) 0); [lia|].
    set (q := exp / 2 ^ Z.of_nat (S k)) in *.
    assert (0 ≤ q ≤ exp) as Hq.
    { rw /q. split; [apply Z.div_pos; [lia|apply Z.pow_pos_nonneg; lia]|]. apply Z.div_le_upper_bound; [apply Z.pow_pos_nonneg; lia|].
      pose proof (Z.pow_pos_nonneg 2 (Z.of_nat (S k))). nia. }
    pose proof (short_power b q Hb (proj1 Hq) Hv He0) as Hlen.
    destruct (square_spec b Hb) as (Hs & Hsv & Hse); [eapply Z.le_lt_trans; [exact Hlen|]; eapply Z.le_lt_trans with (m := 2 ^ 30); [lia|by vm_compute]|].
    rw land_bit; [lia..|]. pose proof (div_bit exp (Z.of_nat k)) as Hd.
    replace (Z.of_nat k + 1) with (Z.of_nat (S k)) in Hd by lia. fold q in Hd.
    assert (Z.shiftr (2 ^ Z.of_nat k) 1 = (if k is S j then 2 ^ Z.of_nat j else 0)) as ->.
    { rw Z.shiftr_div_pow2 //. destruct k as [|k]; [done|]. rw Nat2Z.inj_succ Z.pow_succ_r; [lia|].
      by rw (Z.mul_comm 2) Z.div_mul. }
    destruct (Z.testbit exp (Z.of_nat k)); cbn [negb].
    + destruct (proj1 (multiply32_spec (square b) 5 ltac:(pose proof B_large; lia)) Hs) as [Hm Hmv].
      apply IH; [lia|done|cbn; lia|]. rw Hmv Hsv Hv Hd; [lia|]. cbn [Z.b2z].
      rw (Z.pow_add_r 5 (2 * q) 1); [lia..|]. rw Z.pow_1_r -Z.pow_add_r; [lia..|]. do 2 f_equal. lia.
    + apply IH; [lia|done|lia|]. rw Hsv Hv Hd; [lia|]. cbn [Z.b2z]. rw -Z.pow_add_r; [lia..|]. f_equal. lia.
Qed.

Lemma top_bit_spec fuel exp j :
  0 ≤ j → 2 ^ j ≤ exp → exp < 2 ^ (j + Z.of_nat fuel) →
  ∃ t, top_bit fuel exp (2 ^ j) = Some (2 ^ (t + 1)) ∧ j ≤ t < j + Z.of_nat fuel ∧ 2 ^ t ≤ exp < 2 ^ (t + 1).
Proof.
  revert j. induction fuel as [|fuel IH]; intros j Hj Hle Hlt; [rw Z.add_0_r in Hlt; lia|].
  cbn [top_bit]. destruct (Z.leb_spec (2 ^ j) exp); [|lia].
  assert (Z.shiftl (2 ^ j) 1 = 2 ^ (j + 1)) as -> by (rw Z.shiftl_mul_pow2 // -Z.pow_add_r //).
  destruct (Z.le_gt_cases (2 ^ (j + 1)) exp) as [Hn|Hn].
  - destruct (IH (j + 1)) as (t & -> & Ht & Hr); [lia|done|by replace (j + 1 + Z.of_nat fuel) with (j + Z.of_nat (S fuel)) by lia|].
    exists t. split; [done|]. split; [lia|done].
  - exists j. split; [|split; [lia|done]]. destruct fuel; cbn [top_bit]; destruct (Z.leb_spec (2 ^ (j + 1)) exp); try lia; done.
Qed.

Lemma shift_exp b n : exp_ (shift_left b n) = exp_ b + n / 32.
Proof. rw /shift_left. by case_match. Qed.

(** The exponent has its highest bit at [t]. *)
Lemma pow5_spec exp t :
  0 < exp < 2 ^ 30 → 0 ≤ t ≤ 30 → 2 ^ t ≤ exp < 2 ^ (t + 1) →
  ∃ b, pow5_loop 31 exp (Z.shiftr (2 ^ t) 1) (assign 5) = Some b ∧ positive b ∧ exp_ b = 0 ∧ value b = 5 ^ exp.
Proof.
  intros He Ht Hr. destruct (assign_spec 5) as [Hv Hp]; [done|].
  assert (Z.shiftr (2 ^ t) 1 = (if Z.to_nat t is S j then 2 ^ Z.of_nat j else 0)) as ->.
  { rw Z.shiftr_div_pow2 //. destruct (Z.to_nat t) as [|j] eqn:E; [by replace t with 0 by lia|].
    replace t with (Z.of_nat j + 1) by lia. rw Z.pow_add_r; [lia..|]. by rw Z.div_mul. }
  apply pow5_loop_spec; [exact He|lia|exact Hp|reflexivity|].
  rw Hv Z2Nat.id; [lia|]. replace (exp / 2 ^ t) with 1; [by rw Z.pow_1_r|].
  rw Z.pow_add_r in Hr; [lia..|]. apply Z.div_unique with (r := exp - 2 ^ t); lia.
Qed.

Lemma assign_pow10_spec exp :
  0 ≤ exp < 2 ^ 30 → ∃ b, assign_pow10 exp = Some b ∧ positive b ∧ value b = 10 ^ exp ∧ exp_ b = exp / 32.
Proof.
  intros He. rw /assign_pow10. destruct (Z.eqb_spec exp 0) as [->|Hn].
  { destruct (assign_spec 1) as [Hv Hp]; [done|]. exists (assign 1). split; [reflexivity|]. split; [exact Hp|].
    split; [by rw Hv Z.pow_0_r|reflexivity]. }
  destruct (top_bit_spec 31 exp 0) as (t & Et & Ht & Hr); [lia|rw Z.pow_0_r; lia|cbn; lia|].
  rw Z.pow_0_r in Et. rw Et. cbn beta iota zeta.
  assert (Z.shiftr (2 ^ (t + 1)) 1 = 2 ^ t) as -> by (rw Z.shiftr_div_pow2 // Z.pow_add_r; [lia..|]; by rw Z.div_mul).
  destruct (pow5_spec exp t) as (b & -> & Hb & Hb0 & Hbv); [lia|lia|exact Hr|]. cbn beta iota.
  destruct (shift_left_spec b exp Hb) as [Hs Hsv]; [lia|].
  exists (shift_left b exp). split; [reflexivity|]. split; [exact Hs|].
  split; [by rw Hsv Hbv -Z.pow_mul_l|by rw shift_exp Hb0].
Qed.
