(* ===== verification/FmtDragon.v ===== *)
(** Exact printing of floating-point numbers in fmt: class [fp] and [fallback_format] of
    extern/fmt/include/fmt/format-inl.h, which is used when the fast algorithm cannot decide
    how to round. A double is its 64 bits; characters are their codes. *)

From Stdlib Require Import ssreflect.
From stdpp Require Import list.
From S2P Require Import Prelude FmtBigint.

Open Scope general_if_scope.
Open Scope Z_scope.

(** ** Numbers *)

Record fp := mk_fp { fp_f : Z; fp_e : Z }.

(** [fp::assign] of a float with [digits] bits of significand, [size] bits in all and greatest
    exponent [max_exponent]: [f * 2 ^ e], and whether the predecessor is closer than the
    successor. *)
Definition fp_assign (digits size max_exponent u : Z) : fp * bool :=
  let float_significand_size := digits - 1 in
  let exponent_size := size - float_significand_size - 1 in
  let float_implicit_bit := 2 ^ float_significand_size in
  let significand_mask := float_implicit_bit - 1 in
  let exponent_mask := Z.ldiff (2 ^ 63 - 1) significand_mask in
  let exponent_bias := 2 ^ exponent_size - max_exponent - 1 in
  let f := Z.land u significand_mask in
  let biased_e := Z.shiftr (Z.land u exponent_mask) float_significand_size in
  let is_predecessor_closer := (f =? 0) && (1 <? biased_e) in
  let '(f, biased_e) := if biased_e =? 0 then (f, 1) else (f + float_implicit_bit, biased_e) in
  (mk_fp f (biased_e - exponent_bias - float_significand_size), is_predecessor_closer).
Definition assign_double (u : Z) : fp * bool := fp_assign 53 64 1024 u.
Definition assign_float (u : Z) : fp * bool := fp_assign 24 32 128 u.

(** ** The start *)

(** [numerator], [denominator], [lower] and, when it is not [lower], [upper_store]. *)
Record fraction := mk_fraction {
  numerator : bigint; denominator : bigint; lower : bigint; upper_store : option bigint;
}.

Definition setup (v : fp) (is_predecessor_closer : bool) (exp10 : Z) : option fraction :=
  let shift := if is_predecessor_closer then 2 else 1 in
  let significand := wrap64 (Z.shiftl (fp_f v) shift) in
  let two x := if shift =? 1 then None else Some x in
  if 0 <=? fp_e v then
    match assign_pow10 exp10 with
    | None => None
    | Some d =>
        Some (mk_fraction (shift_left (assign significand) (fp_e v)) (shift_left d shift)
          (shift_left (assign 1) (fp_e v)) (two (shift_left (assign 1) (fp_e v + 1))))
    end
  else if exp10 <? 0 then
    match assign_pow10 (- exp10) with
    | None => None
    | Some n =>
        Some (mk_fraction (multiply64 n significand) (shift_left (assign 1) (shift - fp_e v))
          n (two (shift_left n 1)))
    end
  else
    match assign_pow10 exp10 with
    | None => None
    | Some d =>
        Some (mk_fraction (assign significand) (shift_left d (shift - fp_e v)) (assign 1) (two (assign 2)))
    end.

(** ** A given number of digits *)

Definition char0 : Z := 48.
Definition overflow : Z := char0 + 10.

(** The loop over the digits but the last; the answer has the digits and the numerator. *)
Fixpoint digit_loop (count : nat) (n d : bigint) : option (list Z * bigint) :=
  match count with
  | O => Some ([], n)
  | S count =>
      match divmod_assign 10 n d with
      | None => None
      | Some (digit, n) =>
          match digit_loop count (multiply32 n 10) d with
          | None => None
          | Some (buf, n) => Some (char0 + digit :: buf, n)
          end
      end
  end.

(** The carry, from index [i] down, where a character is [over]. *)
Fixpoint propagate (over : Z → bool) (buf : list Z) (i : nat) : list Z :=
  match i with
  | O => buf
  | S j =>
      if over (nth i buf 0) then
        propagate over (<[j := nth j buf 0 + 1]> (<[i := char0]> buf)) j
      else buf
  end.

Definition round_up (result digit : Z) : bool := (0 <? result) || ((result =? 0) && negb (Z.rem digit 2 =? 0)).

Definition fixed_digits (num_digits : nat) (n d : bigint) (exp10 : Z) : option (list Z * Z) :=
  let exp10 := exp10 - (Z.of_nat num_digits - 1) in
  match num_digits with
  | O => Some ([if 0 <? add_compare n n (multiply32 d 10) then char0 + 1 else char0], exp10)
  | S count =>
      match digit_loop count n d with
      | None => None
      | Some (buf, n) =>
          match divmod_assign 10 n d with
          | None => None
          | Some (digit, n) =>
              if round_up (add_compare n n d) digit then
                if digit =? 9 then
                  let buf := propagate (Z.eqb overflow) (buf ++ [overflow]) count in
                  if nth 0 buf 0 =? overflow then Some (<[0%nat := char0 + 1]> buf, exp10 + 1)
                  else Some (buf, exp10)
                else Some (buf ++ [char0 + (digit + 1)], exp10)
              else Some (buf ++ [char0 + digit], exp10)
          end
      end
  end.

(** ** The shortest digits *)

(** The loop: [low] and [high] tell whether the digits so far, or the next number above, are
    within the boundaries. *)
Fixpoint shortest_loop (fuel : nat) (even : bool) (n d lo : bigint) (up : option bigint) : option (list Z) :=
  match fuel with
  | O => None
  | S fuel =>
      match divmod_assign 10 n d with
      | None => None
      | Some (digit, n) =>
          let low := compare n lo - Z.b2z even <? 0 in
          let high := 0 <? add_compare n (default lo up) d + Z.b2z even in
          if low || high then
            let up_digit :=
              if low then high && round_up (add_compare n n d) digit else true in
            Some [char0 + digit + Z.b2z up_digit]
          else
            match shortest_loop fuel even (multiply32 n 10) d (multiply32 lo 10) ((λ u, multiply32 u 10) <$> up) with
            | None => None
            | Some buf => Some (char0 + digit :: buf)
            end
      end
  end.

(** [fallback_format]: the digits and [exp10]; a negative number of digits asks for the
    shortest representation. *)
Definition fallback_format (u : Z) (num_digits : Z) (binary32 : bool) (exp10 : Z) : option (list Z * Z) :=
  let '(v, closer) := if binary32 then assign_float u else assign_double u in
  match setup v closer exp10 with
  | None => None
  | Some s =>
      if num_digits <? 0 then
        match shortest_loop 21 (Z.even (fp_f v)) (numerator s) (denominator s) (lower s) (upper_store s) with
        | None => None
        | Some buf => Some (buf, exp10 - (Z.of_nat (length buf) - 1))
        end
      else fixed_digits (Z.to_nat num_digits) (numerator s) (denominator s) exp10
  end.

(** ** Decimal numbers *)

Definition dec_from (a : Z) (buf : list Z) : Z := foldl (λ a c, 10 * a + (c - char0)) a buf.
Definition dec (buf : list Z) : Z := dec_from 0 buf.
Definition is_digit (c : Z) : Prop := char0 ≤ c ≤ char0 + 9.

Lemma dec_from_eq a buf : dec_from a buf = a * 10 ^ Z.of_nat (length buf) + dec buf.
Proof.
  rw /dec. revert a. induction buf as [|c buf IH]; intros a; [cbn; lia|]. cbn [dec_from foldl length].
  rw /dec_from in IH |- *. rw (IH (10 * a + (c - char0))) (IH (10 * 0 + (c - char0))) Nat2Z.inj_succ Z.pow_succ_r; [lia|]. ring.
Qed.
Lemma dec_app l r : dec (l ++ r) = dec l * 10 ^ Z.of_nat (length r) + dec r.
Proof. rw /dec /dec_from foldl_app. apply dec_from_eq. Qed.
Lemma dec_one c : dec [c] = c - char0.
Proof. done. Qed.
Lemma dec_cons c buf : dec (c :: buf) = (c - char0) * 10 ^ Z.of_nat (length buf) + dec buf.
Proof. apply (dec_app [c]). Qed.
Lemma dec_zeros k : dec (replicate k char0) = 0.
Proof. induction k as [|k IH]; [done|]. cbn [replicate]. rw dec_cons IH. lia. Qed.

Lemma dec_bound buf : Forall is_digit buf → 0 ≤ dec buf < 10 ^ Z.of_nat (length buf).
Proof.
  induction 1 as [|c buf Hc _ IH]; [done|]. rw dec_cons. cbn [length]. rw Nat2Z.inj_succ Z.pow_succ_r; [lia|].
  rw /is_digit in Hc. nia.
Qed.

(** Rounding to the nearest integer, and to an even one in the middle. *)
Definition round_half_even (a b : Z) : Z :=
  let q := a / b in
  let r := a mod b in
  if (b <? 2 * r) || ((2 * r =? b) && Z.odd q) then q + 1 else q.

(** ** The carry *)

Lemma propagate_spec over pre x k :
  (∀ c, char0 ≤ c ≤ overflow → over c = (c =? overflow)) → Forall is_digit pre → char0 ≤ x ≤ overflow →
  let p := propagate over (pre ++ x :: replicate k char0) (length pre) in
  length p = S (length pre + k) ∧ dec p = dec (pre ++ x :: replicate k char0) ∧
  (Forall is_digit p ∨ ∃ m, p = overflow :: replicate m char0).
Proof.
  intros Hover. revert x k. induction pre as [|y pre IH] using rev_ind; intros x k Hpre Hx; cbn zeta.
  - cbn [app length propagate Nat.add]. split; [cbn; rw length_replicate; lia|]. split; [done|].
    destruct (decide (x = overflow)) as [->|Hn]; [right; by exists k|left].
    constructor; [rw /is_digit; rw /overflow in Hx, Hn; lia|]. apply Forall_replicate. rw /is_digit. lia.
  - rw length_app Nat.add_1_r. cbn [propagate].
    apply Forall_app in Hpre as [Hpre Hy%Forall_inv].
    assert (nth (S (length pre)) ((pre ++ [y]) ++ x :: replicate k char0) 0 = x) as ->.
    { replace (S (length pre)) with (length (pre ++ [y]) + 0)%nat by (rw length_app /=; lia). by rw app_nth2_plus. }
    rw (Hover x Hx). destruct (Z.eqb_spec x overflow) as [->|Hn].
    + assert (nth (length pre) ((pre ++ [y]) ++ overflow :: replicate k char0) 0 = y) as ->.
      { rw -app_assoc. replace (length pre) with (length pre + 0)%nat by lia. by rw app_nth2_plus. }
      assert (<[length pre := y + 1]> (<[S (length pre) := char0]> ((pre ++ [y]) ++ overflow :: replicate k char0)) =
              pre ++ (y + 1) :: replicate (S k) char0) as ->.
      { replace (S (length pre)) with (length (pre ++ [y]) + 0)%nat by (rw length_app /=; lia).
        rw insert_app_r /=. rw -app_assoc. replace (length pre) with (length pre + 0)%nat by lia. by rw insert_app_r. }
      destruct (IH (y + 1) (S k) Hpre) as (Hl & Hd & Hp); [rw /is_digit in Hy; rw /overflow; lia|].
      split; [lia|]. split; [|done]. rw Hd !dec_app !dec_cons !dec_zeros. change (dec []) with 0. cbn [length]. rw !length_replicate.
      rw !Nat2Z.inj_succ. rw !Z.pow_succ_r; try lia. change (10 ^ Z.of_nat 0) with 1. rw /overflow. ring.
    + split; [rw !length_app /= length_replicate; lia|]. split; [done|]. left.
      apply Forall_app. split; [apply Forall_app; split; [done|by constructor; [|constructor]]|].
      constructor; [rw /is_digit; rw /overflow in Hx, Hn; lia|]. apply Forall_replicate. rw /is_digit. lia.
Qed.

(** ** The digits *)

(** The numerator between two digits. *)
Definition numerator_ok (n d : bigint) : Prop :=
  comparable n d ∧ (exp_ n ≤ exp_ d ∨ value d ≤ value n) ∧ value n < 10 * value d.

Lemma numerator_bounds n d : positive d → numerator_ok n d → 0 ≤ value n / value d ≤ 9.
Proof.
  intros Hd ([Hf _] & _ & Hlt). pose proof (positive_value d Hd). pose proof (fits_bound _ _ Hf).
  split; [apply Z.div_pos; lia|]. assert (value n / value d < 10); [apply Z.div_lt_upper_bound; lia|lia].
Qed.

Lemma divmod_digit n d :
  positive d → numerator_ok n d →
  ∃ r, divmod_assign 10 n d = Some (value n / value d, r) ∧ value r = value n mod value d ∧ fits r d ∧ exp_ r ≤ exp_ d.
Proof.
  intros Hd Hn. pose proof (numerator_bounds n d Hd Hn) as Hq. destruct Hn as (Hc & He & Hlt).
  pose proof (positive_value d Hd). pose proof B_large.
  destruct (divmod_assign_spec 10 n d Hd Hc) as (r & E & Hv & Hf & Hx); [nia|lia|].
  exists r. split; [exact E|]. split; [exact Hv|]. split; [exact Hf|auto].
Qed.

Lemma times10 r d :
  positive d → fits r d → exp_ r ≤ exp_ d → value r < value d →
  value (multiply32 r 10) = 10 * value r ∧ numerator_ok (multiply32 r 10) d.
Proof.
  intros Hd Hf He Hlt. destruct (multiply32_spec r 10) as [Hp Hz]; [pose proof B_large; lia|].
  assert (value (multiply32 r 10) = 10 * value r ∧ fits (multiply32 r 10) d) as [Hv Hf'].
  { destruct Hf as [Hr|[Hr _]].
    - destruct (Hp Hr) as [? ->]. split; [lia|by left].
    - rw (zero_value _ (Hz Hr)) (zero_value _ Hr). split; [done|right]. split; [by apply Hz|done]. }
  split; [done|]. split; [split; [done|done]|]. split; [by left|lia].
Qed.

Lemma digit_loop_spec count n d :
  positive d → numerator_ok n d →
  ∃ buf n', digit_loop count n d = Some (buf, n') ∧ length buf = count ∧ Forall is_digit buf ∧
    numerator_ok n' d ∧ value n * 10 ^ Z.of_nat count = 10 * dec buf * value d + value n'.
Proof.
  intros Hd. revert n. induction count as [|count IH]; intros n Hn; cbn [digit_loop].
  - exists [], n. split; [done|]. split; [done|]. split; [constructor|]. split; [done|]. cbn. lia.
  - pose proof (positive_value d Hd) as Hpos. pose proof (numerator_bounds n d Hd Hn) as Hq.
    destruct (divmod_digit n d Hd Hn) as (r & -> & Hr & Hf & He). pose proof (Z.mod_pos_bound (value n) (value d) Hpos) as Hm.
    destruct (times10 r d Hd Hf He) as [Hv Hok]; [lia|].
    destruct (IH _ Hok) as (buf & n' & -> & Hl & Hb & Hn' & Heq).
    exists (char0 + value n / value d :: buf), n'. split; [done|]. split; [cbn; lia|].
    split; [constructor; [rw /is_digit; lia|done]|]. split; [done|].
    rw dec_cons Hl Nat2Z.inj_succ Z.pow_succ_r; [lia|]. rw Hv Hr in Heq.
    pose proof (Z.div_mod (value n) (value d)) as Hdm. set (q := value n / value d) in *. set (m := value n mod value d) in *.
    assert (value n = value d * q + m) as -> by lia. rw Z.mul_add_distr_r. replace (char0 + q - char0) with q by lia.
    set (t := 10 ^ Z.of_nat count) in *. transitivity (value d * q * (10 * t) + 10 * m * t); [ring|]. rw Heq. ring.
Qed.

Lemma sgn_round_up r d q :
  0 ≤ q → round_up (Z.sgn (r + r - d)) q = (d <? 2 * r) || ((2 * r =? d) && Z.odd q).
Proof.
  intros Hq. rw /round_up Z.rem_mod_nonneg // Zmod_odd.
  assert (negb ((if Z.odd q then 1 else 0) =? 0) = Z.odd q) as -> by (by destruct (Z.odd q)).
  destruct (Z.ltb_spec d (2 * r)), (Z.eqb_spec (2 * r) d), (Z.ltb_spec 0 (Z.sgn (r + r - d))), (Z.eqb_spec (Z.sgn (r + r - d)) 0);
    cbn [orb andb]; try done; exfalso; lia.
Qed.

(** [num_digits] digits, correctly rounded; after a carry over all of them the exponent is one
    more. *)
Lemma fixed_digits_spec count n d exp10 :
  positive d → numerator_ok n d → value d ≤ value n →
  let r := round_half_even (value n * 10 ^ Z.of_nat count) (value d) in
  ∃ buf exp, fixed_digits (S count) n d exp10 = Some (buf, exp) ∧ length buf = S count ∧ Forall is_digit buf ∧
    10 ^ Z.of_nat count ≤ dec buf ∧
    (exp = exp10 - Z.of_nat count ∧ dec buf = r ∨ exp = exp10 - Z.of_nat count + 1 ∧ 10 * dec buf = r).
Proof.
  intros Hd Hn Hge. cbn zeta. pose proof (positive_value d Hd) as Hpos.
  destruct (digit_loop_spec count n d Hd Hn) as (buf & n' & E & Hl & Hb & Hn' & Heq). rw /fixed_digits E.
  pose proof (numerator_bounds n' d Hd Hn') as Hq. destruct (divmod_digit n' d Hd Hn') as (m & -> & Hm & Hf & _).
  pose proof (Z.div_mod (value n') (value d)) as Hdm. pose proof (Z.mod_pos_bound (value n') (value d) Hpos) as Hmb.
  rw add_compare_spec // Hm sgn_round_up; [lia|]. rw Nat2Z.inj_succ. replace (Z.succ (Z.of_nat count) - 1) with (Z.of_nat count) by lia.
  set (q := value n' / value d) in *. set (v := value n' mod value d) in *. set (t := 10 ^ Z.of_nat count) in *.
  assert (value n * t / value d = 10 * dec buf + q) as Ed by (symmetry; apply Z.div_unique with (r := v); lia).
  assert ((value n * t) mod value d = v) as Em by (symmetry; apply Z.mod_unique with (q := 10 * dec buf + q); lia).
  assert (t ≤ 10 * dec buf + q) as Ht by (rw -Ed; apply Z.div_le_lower_bound; [done|]; assert (0 < t) by (apply Z.pow_pos_nonneg; lia); nia).
  rw /round_half_even Ed Em.
  assert (Z.odd (10 * dec buf + q) = Z.odd q) as -> by (rw Z.odd_add Z.odd_mul; by destruct (Z.odd q)).
  destruct ((value d <? 2 * v) || ((2 * v =? value d) && Z.odd q)).
  - destruct (Z.eqb_spec q 9) as [E9|E9].
    + destruct (propagate_spec (Z.eqb overflow) buf overflow 0) as (Hpl & Hpd & Hp); [intros; apply Z.eqb_sym|done|rw /overflow; lia|]. cbn [replicate] in *.
      rw Hl in Hpl, Hpd, Hp. rw Nat.add_0_r in Hpl. rw dec_app dec_one in Hpd. cbn [length] in Hpd. change (10 ^ Z.of_nat 1) with 10 in Hpd.
      set (p := propagate (Z.eqb overflow) (buf ++ [overflow]) count) in *.
      assert (dec p = 10 * dec buf + q + 1) as Hpd' by (rw Hpd /overflow; lia).
      destruct Hp as [Hp|[k Hp]].
      * assert (nth 0 p 0 =? overflow = false) as ->.
        { destruct p as [|c p]; [cbn in Hpl; lia|]. apply Forall_inv in Hp. apply Z.eqb_neq. cbn. rw /is_digit in Hp. rw /overflow. lia. }
        do 2 eexists. split; [done|]. split; [done|]. split; [done|]. split; [lia|left; lia].
      * rw Hp in Hpl, Hpd' |- *. cbn [nth]. rw Z.eqb_refl. cbn [length] in Hpl. rw length_replicate in Hpl.
        rw dec_cons dec_zeros length_replicate in Hpd'. replace (overflow - char0) with 10 in Hpd' by done.
        do 2 eexists. split; [done|]. change (<[0%nat := char0 + 1]> (overflow :: replicate k char0)) with (char0 + 1 :: replicate k char0).
        split; [cbn; rw length_replicate; lia|]. assert (k = count) as -> by lia.
        split; [constructor; [rw /is_digit; lia|apply Forall_replicate; rw /is_digit; lia]|].
        rw dec_cons dec_zeros length_replicate. fold t. fold t in Hpd'. replace (char0 + 1 - char0) with 1 by done. split; [lia|right; lia].
    + do 2 eexists. split; [done|]. split; [rw length_app /=; lia|].
      split; [apply Forall_app; split; [done|constructor; [rw /is_digit; lia|constructor]]|].
      rw dec_app dec_one. cbn [length]. change (10 ^ Z.of_nat 1) with 10. replace (char0 + (q + 1) - char0) with (q + 1) by lia. split; [lia|left; lia].
  - do 2 eexists. split; [done|]. split; [rw length_app /=; lia|].
    split; [apply Forall_app; split; [done|constructor; [rw /is_digit; lia|constructor]]|].
    rw dec_app dec_one. cbn [length]. change (10 ^ Z.of_nat 1) with 10. replace (char0 + q - char0) with q by lia. split; [lia|left; lia].
Qed.

(** Nothing is nearer, and a number in the middle gives an even one. *)
Lemma round_half_even_nearest a b :
  0 < b → let r := round_half_even a b in
  2 * Z.abs (b * r - a) ≤ b ∧ (2 * Z.abs (b * r - a) = b → Z.even r = true).
Proof.
  intros Hb. cbn zeta. rw /round_half_even. pose proof (Z.div_mod a b) as Hd. pose proof (Z.mod_pos_bound a b Hb) as Hm.
  set (q := a / b) in *. set (v := a mod b) in *. rw -Z.negb_odd.
  destruct (Z.ltb_spec b (2 * v)); cbn [orb]; [split; [lia|intros; exfalso; lia]|].
  destruct (Z.eqb_spec (2 * v) b); cbn [andb]; [|split; [lia|intros; exfalso; lia]].
  destruct (Z.odd q) eqn:Eo; [|split; [lia|by rw Eo]]. split; [lia|]. by rw Z.odd_add Eo.
Qed.

(** ** The fraction *)

(** A positive number [f * 2 ^ e] as a multiple of [10 ^ exp10]. *)
Definition frac_num (f e exp10 : Z) : Z := f * 2 ^ Z.max e 0 * 10 ^ Z.max (- exp10) 0.
Definition frac_den (e exp10 : Z) : Z := 10 ^ Z.max exp10 0 * 2 ^ Z.max (- e) 0.

Lemma significand_spec f shift :
  0 < f < 2 ^ 62 → 1 ≤ shift ≤ 2 →
  let s := wrap64 (Z.shiftl f shift) in s = f * 2 ^ shift ∧ 0 < s < 2 ^ 64.
Proof.
  intros Hf Hs. cbn zeta. rw Z.shiftl_mul_pow2; [lia|]. assert (2 ^ 1 ≤ 2 ^ shift ≤ 2 ^ 2) as Hp by (split; apply Z.pow_le_mono_r; lia).
  rw /wrap64 Z.mod_small; [|split; [done|]]; change (2 ^ 64) with (4 * 2 ^ 62); nia.
Qed.

Lemma tight_power n : 0 ≤ n → tight (shift_left (assign 1) n).
Proof.
  intros Hn. rw /tight /shift_left /assign. cbn [bigits_ exp_ assign_loop]. change (Z.shiftr 1 32 =? 0) with true. cbn iota.
  destruct (Z.eqb_spec (n mod 32) 0) as [E|E]; [done|]. cbn [bigits_ shift_loop head].
  pose proof (Z.mod_pos_bound n 32). set (k := n mod 32) in *. change (Z.land 1 (2 ^ 32 - 1)) with 1.
  rw Z.add_0_r Z.shiftl_1_l. assert (0 < 2 ^ k < 2 ^ 32) by (split; [apply Z.pow_pos_nonneg; lia|apply Z.pow_lt_mono_r; lia]).
  rw /wrap32 !Z.mod_small; [lia..|]. intros [=]. lia.
Qed.

(** A multiple of [2 ^ e] that is a power of ten has at least [e] zeros. *)
Lemma pow10_twos f e x : 0 ≤ e → 0 ≤ x → f * 2 ^ e = 10 ^ x → e ≤ x.
Proof.
  intros He Hx H. destruct (Z.le_gt_cases e x); [done|]. exfalso.
  assert (2 ^ e = 2 * 2 ^ (e - x - 1) * 2 ^ x) as Hp by (rw -Z.pow_succ_r; [lia|]; rw -Z.pow_add_r; [lia..|]; f_equal; lia).
  change 10 with (5 * 2) in H. rw Z.pow_mul_l Hp in H. assert (0 < 2 ^ x) by (apply Z.pow_pos_nonneg; lia).
  assert (2 * (f * 2 ^ (e - x - 1)) = 5 ^ x) as H5 by nia. apply (f_equal Z.odd) in H5.
  rw Z.odd_mul in H5. destruct (Z.eqb_spec x 0) as [->|]; [done|]. rw Z.odd_pow in H5; [lia|]. done.
Qed.

(** The fraction is the number, times a power of two that makes the distances to the boundaries
    integers: half of the distance to the next number, and to the one before half of it, or a
    quarter when that one is closer. *)
Record fraction_of (s : fraction) (f e : Z) (closer : bool) (exp10 : Z) : Prop := {
  fr_n : positive (numerator s);
  fr_d : positive (denominator s);
  fr_lo : positive (lower s);
  fr_up : positive (default (lower s) (upper_store s));
  fr_nv : value (numerator s) = (if closer then 4 else 2) * frac_num f e exp10;
  fr_dv : value (denominator s) = (if closer then 4 else 2) * frac_den e exp10;
  fr_lov : value (lower s) = frac_num 1 e exp10;
  fr_upv : value (default (lower s) (upper_store s)) = (if closer then 2 else 1) * frac_num 1 e exp10;
  fr_exp : value (numerator s) = value (denominator s) → exp_ (numerator s) ≤ exp_ (denominator s);
  fr_low : exp_ (numerator s) ≤ exp_ (lower s);
}.

Lemma frac_up f e exp10 : 0 ≤ e → 0 ≤ exp10 → frac_num f e exp10 = f * 2 ^ e ∧ frac_den e exp10 = 10 ^ exp10.
Proof.
  intros. rw /frac_num /frac_den. replace (Z.max e 0) with e by lia. replace (Z.max (- exp10) 0) with 0 by lia.
  replace (Z.max (- e) 0) with 0 by lia. replace (Z.max exp10 0) with exp10 by lia. split; ring.
Qed.
Lemma frac_down f e exp10 : e ≤ 0 → exp10 ≤ 0 → frac_num f e exp10 = f * 10 ^ (- exp10) ∧ frac_den e exp10 = 2 ^ (- e).
Proof.
  intros. rw /frac_num /frac_den. replace (Z.max e 0) with 0 by lia. replace (Z.max (- exp10) 0) with (- exp10) by lia.
  replace (Z.max (- e) 0) with (- e) by lia. replace (Z.max exp10 0) with 0 by lia. split; ring.
Qed.
Lemma frac_flat f e exp10 : e ≤ 0 → 0 ≤ exp10 → frac_num f e exp10 = f ∧ frac_den e exp10 = 10 ^ exp10 * 2 ^ (- e).
Proof.
  intros. rw /frac_num /frac_den. replace (Z.max e 0) with 0 by lia. replace (Z.max (- exp10) 0) with 0 by lia.
  replace (Z.max (- e) 0) with (- e) by lia. replace (Z.max exp10 0) with exp10 by lia. split; ring.
Qed.

(** The significand, the shift and what the branches have in common. *)
Ltac start_setup f closer Hf Hsv Hsr :=
  rw /setup; cbn [fp_f fp_e];
  destruct (significand_spec f (if closer then 2 else 1) Hf) as [Hsv Hsr]; [by destruct closer|].

Lemma setup_up f e closer exp10 :
  0 < f < 2 ^ 62 → 0 ≤ e → 0 ≤ exp10 < 2 ^ 30 →
  ∃ s, setup (mk_fp f e) closer exp10 = Some s ∧ fraction_of s f e closer exp10.
Proof.
  intros Hf He Hx. start_setup f closer Hf Hsv Hsr. destruct (Z.leb_spec 0 e); [|lia]. set (sg := wrap64 _) in *.
  destruct (assign_pow10_spec exp10 Hx) as (d & -> & Hd & Hdv & Hde).
  destruct (assign_spec sg Hsr) as [Hav Hap]. destruct (shift_left_spec (assign sg) e Hap He) as [Hnp Hnv].
  destruct (assign_spec 1) as [H1v H1p]; [done|]. destruct (shift_left_spec (assign 1) e H1p He) as [Hlp Hlv].
  destruct (shift_left_spec (assign 1) (e + 1) H1p) as [Hup Huv]; [lia|].
  destruct (shift_left_spec d (if closer then 2 else 1) Hd) as [Hdp Hdv']; [by destruct closer|].
  destruct (frac_up f e exp10 He) as [Efn Efd]; [lia|]. destruct (frac_up 1 e exp10 He) as [Ef1 _]; [lia|].
  eexists. split; [reflexivity|]. rw Hav {2}Hsv in Hnv. rw Hdv in Hdv'. rw H1v in Hlv, Huv. rw Z.pow_add_r in Huv; [lia..|].
  assert (value (shift_left (assign sg) e) = value (shift_left d (if closer then 2 else 1)) →
          exp_ (shift_left (assign sg) e) ≤ exp_ (shift_left d (if closer then 2 else 1))) as Hexp.
  { rw Hnv Hdv' !shift_exp Hde. cbn [assign exp_]. intros Heq.
    assert (e ≤ exp10) as Hle by (apply (pow10_twos f); [lia..|]; destruct closer; cbn iota in *; lia).
    apply (Z.div_le_mono _ _ 32) in Hle; [|done]. assert ((if closer then 2 else 1) / 32 = 0) as -> by (by destruct closer). lia. }
  destruct closer; split; cbn [numerator denominator lower upper_store default Z.eqb Pos.eqb] in *; try done;
    rw ?Hnv ?Hdv' ?Hlv ?Huv ?Efn ?Efd ?Ef1 ?shift_exp; cbn [assign exp_]; lia.
Qed.

Lemma setup_down f e closer exp10 :
  0 < f < 2 ^ 62 → e < 0 → - 2 ^ 30 < exp10 < 0 →
  ∃ s, setup (mk_fp f e) closer exp10 = Some s ∧ fraction_of s f e closer exp10.
Proof.
  intros Hf He Hx. start_setup f closer Hf Hsv Hsr. destruct (Z.leb_spec 0 e); [lia|]. destruct (Z.ltb_spec exp10 0); [|lia].
  set (sg := wrap64 _) in *. destruct (assign_pow10_spec (- exp10)) as (n & -> & Hn & Hnv & _); [lia|].
  destruct (multiply64_spec n sg Hn Hsr) as [Hnp Hnv']. destruct (assign_spec 1) as [H1v H1p]; [done|].
  destruct (shift_left_spec n 1 Hn) as [Hup Huv]; [done|].
  destruct (shift_left_spec (assign 1) ((if closer then 2 else 1) - e) H1p) as [Hdp Hdv]; [destruct closer; lia|].
  destruct (frac_down f e exp10) as [Efn Efd]; [lia..|]. destruct (frac_down 1 e exp10) as [Ef1 _]; [lia..|].
  eexists. split; [reflexivity|]. rw Hnv {2}Hsv in Hnv'. rw H1v -Z.add_opp_r Z.pow_add_r in Hdv; [by destruct closer|lia|]. rw Hnv in Huv.
  assert (value (multiply64 n sg) = value (shift_left (assign 1) ((if closer then 2 else 1) - e)) →
          exp_ (multiply64 n sg) ≤ exp_ (shift_left (assign 1) ((if closer then 2 else 1) - e))) as Hexp
    by (apply tight_comparable; [done|by left|apply tight_power; destruct closer; lia]).
  destruct closer; split; cbn [numerator denominator lower upper_store default Z.eqb Pos.eqb] in *; try done;
    rw ?Hnv' ?Hnv ?Hdv ?Huv ?Efn ?Efd ?Ef1; lia.
Qed.

Lemma setup_flat f e closer exp10 :
  0 < f < 2 ^ 62 → e < 0 → 0 ≤ exp10 < 2 ^ 30 →
  ∃ s, setup (mk_fp f e) closer exp10 = Some s ∧ fraction_of s f e closer exp10.
Proof.
  intros Hf He Hx. start_setup f closer Hf Hsv Hsr. destruct (Z.leb_spec 0 e); [lia|]. destruct (Z.ltb_spec exp10 0); [lia|].
  set (sg := wrap64 _) in *. destruct (assign_pow10_spec exp10 Hx) as (d & -> & Hd & Hdv & _). destruct (assign_spec sg Hsr) as [Hav Hap].
  destruct (assign_spec 1) as [H1v H1p]; [done|]. destruct (assign_spec 2) as [H2v H2p]; [done|].
  destruct (shift_left_spec d ((if closer then 2 else 1) - e) Hd) as [Hdp Hdv']; [destruct closer; lia|].
  destruct (frac_flat f e exp10) as [Efn Efd]; [lia..|]. destruct (frac_flat 1 e exp10) as [Ef1 _]; [lia..|].
  eexists. split; [reflexivity|]. rw {2}Hsv in Hav. rw Hdv -Z.add_opp_r Z.pow_add_r in Hdv'; [by destruct closer|lia|].
  assert (exp_ (assign sg) ≤ exp_ (shift_left d ((if closer then 2 else 1) - e))) as Hexp by apply Hdp.
  destruct closer; split; cbn [numerator denominator lower upper_store default Z.eqb Pos.eqb] in *; try done;
    rw ?Hav ?Hdv' ?H1v ?H2v ?Efn ?Efd ?Ef1; lia.
Qed.

Lemma setup_spec f e closer exp10 :
  0 < f < 2 ^ 62 → - 2 ^ 30 < exp10 < 2 ^ 30 → frac_num f e exp10 < 10 * frac_den e exp10 →
  ∃ s, setup (mk_fp f e) closer exp10 = Some s ∧ fraction_of s f e closer exp10.
Proof.
  intros Hf Hx Hlt. destruct (Z.le_gt_cases 0 e), (Z.le_gt_cases 0 exp10).
  - apply setup_up; lia.
  - exfalso. rw /frac_num /frac_den in Hlt. replace (Z.max (- e) 0) with 0 in Hlt by lia. replace (Z.max exp10 0) with 0 in Hlt by lia.
    assert (10 ^ 1 ≤ 10 ^ Z.max (- exp10) 0) by (apply Z.pow_le_mono_r; lia).
    assert (0 < 2 ^ Z.max e 0) by (apply Z.pow_pos_nonneg; lia). rw !Z.pow_0_r in Hlt. nia.
  - apply setup_flat; lia.
  - apply setup_down; lia.
Qed.

Lemma round_scale c a b : 0 < c → 0 < b → round_half_even (c * a) (c * b) = round_half_even a b.
Proof.
  intros Hc Hb. rw /round_half_even Z.div_mul_cancel_l; [lia..|]. rw Z.mul_mod_distr_l; [lia..|].
  set (q := a / b). set (v := a mod b). assert ((c * b <? 2 * (c * v)) = (b <? 2 * v)) as -> by (apply eq_true_iff_eq; rw !Z.ltb_lt; nia).
  assert ((2 * (c * v) =? c * b) = (2 * v =? b)) as -> by (apply eq_true_iff_eq; rw !Z.eqb_eq; nia). done.
Qed.

(** A number between [10 ^ exp10] and [10 ^ (exp10 + 1)], rounded to [count + 1] digits. *)
Definition rounded (f e exp10 : Z) (count : nat) (buf : list Z) (exp : Z) : Prop :=
  let r := round_half_even (frac_num f e exp10 * 10 ^ Z.of_nat count) (frac_den e exp10) in
  length buf = S count ∧ Forall is_digit buf ∧ 10 ^ Z.of_nat count ≤ dec buf ∧
  (exp = exp10 - Z.of_nat count ∧ dec buf = r ∨ exp = exp10 - Z.of_nat count + 1 ∧ 10 * dec buf = r).

Lemma fixed_rounded s f e closer exp10 count :
  fraction_of s f e closer exp10 → frac_den e exp10 ≤ frac_num f e exp10 < 10 * frac_den e exp10 →
  ∃ buf exp, fixed_digits (S count) (numerator s) (denominator s) exp10 = Some (buf, exp) ∧ rounded f e exp10 count buf exp.
Proof.
  intros [Hn Hd _ _ Hnv Hdv _ _ He _] Hr. set (c := if closer then 4 else 2) in *. assert (0 < c) as Hc by (by destruct closer).
  destruct (fixed_digits_spec count (numerator s) (denominator s) exp10) as (buf & exp & E & Hl & Hb & Hge & Hv).
  - done.
  - split; [split; [by left|done]|]. split; [right|]; nia.
  - nia.
  - exists buf, exp. split; [done|]. rw /rounded. split; [done|]. split; [done|]. split; [done|].
    rw Hnv Hdv -Z.mul_assoc round_scale in Hv; [done| |done]. assert (0 < value (denominator s)) by (by apply positive_value). nia.
Qed.

(** No digits: whether the number is more than half of the next power of ten. *)
Lemma no_digits_rounded s f e closer exp10 :
  fraction_of s f e closer exp10 → frac_den e exp10 ≤ frac_num f e exp10 < 10 * frac_den e exp10 →
  ∃ c, fixed_digits 0 (numerator s) (denominator s) exp10 = Some ([c], exp10 + 1) ∧ is_digit c ∧
       dec [c] = round_half_even (frac_num f e exp10) (10 * frac_den e exp10).
Proof.
  intros [Hn Hd _ _ Hnv Hdv _ _ _ _] Hr. set (c := if closer then 4 else 2) in *. assert (0 < c) as Hc by (by destruct closer).
  rw /fixed_digits.
  destruct (multiply32_spec (denominator s) 10) as [Hm _]; [pose proof B_large; lia|]. destruct (Hm Hd) as [Hp Hv].
  rw add_compare_spec; [done|by left..|]. rw Hv Hnv Hdv.
  replace (exp10 - (Z.of_nat 0 - 1)) with (exp10 + 1) by lia. eexists. split; [reflexivity|].
  rw dec_one /round_half_even Z.div_small; [lia|]. rw Z.mod_small; [lia|]. cbn [Z.odd]. rw andb_false_r orb_false_r.
  set (a := frac_num _ _ _) in *. set (b := frac_den _ _) in *.
  assert ((0 <? Z.sgn (c * a + c * a - c * b * 10)) = (10 * b <? 2 * a)) as ->
    by (apply eq_true_iff_eq; rw !Z.ltb_lt; destruct (Z.sgn_spec (c * a + c * a - c * b * 10)) as [[? ->]|[[? ->]|[? ->]]]; split; intros; nia).
  destruct (10 * b <? 2 * a); split; try done; rw /is_digit /char0; lia.
Qed.

(** ** The bits of a double *)

Definition double_mantissa (u : Z) : Z := u mod 2 ^ 52.
Definition double_biased (u : Z) : Z := u / 2 ^ 52 mod 2 ^ 11.

Lemma assign_double_spec u :
  0 ≤ u →
  assign_double u =
  (if double_biased u =? 0 then mk_fp (double_mantissa u) (- 1074)
   else mk_fp (2 ^ 52 + double_mantissa u) (double_biased u - 1075),
   (double_mantissa u =? 0) && (1 <? double_biased u)).
Proof.
  intros Hu. rw /assign_double /fp_assign. change (53 - 1) with 52. change (2 ^ 52 - 1) with (Z.ones 52).
  rw Z.land_ones // -/(double_mantissa u).
  assert (Z.shiftr (Z.land u (Z.ldiff (2 ^ 63 - 1) (Z.ones 52))) 52 = double_biased u) as ->.
  { rw Z.shiftr_land. replace (Z.shiftr (Z.ldiff _ _) _) with (Z.ones 11) by done. by rw Z.land_ones // Z.shiftr_div_pow2. }
  change (2 ^ (64 - 52 - 1) - 1024 - 1) with 1023. destruct (double_biased u =? 0); cbn iota beta zeta; [done|].
  rw (Z.add_comm (double_mantissa u)). do 2 f_equal. lia.
Qed.

(** ** The shortest digits *)

(** A printed number that is [x] less than the number is between the boundaries. *)
Definition inside (strict : bool) (x lo up : Z) : Prop :=
  if strict then - up < x < lo else - up ≤ x ≤ lo.

Lemma inside_scale strict c x lo up : 0 < c → inside strict x lo up → inside strict (c * x) (c * lo) (c * up).
Proof. intros Hc. rw /inside. destruct strict; intros; nia. Qed.

(** What the two comparisons of a round say. *)
Lemma round_low even n d lo :
  positive lo → fits n d → exp_ n ≤ exp_ lo →
  let low := compare n lo - Z.b2z even <? 0 in
  (low = true → if even then value n ≤ value lo else value n < value lo) ∧ (low = false → value lo ≤ value n).
Proof.
  intros Hlo Hf He. assert (fits n lo) as Hf' by (destruct Hf as [|[]]; [by left|by right]).
  destruct (compare_spec n lo Hlo Hf') as (I1 & I2 & I3). cbn zeta.
  destruct (Z.lt_trichotomy (value n) (value lo)) as [H|[H|H]].
  - rw I1 //. destruct even; (split; [intros; lia|done]).
  - rw I3 //. destruct even; cbn [Z.b2z]; (split; [intros ?%Z.ltb_lt|intros; lia]); lia.
  - rw I2 //. destruct even; (split; [done|intros; lia]).
Qed.

Lemma round_high even n d up :
  positive d → positive up → fits n d →
  let high := 0 <? add_compare n up d + Z.b2z even in
  (high = true → if even then value d ≤ value n + value up else value d < value n + value up) ∧
  (high = false → if even then value n + value up < value d else value n + value up ≤ value d).
Proof.
  intros Hd Hup Hf. cbn zeta. rw add_compare_spec; [done|done|by left|].
  destruct even; cbn [Z.b2z]; (split; [intros ?%Z.ltb_lt|intros ?%Z.ltb_ge]); lia.
Qed.

(** Before a round: the number and its upper boundary are below the next power of ten. *)
Record round_ok (even : bool) (n d lo up : bigint) : Prop := {
  ro_d : positive d; ro_n : numerator_ok n d; ro_lo : positive lo; ro_up : positive up; ro_exp : exp_ n ≤ exp_ lo;
  ro_next : if even then value n + value up < 10 * value d else value n + value up ≤ 10 * value d;
}.

(** What the loop gives: digits between the boundaries, and no shorter ones strictly between. *)
Definition shortest (even : bool) (n d lo up : Z) (buf : list Z) : Prop :=
  let k := Z.of_nat (length buf - 1) in
  buf ≠ [] ∧ Forall is_digit buf ∧ (d ≤ n → 10 ^ k ≤ dec buf) ∧
  inside (negb even) (n * 10 ^ k - dec buf * d) (lo * 10 ^ k) (up * 10 ^ k) ∧
  ∀ j M, 0 ≤ j < k → ¬ inside true (n * 10 ^ j - M * d) (lo * 10 ^ j) (up * 10 ^ j).

Lemma shortest_last (even : bool) n d lo up q r (c : bool) :
  0 ≤ r < d → 0 ≤ q ≤ 9 → n = q * d + r → 0 < lo → 0 < up →
  (if even then n + up < 10 * d else n + up ≤ 10 * d) →
  (c = false → if even then r ≤ lo else r < lo) → (c = true → if even then d ≤ r + up else d < r + up) →
  shortest even n d lo up [char0 + q + Z.b2z c].
Proof.
  intros Hr Hq -> Hlo Hup Hn Hl Hh. rw /shortest dec_one. change (Z.of_nat (length _ - 1)) with 0. rw !Z.pow_0_r !Z.mul_1_r.
  split; [done|]. assert (0 ≤ q + Z.b2z c ≤ 9) as Hb.
  { destruct c; cbn [Z.b2z]; [|lia]. specialize (Hh eq_refl). destruct even; nia. }
  split; [constructor; [rw /is_digit; lia|constructor]|]. split.
  - intros. replace (char0 + q + Z.b2z c - char0) with (q + Z.b2z c) by lia. destruct c; cbn [Z.b2z]; nia.
  - split; [|lia]. replace (char0 + q + Z.b2z c - char0) with (q + Z.b2z c) by lia. rw /inside.
    destruct c; cbn [Z.b2z]; [specialize (Hh eq_refl)|specialize (Hl eq_refl)]; destruct even; cbn [negb]; nia.
Qed.

Lemma shortest_more (even : bool) n d lo up q r buf :
  0 ≤ r < d → 0 ≤ q ≤ 9 → n = q * d + r → 0 < lo → 0 < up → lo ≤ r →
  (if even then r + up < d else r + up ≤ d) →
  shortest even (10 * r) d (10 * lo) (10 * up) buf → shortest even n d lo up (char0 + q :: buf).
Proof.
  intros Hr Hq -> Hlo Hup Hl Hh (Hne & Hd & _ & Hin & Hno). rw /shortest. destruct buf as [|b buf]; [done|].
  replace (length ((char0 + q)%Z :: b :: buf) - 1)%nat with (S (length (b :: buf) - 1)) by (cbn; lia). set (k := (length (b :: buf) - 1)%nat) in *.
  rw dec_cons. replace (length (b :: buf)) with (S k) by (rw /k /=; lia). replace (char0 + q - char0) with q by lia.
  rw Nat2Z.inj_succ Z.pow_succ_r; [lia|]. set (D := dec (b :: buf)) in *. set (t := 10 ^ Z.of_nat k) in *.
  assert (0 < t) as Ht by (apply Z.pow_pos_nonneg; lia). split; [done|]. split; [constructor; [rw /is_digit; lia|done]|].
  split; [|split].
  - intros. assert (0 ≤ D) by (by apply dec_bound). assert (1 ≤ q) by nia. nia.
  - replace ((q * d + r) * (10 * t) - (q * (10 * t) + D) * d) with (10 * r * t - D * d) by ring.
    replace (lo * (10 * t)) with (10 * lo * t) by ring. by replace (up * (10 * t)) with (10 * up * t) by ring.
  - intros j M Hj. destruct (Z.eq_dec j 0) as [->|Hj0].
    + rw !Z.pow_0_r !Z.mul_1_r /inside. intros [H1 H2].
      assert (q < M) by nia. assert (d < r + up ∨ d = r + up ∨ r + up < d) as [|[]] by lia; destruct even; nia.
    + replace j with (Z.succ (j - 1)) by lia. rw Z.pow_succ_r; [lia|]. intros H.
      apply (Hno (j - 1) (M - 10 * q * 10 ^ (j - 1))); [lia|]. set (s := 10 ^ (j - 1)) in *. rw /inside in H |- *. nia.
Qed.

Lemma round_choice (low high r : bool) (P Q : Prop) :
  low || high = true → (low = true → P) → (high = true → Q) →
  let c := if low then high && r else true in (c = false → P) ∧ (c = true → Q).
Proof. destruct low, high; cbn; intros; split; intros; try discriminate; auto. Qed.

Lemma shortest_loop_spec fuel even n d lo up :
  round_ok even n d lo (default lo up) → (0 < fuel)%nat → value d ≤ value lo * 10 ^ (Z.of_nat fuel - 1) →
  ∃ buf, shortest_loop fuel even n d lo up = Some buf ∧
    shortest even (value n) (value d) (value lo) (value (default lo up)) buf.
Proof.
  revert n lo up. induction fuel as [|fuel IH]; intros n lo up [Hd Hn Hlo Hup He Hnext] Hpf Hfuel; [lia|]. cbn [shortest_loop].
  pose proof (numerator_bounds n d Hd Hn) as Hq. pose proof (positive_value d Hd) as Hpos.
  destruct (divmod_digit n d Hd Hn) as (r & Ediv & Hr & Hf & Hx). rw Ediv. apply divmod_exp in Ediv as Hxr.
  pose proof (Z.div_mod (value n) (value d)) as Hdm. pose proof (Z.mod_pos_bound (value n) (value d) Hpos) as Hm. rw -Hr in Hdm, Hm.
  set (q := value n / value d) in *. pose proof (positive_value lo Hlo) as Hlv. pose proof (positive_value _ Hup) as Huv.
  destruct (round_low even r d lo Hlo Hf) as [L1 L2]; [lia|]. destruct (round_high even r d _ Hd Hup Hf) as [H1 H2].
  set (low := compare r lo - Z.b2z even <? 0) in *. set (high := 0 <? add_compare r (default lo up) d + Z.b2z even) in *.
  destruct (low || high) eqn:Elh.
  - destruct (round_choice _ _ (round_up (add_compare r r d) q) _ _ Elh L1 H1). eexists. split; [done|].
    apply (shortest_last even _ _ _ _ q (value r)); [lia..|done|done|done].
  - apply orb_false_iff in Elh as [El Eh]. specialize (L2 El). specialize (H2 Eh).
    replace (Z.of_nat (S fuel) - 1) with (Z.of_nat fuel) in Hfuel by lia.
    destruct (times10 r d Hd Hf Hx) as [Hv Hok]; [lia|].
    assert (∀ b, positive b → positive (multiply32 b 10) ∧ value (multiply32 b 10) = 10 * value b) as Hten.
    { intros b Hb. destruct (multiply32_spec b 10) as [Hp _]; [pose proof B_large; lia|]. destruct (Hp Hb) as [? ->]. split; [done|lia]. }
    destruct (Hten lo Hlo) as [Hlo' Hlv']. destruct (Hten _ Hup) as [Hup' Huv'].
    assert (default (multiply32 lo 10) ((λ u, multiply32 u 10) <$> up) = multiply32 (default lo up) 10) as Eup by (by destruct up).
    destruct fuel as [|fuel']; [change (10 ^ Z.of_nat 0) with 1 in Hfuel; lia|]. set (fuel := S fuel') in *.
    destruct (IH (multiply32 r 10) (multiply32 lo 10) ((λ u, multiply32 u 10) <$> up)) as (buf & -> & Hs).
    + rw Eup. split; [done|done|done|done|cbn; lia|]. rw Hv Huv'. destruct even; lia.
    + rw /fuel. lia.
    + rw Hlv'. replace (Z.of_nat fuel) with (Z.succ (Z.of_nat fuel - 1)) in Hfuel by lia. rw Z.pow_succ_r in Hfuel; lia.
    + exists (char0 + q :: buf). split; [done|]. rw Eup Hv Hlv' Huv' in Hs.
      apply (shortest_more even _ _ _ _ q (value r)); [lia..|done|done].
Qed.

(** ** [fallback_format] *)

Definition read_float (binary32 : bool) (u : Z) : fp := fst (if binary32 then assign_float u else assign_double u).

Lemma read_float_bound binary32 u : 0 ≤ fp_f (read_float binary32 u) < 2 ^ 53.
Proof.
  rw /read_float. destruct binary32; rw /assign_float /assign_double /fp_assign.
  - change (2 ^ (24 - 1) - 1) with (Z.ones 23). rw Z.land_ones //. pose proof (Z.mod_pos_bound u (2 ^ 23)). change (24 - 1) with 23. destruct (_ =? 0); cbn [fst fp_f]; lia.
  - change (2 ^ (53 - 1) - 1) with (Z.ones 52). rw Z.land_ones //. pose proof (Z.mod_pos_bound u (2 ^ 52)). change (53 - 1) with 52. destruct (_ =? 0); cbn [fst fp_f]; lia.
Qed.

(** [exp10] is the decimal exponent of a positive number. *)
Definition decimal_exponent (v : fp) (exp10 : Z) : Prop :=
  0 < fp_f v ∧ - 2 ^ 30 < exp10 < 2 ^ 30 ∧
  frac_den (fp_e v) exp10 ≤ frac_num (fp_f v) (fp_e v) exp10 < 10 * frac_den (fp_e v) exp10.

Lemma fallback_setup binary32 u exp10 :
  let v := read_float binary32 u in
  decimal_exponent v exp10 →
  ∃ closer s, (if binary32 then assign_float u else assign_double u) = (v, closer) ∧ setup v closer exp10 = Some s ∧
              fraction_of s (fp_f v) (fp_e v) closer exp10.
Proof.
  intros v (Hf & Hx & Hr). pose proof (read_float_bound binary32 u) as Hb. fold v in Hb.
  destruct (if binary32 then assign_float u else assign_double u) as [v' closer] eqn:E.
  assert (v' = v) as -> by (rw /v /read_float E; done).
  destruct (setup_spec (fp_f v) (fp_e v) closer exp10) as (s & Es & Hs); [lia|lia|lia|].
  exists closer, s. split; [done|]. split; [by destruct v|done].
Qed.

(** The digits of a double, or of a float, are those of the exact number, rounded to the nearest
    and in the middle to an even digit. *)
Theorem fallback_format_rounds binary32 u num_digits exp10 :
  let v := read_float binary32 u in
  decimal_exponent v exp10 → 0 < num_digits →
  ∃ buf exp, fallback_format u num_digits binary32 exp10 = Some (buf, exp) ∧
    rounded (fp_f v) (fp_e v) exp10 (Z.to_nat (num_digits - 1)) buf exp.
Proof.
  intros v Hv Hn. destruct (fallback_setup binary32 u exp10 Hv) as (closer & s & E & Es & Hs). fold v in E, Es, Hs.
  rw /fallback_format E Es. destruct (Z.ltb_spec num_digits 0); [lia|]. replace (Z.to_nat num_digits) with (S (Z.to_nat (num_digits - 1))) by lia.
  apply (fixed_rounded s _ _ closer); [done|apply Hv].
Qed.
Lemma fallback_format_rounds_witness :
  fallback_format 0x3FB999999999999A 20 false (- 1) =
    Some ([49; 48; 48; 48; 48; 48; 48; 48; 48; 48; 48; 48; 48; 48; 48; 48; 48; 53; 53; 53], - 20) ∧
  ∃ buf exp, fallback_format 0x3FB999999999999A 20 false (- 1) = Some (buf, exp) ∧
    rounded (fp_f (read_float false 0x3FB999999999999A)) (fp_e (read_float false 0x3FB999999999999A)) (- 1) 19 buf exp.
Proof.
  split; [by vm_compute|]. apply (fallback_format_rounds false 0x3FB999999999999A 20 (- 1)); [|done].
  by vm_compute.
Defined.

(** No digits at all: whether the number rounds to the next power of ten. *)
Theorem fallback_format_none binary32 u exp10 :
  let v := read_float binary32 u in
  decimal_exponent v exp10 →
  ∃ c, fallback_format u 0 binary32 exp10 = Some ([c], exp10 + 1) ∧ is_digit c ∧
    dec [c] = round_half_even (frac_num (fp_f v) (fp_e v) exp10) (10 * frac_den (fp_e v) exp10).
Proof.
  intros v Hv. destruct (fallback_setup binary32 u exp10 Hv) as (closer & s & E & Es & Hs). fold v in E, Es, Hs.
  rw /fallback_format E Es. apply (no_digits_rounded s _ _ closer); [done|apply Hv].
Qed.

Lemma frac_num_scale f e exp10 : frac_num f e exp10 = f * frac_num 1 e exp10.
Proof. rw /frac_num. ring. Qed.

(** The digits for a negative number of digits are between the boundaries of the number, so they
    read back as it, and no shorter ones are strictly between them. There are at most 21. *)
Theorem fallback_format_shortest binary32 u num_digits exp10 :
  let v := read_float binary32 u in
  let even := Z.even (fp_f v) in
  let num f := frac_num f (fp_e v) exp10 in
  let den := frac_den (fp_e v) exp10 in
  decimal_exponent v exp10 → num_digits < 0 →
  (if even then num (2 * fp_f v + 1) < 20 * den else num (2 * fp_f v + 1) ≤ 20 * den) →
  ∃ closer buf,
    snd (if binary32 then assign_float u else assign_double u) = closer ∧
    fallback_format u num_digits binary32 exp10 = Some (buf, exp10 - (Z.of_nat (length buf) - 1)) ∧
    let c := if closer then 4 else 2 in
    shortest even (c * num (fp_f v)) (c * den) (num 1) ((if closer then 2 else 1) * num 1) buf.
Proof.
  intros v even num den Hv Hneg Hnext. destruct (fallback_setup binary32 u exp10 Hv) as (closer & s & E & Es & Hs). fold v in E, Es, Hs.
  pose proof (read_float_bound binary32 u) as Hb. fold v in Hb. destruct Hv as (Hf & Hx & Hr). fold den in Hr. fold (num (fp_f v)) in Hr.
  rw /fallback_format E Es. destruct (Z.ltb_spec num_digits 0); [|lia]. fold even. destruct Hs as [Hn Hd Hlo Hup Hnv Hdv Hlov Hupv He Hle].
  assert (∀ f, num f = f * num 1) as Hscale by (intros; apply frac_num_scale). rw Hscale in Hnext. fold den in Hdv.
  fold (num (fp_f v)) in Hnv. fold (num 1) in Hlov, Hupv. pose proof (Hscale (fp_f v)) as Hfs. pose proof (positive_value _ Hlo) as Hone. rw Hlov in Hone.
  destruct (shortest_loop_spec 21 even (numerator s) (denominator s) (lower s) (upper_store s)) as (buf & -> & Hbuf).
  - split; [done| |done|done|done|].
    + split; [split; [by left|done]|]. rw Hnv Hdv. destruct closer; (split; [right|]; lia).
    + rw Hnv Hdv Hupv. destruct closer, even; lia.
  - lia.
  - rw Hdv Hlov. change (10 ^ (Z.of_nat 21 - 1)) with (10 ^ 20). change (2 ^ 53) with 9007199254740992 in Hb. change (10 ^ 20) with 100000000000000000000.
    assert (den ≤ 9007199254740992 * num 1) by nia. destruct closer; lia.
  - exists closer, buf. split; [done|]. split; [done|]. cbn zeta. by rw Hnv Hdv Hlov Hupv in Hbuf.
Qed.

(** One tenth takes one digit. *)
Lemma fallback_format_shortest_witness :
  fallback_format 0x3FB999999999999A (- 1) false (- 1) = Some ([49], - 1) ∧
  ∃ closer buf,
    snd (assign_double 0x3FB999999999999A) = closer ∧
    fallback_format 0x3FB999999999999A (- 1) false (- 1) = Some (buf, - 1 - (Z.of_nat (length buf) - 1)) ∧
    let c := if closer then 4 else 2 in
    shortest true (c * frac_num 0x1999999999999A (- 56) (- 1)) (c * frac_den (- 56) (- 1)) (frac_num 1 (- 56) (- 1))
      ((if closer then 2 else 1) * frac_num 1 (- 56) (- 1)) buf.
Proof.
  split; [by vm_compute|]. apply (fallback_format_shortest false 0x3FB999999999999A (- 1) (- 1)); [by vm_compute|done|by vm_compute].
Defined.

(** ** Limits of the class *)

(** The loop for the last borrow stays at its index: a borrow through a zero bigit is lost, and
    [2 ^ 64 - 1] is wrong. Quotients of the digits never do this, as the lengths differ by one
    at most. *)
Theorem subtract_borrow_lost :
  let a := mk_bigint [0; 0; 1] 0 in
  let b := mk_bigint [1] 0 in
  positive a ∧ positive b ∧ 0 ≤ compare a b ∧
  ∃ r, subtract_aligned a b = Some r ∧ value r ≠ value a - value b.
Proof.
  cbn zeta. split; [|split; [|split]].
  - split; [|done]. split; [repeat constructor; done|]. by exists [0; 0], 1.
  - split; [|done]. split; [repeat constructor; done|]. by exists [], 1.
  - by vm_compute.
  - eexists. split; [vm_compute; reflexivity|]. by vm_compute.
Qed.

(** Equal numbers with different exponents are told apart. *)
Theorem compare_not_equal :
  let a := mk_bigint [0; 1] 0 in
  let b := mk_bigint [1] 1 in
  value a = value b ∧ compare a b = 1 ∧ compare b a = -1.
Proof. by vm_compute. Qed.
