(* ===== verification/FmtCached.v ===== *)
(** The numbers of the fast algorithm of fmt: the table of powers of ten of
    extern/fmt/include/fmt/format-inl.h, normalised numbers and their product, and how close
    they are to the exact ones. An index outside of a table is [None]. *)

From Stdlib Require Import ssreflect.
From stdpp Require Import list.
From S2P Require Import Prelude FmtInt FmtBigint FmtDragon.

Open Scope general_if_scope.
Open Scope Z_scope.

(** ** Tables *)

(** The powers [10 ^ k] for [k] from -348 to 340 in steps of 8, as [significand * 2 ^ exponent]. *)
Definition grisu_pow10_significands : list Z :=
  [0xfa8fd5a0081c0288; 0xbaaee17fa23ebf76; 0x8b16fb203055ac76; 0xcf42894a5dce35ea; 0x9a6bb0aa55653b2d; 0xe61acf033d1a45df;
   0xab70fe17c79ac6ca; 0xff77b1fcbebcdc4f; 0xbe5691ef416bd60c; 0x8dd01fad907ffc3c; 0xd3515c2831559a83; 0x9d71ac8fada6c9b5;
   0xea9c227723ee8bcb; 0xaecc49914078536d; 0x823c12795db6ce57; 0xc21094364dfb5637; 0x9096ea6f3848984f; 0xd77485cb25823ac7;
   0xa086cfcd97bf97f4; 0xef340a98172aace5; 0xb23867fb2a35b28e; 0x84c8d4dfd2c63f3b; 0xc5dd44271ad3cdba; 0x936b9fcebb25c996;
   0xdbac6c247d62a584; 0xa3ab66580d5fdaf6; 0xf3e2f893dec3f126; 0xb5b5ada8aaff80b8; 0x87625f056c7c4a8b; 0xc9bcff6034c13053;
   0x964e858c91ba2655; 0xdff9772470297ebd; 0xa6dfbd9fb8e5b88f; 0xf8a95fcf88747d94; 0xb94470938fa89bcf; 0x8a08f0f8bf0f156b;
   0xcdb02555653131b6; 0x993fe2c6d07b7fac; 0xe45c10c42a2b3b06; 0xaa242499697392d3; 0xfd87b5f28300ca0e; 0xbce5086492111aeb;
   0x8cbccc096f5088cc; 0xd1b71758e219652c; 0x9c40000000000000; 0xe8d4a51000000000; 0xad78ebc5ac620000; 0x813f3978f8940984;
   0xc097ce7bc90715b3; 0x8f7e32ce7bea5c70; 0xd5d238a4abe98068; 0x9f4f2726179a2245; 0xed63a231d4c4fb27; 0xb0de65388cc8ada8;
   0x83c7088e1aab65db; 0xc45d1df942711d9a; 0x924d692ca61be758; 0xda01ee641a708dea; 0xa26da3999aef774a; 0xf209787bb47d6b85;
   0xb454e4a179dd1877; 0x865b86925b9bc5c2; 0xc83553c5c8965d3d; 0x952ab45cfa97a0b3; 0xde469fbd99a05fe3; 0xa59bc234db398c25;
   0xf6c69a72a3989f5c; 0xb7dcbf5354e9bece; 0x88fcf317f22241e2; 0xcc20ce9bd35c78a5; 0x98165af37b2153df; 0xe2a0b5dc971f303a;
   0xa8d9d1535ce3b396; 0xfb9b7cd9a4a7443c; 0xbb764c4ca7a44410; 0x8bab8eefb6409c1a; 0xd01fef10a657842c; 0x9b10a4e5e9913129;
   0xe7109bfba19c0c9d; 0xac2820d9623bf429; 0x80444b5e7aa7cf85; 0xbf21e44003acdd2d; 0x8e679c2f5e44ff8f; 0xd433179d9c8cb841;
   0x9e19db92b4e31ba9; 0xeb96bf6ebadf77d9; 0xaf87023b9bf0ee6b].
Definition grisu_pow10_exponents : list Z :=
  [-1220; -1193; -1166; -1140; -1113; -1087; -1060; -1034; -1007; -980; -954; -927; -901; -874;
   -847; -821; -794; -768; -741; -715; -688; -661; -635; -608; -582; -555; -529; -502;
   -475; -449; -422; -396; -369; -343; -316; -289; -263; -236; -210; -183; -157; -130;
   -103; -77; -50; -24; 3; 30; 56; 83; 109; 136; 162; 189; 216; 242;
   269; 295; 322; 348; 375; 402; 428; 455; 481; 508; 534; 561; 588; 614;
   641; 667; 694; 720; 747; 774; 800; 827; 853; 880; 907; 933; 960; 986;
   1013; 1039; 1066].
Definition powers_of_10_64 : list Z :=
  [1] ++ powers_of_10 1 ++ powers_of_10 1000000000 ++ [10000000000000000000].
Definition log10_2_significand : Z := 0x4d104d427de7fbcc.

(** ** Numbers *)

(** [normalize<0>]: shifts until the implicit bit is set, then to the top. *)
Fixpoint normalize_loop (fuel : nat) (v : fp) : option fp :=
  if Z.land (fp_f v) (2 ^ 52) =? 0 then
    match fuel with
    | O => None
    | S fuel => normalize_loop fuel (mk_fp (wrap64 (Z.shiftl (fp_f v) 1)) (fp_e v - 1))
    end
  else Some v.
Definition normalize (v : fp) : option fp :=
  match normalize_loop 52 v with
  | None => None
  | Some v =>
      let offset := 64 - 52 - 0 - 1 in
      Some (mk_fp (wrap64 (Z.shiftl (fp_f v) offset)) (fp_e v - offset))
  end.

(** [multiply], with 128-bit integers and with the halves of the numbers. *)
Definition multiply_wide (lhs rhs : Z) : Z :=
  let product := wrap128 (lhs * rhs) in
  let f := wrap64 (Z.shiftr product 64) in
  if Z.land (wrap64 product) (2 ^ 63) =? 0 then f else wrap64 (f + 1).
Definition multiply_halves (lhs rhs : Z) : Z :=
  let mask := 2 ^ 32 - 1 in
  let a := Z.shiftr lhs 32 in
  let b := Z.land lhs mask in
  let c := Z.shiftr rhs 32 in
  let d := Z.land rhs mask in
  let ac := wrap64 (a * c) in
  let bc := wrap64 (b * c) in
  let ad := wrap64 (a * d) in
  let bd := wrap64 (b * d) in
  let mid := wrap64 (wrap64 (wrap64 (Z.shiftr bd 32 + Z.land ad mask) + Z.land bc mask) + 2 ^ 31) in
  wrap64 (wrap64 (wrap64 (ac + Z.shiftr ad 32) + Z.shiftr bc 32) + Z.shiftr mid 32).
Definition fp_mul (x y : fp) : fp := mk_fp (multiply_wide (fp_f x) (fp_f y)) (fp_e x + fp_e y + 64).

(** [get_cached_power]: a power of ten with a binary exponent from [min_exponent] on, and its
    decimal exponent. *)
Definition get_cached_power (min_exponent : Z) : option (fp * Z) :=
  let index := Z.shiftr ((min_exponent + 64 - 1) * Z.shiftr log10_2_significand 32 + (2 ^ 32 - 1)) 32 in
  let index := Z.quot (index - - 348 - 1) 8 + 1 in
  if index <? 0 then None else
  match grisu_pow10_significands !! Z.to_nat index, grisu_pow10_exponents !! Z.to_nat index with
  | Some f, Some e => Some (mk_fp f e, - 348 + index * 8)
  | _, _ => None
  end.

(** ** Normalised numbers *)

Lemma implicit_bit f : 0 ≤ f < 2 ^ 53 → (Z.land f (2 ^ 52) =? 0) = (f <? 2 ^ 52).
Proof.
  intros Hf. rw land_bit; [lia|done|]. rw Z.testbit_eqb //.
  destruct (Z.ltb_spec f (2 ^ 52)) as [H|H]; [rw Z.div_small; [lia|done]|].
  replace (f / 2 ^ 52) with 1; [done|]. apply Z.div_unique with (r := f - 2 ^ 52); lia.
Qed.

Lemma normalize_loop_spec fuel f e :
  0 < f < 2 ^ 53 → 2 ^ 52 ≤ f * 2 ^ Z.of_nat fuel →
  ∃ d, 0 ≤ d ∧ normalize_loop fuel (mk_fp f e) = Some (mk_fp (f * 2 ^ d) (e - d)) ∧ 2 ^ 52 ≤ f * 2 ^ d < 2 ^ 53 ∧ d ≤ Z.of_nat fuel.
Proof.
  revert f e. induction fuel as [|fuel IH]; intros f e Hf Hfuel; cbn [normalize_loop fp_f fp_e]; rw implicit_bit; [lia| |lia|];
    destruct (Z.ltb_spec f (2 ^ 52)); try (exists 0; split; [done|]; rw Z.pow_0_r Z.mul_1_r Z.sub_0_r; split; [done|]; lia).
  - rw Z.mul_1_r in Hfuel. lia.
  - rw /wrap64 Z.shiftl_mul_pow2 // Z.mod_small; [lia|].
    destruct (IH (f * 2 ^ 1) (e - 1)) as (d & Hd & -> & Hr & Hle); [lia|rw Nat2Z.inj_succ Z.pow_succ_r in Hfuel; lia|].
    exists (d + 1). split; [lia|]. rw Z.pow_add_r; [lia..|]. split; [do 2 f_equal; lia|]. lia.
Qed.

(** The number as a 64-bit significand with its highest bit set, and as one of 53 bits. *)
Lemma normalize_spec f e :
  0 < f < 2 ^ 53 →
  ∃ d f', 0 ≤ d ≤ 52 ∧ normalize (mk_fp f e) = Some (mk_fp (2 ^ 11 * f') (e - d - 11)) ∧ f' = f * 2 ^ d ∧ 2 ^ 52 ≤ f' < 2 ^ 53.
Proof.
  intros Hf. destruct (normalize_loop_spec 52 f e Hf) as (d & Hd & E & Hr & Hle); [change (2 ^ Z.of_nat 52) with (2 ^ 52); lia|].
  exists d, (f * 2 ^ d). split; [lia|]. rw /normalize E. cbn [fp_f fp_e]. change (64 - 52 - 0 - 1) with 11.
  split; [|done]. do 2 f_equal. rw Z.shiftl_mul_pow2 // /wrap64 Z.mod_small; lia.
Qed.

(** ** The product *)

Lemma multiply_wide_spec a b :
  0 ≤ a < 2 ^ 64 → 0 ≤ b < 2 ^ 64 → multiply_wide a b = (a * b + 2 ^ 63) / 2 ^ 64.
Proof.
  intros Ha Hb. rw /multiply_wide /wrap128. assert (0 ≤ a * b ≤ (2 ^ 64 - 1) * (2 ^ 64 - 1)) as Hp by nia.
  rw (Z.mod_small (a * b)); [lia|]. rw land_bit; [apply Z.mod_pos_bound; done|done|].
  rw Z.shiftr_div_pow2 //. pose proof (Z.div_mod (a * b) (2 ^ 64)) as Hd. pose proof (Z.mod_pos_bound (a * b) (2 ^ 64)) as Hm.
  rw /wrap64. set (q := a * b / 2 ^ 64) in *. set (r := (a * b) mod 2 ^ 64) in *. rw Z.testbit_eqb //.
  assert (0 ≤ q ≤ 2 ^ 64 - 2) by lia. rw (Z.mod_small q); [lia|].
  destruct (Z.lt_ge_cases r (2 ^ 63)) as [H1|H1].
  - rw (Z.div_small r); [lia|]. cbn [negb]. change (0 mod 2 =? 1) with false. cbn [negb]. apply Z.div_unique with (r := r + 2 ^ 63); lia.
  - replace (r / 2 ^ 63) with 1; [|apply Z.div_unique with (r := r - 2 ^ 63); lia].
    change (1 mod 2 =? 1) with true. cbn [negb]. rw Z.mod_small; [lia|]. apply Z.div_unique with (r := r - 2 ^ 63); lia.
Qed.

(** Both ways round to the nearest, upwards in the middle. *)
Lemma multiply_halves_spec a b :
  0 ≤ a < 2 ^ 64 → 0 ≤ b < 2 ^ 64 → multiply_halves a b = (a * b + 2 ^ 63) / 2 ^ 64.
Proof.
  intros Ha Hb. rw /multiply_halves !land_mask. destruct (split32 a) as [Ea Hal]; [lia|]. destruct (split32 b) as [Eb Hbl]; [lia|].
  destruct (shiftr32_bound a (2 ^ 32)) as [Ha1 Ha2]; [rw /B; lia|]. destruct (shiftr32_bound b (2 ^ 32)) as [Hb1 Hb2]; [rw /B; lia|].
  rw /bigit_ok /B in Hal, Hbl, Ea, Eb.
  set (ah := Z.shiftr a 32) in *. set (al := wrap32 a) in *. set (bh := Z.shiftr b 32) in *. set (bl := wrap32 b) in *.
  assert (∀ x y, 0 ≤ x < 2 ^ 32 → 0 ≤ y < 2 ^ 32 → 0 ≤ x * y ≤ (2 ^ 32 - 1) * (2 ^ 32 - 1) ∧ wrap64 (x * y) = x * y) as Hmul.
  { intros x y Hx Hy. assert (0 ≤ x * y ≤ (2 ^ 32 - 1) * (2 ^ 32 - 1)) by nia. split; [done|]. rw /wrap64 Z.mod_small; lia. }
  destruct (Hmul ah bh) as [Hac ->]; [lia..|]. destruct (Hmul al bh) as [Hbc ->]; [lia..|].
  destruct (Hmul ah bl) as [Had ->]; [lia..|]. destruct (Hmul al bl) as [Hbd ->]; [lia..|].
  assert (a * b = ah * bh * 2 ^ 64 + (al * bh + ah * bl) * 2 ^ 32 + al * bl) as -> by (rw -Ea -Eb; ring).
  destruct (split32 (ah * bl)) as [Ead Hadl]; [lia|]. destruct (split32 (al * bh)) as [Ebc Hbcl]; [lia|]. destruct (split32 (al * bl)) as [Ebd Hbdl]; [lia|].
  rw /bigit_ok /B in Hadl, Hbcl, Hbdl, Ead, Ebc, Ebd. clear Hmul Ea Eb.
  set (ac := ah * bh) in *. set (bc := al * bh) in *. set (ad := ah * bl) in *. set (bd := al * bl) in *.
  set (adh := Z.shiftr ad 32) in *. set (bch := Z.shiftr bc 32) in *. set (bdh := Z.shiftr bd 32) in *.
  set (adl := wrap32 ad) in *. set (bcl := wrap32 bc) in *. set (bdl := wrap32 bd) in *.
  assert (wrap64 (wrap64 (wrap64 (bdh + adl) + bcl) + 2 ^ 31) = bdh + adl + bcl + 2 ^ 31) as -> by (rw /wrap64 !Z.mod_small; lia).
  set (mid := bdh + adl + bcl + 2 ^ 31). destruct (split32 mid) as [Em Hml]; [lia|]. rw /bigit_ok /B in Hml, Em. set (mh := Z.shiftr mid 32) in *.
  assert (wrap64 (wrap64 (wrap64 (ac + adh) + bch) + mh) = ac + adh + bch + mh) as -> by (rw /wrap64 !Z.mod_small; lia).
  apply Z.div_unique with (r := wrap32 mid * 2 ^ 32 + bdl); lia.
Qed.

(** ** Fractions *)

Lemma frac_den_pos e t : 0 < frac_den e t.
Proof. rw /frac_den. apply Z.mul_pos_pos; apply Z.pow_pos_nonneg; lia. Qed.
Lemma frac_num_pos f e t : 0 < f → 0 < frac_num f e t.
Proof. intros. rw /frac_num. repeat apply Z.mul_pos_pos; try done; apply Z.pow_pos_nonneg; lia. Qed.

(** A fraction with other exponents: the quotients [2 ^ e / 10 ^ t] are multiplied. *)
Lemma frac_shift e t de dt :
  frac_num 1 (e + de) (t + dt) * (frac_den e t * frac_den de dt) =
  frac_num 1 e t * frac_num 1 de dt * frac_den (e + de) (t + dt).
Proof.
  rw /frac_num /frac_den !Z.mul_1_l.
  transitivity ((2 ^ Z.max (e + de) 0 * 2 ^ Z.max (- e) 0 * 2 ^ Z.max (- de) 0) * (10 ^ Z.max (- (t + dt)) 0 * 10 ^ Z.max t 0 * 10 ^ Z.max dt 0)); [ring|].
  transitivity ((2 ^ Z.max e 0 * 2 ^ Z.max de 0 * 2 ^ Z.max (- (e + de)) 0) * (10 ^ Z.max (- t) 0 * 10 ^ Z.max (- dt) 0 * 10 ^ Z.max (t + dt) 0)); [|ring].
  rw -!Z.pow_add_r; try lia. f_equal; f_equal; lia.
Qed.

(** Rounding depends on the quotient only. *)
Lemma round_ratio a b c d : 0 < b → 0 < d → a * d = c * b → round_half_even a b = round_half_even c d.
Proof. intros Hb Hd H. rw -(round_scale d a b) // -(round_scale b c d) // (Z.mul_comm b d). f_equal. lia. Qed.

(** ** Powers of ten between doubles *)

(** The exponent of the 53-bit numbers around [10 ^ t], and that the largest one below is at
    least [2 ^ -62] of it away; the quotient is that of the leading bits. *)
Definition pow10_exponent (t : Z) : Z := Z.shiftr (t * 1741647) 19 - 52.
Definition apart (n d : Z) : bool :=
  let s := Z.max 0 (Z.log2 n - 120) in
  let g := d - Z.shiftr d s / Z.shiftr n s * n in
  (2 ^ 52 * n <=? d) && (d <? 2 ^ 53 * n) && (0 <=? g) && (g <? n) && ((g =? 0) || (d <=? 2 ^ 62 * g)).
Definition pow10_apart (t : Z) : bool := apart (frac_num 1 (pow10_exponent t) t) (frac_den (pow10_exponent t) t).

Fixpoint interval (lo : Z) (count : nat) : list Z :=
  match count with O => [] | S count => lo :: interval (lo + 1) count end.
Lemma interval_elem lo count x : lo ≤ x < lo + Z.of_nat count → In x (interval lo count).
Proof.
  revert lo. induction count as [|count IH]; intros lo Hx; [lia|]. cbn [interval].
  destruct (Z.eq_dec lo x) as [->|]; [by left|]. right. apply IH. lia.
Qed.

(** The powers [10 ^ t] and [10 ^ -t] one after the other, with [p] for [10 ^ t]. *)
Fixpoint apart_loop (count : nat) (t p : Z) : bool :=
  match count with
  | O => true
  | S count =>
      let e := pow10_exponent t in
      let e' := pow10_exponent (- t) in
      apart (Z.shiftl 1 (Z.max e 0)) (Z.shiftl p (Z.max (- e) 0)) &&
      apart (Z.shiftl p (Z.max e' 0)) (Z.shiftl 1 (Z.max (- e') 0)) && apart_loop count (t + 1) (10 * p)
  end.

Lemma apart_loop_spec count t :
  0 ≤ t → apart_loop count t (10 ^ t) = true → ∀ x, t ≤ x < t + Z.of_nat count → pow10_apart x = true ∧ pow10_apart (- x) = true.
Proof.
  revert t. induction count as [|count IH]; intros t Ht H x Hx; [lia|]. cbn [apart_loop] in H.
  apply andb_true_iff in H as [[H1 H2]%andb_true_iff H3]. destruct (Z.eq_dec x t) as [->|]; [|apply (IH (t + 1)); [lia| |lia]; rw Z.pow_add_r; [lia..|]; by rw Z.mul_comm].
  rw !Z.shiftl_mul_pow2 in H1, H2; [lia..|]. rw /pow10_apart /frac_num /frac_den. rw !Z.mul_1_l in H1, H2 |- *.
  replace (Z.max (- t) 0) with 0 by lia. replace (Z.max t 0) with t by lia. rw Z.opp_involutive. replace (Z.max t 0) with t by lia. rw Z.pow_0_r !Z.mul_1_r !Z.mul_1_l.
  split; [done|]. by rw Z.mul_comm.
Qed.

Lemma pow10_apart_all : apart_loop 380 0 1 = true.
Proof. by vm_compute. Qed.

Lemma pow10_is_apart t : - 380 < t < 380 → pow10_apart t = true.
Proof.
  intros Ht. destruct (apart_loop_spec 380 0 ltac:(done) pow10_apart_all (Z.abs t)) as [H1 H2]; [lia|].
  destruct (Z.abs_eq_or_opp t) as [E|E]; rw E in H1, H2; [done|]. by rw Z.opp_involutive in H2.
Qed.

(** A number of 53 bits that is less than [10 ^ t] is not close to it. *)
Lemma pow10_gap f e t :
  2 ^ 52 ≤ f < 2 ^ 53 → - 380 < t < 380 →
  (2 ^ 62 - 1) * frac_den e t < 2 ^ 62 * (f * frac_num 1 e t) → frac_den e t ≤ f * frac_num 1 e t.
Proof.
  intros Hf Ht Hclose. destruct (Z.le_gt_cases (frac_den e t) (f * frac_num 1 e t)) as [|Hlt]; [done|]. exfalso.
  pose proof (pow10_is_apart t Ht) as Hall. rw /pow10_apart /apart in Hall. set (l := pow10_exponent t) in *. cbn zeta in Hall.
  set (q := Z.shiftr _ _ / _) in Hall. set (g := _ - q * _) in Hall.
  apply andb_true_iff in Hall as [[[[H1%Z.leb_le H2%Z.ltb_lt]%andb_true_iff G1%Z.leb_le]%andb_true_iff G2%Z.ltb_lt]%andb_true_iff Hg].
  pose proof (frac_shift l t (e - l) 0) as Hs. replace (l + (e - l)) with e in Hs by lia. rw Z.add_0_r in Hs.
  pose proof (frac_num_pos 1 e t) as Pn. pose proof (frac_num_pos 1 l t) as Pnl. pose proof (frac_den_pos e t) as Pd.
  assert (frac_num 1 (e - l) 0 = 2 ^ Z.max (e - l) 0) as E1 by (rw /frac_num; change (Z.max (- 0) 0) with 0; ring).
  assert (frac_den (e - l) 0 = 2 ^ Z.max (- (e - l)) 0) as E2 by (rw /frac_den; change (Z.max 0 0) with 0; ring). rw E1 E2 in Hs.
  set (n := frac_num 1 e t) in *. set (d := frac_den e t) in *. set (nl := frac_num 1 l t) in *. set (dl := frac_den l t) in *.
  assert (0 < n) as Pn' by (by apply Pn). assert (0 < nl) as Pnl' by (by apply Pnl). clear Pn Pnl E1 E2. assert (f * n ≤ (2 ^ 53 - 1) * n) as Fu by (apply Z.mul_le_mono_nonneg_r; lia).
  assert (2 ^ 52 * n ≤ f * n) as Fl by (apply Z.mul_le_mono_nonneg_r; lia).
  destruct (Z.lt_trichotomy e l) as [He|[He|He]].
  - replace (Z.max (e - l) 0) with 0 in Hs by lia. replace (Z.max (- (e - l)) 0) with (l - e - 1 + 1) in Hs by lia.
    rw Z.pow_add_r in Hs; [lia..|]. assert (0 < 2 ^ (l - e - 1)) as Hw by (apply Z.pow_pos_nonneg; lia). set (w := 2 ^ (l - e - 1)) in *.
    assert (2 ^ 53 * n ≤ d); [|clear -Hclose Fu Pn' H; lia]. apply (Z.mul_le_mono_pos_l _ _ nl Pnl').
    replace (nl * d) with (n * (dl * w) * 2) by lia. assert (dl * 1 ≤ dl * w) by (apply Z.mul_le_mono_nonneg_l; lia).
    assert (n * (2 ^ 52 * nl) ≤ n * (dl * w)) by (apply Z.mul_le_mono_nonneg_l; lia). lia.
  - subst e. change n with nl in *. change d with dl in *. assert (dl = q * nl + g) as Hdm by (rw /g; lia). clearbody q g.
    assert (f < q + 1) as Hfq by (apply (Z.mul_lt_mono_pos_r nl); lia). apply orb_true_iff in Hg as [Hg%Z.eqb_eq|Hg%Z.leb_le].
    + assert (f < q) by (apply (Z.mul_lt_mono_pos_r nl); lia). assert (f * nl ≤ (q - 1) * nl) by (apply Z.mul_le_mono_nonneg_r; lia). lia.
    + assert (f * nl ≤ q * nl) by (apply Z.mul_le_mono_nonneg_r; lia). lia.
  - replace (Z.max (e - l) 0) with (e - l - 1 + 1) in Hs by lia. replace (Z.max (- (e - l)) 0) with 0 in Hs by lia.
    rw Z.pow_add_r in Hs; [lia..|]. assert (0 < 2 ^ (e - l - 1)) as Hw by (apply Z.pow_pos_nonneg; lia). set (w := 2 ^ (e - l - 1)) in *.
    assert (2 * d < 2 ^ 53 * n); [|clear -Hlt Fl H; lia]. apply (Z.mul_lt_mono_pos_l nl _ _ Pnl').
    assert (n * dl < n * (2 ^ 53 * nl)) by (apply Z.mul_lt_mono_pos_l; lia). assert (nl * d * 1 ≤ nl * d * w) by (apply Z.mul_le_mono_nonneg_l; lia). lia.
Qed.

(** ** The cached powers *)

(** [10 ^ k] is within half a unit of [c]. *)
Definition power_ok (c : fp) (k : Z) : bool :=
  let n := frac_num 1 (- fp_e c) (- k) in
  let d := frac_den (- fp_e c) (- k) in
  (2 ^ 63 <=? fp_f c) && (fp_f c <? 2 ^ 64) && (2 * Z.abs (fp_f c * d - n) <=? d) && (- 348 <=? k) && (k <=? 340).

Lemma table_powers_ok :
  forallb (λ i, match grisu_pow10_significands !! i, grisu_pow10_exponents !! i with
                | Some f, Some e => power_ok (mk_fp f e) (- 348 + Z.of_nat i * 8)
                | _, _ => false
                end) (seq 0 87) = true.
Proof. by vm_compute. Qed.

(** For every exponent of a normalised double there is a power, and the product has an exponent
    from -60 to -32. *)
Definition product_exponent_ok (e : Z) : bool :=
  match get_cached_power (- 60 - (e + 64)) with
  | Some (c, k) => (- 60 <=? e + fp_e c + 64) && (e + fp_e c + 64 <=? - 32)
  | None => false
  end.

Lemma product_exponents_ok : forallb product_exponent_ok (interval (- 1140) 2110) = true.
Proof. by vm_compute. Qed.

Lemma get_cached_power_ok m c k : get_cached_power m = Some (c, k) → power_ok c k = true.
Proof.
  rw /get_cached_power. set (i := Z.quot _ 8 + 1). destruct (Z.ltb_spec i 0); [done|].
  destruct (grisu_pow10_significands !! Z.to_nat i) as [f|] eqn:Ef; [|done].
  destruct (grisu_pow10_exponents !! Z.to_nat i) as [e|] eqn:Ee; [|done]. intros [= <- <-].
  pose proof table_powers_ok as H1. rw forallb_forall in H1. apply lookup_lt_Some in Ef as Hl. change (length grisu_pow10_significands) with 87%nat in Hl.
  specialize (H1 (Z.to_nat i)). rw Ef Ee in H1. replace (Z.of_nat (Z.to_nat i)) with i in H1 by lia. apply H1, in_seq. lia.
Qed.

(** The product of a normalised number and its power is less than one away from the exact one,
    which is [f * n / (2 ^ 64 * d)]. *)
Lemma cached_product f e :
  2 ^ 63 ≤ f < 2 ^ 64 → - 1140 ≤ e < 970 →
  ∃ c k, get_cached_power (- 60 - (e + 64)) = Some (c, k) ∧ - 348 ≤ k ≤ 340 ∧ - 60 ≤ e + fp_e c + 64 ≤ - 32 ∧
    let p := multiply_wide f (fp_f c) in
    let n := frac_num 1 (- fp_e c) (- k) in
    let d := frac_den (- fp_e c) (- k) in
    2 ^ 62 ≤ p < 2 ^ 64 ∧ Z.abs (p * (2 ^ 64 * d) - f * n) < 2 ^ 64 * d.
Proof.
  intros Hf He. pose proof product_exponents_ok as Hall. rw forallb_forall in Hall. specialize (Hall e (interval_elem _ 2110 _ He)).
  rw /product_exponent_ok in Hall. destruct (get_cached_power (- 60 - (e + 64))) as [[c k]|] eqn:Ec; [|done].
  apply andb_true_iff in Hall as [R1%Z.leb_le R2%Z.leb_le]. exists c, k. split; [done|]. apply get_cached_power_ok in Ec. rw /power_ok in Ec.
  set (n := frac_num _ _ _) in *. set (d := frac_den _ _) in *. apply andb_true_iff in Ec as [[[[C1%Z.leb_le C2%Z.ltb_lt]%andb_true_iff Ha%Z.leb_le]%andb_true_iff K1%Z.leb_le]%andb_true_iff K2%Z.leb_le].
  split; [lia|]. split; [lia|]. cbn zeta. rw multiply_wide_spec; [lia..|].
  pose proof (Z.div_mod (f * fp_f c + 2 ^ 63) (2 ^ 64)) as Hd. pose proof (Z.mod_pos_bound (f * fp_f c + 2 ^ 63) (2 ^ 64)) as Hm.
  set (p := (f * fp_f c + 2 ^ 63) / 2 ^ 64) in *. set (r := (f * fp_f c + 2 ^ 63) mod 2 ^ 64) in *.
  assert (2 ^ 63 * 2 ^ 63 ≤ f * fp_f c ≤ (2 ^ 64 - 1) * (2 ^ 64 - 1)) as Hp by (split; apply Z.mul_le_mono_nonneg; lia).
  split; [lia|]. assert (0 < d) as Pd by apply frac_den_pos.
  replace (p * (2 ^ 64 * d) - f * n) with ((2 ^ 64 * p - f * fp_f c) * d + f * (fp_f c * d - n)) by ring.
  assert (Z.abs (2 ^ 64 * p - f * fp_f c) ≤ 2 ^ 63) as Hq by lia.
  assert (Z.abs ((2 ^ 64 * p - f * fp_f c) * d) ≤ 2 ^ 63 * d) by (rw Z.abs_mul (Z.abs_eq d); [lia|]; apply Z.mul_le_mono_nonneg_r; lia).
  assert (2 * Z.abs (f * (fp_f c * d - n)) ≤ f * d) by (rw Z.abs_mul (Z.abs_eq f); [lia|]; rw Z.mul_assoc (Z.mul_comm 2) -Z.mul_assoc; apply Z.mul_le_mono_nonneg_l; lia).
  assert (f * d < 2 ^ 64 * d) by (apply Z.mul_lt_mono_pos_r; lia). lia.
Qed.
