(* ===== verification/FmtGrisu.v ===== *)
(** Printing a given number of digits in fmt: the fast algorithm of
    extern/fmt/include/fmt/format-inl.h with its table of powers of ten, and [format_float],
    which falls back to the exact one when the fast one cannot decide. A failed assertion, and
    an index outside of a table, is [None]; characters are their codes. *)

From Stdlib Require Import ssreflect.
From stdpp Require Import list.
From S2P Require Import Prelude FmtInt FmtBigint FmtDragon FmtCached.

Open Scope general_if_scope.
Open Scope Z_scope.

(** ** Rounding *)

Inductive round_direction := dir_unknown | dir_up | dir_down.

Definition get_round_direction (divisor remainder error : Z) : option round_direction :=
  if negb (remainder <? divisor) || negb (error <? divisor) || negb (error <? divisor - error) then None
  else if (remainder <=? divisor - remainder) && (error * 2 <=? divisor - remainder * 2) then Some dir_down
  else if (error <=? remainder) && (divisor - (remainder - error) <=? remainder - error) then Some dir_up
  else Some dir_unknown.

(** ** The handler *)

Inductive digits_result := digits_more | digits_done | digits_error.

(** [fixed_handler]; [size] is the length of the characters. *)
Record fixed_handler := mk_handler { h_buf : list Z; h_precision : Z; h_exp10 : Z; h_fixed : bool }.

Definition h_size (h : fixed_handler) : Z := Z.of_nat (length (h_buf h)).

Definition on_start (h : fixed_handler) (divisor remainder error exp : Z) : option (digits_result * fixed_handler) :=
  if negb (h_fixed h) then Some (digits_more, h)
  else
    let precision := h_precision h + (exp + h_exp10 h) in
    let h := mk_handler (h_buf h) precision (h_exp10 h) (h_fixed h) in
    if 0 <? precision then Some (digits_more, h)
    else if precision <? 0 then Some (digits_done, h)
    else
      match get_round_direction divisor remainder error with
      | None => None
      | Some dir_unknown => Some (digits_error, h)
      | Some dir =>
          let c := match dir with dir_up => char0 + 1 | _ => char0 end in
          Some (digits_done, mk_handler (h_buf h ++ [c]) precision (h_exp10 h) (h_fixed h))
      end.

(** The digit is rounded up: the carry, and a longer number or a greater exponent. *)
Definition round_last (h : fixed_handler) : fixed_handler :=
  let last := (length (h_buf h) - 1)%nat in
  let buf := propagate (Z.ltb (char0 + 9)) (<[last := nth last (h_buf h) 0 + 1]> (h_buf h)) last in
  if char0 + 9 <? nth 0 buf 0 then
    let buf := <[0%nat := char0 + 1]> buf in
    if h_fixed h then mk_handler (buf ++ [char0]) (h_precision h) (h_exp10 h) (h_fixed h)
    else mk_handler buf (h_precision h) (h_exp10 h + 1) (h_fixed h)
  else mk_handler buf (h_precision h) (h_exp10 h) (h_fixed h).

Definition on_digit (h : fixed_handler) (digit divisor remainder error : Z) (integral : bool) :
  option (digits_result * fixed_handler) :=
  if negb (remainder <? divisor) then None
  else
    let h := mk_handler (h_buf h ++ [digit]) (h_precision h) (h_exp10 h) (h_fixed h) in
    if negb integral && (remainder <=? error) then Some (digits_error, h)
    else if h_size h <? h_precision h then Some (digits_more, h)
    else if negb integral && ((divisor <=? error) || (divisor - error <=? error)) then Some (digits_error, h)
    else if integral && negb ((error =? 1) && (2 <? divisor)) then None
    else
      match get_round_direction divisor remainder error with
      | None => None
      | Some dir_down => Some (digits_done, h)
      | Some dir_unknown => Some (digits_error, h)
      | Some dir_up => Some (digits_done, round_last h)
      end.

(** ** The digits *)

(** The switch over the number of digits left: the digit and the rest. *)
Definition divmod_integral (exp integral : Z) : option (Z * Z) :=
  if exp =? 1 then Some (integral, 0)
  else if (2 <=? exp) && (exp <=? 10) then
    match powers_of_10 1 !! Z.to_nat (exp - 2) with
    | Some divisor => Some (integral / divisor, integral mod divisor)
    | None => None
    end
  else None.

(** The loop over the digits of the integral part: when it is through, more digits are wanted. *)
Fixpoint integral_loop (exp : nat) (h : fixed_handler) (shift integral fractional error : Z) :
  option (digits_result * fixed_handler * Z) :=
  match exp with
  | O => Some (digits_more, h, 0)
  | S exp' =>
      match divmod_integral (Z.of_nat exp) integral, powers_of_10_64 !! exp' with
      | Some (digit, integral), Some power =>
          let remainder := wrap64 (wrap64 (Z.shiftl integral shift) + fractional) in
          match on_digit h (char0 + digit) (wrap64 (Z.shiftl power shift)) remainder error true with
          | Some (digits_more, h) => integral_loop exp' h shift integral fractional error
          | Some (result, h) => Some (result, h, Z.of_nat exp')
          | None => None
          end
      | _, _ => None
      end
  end.

Fixpoint fractional_loop (fuel : nat) (h : fixed_handler) (shift fractional error exp : Z) :
  option (digits_result * fixed_handler * Z) :=
  match fuel with
  | O => None
  | S fuel =>
      let fractional := wrap64 (fractional * 10) in
      let error := wrap64 (error * 10) in
      let digit := char0 + Z.shiftr fractional shift in
      let fractional := Z.land fractional (2 ^ shift - 1) in
      let exp := exp - 1 in
      match on_digit h digit (2 ^ shift) fractional error false with
      | Some (digits_more, h) => fractional_loop fuel h shift fractional error exp
      | Some (result, h) => Some (result, h, exp)
      | None => None
      end
  end.

(** [grisu_gen_digits]: the result, the handler and [exp]. *)
Definition grisu_gen_digits (value : fp) (error : Z) (h : fixed_handler) : option (digits_result * fixed_handler * Z) :=
  let shift := - fp_e value in
  let one := wrap64 (Z.shiftl 1 shift) in
  let integral := wrap32 (Z.shiftr (fp_f value) shift) in
  if (integral =? 0) || negb (integral =? Z.shiftr (fp_f value) shift) then None
  else
    let fractional := Z.land (fp_f value) (one - 1) in
    match count_digits32 integral with
    | None => None
    | Some exp =>
        match powers_of_10_64 !! Z.to_nat (exp - 1) with
        | None => None
        | Some power =>
            match on_start h (wrap64 (Z.shiftl power shift)) (fp_f value / 10) (wrap64 (error * 10)) exp with
            | Some (digits_more, h) =>
                match integral_loop (Z.to_nat exp) h shift integral fractional error with
                | Some (digits_more, h, exp) => fractional_loop 19 h shift fractional error exp
                | r => r
                end
            | Some (result, h) => Some (result, h, exp)
            | None => None
            end
        end
    end.

(** ** [format_float] *)

Record float_specs := mk_float_specs { fs_fixed : bool; fs_showpoint : bool; fs_binary32 : bool }.

Fixpoint strip_zeros (fuel : nat) (buf : list Z) (exp : Z) : list Z * Z :=
  match fuel with
  | O => (buf, exp)
  | S fuel =>
      if (0 <? Z.of_nat (length buf)) && (nth (length buf - 1) buf 0 =? char0)
      then strip_zeros fuel (take (length buf - 1) buf) (exp + 1)
      else (buf, exp)
  end.

(** The path for a precision that is given: the double [u], and for a float also its own bits
    [u32]; the characters and the exponent of the last one. *)
Definition format_precision (u u32 precision : Z) (specs : float_specs) : option (list Z * Z) :=
  match normalize (fst (assign_double u)) with
  | None => None
  | Some normalized =>
      match get_cached_power (- 60 - (fp_e normalized + 64)) with
      | None => None
      | Some (cached_pow, cached_exp10) =>
          let precision := if 767 <? precision then 767 else precision in
          match grisu_gen_digits (fp_mul normalized cached_pow) 1 (mk_handler [] precision (- cached_exp10) (fs_fixed specs)) with
          | None => None
          | Some (digits_error, h, exp) =>
              fallback_format (if fs_binary32 specs then u32 else u) (h_precision h) (fs_binary32 specs)
                (exp + (h_size h - cached_exp10 - 1))
          | Some (_, h, exp) => Some (h_buf h, exp + h_exp10 h)
          end
      end
  end.

(** A zero has its digits at once; trailing zeros are removed unless the format is fixed. The
    numbers are not negative, and the shortest digits that a negative precision asks for are in
    [FmtFloat.write_digits]. *)
Definition format_float (u u32 precision : Z) (specs : float_specs) : option (list Z * Z) :=
  if u =? 0 then
    if (precision <=? 0) || negb (fs_fixed specs) then Some ([char0], 0)
    else Some (replicate (Z.to_nat precision) char0, - precision)
  else
    match format_precision u u32 precision specs with
    | None => None
    | Some (buf, exp) =>
        if negb (fs_fixed specs) && negb (fs_showpoint specs) then Some (strip_zeros (length buf) buf exp)
        else Some (buf, exp)
    end.

(** ** Rounding with an error *)

Lemma round_unique a b q : 0 < b → 2 * Z.abs (a - q * b) < b → round_half_even a b = q.
Proof.
  intros Hb H. rw /round_half_even. destruct (Z.le_gt_cases (q * b) a).
  - assert (a / b = q) as -> by (symmetry; apply Z.div_unique with (r := a - q * b); lia).
    assert (a mod b = a - q * b) as -> by (symmetry; apply Z.mod_unique with (q := q); lia).
    destruct (Z.ltb_spec b (2 * (a - q * b))); [lia|]. destruct (Z.eqb_spec (2 * (a - q * b)) b); [lia|done].
  - assert (a / b = q - 1) as -> by (symmetry; apply Z.div_unique with (r := a - q * b + b); lia).
    assert (a mod b = a - q * b + b) as -> by (symmetry; apply Z.mod_unique with (q := q - 1); lia).
    destruct (Z.ltb_spec b (2 * (a - q * b + b))); [cbn; lia|lia].
Qed.

Lemma round_ge a b q : 0 < b → q * b ≤ a → q ≤ round_half_even a b.
Proof.
  intros Hb H. assert (q ≤ a / b) by (apply Z.div_le_lower_bound; lia). rw /round_half_even. case_match; lia.
Qed.

(** A direction is given only when every number within the error has it. *)
Lemma direction_spec D x y divisor remainder error :
  0 < y → 0 ≤ remainder < divisor → 0 < error → 2 * error < divisor →
  Z.abs ((D * divisor + remainder) * y - x) < error * y →
  ∃ dir, get_round_direction divisor remainder error = Some dir ∧
    match dir with
    | dir_down => round_half_even x (divisor * y) = D
    | dir_up => round_half_even x (divisor * y) = D + 1
    | dir_unknown => True
    end.
Proof.
  intros Hy Hr He Hd Hx. rw /get_round_direction.
  destruct (Z.ltb_spec remainder divisor); [|lia]. destruct (Z.ltb_spec error divisor); [|lia].
  destruct (Z.ltb_spec error (divisor - error)); [|lia]. cbn [negb orb].
  assert (0 < divisor * y) as Hdy by nia. assert (2 * (error * y) < divisor * y) as Hey by nia.
  destruct ((remainder <=? divisor - remainder) && (error * 2 <=? divisor - remainder * 2)) eqn:E1.
  - apply andb_true_iff in E1 as [_ E1%Z.leb_le]. eexists. split; [done|]. apply round_unique; [done|].
    assert (2 * (remainder * y) + 2 * (error * y) ≤ divisor * y) by nia. assert (0 ≤ remainder * y) by nia. lia.
  - destruct ((error <=? remainder) && (divisor - (remainder - error) <=? remainder - error)) eqn:E2; [|by eexists].
    apply andb_true_iff in E2 as [_ E2%Z.leb_le]. eexists. split; [done|]. apply round_unique; [done|].
    assert (divisor * y ≤ 2 * (remainder * y) - 2 * (error * y)) by nia. assert (remainder * y < divisor * y) by nia. lia.
Qed.

(** ** The handler *)

(** The digits so far and one more. *)
Definition push (h : fixed_handler) (c : Z) : fixed_handler :=
  mk_handler (h_buf h ++ [c]) (h_precision h) (h_exp10 h) (h_fixed h).

(** The digits of [h'] are the number [r] at the place of the last digit of [h], up to a carry
    over all of them: then a fixed format has one digit more, the others the next exponent. *)
Definition finished (h h' : fixed_handler) (r : Z) : Prop :=
  Forall is_digit (h_buf h') ∧ (length (h_buf h) ≤ length (h_buf h') ≤ S (length (h_buf h)))%nat ∧
  (h_fixed h = false → length (h_buf h') = length (h_buf h)) ∧
  (h_exp10 h' = h_exp10 h ∧ dec (h_buf h') = r ∨ h_exp10 h' = h_exp10 h + 1 ∧ 10 * dec (h_buf h') = r).

Lemma round_last_spec h c :
  Forall is_digit (h_buf h) → is_digit c → finished (push h c) (round_last (push h c)) (dec (h_buf h ++ [c]) + 1).
Proof.
  intros Hb Hc. rw /is_digit in Hc. rw /round_last. cbn [push h_buf h_precision h_exp10 h_fixed].
  replace (length (h_buf h ++ [c]) - 1)%nat with (length (h_buf h)) by (rw length_app /=; lia).
  assert (nth (length (h_buf h)) (h_buf h ++ [c]) 0 = c) as -> by (by rw nth_middle).
  assert (<[length (h_buf h) := c + 1]> (h_buf h ++ [c]) = h_buf h ++ (c + 1) :: replicate 0 char0) as -> by
    (replace (length (h_buf h)) with (length (h_buf h) + 0)%nat by lia; by rw insert_app_r).
  destruct (propagate_spec (Z.ltb (char0 + 9)) (h_buf h) (c + 1) 0) as (Hl & Hd & Hp).
  { intros z Hz. rw /overflow in Hz |- *. apply eq_true_iff_eq. rw Z.ltb_lt Z.eqb_eq. lia. }
  { done. } { rw /overflow. lia. }
  set (p := propagate _ _ _) in *. rw Nat.add_0_r in Hl. cbn [replicate] in Hd. rw dec_app dec_one in Hd.
  rw dec_app dec_one. cbn [length] in *. change (10 ^ Z.of_nat 1) with 10 in *. destruct Hp as [Hp|[m Hp]].
  - assert ((char0 + 9 <? nth 0 p 0) = false) as ->.
    { destruct p as [|z p]; [cbn in Hl; lia|]. apply Forall_inv in Hp. apply Z.ltb_ge. cbn. rw /is_digit in Hp. lia. }
    rw /finished. cbn [push h_buf h_exp10 h_fixed]. rw length_app /=. split; [done|]. split; [lia|]. split; [lia|]. left. split; [done|]. rw Hd. lia.
  - assert ((char0 + 9 <? nth 0 p 0) = true) as -> by (by rw Hp). rw Hp in Hl, Hd |- *. cbn [length] in Hl. rw length_replicate in Hl.
    change (<[0%nat := char0 + 1]> (overflow :: replicate m char0)) with ((char0 + 1) :: replicate m char0).
    rw dec_cons dec_zeros length_replicate in Hd. replace (overflow - char0) with 10 in Hd by done.
    assert (Forall is_digit ((char0 + 1) :: replicate m char0)) as Hf by (constructor; [rw /is_digit; lia|apply Forall_replicate; rw /is_digit; lia]).
    rw /finished. cbn [push h_fixed]. destruct (h_fixed h); cbn [push h_buf h_exp10].
    + split; [apply Forall_app; split; [done|constructor; [rw /is_digit; lia|constructor]]|].
      split; [rw !length_app; cbn; rw length_replicate; lia|]. split; [done|]. left. split; [done|]. rw dec_app dec_cons dec_zeros dec_one length_replicate. change (10 ^ Z.of_nat (length [char0])) with 10. lia.
    + rw length_app /= length_replicate. split; [done|]. split; [lia|]. split; [lia|]. right. split; [done|]. rw dec_cons dec_zeros length_replicate. lia.
Qed.

(** ** The digits *)

Section gen_digits.

(** The product [p * 2 ^ -s] and the exact number [x / y * 2 ^ -s]. *)
Context (p s x y : Z).
Context (Hp : 2 ^ 62 ≤ p < 2 ^ 64) (Hs : 32 ≤ s ≤ 60) (Hy : 0 < y) (Hxy : Z.abs (p * y - x) < y).

(** What a result says, for the digits of [h] with the last of them at [divisor / error]. *)
Definition result_ok (h : fixed_handler) (divisor error : Z) (res : digits_result) (h' : fixed_handler) : Prop :=
  match res with
  | digits_more => h' = h ∧ h_size h < h_precision h
  | digits_error => h' = h
  | digits_done => h_precision h ≤ h_size h ∧ finished h h' (round_half_even (x * error) (divisor * y))
  end.

Lemma on_digit_spec h q divisor remainder error (integral : bool) :
  Forall is_digit (h_buf h) → 0 ≤ q ≤ 9 → 0 ≤ remainder < divisor → 0 < error → (integral = true → error = 1 ∧ 2 < divisor) →
  p * error = (10 * dec (h_buf h) + q) * divisor + remainder →
  ∃ res h', on_digit h (char0 + q) divisor remainder error integral = Some (res, h') ∧
    result_ok (push h (char0 + q)) divisor error res h' ∧ (integral = false → remainder ≤ error → res = digits_error).
Proof.
  intros Hb Hq Hr He Hi Heq. rw /on_digit. destruct (Z.ltb_spec remainder divisor); [|lia]. cbn [negb]. fold (push h (char0 + q)).
  assert (Z.abs (((10 * dec (h_buf h) + q) * divisor + remainder) * y - x * error) < error * y) as Hc.
  { rw -Heq. replace (p * error * y - x * error) with (error * (p * y - x)) by ring. rw Z.abs_mul (Z.abs_eq error); [lia|]. by apply Z.mul_lt_mono_pos_l. }
  destruct (negb integral && (remainder <=? error)) eqn:E1; [by do 2 eexists|].
  assert (integral = false → remainder ≤ error → False) as Hno.
  { intros -> Hle. cbn in E1. apply Z.leb_gt in E1. lia. }
  destruct (Z.ltb_spec (h_size (push h (char0 + q))) (h_precision (push h (char0 + q)))).
  { do 2 eexists. split; [done|]. split; [done|]. intros A C. by destruct (Hno A C). }
  destruct (negb integral && ((divisor <=? error) || (divisor - error <=? error))) eqn:E2; [by do 2 eexists|].
  assert (2 * error < divisor) as H2.
  { destruct integral; [destruct (Hi eq_refl); lia|]. cbn in E2. apply orb_false_iff in E2 as [_ E2%Z.leb_gt]. lia. }
  assert (integral && negb ((error =? 1) && (2 <? divisor)) = false) as ->.
  { destruct integral; [|done]. destruct (Hi eq_refl) as [-> H3]. destruct (Z.ltb_spec 2 divisor); [done|lia]. }
  destruct (direction_spec _ _ _ _ _ _ Hy Hr He H2 Hc) as (dir & -> & Hdir).
  assert (is_digit (char0 + q)) as Hdq by (rw /is_digit; lia).
  assert (dec (h_buf h ++ [char0 + q]) = 10 * dec (h_buf h) + q) as Hdec by (rw dec_app dec_one; change (10 ^ Z.of_nat (length [char0 + q])) with 10; lia).
  destruct dir; (do 2 eexists; split; [reflexivity|]; split; [|intros A C; by destruct (Hno A C)]); cbn [result_ok].
  - done.
  - split; [done|]. rw Hdir -Hdec. by apply round_last_spec.
  - split; [done|]. rw Hdir -Hdec. split; [apply Forall_app; split; [done|by constructor; [|constructor]]|].
    split; [cbn; lia|]. split; [done|]. by left.
Qed.

(** The digits go on until a result: [exp] is the place of the last one, and [kappa] the number
    of digits before the point. *)
Definition same_config (h h' : fixed_handler) : Prop :=
  h_precision h' = h_precision h ∧ h_exp10 h' = h_exp10 h ∧ h_fixed h' = h_fixed h.
Definition outcome (kappa : Z) (h : fixed_handler) (res : digits_result) (h' : fixed_handler) (exp : Z) : Prop :=
  ∃ h1, same_config h h1 ∧ h_size h1 = kappa - exp ∧ - 19 ≤ exp ≤ kappa - 1 ∧ h_size h1 ≤ h_precision h1 ∧ Forall is_digit (h_buf h1) ∧
    result_ok h1 (2 ^ s * 10 ^ Z.max exp 0) (10 ^ Z.max (- exp) 0) res h'.

Lemma push_size h c : h_size (push h c) = h_size h + 1.
Proof. rw /h_size /= length_app /=. lia. Qed.
Lemma push_digits h q : Forall is_digit (h_buf h) → 0 ≤ q ≤ 9 → Forall is_digit (h_buf (push h (char0 + q))).
Proof. intros. apply Forall_app. split; [done|]. constructor; [rw /is_digit; lia|constructor]. Qed.

Lemma divmod_integral_spec exp integral :
  (exp < 10)%nat → 0 ≤ integral < 10 ^ Z.of_nat (S exp) →
  divmod_integral (Z.of_nat (S exp)) integral = Some (integral / 10 ^ Z.of_nat exp, integral mod 10 ^ Z.of_nat exp) ∧
  powers_of_10_64 !! exp = Some (10 ^ Z.of_nat exp).
Proof.
  intros He Hi. rw /divmod_integral. destruct exp as [|exp]; [rw Z.div_1_r Z.mod_1_r; done|].
  destruct (Z.eqb_spec (Z.of_nat (S (S exp))) 1); [lia|].
  destruct (Z.leb_spec 2 (Z.of_nat (S (S exp)))); [|lia]. destruct (Z.leb_spec (Z.of_nat (S (S exp))) 10); [|lia]. cbn [andb].
  replace (Z.to_nat (Z.of_nat (S (S exp)) - 2)) with exp by lia. clear Hi. do 9 (destruct exp as [|exp]; [done|]). lia.
Qed.

Lemma integral_loop_spec exp h integral fractional kappa :
  Z.of_nat exp ≤ kappa ≤ 10 → 10 ^ (kappa - 1) * 2 ^ s ≤ p → Forall is_digit (h_buf h) → h_size h = kappa - Z.of_nat exp →
  h_size h < h_precision h → 0 ≤ integral < 10 ^ Z.of_nat exp → 0 ≤ fractional < 2 ^ s → Z.of_nat exp < kappa ∨ (0 < exp)%nat →
  p = (dec (h_buf h) * 10 ^ Z.of_nat exp + integral) * 2 ^ s + fractional →
  ∃ res h' exp', integral_loop exp h s integral fractional 1 = Some (res, h', exp') ∧ outcome kappa h res h' exp' ∧
    (res = digits_more → exp' = 0 ∧ p = dec (h_buf h') * 2 ^ s + fractional).
Proof.
  intros Hk Hkp. revert h integral. induction exp as [|exp IH]; intros h integral Hb Hsz Hpr Hi Hf H0 Heq; cbn [integral_loop].
  - exists digits_more, h, 0. split; [done|]. split; [|intros _; split; [done|]; rw Z.pow_0_r in Heq, Hi; lia].
    exists h. split; [done|]. split; [lia|]. split; [lia|]. split; [lia|]. split; [done|]. done.
  - destruct (divmod_integral_spec exp integral) as [-> ->]; [lia|done|].
    rw Nat2Z.inj_succ Z.pow_succ_r in Hi, Heq; [lia..|]. set (t := 10 ^ Z.of_nat exp) in *.
    assert (0 < t) as Pt by (apply Z.pow_pos_nonneg; lia). assert (2 ^ 32 ≤ 2 ^ s) as Ps by (apply Z.pow_le_mono_r; lia).
    pose proof (Z.div_mod integral t) as Hdm. pose proof (Z.mod_pos_bound integral t Pt) as Hm.
    assert (0 ≤ integral / t ≤ 9) as Hq by (split; [apply Z.div_pos; lia|]; assert (integral / t < 10) by (apply Z.div_lt_upper_bound; lia); lia).
    set (q := integral / t) in *. set (i := integral mod t) in *. assert (integral = t * q + i) as Ei by lia. clearbody q i. clear Hdm.
    assert (t * 2 ^ s ≤ p) as Htp.
    { assert (t ≤ 10 ^ (kappa - 1)) by (apply Z.pow_le_mono_r; lia). assert (t * 2 ^ s ≤ 10 ^ (kappa - 1) * 2 ^ s) by (apply Z.mul_le_mono_nonneg_r; lia). lia. }
    assert (i * 2 ^ s + fractional < t * 2 ^ s) as Hrem.
    { assert ((i + 1) * 2 ^ s ≤ t * 2 ^ s) by (apply Z.mul_le_mono_nonneg_r; lia). lia. }
    assert (0 ≤ i * 2 ^ s) by (apply Z.mul_nonneg_nonneg; lia).
    rw !Z.shiftl_mul_pow2; [lia..|]. rw /wrap64 !Z.mod_small; [lia..|].
    destruct (on_digit_spec h q (t * 2 ^ s) (i * 2 ^ s + fractional) 1 true) as (res & h' & -> & Hok & _); [done|done|lia|lia|lia|..].
    { rw Heq Ei. ring. }
    assert (outcome kappa h res h' (Z.of_nat exp)) as Hout.
    { exists (push h (char0 + q)). split; [done|]. split; [rw push_size; lia|]. split; [lia|]. split; [rw push_size /=; lia|]. split; [by apply push_digits|].
      replace (Z.max (Z.of_nat exp) 0) with (Z.of_nat exp) by lia. replace (Z.max (- Z.of_nat exp) 0) with 0 by lia. fold t. by rw (Z.mul_comm (2 ^ s)) Z.pow_0_r. }
    destruct res; try (do 3 eexists; split; [done|]; split; [exact Hout|done]).
    destruct Hok as [-> Hmore]. assert (Z.of_nat exp ≤ kappa ≤ 10) as Hk' by lia.
    destruct (IH Hk' (push h (char0 + q)) i) as (res & h' & exp' & -> & Hout' & Hm').
    + by apply push_digits. + rw push_size. lia. + done. + lia. + done. + lia.
    + cbn [push h_buf]. rw dec_app dec_one. change (10 ^ Z.of_nat (length [char0 + q])) with 10. rw Heq Ei. fold t. ring.
    + exists res, h', exp'. done.
Qed.

Lemma fractional_loop_spec fuel h fractional j kappa :
  (0 < fuel)%nat → 0 ≤ j → j + Z.of_nat fuel = 19 → 1 ≤ kappa → Forall is_digit (h_buf h) → h_size h = kappa + j → h_size h < h_precision h →
  0 ≤ fractional < 2 ^ s → p * 10 ^ j = dec (h_buf h) * 2 ^ s + fractional →
  ∃ res h' exp', fractional_loop fuel h s fractional (10 ^ j) (- j) = Some (res, h', exp') ∧ outcome kappa h res h' exp' ∧ res ≠ digits_more.
Proof.
  revert h fractional j. induction fuel as [|fuel IH]; intros h fractional j Hfuel Hj Hjf Hk Hb Hsz Hpr Hf Heq; [lia|]. cbn [fractional_loop].
  assert (2 ^ s ≤ 2 ^ 60) as Ps by (apply Z.pow_le_mono_r; lia). assert (0 < 10 ^ j) as Pj by (apply Z.pow_pos_nonneg; lia).
  assert (10 ^ j ≤ 10 ^ 18) as Pj' by (apply Z.pow_le_mono_r; lia). change (10 ^ 18) with 1000000000000000000 in Pj'.
  rw /wrap64 !Z.mod_small; [lia..|]. change (2 ^ s - 1) with (Z.pred (2 ^ s)). rw -Z.ones_equiv Z.land_ones; [lia|]. rw Z.shiftr_div_pow2; [lia|].
  pose proof (Z.div_mod (fractional * 10) (2 ^ s)) as Hdm. pose proof (Z.mod_pos_bound (fractional * 10) (2 ^ s)) as Hm.
  assert (0 ≤ fractional * 10 / 2 ^ s ≤ 9) as Hq by (split; [apply Z.div_pos; lia|]; assert (fractional * 10 / 2 ^ s < 10) by (apply Z.div_lt_upper_bound; lia); lia).
  set (q := fractional * 10 / 2 ^ s) in *. set (r := (fractional * 10) mod 2 ^ s) in *.
  assert (fractional * 10 = 2 ^ s * q + r) as Ei by lia. clearbody q r. clear Hdm.
  replace (10 ^ j * 10) with (10 ^ (j + 1)) by (rw Z.pow_add_r; lia). replace (- j - 1) with (- (j + 1)) by lia.
  assert (p * 10 ^ (j + 1) = (10 * dec (h_buf h) + q) * 2 ^ s + r) as Heq'.
  { transitivity (10 * (p * 10 ^ j)); [rw Z.pow_add_r; [lia..|]; ring|lia]. }
  assert (0 < 10 ^ (j + 1)) as Pj1 by (apply Z.pow_pos_nonneg; lia).
  destruct (on_digit_spec h q (2 ^ s) r (10 ^ (j + 1)) false) as (res & h' & -> & Hok & Hstop); [done|done|lia|done|done|done|].
  assert (outcome kappa h res h' (- (j + 1))) as Hout.
  { exists (push h (char0 + q)). split; [done|]. split; [rw push_size; lia|]. split; [lia|]. split; [rw push_size /=; lia|]. split; [by apply push_digits|].
    replace (Z.max (- (j + 1)) 0) with 0 by lia. replace (Z.max (- - (j + 1)) 0) with (j + 1) by lia. by rw Z.pow_0_r Z.mul_1_r. }
  destruct res; try (do 3 eexists; split; [done|]; split; [exact Hout|done]).
  destruct Hok as [-> Hmore]. destruct (Nat.eq_dec fuel 0%nat) as [->|Hn].
  - exfalso. assert (j + 1 = 19) as Ej by lia. rw Ej in Hstop. change (10 ^ 19) with 10000000000000000000 in Hstop.
    assert (digits_more = digits_error) as [=]. apply Hstop; [done|]. lia.
  - apply (IH (push h (char0 + q)) r (j + 1)); [lia|lia|lia|lia|by apply push_digits|rw push_size; lia|done|lia|].
    cbn [push h_buf]. rw dec_app dec_one. change (10 ^ Z.of_nat (length [char0 + q])) with 10. rw Heq'. ring.
Qed.

Lemma pow10_range (m : nat) n : 0 < n < 10 ^ Z.of_nat m → ∃ k, 1 ≤ k ≤ Z.of_nat m ∧ 10 ^ (k - 1) ≤ n < 10 ^ k.
Proof.
  induction m as [|m IH]; intros Hn; [cbn in Hn; lia|]. destruct (Z.lt_ge_cases n (10 ^ Z.of_nat m)).
  - destruct IH as (k & ? & ?); [lia|]. exists k. split; [lia|done].
  - exists (Z.of_nat (S m)). split; [lia|]. split; [|lia]. by replace (Z.of_nat (S m) - 1) with (Z.of_nat m) by lia.
Qed.

(** The number of digits that are wanted. *)
Definition wanted (kappa : Z) (h : fixed_handler) : Z := if h_fixed h then h_precision h + (kappa + h_exp10 h) else h_precision h.
Definition started (kappa : Z) (h : fixed_handler) : fixed_handler := mk_handler (h_buf h) (wanted kappa h) (h_exp10 h) (h_fixed h).

(** No digits are wanted: nothing, or one that says whether the number rounds up. *)
Definition start_outcome (kappa : Z) (h : fixed_handler) (res : digits_result) (h' : fixed_handler) (exp : Z) : Prop :=
  h_fixed h = true ∧ exp = kappa ∧
  (wanted kappa h < 0 ∧ res = digits_done ∧ h' = started kappa h ∨
   wanted kappa h = 0 ∧
   (res = digits_error ∧ h' = started kappa h ∨
    res = digits_done ∧ ∃ c, h' = push (started kappa h) c ∧ is_digit c ∧ dec [c] = round_half_even x (10 ^ kappa * 2 ^ s * y))).

Lemma on_start_spec h kappa :
  1 ≤ kappa → 10 ^ (kappa - 1) * 2 ^ s ≤ p < 10 ^ kappa * 2 ^ s →
  ∃ res h', on_start h (10 ^ (kappa - 1) * 2 ^ s) (p / 10) 10 kappa = Some (res, h') ∧
    (res = digits_more ∧ h' = started kappa h ∧ (h_fixed h = true → 0 < wanted kappa h) ∨ start_outcome kappa h res h' kappa).
Proof.
  intros Hk Hr. rw /on_start /start_outcome /started /wanted. destruct h as [buf prec exp10 [|]]; cbn [h_buf h_precision h_exp10 h_fixed negb].
  - destruct (Z.ltb_spec 0 (prec + (kappa + exp10))); [do 2 eexists; split; [done|]; by left|].
    destruct (Z.ltb_spec (prec + (kappa + exp10)) 0).
    { do 2 eexists. split; [done|]. right. split; [done|]. split; [done|]. by left. }
    set (d := 10 ^ (kappa - 1) * 2 ^ s) in *. assert (10 ^ kappa * 2 ^ s = 10 * d) as Ed.
    { rw /d. replace kappa with (Z.succ (kappa - 1)) at 1 by lia. rw Z.pow_succ_r; [lia|]. ring. }
    assert (2 ^ 32 ≤ d) as Pd.
    { assert (2 ^ 32 ≤ 2 ^ s) by (apply Z.pow_le_mono_r; lia). assert (0 < 10 ^ (kappa - 1)) by (apply Z.pow_pos_nonneg; lia). rw /d. nia. }
    pose proof (Z.div_mod p 10) as Hdm. pose proof (Z.mod_pos_bound p 10) as Hm.
    destruct (direction_spec 0 x (10 * y) d (p / 10) 10) as (dir & -> & Hdir); [lia|split; [apply Z.div_pos; lia|apply Z.div_lt_upper_bound; lia]|lia|lia|..].
    { assert (0 ≤ (p mod 10) * y ≤ 9 * y) by (split; [apply Z.mul_nonneg_nonneg; lia|apply Z.mul_le_mono_nonneg_r; lia]).
      replace ((0 * d + p / 10) * (10 * y) - x) with ((p * y - x) - (p mod 10) * y); [lia|]. rw {1}Hdm; [lia|]. ring. }
    replace (10 ^ kappa * 2 ^ s * y) with (d * (10 * y)) by (rw Ed; ring). assert (prec + (kappa + exp10) = 0) as Ez by lia.
    destruct dir; (do 2 eexists; split; [reflexivity|]; right; split; [done|]; split; [done|]; right; split; [done|]).
    + by left. + right. split; [done|]. exists (char0 + 1). split; [done|]. split; [rw /is_digit; lia|]. by rw Hdir.
    + right. split; [done|]. exists char0. split; [done|]. split; [rw /is_digit; lia|]. by rw Hdir.
  - do 2 eexists. split; [done|]. left. split; [done|]. done.
Qed.

Lemma gen_digits_spec h :
  h_buf h = [] → (h_fixed h = false → 1 ≤ h_precision h) →
  ∃ kappa res h' exp, grisu_gen_digits (mk_fp p (- s)) 1 h = Some (res, h', exp) ∧
    1 ≤ kappa ≤ 10 ∧ 10 ^ (kappa - 1) * 2 ^ s ≤ p < 10 ^ kappa * 2 ^ s ∧
    (outcome kappa (started kappa h) res h' exp ∧ res ≠ digits_more ∨ start_outcome kappa h res h' exp).
Proof.
  intros Hb Hprec. rw /grisu_gen_digits. cbn [fp_f fp_e]. rw Z.opp_involutive.
  assert (2 ^ 32 ≤ 2 ^ s ≤ 2 ^ 60) as Ps by (split; apply Z.pow_le_mono_r; lia). rw Z.shiftl_mul_pow2; [lia|].
  rw (Z.mul_1_l (2 ^ s)). assert (wrap64 (2 ^ s) = 2 ^ s) as -> by (rw /wrap64 Z.mod_small; lia). change (2 ^ s - 1) with (Z.pred (2 ^ s)). rw -Z.ones_equiv Z.land_ones; [lia|]. rw !Z.shiftr_div_pow2; [lia..|].
  pose proof (Z.div_mod p (2 ^ s)) as Hdm. pose proof (Z.mod_pos_bound p (2 ^ s)) as Hm.
  assert (4 ≤ p / 2 ^ s < 2 ^ 32) as Hi by (split; [apply Z.div_le_lower_bound; lia|apply Z.div_lt_upper_bound; lia]).
  set (i := p / 2 ^ s) in *. set (f := p mod 2 ^ s) in *. assert (p = 2 ^ s * i + f) as Ep by lia. clearbody i f. clear Hdm.
  rw /wrap32 Z.mod_small; [lia|]. destruct (Z.eqb_spec i 0); [lia|]. rw Z.eqb_refl. cbn [negb orb].
  destruct (pow10_range 10 i) as (kappa & Hk & Hr); [change (10 ^ Z.of_nat 10) with 10000000000; lia|].
  pose proof (count_digits_spec w32 i) as Hcd. cbn [count_digits bits_of] in Hcd. rw Hcd; [lia|].
  rw (digits_length 10 ltac:(done) i kappa); [lia|lia|lia|lia|]. clear Hcd.
  assert (powers_of_10_64 !! Z.to_nat (kappa - 1) = Some (10 ^ (kappa - 1))) as ->.
  { destruct (divmod_integral_spec (Z.to_nat (kappa - 1)) 0) as [_ ->]; [lia|split; [done|apply Z.pow_pos_nonneg; lia]|]. do 2 f_equal. lia. }
  assert (10 ^ (kappa - 1) * 2 ^ s ≤ p < 10 ^ kappa * 2 ^ s) as Hkp.
  { assert (10 ^ (kappa - 1) * 2 ^ s ≤ i * 2 ^ s) by (apply Z.mul_le_mono_nonneg_r; lia).
    assert ((i + 1) * 2 ^ s ≤ 10 ^ kappa * 2 ^ s) by (apply Z.mul_le_mono_nonneg_r; lia). lia. }
  assert (0 < 10 ^ (kappa - 1)) by (apply Z.pow_pos_nonneg; lia).
  rw Z.shiftl_mul_pow2; [lia|]. rw /wrap64 (Z.mod_small (10 ^ (kappa - 1) * 2 ^ s)); [nia|]. change ((1 * 10) mod 2 ^ 64) with 10.
  destruct (on_start_spec h kappa) as (res & h' & -> & Hst); [lia|done|]. destruct Hst as [(-> & -> & Hw)|Hst].
  - assert (h_size (started kappa h) < h_precision (started kappa h)) as Hpr.
    { rw /h_size /started /= Hb. cbn. rw /wanted in Hw |- *. destruct (h_fixed h); [by apply Hw|]. specialize (Hprec eq_refl). lia. }
    destruct (integral_loop_spec (Z.to_nat kappa) (started kappa h) i f kappa) as (res & h' & exp & -> & Hout & Hmore);
      [lia|lia|by rw /= Hb|rw /h_size /= Hb /=; lia|done|by rw Z2Nat.id; [lia|]; lia|lia|lia|cbn; rw Hb; cbn; lia|].
    destruct res; try (exists kappa; do 3 eexists; split; [done|]; split; [lia|]; split; [done|]; left; by split).
    destruct (Hmore eq_refl) as [-> Hp0]. destruct Hout as (h1 & Hc1 & Hs1 & _ & _ & Hb1 & -> & Hpr1).
    destruct (fractional_loop_spec 19 h1 f 0 kappa) as (res & h' & exp & E & Hout & Hnm); [lia|lia|lia|lia|done|lia|done|lia|lia|].
    change (10 ^ 0) with 1 in E. change (- 0) with 0 in E. rw E. exists kappa. do 3 eexists. split; [done|]. split; [lia|]. split; [done|]. left. split; [|done].
    destruct Hout as (h2 & (C1 & C2 & C3) & Hrest). destruct Hc1 as (D1 & D2 & D3). exists h2. split; [|done]. split; [congruence|]. split; congruence.
  - destruct res; [|exists kappa; do 3 eexists; split; [done|]; split; [lia|]; split; [done|]; by right..].
    exfalso. destruct Hst as (_ & _ & [(_ & [=] & _)|(_ & [([=] & _)|([=] & _)])]).
Qed.

End gen_digits.

(** ** Equal numbers *)

Definition same_number (v v' : fp) : Prop :=
  frac_num (fp_f v') (fp_e v') 0 * frac_den (fp_e v) 0 = frac_num (fp_f v) (fp_e v) 0 * frac_den (fp_e v') 0.

Lemma same_ratio v v' t :
  same_number v v' →
  frac_num (fp_f v') (fp_e v') t * frac_den (fp_e v) t = frac_num (fp_f v) (fp_e v) t * frac_den (fp_e v') t.
Proof.
  destruct v as [f e], v' as [f' e']. rw /same_number. cbn [fp_f fp_e]. rw !(frac_num_scale f) !(frac_num_scale f'). intros H.
  pose proof (frac_shift e 0 0 t) as S1. pose proof (frac_shift e' 0 0 t) as S2. rw !Z.add_0_r !Z.add_0_l in S1, S2.
  pose proof (frac_den_pos e 0) as P1. pose proof (frac_den_pos e' 0) as P2. pose proof (frac_den_pos 0 t) as P3.
  set (a := frac_num 1 0 t) in *. set (b := frac_den 0 t) in *. set (n := frac_num 1 e t) in *. set (n' := frac_num 1 e' t) in *.
  set (d := frac_den e t) in *. set (d' := frac_den e' t) in *. set (n0 := frac_num 1 e 0) in *. set (n0' := frac_num 1 e' 0) in *.
  set (d0 := frac_den e 0) in *. set (d0' := frac_den e' 0) in *. clearbody a b n n' d d' n0 n0' d0 d0'.
  apply (Z.mul_reg_r _ _ (d0 * d0' * b)); [nia|].
  transitivity (f' * d * d0 * (n' * (d0' * b))); [ring|]. rw S2. transitivity (f' * n0' * d0 * (a * d * d')); [ring|]. rw H.
  transitivity (f * d' * d0' * (n0 * a * d)); [ring|]. rw -S1. ring.
Qed.

(** The number as a multiple of [10 ^ exp], rounded. *)
Definition exact (v : fp) (exp : Z) : Z := round_half_even (frac_num (fp_f v) (fp_e v) exp) (frac_den (fp_e v) exp).

Lemma exact_same v v' exp : same_number v v' → exact v' exp = exact v exp.
Proof. intros H. apply round_ratio; [apply frac_den_pos..|]. rw (same_ratio v v' exp H). ring. Qed.

Lemma decimal_same v v' exp : same_number v v' → decimal_exponent v exp → decimal_exponent v' exp.
Proof.
  intros H (Hf & Hx & Hr). pose proof (same_ratio v v' exp H) as E. pose proof (frac_den_pos (fp_e v) exp) as P1. pose proof (frac_den_pos (fp_e v') exp) as P2.
  rw /decimal_exponent. rw (frac_num_scale (fp_f v')) in E |- *. pose proof (frac_num_pos 1 (fp_e v') exp) as P3.
  set (n := frac_num 1 (fp_e v') exp) in *. set (d := frac_den (fp_e v) exp) in *. set (d' := frac_den (fp_e v') exp) in *.
  set (m := frac_num (fp_f v) (fp_e v) exp) in *. assert (0 < n) as P3' by (by apply P3). clear P3.
  assert (d' ≤ fp_f v' * n < 10 * d') as Hn.
  { split; [apply (Z.mul_le_mono_pos_r _ _ d P1)|apply (Z.mul_lt_mono_pos_r d _ _ P1)]; rw E;
      [assert (d * d' ≤ m * d') by (apply Z.mul_le_mono_nonneg_r; lia)|assert (m * d' < 10 * d * d') by (apply Z.mul_lt_mono_pos_r; lia)]; lia. }
  split; [|done]. destruct (Z.le_gt_cases (fp_f v') 0); [|lia]. assert (fp_f v' * n ≤ 0) by (apply Z.mul_nonpos_nonneg; lia). lia.
Qed.

(** ** What is printed *)

(** The digits are those of [r * 10 ^ E]: the exponent is one more after a carry over all of
    them, and there may be no digits for a zero. *)
Definition printed (r E : Z) (buf : list Z) (exp : Z) : Prop :=
  Forall is_digit buf ∧
  (buf ≠ [] ∧ exp = E ∧ dec buf = r ∨ buf ≠ [] ∧ exp = E + 1 ∧ 10 * dec buf = r ∨ buf = [] ∧ exp < E ∧ r = 0).

Lemma exact_shift v t (count : nat) :
  exact v (t - Z.of_nat count) = round_half_even (frac_num (fp_f v) (fp_e v) t * 10 ^ Z.of_nat count) (frac_den (fp_e v) t).
Proof.
  apply round_ratio; [apply frac_den_pos..|]. pose proof (frac_shift (fp_e v) t 0 (- Z.of_nat count)) as H. rw Z.add_0_r Z.add_opp_r in H.
  assert (frac_num 1 0 (- Z.of_nat count) = 10 ^ Z.of_nat count) as E1.
  { rw /frac_num. replace (Z.max (- - Z.of_nat count) 0) with (Z.of_nat count) by lia. change (Z.max 0 0) with 0. ring. }
  assert (frac_den 0 (- Z.of_nat count) = 1) as E2.
  { rw /frac_den. replace (Z.max (- Z.of_nat count) 0) with 0 by lia. done. }
  rw E1 E2 Z.mul_1_r in H. rw (frac_num_scale _ _ (t - _)) (frac_num_scale _ _ t) -Z.mul_assoc H. ring.
Qed.
Lemma exact_next v t : exact v (t + 1) = round_half_even (frac_num (fp_f v) (fp_e v) t) (10 * frac_den (fp_e v) t).
Proof.
  pose proof (frac_den_pos (fp_e v) t). apply round_ratio; [apply frac_den_pos|lia|].
  pose proof (frac_shift (fp_e v) t 0 1) as H1. rw Z.add_0_r in H1. change (frac_num 1 0 1) with 1 in H1. change (frac_den 0 1) with 10 in H1.
  rw (frac_num_scale _ _ (t + 1)) (frac_num_scale _ _ t). rw Z.mul_1_r in H1. rw (Z.mul_comm 10) -Z.mul_assoc H1. ring.
Qed.

(** ** The product of a double *)

(** A double that is less than a power of ten is not close to it. *)
Lemma double_gap f e d t :
  0 ≤ d → 2 ^ 52 ≤ f * 2 ^ d < 2 ^ 53 → - 380 < t < 380 →
  (2 ^ 62 - 1) * frac_den e t < 2 ^ 62 * frac_num f e t → frac_den e t ≤ frac_num f e t.
Proof.
  intros Hd Hf Ht H. assert (same_number (mk_fp f e) (mk_fp (f * 2 ^ d) (e - d))) as Hsame.
  { rw /same_number. cbn [fp_f fp_e]. pose proof (frac_shift e 0 (- d) 0) as S. rw Z.add_0_r Z.add_opp_r in S.
    assert (frac_num 1 (- d) 0 = 1) as E1 by (rw /frac_num; by replace (Z.max (- d) 0) with 0 by lia).
    assert (frac_den (- d) 0 = 2 ^ d) as E2 by (rw /frac_den; replace (Z.max (- - d) 0) with d by lia; change (Z.max 0 0) with 0; ring).
    rw E1 E2 Z.mul_1_r in S. rw (frac_num_scale (f * 2 ^ d)) (frac_num_scale f). transitivity (f * (frac_num 1 (e - d) 0 * (frac_den e 0 * 2 ^ d))); [ring|]. rw S. ring. }
  pose proof (same_ratio _ _ t Hsame) as E. cbn [fp_f fp_e] in E. pose proof (pow10_gap (f * 2 ^ d) (e - d) t Hf Ht) as Hg. rw -frac_num_scale in Hg.
  pose proof (frac_den_pos e t) as P1. pose proof (frac_den_pos (e - d) t) as P2.
  set (n' := frac_num _ _ _) in E, Hg. set (d' := frac_den (e - d) t) in *. set (n := frac_num f e t) in *. set (dd := frac_den e t) in *.
  apply (Z.mul_le_mono_pos_r _ _ d' P2). rw -E. assert (d' ≤ n') as Hle.
  { apply Hg. apply (Z.mul_lt_mono_pos_r dd _ _ P1). assert ((2 ^ 62 - 1) * dd * d' < 2 ^ 62 * n * d') by (apply Z.mul_lt_mono_pos_r; lia). lia. }
  assert (d' * dd ≤ n' * dd) by (apply Z.mul_le_mono_nonneg_r; lia). lia.
Qed.

Record product_of (f e p s x y k : Z) : Prop := {
  pr_p : 2 ^ 62 ≤ p < 2 ^ 64; pr_s : 32 ≤ s ≤ 60; pr_y : 0 < y; pr_xy : Z.abs (p * y - x) < y; pr_k : - 348 ≤ k ≤ 340;
  pr_ratio : ∀ E, frac_num f e (E - k) * (2 ^ s * 10 ^ Z.max E 0 * y) = x * 10 ^ Z.max (- E) 0 * frac_den e (E - k);
  pr_gap : ∀ t, - 380 < t < 380 → (2 ^ 62 - 1) * frac_den e t < 2 ^ 62 * frac_num f e t → frac_den e t ≤ frac_num f e t;
}.

Lemma product_spec f e :
  0 < f < 2 ^ 53 → - 1074 ≤ e ≤ 971 →
  ∃ normalized c k p s x y, normalize (mk_fp f e) = Some normalized ∧ get_cached_power (- 60 - (fp_e normalized + 64)) = Some (c, k) ∧
    fp_mul normalized c = mk_fp p (- s) ∧ product_of f e p s x y k.
Proof.
  intros Hf He. destruct (normalize_spec f e Hf) as (d & f' & Hd & En & Ef & Hf').
  destruct (cached_product (2 ^ 11 * f') (e - d - 11)) as (c & k & Ec & Hk & Hs & Hp & Hxy); [lia|lia|].
  exists (mk_fp (2 ^ 11 * f') (e - d - 11)), c, k. eexists _, (- (e - d - 11 + fp_e c + 64)), _, (2 ^ 64 * frac_den (- fp_e c) (- k)).
  split; [done|]. split; [done|]. split; [rw /fp_mul; cbn [fp_f fp_e]; by rw Z.opp_involutive|].
  pose proof (frac_den_pos (- fp_e c) (- k)) as Pd. split; [done|lia|lia|exact Hxy|done| |].
  - intros E. pose proof (frac_shift (- fp_e c) (- k) (e + fp_e c) E) as S. replace (- fp_e c + (e + fp_e c)) with e in S by lia.
    replace (- k + E) with (E - k) in S by lia. set (s := - (e - d - 11 + fp_e c + 64)) in *.
    assert (frac_num 1 (e + fp_e c) E = 10 ^ Z.max (- E) 0) as E1 by (rw /frac_num; replace (Z.max (e + fp_e c) 0) with 0 by lia; ring).
    assert (frac_den (e + fp_e c) E * 2 ^ (d + 11) = 10 ^ Z.max E 0 * 2 ^ (s + 64)) as E2.
    { rw /frac_den. replace (Z.max (- (e + fp_e c)) 0) with (- (e + fp_e c)) by lia. rw -Z.mul_assoc -Z.pow_add_r; [lia..|]. do 2 f_equal. lia. }
    rw (Z.pow_add_r 2 d 11) in E2; [lia..|]. rw (Z.pow_add_r 2 s 64) in E2; [lia..|]. rw E1 in S. rw (frac_num_scale f) Ef.
    set (n := frac_num 1 (- fp_e c) (- k)) in *. set (dd := frac_den (- fp_e c) (- k)) in *. set (g := frac_den (e + fp_e c) E) in *.
    transitivity (f * frac_num 1 e (E - k) * dd * (10 ^ Z.max E 0 * (2 ^ s * 2 ^ 64))); [ring|]. rw -E2.
    transitivity (f * (2 ^ d * 2 ^ 11) * (frac_num 1 e (E - k) * (dd * g))); [ring|]. rw S. ring.
  - intros t. rw Ef in Hf'. apply (double_gap f e d t); lia.
Qed.

(** The decimal exponent follows from the number of digits before the point. *)
Lemma product_decimal f e p s x y k kappa :
  0 < f → product_of f e p s x y k → 1 ≤ kappa ≤ 10 → 10 ^ (kappa - 1) * 2 ^ s ≤ p < 10 ^ kappa * 2 ^ s →
  decimal_exponent (mk_fp f e) (kappa - 1 - k).
Proof.
  intros Hf [Hp Hs Hy Hxy Hk Hratio Hgap] Hka Hr. split; [done|]. split; [lia|]. cbn [fp_f fp_e].
  specialize (Hratio (kappa - 1)). replace (Z.max (kappa - 1) 0) with (kappa - 1) in Hratio by lia. replace (Z.max (- (kappa - 1)) 0) with 0 in Hratio by lia.
  rw Z.pow_0_r Z.mul_1_r (Z.mul_comm (2 ^ s)) in Hratio. specialize (Hgap (kappa - 1 - k)).
  assert (10 ^ kappa * 2 ^ s = 10 * (10 ^ (kappa - 1) * 2 ^ s)) as E10 by (replace kappa with (Z.succ (kappa - 1)) at 1 by lia; rw Z.pow_succ_r; [lia|]; ring).
  rw E10 in Hr. pose proof (frac_den_pos e (kappa - 1 - k)) as Pd. set (n := frac_num f e _) in *. set (d := frac_den e _) in *. set (w := 10 ^ (kappa - 1) * 2 ^ s) in *.
  assert (0 < w * y) as Pwy by nia. split.
  - destruct (Z.le_gt_cases (w * y) x) as [Hx|Hx].
    + apply (Z.mul_le_mono_pos_r _ _ (w * y) Pwy). rw Hratio. assert (w * y * d ≤ x * d) by (apply Z.mul_le_mono_nonneg_r; lia). lia.
    + assert (p = w) as Epw. { assert ((p - 1) * y < w * y) as H by lia. apply Z.mul_lt_mono_pos_r in H; lia. }
      apply Hgap; [lia|]. destruct (Z.le_gt_cases d n) as [|Hdn]; [lia|].
      assert (w * (d - n) < d) as Hw; [|assert (2 ^ 62 * (d - n) ≤ w * (d - n)) by (apply Z.mul_le_mono_nonneg_r; lia); lia].
      apply (Z.mul_lt_mono_pos_r y _ _ Hy). replace (w * (d - n) * y) with (w * y * d - n * (w * y)) by ring. rw Hratio.
      assert ((w * y - x) * d < y * d) by (apply Z.mul_lt_mono_pos_r; lia). lia.
  - apply (Z.mul_lt_mono_pos_r (w * y) _ _ Pwy). rw Hratio. assert ((p + 1) * y ≤ 10 * w * y) by (apply Z.mul_le_mono_nonneg_r; lia).
    assert (x * d < 10 * w * y * d) by (apply Z.mul_lt_mono_pos_r; lia). lia.
Qed.

(** ** [format_float] *)

Lemma double_spec u :
  0 < u < 2047 * 2 ^ 52 →
  let v := read_float false u in 0 < fp_f v < 2 ^ 53 ∧ - 1074 ≤ fp_e v ≤ 971.
Proof.
  intros Hu v. pose proof (read_float_bound false u) as Hb. fold v in Hb. rw /v /read_float assign_double_spec in Hb |- *; [lia..|].
  assert (double_biased u = u / 2 ^ 52) as Eb.
  { rw /double_biased Z.mod_small //. split; [apply Z.div_pos; lia|]. apply Z.div_lt_upper_bound; lia. }
  assert (u / 2 ^ 52 < 2047) as Hlt by (apply Z.div_lt_upper_bound; lia). assert (0 ≤ u / 2 ^ 52) by (apply Z.div_pos; lia).
  pose proof (Z.mod_pos_bound u (2 ^ 52)) as Hm. pose proof (Z.div_mod u (2 ^ 52)) as Hdm. rw /double_mantissa in Hb |- *.
  rw Eb in Hb |- *. destruct (Z.eqb_spec (u / 2 ^ 52) 0) as [E|E]; cbn [fst fp_f fp_e] in *; lia.
Qed.

Lemma done_printed v p s x y k kappa h h' exp :
  product_of (fp_f v) (fp_e v) p s x y k → h_exp10 h = - k → kappa ≤ 10 → outcome s x y kappa (started kappa h) digits_done h' exp →
  let E := kappa - wanted kappa h - k in
  printed (exact v E) E (h_buf h') (exp + h_exp10 h') ∧ (length (h_buf h') ≤ 30)%nat ∧
  (h_fixed h = false → Z.of_nat (length (h_buf h')) = wanted kappa h).
Proof.
  intros Hp Hk Hka (h1 & (C1 & C2 & C3) & Hsz & Hexp & Hle & Hb & Hge & Hf1 & Hlen & Heq & Hr). cbn zeta.
  cbn [started h_precision h_exp10] in C1, C2. assert (exp = kappa - wanted kappa h) as -> by lia.
  assert (round_half_even (x * 10 ^ Z.max (- (kappa - wanted kappa h)) 0) (2 ^ s * 10 ^ Z.max (kappa - wanted kappa h) 0 * y) = exact v (kappa - wanted kappa h - k)) as E.
  { symmetry. apply round_ratio; [apply frac_den_pos| |apply Hp].
    apply Z.mul_pos_pos; [apply Z.mul_pos_pos; apply Z.pow_pos_nonneg; destruct Hp; lia|apply Hp]. }
  rw E in Hr. rw /h_size in Hsz. split; [|split; [lia|]].
  - split; [done|]. assert (h_buf h' ≠ []) as Hne by (intros En; rw En /= in Hlen; lia).
    destruct Hr as [[-> ?]|[-> ?]]; [left|right; left]; (split; [done|]; split; [lia|done]).
  - intros Hfx. cbn [started h_fixed] in C3. rw Heq; [congruence|]. lia.
Qed.

Lemma exact_zero v t E : decimal_exponent v t → t + 2 ≤ E → exact v E = 0.
Proof.
  intros (Hf & _ & Hr) HE. apply round_unique; [apply frac_den_pos|]. pose proof (frac_shift (fp_e v) t 0 (E - t)) as S.
  rw Z.add_0_r in S. replace (t + (E - t)) with E in S by lia.
  assert (frac_num 1 0 (E - t) = 1) as E1 by (rw /frac_num; by replace (Z.max (- (E - t)) 0) with 0 by lia).
  assert (frac_den 0 (E - t) = 10 ^ (E - t)) as E2 by (rw /frac_den; replace (Z.max (E - t) 0) with (E - t) by lia; change (Z.max (- 0) 0) with 0; ring).
  assert (10 ^ 2 ≤ 10 ^ (E - t)) as Hpow by (apply Z.pow_le_mono_r; lia). rw E1 E2 Z.mul_1_r in S.
  pose proof (frac_den_pos (fp_e v) t) as P1. pose proof (frac_den_pos (fp_e v) E) as P2. pose proof (frac_num_pos (fp_f v) (fp_e v) E Hf) as P3.
  rw (frac_num_scale _ _ E) (frac_num_scale _ _ t) in Hr, P3 |- *.
  set (n := frac_num 1 (fp_e v) t) in *. set (m := frac_num 1 (fp_e v) E) in *. set (d := frac_den (fp_e v) t) in *. set (g := frac_den (fp_e v) E) in *.
  assert (fp_f v * m * (d * 10 ^ (E - t)) = fp_f v * n * g) as S' by (transitivity (fp_f v * (m * (d * 10 ^ (E - t)))); [ring|]; rw S; ring).
  set (a := fp_f v * m) in *. set (b := fp_f v * n) in *. assert (10 * a < g); [|lia]. apply (Z.mul_lt_mono_pos_r (10 * d)); [lia|].
  assert (a * d * 100 ≤ a * d * 10 ^ (E - t)) by (apply Z.mul_le_mono_nonneg_l; [|lia]; apply Z.mul_nonneg_nonneg; lia).
  assert (b * g < 10 * d * g) by (apply Z.mul_lt_mono_pos_r; lia). lia.
Qed.

Lemma fallback_printed v u binary32 P t :
  same_number v (read_float binary32 u) → decimal_exponent v t → 0 ≤ P →
  ∃ buf exp, fallback_format u P binary32 t = Some (buf, exp) ∧ printed (exact v (t + 1 - P)) (t + 1 - P) buf exp ∧
    (0 < P → Z.of_nat (length buf) = P).
Proof.
  intros Hsame Ht HP. pose proof (decimal_same _ _ _ Hsame Ht) as Ht'. destruct (Z.eq_dec P 0) as [->|Hn].
  - destruct (fallback_format_none binary32 u t Ht') as (c & E & Hc & Hd). do 2 eexists. split; [exact E|]. rw Z.sub_0_r.
    split; [|lia]. split; [by constructor; [|constructor]|]. left. split; [done|]. split; [done|]. by rw Hd -exact_next (exact_same v).
  - destruct (fallback_format_rounds binary32 u P t Ht') as (buf & exp & E & Hl & Hd & _ & Hr); [lia|]. exists buf, exp. split; [done|]. split; [|lia]. split; [done|].
    assert (buf ≠ []) by (by destruct buf). rw -exact_shift (exact_same v) // in Hr. replace (t - Z.of_nat (Z.to_nat (P - 1))) with (t + 1 - P) in Hr by lia.
    destruct Hr as [[-> ?]|[-> ?]]; [by left|]. right. by left.
Qed.

(** The place of the last digit: a precision counts digits after the point in the fixed format
    and significant digits in the others. *)
Definition last_place (specs : float_specs) (precision t : Z) : Z :=
  let precision := Z.min precision 767 in
  if fs_fixed specs then - precision else t + 1 - precision.

Lemma format_precision_spec u u32 precision specs :
  let v := read_float false u in
  0 < u < 2047 * 2 ^ 52 → 0 ≤ precision → (fs_fixed specs = false → 1 ≤ precision) →
  (fs_binary32 specs = true → same_number v (read_float true u32)) →
  ∃ t buf exp, decimal_exponent v t ∧ format_precision u u32 precision specs = Some (buf, exp) ∧
    printed (exact v (last_place specs precision t)) (last_place specs precision t) buf exp ∧
    - 400 < t < 400 ∧ (fs_fixed specs = false → Z.of_nat (length buf) = Z.min precision 767).
Proof.
  intros v Hu Hpr Hnf H32. destruct (double_spec u Hu) as [Hf He]. fold v in Hf, He.
  assert (same_number v (read_float (fs_binary32 specs) (if fs_binary32 specs then u32 else u))) as Hsame by (destruct (fs_binary32 specs); [by apply H32|done]).
  destruct (product_spec (fp_f v) (fp_e v) Hf He) as (nm & c & k & p & s & x & y & En & Ec & Em & Hprod).
  rw /format_precision. replace (mk_fp (fp_f v) (fp_e v)) with v in En by (by destruct v). change (fst (assign_double u)) with v. rw En Ec Em.
  replace (if 767 <? precision then 767 else precision) with (Z.min precision 767) by (destruct (Z.ltb_spec 767 precision); lia).
  set (h := mk_handler [] (Z.min precision 767) (- k) (fs_fixed specs)).
  destruct (gen_digits_spec p s x y (pr_p _ _ _ _ _ _ _ Hprod) (pr_s _ _ _ _ _ _ _ Hprod) (pr_y _ _ _ _ _ _ _ Hprod) (pr_xy _ _ _ _ _ _ _ Hprod) h) as (kappa & res & h' & exp & -> & Hka & Hr & Hout); [done|intros A; specialize (Hnf A); cbn; lia|].
  pose proof (product_decimal _ _ _ _ _ _ _ _ (proj1 Hf) Hprod Hka Hr) as Ht. replace (mk_fp (fp_f v) (fp_e v)) with v in Ht by (by destruct v).
  assert (last_place specs precision (kappa - 1 - k) = kappa - wanted kappa h - k) as Hlast.
  { rw /last_place /wanted. cbn [h h_fixed h_precision h_exp10]. destruct (fs_fixed specs); lia. }
  assert (- 400 < kappa - 1 - k < 400) as Hrange by (pose proof (pr_k _ _ _ _ _ _ _ Hprod); lia).
  assert (fs_fixed specs = false → wanted kappa h = Z.min precision 767) as Hwp by (intros A; by rw /wanted /= A).
  exists (kappa - 1 - k). rw Hlast. destruct Hout as [[Hout Hnm]|Hst].
  - destruct res; [done| |].
    + destruct (done_printed v p s x y k kappa h h' exp) as (Hpd & _ & Hl); [done|done|lia|done|]. do 2 eexists. split; [done|]. split; [done|]. split; [exact Hpd|].
      split; [done|]. intros A. by rw (Hl A) (Hwp A).
    + destruct Hout as (h1 & (C1 & C2 & C3) & Hsz & _ & Hle & _ & ->). cbn [started h_precision] in C1. rw C1 Hsz.
      replace (exp + (kappa - exp - k - 1)) with (kappa - 1 - k) by lia.
      destruct (fallback_printed v (if fs_binary32 specs then u32 else u) (fs_binary32 specs) (wanted kappa h) (kappa - 1 - k) Hsame Ht) as (buf & e' & E & Hpd & Hl).
      { rw /h_size in Hsz, Hle. lia. }
      exists buf, e'. split; [done|]. split; [done|]. split; [by replace (kappa - 1 - k + 1 - wanted kappa h) with (kappa - wanted kappa h - k) in Hpd by lia|].
      split; [done|]. intros A. specialize (Hnf A). rw Hl; rw (Hwp A); lia.
  - assert (fs_fixed specs = false → False) as Hno by (destruct Hst as (Hfx & _); cbn in Hfx; congruence).
    destruct Hst as (Hfx & -> & [(Hw & -> & ->)|(Hw & [(-> & ->)|(-> & d & -> & Hd & Hdv)])]).
    + do 2 eexists. split; [done|]. split; [done|]. split; [|split; [done|intros A; by destruct (Hno A)]].
      split; [constructor|]. right. right. split; [done|]. split; [cbn; lia|]. apply (exact_zero v (kappa - 1 - k)); [done|lia].
    + destruct (fallback_printed v (if fs_binary32 specs then u32 else u) (fs_binary32 specs) 0 (kappa - 1 - k) Hsame Ht) as (buf & e' & E & Hpd & _); [done|].
      exists buf, e'. split; [done|]. cbn [started h_precision h_size h_buf h length]. rw Hw. change (h_size (started kappa h)) with 0.
      replace (kappa + (0 - k - 1)) with (kappa - 1 - k) by lia. split; [done|].
      split; [by replace (kappa - 1 - k + 1 - 0) with (kappa - 0 - k) in Hpd by lia|]. split; [done|]. intros A. by destruct (Hno A).
    + do 2 eexists. split; [done|]. split; [done|]. rw Hw. replace (kappa - 0 - k) with (kappa - k) by lia.
      split; [|split; [done|intros A; by destruct (Hno A)]]. split; [by constructor; [|constructor]|]. left. split; [done|]. split; [cbn; lia|].
      cbn [push h_buf started h app]. rw Hdv. symmetry. apply round_ratio; [apply frac_den_pos|..].
      { pose proof (pr_y _ _ _ _ _ _ _ Hprod). pose proof (pr_s _ _ _ _ _ _ _ Hprod). apply Z.mul_pos_pos; [|done]. apply Z.mul_pos_pos; apply Z.pow_pos_nonneg; lia. }
      pose proof (pr_ratio _ _ _ _ _ _ _ Hprod kappa) as R. replace (Z.max kappa 0) with kappa in R by lia. replace (Z.max (- kappa) 0) with 0 in R by lia.
      rw (Z.mul_comm (10 ^ kappa)). rw R. ring.
Qed.

(** Trailing zeros are moved to the exponent. *)
Lemma strip_zeros_spec fuel buf exp :
  Forall is_digit buf →
  let '(buf', exp') := strip_zeros fuel buf exp in
  Forall is_digit buf' ∧ exp ≤ exp' ∧ exp' + Z.of_nat (length buf') = exp + Z.of_nat (length buf) ∧ dec buf = dec buf' * 10 ^ (exp' - exp).
Proof.
  revert buf exp. induction fuel as [|fuel IH]; intros buf exp Hb; cbn [strip_zeros].
  { split; [done|]. split; [lia|]. split; [done|]. rw Z.sub_diag. lia. }
  destruct ((0 <? Z.of_nat (length buf)) && (nth (length buf - 1) buf 0 =? char0)) eqn:E;
    [|split; [done|]; split; [lia|]; split; [done|]; rw Z.sub_diag; lia].
  apply andb_true_iff in E as [H0%Z.ltb_lt Hc%Z.eqb_eq]. destruct buf as [|c buf _] using rev_ind; [cbn in H0; lia|].
  rw length_app Nat.add_sub nth_middle in Hc. subst c. rw length_app Nat.add_sub take_app_length. apply Forall_app in Hb as [Hb _].
  specialize (IH buf (exp + 1) Hb). destruct (strip_zeros fuel buf (exp + 1)) as [buf' exp']. destruct IH as (Hb' & Hle & Hl & Hd).
  split; [done|]. split; [lia|]. split; [cbn; lia|]. rw dec_app dec_one Hd. change (10 ^ Z.of_nat (length [char0])) with (10 ^ 1).
  rw -Z.mul_assoc -Z.pow_add_r; [lia..|]. replace (exp' - (exp + 1) + 1) with (exp' - exp) by lia. lia.
Qed.

Lemma exact_pos v t E : decimal_exponent v t → E ≤ t → 0 < exact v E.
Proof.
  intros (Hf & _ & Hr) HE. replace E with (t - Z.of_nat (Z.to_nat (t - E))) by lia. rw exact_shift.
  assert (1 ≤ 10 ^ Z.of_nat (Z.to_nat (t - E))) by (apply Z.pow_le_mono_r with (b := 0); lia).
  enough (1 ≤ round_half_even (frac_num (fp_f v) (fp_e v) t * 10 ^ Z.of_nat (Z.to_nat (t - E))) (frac_den (fp_e v) t)) by lia.
  apply round_ge; [apply frac_den_pos|]. pose proof (frac_den_pos (fp_e v) t). nia.
Qed.

Lemma format_float_spec u u32 precision specs :
  let v := read_float false u in
  0 < u < 2047 * 2 ^ 52 → 0 ≤ precision → (fs_fixed specs = false → 1 ≤ precision) →
  (fs_binary32 specs = true → same_number v (read_float true u32)) →
  ∃ t buf exp, decimal_exponent v t ∧ format_float u u32 precision specs = Some (buf, exp) ∧ Forall is_digit buf ∧
    let place := last_place specs precision t in
    (buf ≠ [] ∧ place ≤ exp ∧ dec buf * 10 ^ (exp - place) = exact v place ∨ buf = [] ∧ exp < place ∧ exact v place = 0) ∧
    - 400 < t < 400 ∧ (fs_fixed specs = false → t ≤ exp + Z.of_nat (length buf) - 1 ≤ t + 1).
Proof.
  intros v Hu Hpr Hnf H32. destruct (format_precision_spec u u32 precision specs Hu Hpr Hnf H32) as (t & buf & exp & Ht & E & [Hd Hp] & Hrange & Hl).
  fold v in Ht, Hp. rw /format_float E. destruct (Z.eqb_spec u 0); [lia|]. set (place := last_place specs precision t) in *.
  assert (fs_fixed specs = false → place = t + 1 - Z.min precision 767) as Hplace by (rw /place /last_place; by intros ->).
  assert (buf ≠ [] ∧ place ≤ exp ≤ place + 1 ∧ dec buf * 10 ^ (exp - place) = exact v place ∨ buf = [] ∧ exp < place ∧ exact v place = 0) as Hv.
  { destruct Hp as [(? & -> & ?)|[(? & -> & ?)|?]]; [left..|by right]; (split; [done|]; split; [lia|]).
    - by rw Z.sub_diag Z.mul_1_r. - replace (place + 1 - place) with 1 by lia. lia. }
  assert (fs_fixed specs = false → 0 < exact v place) as Hpos.
  { intros A. apply (exact_pos v t); [done|]. rw (Hplace A). specialize (Hnf A). lia. }
  assert (fs_fixed specs = false → t ≤ exp + Z.of_nat (length buf) - 1 ≤ t + 1) as Hsize.
  { intros A. rw (Hl A). specialize (Hplace A). specialize (Hpos A). destruct Hv as [(_ & ? & _)|(_ & _ & ?)]; lia. }
  exists t. destruct (negb (fs_fixed specs) && negb (fs_showpoint specs)) eqn:Eb.
  - apply andb_true_iff in Eb as [Eb%negb_true_iff _]. specialize (Hpos Eb). destruct Hv as [(Hne & Hle & Hv)|(_ & _ & ?)]; [|lia].
    pose proof (strip_zeros_spec (length buf) buf exp Hd) as Hs. destruct (strip_zeros (length buf) buf exp) as [buf' exp'].
    destruct Hs as (Hd' & Hle' & Hl' & Hdec). exists buf', exp'. split; [done|]. split; [done|]. split; [done|]. cbn zeta.
    assert (dec buf' * 10 ^ (exp' - place) = exact v place) as Hv'.
    { rw -Hv Hdec -Z.mul_assoc -Z.pow_add_r; [lia..|]. do 2 f_equal. lia. }
    split; [|split; [done|intros A; specialize (Hsize A); lia]]. left. split; [|split; [lia|done]]. intros ->. cbn in Hv'. lia.
  - exists buf, exp. split; [done|]. split; [done|]. split; [done|]. split; [|done]. destruct Hv as [(? & ? & ?)|?]; [left|by right]. split; [done|]. split; [lia|done].
Qed.

(** The digits of a positive double or float with a given precision are those of the exact
    number, rounded to the place of the last digit to the nearest, and in the middle to an even
    digit: whether the fast algorithm decides or the exact one, no result is lost and none is
    wrong. *)
Theorem format_float_exact u u32 precision specs :
  let v := read_float false u in
  0 < u < 2047 * 2 ^ 52 → 0 ≤ precision → (fs_fixed specs = false → 1 ≤ precision) →
  (fs_binary32 specs = true → same_number v (read_float true u32)) →
  ∃ t buf exp, decimal_exponent v t ∧ format_float u u32 precision specs = Some (buf, exp) ∧ Forall is_digit buf ∧
    let place := last_place specs precision t in
    (place ≤ exp ∧ dec buf * 10 ^ (exp - place) = exact v place ∨ buf = [] ∧ exact v place = 0).
Proof.
  intros v Hu Hpr Hnf H32. destruct (format_float_spec u u32 precision specs Hu Hpr Hnf H32) as (t & buf & exp & Ht & E & Hd & Hp & _).
  exists t, buf, exp. split; [done|]. split; [done|]. split; [done|]. cbn zeta. destruct Hp as [(_ & Hp)|(? & _ & ?)]; [by left|by right].
Qed.

(** Two and a half with one digit, that only the exact algorithm can round, is two. *)
Lemma format_float_exact_witness :
  format_float 0x4004000000000000 0 1 (mk_float_specs false false false) = Some ([50], 0) ∧
  ∃ t buf exp, decimal_exponent (read_float false 0x4004000000000000) t ∧
    format_float 0x4004000000000000 0 1 (mk_float_specs false false false) = Some (buf, exp) ∧ Forall is_digit buf ∧
    let place := last_place (mk_float_specs false false false) 1 t in
    (place ≤ exp ∧ dec buf * 10 ^ (exp - place) = exact (read_float false 0x4004000000000000) place ∨
     buf = [] ∧ exact (read_float false 0x4004000000000000) place = 0).
Proof.
  split; [by vm_compute|].
  apply (format_float_exact 0x4004000000000000 0 1 (mk_float_specs false false false)); [done|done|done|intros [=]].
Defined.

(** The fast algorithm writes at most thirty characters, so the buffer of 500 holds them. *)
Theorem grisu_size v p s x y k h :
  0 < fp_f v → product_of (fp_f v) (fp_e v) p s x y k → h_buf h = [] → h_exp10 h = - k → (h_fixed h = false → 1 ≤ h_precision h) →
  ∃ res h' exp, grisu_gen_digits (mk_fp p (- s)) 1 h = Some (res, h', exp) ∧ (length (h_buf h') ≤ 30)%nat.
Proof.
  intros Hf Hprod Hb Hk Hpr.
  destruct (gen_digits_spec p s x y (pr_p _ _ _ _ _ _ _ Hprod) (pr_s _ _ _ _ _ _ _ Hprod) (pr_y _ _ _ _ _ _ _ Hprod) (pr_xy _ _ _ _ _ _ _ Hprod) h Hb Hpr)
    as (kappa & res & h' & exp & E & Hka & Hr & Hout).
  exists res, h', exp. split; [done|]. destruct Hout as [[Hout Hnm]|(_ & _ & [(_ & _ & ->)|(_ & [(_ & ->)|(_ & c & -> & _)])])];
    [|rw /= Hb /=; lia..]. destruct res; [done| |].
  - destruct (done_printed v p s x y k kappa h h' exp) as (_ & Hl & _); [done|done|lia|done|done].
  - destruct Hout as (h1 & _ & Hsz & Hexp & _ & _ & ->). rw /h_size in Hsz. lia.
Qed.

(** ** Limits *)

(** The limit of 767 digits is one of significant digits, but in the fixed format a precision
    counts digits after the point: those of a small number after that place are not given. *)
Theorem precision_capped u u32 precision specs :
  0 < u → 767 ≤ precision → format_float u u32 precision specs = format_float u u32 767 specs.
Proof.
  intros Hu Hp. rw /format_float /format_precision. destruct (Z.eqb_spec u 0); [lia|].
  replace (if 767 <? precision then 767 else precision) with 767; [done|]. destruct (Z.ltb_spec 767 precision); lia.
Qed.

(** A precision of zero asks the fast algorithm for one digit, and the exact one for none: 7.4
    gives 7, but 7.5 gives 10, and 2.5 nothing. *)
Theorem general_precision_zero :
  let specs := mk_float_specs false false false in
  format_float 0x401D99999999999A 0 0 specs = Some ([55], 0) ∧
  format_float 0x401E000000000000 0 0 specs = Some ([49], 1) ∧
  format_float 0x4004000000000000 0 0 specs = Some ([], 2).
Proof. by vm_compute. Qed.
