(* ===== verification/FmtFloat.v ===== *)
(** Floating-point numbers as text in fmt: [parse_float_type_spec], [write_exponent],
    [write_float], [write_nonfinite] and [write] of extern/fmt/include/fmt/format.h, for doubles
    and for floats, which are promoted. The digits for a given precision are those of
    [FmtGrisu]; the shortest ones, the hexadecimal format and the decimal point of the locale
    are parameters. Characters are their codes. *)

From Stdlib Require Import ssreflect.
From stdpp Require Import list.
From S2P Require Import Prelude Errors FmtInt Fmt FmtSpecs FmtBigint FmtDragon FmtCached FmtGrisu.

Open Scope general_if_scope.
Open Scope Z_scope.

(** ** Specifiers *)

Inductive float_format := ff_general | ff_exp | ff_fixed | ff_hex.
Record fspecs := mk_fspecs {
  f_prec : Z; f_format : float_format; f_sgn : sign_t; f_upper : bool; f_locale : bool; f_showpoint : bool;
}.

Definition parse_float_type_spec (p : specs) : result fspecs :=
  let t := byte_to_Z (type_ p) in
  let make format upper locale showpoint := Ok (mk_fspecs 0 format sign_none upper locale (alt p || showpoint)) in
  if t =? 0 then make ff_general false false (0 <? precision p)
  else if (t =? 71) || (t =? 103) then make ff_general (t =? 71) false false
  else if (t =? 69) || (t =? 101) then make ff_exp (t =? 69) false (negb (precision p =? 0))
  else if (t =? 70) || (t =? 102) then make ff_fixed (t =? 70) false (negb (precision p =? 0))
  else if (t =? 65) || (t =? 97) then make ff_hex (t =? 65) false false
  else if t =? 76 then make ff_general false true false
  else format_error "invalid type specifier".

(** ** Layout *)

Definition sign_text (s : sign_t) : list Z :=
  match s with sign_none => [] | sign_minus => [45] | sign_plus => [43] | sign_space => [32] end.
Definition zeros (n : Z) : list Z := replicate (Z.to_nat n) char0.
Definition point_text (point : option Z) : list Z := match point with Some c => [c] | None => [] end.

Definition digits2 (n : Z) : option (list Z) := map byte_to_Z <$> digit_pair n.

Definition write_exponent (exp : Z) : option (list Z) :=
  if (exp <=? - 10000) || (10000 <=? exp) then None
  else
    let '(s, exp) := if exp <? 0 then (45, - exp) else (43, exp) in
    match digits2 (exp / 100), digits2 (if 100 <=? exp then exp mod 100 else exp) with
    | Some top, Some d =>
        Some ([s] ++ (if 100 <=? exp then (if 1000 <=? exp then take 1 top else []) ++ drop 1 top else []) ++ d)
    | _, _ => None
    end.

(** [write_significand] with a point. *)
Definition write_significand (sig : list Z) (integral_size : nat) (point : option Z) : option (list Z) :=
  if (length sig <? integral_size)%nat then None
  else
    match point with
    | None => Some (take integral_size sig)
    | Some c => Some (take integral_size sig ++ [c] ++ drop integral_size sig)
    end.

Definition use_exp_format (fs : fspecs) (output_exp : Z) : bool :=
  match f_format fs with
  | ff_exp => true
  | ff_general => (output_exp <? - 4) || ((if 0 <? f_prec fs then f_prec fs else 16) <=? output_exp)
  | _ => false
  end.

(** [write_float]: the size that is reserved and padded, and the characters. *)
Definition layout_exp (sig : list Z) (output_exp : Z) (fs : fspecs) (point : Z) : option (Z * list Z) :=
  let sig_size := Z.of_nat (length sig) in
  let size := sig_size + Z.of_nat (length (sign_text (f_sgn fs))) in
  let num_zeros := if f_showpoint fs then Z.max (f_prec fs - sig_size) 0 else 0 in
  let point := if f_showpoint fs then Some point else if sig_size =? 1 then None else Some point in
  let abs_exp := if 0 <=? output_exp then output_exp else - output_exp in
  let exp_digits := if 100 <=? abs_exp then if 1000 <=? abs_exp then 4 else 3 else 2 in
  let size := size + num_zeros + (Z.of_nat (length (point_text point)) + 2 + exp_digits) in
  match write_significand sig 1 point, write_exponent output_exp with
  | Some s, Some e => Some (size, sign_text (f_sgn fs) ++ s ++ zeros num_zeros ++ [if f_upper fs then 69 else 101] ++ e)
  | _, _ => None
  end.

Definition layout_fixed (sig : list Z) (exponent : Z) (fs : fspecs) (point : Z) : option (Z * list Z) :=
  let sig_size := Z.of_nat (length sig) in
  let size := sig_size + Z.of_nat (length (sign_text (f_sgn fs))) in
  let exp := exponent + sig_size in
  if 0 <=? exponent then
    let num_zeros := f_prec fs - exp in
    let num_zeros := if f_showpoint fs && (num_zeros <=? 0) && match f_format fs with ff_fixed => false | _ => true end then 1 else num_zeros in
    let size := size + exponent + (if f_showpoint fs then Z.max num_zeros 0 else 0) in
    Some (size, sign_text (f_sgn fs) ++ sig ++ zeros exponent ++ (if f_showpoint fs then [point] ++ zeros num_zeros else []))
  else if 0 <? exp then
    let num_zeros := if f_showpoint fs then f_prec fs - sig_size else 0 in
    match write_significand sig (Z.to_nat exp) (Some point) with
    | Some s => Some (size + (1 + (if 0 <? num_zeros then num_zeros else 0)), sign_text (f_sgn fs) ++ s ++ zeros num_zeros)
    | None => None
    end
  else
    let num_zeros := - exp in
    let num_zeros := if (sig_size =? 0) && (0 <=? f_prec fs) && (f_prec fs <? num_zeros) then f_prec fs else num_zeros in
    let size := size + (2 + num_zeros) in
    let rest := if (num_zeros =? 0) && (sig_size =? 0) && negb (f_showpoint fs) then [] else [point] ++ zeros num_zeros ++ sig in
    Some (size, sign_text (f_sgn fs) ++ [char0] ++ rest).

Definition float_layout (sig : list Z) (exponent : Z) (fs : fspecs) (point : Z) : option (Z * list Z) :=
  let output_exp := exponent + Z.of_nat (length sig) - 1 in
  if use_exp_format fs output_exp then layout_exp sig output_exp fs point else layout_fixed sig exponent fs point.

Definition write_float (p : specs) (sig : list Z) (exponent : Z) (fs : fspecs) (point : Z) : option text :=
  match float_layout sig exponent fs point with
  | Some (size, chars) => Some (write_padded true p size (map Z_to_byte chars))
  | None => None
  end.

(** ** [write] *)

(** A number that is not finite. *)
Definition nonfinite_text (isinf upper : bool) : list Z :=
  map byte_to_Z (String.list_byte_of_string (if isinf then if upper then "INF" else "inf" else if upper then "NAN" else "nan")).
Definition write_nonfinite (isinf : bool) (p : specs) (fs : fspecs) : text :=
  let chars := sign_text (f_sgn fs) ++ nonfinite_text isinf (f_upper fs) in
  write_padded false p (Z.of_nat (length chars)) (map Z_to_byte chars).

Definition set_sgn (fs : fspecs) (s : sign_t) : fspecs :=
  mk_fspecs (f_prec fs) (f_format fs) s (f_upper fs) (f_locale fs) (f_showpoint fs).
Definition set_prec (fs : fspecs) (n : Z) : fspecs :=
  mk_fspecs n (f_format fs) (f_sgn fs) (f_upper fs) (f_locale fs) (f_showpoint fs).
Definition grisu_specs (fs : fspecs) (binary32 : bool) : float_specs :=
  mk_float_specs (match f_format fs with ff_fixed => true | _ => false end) (f_showpoint fs) binary32.

Section write.
(** The shortest digits of a double, or of a float, with their exponent; the hexadecimal format
    of [snprintf]; and the decimal point of the locale. *)
Context (shortest : bool → Z → list Z * Z) (hexfloat : Z → fspecs → Z → list Z) (decimal_point : Z).

(** The precision of the digits: [None] is a number that is too big. *)
Definition digits_precision (p : specs) (fs : fspecs) : option Z :=
  let n := if (0 <=? precision p) || (byte_to_Z (type_ p) =? 0) then precision p else 6 in
  match f_format fs with
  | ff_exp => if n =? max_int then None else Some (n + 1)
  | _ => Some n
  end.

Definition write_digits (p : specs) (fs : fspecs) (binary32 : bool) (u u32 : Z) : option (result text) :=
  match digits_precision p fs with
  | None => Some (format_error "number is too big")
  | Some n =>
      let digits :=
        if n <? 0 then Some (if u =? 0 then ([char0], 0) else shortest binary32 (if binary32 then u32 else u))
        else format_float u u32 n (grisu_specs fs binary32) in
      match digits with
      | None => None
      | Some (sig, exp) =>
          match write_float p sig exp (set_prec fs n) (if f_locale fs then decimal_point else 46) with
          | None => None
          | Some t => Some (Ok t)
          end
      end
  end.

(** [write] of a double with the bits [u]; a float is promoted and has its own bits [u32] too.
    An assertion that fails is [None]. *)
Definition write (p : specs) (binary32 : bool) (u u32 : Z) : option (result text) :=
  match parse_float_type_spec p with
  | Throw e => Some (Throw e)
  | Ok fs =>
      let negative := Z.testbit u 63 in
      let magnitude := u mod 2 ^ 63 in
      let fs := set_sgn fs (if negative then sign_minus else match sign p with sign_minus => sign_none | s => s end) in
      if double_biased magnitude =? 2047 then Some (Ok (write_nonfinite (double_mantissa magnitude =? 0) p fs))
      else
        let numeric := match FmtSpecs.align p, f_sgn fs with align_numeric, sign_none => false | align_numeric, _ => true | _, _ => false end in
        let prefix := if numeric then map Z_to_byte (sign_text (f_sgn fs)) else [] in
        let fs := if numeric then set_sgn fs sign_none else fs in
        let p := if numeric && negb (width_ p =? 0) then set_width p (width_ p - 1) else p in
        match f_format fs with
        | ff_hex =>
            let chars := sign_text (f_sgn fs) ++ hexfloat magnitude fs (precision p) in
            Some (Ok (prefix ++ write_padded false p (Z.of_nat (length chars)) (map Z_to_byte chars)))
        | _ =>
            match write_digits p fs binary32 magnitude (u32 mod 2 ^ 31) with
            | Some (Ok t) => Some (Ok (prefix ++ t))
            | r => r
            end
        end
  end.

(** Without specifiers: the shortest digits in the general format. *)
Definition write_default (binary32 : bool) (u u32 : Z) : option text :=
  let fs := mk_fspecs 0 ff_general (if Z.testbit u 63 then sign_minus else sign_none) false false false in
  let magnitude := u mod 2 ^ 63 in
  if double_biased magnitude =? 2047 then Some (write_nonfinite (double_mantissa magnitude =? 0) default_specs fs)
  else
    let '(sig, exp) := shortest binary32 (if binary32 then u32 mod 2 ^ 31 else magnitude) in
    write_float default_specs sig exp fs 46.

End write.

(** ** Reading a number back *)

Definition digitb (c : Z) : bool := (char0 <=? c) && (c <=? char0 + 9).
Fixpoint span_digits (l : list Z) : list Z * list Z :=
  match l with
  | [] => ([], [])
  | c :: l' => if digitb c then let '(d, r) := span_digits l' in (c :: d, r) else ([], l)
  end.

Definition read_sign (l : list Z) : bool * list Z :=
  match l with
  | 45 :: l => (true, l)
  | 43 :: l | 32 :: l => (false, l)
  | _ => (false, l)
  end.
Definition read_exponent (l : list Z) : option Z :=
  let '(neg, l) := read_sign l in
  match span_digits l with
  | (c :: d, []) => Some (if neg then - dec (c :: d) else dec (c :: d))
  | _ => None
  end.

(** [M * 10 ^ E] with its sign: digits, a fraction after a point and an exponent. *)
Definition read_decimal (l : list Z) : option (bool * Z * Z) :=
  let '(neg, l) := read_sign l in
  let '(whole, l) := span_digits l in
  let '(fraction, l) := match l with 46 :: l => span_digits l | _ => ([], l) end in
  let e := match l with [] => Some 0 | 69 :: l | 101 :: l => read_exponent l | _ => None end in
  match whole, e with
  | _ :: _, Some e => Some (neg, dec (whole ++ fraction), e - Z.of_nat (length fraction))
  | _, _ => None
  end.

Lemma digitb_spec c : digitb c = true ↔ is_digit c.
Proof. rw /digitb /is_digit andb_true_iff !Z.leb_le. done. Qed.

Lemma span_digits_app d r :
  Forall is_digit d → (∀ c, head r = Some c → ¬ is_digit c) → span_digits (d ++ r) = (d, r).
Proof.
  intros Hd Hr. induction Hd as [|c d Hc _ IH].
  - destruct r as [|c r]; [done|]. cbn. destruct (digitb c) eqn:E; [|done]. apply digitb_spec in E. by destruct (Hr c).
  - cbn [app span_digits]. apply digitb_spec in Hc. by rw Hc IH.
Qed.

Lemma span_digits_all d : Forall is_digit d → span_digits d = (d, []).
Proof. intros Hd. rw -{1}(app_nil_r d). by apply span_digits_app. Qed.

Lemma digits2_all : forallb (λ n, bool_decide (digits2 n = Some [char0 + n / 10; char0 + n mod 10])) (interval 0 100) = true.
Proof. by vm_compute. Qed.
Lemma digits2_spec n : 0 ≤ n < 100 → digits2 n = Some [char0 + n / 10; char0 + n mod 10] ∧ is_digit (char0 + n / 10) ∧ is_digit (char0 + n mod 10).
Proof.
  intros Hn. pose proof digits2_all as H. rw forallb_forall in H. specialize (H n (interval_elem 0 100 n Hn)). apply bool_decide_eq_true in H.
  split; [done|]. rw /is_digit. pose proof (Z.mod_pos_bound n 10). pose proof (Z.div_pos n 10). assert (n / 10 < 10) by (apply Z.div_lt_upper_bound; lia). lia.
Qed.

Lemma read_exponent_spec e l :
  Forall is_digit l → l ≠ [] → dec l = Z.abs e → read_exponent ((if e <? 0 then 45 else 43) :: l) = Some e.
Proof.
  intros Hl Hne Hd. rw /read_exponent. destruct (Z.ltb_spec e 0); cbn [read_sign]; rw span_digits_all //; destruct l; [done| |done|]; f_equal; lia.
Qed.

(** Every exponent is read back, and has the size that is reserved. *)
Lemma write_exponent_spec e :
  - 10000 < e < 10000 →
  ∃ l, write_exponent e = Some l ∧ read_exponent l = Some e ∧
    Z.of_nat (length l) = 1 + (if 100 <=? Z.abs e then if 1000 <=? Z.abs e then 4 else 3 else 2).
Proof.
  intros He. rw /write_exponent. destruct (Z.leb_spec e (- 10000)); [lia|]. destruct (Z.leb_spec 10000 e); [lia|]. cbn [orb].
  assert ((if e <? 0 then (45, - e) else (43, e)) = (if e <? 0 then 45 else 43, Z.abs e)) as -> by (destruct (Z.ltb_spec e 0); f_equal; lia).
  assert (0 ≤ Z.abs e < 10000) as Ha by lia. pose proof (read_exponent_spec e) as Hread. set (a := Z.abs e) in *. set (c := if e <? 0 then 45 else 43) in *. clearbody a c.
  pose proof (Z.div_mod a 100) as D1. pose proof (Z.mod_pos_bound a 100) as M1. assert (0 ≤ a / 100 < 100) as Q1 by (split; [apply Z.div_pos; lia|apply Z.div_lt_upper_bound; lia]).
  set (q := a / 100) in *. destruct (digits2_spec q Q1) as (-> & Dq1 & Dq2). pose proof (Z.div_mod q 10) as D2. pose proof (Z.mod_pos_bound q 10) as M2.
  destruct (Z.leb_spec 100 a) as [Hb|Hb].
  - set (r := a mod 100) in *. destruct (digits2_spec r) as (-> & Dr1 & Dr2); [lia|]. pose proof (Z.div_mod r 10) as D3.
    destruct (Z.leb_spec 1000 a) as [Hc|Hc]; cbn [take drop app].
    + eexists. split; [reflexivity|]. split; [|done]. apply Hread; [repeat (constructor; [done|]); constructor|done|]. rw !dec_cons. change (dec []) with 0. cbn [length]. lia.
    + eexists. split; [reflexivity|]. split; [|done]. apply Hread; [repeat (constructor; [done|]); constructor|done|]. rw !dec_cons. change (dec []) with 0. cbn [length].
      assert (q / 10 = 0) by (apply Z.div_small; lia). lia.
  - destruct (digits2_spec a) as (-> & Dr1 & Dr2); [lia|]. pose proof (Z.div_mod a 10) as D3. cbn [app].
    eexists. split; [reflexivity|]. split; [|done]. apply Hread; [repeat (constructor; [done|]); constructor|done|]. rw !dec_cons. change (dec []) with 0. cbn [length]. lia.
Qed.

(** What is read from the parts. *)
Lemma read_parts sgn whole fraction (point : bool) tail e :
  Forall is_digit whole → whole ≠ [] → Forall is_digit fraction → (point = false → fraction = []) →
  (tail = [] ∧ e = 0 ∨ ∃ c l, (c = 69 ∨ c = 101) ∧ tail = c :: l ∧ read_exponent l = Some e) →
  read_decimal (sign_text sgn ++ whole ++ (if point then [46] else []) ++ fraction ++ tail) =
  Some (match sgn with sign_minus => true | _ => false end, dec (whole ++ fraction), e - Z.of_nat (length fraction)).
Proof.
  intros Hw Hne Hf Hp Ht. rw /read_decimal.
  assert (∀ l, Forall is_digit whole → read_sign (sign_text sgn ++ whole ++ l) =
    (match sgn with sign_minus => true | _ => false end, whole ++ l)) as ->.
  { intros l. destruct whole as [|c w]; [done|]. intros Hc%Forall_inv. rw /is_digit /char0 in Hc. destruct sgn; try done. cbn [sign_text app].
    destruct (decide (c = 48)) as [->|]; [done|]. destruct (decide (c = 49)) as [->|]; [done|]. destruct (decide (c = 50)) as [->|]; [done|].
    destruct (decide (c = 51)) as [->|]; [done|]. destruct (decide (c = 52)) as [->|]; [done|]. destruct (decide (c = 53)) as [->|]; [done|].
    destruct (decide (c = 54)) as [->|]; [done|]. destruct (decide (c = 55)) as [->|]; [done|]. destruct (decide (c = 56)) as [->|]; [done|].
    by assert (c = 57) as -> by lia. }
  2: done.
  assert (∀ c, head tail = Some c → ¬ is_digit c) as Htail.
  { destruct Ht as [[-> _]|(c & l & Hc & -> & _)]; [done|]. intros ? [= <-]. rw /is_digit /char0. lia. }
  destruct whole as [|c w]; [done|]. destruct point.
  - rw span_digits_app; [done|intros ? [= <-]; rw /is_digit /char0; lia|]. cbn [app]. rw span_digits_app //.
    destruct Ht as [[-> ->]|(c' & l & [-> | ->] & -> & ->)]; done.
  - rw (Hp eq_refl). cbn [app]. change (c :: w ++ tail) with ((c :: w) ++ tail). rw span_digits_app //.
    destruct Ht as [[-> ->]|(c' & l & [-> | ->] & -> & ->)]; done.
Qed.

Lemma zeros_digits n : Forall is_digit (zeros n).
Proof. apply Forall_replicate. rw /is_digit. lia. Qed.
Lemma zeros_length n : Z.of_nat (length (zeros n)) = Z.max n 0.
Proof. rw /zeros length_replicate. lia. Qed.
Lemma dec_zeros_end l n : dec (l ++ zeros n) = dec l * 10 ^ Z.max n 0.
Proof. rw dec_app /zeros dec_zeros length_replicate. replace (Z.of_nat (Z.to_nat n)) with (Z.max n 0) by lia. lia. Qed.
Lemma dec_zeros_start n l : dec (zeros n ++ l) = dec l.
Proof. rw dec_app /zeros dec_zeros. lia. Qed.

(** The characters are read as the digits at the exponent, with some zeros more. *)
Definition reads_as (fs : fspecs) (sig : list Z) (exponent : Z) (o : option (Z * list Z)) : Prop :=
  ∃ size chars z M E, o = Some (size, chars) ∧
    read_decimal chars = Some (match f_sgn fs with sign_minus => true | _ => false end, M, E) ∧
    0 ≤ z ∧ M = dec sig * 10 ^ z ∧ (E = exponent - z ∨ sig = []).

Lemma reads_intro fs sig exponent size chars whole fraction (point : bool) tail e z :
  chars = sign_text (f_sgn fs) ++ whole ++ (if point then [46] else []) ++ fraction ++ tail →
  Forall is_digit whole → whole ≠ [] → Forall is_digit fraction → (point = false → fraction = []) →
  (tail = [] ∧ e = 0 ∨ ∃ c l, (c = 69 ∨ c = 101) ∧ tail = c :: l ∧ read_exponent l = Some e) →
  0 ≤ z → dec (whole ++ fraction) = dec sig * 10 ^ z → (e - Z.of_nat (length fraction) = exponent - z ∨ sig = []) →
  reads_as fs sig exponent (Some (size, chars)).
Proof.
  intros -> Hw Hne Hf Hp Ht Hz Hd He. do 5 eexists. split; [reflexivity|]. split; [apply (read_parts _ _ _ _ _ e); done|].
  split; [exact Hz|]. done.
Qed.

Lemma layout_exp_reads sig exponent fs :
  Forall is_digit sig → sig ≠ [] → - 10000 < exponent + Z.of_nat (length sig) - 1 < 10000 →
  reads_as fs sig exponent (layout_exp sig (exponent + Z.of_nat (length sig) - 1) fs 46).
Proof.
  intros Hd Hne He. rw /layout_exp. set (oe := exponent + Z.of_nat (length sig) - 1) in *. destruct (write_exponent_spec oe He) as (el & -> & Hre & _).
  set (nz := if f_showpoint fs then Z.max (f_prec fs - Z.of_nat (length sig)) 0 else 0).
  set (pt := if f_showpoint fs then Some 46 else _).
  assert (pt = Some 46 ∨ pt = None ∧ nz = 0 ∧ length sig = 1%nat) as Hpt.
  { rw /pt /nz. destruct (f_showpoint fs); [by left|]. destruct (Z.eqb_spec (Z.of_nat (length sig)) 1); [right; split; [done|]; split; [done|lia]|by left]. }
  destruct sig as [|c sig]; [done|]. assert (0 ≤ nz) as Hnz by (rw /nz; case_match; lia).
  pose proof (Forall_inv Hd) as Hc. apply Forall_inv_tail in Hd. rw /write_significand. cbn [length Nat.ltb Nat.leb take drop].
  set (ec := if f_upper fs then 69 else 101). assert (ec = 69 ∨ ec = 101) as Hec by (rw /ec; case_match; auto).
  clearbody nz pt. destruct Hpt as [-> | (-> & -> & E1)].
  - apply (reads_intro fs _ _ _ _ [c] (sig ++ zeros nz) true (ec :: el) oe nz); [by rw -!app_assoc|by constructor|done|apply Forall_app; split; [done|apply zeros_digits]|done|right; by exists ec, el|done|..].
    + rw app_assoc dec_zeros_end. by replace (Z.max nz 0) with nz by lia.
    + left. rw length_app Nat2Z.inj_add zeros_length. cbn [length] in oe. lia.
  - destruct sig; [|cbn in E1; lia].
    apply (reads_intro fs _ _ _ _ [c] [] false (ec :: el) oe 0); [done|by constructor|done|constructor|done|right; by exists ec, el|done|..].
    + cbn [app]. lia.
    + left. cbn in oe |- *. lia.
Qed.

Lemma layout_fixed_reads sig exponent fs :
  Forall is_digit sig → (sig = [] → exponent < 0) →
  reads_as fs sig exponent (layout_fixed sig exponent fs 46).
Proof.
  intros Hd He. rw /layout_fixed. destruct (Z.leb_spec 0 exponent) as [Hx|Hx]; [|destruct (Z.ltb_spec 0 (exponent + Z.of_nat (length sig))) as [Hy|Hy]].
  - set (nz := if _ && _ then 1 else _). clearbody nz. assert (sig ≠ []) as Hne by (intros E; specialize (He E); lia).
    assert (Forall is_digit (sig ++ zeros exponent)) as Hw by (apply Forall_app; split; [done|apply zeros_digits]).
    assert (sig ++ zeros exponent ≠ []) as Hwn by (by destruct sig). destruct (f_showpoint fs).
    + apply (reads_intro fs _ _ _ _ (sig ++ zeros exponent) (zeros nz) true [] 0 (exponent + Z.max nz 0));
        [rw !app_nil_r -!app_assoc; done|done|done|apply zeros_digits|done|by left|lia| |].
      * rw !dec_zeros_end Z.pow_add_r; [lia..|]. replace (Z.max exponent 0) with exponent by lia. ring.
      * left. rw zeros_length. lia.
    + apply (reads_intro fs _ _ _ _ (sig ++ zeros exponent) [] false [] 0 exponent); [rw !app_nil_r; done|done|done|constructor|done|by left|lia| |].
      * rw app_nil_r dec_zeros_end. by replace (Z.max exponent 0) with exponent by lia.
      * left. cbn. lia.
  - set (nz := if f_showpoint fs then _ else 0). clearbody nz. set (i := Z.to_nat (exponent + Z.of_nat (length sig))). rw /write_significand.
    assert ((length sig <? i)%nat = false) as -> by (apply Nat.ltb_ge; lia).
    apply (reads_intro fs _ _ _ _ (take i sig) (drop i sig ++ zeros nz) true [] 0 (Z.max nz 0));
      [by rw app_nil_r -!app_assoc|by apply Forall_take| |apply Forall_app; split; [by apply Forall_drop|apply zeros_digits]|done|by left|lia| |].
    + intros E. apply (f_equal length) in E. rw length_take in E. cbn in E. lia.
    + by rw app_assoc take_drop dec_zeros_end.
    + left. rw length_app length_drop Nat2Z.inj_add zeros_length. lia.
  - set (nz := if _ && _ then f_prec fs else - (exponent + Z.of_nat (length sig))).
    assert (nz = - (exponent + Z.of_nat (length sig)) ∨ sig = []) as Hnz.
    { rw /nz. destruct (Z.eqb_spec (Z.of_nat (length sig)) 0); [right; by destruct sig|by left]. }
    assert (sig ≠ [] → 0 ≤ nz) as Hp by (intros; destruct Hnz; [lia|done]). clearbody nz. destruct (_ && negb (f_showpoint fs)) eqn:E.
    + apply andb_true_iff in E as [[_ E%Z.eqb_eq]%andb_true_iff _]. assert (sig = []) as -> by (by destruct sig).
      apply (reads_intro fs _ _ _ _ [char0] [] false [] 0 0); [done|by repeat constructor|done|constructor|done|by left|done|done|by right].
    + apply (reads_intro fs _ _ _ _ [char0] (zeros nz ++ sig) true [] 0 0); [by rw app_nil_r|by repeat constructor|done| |done|by left|done| |].
      * apply Forall_app. split; [apply zeros_digits|done].
      * rw dec_app dec_zeros_start dec_one. lia.
      * destruct (decide (sig = [])) as [|Hne]; [by right|left]. destruct Hnz as [-> |]; [|done]. rw length_app Nat2Z.inj_add zeros_length. specialize (Hp Hne). lia.
Qed.

(** The text of a number reads back as its digits at their exponent. *)
Theorem float_layout_reads sig exponent fs :
  Forall is_digit sig →
  (if use_exp_format fs (exponent + Z.of_nat (length sig) - 1) then sig ≠ [] ∧ - 10000 < exponent + Z.of_nat (length sig) - 1 < 10000
   else sig = [] → exponent < 0) →
  reads_as fs sig exponent (float_layout sig exponent fs 46).
Proof.
  intros Hd H. rw /float_layout. destruct (use_exp_format _ _); [destruct H; by apply layout_exp_reads|by apply layout_fixed_reads].
Qed.

(** ** The text of a double *)

(** A decimal [M * 10 ^ E] is [r * 10 ^ place]. *)
Definition same_decimal (M E r place : Z) : Prop :=
  M * 10 ^ Z.max (E - place) 0 = r * 10 ^ Z.max (place - E) 0.

Section text.
Context (shortest : bool → Z → list Z * Z) (hexfloat : Z → fspecs → Z → list Z) (decimal_point : Z).

Lemma write_unpadded p size s : width_ p ≤ 0 → 0 ≤ size → write_padded true p size s = s.
Proof.
  intros Hw Hs. rw /write_padded. destruct (Z.ltb_spec size (width_ p)); [lia|]. rw Z.shiftr_0_l Z.sub_diag. cbn. by rw app_nil_r.
Qed.

Lemma layout_size_pos sig exponent fs point size chars : float_layout sig exponent fs point = Some (size, chars) → 0 ≤ size.
Proof.
  rw /float_layout. destruct (use_exp_format _ _).
  - rw /layout_exp. set (nz := if f_showpoint fs then Z.max _ 0 else 0). assert (0 ≤ nz) by (rw /nz; case_match; lia).
    destruct (write_significand _ _ _); [|done]. destruct (write_exponent _); [|done]. intros [= <- _]. repeat case_match; lia.
  - rw /layout_fixed. destruct (Z.leb_spec 0 exponent); [intros [= <- _]; destruct (f_showpoint fs); lia|].
    destruct (Z.ltb_spec 0 (exponent + Z.of_nat (length sig))).
    + destruct (write_significand _ _ _); [|done]. intros [= <- _]. destruct (Z.ltb_spec 0 (if f_showpoint fs then f_prec fs - Z.of_nat (length sig) else 0)); lia.
    + set (nz := if _ && _ then f_prec fs else _). assert (0 ≤ nz); [|intros [= <- _]; lia]. rw /nz.
      destruct (Z.leb_spec 0 (f_prec fs)); [|rw andb_false_r; cbn; lia]. case_match; lia.
Qed.

(** C35: The text of a number, as long as the formatter is exact: for a finite number that is not
    zero, in the fixed, exponent or general format with a given precision of at most 767 digits,
    which is not zero outside the fixed format, without a width, alignment after the sign or
    locale, the text is read back as the exact number, rounded to the place of the last digit. *)
Theorem write_exact p fs binary32 u u32 n :
  let v := read_float false (u mod 2 ^ 63) in
  parse_float_type_spec p = Ok fs → f_format fs ≠ ff_hex → f_locale fs = false → digits_precision p fs = Some n →
  0 ≤ n ≤ 767 → (f_format fs ≠ ff_fixed → 1 ≤ n) → width_ p ≤ 0 → FmtSpecs.align p ≠ align_numeric →
  0 < u mod 2 ^ 63 < 2047 * 2 ^ 52 → (binary32 = true → same_number v (read_float true (u32 mod 2 ^ 31))) →
  ∃ t chars M E, decimal_exponent v t ∧
    write shortest hexfloat decimal_point p binary32 u u32 = Some (Ok (map Z_to_byte chars)) ∧
    read_decimal chars = Some (Z.testbit u 63, M, E) ∧
    let place := last_place (grisu_specs fs binary32) n t in
    (same_decimal M E (exact v place) place ∨ M = 0 ∧ exact v place = 0).
Proof.
  intros v Hparse Hhex Hloc Hn Hr Hfx Hw Hal Hu H32. rw /write Hparse. set (sgn := if Z.testbit u 63 then sign_minus else _).
  assert (match sgn with sign_minus => true | _ => false end = Z.testbit u 63) as Hsgn by (rw /sgn; destruct (Z.testbit u 63); [done|by destruct (sign p)]).
  destruct (double_spec (u mod 2 ^ 63) Hu) as [_ He].
  assert ((double_biased (u mod 2 ^ 63) =? 2047) = false) as ->.
  { apply Z.eqb_neq. rw /double_biased. rw (Z.mod_small (_ / _)); [split; [apply Z.div_pos; lia|apply Z.div_lt_upper_bound; lia]|].
    assert (u mod 2 ^ 63 / 2 ^ 52 < 2047) by (apply Z.div_lt_upper_bound; lia). lia. }
  assert ((match FmtSpecs.align p, f_sgn (set_sgn fs sgn) with align_numeric, sign_none => false | align_numeric, _ => true | _, _ => false end) = false) as -> by (by destruct (FmtSpecs.align p)).
  cbn [andb app].
  set (gs := grisu_specs fs binary32).
  destruct (format_float_spec (u mod 2 ^ 63) (u32 mod 2 ^ 31) n gs Hu) as (t & buf & exp & Ht & Eff & Hd & Hp & Hrange & Hsize); [lia| |done|].
  { rw /gs /=. intros A. apply Hfx. intros B. by rw B in A. }
  fold v in Ht, Hp. cbn zeta in Hp. set (place := last_place gs n t) in *.
  assert (f_format fs ≠ ff_fixed → fs_fixed gs = false) as Hnf by (rw /gs /=; by destruct (f_format fs)).
  assert (f_format fs ≠ ff_fixed → buf ≠ []) as Hne.
  { intros A B. assert (0 < exact v place); [|destruct Hp as [(? & _)|(_ & _ & ?)]; [done|lia]].
    apply (exact_pos v t); [done|]. rw /place /last_place (Hnf A). specialize (Hfx A). lia. }
  destruct (float_layout_reads buf exp (set_prec (set_sgn fs sgn) n) Hd) as (size & chars & z & M & E & El & Hread & Hz & HM & HE).
  { destruct (use_exp_format _ _) eqn:Eu.
    - assert (f_format fs ≠ ff_fixed) as A by (intros A; by rw /use_exp_format /= A in Eu). split; [by apply Hne|]. specialize (Hsize (Hnf A)). lia.
    - intros B. destruct (decide (fs_fixed gs = true)) as [Hf|Hf].
      + destruct Hp as [(? & _)|(_ & ? & _)]; [done|]. rw /place /last_place Hf in H. lia.
      + exfalso. apply Hne; [|done]. intros C. apply Hf. by rw /gs /= C. }
  exists t, chars, M, E. split; [done|]. split; [|split].
  - assert (write_digits shortest decimal_point p (set_sgn fs sgn) binary32 (u mod 2 ^ 63) (u32 mod 2 ^ 31) = Some (Ok (map Z_to_byte chars))) as ->.
    { rw /write_digits. change (digits_precision p (set_sgn fs sgn)) with (digits_precision p fs). rw Hn. destruct (Z.ltb_spec n 0); [lia|].
      change (grisu_specs (set_sgn fs sgn) binary32) with gs. rw Eff. change (f_locale (set_sgn fs sgn)) with (f_locale fs). rw Hloc /write_float El.
      rw write_unpadded; [done|by apply (layout_size_pos _ _ _ _ _ _ El)|done]. }
    change (f_format (set_sgn fs sgn)) with (f_format fs). by destruct (f_format fs).
  - rw Hread. by rw -Hsgn.
  - fold place. destruct Hp as [(Hb & Hle & Hv)|(-> & _ & Hv)]; [left|right; split; [|done]; rw HM; done].
    destruct HE as [-> | ?]; [|done]. rw /same_decimal HM -Hv. destruct (Z.le_ge_cases place (exp - z)).
    + replace (Z.max (exp - z - place) 0) with (exp - z - place) by lia. replace (Z.max (place - (exp - z)) 0) with 0 by lia.
      rw Z.pow_0_r Z.mul_1_r -Z.mul_assoc -Z.pow_add_r; [lia..|]. do 2 f_equal. lia.
    + replace (Z.max (exp - z - place) 0) with 0 by lia. replace (Z.max (place - (exp - z)) 0) with (place - (exp - z)) by lia.
      rw Z.pow_0_r Z.mul_1_r -Z.mul_assoc -Z.pow_add_r; [lia..|]. do 2 f_equal. lia.
Qed.

End text.

(** No shortest digits and no hexadecimal format are needed for a precision. *)
Definition no_shortest (binary32 : bool) (u : Z) : list Z * Z := ([], 0).
Definition no_hexfloat (u : Z) (fs : fspecs) (precision : Z) : list Z := [].
Definition style (width precision : Z) (type : byte) : specs :=
  mk_specs width precision type align_none sign_none false [Byte.x20].

(** -2.675 with two digits after the point is -2.67, as the double is a little less. *)
Lemma write_exact_witness :
  write no_shortest no_hexfloat 46 (style 0 2 Byte.x66) false 0xC005666666666666 0 =
    Some (Ok (String.list_byte_of_string "-2.67")) ∧
  let fs := mk_fspecs 0 ff_fixed sign_none false false true in
  let v := read_float false (0xC005666666666666 mod 2 ^ 63) in
  ∃ t chars M E, decimal_exponent v t ∧
    write no_shortest no_hexfloat 46 (style 0 2 Byte.x66) false 0xC005666666666666 0 = Some (Ok (map Z_to_byte chars)) ∧
    read_decimal chars = Some (Z.testbit 0xC005666666666666 63, M, E) ∧
    let place := last_place (grisu_specs fs false) 2 t in
    (same_decimal M E (exact v place) place ∨ M = 0 ∧ exact v place = 0).
Proof.
  split; [by vm_compute|].
  apply (write_exact no_shortest no_hexfloat 46 (style 0 2 Byte.x66) (mk_fspecs 0 ff_fixed sign_none false false true) false 0xC005666666666666 0 2);
    [done|done|done|done|lia|done|done|done|by vm_compute|done].
Defined.

(** ** The size that is padded *)

(** What the size lacks: the point of a number with its last digit before it is not counted, and
    a single zero is counted with one. *)
Definition size_error (sig : list Z) (exponent : Z) (fs : fspecs) : Z :=
  let exp := exponent + Z.of_nat (length sig) in
  if use_exp_format fs (exp - 1) then 0
  else if 0 <=? exponent then Z.b2z (f_showpoint fs)
  else if (exp =? 0) || ((exp <? 0) && (f_prec fs =? 0)) then
    if (length sig =? 0)%nat && negb (f_showpoint fs) then -1 else 0
  else 0.

Lemma write_significand_length sig i c l :
  write_significand sig i (Some c) = Some l → Z.of_nat (length l) = Z.of_nat (length sig) + 1.
Proof.
  rw /write_significand. destruct (Nat.ltb_spec (length sig) i); [done|]. intros [= <-]. rw !length_app length_take. cbn [length]. rw length_drop. lia.
Qed.

Theorem layout_size sig exponent fs point size chars :
  (sig = [] → exponent < 0) →
  float_layout sig exponent fs point = Some (size, chars) → Z.of_nat (length chars) = size + size_error sig exponent fs.
Proof.
  intros Hemp. rw /float_layout /size_error.
  destruct (use_exp_format _ _).
  - rw /layout_exp. set (oe := exponent + Z.of_nat (length sig) - 1). set (nz := if f_showpoint fs then Z.max _ 0 else 0).
    set (pt := if f_showpoint fs then Some point else _).
    assert (pt = Some point ∨ pt = None ∧ length sig = 1%nat) as Hpt.
    { rw /pt. destruct (f_showpoint fs); [by left|]. destruct (Z.eqb_spec (Z.of_nat (length sig)) 1); [right; split; [done|lia]|by left]. }
    assert (0 ≤ nz) as Hnz by (rw /nz; case_match; lia). clearbody nz pt. destruct (write_significand sig 1 pt) as [s|] eqn:Es; [|done].
    destruct (write_exponent oe) as [el|] eqn:Ee; [|done]. intros [= <- <-].
    assert (- 10000 < oe < 10000) as Hr by (rw /write_exponent in Ee; destruct (Z.leb_spec oe (- 10000)), (Z.leb_spec 10000 oe); try done; lia).
    destruct (write_exponent_spec oe Hr) as (l & Ee' & _ & Hl). rw Ee' in Ee. injection Ee as ->. rw !length_app. cbn [length]. rw !Nat2Z.inj_add Nat2Z.inj_succ zeros_length Hl.
    replace (if 0 <=? oe then oe else - oe) with (Z.abs oe) by (destruct (Z.leb_spec 0 oe); lia). cbn [length].
    assert (Z.of_nat (length s) = Z.of_nat (length sig) + Z.of_nat (length (point_text pt))) as ->; [|lia].
    destruct Hpt as [-> | [-> E1]]; [by apply write_significand_length in Es as ->|].
    rw /write_significand E1 /= in Es. injection Es as <-. rw length_take E1. done.
  - rw /layout_fixed. destruct (Z.leb_spec 0 exponent) as [Hx|Hx].
    + intros [= <- <-]. rw !length_app !Nat2Z.inj_add zeros_length. destruct (f_showpoint fs); cbn [Z.b2z length]; [rw Nat2Z.inj_succ zeros_length|]; lia.
    + destruct (Z.ltb_spec 0 (exponent + Z.of_nat (length sig))) as [Hy|Hy].
      * destruct (write_significand _ _ _) as [s|] eqn:Es; [|done]. intros [= <- <-]. apply write_significand_length in Es.
        rw !length_app !Nat2Z.inj_add zeros_length Es. set (nz := if f_showpoint fs then _ else 0).
        destruct (Z.eqb_spec (exponent + Z.of_nat (length sig)) 0); [lia|]. destruct (Z.ltb_spec (exponent + Z.of_nat (length sig)) 0); [lia|]. cbn [orb andb].
        destruct (Z.ltb_spec 0 nz); lia.
      * intros [= <- <-]. rw !length_app !Nat2Z.inj_add. cbn [length]. destruct (Nat.eqb_spec (length sig) 0) as [E0|E0].
        -- destruct sig; [|done]. change (Z.of_nat (length [])) with 0. rw !Z.add_0_r !app_nil_r. change (0 =? 0) with true. rw !andb_true_r. cbn [andb].
           destruct (Z.eqb_spec exponent 0); [lia|]. destruct (Z.ltb_spec exponent 0); [|lia]. cbn [orb andb].
           destruct (Z.leb_spec 0 (f_prec fs)), (Z.ltb_spec (f_prec fs) (- exponent)); cbn [andb];
             destruct (Z.eqb_spec (f_prec fs) 0), (f_showpoint fs); try destruct (Z.eqb_spec (- exponent) 0); cbn [andb negb length]; try lia; rw ?Nat2Z.inj_succ ?zeros_length; lia.
        -- destruct (Z.eqb_spec (Z.of_nat (length sig)) 0); [lia|]. rw !andb_false_r. cbn [andb length]. rw length_app !Nat2Z.inj_succ Nat2Z.inj_add zeros_length.
           destruct ((_ =? 0) || _); lia.
Qed.

(** One hundred with three digits: the point is not counted, so one character too much is
    written before it. *)
Lemma layout_size_witness :
  float_layout [49; 48; 48] 0 (mk_fspecs 3 ff_general sign_none false false true) 46 = Some (4, [49; 48; 48; 46; 48]) ∧
  Z.of_nat (length [49; 48; 48; 46; 48]) = 4 + size_error [49; 48; 48] 0 (mk_fspecs 3 ff_general sign_none false false true).
Proof.
  split; [by vm_compute|].
  apply (layout_size [49; 48; 48] 0 (mk_fspecs 3 ff_general sign_none false false true) 46 4 [49; 48; 48; 46; 48]); [done|by vm_compute].
Defined.

(** A width of 8 gives nine characters for 100 with a precision of three, and a width of 3 two for
    0.03 with no digits after the point. *)
Theorem width_missed :
  write no_shortest no_hexfloat 46 (style 8 3 Byte.x00) false 0x4059000000000000 0 =
    Some (Ok (String.list_byte_of_string "    100.0")) ∧
  write no_shortest no_hexfloat 46 (style 3 0 Byte.x66) false 0x3F9EB851EB851EB8 0 =
    Some (Ok (String.list_byte_of_string " 0")).
Proof. by vm_compute. Qed.

(** Forty-five digits after the point are asked for, and after a carry over all the digits of the
    exact algorithm there are only forty-four. *)
Theorem fixed_carry_short :
  ∃ chars, write no_shortest no_hexfloat 46 (style 0 45 Byte.x66) false 4068233174591701615 0 = Some (Ok (map Z_to_byte chars)) ∧
    length chars = (2 + 44)%nat ∧ read_decimal chars = Some (false, 100000000, - 44).
Proof.
  exists ([48; 46] ++ replicate 35 48 ++ [49] ++ replicate 8 48). by vm_compute.
Qed.
