(* ===== verification/FormatFloats.v ===== *)
(** The floating-point numbers in formatted messages: the [fmt::format("{:.6}F", value)] and
    [fmt::format("{:.12}", value)] of src/format_message.cpp, with the formatter of [FmtFloat].

    [FormatMessage] takes the two conversions as parameters; here they are defined, they are
    shown to be total and short, and the theorems on whole messages are stated for them. *)

From Stdlib Require Import ssreflect.
From stdpp Require Import list.
From S2P Require Import Prelude Errors FmtInt MsgpackObject FormatMessage Fmt FmtSpecs FmtBigint FmtDragon FmtCached FmtGrisu FmtFloat.

Open Scope general_if_scope.
Open Scope Z_scope.

(** ** The conversion of a float to a double *)

(** The bits of the double with the value of a float, whose 32 bits are given: the exponent is
    biased anew, and a subnormal number becomes a normal one. *)
Definition promote_magnitude (z : Z) : Z :=
  let biased := z / 2 ^ 23 in
  let m := z mod 2 ^ 23 in
  if biased =? 255 then 2047 * 2 ^ 52 + m * 2 ^ 29
  else if biased =? 0 then
    if m =? 0 then 0 else let k := Z.log2 m in (k + 874) * 2 ^ 52 + (m - 2 ^ k) * 2 ^ (52 - k)
  else (biased + 896) * 2 ^ 52 + m * 2 ^ 29.
Definition promote (z : Z) : Z :=
  (if Z.testbit z 31 then 2 ^ 63 else 0) + promote_magnitude (z mod 2 ^ 31).

(** ** The text *)

(** [{:.n}] *)
Definition fmt_precision (n : Z) (binary32 : bool) (u u32 : Z) : list byte :=
  match write no_shortest no_hexfloat 46 (style 0 n Byte.x00) binary32 u u32 with
  | Some (Ok t) => t
  | _ => []
  end.
Definition fmt_float32 (z : Z) : list byte := fmt_precision 6 true (promote (wrap32 z)) (wrap32 z).
Definition fmt_float64 (z : Z) : list byte := fmt_precision 12 false (wrap64 z) 0.

(** ** Equal values *)

Lemma assign_float_spec u :
  0 ≤ u < 2 ^ 31 →
  fst (assign_float u) =
  if u / 2 ^ 23 =? 0 then mk_fp (u mod 2 ^ 23) (- 149) else mk_fp (2 ^ 23 + u mod 2 ^ 23) (u / 2 ^ 23 - 150).
Proof.
  intros Hu. rw /assign_float /fp_assign. change (24 - 1) with 23. change (2 ^ 23 - 1) with (Z.ones 23). rw Z.land_ones //.
  assert (Z.shiftr (Z.land u (Z.ldiff (2 ^ 63 - 1) (Z.ones 23))) 23 = u / 2 ^ 23) as ->.
  { rw Z.shiftr_land. replace (Z.shiftr (Z.ldiff _ _) _) with (Z.ones 40) by done. rw Z.land_ones // Z.shiftr_div_pow2 // Z.mod_small //.
    split; [apply Z.div_pos; lia|apply Z.div_lt_upper_bound; lia]. }
  change (2 ^ (32 - 23 - 1) - 128 - 1) with 127. destruct (u / 2 ^ 23 =? 0); cbn iota beta zeta; [done|]. cbn [fst].
  f_equal; lia.
Qed.

(** A significand shifted to the left with the exponent decreased. *)
Lemma same_shift f e k : 0 ≤ k → same_number (mk_fp (f * 2 ^ k) (e - k)) (mk_fp f e).
Proof.
  intros Hk. rw /same_number /frac_num /frac_den. cbn [fp_f fp_e]. rw !Z.mul_1_l !Z.mul_1_r -!Z.mul_assoc. f_equal.
  rw -!Z.pow_add_r; [lia..|]. f_equal. lia.
Qed.

Lemma double_fields b m : 0 ≤ b < 2 ^ 11 → 0 ≤ m < 2 ^ 52 → double_biased (b * 2 ^ 52 + m) = b ∧ double_mantissa (b * 2 ^ 52 + m) = m.
Proof.
  intros Hb Hm. rw /double_biased /double_mantissa. rw Z.add_comm Z.div_add // (Z.div_small m) // Z.mod_add // !Z.mod_small //.
Qed.

(** The part of a float that is not its sign: a finite number keeps its value, and others are
    not finite either. *)
Lemma promote_spec z :
  0 ≤ z < 2 ^ 31 →
  0 ≤ promote_magnitude z < 2 ^ 63 ∧
  (promote_magnitude z < 2047 * 2 ^ 52 → same_number (read_float false (promote_magnitude z)) (read_float true z)).
Proof.
  intros Hz. assert (0 ≤ z / 2 ^ 23 < 256) as Hb by (split; [apply Z.div_pos; lia|apply Z.div_lt_upper_bound; lia]).
  pose proof (Z.mod_pos_bound z (2 ^ 23)) as Hm. rw /read_float assign_float_spec // /promote_magnitude.
  set (b := z / 2 ^ 23) in *. set (m := z mod 2 ^ 23) in *. clearbody b m.
  destruct (Z.eqb_spec b 255) as [E|E]; [split; lia|]. destruct (Z.eqb_spec b 0) as [E0|E0].
  - destruct (Z.eqb_spec m 0) as [->|Em]; [by split|].
    pose proof (Z.log2_spec m) as Hk. assert (Z.log2 m < 23) as Hlt by (apply Z.log2_lt_pow2; lia).
    pose proof (Z.log2_nonneg m). set (k := Z.log2 m) in *. clearbody k.
    assert (0 ≤ (m - 2 ^ k) * 2 ^ (52 - k) < 2 ^ 52) as Hr.
    { assert (2 ^ 52 = 2 ^ k * 2 ^ (52 - k)) as -> by (rw -Z.pow_add_r; [lia..|]; f_equal; lia).
      assert (0 < 2 ^ (52 - k)) by (apply Z.pow_pos_nonneg; lia). rw Z.pow_succ_r in Hk; [lia|]. nia. }
    split; [lia|]. intros _. rw assign_double_spec; [lia|]. destruct (double_fields (k + 874) _ ltac:(lia) Hr) as [-> ->].
    destruct (Z.eqb_spec (k + 874) 0); [lia|]. cbn [fst].
    replace (2 ^ 52 + (m - 2 ^ k) * 2 ^ (52 - k)) with (m * 2 ^ (52 - k)).
    { replace (k + 874 - 1075) with (- 149 - (52 - k)) by lia. apply same_shift. lia. }
    replace (2 ^ 52) with (2 ^ k * 2 ^ (52 - k)) by (rw -Z.pow_add_r; [lia..|]; f_equal; lia). lia.
  - split; [lia|]. intros _. rw assign_double_spec; [lia|]. destruct (double_fields (b + 896) (m * 2 ^ 29)) as [-> ->]; [lia..|].
    destruct (Z.eqb_spec (b + 896) 0); [lia|]. cbn [fst].
    replace (2 ^ 52 + m * 2 ^ 29) with ((2 ^ 23 + m) * 2 ^ 29) by lia. replace (b + 896 - 1075) with (b - 150 - 29) by lia. by apply same_shift.
Qed.

(** ** Length of the text *)

Lemma general_length sig exponent fs point size chars :
  f_format fs = ff_general → f_showpoint fs = true → 1 ≤ f_prec fs → sig ≠ [] → Z.of_nat (length sig) ≤ f_prec fs + 1 →
  - 1000 < exponent + Z.of_nat (length sig) - 1 < 1000 →
  float_layout sig exponent fs point = Some (size, chars) → Z.of_nat (length chars) ≤ f_prec fs + 8.
Proof.
  intros Hf Hs Hp Hne Hl Hexp E. rw (layout_size _ _ _ _ _ _ _ E); [done|].
  assert (Z.of_nat (length (sign_text (f_sgn fs))) ≤ 1) as Hsg by (by destruct (f_sgn fs)).
  assert (1 ≤ length sig)%nat by (destruct sig; [done|cbn; lia]).
  revert E. rw /float_layout /size_error /use_exp_format Hf.
  set (oe := exponent + Z.of_nat (length sig) - 1) in *. replace (0 <? f_prec fs) with true by (symmetry; apply Z.ltb_lt; lia).
  destruct (Z.ltb_spec oe (- 4)), (Z.leb_spec (f_prec fs) oe); cbn [orb].
  1-3: rw /layout_exp Hs; destruct (write_significand _ _ _); [|done]; destruct (write_exponent _); [|done]; intros [= <- _]; cbn [length point_text];
    destruct (Z.leb_spec 0 oe), (Z.leb_spec 100 (if 0 <=? oe then oe else - oe)); repeat case_match; lia.
  rw /layout_fixed Hs Hf. cbn [andb negb Z.b2z]. destruct (Z.leb_spec 0 exponent).
  - intros [= <- _]. destruct (Z.leb_spec (f_prec fs - (exponent + Z.of_nat (length sig))) 0); cbn [andb]; lia.
  - destruct (Z.ltb_spec 0 (exponent + Z.of_nat (length sig))).
    + destruct (write_significand _ _ _); [|done]. intros [= <- _]. destruct (Nat.eqb_spec (length sig) 0); [lia|]. cbn [andb]. repeat case_match; lia.
    + intros [= <- _]. destruct (Z.eqb_spec (Z.of_nat (length sig)) 0); [lia|]. destruct (Nat.eqb_spec (length sig) 0); [lia|]. cbn [andb]. repeat case_match; lia.
Qed.

Lemma unpadded right p size s : width_ p = 0 → 0 ≤ size → write_padded right p size s = s.
Proof.
  intros Hw Hs. rw /write_padded Hw. destruct (Z.ltb_spec size 0); [lia|]. rw Z.shiftr_0_l. cbn. by rw app_nil_r.
Qed.

(** The digits of a finite number: at least one, and at most one more than were asked for. *)
Lemma format_float_digits u u32 n (binary32 : bool) :
  0 ≤ u < 2047 * 2 ^ 52 → 1 ≤ n ≤ 767 → (binary32 = true → same_number (read_float false u) (read_float true u32)) →
  ∃ sig exp, format_float u u32 n (mk_float_specs false true binary32) = Some (sig, exp) ∧ Forall is_digit sig ∧ sig ≠ [] ∧
    Z.of_nat (length sig) ≤ n + 1 ∧ - 1000 < exp + Z.of_nat (length sig) - 1 < 1000.
Proof.
  intros Hu Hn H32. destruct (decide (u = 0)) as [->|Hne].
  { rw /format_float. change (0 =? 0) with true. cbn [fs_fixed negb]. rw orb_true_r. exists [char0], 0. split_and!; [done| |done|cbn; lia..].
    constructor; [|constructor]. rw /is_digit /char0. lia. }
  destruct (format_float_spec u u32 n (mk_float_specs false true binary32)) as (t & sig & exp & Ht & E & Hd & Hp & Hr & Hs); [lia..|done|].
  specialize (Hs eq_refl). cbn zeta in Hp. exists sig, exp. split; [done|]. split; [done|].
  assert (last_place (mk_float_specs false true binary32) n t = t + 1 - n) as Epl by (rw /last_place; cbn [fs_fixed]; lia). rw Epl in Hp.
  destruct Hp as [(? & Hle & _)|(-> & _ & H0)]; [split; [done|]; lia|].
  pose proof (exact_pos (read_float false u) t (t + 1 - n) Ht). lia.
Qed.

(** [{:.n}] is total, and its text is short. *)
Lemma fmt_precision_spec n binary32 u u32 :
  1 ≤ n ≤ 767 →
  (binary32 = true → u mod 2 ^ 63 < 2047 * 2 ^ 52 → same_number (read_float false (u mod 2 ^ 63)) (read_float true (u32 mod 2 ^ 31))) →
  ∃ t, write no_shortest no_hexfloat 46 (style 0 n Byte.x00) binary32 u u32 = Some (Ok t) ∧ Z.of_nat (length t) ≤ n + 8.
Proof.
  intros Hn H32. rw /write. change (parse_float_type_spec _) with (@Ok exn _ (mk_fspecs 0 ff_general sign_none false false (0 <? n))).
  replace (0 <? n) with true by (symmetry; apply Z.ltb_lt; lia). cbv iota beta zeta.
  set (fs := set_sgn _ _). assert (Z.of_nat (length (sign_text (f_sgn fs))) ≤ 1) as Hsg by (by destruct (f_sgn fs)).
  pose proof (Z.mod_pos_bound u (2 ^ 63)) as Hu. set (v := u mod 2 ^ 63) in *.
  destruct (Z.eqb_spec (double_biased v) 2047) as [Einf|Hfin].
  { eexists. split; [done|]. rw /write_nonfinite unpadded; [done|lia|]. rw length_map length_app.
    change (f_upper fs) with false. assert (length (nonfinite_text (double_mantissa v =? 0) false) = 3%nat) by (by destruct (_ =? 0)). lia. }
  assert (v < 2047 * 2 ^ 52) as Hv.
  { rw /double_biased in Hfin. assert (v / 2 ^ 52 < 2048) by (apply Z.div_lt_upper_bound; lia). assert (0 ≤ v / 2 ^ 52) by (apply Z.div_pos; lia).
    rw Z.mod_small in Hfin; [lia|]. pose proof (Z.div_mod v (2 ^ 52)). pose proof (Z.mod_pos_bound v (2 ^ 52)). lia. }
  change (FmtSpecs.align (style 0 n Byte.x00)) with align_none. cbv iota beta zeta. change (f_format fs) with ff_general. cbv iota.
  cbn [andb app]. rw /write_digits. change (digits_precision _ fs) with (if true then Some (if (0 <=? n) || true then n else 6) else None). rw orb_true_r.
  destruct (Z.ltb_spec n 0); [lia|]. change (grisu_specs fs binary32) with (mk_float_specs false true binary32).
  destruct (format_float_digits v (u32 mod 2 ^ 31) n binary32) as (sig & exp & -> & Hd & Hne & Hl & Hr); [lia|lia|auto|].
  change (f_locale fs) with false. rw /write_float.
  destruct (float_layout_reads sig exp (set_prec fs n) Hd) as (size & chars & z & M & E & El & _).
  { case_match; [split; [done|lia]|done]. }
  rw El. eexists. split; [done|]. rw unpadded; [done|by apply (layout_size_pos _ _ _ _ _ _ El)|]. rw length_map.
  apply (general_length sig exp (set_prec fs n) 46 size chars); [done|done|cbn; lia|done|done|done|done].
Qed.

Lemma fmt_float64_length z : (length (fmt_float64 z) ≤ 20)%nat.
Proof.
  rw /fmt_float64 /fmt_precision. destruct (fmt_precision_spec 12 false (wrap64 z) 0) as (t & -> & Hl); [lia|done|lia].
Qed.
Lemma fmt_float32_length z : (length (fmt_float32 z) ≤ 19)%nat.
Proof.
  rw /fmt_float32 /fmt_precision. pose proof (Z.mod_pos_bound (wrap32 z) (2 ^ 31)) as Hm.
  destruct (promote_spec (wrap32 z mod 2 ^ 31)) as [Hb Hs]; [lia|].
  assert (promote (wrap32 z) mod 2 ^ 63 = promote_magnitude (wrap32 z mod 2 ^ 31)) as Ep.
  { rw /promote. destruct (Z.testbit _ _); [rw -Z.add_mod_idemp_l // Z.mod_same //|]; by rw Z.add_0_l Z.mod_small. }
  destruct (fmt_precision_spec 6 true (promote (wrap32 z)) (wrap32 z)) as (t & -> & Hl); [lia| |lia].
  rw Ep. auto.
Qed.

(** ** Theorems *)

(** C33: formatting a message whose text is short enough, twice its length and five at most
    the limit, prints the whole object: the text [render] defines (literals, integers in
    decimal, numbers with six or twelve digits, quoted strings, hexadecimal binaries, bracketed
    and comma-separated items), with nothing cut and no comma left before a closing bracket.
    Twice the length, because strings are cut when the text with twice their size is over the
    limit. *)
Theorem format_message_renders o L :
  wf_object o = true → L < 2 ^ 32 →
  2 * Z.of_nat (length (render fmt_float32 fmt_float64 o)) + 5 ≤ L →
  format_message fmt_float32 fmt_float64 (Some (pack_object o)) L =
  Ok (render fmt_float32 fmt_float64 o).
Proof. apply format_message_renders_aux. Qed.

Definition sample_object : object :=
  ARRAY [POSITIVE_INTEGER 12; STR (chars "ab"); BIN [Byte.x0f]; FLOAT32 0x3FC00000;
    MAP [(BOOLEAN true, FLOAT64 0x3FF8000000000000)]; ARRAY []].

Lemma format_message_renders_witness :
  format_message fmt_float32 fmt_float64 (Some (pack_object sample_object)) 200 =
    Ok (render fmt_float32 fmt_float64 sample_object).
Proof. apply format_message_renders; [reflexivity|lia|vm_compute; discriminate]. Defined.

(** C34: formatting never throws (it is [noexcept]) and the output is bounded: for data below
    2 GiB, whatever the bytes are, it is at most 19 characters longer than the limit, where a
    limit below 5 counts as 5. *)
Theorem format_message_bounded data L :
  0 ≤ L ≤ 2 ^ 63 → message_data_ops.size data < 2 ^ 31 →
  ∃ s, format_message fmt_float32 fmt_float64 data L = Ok s ∧
    Z.of_nat (length s) ≤ Z.max L 5 + 19.
Proof.
  intros HL Hd. apply format_message_bounded_aux; [exact fmt_float32_length|exact fmt_float64_length|done|done].
Qed.

Lemma format_message_bounded_witness :
  ∃ s, format_message fmt_float32 fmt_float64 (Some [Byte.x93; Byte.xca; Byte.x00; Byte.x00; Byte.x00; Byte.x01; Byte.x01; Byte.xc1]) 10 = Ok s ∧
    Z.of_nat (length s) ≤ Z.max 10 5 + 19.
Proof. apply format_message_bounded; [lia|reflexivity]. Defined.
