(* ===== verification/Logging.v ===== *)
(** Logging: include/mprpc/logging, impl/mprpc/logging/impl/spdlog_logger.h,
    and the logger of the Python bindings,
    python/mprpc_cpp/include/mprpc/python_logger_helper.h.

    [logger] is a base class whose [write_impl] the derived classes implement: here a type
    class with one instance per derived class. What spdlog does with a message it is given
    (sinks, patterns, files) is left out. *)

From S2P Require Import Prelude Errors Fmt.

Open Scope Z_scope.

Definition text_of (s : string) : text := String.list_byte_of_string s.

(** ** Levels *)

Inductive log_level : Type := trace | debug | info | warn | error | fatal | none.
#[export] Instance log_level_eq_decision : EqDecision log_level.
Proof. solve_decision. Defined.

Definition level_to_int (l : log_level) : Z :=
  match l with
  | trace => 0 | debug => 1 | info => 2 | warn => 3 | error => 4 | fatal => 5 | none => 6
  end.

(** ** Formatting *)

(** Whether the format reaches [format_log_data] as an lvalue of a constant (a string literal,
    a constant string) or as something else. *)
Inductive value_category : Type := const_lvalue | other_value.

Section data.
Context {D A : Type} `{Formatter A} (preprocess : D → A).   (* [log_data_traits] *)
Context (get_id : text → option Z).

(** Two overloads: [const Format&, Data&&...] and [String&&]. Without data both fit; for an
    lvalue of a constant the first one is more specialized, for anything else the second is
    the better match. *)
Definition format_log_data (category : value_category) (format : text) (data : list D) :
    option (result text) :=
  match data, category with
  | [], other_value => Some (Ok format)
  | _, _ => vformat (map preprocess data) get_id format
  end.
End data.

(** The characters that a C string has: those before the first null character. *)
Fixpoint c_str (t : text) : text :=
  match t with
  | [] => []
  | c :: t' => if decide (c = Byte.x00) then [] else c :: c_str t'
  end.

(** ** [logger] *)

(** A call of one of the three overloads of [write_impl]. *)
Record log_record := mk_log_record {
  lr_label : option text;
  lr_location : option (text * Z * text);   (* file, line, function *)
  lr_level : log_level;
  lr_message : text;
}.

Class LoggerImpl (L : Type) := write_impl : L → log_record → L.

Record logger (L : Type) := mk_logger { log_output_level_ : log_level; impl_ : L }.
Arguments mk_logger {L}. Arguments log_output_level_ {L}. Arguments impl_ {L}.

Definition formatting_error_message : text := text_of "ERROR IN FORMATTING LOG MESSAGE".

Section logger.
Context {L : Type} `{LoggerImpl L}.
Context {D A : Type} `{Formatter A} (preprocess : D → A) (get_id : text → option Z).

Definition is_outputted_level (l : logger L) (level : log_level) : bool :=
  level_to_int (log_output_level_ l) <=? level_to_int level.

Definition write (l : logger L) (label : option text) (location : option (text * Z * text))
    (level : log_level) (category : value_category) (format : text) (data : list D) :
    option (logger L) :=
  if negb (is_outputted_level l level) then Some l
  else
    let emit m := mk_logger (log_output_level_ l) (write_impl (impl_ l) (mk_log_record label location level m)) in
    match format_log_data preprocess get_id category format data with
    | Some (Ok m) => Some (emit (c_str m))
    | Some (Throw _) => Some (emit formatting_error_message)
    | None => None
    end.

(** ** [labeled_logger] *)

Record labeled_logger := mk_labeled_logger { logger_ : logger L; label_ : text }.

Definition construct_labeled (l : option (logger L)) (label : text) : result labeled_logger :=
  outcome_bind (require_nonull l (Some "logger") (Some "mprpc::logging::labeled_logger::labeled_logger"))
    (λ l, Ok (mk_labeled_logger l label)).

Definition add_level (l : labeled_logger) (name : text) : labeled_logger :=
  mk_labeled_logger (logger_ l)
    (if decide (label_ l = []) then name else (label_ l ++ [Byte.x2e]) ++ name).
Definition construct_nested (l : labeled_logger) (name : text) : labeled_logger := add_level l name.

Definition labeled_write (l : labeled_logger) (location : text * Z * text) (level : log_level)
    (category : value_category) (format : text) (data : list D) : option labeled_logger :=
  let label := if decide (label_ l = []) then None else Some (c_str (label_ l)) in
  match write (logger_ l) label (Some location) level category format data with
  | Some l' => Some (mk_labeled_logger l' (label_ l))
  | None => None
  end.

(** The message of a log: what was asked for, or the text for errors. *)
Definition message_of (category : value_category) (format : text) (data : list D) : text :=
  match format_log_data preprocess get_id category format data with
  | Some (Ok m) => c_str m
  | _ => formatting_error_message
  end.

Lemma format_log_data_total category format data : format_log_data preprocess get_id category format data ≠ None.
Proof.
  unfold format_log_data. destruct data, category; try done; rewrite vformat_one_pass; apply one_pass_total.
Qed.

Lemma labeled_write_spec l location level category format data :
  labeled_write l location level category format data =
  Some (mk_labeled_logger
    (mk_logger (log_output_level_ (logger_ l))
      (if is_outputted_level (logger_ l) level then
         write_impl (impl_ (logger_ l))
           (mk_log_record (if decide (label_ l = []) then None else Some (c_str (label_ l)))
              (Some location) level (message_of category format data))
       else impl_ (logger_ l))) (label_ l)).
Proof.
  unfold labeled_write, write, message_of. pose proof (format_log_data_total category format data).
  destruct (is_outputted_level _ _); simpl.
  - destruct (format_log_data _ _ _ _ _) as [[m|e]|]; done.
  - by destruct (logger_ l).
Qed.
End logger.
Arguments labeled_logger : clear implicits.

(** ** [spdlog_logger] *)

Inductive spdlog_level : Type := sl_trace | sl_debug | sl_info | sl_warn | sl_err | sl_critical | sl_off.

Definition convert_log_level_to_spdlog (l : log_level) : spdlog_level :=
  match l with
  | trace => sl_trace
  | debug => sl_debug
  | info => sl_info
  | warn => sl_warn
  | error => sl_err
  | fatal => sl_critical
  | _ => sl_trace
  end.

(** [log_level_flag]: [format_impl] copies seven characters. *)
Definition format_impl (dest : text) (str : text) : text := dest ++ take 7 str.
Definition log_level_flag_format (dest : text) (l : spdlog_level) : text :=
  match l with
  | sl_trace => format_impl dest (text_of "[trace]")
  | sl_debug => format_impl dest (text_of "[debug]")
  | sl_info => format_impl dest (text_of "[info] ")
  | sl_warn => format_impl dest (text_of "[warn] ")
  | sl_err => format_impl dest (text_of "[error]")
  | sl_critical => format_impl dest (text_of "[fatal]")
  | sl_off => dest
  end.

(** A call of [spdlog::logger::log]. *)
Record spdlog_message := mk_spdlog_message {
  sm_source : option (text * Z * text);
  sm_level : spdlog_level;
  sm_payload : text;
}.

(** The logger of spdlog with the messages it was given; its [level] lets all of them pass. *)
Record spdlog_logger := mk_spdlog_logger { sd_level : spdlog_level; sd_messages : list spdlog_message }.

(** The constructor is [noexcept]: without a logger the program ends. *)
Definition construct_spdlog (l : option spdlog_logger) (output : log_level) : option (logger spdlog_logger) :=
  match l with
  | Some l => Some (mk_logger output (mk_spdlog_logger sl_trace (sd_messages l)))
  | None => None
  end.

(** Strings print as themselves; their format specifiers are a parameter. *)
Definition string_formatter (specs : list text → text → text → Z → result (text * nat * Z)) : Formatter text :=
  {| format_default := λ t, Ok t; format_specs := specs |}.

Section spdlog.
Context (specs : list text → text → text → Z → result (text * nat * Z)).
#[local] Instance spdlog_string_formatter : Formatter text := string_formatter specs.

(** What is logged for a record; an error of formatting is reported by spdlog. *)
Definition spdlog_payload (r : log_record) : option text :=
  match lr_label r with
  | Some label =>
      match vformat [label; lr_message r] (λ _, None) (text_of "[{}] {}") with
      | Some (Ok t) => Some t
      | _ => None
      end
  | None => Some (lr_message r)
  end.
Definition spdlog_write_impl (l : spdlog_logger) (r : log_record) : spdlog_logger :=
  match spdlog_payload r with
  | Some t =>
      mk_spdlog_logger (sd_level l)
        (sd_messages l ++ [mk_spdlog_message (lr_location r) (convert_log_level_to_spdlog (lr_level r)) t])
  | None => l
  end.
#[local] Instance spdlog_LoggerImpl : LoggerImpl spdlog_logger := spdlog_write_impl.

Lemma spdlog_payload_label label location level m :
  spdlog_payload (mk_log_record (Some label) location level m) =
  Some (Byte.x5b :: label ++ [Byte.x5d; Byte.x20] ++ m).
Proof.
  unfold spdlog_payload, vformat, parse_format_string. simpl. unfold on_replacement_field, get_arg. simpl.
  rewrite app_nil_r. done.
Qed.
End spdlog.

(** ** [python_logger_helper] *)

Section python.
Context {P : Type}.                       (* the Python objects *)
Context (write_func_ : P → text * text * Z * text * log_level * text → P * option exn).

Record python_logger := mk_python_logger { pl_objects : P; pl_cerr : list string }.

(** The overloads of [write_impl] fill in what they were not given. *)
Definition python_arguments (r : log_record) : text * text * Z * text * log_level * text :=
  let '(file, line, function) :=
    default (text_of "<unknown_file>", 0, text_of "<unknown_function>") (lr_location r) in
  (default (text_of "mprpc") (lr_label r), file, line, function, lr_level r, lr_message r).

Definition python_write_impl (l : python_logger) (r : log_record) : python_logger :=
  match write_func_ (pl_objects l) (python_arguments r) with
  | (o, None) => mk_python_logger o (pl_cerr l)
  | (o, Some e) =>
      mk_python_logger o (pl_cerr l ++ [("Error in mprpc::python_logger: " +:+ exception_ops.what e)%string])
  end.
End python.
Arguments python_logger : clear implicits.

(** ** Theorems *)

(** a log is written once, as it was meant: through a labeled logger on top of spdlog, a
    message below the output level changes nothing, and any other message is handed to spdlog
    exactly once, with its level, its location and its text, after the label in brackets when
    there is one; a text that cannot be formatted is replaced by a fixed one, never dropped. An
    output level of [none] silences every level that a message can have. *)
Theorem log_written_once {D A} `{Formatter A} specs (preprocess : D → A) get_id
    (l : labeled_logger spdlog_logger) location level category format data :
  let impl := spdlog_LoggerImpl specs in
  let m := message_of preprocess get_id category format data in
  labeled_write preprocess get_id l location level category format data =
  Some (mk_labeled_logger
    (mk_logger (log_output_level_ (logger_ l))
      (mk_spdlog_logger (sd_level (impl_ (logger_ l)))
        (sd_messages (impl_ (logger_ l)) ++
         if decide (level_to_int level < level_to_int (log_output_level_ (logger_ l))) then []
         else [mk_spdlog_message (Some location) (convert_log_level_to_spdlog level)
                 (if decide (label_ l = []) then m
                  else Byte.x5b :: c_str (label_ l) ++ [Byte.x5d; Byte.x20] ++ m)])))
    (label_ l)) ∧
  (log_output_level_ (logger_ l) = none → level ≠ none →
   labeled_write preprocess get_id l location level category format data = Some l).
Proof.
  intros impl m. assert (∀ lv, is_outputted_level (logger_ l) lv =
    negb (bool_decide (level_to_int lv < level_to_int (log_output_level_ (logger_ l))))) as Hout.
  { intros lv. unfold is_outputted_level. case_bool_decide; simpl; [apply Z.leb_gt|apply Z.leb_le]; lia. }
  rewrite labeled_write_spec, Hout. split.
  - do 2 f_equal. destruct (decide (_ < _)) as [Hlt|Hge].
    + rewrite bool_decide_eq_true_2 by done. simpl. rewrite app_nil_r. by destruct (impl_ (logger_ l)).
    + rewrite bool_decide_eq_false_2 by done. simpl. unfold write_impl, impl, spdlog_LoggerImpl, spdlog_write_impl.
      destruct (decide (label_ l = [])); [done|]. by rewrite spdlog_payload_label.
  - intros Hn Hl. rewrite Hn, bool_decide_eq_true_2 by (destruct level; done || (simpl; lia)).
    destruct l as [[out im] lb]. simpl in *. by rewrite Hn.
Qed.

(** a constant message without data is formatted too: given as a string literal or another
    constant, a message with single braces is replaced by the text for errors, and doubled
    braces are written as single ones; only text without braces is sure to be written as it is,
    while a message given as anything else always is. *)
Theorem constant_message_formatted {D A} `{Formatter A} (preprocess : D → A) message :
  message_of preprocess (λ _, None) const_lvalue message [] =
    match unescape message with
    | Some t => c_str t
    | None => formatting_error_message
    end ∧
  (open_brace ∉ message → close_brace ∉ message →
   message_of preprocess (λ _, None) const_lvalue message [] = c_str message) ∧
  message_of preprocess (λ _, None) other_value message [] = c_str message.
Proof.
  assert (message_of preprocess (λ _, None) const_lvalue message [] =
    match unescape message with Some t => c_str t | None => formatting_error_message end) as Hm.
  { unfold message_of, format_log_data. simpl map. rewrite vformat_one_pass.
    pose proof (one_pass_no_arguments (A := A) message 0) as Ho.
    destruct (unescape message) as [t|]; [by rewrite Ho|]. by destruct Ho as [e ->]. }
  split; [exact Hm|]. split; [|done]. intros Ho Hc. rewrite Hm.
  enough (unescape message = Some message) as -> by done. clear Hm.
  induction message as [|c s IH]; [done|]. apply not_elem_of_cons in Ho as [Ho Ho'].
  apply not_elem_of_cons in Hc as [Hc Hc']. simpl. rewrite decide_False by naive_solver. by rewrite IH.
Qed.

(** The labels of nested loggers are joined with dots; every level has a tag of seven
    characters, and exceptions of Python are contained. *)
Lemma nested_label {L} (l : labeled_logger L) names :
  label_ l ≠ [] →
  label_ (fold_left construct_nested names l) = label_ l ++ concat (map (λ n, Byte.x2e :: n) names).
Proof.
  revert l. induction names as [|n names IH]; intros l Hl; [by rewrite app_nil_r|].
  simpl. rewrite IH.
  - simpl. rewrite decide_False by done. by rewrite <-!app_assoc.
  - simpl. rewrite decide_False by done. by destruct (label_ l).
Qed.
Lemma tag_length dest level :
  length (log_level_flag_format dest (convert_log_level_to_spdlog level)) = (length dest + 7)%nat.
Proof. destruct level; simpl; unfold format_impl; by rewrite length_app. Qed.
Lemma python_write_contained {P} (f : P → text * text * Z * text * log_level * text → P * option exn) l r :
  pl_objects (python_write_impl f l r) = (f (pl_objects l) (python_arguments r)).1 ∧
  length (pl_cerr (python_write_impl f l r)) =
    (length (pl_cerr l) + match (f (pl_objects l) (python_arguments r)).2 with Some _ => 1 | None => 0 end)%nat.
Proof.
  unfold python_write_impl. destruct (f _ _) as [o [e|]]; simpl; [by rewrite length_app|]. split; [done|lia].
Qed.

Module sample_log.
#[local] Instance number_formatter : Formatter Z :=
  {| format_default := λ z, Ok [Z_to_byte (48 + z)]; format_specs := λ _ _ _ _, format_error "no specifiers" |}.
Definition specs (_ : list text) (_ _ : text) (_ : Z) : result (text * nat * Z) :=
  format_error "no specifiers".
Definition l0 : labeled_logger spdlog_logger :=
  construct_nested (mk_labeled_logger (mk_logger info (mk_spdlog_logger sl_trace [])) (text_of "mprpc"))
    (text_of "client").
Definition location : text * Z * text := (text_of "f.cpp", 7, text_of "f").

Lemma log_written_once_witness :
  labeled_write (λ z, z) (λ _, None) l0 location error const_lvalue (text_of "{} errors") [3]
    (H := spdlog_LoggerImpl specs) =
  Some (mk_labeled_logger (mk_logger info (mk_spdlog_logger sl_trace
    [mk_spdlog_message (Some location) sl_err (text_of "[mprpc.client] 3 errors")])) (text_of "mprpc.client")).
Proof.
  destruct (log_written_once specs (λ z : Z, z) (λ _, None) l0 location error const_lvalue
    (text_of "{} errors") [3]) as [Hw _].
  exact Hw.
Defined.

Lemma constant_message_formatted_witness :
  message_of (λ z : Z, z) (λ _, None) const_lvalue (text_of "started") [] = text_of "started" ∧
  message_of (λ z : Z, z) (λ _, None) const_lvalue (text_of "got {x}") [] = formatting_error_message.
Proof.
  destruct (constant_message_formatted (λ z : Z, z) (text_of "started")) as (_ & Hp & _).
  destruct (constant_message_formatted (λ z : Z, z) (text_of "got {x}")) as (He & _).
  split; [|exact He]. rewrite Hp; [reflexivity|apply (bool_decide_unpack _); exact I..].
Defined.
End sample_log.
