(* ===== verification/Compressor.v ===== *)
(** Compressors of outgoing data: include/mprpc/transport/compressor.h (the interface) and
    include/mprpc/transport/compressors/null_compressor.h. *)

From S2P Require Import Prelude Errors.

(** [compressor] and [streaming_compressor]: the streaming one keeps state between calls. *)
Class Compressor (C : Type) := {
  compress_once : C → message_data → result (message_data * C);
}.
Class StreamingCompressor (C : Type) := {
  init_compressor : C → result C;
  compress : C → message_data → result (message_data * C);
}.

(** ** Without compression *)

Record null_compressor := mk_null_compressor {}.
Record null_streaming_compressor := mk_null_streaming_compressor {}.

Definition null_compress (c : null_compressor) (data : message_data) :
    result (message_data * null_compressor) := Ok (data, c).
Definition null_streaming_init (c : null_streaming_compressor) :
    result null_streaming_compressor := Ok c.
Definition null_streaming_compress (c : null_streaming_compressor) (data : message_data) :
    result (message_data * null_streaming_compressor) := Ok (data, c).

#[export] Instance null_compressor_Compressor : Compressor null_compressor := {
  compress_once := null_compress }.
#[export] Instance null_compressor_StreamingCompressor :
    StreamingCompressor null_streaming_compressor := {
  init_compressor := null_streaming_init;
  compress := null_streaming_compress }.

(** [null_compressor_factory] *)
Definition null_create_compressor : null_compressor := mk_null_compressor.
Definition null_create_streaming_compressor : null_streaming_compressor :=
  mk_null_streaming_compressor.
