(* ===== verification/StreamSocket.v ===== *)
(** Reading and writing messages on a stream socket.

    Models impl/mprpc/transport/asio_helper/stream_socket_helper.h. Everything runs on one
    strand, so the helper is a state machine: each posted function and each completion
    handler is a step, given what the socket answers in it (the bytes read, the values of
    [available()], the error code), and produces the calls it makes. *)

From S2P Require Import Prelude Errors StreamParser Compressor.

(** What asio reports. *)
Inductive asio_error : Type :=
| asio_operation_aborted
| asio_eof
| asio_other (what : string).

Definition handler : Type := positive.

(** The calls that leave the helper: invocations of the handlers of the user and operations
    started on the socket. *)
Inductive action : Type :=
| call_read_handler (h : handler) (err : error_info) (data : message_data)
| call_write_handler (h : handler) (err : error_info)
| async_read_some (size : Z)
| async_write_bytes (data : message_data).

Section socket.
Context {P C : Type} `{StreamingParser P, StreamingCompressor C}.

(** The read in progress, with the size of its buffer, is the completion handler that asio
    holds. *)
Record stream_socket := mk_stream_socket {
  parser_ : P;
  compressor_ : C;
  writing_queue_ : list (message_data * handler);
  reading : option (handler * Z);
}.

(** Configuration, and what invoking a handler raises. *)
Context (streaming_min_buf_size : Z).
Context (read_raises : handler → error_info → message_data → option exn).
Context (write_raises : handler → error_info → option exn).

(** The state after a step, the calls made, and the exception that left it. *)
Definition step_answer : Type := stream_socket * list action * option exn.

Definition set_parser (s : stream_socket) (p : P) : stream_socket :=
  mk_stream_socket p (compressor_ s) (writing_queue_ s) (reading s).
Definition set_reading (s : stream_socket) (r : option (handler * Z)) : stream_socket :=
  mk_stream_socket (parser_ s) (compressor_ s) (writing_queue_ s) r.
Definition set_queue (s : stream_socket) (q : list (message_data * handler)) : stream_socket :=
  mk_stream_socket (parser_ s) (compressor_ s) q (reading s).
Definition set_compressor (s : stream_socket) (c : C) : stream_socket :=
  mk_stream_socket (parser_ s) c (writing_queue_ s) (reading s).

(** The constructor, with its null checks. *)
Definition construct (comp : option C) (parser : option P) : result stream_socket :=
  outcome_bind (require_nonull comp (Some "comp") (Some "stream_socket_helper")) (λ c,
  outcome_bind (require_nonull parser (Some "parser") (Some "stream_socket_helper")) (λ p,
  outcome_bind (init_compressor c) (λ c', Ok (mk_stream_socket p c' [] None)))).

(** ** Reading *)

(** [available] is what [socket_.available()] returns or throws. *)
Definition do_read_bytes (s : stream_socket) (h : handler) (available : result Z) :
    option step_answer :=
  match available with
  | Throw e => Some (s, [], Some e)
  | Ok available =>
      let buf_size := Z.max streaming_min_buf_size available in
      match prepare_buffer (parser_ s) buf_size with
      | None => None
      | Some (Ok p) =>
          Some (set_reading (set_parser s p) (Some (h, buf_size)), [async_read_some buf_size], None)
      | Some (Throw e) => Some (s, [], Some e)
      end
  end.

(** [parse_next]: the answer, the calls and the exception that leaves it. The handler runs
    inside the [try], so an [mprpc::exception] it throws makes it run again. *)
Definition parse_next_message (s : stream_socket) (h : handler) (num_bytes : Z) :
    option (stream_socket * list action * result bool) :=
  let report s acts info :=
    (s, acts ++ [call_read_handler h info None],
     match read_raises h info None with None => Ok true | Some e => Throw e end) in
  match parse_next (parser_ s) num_bytes with
  | None => None
  | Some (Ok true, p) =>
      match get p with
      | None => None
      | Some (message, p') =>
          let s' := set_parser s p' in
          let acts := [call_read_handler h error_info_ops.no_error message] in
          Some (match read_raises h error_info_ops.no_error message with
                | None => (s', acts, Ok true)
                | Some (mprpc_exception info) => report s' acts info
                | Some e => (s', acts, Throw e)
                end)
      end
  | Some (Ok false, p) => Some (set_parser s p, [], Ok false)
  | Some (Throw (mprpc_exception info), p) => Some (report (set_parser s p) [] info)
  | Some (Throw e, p) => Some (set_parser s p, [], Throw e)
  end.

(** [if (parse_next(...)) return; ... do_read_bytes(handler);] *)
Definition parse_or_read (s : stream_socket) (h : handler) (num_bytes : Z) (available : result Z) :
    option step_answer :=
  match parse_next_message s h num_bytes with
  | None => None
  | Some (s', acts, Ok true) => Some (s', acts, None)
  | Some (s', acts, Throw e) => Some (s', acts, Some e)
  | Some (s', acts, Ok false) =>
      match do_read_bytes s' h available with
      | None => None
      | Some (s'', acts', e) => Some (s'', acts ++ acts', e)
      end
  end.

(** [async_read], posted to the strand, calls [do_read_message]. *)
Definition do_read_message (s : stream_socket) (h : handler) (available : result Z) :
    option step_answer :=
  parse_or_read s h 0 available.

(** [on_read_bytes] with an error. *)
Definition on_read_error (s : stream_socket) (h : handler) (err : asio_error) : step_answer :=
  let call info :=
    (s, [call_read_handler h info None], read_raises h info None) in
  match err with
  | asio_operation_aborted => (s, [], None)
  | asio_eof => call (error_info_ops.make error_code.eof "connection closed")
  | asio_other what => call (error_info_ops.make error_code.failed_to_read what)
  end.

(** [on_read_bytes] after the bytes were put into the buffer: [available0] is the answer of
    [available()] here, [available1] that in [do_read_bytes]. *)
Definition on_read_bytes (s : stream_socket) (h : handler) (bytes : list byte)
    (available0 available1 : result Z) : option step_answer :=
  let s := set_parser s (buffer_write (parser_ s) bytes) in
  let num_bytes := Z.of_nat (length bytes) in
  match available0 with
  | Throw e => Some (s, [], Some e)
  | Ok available0 =>
      if available0 =? 0 then parse_or_read s h num_bytes available1
      else do_read_bytes (set_parser s (consumed (parser_ s) num_bytes)) h available1
  end.

(** ** Writing *)

Definition do_write (s : stream_socket) : step_answer :=
  match writing_queue_ s with
  | [] => (s, [], None)
  | (data, _) :: _ =>
      match compress (compressor_ s) data with
      | Ok (bytes, c) => (set_compressor s c, [async_write_bytes bytes], None)
      | Throw e => (s, [], Some e)
      end
  end.

Definition add_message_to_write (s : stream_socket) (data : message_data) (h : handler) :
    step_answer :=
  let start_writing := match writing_queue_ s with [] => true | _ => false end in
  let s := set_queue s (writing_queue_ s ++ [(data, h)]) in
  if start_writing then do_write s else (s, [], None).

(** [on_write]; [None] is an access to the front of an empty queue. *)
Definition on_write (s : stream_socket) (err : option asio_error) : option step_answer :=
  match err with
  | Some asio_operation_aborted => Some (s, [], None)
  | _ =>
      match writing_queue_ s with
      | [] => None
      | (_, h) :: q =>
          match err with
          | Some e =>
              let what := match e with asio_other w => w | _ => "End of file" end in
              let info := error_info_ops.make error_code.failed_to_write what in
              Some (s, [call_write_handler h info], write_raises h info)
          | None =>
              let acts := [call_write_handler h error_info_ops.no_error] in
              match write_raises h error_info_ops.no_error with
              | Some e => Some (s, acts, Some e)
              | None =>
                  let s := set_queue s q in
                  match q with
                  | [] => Some (s, acts, None)
                  | _ => let '(s', acts', e) := do_write s in Some (s', acts ++ acts', e)
                  end
              end
          end
      end
  end.
End socket.
Arguments stream_socket : clear implicits.
#[global] Arguments do_read_bytes : simpl never.

(** ** Delivery of messages *)

(** What happens to a reading socket: [async_read] is posted, or a read completes; the socket
    is open, so [available()] does not throw. *)
Inductive read_input : Type :=
| in_async_read (h : handler) (available : Z)
| in_bytes (bytes : list byte) (available0 available1 : Z).

Definition input_bytes (i : read_input) : list byte :=
  match i with in_async_read _ _ => [] | in_bytes bytes _ _ => bytes end.

(** The messages that read handlers received. *)
Definition delivered (acts : list action) : list (list byte) :=
  omap (λ a, match a with call_read_handler _ None (Some m) => Some m | _ => None end) acts.

Lemma delivered_app a b : delivered (a ++ b) = delivered a ++ delivered b.
Proof. apply omap_app. Qed.

Section delivery.
Context {P C : Type} `{StreamingParserSpec P, StreamingCompressor C}.
Context (min_buf : Z) (Hmin : 0 < min_buf).

(** Handlers that do not raise. *)
Definition quiet (_ : handler) (_ : error_info) (_ : message_data) : option exn := None.

Definition read_step (s : stream_socket P C) (i : read_input) : option step_answer :=
  match i with
  | in_async_read h available => do_read_message min_buf quiet s h (Ok available)
  | in_bytes bytes available0 available1 =>
      match reading s with
      | Some (h, _) =>
          on_read_bytes min_buf quiet (set_reading s None) h bytes (Ok available0) (Ok available1)
      | None => None
      end
  end.

(** One read at a time; a read completes with at most as many bytes as its buffer has; the
    bytes in memory can be counted in a [size_t]. *)
Definition valid_input (s : stream_socket P C) (received : list byte) (i : read_input) : Prop :=
  match i with
  | in_async_read _ available =>
      reading s = None ∧ Z.of_nat (length received) + Z.max min_buf available ≤ size_max
  | in_bytes bytes _ available1 =>
      (∃ h size, reading s = Some (h, size) ∧ Z.of_nat (length bytes) ≤ size) ∧
      Z.of_nat (length (received ++ bytes)) + Z.max min_buf available1 ≤ size_max
  end.

(** The histories of a reading socket: the bytes it received and the messages it
    delivered. *)
Inductive history : stream_socket P C → list byte → list (list byte) → Prop :=
| history_new c p room :
    represents p [] room → history (mk_stream_socket p c [] None) [] []
| history_step s received dl i s' acts :
    history s received dl → valid_input s received i →
    read_step s i = Some (s', acts, None) →
    history s' (received ++ input_bytes i) (dl ++ delivered acts).

(** Everything received is delivered or still unparsed in the buffer. *)
Definition accounts (received : list byte) (dl : list (list byte)) (data : list byte) : Prop :=
  split received = (let '(ms, r, e) := split data in (dl ++ ms, r, e)) ∧
  (length data ≤ length received)%nat.

Record socket_inv (s : stream_socket P C) (received : list byte) (dl : list (list byte))
    (data : list byte) (room : nat) : Prop := {
  inv_represents : represents (parser_ s) data room;
  inv_accounts : accounts received dl data;
  inv_reading : match reading s with
                | Some (_, size) => 0 < size ∧ Z.of_nat room = size
                | None => True
                end;
}.

Lemma accounts_receive received dl data bytes :
  accounts received dl data → accounts (received ++ bytes) dl (data ++ bytes).
Proof.
  intros [Hs Hl]. split; [|rewrite !length_app; lia].
  rewrite split_app, Hs, (split_app data). destruct (split data) as [[ms r] [e|]]; [done|].
  destruct (split (r ++ bytes)) as [[ms' r'] e']. by rewrite app_assoc.
Qed.

Lemma accounts_deliver received dl data m rest :
  accounts received dl data → decode data = decoded_message m rest →
  accounts received (dl ++ [m]) rest.
Proof.
  intros [Hs Hl] Hd. split; [|apply decode_shrinks in Hd; lia].
  rewrite Hs, split_unfold, Hd. destruct (split rest) as [[ms r] e]. by rewrite <-app_assoc.
Qed.

(** A read is started: nothing is lost. *)
Lemma do_read_bytes_inv s h received dl data room available s' acts :
  socket_inv s received dl data room →
  Z.of_nat (length received) + Z.max min_buf available ≤ size_max →
  do_read_bytes min_buf s h (Ok available) = Some (s', acts, None) →
  socket_inv s' received dl data (Z.to_nat (Z.max min_buf available)) ∧ delivered acts = [] ∧
  reading s' ≠ None.
Proof.
  intros [Hr [Hs Hl] _] Hmax. unfold do_read_bytes.
  destruct (prepare_buffer_spec (parser_ s) data room (Z.max min_buf available))
    as (r & -> & Hp); [done|lia|lia|].
  destruct r as [p|e]; [|done]. intros [= <- <-]. split; [|done].
  split; simpl; [done|done|lia].
Qed.

(** [parse_or_read] on the bytes received so far, the last of them just written. *)
Lemma parse_or_read_inv s h received dl data room bytes available s' acts :
  socket_inv s received dl data room → reading s = None → (length bytes ≤ room)%nat →
  Z.of_nat (length (received ++ bytes)) + Z.max min_buf available ≤ size_max →
  parse_or_read min_buf quiet (set_parser s (buffer_write (parser_ s) bytes)) h
    (Z.of_nat (length bytes)) (Ok available) = Some (s', acts, None) →
  ∃ data' room', socket_inv s' (received ++ bytes) (dl ++ delivered acts) data' room' ∧
    (reading s' ≠ None → decode data' = need_more).
Proof.
  intros [Hr Ha _] Hnone Hb Hmax. unfold parse_or_read, parse_next_message. simpl.
  destruct (parse_next_spec (parser_ s) data room bytes Hr Hb) as (r & p' & -> & Hc).
  pose proof (accounts_receive _ _ _ bytes Ha) as Ha'.
  destruct (decode (data ++ bytes)) as [|m rest|e] eqn:Hd.
  - destruct Hc as [-> Hrep].
    assert (socket_inv (set_parser s p') (received ++ bytes) dl (data ++ bytes) (room - length bytes))
      as Hinv by (split; simpl; [done|done|by rewrite Hnone]).
    destruct (do_read_bytes _ _ _ _) as [[[s'' acts''] [e|]]|] eqn:Hdo; intros [= <- <-].
    destruct (do_read_bytes_inv _ _ _ _ _ _ _ _ _ Hinv Hmax Hdo) as (Hinv' & -> & _).
    rewrite app_nil_r. eauto.
  - destruct Hc as [-> (p'' & -> & Hrep)]. unfold quiet. intros [= <- <-]. simpl.
    exists rest, (room - length bytes)%nat. split; [|by rewrite Hnone].
    split; simpl; [done|by eapply accounts_deliver|by rewrite Hnone].
  - destruct Hc as [-> Hrep].
    exists (data ++ bytes), (room - length bytes)%nat.
    destruct e as [info| | | | | | | | | |]; try discriminate. unfold quiet in *. simplify_eq/=.
    unfold error_info in *.
    split; [|by rewrite Hnone].
    split; simpl; [done| |by rewrite Hnone]. destruct info; simpl; by rewrite app_nil_r.
Qed.

Lemma read_step_inv s received dl data room i s' acts :
  socket_inv s received dl data room → valid_input s received i →
  read_step s i = Some (s', acts, None) →
  ∃ data' room',
    socket_inv s' (received ++ input_bytes i) (dl ++ delivered acts) data' room' ∧
    (match i with in_bytes _ available0 _ => available0 = 0 | _ => True end →
      reading s' ≠ None → decode data' = need_more).
Proof.
  intros Hinv Hv Hstep. destruct i as [h available|bytes a0 a1]; simpl in Hv, Hstep.
  - destruct Hv as [Hnone Hmax].
    destruct (parse_or_read_inv s h received dl data room [] available s' acts)
      as (data' & room' & Hi & Hn); [done|done|simpl; lia|by rewrite app_nil_r| |eauto].
    rewrite buffer_write_nil. by destruct s.
  - destruct Hv as [(h & size & Hread & Hlen) Hmax]. rewrite Hread in Hstep.
    pose proof Hinv as [Hr Ha Hroom]. rewrite Hread in Hroom.
    unfold on_read_bytes in Hstep. destruct (Z.eqb_spec a0 0) as [->|Ha0].
    + destruct (parse_or_read_inv (set_reading s None) h received dl data room bytes a1 s' acts)
        as (data' & room' & Hi & Hn); [by split|done|lia|done|done|eauto].
    + set (s1 := set_parser _ _) in Hstep.
      assert (socket_inv s1 (received ++ bytes) dl (data ++ bytes) (room - length bytes)) as Hinv1.
      { split; simpl; [|by apply accounts_receive|done]. apply consumed_spec; [done|lia]. }
      destruct (do_read_bytes_inv _ _ _ _ _ _ _ _ _ Hinv1 Hmax Hstep) as (Hinv' & -> & _).
      rewrite app_nil_r. do 2 eexists. split; [done|]. intros ->. done.
Qed.

Lemma history_inv s received dl :
  history s received dl → ∃ data room, socket_inv s received dl data room.
Proof.
  induction 1 as [c p room Hp|s received dl i s' acts _ (data & room & IH) Hv Hs].
  - exists [], room. split; [done| |done]. split; [|simpl; lia].
    by destruct (split []) as [[ms r] e].
  - destruct (read_step_inv _ _ _ _ _ _ _ _ IH Hv Hs) as (data' & room' & Hi & _). eauto.
Qed.

(** Every step of a reading socket comes to an end. *)
Definition may_escape (e : option exn) : Prop :=
  e = None ∨ e = Some std_bad_alloc ∨ ∃ data e', decode data = decode_error e' ∧ e = Some e'.

Lemma do_read_bytes_total s h received dl data room available :
  socket_inv s received dl data room →
  Z.of_nat (length received) + Z.max min_buf available ≤ size_max →
  ∃ s' acts e, do_read_bytes min_buf s h (Ok available) = Some (s', acts, e) ∧ may_escape e.
Proof.
  intros [Hr [Hs Hl] _] Hmax. unfold do_read_bytes, may_escape.
  destruct (prepare_buffer_spec (parser_ s) data room (Z.max min_buf available))
    as (r & -> & Hp); [done|lia|lia|].
  destruct r as [p|e]; [eauto 10|]. rewrite Hp. eauto 10.
Qed.

Lemma parse_or_read_total s h received dl data room bytes available :
  socket_inv s received dl data room → reading s = None → (length bytes ≤ room)%nat →
  Z.of_nat (length (received ++ bytes)) + Z.max min_buf available ≤ size_max →
  ∃ s' acts e, parse_or_read min_buf quiet (set_parser s (buffer_write (parser_ s) bytes)) h
    (Z.of_nat (length bytes)) (Ok available) = Some (s', acts, e) ∧ may_escape e.
Proof.
  intros [Hr Ha _] Hnone Hb Hmax. unfold parse_or_read, parse_next_message. simpl.
  destruct (parse_next_spec (parser_ s) data room bytes Hr Hb) as (r & p' & -> & Hc).
  destruct (decode (data ++ bytes)) as [|m rest|e] eqn:Hd.
  - destruct Hc as [-> Hrep].
    destruct (do_read_bytes_total (set_parser s p') h (received ++ bytes) dl (data ++ bytes)
      (room - length bytes) available) as (s'' & acts & e & Hs & He); [|done|].
    { split; simpl; [done|by apply accounts_receive|by rewrite Hnone]. }
    change (set_parser (set_parser s _) p') with (set_parser s p'). rewrite Hs. eauto 10.
  - destruct Hc as [-> (p'' & -> & _)]. unfold quiet, may_escape. eauto 10.
  - destruct Hc as [-> _]. unfold may_escape, quiet.
    destruct e; eauto 12.
Qed.

Lemma read_step_total s received dl data room i :
  socket_inv s received dl data room → valid_input s received i →
  ∃ s' acts e, read_step s i = Some (s', acts, e) ∧ may_escape e.
Proof.
  intros Hinv Hv. destruct i as [h available|bytes a0 a1]; simpl in Hv |- *.
  - destruct Hv as [Hnone Hmax].
    destruct (parse_or_read_total s h received dl data room [] available) as (s' & acts & e & Hs & He);
      [done|done|simpl; lia|by rewrite app_nil_r|].
    rewrite buffer_write_nil in Hs. exists s', acts, e. split; [|done]. rewrite <-Hs. by destruct s.
  - destruct Hv as [(h & size & Hread & Hlen) Hmax]. rewrite Hread.
    pose proof Hinv as [Hr Ha Hroom]. rewrite Hread in Hroom.
    unfold on_read_bytes. destruct (Z.eqb_spec a0 0) as [->|Ha0].
    + apply (parse_or_read_total (set_reading s None) h received dl data room); [by split|done|lia|done].
    + eapply do_read_bytes_total; [|done]. split; simpl.
      * apply consumed_spec; [done|lia].
      * by apply accounts_receive.
      * done.
Qed.
End delivery.

(** C5: what a stream socket delivers does not depend on how the bytes arrive: whatever the
    sizes of the pieces, the answers of [available()] and the moments at which reads are
    asked for, the messages given to the handlers are, in order, a prefix of the messages
    the whole stream splits into, and those still missing are in the bytes kept by the
    parser. *)
Theorem socket_delivery {P C} `{StreamingParserSpec P, StreamingCompressor C} min_buf
    (s : stream_socket P C) received dl :
  0 < min_buf → history min_buf s received dl →
  ∃ data room, represents (parser_ s) data room ∧
    let '(ms, r, e) := split data in split received = (dl ++ ms, r, e).
Proof.
  intros Hmin Hh. destruct (history_inv min_buf Hmin s received dl Hh) as (data & room & [Hr [Hs _] _]).
  exists data, room. split; [done|]. by destruct (split data) as [[ms r] e].
Qed.

(** no message waits while the socket does: when a socket goes on reading because a
    parse found nothing more, it has delivered all the messages of the bytes received. *)
Theorem socket_delivers_all {P C} `{StreamingParserSpec P, StreamingCompressor C} min_buf
    (s : stream_socket P C) received dl i s' acts :
  0 < min_buf → history min_buf s received dl → valid_input min_buf s received i →
  match i with in_bytes _ available0 _ => available0 = 0 | _ => True end →
  read_step min_buf s i = Some (s', acts, None) → reading s' ≠ None →
  ∃ r, split (received ++ input_bytes i) = (dl ++ delivered acts, r, None).
Proof.
  intros Hmin Hh Hv Ha Hs Hr.
  destruct (history_inv min_buf Hmin s received dl Hh) as (data & room & Hinv).
  destruct (read_step_inv min_buf Hmin s received dl data room i s' acts Hinv Hv Hs)
    as (data' & room' & [_ [Hsp _] _] & Hn).
  exists data'. rewrite Hsp, split_unfold, (Hn Ha Hr). by rewrite app_nil_r.
Qed.

(** a reading socket never gets stuck: every step returns, reads only bytes that were
    written, and lets no exception out but [bad_alloc] and the exceptions of the decoder. *)
Theorem socket_read_total {P C} `{StreamingParserSpec P, StreamingCompressor C} min_buf
    (s : stream_socket P C) received dl i :
  0 < min_buf → history min_buf s received dl → valid_input min_buf s received i →
  ∃ s' acts e, read_step min_buf s i = Some (s', acts, e) ∧
    (e = None ∨ e = Some std_bad_alloc ∨ ∃ data e', decode data = decode_error e' ∧ e = Some e').
Proof.
  intros Hmin Hh Hv. destruct (history_inv min_buf Hmin s received dl Hh) as (data & room & Hinv).
  exact (read_step_total min_buf Hmin s received dl data room i Hinv Hv).
Qed.

(** A socket with the msgpack parser that has received three bytes in two pieces. *)
Module sample.
Definition alloc_ok : Z → bool := λ _, true.
#[local] Instance parser_instance : StreamingParser msgpack_streaming_parser :=
  msgpack_StreamingParser alloc_ok.
#[local] Instance parser_spec : StreamingParserSpec msgpack_streaming_parser :=
  msgpack_StreamingParserSpec alloc_ok.

Definition socket := stream_socket msgpack_streaming_parser null_streaming_compressor.
Definition socket0 : socket := mk_stream_socket sample_parser mk_null_streaming_compressor [] None.
Definition after (s : socket) (i : read_input) : socket :=
  match read_step 8 s i with Some (s', _, _) => s' | None => s end.
Definition input1 : read_input := in_async_read 1%positive 0.
Definition input2 : read_input := in_bytes [Byte.x92; Byte.x01] 0 0.
Definition input3 : read_input := in_bytes [Byte.x02; Byte.x03] 0 0.
Definition socket1 : socket := after socket0 input1.
Definition socket2 : socket := after socket1 input2.
Definition socket3 : socket := after socket2 input3.

Lemma history0 : history 8 socket0 [] [].
Proof.
  apply (history_new 8 _ sample_parser 10).
  split; [split; unfold size_max; simpl; lia|reflexivity..].
Defined.
Lemma valid1 : valid_input 8 socket0 [] input1.
Proof. split; [reflexivity|]. unfold size_max. simpl. lia. Defined.
Lemma history1 : history 8 socket1 [] [].
Proof. exact (history_step 8 socket0 [] [] input1 socket1 [async_read_some 8] history0 valid1 eq_refl). Defined.
Lemma valid2 : valid_input 8 socket1 [] input2.
Proof. split; [by exists 1%positive, 8|]. unfold size_max. simpl. lia. Defined.
Lemma history2 : history 8 socket2 [Byte.x92; Byte.x01] [].
Proof. exact (history_step 8 socket1 [] [] input2 socket2 [async_read_some 8] history1 valid2 eq_refl). Defined.
Lemma valid3 : valid_input 8 socket2 [Byte.x92; Byte.x01] input3.
Proof. split; [by exists 1%positive, 8|]. unfold size_max. simpl. lia. Defined.
Lemma history3 :
  history 8 socket3 [Byte.x92; Byte.x01; Byte.x02; Byte.x03] [[Byte.x92; Byte.x01; Byte.x02]].
Proof.
  exact (history_step 8 socket2 _ [] input3 socket3
    [call_read_handler 1%positive None (Some [Byte.x92; Byte.x01; Byte.x02])] history2 valid3 eq_refl).
Defined.

Lemma socket_delivery_witness :
  ∃ data room, represents (parser_ socket3) data room ∧
    let '(ms, r, e) := split data in
    split [Byte.x92; Byte.x01; Byte.x02; Byte.x03] = ([[Byte.x92; Byte.x01; Byte.x02]] ++ ms, r, e).
Proof.
  apply (socket_delivery 8 socket3 [Byte.x92; Byte.x01; Byte.x02; Byte.x03]
    [[Byte.x92; Byte.x01; Byte.x02]]); [lia|exact history3].
Defined.

Lemma socket_delivers_all_witness :
  ∃ r, split ([] ++ [Byte.x92; Byte.x01]) = ([] ++ delivered [async_read_some 8], r, None).
Proof.
  apply (socket_delivers_all 8 socket1 [] [] input2 socket2 [async_read_some 8]);
    [lia|exact history1|exact valid2|reflexivity|reflexivity|discriminate].
Defined.

Lemma socket_read_total_witness :
  ∃ s' acts e, read_step 8 socket2 input3 = Some (s', acts, e) ∧
    (e = None ∨ e = Some std_bad_alloc ∨ ∃ data e', decode data = decode_error e' ∧ e = Some e').
Proof. apply (socket_read_total 8 socket2 [Byte.x92; Byte.x01] []); [lia|exact history2|exact valid3]. Defined.
End sample.

(** ** Order of writes *)

Section writing.
Context {P C : Type} `{StreamingCompressor C}.

Definition quiet_write (_ : handler) (_ : error_info) : option exn := None.

Definition sent (acts : list action) : list message_data :=
  omap (λ a, match a with async_write_bytes d => Some d | _ => None end) acts.
Definition notified (acts : list action) : list (handler * error_info) :=
  omap (λ a, match a with call_write_handler h e => Some (h, e) | _ => None end) acts.

(** Compressing a sequence of messages. *)
Fixpoint compress_all (c : C) (l : list message_data) : result (list message_data * C) :=
  match l with
  | [] => Ok ([], c)
  | d :: l' =>
      outcome_bind (compress c d) (λ '(b, c'),
      outcome_bind (compress_all c' l') (λ '(bs, c''), Ok (b :: bs, c'')))
  end.

Lemma compress_all_snoc c l d bs c' b c'' :
  compress_all c l = Ok (bs, c') → compress c' d = Ok (b, c'') →
  compress_all c (l ++ [d]) = Ok (bs ++ [b], c'').
Proof.
  revert c bs. induction l as [|x l IH]; intros c bs; simpl.
  - intros [= <- <-] Hd. by rewrite Hd.
  - destruct (compress c x) as [[b1 c1]|]; simpl; [|done].
    destruct (compress_all c1 l) as [[bs1 c2]|] eqn:E; simpl; [|done].
    intros [= <- <-] Hd. by rewrite (IH c1 bs1 E Hd).
Qed.

(** Histories of a writing socket, with handlers that throw what [raises] says: the messages
    submitted, the calls made, whether a write is in progress, and whether all went well so far:
    no write failed, no handler of a write threw and no message failed to be compressed. *)
Context (raises : handler → error_info → option exn).

Definition no_exn (e : option exn) : bool := match e with None => true | Some _ => false end.
Definition no_error (e : option asio_error) : bool := match e with None => true | Some _ => false end.
Definition starts_write (acts : list action) : bool := negb (bool_decide (sent acts = [])).

Inductive write_history (c0 : C) : stream_socket P C → list (message_data * handler) →
    list action → bool → bool → Prop :=
| write_history_new p : write_history c0 (mk_stream_socket p c0 [] None) [] [] false true
| write_history_submit s subs tr fl ok d h s' acts e :
    write_history c0 s subs tr fl ok → add_message_to_write s d h = (s', acts, e) →
    write_history c0 s' (subs ++ [(d, h)]) (tr ++ acts) (fl || starts_write acts) (ok && no_exn e)
| write_history_written s subs tr ok err s' acts e :
    write_history c0 s subs tr true ok → on_write raises s err = Some (s', acts, e) →
    write_history c0 s' subs (tr ++ acts) (starts_write acts) (ok && no_error err && no_exn e).

(** [done] were written. The front of the queue is being written while all is well; after that
    nothing is in progress, the queue is not empty, the front may have been sent, and its
    handler, with the outcome [last], may have been called. *)
Record write_inv (c0 : C) (s : stream_socket P C) subs tr (fl ok : bool) (done : list (message_data * handler))
    (k : nat) (last : list error_info) : Prop := {
  wi_queue : subs = done ++ writing_queue_ s;
  wi_notified : ∃ h, notified tr = map (λ p, (p.2, error_info_ops.no_error)) done ++ map (pair h) last ∧
    (last = [] ∨ ∃ d q, writing_queue_ s = (d, h) :: q);
  wi_sent : compress_all c0 (map fst (done ++ take k (writing_queue_ s))) = Ok (sent tr, compressor_ s);
  wi_ok : if ok then k = 1%nat ∧ last = [] ∧ fl = negb (bool_decide (writing_queue_ s = []))
    else (k ≤ 1)%nat ∧ (length last ≤ 1)%nat ∧ fl = false ∧ writing_queue_ s ≠ [];
}.

Lemma sent_app a b : sent (a ++ b) = sent a ++ sent b.
Proof. apply omap_app. Qed.
Lemma notified_app a b : notified (a ++ b) = notified a ++ notified b.
Proof. apply omap_app. Qed.

(** The next message of a socket that is well: [do_write] with [done] before it. *)
Lemma do_write_inv c0 s subs tr done d h q s' acts e :
  subs = done ++ writing_queue_ s → writing_queue_ s = (d, h) :: q →
  notified tr = map (λ p, (p.2, error_info_ops.no_error)) done →
  compress_all c0 (map fst done) = Ok (sent tr, compressor_ s) →
  do_write s = (s', acts, e) →
  ∃ k, write_inv c0 s' subs (tr ++ acts) (starts_write acts) (no_exn e) done k [].
Proof.
  intros -> Eq Hn Hs Hdo. unfold do_write in Hdo. rewrite Eq in Hdo.
  destruct (compress (compressor_ s) d) as [[b c']|ex] eqn:Ec; injection Hdo as <- <- <-.
  - exists 1%nat. split; simpl; rewrite ?Eq; [done| | |done].
    + exists h. rewrite notified_app, Hn. split; [done|by left].
    + rewrite map_app, sent_app. simpl. by eapply compress_all_snoc.
  - exists 0%nat. rewrite app_nil_r. split; simpl; rewrite ?Eq; [done| | |].
    + exists h. rewrite Hn, app_nil_r. split; [done|by left].
    + by rewrite app_nil_r.
    + split_and!; [lia|lia|done|done].
Qed.

Lemma submit_inv c0 s subs tr fl ok done k last d h s' acts e :
  write_inv c0 s subs tr fl ok done k last → add_message_to_write s d h = (s', acts, e) →
  ∃ k', write_inv c0 s' (subs ++ [(d, h)]) (tr ++ acts) (fl || starts_write acts) (ok && no_exn e) done k' last.
Proof.
  intros [Hq (h0 & Hn & Hl) Hs Hok] Ha. unfold add_message_to_write in Ha.
  destruct (writing_queue_ s) as [|[d1 h1] q] eqn:Eq; simpl in Ha.
  - destruct ok; [|by destruct Hok as (_ & _ & _ & ?)]. destruct Hok as (-> & -> & ->).
    rewrite app_nil_r in *. simpl. eapply do_write_inv; [| | | |exact Ha]; [simpl; by rewrite Hq|done|done|done].
  - injection Ha as <- <- <-. exists k. rewrite app_nil_r, orb_false_r, andb_true_r. split; simpl.
    + by rewrite Hq, <-app_assoc.
    + exists h0. split; [done|]. destruct Hl as [?|(d2 & q2 & [= -> -> ->])]; [by left|]. right. by eexists _, _.
    + destruct k as [|[|k]]; [done|done|]. destruct ok; destruct Hok as (? & _); lia.
    + destruct ok; destruct_and!; split_and!; done.
Qed.

Lemma written_inv c0 s subs tr ok done k last err s' acts e :
  write_inv c0 s subs tr true ok done k last → on_write raises s err = Some (s', acts, e) →
  ∃ done' k' last',
    write_inv c0 s' subs (tr ++ acts) (starts_write acts) (ok && no_error err && no_exn e) done' k' last'.
Proof.
  intros [Hq (h0 & Hn & Hl) Hs Hok] Ha.
  destruct ok; [|by destruct Hok as (_ & _ & ? & _)]. destruct Hok as (-> & -> & Hne).
  destruct (writing_queue_ s) as [|[d h] q] eqn:Eq; [by rewrite bool_decide_eq_true_2 in Hne|].
  rewrite app_nil_r in Hn. clear Hl Hne.
  (* the front stays in the queue, and its handler may have been called *)
  assert (∀ last acts, (length last ≤ 1)%nat → acts = map (call_write_handler h) last →
    write_inv c0 s subs (tr ++ acts) (starts_write acts) false done 1 last) as Hstall.
  { intros last acts' Hlen ->. assert (sent (map (call_write_handler h) last) = []) as Hsent.
    { clear. induction last as [|x last IH]; [done|exact IH]. }
    split; rewrite ?Eq; [done| | |].
    - exists h. rewrite notified_app, Hn. split; [|right; by eexists _, _]. f_equal.
      clear. induction last as [|x last IH]; [done|]. exact (f_equal (cons (h, x)) IH).
    - by rewrite sent_app, Hsent, app_nil_r.
    - unfold starts_write. rewrite Hsent. split_and!; [lia|done|done|done]. }
  destruct err as [[| |w]|]; simpl in Ha; rewrite ?Eq in Ha; rewrite ?andb_false_r; cbn [andb no_error].
  1: { injection Ha as <- <- <-. exists done, 1%nat, []. apply Hstall; [simpl; lia|done]. }
  1,2: injection Ha as <- <- _; eexists done, 1%nat, [_]; apply Hstall; [simpl; lia|done].
  destruct (raises h error_info_ops.no_error) as [ex|].
  { injection Ha as <- <- <-. exists done, 1%nat, [error_info_ops.no_error]. apply Hstall; [simpl; lia|done]. }
  exists (done ++ [(d, h)]). simpl in Hs. rewrite map_app in Hs. simpl in Hs.
  destruct q as [|[d1 h1] q].
  - injection Ha as <- <- <-. exists 1%nat, []. split; simpl; [by rewrite app_nil_r| | |done].
    + exists h. rewrite notified_app, Hn, map_app, !app_nil_r. split; [done|by left].
    + by rewrite sent_app, !app_nil_r, map_app.
  - destruct (do_write (set_queue s ((d1, h1) :: q))) as [[s1 acts1] e1] eqn:Ed. injection Ha as <- <- <-.
    destruct (do_write_inv c0 (set_queue s ((d1, h1) :: q)) subs
      (tr ++ [call_write_handler h error_info_ops.no_error]) (done ++ [(d, h)]) d1 h1 q s1 acts1 e1) as [k Hi].
    + by rewrite Hq, <-app_assoc.
    + done.
    + by rewrite notified_app, Hn, map_app.
    + by rewrite sent_app, app_nil_r, map_app.
    + done.
    + exists k, []. rewrite <-app_assoc in Hi. exact Hi.
Qed.

Lemma write_history_inv c0 s subs tr fl ok :
  write_history c0 s subs tr fl ok → ∃ done k last, write_inv c0 s subs tr fl ok done k last.
Proof.
  induction 1 as [p|s subs tr fl ok d h s' acts e _ (done & k & last & Hi) Ha
    |s subs tr ok err s' acts e _ (done & k & last & Hi) Ha].
  - exists [], 1%nat, []. split; simpl; try done. exists 1%positive. split; [done|by left].
  - destruct (submit_inv _ _ _ _ _ _ _ _ _ _ _ _ _ _ Hi Ha) as [k' Hi']. eauto.
  - by eapply written_inv.
Qed.

(** Messages submitted one after the other. *)
Fixpoint submit_all (s : stream_socket P C) (l : list (message_data * handler)) :
    stream_socket P C * list action :=
  match l with
  | [] => (s, [])
  | (d, h) :: l' =>
      let '(s', acts, _) := add_message_to_write s d h in
      let '(s'', acts') := submit_all s' l' in (s'', acts ++ acts')
  end.

Lemma submit_all_stalled s l : writing_queue_ s ≠ [] → (submit_all s l).2 = [].
Proof.
  revert s. induction l as [|[d h] l IH]; intros s Hq; [done|]. simpl.
  unfold add_message_to_write. destruct (writing_queue_ s) as [|x q] eqn:Eq; [done|].
  specialize (IH (set_queue s (writing_queue_ s ++ [(d, h)]))). rewrite Eq in IH. simpl in IH.
  destruct (submit_all _ l) as [s'' acts] eqn:Es. simpl in *. by apply IH.
Qed.
End writing.

(** C18: messages are written one at a time and in order, whatever happens: in every history of
    submissions and completed writes, with writes that fail, handlers that throw and messages
    that cannot be compressed, the handlers notified are those of the first messages [done], in
    order, once each and with success, then at most that of the next one, [last]; the bytes
    handed to the socket are the compression of [done] and of at most the next one. As long as
    nothing went wrong a write is in progress exactly while messages wait, and it is that of the
    next one; after the first failure no write is in progress any more, though the queue is not
    empty: the messages in it stay for ever. *)
Theorem socket_write_order {P C} `{StreamingCompressor C} raises c0
    (s : stream_socket P C) subs tr fl ok :
  write_history raises c0 s subs tr fl ok →
  ∃ done k last h, subs = done ++ writing_queue_ s ∧
    notified tr = map (λ p, (p.2, error_info_ops.no_error)) done ++ map (pair h) last ∧
    (last = [] ∨ ∃ d q, writing_queue_ s = (d, h) :: q) ∧
    compress_all c0 (map fst (done ++ take k (writing_queue_ s))) = Ok (sent tr, compressor_ s) ∧
    if ok then k = 1%nat ∧ last = [] ∧ fl = negb (bool_decide (writing_queue_ s = []))
    else (k ≤ 1)%nat ∧ (length last ≤ 1)%nat ∧ fl = false ∧ writing_queue_ s ≠ [].
Proof.
  intros Hh. destruct (write_history_inv raises c0 s subs tr fl ok Hh) as (done & k & last & [Hq (h & Hn & Hl) Hs Hok]).
  exists done, k, last, h. by split_and!.
Qed.

Module write_sample.
Definition socket := stream_socket msgpack_streaming_parser null_streaming_compressor.
Definition socket0 : socket := mk_stream_socket sample_parser mk_null_streaming_compressor [] None.
Definition socket1 : socket := (add_message_to_write socket0 (Some [Byte.x90]) 1%positive).1.1.
Definition socket2 : socket := (add_message_to_write socket1 (Some [Byte.x91; Byte.x00]) 2%positive).1.1.
Definition broken : error_info := error_info_ops.make error_code.failed_to_write "broken pipe".

(** Two messages are submitted, and the write of the first fails. *)
Lemma write_history1 :
  write_history quiet_write mk_null_streaming_compressor socket2
    [(Some [Byte.x90], 1%positive); (Some [Byte.x91; Byte.x00], 2%positive)]
    [async_write_bytes (Some [Byte.x90]); call_write_handler 1%positive broken] false false.
Proof.
  pose proof (write_history_submit quiet_write _ socket0 [] [] false true (Some [Byte.x90]) 1%positive socket1 _ None
    (write_history_new _ _ sample_parser) eq_refl) as W1.
  pose proof (write_history_submit quiet_write _ socket1 _ _ _ _ (Some [Byte.x91; Byte.x00]) 2%positive socket2 _ None
    W1 eq_refl) as W2.
  exact (write_history_written quiet_write _ socket2 _ _ _ (Some (asio_other "broken pipe")) socket2 _ None W2 eq_refl).
Defined.

Lemma socket_write_order_witness :
  ∃ done k last h,
    [(Some [Byte.x90], 1%positive); (Some [Byte.x91; Byte.x00], 2%positive)] = done ++ writing_queue_ socket2 ∧
    [(1%positive, broken)] = map (λ p, (p.2, error_info_ops.no_error)) done ++ map (pair h) last ∧
    compress_all mk_null_streaming_compressor (map fst (done ++ take k (writing_queue_ socket2))) =
      Ok ([Some [Byte.x90]], compressor_ socket2) ∧ writing_queue_ socket2 ≠ [].
Proof.
  destruct (socket_write_order quiet_write mk_null_streaming_compressor socket2 _ _ false false write_history1)
    as (done & k & last & h & Hq & Hn & _ & Hs & _ & _ & _ & Hne).
  exists done, k, last, h. split; [exact Hq|]. split; [exact Hn|]. split; [exact Hs|exact Hne].
Defined.
End write_sample.

(** a failed write is not removed from the queue: after it, messages can be submitted
    without end, but none of them is written and none of their handlers is called. *)
Theorem socket_write_error_stalls {P C} `{StreamingCompressor C}
    (s : stream_socket P C) what s' acts l :
  on_write quiet_write s (Some (asio_other what)) = Some (s', acts, None) →
  s' = s ∧ (submit_all s' l).2 = [].
Proof.
  unfold on_write. destruct (writing_queue_ s) as [|[d h] q] eqn:Eq; [done|].
  intros [= <- <-]. split; [done|]. apply submit_all_stalled. by rewrite Eq.
Qed.

Lemma socket_write_error_stalls_witness :
  let s : write_sample.socket :=
    mk_stream_socket sample_parser mk_null_streaming_compressor [(Some [Byte.x90], 1%positive)] None in
  s = s ∧ (submit_all s [(Some [Byte.x91], 2%positive)]).2 = [].
Proof.
  intros s. apply (socket_write_error_stalls s "broken pipe" s
    [call_write_handler 1%positive (error_info_ops.make error_code.failed_to_write "broken pipe")]).
  reflexivity.
Defined.
