(* ===== verification/TcpPeer.v ===== *)
(** One end of a TCP connection.

    A [tcp_session] or [tcp_connector] with the msgpack parser: the stream socket helper, the
    strand to which [async_read] and [async_write] post their work
    (impl/mprpc/transport/asio_helper/stream_socket_helper.h, async_read and async_write;
    impl/mprpc/transport/tcp/impl/tcp_session.h and tcp_connector.h forward to them), and
    whether a write is in progress. An event is what the operating system or the strand does
    next. *)

From S2P Require Import Prelude Errors Buffer MsgpackObject StreamParser Compressor StreamSocket.

Open Scope Z_scope.

(** A function posted to the strand. *)
Inductive strand_task : Type :=
| strand_read (h : handler)
| strand_write (d : message_data) (h : handler).

Abbreviation socket := (stream_socket msgpack_streaming_parser null_streaming_compressor).

Record peer := mk_peer {
  p_socket : socket;
  p_strand : list strand_task;
  p_writing : bool;           (* an [async_write] of asio is in progress *)
}.

Definition new_peer (parser : msgpack_streaming_parser) : peer :=
  mk_peer (mk_stream_socket parser mk_null_streaming_compressor [] None) [] false.

Definition async_read (p : peer) (h : handler) : peer :=
  mk_peer (p_socket p) (p_strand p ++ [strand_read h]) (p_writing p).
Definition async_write (p : peer) (d : message_data) (h : handler) : peer :=
  mk_peer (p_socket p) (p_strand p ++ [strand_write d h]) (p_writing p).

(** The strand runs its next function, which may ask how many bytes are available; the write
    in progress is completed; or bytes are read ([available0] is asked before parsing,
    [available1] before the next read). *)
Inductive peer_event : Type :=
| run_strand (available : Z)
| write_done
| bytes_read (bytes : list byte) (available0 available1 : Z).

Section peer.
Context (alloc_ok : Z → bool) (min_buf : Z).
#[local] Instance peer_parser : StreamingParser msgpack_streaming_parser :=
  msgpack_StreamingParser alloc_ok.

Definition started_write (acts : list action) : bool := negb (bool_decide (sent acts = [])).

(** The state and the calls of a step, and the exception that left it; [None] if the event
    cannot happen. *)
Definition peer_step (p : peer) (ev : peer_event) : option (peer * list action * option exn) :=
  match ev with
  | run_strand available =>
      match p_strand p with
      | [] => None
      | strand_read h :: q =>
          '(s, acts, e) ← do_read_message min_buf quiet (p_socket p) h (Ok available);
          Some (mk_peer s q (p_writing p), acts, e)
      | strand_write d h :: q =>
          let '(s, acts, e) := add_message_to_write (p_socket p) d h in
          Some (mk_peer s q (p_writing p || started_write acts), acts, e)
      end
  | write_done =>
      if p_writing p then
        '(s, acts, e) ← on_write quiet_write (p_socket p) None;
        Some (mk_peer s (p_strand p) (started_write acts), acts, e)
      else None
  | bytes_read bytes available0 available1 =>
      '(s, acts, e) ← read_step min_buf (p_socket p) (in_bytes bytes available0 available1);
      Some (mk_peer s (p_strand p) (p_writing p), acts, e)
  end.

(** What an event may be when [wire] are the bytes that were sent to this end and not read:
    a read gives at least one byte and at most as many as its buffer has, and [available()]
    counts only bytes that were sent. [rest] stays on the wire. *)
Definition event_on_wire (p : peer) (ev : peer_event) (wire rest : list byte) : Prop :=
  match ev with
  | bytes_read bytes available0 _ =>
      wire = bytes ++ rest ∧ bytes ≠ [] ∧ (available0 ≠ 0 → rest ≠ []) ∧
      ∃ h size, reading (p_socket p) = Some (h, size) ∧ Z.of_nat (length bytes) ≤ size
  | _ => wire = rest
  end.

(** The buffer of the read in progress can be counted in a [size_t]. *)
Definition in_memory (s : socket) : Prop :=
  match reading s with
  | Some (_, size) => consumed_buf_size_ (parser_ s) + size ≤ size_max
  | None => True
  end.

(** ** Views *)

(** The calls of read handlers. *)
Definition read_calls (acts : list action) : list (handler * error_info * message_data) :=
  omap (λ a, match a with call_read_handler h e d => Some (h, e, d) | _ => None end) acts.

(** The messages that are not on the wire: the front of the queue is. *)
Definition strand_writes (l : list strand_task) : list message_data :=
  omap (λ t, match t with strand_write d _ => Some d | _ => None end) l.
Definition outgoing (p : peer) : list message_data :=
  map fst (drop 1 (writing_queue_ (p_socket p))) ++ strand_writes (p_strand p).

(** The reads that are asked for. *)
Definition strand_reads (l : list strand_task) : list handler :=
  omap (λ t, match t with strand_read h => Some h | _ => None end) l.
Definition read_handlers (p : peer) : list handler :=
  match reading (p_socket p) with Some (h, _) => [h] | None => [] end ++ strand_reads (p_strand p).

(** Bytes of packed objects. *)
Definition packed (m : list byte) : Prop := ∃ o, wf_object o = true ∧ m = pack_object o.

(** ** Decoding a stream of packed objects *)

Lemma decode_packed_stream data rest msgs :
  data ++ rest = concat msgs → Forall packed msgs →
  match msgpack_decode data with
  | need_more => match msgs with [] => data = [] | m :: _ => (length data < length m)%nat end
  | decoded_message m r => ∃ msgs', msgs = m :: msgs' ∧ r ++ rest = concat msgs'
  | decode_error _ => False
  end.
Proof.
  intros Heq Hp. destruct Hp as [|m msgs (o & Hwf & ->) _]; simpl in Heq.
  { apply app_eq_nil in Heq as [-> ->]. done. }
  destruct (decide (length (pack_object o) ≤ length data)%nat) as [Hle|Hgt].
  - assert (data = pack_object o ++ drop (length (pack_object o)) data) as Hd.
    { rewrite <-(take_drop (length (pack_object o)) data) at 1. f_equal.
      apply (f_equal (take (length (pack_object o)))) in Heq.
      by rewrite take_app_le, take_app_length in Heq by done. }
    rewrite Hd, msgpack_decode_packed_aux by done. exists msgs. split; [done|].
    rewrite Hd, <-app_assoc in Heq. by apply app_inv_head in Heq.
  - assert (data = take (length data) (pack_object o)) as Hd.
    { apply (f_equal (take (length data))) in Heq.
      by rewrite take_app_length, take_app_le in Heq by lia. }
    destruct (msgpack_decode_packed o [] (length data) Hwf) as [_ Hn].
    rewrite Hd, Hn by lia. rewrite <-Hd. lia.
Qed.

(** Nothing is missing when nothing is on the wire. *)
Lemma short_stream (data rest : list byte) msgs :
  data ++ rest = concat msgs →
  match msgs with [] => data = [] | m :: _ => (length data < length m)%nat end → rest = [] → msgs = [].
Proof.
  intros Heq Hm ->. destruct msgs as [|m msgs]; [done|]. apply (f_equal length) in Heq.
  rewrite app_nil_r in Heq. simpl in Heq. rewrite length_app in Heq. lia.
Qed.

(** ** Reading *)

(** The socket holds the unparsed bytes [data]; a read in progress has the room it was
    promised. *)
Definition holds (s : socket) (data : list byte) : Prop :=
  ∃ room, msgpack_represents (parser_ s) data room ∧
    match reading s with Some (_, size) => 0 < size ∧ Z.of_nat room = size | None => True end.

Context (Hmin : 0 < min_buf).

Lemma do_read_bytes_holds (s : socket) h available data room s' acts :
  msgpack_represents (parser_ s) data room →
  do_read_bytes min_buf s h (Ok available) = Some (s', acts, None) → in_memory s' →
  holds s' data ∧ (∃ size, reading s' = Some (h, size)) ∧ writing_queue_ s' = writing_queue_ s ∧
  acts = [async_read_some (Z.max min_buf available)].
Proof.
  intros Hr Hdo Hmem. unfold do_read_bytes in Hdo.
  destruct (prepare_buffer (parser_ s) (Z.max min_buf available)) as [[q|e]|] eqn:Ep; [|done..].
  injection Hdo as <- <-. unfold in_memory in Hmem. simpl in Hmem.
  assert (consumed_buf_size_ q = Z.of_nat (length data)) as Hq.
  { pose proof Hr as [_ Hc _ _]. simpl in Ep. unfold msgpack_streaming_parser_ops.prepare_buffer in Ep.
    destruct (Buffer.resize _ _ _) as [[b|]|]; [|done..]. injection Ep as <-. exact Hc. }
  destruct (msgpack_prepare_spec alloc_ok (parser_ s) data room (Z.max min_buf available) Hr)
    as (r & Hp & Hr'); [lia|lia|].
  simpl in Ep. rewrite Hp in Ep. injection Ep as ->. split_and!; [|by eexists|done|done].
  exists (Z.to_nat (Z.max min_buf available)). split; [done|]. simpl. lia.
Qed.

(** Reading on a stream of packed objects: the next message is delivered once its bytes are
    there, and the socket goes on reading otherwise. *)
Lemma parse_or_read_stream (s : socket) h data room bytes rest msgs available s' acts :
  msgpack_represents (parser_ s) data room → reading s = None → (length bytes ≤ room)%nat →
  (data ++ bytes) ++ rest = concat msgs → Forall packed msgs →
  parse_or_read min_buf quiet (set_parser s (buffer_write (parser_ s) bytes)) h
    (Z.of_nat (length bytes)) (Ok available) = Some (s', acts, None) → in_memory s' →
  writing_queue_ s' = writing_queue_ s ∧ sent acts = [] ∧ notified acts = [] ∧
  ∃ data', holds s' data' ∧
    ((read_calls acts = [] ∧ data' = data ++ bytes ∧ (∃ size, reading s' = Some (h, size)) ∧
      (rest = [] → msgs = [])) ∨
     (∃ m msgs', msgs = m :: msgs' ∧ read_calls acts = [(h, error_info_ops.no_error, Some m)] ∧
       data' ++ rest = concat msgs' ∧ reading s' = None)).
Proof.
  intros Hr Hnone Hb Hs Hp Hst Hmem. unfold parse_or_read, parse_next_message in Hst. simpl in Hst.
  destruct (msgpack_parse_next_spec (parser_ s) data room bytes Hr Hb) as (r & p' & Hn & Hc).
  rewrite Hn in Hst. pose proof (decode_packed_stream _ _ _ Hs Hp) as Hd.
  destruct (msgpack_decode (data ++ bytes)) as [|m rst|e]; [| |done].
  - destruct Hc as [-> Hrep].
    destruct (do_read_bytes _ _ _ _) as [[[s'' acts''] [e|]]|] eqn:Edo; [done| |done].
    injection Hst as <- <-.
    destruct (do_read_bytes_holds (set_parser (set_parser s _) p') _ _ _ _ _ _ Hrep Edo Hmem) as (Hh & Hsz & Hq & ->).
    split_and!; [done|done|done|]. exists (data ++ bytes). split; [done|]. left.
    split_and!; [done|done|done|]. by eapply short_stream.
  - destruct Hc as [-> (p'' & Hg & Hrep)]. rewrite Hg in Hst. unfold quiet in Hst.
    injection Hst as <- <-. split_and!; [done..|]. exists rst. split.
    + exists (room - length bytes)%nat. split; [done|]. simpl. by rewrite Hnone.
    + right. destruct Hd as (msgs' & -> & Hm). exists m, msgs'. by split_and!.
Qed.

(** ** Writing *)

(** A write is in progress exactly while there are messages in the queue. *)
Definition writes_ok (p : peer) : Prop :=
  p_writing p = negb (bool_decide (writing_queue_ (p_socket p) = [])).

(** Writing leaves the reading side alone, and hands over the messages in order. *)
Lemma add_message_outgoing (s : socket) d h s' acts q w :
  writes_ok (mk_peer s q w) → add_message_to_write s d h = (s', acts, None) →
  writes_ok (mk_peer s' q (w || started_write acts)) ∧ parser_ s' = parser_ s ∧
  reading s' = reading s ∧ read_calls acts = [] ∧ notified acts = [] ∧
  sent acts ++ map fst (drop 1 (writing_queue_ s')) = map fst (drop 1 (writing_queue_ s)) ++ [d].
Proof.
  unfold writes_ok, add_message_to_write. simpl. destruct (writing_queue_ s) as [|x l] eqn:Eq; simpl.
  - intros -> [= <- <-]. done.
  - intros -> [= <- <-]. split_and!; try done. simpl. by rewrite !drop_0, map_app.
Qed.

Lemma on_write_outgoing (s : socket) s' acts q :
  writes_ok (mk_peer s q true) → on_write quiet_write s None = Some (s', acts, None) →
  writes_ok (mk_peer s' q (started_write acts)) ∧ parser_ s' = parser_ s ∧
  reading s' = reading s ∧ read_calls acts = [] ∧
  (∃ h, notified acts = [(h, error_info_ops.no_error)]) ∧
  sent acts ++ map fst (drop 1 (writing_queue_ s')) = map fst (drop 1 (writing_queue_ s)).
Proof.
  unfold writes_ok, on_write, quiet_write. simpl.
  destruct (writing_queue_ s) as [|[d h] [|[d' h'] l]] eqn:Eq; simpl; [done|..]; intros _ [= <- <-].
  - split_and!; try done. by eexists.
  - split_and!; try done. by eexists.
Qed.

Lemma on_write_enabled (s : socket) :
  writing_queue_ s ≠ [] → ∃ s' acts, on_write quiet_write s None = Some (s', acts, None).
Proof.
  unfold on_write, quiet_write. destruct (writing_queue_ s) as [|[d h] [|[d' h'] l]]; [done|..]; intros _.
  - by do 2 eexists.
  - simpl. by do 2 eexists.
Qed.

(** ** A step *)

(** What is known of an end whose incoming stream, from the bytes it holds on, is made of
    the messages [msgs]; one read is asked for, by [h]. A reading socket with nothing on the
    wire has delivered everything. *)
Record peer_inv (p : peer) (h : handler) (wire : list byte) (msgs : list (list byte)) (data : list byte) : Prop := {
  pv_holds : holds (p_socket p) data;
  pv_stream : data ++ wire = concat msgs;
  pv_packed : Forall packed msgs;
  pv_reads : read_handlers p = [h];
  pv_idle : reading (p_socket p) ≠ None → wire = [] → msgs = [];
  pv_writes : writes_ok p;
}.

(** The end after it delivered a message: no read is asked for. *)
Record peer_delivered (p : peer) (wire : list byte) (msgs : list (list byte)) (data : list byte) : Prop := {
  pd_holds : holds (p_socket p) data;
  pd_stream : data ++ wire = concat msgs;
  pd_packed : Forall packed msgs;
  pd_reads : read_handlers p = [];
  pd_writes : writes_ok p;
}.

Definition quiet_notifications (acts : list action) : Prop :=
  Forall (λ '(_, e), e = error_info_ops.no_error) (notified acts).

(** The outcome of a step for the reading side. *)
Definition read_outcome (p' : peer) (h : handler) rest msgs acts : Prop :=
  (read_calls acts = [] ∧ ∃ data', peer_inv p' h rest msgs data') ∨
  (∃ m msgs' data', msgs = m :: msgs' ∧ read_calls acts = [(h, error_info_ops.no_error, Some m)] ∧
    peer_delivered p' rest msgs' data').

(** From the answer of [parse_or_read]. *)
Lemma stream_outcome (s s' : socket) q w h rest msgs data bytes acts :
  writes_ok (mk_peer s q w) → strand_reads q = [] → Forall packed msgs →
  (data ++ bytes) ++ rest = concat msgs → writing_queue_ s' = writing_queue_ s →
  (∃ data', holds s' data' ∧
    ((read_calls acts = [] ∧ data' = data ++ bytes ∧ (∃ size, reading s' = Some (h, size)) ∧
      (rest = [] → msgs = [])) ∨
     (∃ m msgs', msgs = m :: msgs' ∧ read_calls acts = [(h, error_info_ops.no_error, Some m)] ∧
       data' ++ rest = concat msgs' ∧ reading s' = None))) →
  read_outcome (mk_peer s' q w) h rest msgs acts.
Proof.
  unfold writes_ok. simpl. intros Hw Hq Hp Hs Hwq (data' & Hh & Hor).
  destruct Hor as [(Hc & -> & [size Hr] & Hi)|(m & msgs' & -> & Hc & Hs' & Hr)].
  - left. split; [done|]. exists (data ++ bytes). split; simpl; [done|done|done| | |].
    + unfold read_handlers. simpl. by rewrite Hr, Hq.
    + intros _. exact Hi.
    + unfold writes_ok. simpl. by rewrite Hwq.
  - right. exists m, msgs', data'. split_and!; [done|done|]. apply list.Forall_cons in Hp as [_ Hp].
    split; simpl; [done|done|done| |].
    + unfold read_handlers. simpl. by rewrite Hr, Hq.
    + unfold writes_ok. simpl. by rewrite Hwq.
Qed.

Lemma read_one_handler (s : socket) q w h h' :
  read_handlers (mk_peer s (strand_read h' :: q) w) = [h] → reading s = None ∧ h' = h ∧ strand_reads q = [].
Proof. unfold read_handlers. simpl. destruct (reading s) as [[]|]; simpl; [done|]. by intros [= -> ->]. Qed.

Lemma reading_one_handler (s : socket) q w h h' size :
  read_handlers (mk_peer s q w) = [h] → reading s = Some (h', size) → h' = h ∧ strand_reads q = [].
Proof. unfold read_handlers. simpl. intros Hr Hre. rewrite Hre in Hr. by injection Hr as -> ->. Qed.

(** Steps that do not read. *)
Lemma keep_reading_inv (s s' : socket) q q' w w' h wire msgs data :
  peer_inv (mk_peer s q w) h wire msgs data → parser_ s' = parser_ s → reading s' = reading s →
  strand_reads q' = strand_reads q → writes_ok (mk_peer s' q' w') →
  peer_inv (mk_peer s' q' w') h wire msgs data.
Proof.
  intros [Hh Hs Hp Hr Hi Hw] Hpa Hre Hq Hw'. split; simpl in *; [|done|done| | |done].
  - destruct Hh as (room & Hrep & Hm). exists room. by rewrite Hpa, Hre.
  - unfold read_handlers in *. simpl in *. by rewrite Hre, Hq.
  - by rewrite Hre.
Qed.

Lemma bytes_read_outcome (s : socket) q w h wire msgs data bytes a0 a1 rest s' acts :
  peer_inv (mk_peer s q w) h wire msgs data →
  event_on_wire (mk_peer s q w) (bytes_read bytes a0 a1) wire rest →
  read_step min_buf s (in_bytes bytes a0 a1) = Some (s', acts, None) → in_memory s' →
  writing_queue_ s' = writing_queue_ s ∧ sent acts = [] ∧ notified acts = [] ∧
  read_outcome (mk_peer s' q w) h rest msgs acts.
Proof.
  intros [(room & Hrep & Hsz) Hs Hp Hr Hi Hw] (-> & Hne & Hav & h' & size & Hre & Hlen) Hst Hmem.
  simpl in Hsz, Hre, Hrep. rewrite Hre in Hsz. destruct (reading_one_handler _ _ _ _ _ _ Hr Hre) as [-> Hq].
  simpl in Hst. rewrite Hre in Hst. unfold on_read_bytes in Hst. rewrite app_assoc in Hs.
  destruct (Z.eqb_spec a0 0) as [->|Ha0].
  - destruct (parse_or_read_stream (set_reading s None) h data room bytes rest msgs a1 s' acts)
      as (Hq' & Hse & Hno & Hor); try done; [lia|].
    split_and!; [done..|]. by apply (stream_outcome s s' q w h rest msgs data bytes acts).
  - set (s1 := set_parser _ _) in Hst.
    assert (msgpack_represents (parser_ s1) (data ++ bytes) (room - length bytes)) as Hrep1.
    { simpl. apply msgpack_consumed_spec; [done|lia]. }
    destruct (do_read_bytes_holds _ _ _ _ _ _ _ Hrep1 Hst Hmem) as (Hh & Hsize & Hq' & ->).
    split_and!; [done..|]. apply (stream_outcome s s' q w h rest msgs data bytes); [done..|].
    exists (data ++ bytes). split; [done|]. left. split_and!; try done. intros Hnil. by destruct (Hav Ha0).
Qed.

Lemma peer_step_inv p h wire msgs data ev rest p' acts :
  peer_inv p h wire msgs data → event_on_wire p ev wire rest →
  peer_step p ev = Some (p', acts, None) → in_memory (p_socket p') →
  sent acts ++ outgoing p' = outgoing p ∧ quiet_notifications acts ∧ read_outcome p' h rest msgs acts.
Proof.
  destruct p as [s strand w]. intros Hinv Hev Hst Hmem.
  unfold outgoing, quiet_notifications. destruct ev as [available| |bytes a0 a1]; cbn [peer_step p_strand p_socket p_writing] in Hst.
  - cbn [event_on_wire] in Hev. subst rest. destruct strand as [|[h'|d h'] q]; [done|..].
    + apply bind_Some in Hst as ([[s' acts'] e] & Hdo & [= <- <- ->]).
      pose proof Hinv as [(room & Hrep & _) Hs Hp Hr _ Hw].
      destruct (read_one_handler _ _ _ _ _ Hr) as (Hre & -> & Hq). unfold do_read_message in Hdo.
      destruct (parse_or_read_stream s h data room [] wire msgs available s' acts')
        as (Hq' & -> & -> & Hor); try done; [simpl; lia|by rewrite app_nil_r| |].
      { rewrite msgpack_write_nil. by destruct s. }
      simpl. rewrite Hq'. split_and!; [done|by apply Forall_nil|].
      apply (stream_outcome s s' q w h wire msgs data []); try done. by rewrite app_nil_r.
    + destruct (add_message_to_write s d h') as [[s' acts'] e] eqn:Ea. injection Hst as <- <- ->.
      destruct (add_message_outgoing s d h' s' acts' q w) as (Hw' & Hpa & Hre & Hc & Hn & Hse);
        [by destruct Hinv|done|].
      rewrite Hn. split_and!; [|by apply Forall_nil|].
      * simpl. rewrite app_assoc, Hse, <-app_assoc. done.
      * left. split; [done|]. exists data. by apply (keep_reading_inv s _ (strand_write d h' :: q) _ w).
  - cbn [event_on_wire] in Hev. subst rest. destruct w; [|done].
    apply bind_Some in Hst as ([[s' acts'] e] & Hdo & [= <- <- ->]).
    destruct (on_write_outgoing s s' acts' strand) as (Hw' & Hpa & Hre & Hc & (h' & Hn) & Hse);
      [by destruct Hinv|done|].
    rewrite Hn. split_and!; [|by apply Forall_singleton|].
    + simpl. by rewrite app_assoc, Hse.
    + left. split; [done|]. exists data. by apply (keep_reading_inv s _ strand _ true).
  - apply bind_Some in Hst as ([[s' acts'] e] & Hdo & [= <- <- ->]).
    destruct (bytes_read_outcome s strand w h wire msgs data bytes a0 a1 rest s' acts' Hinv Hev Hdo Hmem)
      as (Hq & -> & -> & Hor). simpl. rewrite Hq. split_and!; [done|by apply Forall_nil|done].
Qed.

(** ** Work that is left at an end *)

Definition data_length (d : message_data) : nat := length (message_data_ops.bytes d).
Definition task_weight (x : strand_task) : nat :=
  match x with strand_read _ => 1 | strand_write d _ => data_length d + 3 end%nat.
Definition weight (p : peer) : nat :=
  (sum_list_with task_weight (p_strand p) +
   sum_list_with (λ x, data_length x.1 + 2) (drop 1 (writing_queue_ (p_socket p))) +
   (if p_writing p then 1 else 0))%nat.
Definition sent_length (acts : list action) : nat := sum_list_with data_length (sent acts).

Lemma add_message_weight (s : socket) d h s' acts q w :
  writes_ok (mk_peer s q w) → add_message_to_write s d h = (s', acts, None) →
  (weight (mk_peer s' q (w || started_write acts)) + sent_length acts <
   weight (mk_peer s (strand_write d h :: q) w))%nat.
Proof.
  unfold writes_ok, add_message_to_write, weight, sent_length. simpl.
  destruct (writing_queue_ s) as [|x l] eqn:Eq; simpl.
  - intros -> [= <- <-]. simpl. lia.
  - intros -> [= <- <-]. simpl. rewrite !drop_0, sum_list_with_app. simpl. lia.
Qed.

Lemma on_write_weight (s : socket) s' acts q :
  on_write quiet_write s None = Some (s', acts, None) →
  (weight (mk_peer s' q (started_write acts)) + sent_length acts < weight (mk_peer s q true))%nat.
Proof.
  unfold on_write, quiet_write, weight, sent_length. simpl.
  destruct (writing_queue_ s) as [|[d h] [|[d' h'] l]] eqn:Eq; simpl; [done|..]; intros [= <- <-]; simpl; [lia|].
  rewrite drop_0. lia.
Qed.

(** Every event leaves less to do, a message that it delivers apart. *)
Lemma peer_step_weight p h wire msgs data ev rest p' acts :
  peer_inv p h wire msgs data → event_on_wire p ev wire rest →
  peer_step p ev = Some (p', acts, None) → in_memory (p_socket p') →
  (weight p' + sent_length acts + length rest < weight p + length wire)%nat.
Proof.
  destruct p as [s strand w]. intros Hinv Hev Hst Hm. destruct ev as [available| |bytes a0 a1];
    cbn [peer_step p_strand p_socket p_writing] in Hst.
  - cbn [event_on_wire] in Hev. subst rest. destruct strand as [|[h'|d h'] q]; [done|..].
    + apply bind_Some in Hst as ([[s' acts'] e] & Hdo & [= <- <- ->]).
      pose proof Hinv as [(room & Hrep & _) Hs Hp Hr _ Hw].
      destruct (read_one_handler _ _ _ _ _ Hr) as (Hre & -> & Hq). unfold do_read_message in Hdo.
      destruct (parse_or_read_stream s h data room [] wire msgs available s' acts')
        as (Hq' & Hse & _); try done; [simpl; lia|by rewrite app_nil_r| |].
      { rewrite msgpack_write_nil. by destruct s. }
      unfold weight, sent_length. simpl. rewrite Hq', Hse. simpl. lia.
    + destruct (add_message_to_write s d h') as [[s' acts'] e] eqn:Ea. injection Hst as <- <- ->.
      pose proof (add_message_weight s d h' s' acts' q w) as Hlt. simpl in *.
      specialize (Hlt ltac:(by destruct Hinv) Ea). lia.
  - cbn [event_on_wire] in Hev. subst rest. destruct w; [|done].
    apply bind_Some in Hst as ([[s' acts'] e] & Hdo & [= <- <- ->]).
    pose proof (on_write_weight s s' acts' strand Hdo). lia.
  - apply bind_Some in Hst as ([[s' acts'] e] & Hdo & [= <- <- ->]).
    destruct (bytes_read_outcome s strand w h wire msgs data bytes a0 a1 rest s' acts' Hinv Hev Hdo Hm)
      as (Hq & Hse & _). destruct Hev as (-> & Hne & _).
    unfold weight, sent_length. simpl. rewrite Hq, Hse, length_app. simpl.
    destruct bytes; [done|]. simpl. lia.
Qed.

(** ** Progress *)

(** Messages that fit in memory together with the buffer of a read. *)
Definition small (m : list byte) : Prop := Z.of_nat (length m) + min_buf ≤ size_max.

Context (Hmem : ∀ n, alloc_ok n = true) (Hbuf : min_buf ≤ size_max).

Lemma do_read_bytes_enabled (s : socket) h data room :
  msgpack_represents (parser_ s) data room → Z.of_nat (length data) + min_buf ≤ size_max →
  ∃ s' acts, do_read_bytes min_buf s h (Ok 0) = Some (s', acts, None) ∧ in_memory s'.
Proof.
  intros [Hwf Hc _ _] Hl. unfold do_read_bytes. simpl. unfold msgpack_streaming_parser_ops.prepare_buffer.
  rewrite Hc, Z.max_l by lia. unfold wrap64. rewrite Z.mod_small by (unfold size_max in *; lia).
  destruct (resize_ok alloc_ok (buffer_ (parser_ s)) (Z.of_nat (length data) + min_buf) Hmem Hwf)
    as (b & -> & _); [lia|]. simpl. do 2 eexists. split; [done|]. unfold in_memory. simpl. lia.
Qed.

Lemma parse_or_read_enabled (s : socket) h data room bytes rest msgs :
  msgpack_represents (parser_ s) data room → reading s = None → (length bytes ≤ room)%nat →
  (data ++ bytes) ++ rest = concat msgs → Forall packed msgs → Forall small msgs →
  ∃ s' acts, parse_or_read min_buf quiet (set_parser s (buffer_write (parser_ s) bytes)) h
    (Z.of_nat (length bytes)) (Ok 0) = Some (s', acts, None) ∧ in_memory s'.
Proof.
  intros Hr Hnone Hb Hs Hp Hsm. unfold parse_or_read, parse_next_message. simpl.
  destruct (msgpack_parse_next_spec (parser_ s) data room bytes Hr Hb) as (r & p' & -> & Hc).
  pose proof (decode_packed_stream _ _ _ Hs Hp) as Hd.
  destruct (msgpack_decode (data ++ bytes)) as [|m rst|e]; [| |done].
  - destruct Hc as [-> Hrep].
    destruct (do_read_bytes_enabled (set_parser (set_parser s (buffer_write (parser_ s) bytes)) p') h
      (data ++ bytes) (room - length bytes)) as (s' & acts & Hdo & Hm); [done| |].
    { destruct Hsm as [|m msgs Hm _]; [rewrite Hd; simpl; lia|]. unfold small in Hm. lia. }
    simpl in Hdo. rewrite Hdo. eauto.
  - destruct Hc as [-> (p'' & -> & _)]. unfold quiet. do 2 eexists. split; [done|].
    unfold in_memory. simpl. by rewrite Hnone.
Qed.

(** The strand can run its next function. *)
Lemma strand_enabled p h wire msgs data :
  peer_inv p h wire msgs data → in_memory (p_socket p) → Forall small msgs → p_strand p ≠ [] →
  ∃ p' acts, peer_step p (run_strand 0) = Some (p', acts, None) ∧ in_memory (p_socket p') ∧
    p_strand p' = tail (p_strand p).
Proof.
  destruct p as [s strand w]. intros [(room & Hrep & _) Hs Hp Hr Hi Hw] Hm Hsm Hne.
  destruct strand as [|[h'|d h'] q]; [done|..]; simpl.
  - destruct (read_one_handler _ _ _ _ _ Hr) as (Hre & -> & Hq). unfold do_read_message.
    destruct (parse_or_read_enabled s h data room [] wire msgs) as (s' & acts & Hdo & Hm');
      try done; [simpl; lia|by rewrite app_nil_r|].
    simpl in Hdo. change (Z.of_nat 0) with 0 in Hdo. rewrite msgpack_write_nil in Hdo.
    replace (set_parser s (parser_ s)) with s in Hdo by (by destruct s). rewrite Hdo. simpl.
    by do 2 eexists.
  - unfold add_message_to_write. simpl in *. destruct (writing_queue_ s); simpl; do 2 eexists; by split_and!.
Qed.

Lemma write_enabled p :
  writes_ok p → in_memory (p_socket p) → p_writing p = true →
  ∃ p' acts, peer_step p write_done = Some (p', acts, None) ∧ in_memory (p_socket p').
Proof.
  intros Hw Hm Ht. unfold writes_ok in Hw. simpl. rewrite Ht in *. symmetry in Hw.
  apply negb_true_iff, bool_decide_eq_false in Hw.
  destruct (on_write_enabled _ Hw) as (s' & acts & Ho).
  destruct p as [s q w]. simpl in *. subst w.
  destruct (on_write_outgoing s s' acts q) as (_ & Hpa & Hre & _); [|done|].
  { unfold writes_ok. simpl. by rewrite bool_decide_false. }
  rewrite Ho. simpl. do 2 eexists. split; [done|]. unfold in_memory. simpl. by rewrite Hpa, Hre.
Qed.

(** A read in progress can take a byte from the wire. *)
Lemma bytes_enabled p h msgs data b rest :
  peer_inv p h (b :: rest) msgs data → Forall small msgs → reading (p_socket p) ≠ None →
  event_on_wire p (bytes_read [b] 0 0) (b :: rest) rest ∧
  ∃ p' acts, peer_step p (bytes_read [b] 0 0) = Some (p', acts, None) ∧ in_memory (p_socket p').
Proof.
  destruct p as [s q w]. intros [(room & Hrep & Hsz) Hs Hp Hr Hi Hw] Hsm Hre. simpl in *.
  destruct (reading s) as [[h' size]|] eqn:Er; [|done]. split.
  { split_and!; try done. exists h', size. split; [done|]. simpl. lia. }
  unfold on_read_bytes. simpl.
  destruct (parse_or_read_enabled (set_reading s None) h' data room [b] rest msgs) as (s' & acts & Hdo & Hm);
    try done; [simpl; lia|by rewrite <-app_assoc|].
  simpl in Hdo. rewrite Hdo. simpl. by do 2 eexists.
Qed.
End peer.
