(* ===== verification/Future.v ===== *)
(** Futures of responses.

    Models include/mprpc/response_future.h and include/mprpc/typed_response_future.h. All
    operations on the shared data take its mutex, so a program is a sequence of operations;
    a handler is not run by the operation but posted to the thread pool. *)

From S2P Require Import Prelude Errors MsgpackObject MsgpackUnpack MsgpackAdaptor Message.

(** ** [response_future_data] *)

Section future.
(** Handlers; [None] is an empty function object. *)
Context {H : Type}.

(** What the operations post to the thread pool: a handler with its arguments. *)
Definition task : Type := option H * error_info * message.

Record response_future_data := mk_response_future_data {
  has_response_ : bool;
  fd_error_ : error_info;
  fd_msg_ : message;
  has_handler_ : bool;
  on_response_ : option H;
}.

Definition construct : response_future_data :=
  mk_response_future_data false error_info_ops.no_error message_ops.empty false None.

Definition set_error (d : response_future_data) (error : error_info) :
    result (response_future_data * list task) :=
  if has_response_ d then
    throw_error error_code.invalid_future_use "this future already has a response or an error"
  else
    match on_response_ d with
    | None =>
        Ok (mk_response_future_data true error (fd_msg_ d) (has_handler_ d) (on_response_ d), [])
    | Some h =>
        Ok (mk_response_future_data true (fd_error_ d) (fd_msg_ d) (has_handler_ d) (on_response_ d),
            [(Some h, error, message_ops.empty)])
    end.

Definition set_response (d : response_future_data) (msg : message) :
    result (response_future_data * list task) :=
  if has_response_ d then
    throw_error error_code.invalid_future_use "this future already has a response or an error"
  else
    match on_response_ d with
    | None =>
        Ok (mk_response_future_data true (fd_error_ d) msg (has_handler_ d) (on_response_ d), [])
    | Some h =>
        Ok (mk_response_future_data true (fd_error_ d) (fd_msg_ d) (has_handler_ d) (on_response_ d),
            [(Some h, error_info_ops.no_error, msg)])
    end.

Definition set_handler (d : response_future_data) (handler : option H) :
    result (response_future_data * list task) :=
  if has_handler_ d then
    throw_error error_code.invalid_future_use "this future already has a handler"
  else if negb (has_response_ d) then
    Ok (mk_response_future_data (has_response_ d) (fd_error_ d) (fd_msg_ d) true handler, [])
  else
    Ok (mk_response_future_data (has_response_ d) (fd_error_ d) (fd_msg_ d) true (on_response_ d),
        [(handler, fd_error_ d, fd_msg_ d)]).

(** ** [response_future::then]: the shared data may be missing. *)
Definition require_data (data : option response_future_data) : result response_future_data :=
  match data with
  | Some d => Ok d
  | None => throw_error error_code.invalid_future_use "tried to use empty future"
  end.

Definition then_ (data : option response_future_data) (handler : option H) :
    result (response_future_data * list task) :=
  outcome_bind (require_data data) (λ d, set_handler d handler).

(** [response_future::get_future] does not check the pointer: [None] is its dereference. *)
Definition get_future (data : option response_future_data) (promise_handler : H) :
    option (result (response_future_data * list task)) :=
  match data with
  | Some d => Some (set_handler d (Some promise_handler))
  | None => None
  end.

(** ** Sequences of operations *)

Inductive future_op : Type :=
| op_set_error (e : error_info)
| op_set_response (m : message)
| op_set_handler (h : H).

Definition apply_op (d : response_future_data) (o : future_op) :
    result (response_future_data * list task) :=
  match o with
  | op_set_error e => set_error d e
  | op_set_response m => set_response d m
  | op_set_handler h => set_handler d (Some h)
  end.

(** A program of operations: the data after it and what every operation did, the tasks it
    posted or the exception it threw (and then it has changed nothing). *)
Fixpoint run_ops (d : response_future_data) (l : list future_op) :
    response_future_data * list (result (list task)) :=
  match l with
  | [] => (d, [])
  | o :: l' =>
      match apply_op d o with
      | Ok (d', ts) => let '(d'', rs) := run_ops d' l' in (d'', Ok ts :: rs)
      | Throw e => let '(d'', rs) := run_ops d l' in (d'', Throw e :: rs)
      end
  end.

(** The tasks posted by the operations that did not throw. *)
Definition posted_tasks (rs : list (result (list task))) : list task :=
  rs ≫= λ r, match r with Ok ts => ts | Throw _ => [] end.

(** What a future is: the first outcome and the first handler meet once. *)
Definition outcome_of (o : future_op) : option (error_info * message) :=
  match o with
  | op_set_error e => Some (e, message_ops.empty)
  | op_set_response m => Some (error_info_ops.no_error, m)
  | op_set_handler _ => None
  end.
Definition handler_of (o : future_op) : option H :=
  match o with op_set_handler h => Some h | _ => None end.

Definition first_outcome (l : list future_op) : option (error_info * message) :=
  head (omap outcome_of l).
Definition first_handler (l : list future_op) : option H := head (omap handler_of l).

Definition meeting (o : option (error_info * message)) (h : option H) : list task :=
  match o, h with
  | Some (e, m), Some h => [(Some h, e, m)]
  | _, _ => []
  end.

(** The data after a prefix that set [o] and [h]. *)
Definition holds (d : response_future_data) (o : option (error_info * message)) (h : option H) :
    Prop :=
  has_response_ d = bool_decide (is_Some o) ∧ has_handler_ d = bool_decide (is_Some h) ∧
  match o, h with
  | None, _ => on_response_ d = h ∧ fd_error_ d = error_info_ops.no_error ∧
               fd_msg_ d = message_ops.empty
  | Some (e, m), None => on_response_ d = None ∧ fd_error_ d = e ∧ fd_msg_ d = m
  | Some _, Some _ => True
  end.

Definition set_once {A} (old new : option A) : option A :=
  match old with Some _ => old | None => new end.

(** Tasks posted when [o], [h] become [o'], [h']. *)
Definition newly_met (o : option (error_info * message)) (h : option H) o' h' : list task :=
  match o, h with Some _, Some _ => [] | _, _ => meeting o' h' end.

Lemma apply_op_holds d o h op :
  holds d o h →
  let o' := set_once o (outcome_of op) in
  let h' := set_once h (handler_of op) in
  match apply_op d op with
  | Ok (d', ts) => holds d' o' h' ∧ ts = newly_met o h o' h'
  | Throw e => o' = o ∧ h' = h ∧ ∃ what, e = mprpc_exception (error_info_ops.make error_code.invalid_future_use what)
  end.
Proof.
  intros (Hr & Hh & Hd). destruct d as [r e m hh oh]. simpl in Hr, Hh, Hd. subst r hh.
  destruct op as [e'|m'|h'], o as [[e0 m0]|], h as [h0|]; simpl in *;
    destruct_and?; subst; simpl; unfold holds; simpl; split_and?; eauto.
Qed.

(** The exception of an operation on a future that has had such an operation. *)
Definition use_error (op : future_op) : exn :=
  mprpc_exception (error_info_ops.make error_code.invalid_future_use
    (match op with
     | op_set_handler _ => "this future already has a handler"
     | _ => "this future already has a response or an error"
     end)).

(** Whether a future that has [o] and [h] has had such an operation. *)
Definition used (o : option (error_info * message)) (h : option H) (op : future_op) : bool :=
  match op with op_set_handler _ => bool_decide (is_Some h) | _ => bool_decide (is_Some o) end.

Lemma apply_op_used d o h op :
  holds d o h →
  match apply_op d op with
  | Ok _ => used o h op = false
  | Throw e => used o h op = true ∧ e = use_error op
  end.
Proof.
  intros (Hr & Hh & Hd). destruct d as [r e m hh oh]. simpl in Hr, Hh, Hd. subst r hh.
  destruct op as [e'|m'|h'], o as [[e0 m0]|], h as [h0|]; simpl in *;
    destruct_and?; subst; simpl; done.
Qed.

Lemma run_ops_holds l d o h :
  holds d o h →
  holds (run_ops d l).1 (set_once o (first_outcome l)) (set_once h (first_handler l)) ∧
  posted_tasks (run_ops d l).2 =
    newly_met o h (set_once o (first_outcome l)) (set_once h (first_handler l)).
Proof.
  revert d o h. induction l as [|op l IH]; intros d o h Hd; simpl.
  - split; [|by destruct o as [[? ?]|], h]. by destruct o, h.
  - pose proof (apply_op_holds d o h op Hd) as Ha.
    destruct (apply_op d op) as [[d' ts]|e].
    + destruct Ha as [Hd' ->]. specialize (IH _ _ _ Hd').
      destruct (run_ops d' l) as [d'' rs]. simpl in *. destruct IH as [IH1 IH2].
      unfold posted_tasks in *. simpl. rewrite IH2.
      destruct op, o as [[? ?]|], h; simpl in *;
        unfold first_outcome, first_handler in *; simpl; try done;
        split; try done; destruct (head _) as [[? ?]|] || destruct (head _); done.
    + destruct Ha as (Ho & Hh & _). specialize (IH _ _ _ Hd).
      destruct (run_ops d l) as [d'' rs]. simpl in *. destruct IH as [IH1 IH2].
      unfold posted_tasks in *. simpl. rewrite IH2.
      destruct op, o as [[? ?]|], h; simpl in *; done.
Qed.

Lemma future_ops_app l1 l2 d :
  (run_ops d (l1 ++ l2)).2 = (run_ops d l1).2 ++ (run_ops (run_ops d l1).1 l2).2.
Proof.
  revert d. induction l1 as [|op l1 IH]; intros d; simpl; [done|].
  destruct (apply_op d op) as [[d' ts]|e].
  - specialize (IH d'). destruct (run_ops d' (l1 ++ l2)), (run_ops d' l1). simpl in *. by rewrite IH.
  - specialize (IH d). destruct (run_ops d (l1 ++ l2)), (run_ops d l1). simpl in *. by rewrite IH.
Qed.

Lemma run_ops_length l d : length (run_ops d l).2 = length l.
Proof.
  revert d. induction l as [|op l IH]; intros d; simpl; [done|].
  destruct (apply_op d op) as [[d' ts]|e].
  - specialize (IH d'). destruct (run_ops d' l). simpl in *. by rewrite IH.
  - specialize (IH d). destruct (run_ops d l). simpl in *. by rewrite IH.
Qed.
End future.
Arguments response_future_data : clear implicits.
Arguments task : clear implicits.
Arguments future_op : clear implicits.

(** ** Typed futures *)

Section typed.
Context {T : Type} `{Convert T}.

(** Calls to the two handlers of [then]. *)
Inductive typed_call : Type :=
| on_success (x : T)
| on_failure (e : error_info).

(** What the handlers of the user raise. *)
Context (success_raises : T → option exn) (failure_raises : error_info → option exn).

(** A call and the exception it lets out. *)
Definition call_success (x : T) : list typed_call * option exn :=
  ([on_success x], success_raises x).
Definition call_failure (e : error_info) : list typed_call * option exn :=
  ([on_failure e], failure_raises e).

(** [catch (const exception& e) { on_failure(e.info()); }] around calls. *)
Definition catching (r : list typed_call * option exn) : list typed_call * option exn :=
  match r with
  | (calls, Some (mprpc_exception info)) =>
      let '(calls', e) := call_failure info in (calls ++ calls', e)
  | _ => r
  end.

(** The handler for a message, inside the [try]: [has_error], then [error] or [result_as]. *)
Definition handle_message (msg : message) : option (list typed_call * option exn) :=
  match message_ops.has_error msg with
  | Throw e => Some ([], Some e)
  | Ok None => None
  | Ok (Some true) =>
      match message_ops.error msg with
      | Throw e => Some ([], Some e)
      | Ok None => None
      | Ok (Some o) =>
          match pack_data o with
          | Throw e => Some ([], Some e)
          | Ok d => Some (call_failure (error_info_ops.make_with_data
              error_code.unexpected_error "error on server" d))
          end
      end
  | Ok (Some false) =>
      match message_ops.result_as msg with
      | Throw e => Some ([], Some e)
      | Ok None => None
      | Ok (Some x) => Some (call_success x)
      end
  end.

(** The handler that [then] gives to the untyped future; [None] is a null dereference. *)
Definition typed_handler (error : error_info) (msg : message) :
    option (list typed_call * option exn) :=
  if error_info_ops.has_error error then Some (call_failure error)
  else
    match handle_message msg with
    | None => None
    | Some r => Some (catching r)
    end.

(** [then(handler)]: one handler for both, with a default-constructed result on failure. *)
Definition single_handler_args (c : typed_call) : error_info * T :=
  match c with
  | on_success x => (error_info_ops.no_error, x)
  | on_failure e => (e, init)
  end.

(** [get_future]: the handlers complete a [std::promise]. *)
Definition future_result (calls : list typed_call) : option (result T) :=
  match calls with
  | [on_success x] => Some (Ok x)
  | [on_failure e] => Some (Throw (mprpc_exception e))
  | _ => None
  end.
End typed.
Arguments typed_call : clear implicits.

(** [response_future::then(on_success, on_failure)] and the promise of
    [response_future::get_future]: the untyped dispatch. *)
Definition dispatch (error : error_info) (msg : message) : typed_call message :=
  if error_info_ops.has_error error then on_failure error else on_success msg.

(** [typed_response_future<void>]: the result is not looked at. *)
Section typed_void.
Context (success_raises : () → option exn) (failure_raises : error_info → option exn).

Definition handle_message_void (msg : message) : option (list (typed_call ()) * option exn) :=
  match message_ops.has_error msg with
  | Throw e => Some ([], Some e)
  | Ok None => None
  | Ok (Some true) =>
      match message_ops.error msg with
      | Throw e => Some ([], Some e)
      | Ok None => None
      | Ok (Some o) =>
          match pack_data o with
          | Throw e => Some ([], Some e)
          | Ok d => Some (call_failure failure_raises (error_info_ops.make_with_data
              error_code.unexpected_error "error on server" d))
          end
      end
  | Ok (Some false) => Some (call_success success_raises ())
  end.

Definition typed_void_handler (error : error_info) (msg : message) :
    option (list (typed_call ()) * option exn) :=
  if error_info_ops.has_error error then Some (call_failure failure_raises error)
  else
    match handle_message_void msg with
    | None => None
    | Some r => Some (catching failure_raises r)
    end.
End typed_void.

(** ** Theorems *)

(** C11: a future runs one handler once: whatever sequence of [set_error], [set_response] and
    [then] calls is made, in whatever order, the only task posted is the first handler with
    the first outcome; every call [op] after [l1] that comes after a call of its kind (an
    outcome after an outcome, a handler after a handler) throws [invalid_future_use] with the
    text of the code, and every other call returns, posting the task exactly if it brings the
    second of the two. *)
Theorem future_runs_once {H : Type} (l1 : list (future_op H)) (op : future_op H)
    (l2 : list (future_op H)) :
  let l := l1 ++ op :: l2 in
  posted_tasks (run_ops construct l).2 = meeting (first_outcome l) (first_handler l) ∧
  (run_ops construct l).2 !! length l1 =
    Some (if used (first_outcome l1) (first_handler l1) op then Throw (use_error op)
          else Ok (match op with
                   | op_set_error e => meeting (Some (e, message_ops.empty)) (first_handler l1)
                   | op_set_response m => meeting (Some (error_info_ops.no_error, m)) (first_handler l1)
                   | op_set_handler h => meeting (first_outcome l1) (Some h)
                   end)).
Proof.
  intros l. assert (holds (H := H) construct None None) as H0 by done. split.
  { by rewrite (proj2 (run_ops_holds l construct None None H0)). }
  unfold l. rewrite future_ops_app, lookup_app_r by by rewrite run_ops_length.
  rewrite run_ops_length, Nat.sub_diag.
  destruct (run_ops_holds l1 construct None None H0) as [Hd _]. simpl in Hd.
  set (d := (run_ops construct l1).1) in *. simpl.
  pose proof (apply_op_holds _ _ _ op Hd) as Ha. pose proof (apply_op_used _ _ _ op Hd) as Hu.
  destruct (apply_op d op) as [[d' ts]|e]; [|destruct (run_ops d l2), Hu as [-> ->]; done].
  destruct Ha as [_ ->]. rewrite Hu. destruct (run_ops d' l2). simpl.
  destruct op, (first_outcome l1) as [[? ?]|], (first_handler l1); done.
Qed.

Definition quiet_success {T} (_ : T) : option exn := None.
Definition quiet_failure (_ : error_info) : option exn := None.

Lemma typed_handler_response_aux {T} `{Convert T} m e x :
  type_ m = msgtype_response → error_ m = Some e → result_ m = Some x →
  (∀ o ex, convert (T := T) o = Throw ex → ex = msgpack_type_error) →
  typed_handler (T := T) quiet_success quiet_failure None m =
  Some ([if is_nil e then
           match convert x with
           | Ok y => on_success y
           | Throw _ => on_failure (error_info_ops.make_with_data error_code.invalid_message
               "failed to convert result" (Some (pack_object (handle m))))
           end
         else on_failure (error_info_ops.make_with_data error_code.unexpected_error
           "error on server" (Some (pack_object e)))], None).
Proof.
  intros Ht He Hx Hc. unfold typed_handler, handle_message, message_ops.has_error, message_ops.error,
    message_ops.result_as, message_ops.access_as, message_ops.get_result.
  simpl error_info_ops.has_error. rewrite !decide_True by done. rewrite He, Hx.
  destruct (is_nil e); simpl; [|done].
  destruct (convert x) as [y|ex] eqn:E; simpl; [done|]. by rewrite (Hc x ex E).
Qed.

(** the two handlers of a typed future are called exactly once in all, whatever arrives:
    an error goes to the failure handler; a response with an error to the failure handler with
    that error packed as its data; a response without error to the success handler if its
    result converts and to the failure handler otherwise; a message that is no response to the
    failure handler. *)
Theorem typed_future_one_call {T} `{Convert T} error m :
  wf_message m ∨ m = message_ops.empty →
  (∀ o e, convert (T := T) o = Throw e → e = msgpack_type_error) →
  ∃ c, typed_handler (T := T) quiet_success quiet_failure error m = Some ([c], None) ∧
    (error_info_ops.has_error error = true → c = on_failure error) ∧
    (∀ x, c = on_success x →
      error_info_ops.has_error error = false ∧ type_ m = msgtype_response ∧
      error_ m = Some NIL ∧ ∃ o, result_ m = Some o ∧ convert o = Ok x).
Proof.
  intros Hm Hc. unfold typed_handler. destruct (error_info_ops.has_error error) eqn:He.
  { eexists. split; [done|]. split; [done|]. intros x [=]. }
  destruct error as [i|]; [done|]. clear He.
  assert (type_ m ≠ msgtype_response →
    ∃ e, handle_message (T := T) quiet_success quiet_failure m = Some ([], Some (mprpc_exception e))) as Hno.
  { intros Ht. unfold handle_message, message_ops.has_error. rewrite decide_False by done. eauto. }
  destruct (decide (type_ m = msgtype_response)) as [Ht|Ht].
  - assert (is_Some (error_ m) ∧ is_Some (result_ m)) as [[e Hem] [o Hom]].
    { destruct Hm as [[[[Hr|Hr] _]|(_ & ? & ?)]| ->]; [rewrite Ht in Hr; discriminate Hr..|done|discriminate Ht]. }
    pose proof (typed_handler_response_aux m e o Ht Hem Hom Hc) as Hh. unfold typed_handler in Hh.
    simpl in Hh. rewrite Hh. eexists. split; [done|]. split; [done|]. intros x Hx.
    split_and!; [done..| |]; destruct e; simpl in Hx; try discriminate; [done|].
    exists o. split; [done|]. by destruct (convert o); simplify_eq.
  - destruct (Hno Ht) as [e ->]. simpl. eexists. split; [done|]. split; [done|]. intros x [=].
Qed.

Lemma typed_future_one_call_witness :
  ∃ c, typed_handler (T := int32) quiet_success quiet_failure None message_ops.empty = Some ([c], None).
Proof.
  destruct (typed_future_one_call (T := int32) None message_ops.empty (or_intror eq_refl)
    convert_int32_throws) as (c & Hc & _). exists c. exact Hc.
Defined.

(** a typed result arrives: what [pack_response] sends for a value is given to the success
    handler of the typed future as that value, and [get_future] holds it. *)
Theorem typed_result_arrives {T} `{RoundTrip T} id (x : T) :
  packable id = true → packable x = true → fits (object_of x) = true →
  (∀ o e, convert (T := T) o = Throw e → e = msgpack_type_error) →
  ∃ d m, pack_response id x = Ok d ∧ message_ops.make d = Ok m ∧
    typed_handler quiet_success quiet_failure None m = Some ([on_success x], None) ∧
    future_result [on_success x] = Some (Ok x).
Proof.
  intros Hi Hx Hf Hc. destruct (make_response_aux id x) as (d & Hd & Hm); [done..|].
  do 2 eexists. split; [done|]. split; [done|]. split; [|done].
  rewrite (typed_handler_response_aux _ NIL (object_of x)); [|done..]. simpl.
  by rewrite convert_object_of.
Qed.

Lemma typed_result_arrives_witness :
  ∃ d m, pack_response (mk_uint32 1) (mk_int32 (-5)) = Ok d ∧ message_ops.make d = Ok m ∧
    typed_handler quiet_success quiet_failure None m = Some ([on_success (mk_int32 (-5))], None) ∧
    future_result [on_success (mk_int32 (-5))] = Some (Ok (mk_int32 (-5))).
Proof. apply typed_result_arrives; [reflexivity..|exact convert_int32_throws]. Defined.
