(* ===== verification/ThreadPool.v ===== *)
(** The thread pool: include/mprpc/thread_pool.h and src/thread_pool.cpp.

    asio's [io_context] is a queue of functions: [post] appends one, and a thread inside
    [run] takes the next one and executes it. What executing a function raises is a parameter;
    which thread takes the next function is the choice of the scheduler. [post] stands for the
    moment at which the function reaches that queue: in a pool of one thread, a function posted
    by a running function is appended when that one has returned. [Scheduler] models the
    context itself and shows that it is such a queue and that no thread sleeps on work. *)

From S2P Require Import Prelude Errors.

Section pool.
Context {K : Type}.                        (* functions to execute *)
Context (raises : K → option exn).         (* what a function lets out *)

(** [impl]: [live] counts the threads of [threads] that are inside [process_in_thread],
    [started] is [!threads.empty()], [stopped] the state of the context. *)
Record thread_pool := mk_thread_pool {
  num_threads : nat;
  queue : list K;
  started : bool;
  live : nat;
  stopped : bool;
  has_on_error : bool;
  reported : list error_info;  (* calls of the handler [on_error] *)
}.

Definition construct (n : nat) : thread_pool := mk_thread_pool n [] false 0 false false [].

Definition on_error (p : thread_pool) (handler : bool) : thread_pool :=
  mk_thread_pool (num_threads p) (queue p) (started p) (live p) (stopped p) handler (reported p).

(** [start]: a context that was stopped lets its threads return at once. *)
Definition start (p : thread_pool) : thread_pool :=
  if started p then p
  else
    mk_thread_pool (num_threads p) (queue p) (negb (num_threads p =? 0)%nat)
      (if stopped p then 0%nat else num_threads p) (stopped p) (has_on_error p) (reported p).

(** [stop] joins the threads: none is left inside [run]. *)
Definition stop (p : thread_pool) : thread_pool :=
  if stopped p then p
  else mk_thread_pool (num_threads p) (queue p) false 0 true (has_on_error p) (reported p).

Definition post (p : thread_pool) (f : K) : thread_pool :=
  mk_thread_pool (num_threads p) (queue p ++ [f]) (started p) (live p) (stopped p)
    (has_on_error p) (reported p).

(** The two [catch] clauses of [process_in_thread] and [process_thread_error]. *)
Definition thread_error (e : exn) : error_info :=
  match e with
  | mprpc_exception info => info
  | _ => error_info_ops.make error_code.unexpected_error (exception_ops.what e)
  end.

(** A thread inside [run] executes the next function; an exception ends the thread. *)
Definition execute_next (p : thread_pool) : option (thread_pool * K) :=
  match live p, queue p with
  | S n, f :: q =>
      match raises f with
      | None =>
          Some (mk_thread_pool (num_threads p) q (started p) (S n) (stopped p) (has_on_error p)
                  (reported p), f)
      | Some e =>
          Some (mk_thread_pool (num_threads p) q (started p) n (stopped p) (has_on_error p)
                  (reported p ++ if has_on_error p then [thread_error e] else []), f)
      end
  | _, _ => None
  end.

(** ** Histories *)

Inductive pool_op : Type :=
| pool_on_error (handler : bool)
| pool_start
| pool_stop
| pool_post (f : K)
| pool_execute.

(** The functions posted and the functions executed, in order. *)
Inductive pool_history (n : nat) : thread_pool → list K → list K → Prop :=
| pool_new : pool_history n (construct n) [] []
| pool_on_error_step p ps es b :
    pool_history n p ps es → pool_history n (on_error p b) ps es
| pool_start_step p ps es : pool_history n p ps es → pool_history n (start p) ps es
| pool_stop_step p ps es : pool_history n p ps es → pool_history n (stop p) ps es
| pool_post_step p ps es f :
    pool_history n p ps es → pool_history n (post p f) (ps ++ [f]) es
| pool_execute_step p ps es p' f :
    pool_history n p ps es → execute_next p = Some (p', f) → pool_history n p' ps (es ++ [f]).

(** The functions that end a thread. *)
Definition raising (es : list K) : nat := length (omap raises es).

Lemma raising_app es es' : raising (es ++ es') = (raising es + raising es')%nat.
Proof. unfold raising. by rewrite omap_app, length_app. Qed.

Record pool_inv (n : nat) (p : thread_pool) (ps es : list K) : Prop := {
  pi_posted : ps = es ++ queue p;
  pi_num : num_threads p = n;
  pi_live : stopped p = false → started p = true → (live p + raising es = n)%nat;
  pi_idle : started p = false → stopped p = false → live p = 0%nat ∧ es = [];
  pi_stopped : stopped p = true → live p = 0%nat;
}.

Lemma pool_history_inv n p ps es : pool_history n p ps es → pool_inv n p ps es.
Proof.
  induction 1 as [|p ps es b _ [Hp Hn Hl Hi Hs]|p ps es _ [Hp Hn Hl Hi Hs]|p ps es _ [Hp Hn Hl Hi Hs]
    |p ps es f _ [Hp Hn Hl Hi Hs]|p ps es p' f _ [Hp Hn Hl Hi Hs] He].
  - by split.
  - by split.
  - unfold start. destruct (started p) eqn:Est; [split; rewrite ?Est; done|].
    destruct (stopped p) eqn:Esp; split; simpl; try done.
    + intros _ _. destruct (Hi eq_refl eq_refl) as [_ ->]. unfold raising. simpl. lia.
    + intros Hz _. destruct (Hi eq_refl eq_refl) as [_ ->]. split; [|done].
      destruct (num_threads p); [done|discriminate].
  - unfold stop. destruct (stopped p) eqn:Esp; split; simpl; try done; by rewrite Esp.
  - split; simpl; try done. subst ps. by rewrite <-app_assoc.
  - unfold execute_next in He. destruct (live p) as [|k] eqn:El; [done|].
    destruct (queue p) as [|f0 q] eqn:Eq; [done|].
    assert (stopped p = false) as Esp by (destruct (stopped p); [by specialize (Hs eq_refl)|done]).
    assert (started p = true) as Est.
    { destruct (started p); [done|]. by destruct (Hi eq_refl Esp). }
    specialize (Hl Esp Est).
    destruct (raises f0) as [e|] eqn:Er; injection He as <- <-; split; simpl; try done;
      try (by rewrite <-app_assoc); try (rewrite ?Est, ?Esp; done);
      intros _ _; rewrite raising_app; unfold raising at 2; simpl; rewrite Er; simpl; lia.
Qed.
End pool.
Arguments thread_pool : clear implicits.

(** functions run at most once and in the order in which they were posted: at every moment
    the functions executed are the first of those posted, and the others are still queued. *)
Theorem pool_fifo {K} (raises : K → option exn) n p ps es :
  pool_history raises n p ps es → ps = es ++ queue p.
Proof. intros Hh. by destruct (pool_history_inv raises n p ps es Hh). Qed.

Lemma pool_fifo_witness :
  [1%positive; 2%positive] = [] ++ queue (post (post (construct (K := positive) 1) 1%positive) 2%positive).
Proof.
  apply (pool_fifo (λ _, None) 1 _ [1%positive; 2%positive]).
  apply (pool_post_step (λ _, None) 1 _ [1%positive]), (pool_post_step (λ _, None) 1 _ []), pool_new.
Defined.

(** C39: an exception that leaves a function ends its thread for good: while the pool is
    started, the threads that still execute functions are those created minus one for every
    function that raised; after as many exceptions as threads nothing posted is ever executed,
    and starting the pool again changes nothing. *)
Theorem pool_threads_lost {K} (raises : K → option exn) n p ps es :
  pool_history raises n p ps es → started p = true → stopped p = false →
  (live p + raising raises es = n)%nat ∧
  (raising raises es = n → execute_next raises p = None ∧ start p = p).
Proof.
  intros Hh Hst Hsp. destruct (pool_history_inv raises n p ps es Hh) as [_ _ Hl _ _].
  specialize (Hl Hsp Hst). split; [done|]. intros Hr. unfold execute_next, start.
  assert (live p = 0%nat) as -> by lia. by rewrite Hst.
Qed.

Lemma pool_threads_lost_witness :
  let r := λ _ : positive, Some (std_runtime_error "x") in
  let p := mk_thread_pool 1 [2%positive] true 0 false false [] in
  (live p + raising r [1%positive] = 1)%nat ∧
  (raising r [1%positive] = 1%nat → execute_next r p = None ∧ start p = p).
Proof.
  intros r p. apply (pool_threads_lost r 1 p [1%positive; 2%positive] [1%positive]); [|reflexivity..].
  apply (pool_execute_step r 1 (mk_thread_pool 1 [1%positive; 2%positive] true 1 false false [])
    _ [] p 1%positive); [|reflexivity].
  apply (pool_post_step r 1 (mk_thread_pool 1 [1%positive] true 1 false false []) [1%positive] [] 2%positive).
  apply (pool_post_step r 1 (mk_thread_pool 1 [] true 1 false false []) [] [] 1%positive).
  apply (pool_start_step r 1 (construct 1)), pool_new.
Defined.
