(* ===== verification/Client.v ===== *)
(** The client: include/mprpc/client.h and include/mprpc/method_client.h.

    The promises are shared between the table of requests and the futures given to the user,
    so they live in a heap and the table holds their addresses. What is written goes to the
    connector; what handlers are to run goes to the thread pool. Operations take the mutex of
    the client, so a run of the client is a sequence of operations. *)

From S2P Require Import Prelude Errors MsgpackObject MsgpackUnpack MsgpackAdaptor Message Future.
From stdpp Require Import gmap.

Open Scope Z_scope.

Section client.
Context {H : Type}.   (* handlers of futures *)

Definition loc : Type := positive.

(** A request handed to the connector, with the message ID its write handler captured. *)
Record client := mk_client {
  next_msgid_ : Z;                                (* atomic, 32 bits *)
  requests_ : gmap Z loc;
  promises : gmap loc (response_future_data H);
  written : list message_data;
  reading : bool;                                 (* a read is in progress *)
  posted : list (task H);                         (* posted to the thread pool *)
  threads_started : bool;
  shut_down : bool;
}.

(** The constructor checks its pointers. *)
Definition construct_client (threads connector : option ()) : result client :=
  outcome_bind (require_nonull threads (Some "threads") (Some "mprpc::client::client")) (λ _,
  outcome_bind (require_nonull connector (Some "connector") (Some "mprpc::client::client")) (λ _,
  Ok (mk_client 0 ∅ ∅ [] false [] false false))).

Definition do_read (c : client) : client :=
  mk_client (next_msgid_ c) (requests_ c) (promises c) (written c) true (posted c)
    (threads_started c) (shut_down c).

Definition start (c : client) : client :=
  do_read (mk_client (next_msgid_ c) (requests_ c) (promises c) (written c) (reading c)
    (posted c) true (shut_down c)).

Definition stop (c : client) : client :=
  mk_client (next_msgid_ c) (requests_ c) (promises c) (written c) (reading c) (posted c)
    false true.

(** ** Requests *)

(** [fetch_add(1)] *)
Definition fetch_msgid (c : client) : Z * client :=
  (next_msgid_ c,
   mk_client (wrap32 (next_msgid_ c + 1)) (requests_ c) (promises c) (written c) (reading c)
     (posted c) (threads_started c) (shut_down c)).

Definition set_promise (c : client) (l : loc) (d : response_future_data H) : client :=
  mk_client (next_msgid_ c) (requests_ c) (<[l:=d]> (promises c)) (written c) (reading c)
    (posted c) (threads_started c) (shut_down c).

Definition write (c : client) (msg : message_data) : client :=
  mk_client (next_msgid_ c) (requests_ c) (promises c) (written c ++ [msg]) (reading c)
    (posted c) (threads_started c) (shut_down c).

Definition emplace (c : client) (msgid : Z) (l : loc) : client :=
  mk_client (next_msgid_ c) (<[msgid:=l]> (requests_ c)) (promises c) (written c) (reading c)
    (posted c) (threads_started c) (shut_down c).

(** The loop of [async_request]: [None] when the fuel runs out, or the exception of
    packing. The answer is the message ID. *)
Fixpoint request_loop {T} `{Pack T, Convert T} (fuel : nat) (c : client) (l : loc)
    (method : std_string) (params : T) : option (result Z * client) :=
  match fuel with
  | O => None
  | S fuel' =>
      let '(msgid, c) := fetch_msgid c in
      match pack_request (mk_uint32 msgid) method params with
      | Throw e => Some (Throw e, c)
      | Ok msg =>
          match requests_ c !! msgid with
          | Some _ => request_loop fuel' c l method params
          | None => Some (Ok msgid, write (emplace c msgid l) msg)
          end
      end
  end.

(** [async_request]: the promise is at a new address; as many turns as there are requests,
    plus one, are enough. *)
Definition async_request {T} `{Pack T, Convert T} (c : client) (method : std_string)
    (params : T) : option (result Z * client * loc) :=
  let l := fresh (dom (promises c)) in
  let c := set_promise c l construct in
  match request_loop (S (size (requests_ c))) c l method params with
  | None => None
  | Some (r, c') => Some (r, c', l)
  end.

Definition notify {T} `{Pack T, Convert T} (c : client) (method : std_string) (params : T) :
    result client :=
  outcome_bind (pack_notification method params) (λ msg, Ok (write c msg)).

(** [request]: waits for the future; [value] is what it holds when it is ready in time. *)
Definition request_answer {T} (method : string) (value : option (result T)) : result T :=
  match value with
  | None => throw_error error_code.timeout ("timeout in synchronous request for " +:+ method)
  | Some r => r
  end.

(** ** Completions *)

Definition post_tasks (c : client) (ts : list (task H)) : client :=
  mk_client (next_msgid_ c) (requests_ c) (promises c) (written c) (reading c)
    (posted c ++ ts) (threads_started c) (shut_down c).

(** An operation on the promise at an address. *)
Definition with_promise (c : client) (l : loc)
    (op : response_future_data H → result (response_future_data H * list (task H))) :
    client * option exn :=
  match promises c !! l with
  | None => (c, None)
  | Some d =>
      match op d with
      | Ok (d', ts) => (post_tasks (set_promise c l d') ts, None)
      | Throw e => (c, Some e)
      end
  end.

Definition erase (c : client) (msgid : Z) : client :=
  mk_client (next_msgid_ c) (delete msgid (requests_ c)) (promises c) (written c) (reading c)
    (posted c) (threads_started c) (shut_down c).

(** The handler of [do_write_request]: [requests_.at] throws when there is no entry. *)
Definition on_write (c : client) (msgid : Z) (error : error_info) : client * option exn :=
  if error_info_ops.has_error error then
    match requests_ c !! msgid with
    | None => (c, Some (std_out_of_range "_Map_base::at"))
    | Some l =>
        match with_promise c l (λ d, set_error d error) with
        | (c', None) => (erase c' msgid, None)
        | (c', Some e) => (c', Some e)
        end
    end
  else (c, None).

(** [for (auto& req : requests_) req.second.promise.set_error(error);]: an exception leaves
    the loop. *)
Fixpoint set_error_all (c : client) (reqs : list (Z * loc)) (error : error_info) :
    client * option exn :=
  match reqs with
  | [] => (c, None)
  | (_, l) :: reqs' =>
      match with_promise c l (λ d, set_error d error) with
      | (c', None) => set_error_all c' reqs' error
      | (c', Some e) => (c', Some e)
      end
  end.

Definition fail_all (c : client) (error : error_info) : client * option exn :=
  set_error_all c (map_to_list (requests_ c)) error.

Definition set_reading (c : client) (b : bool) : client :=
  mk_client (next_msgid_ c) (requests_ c) (promises c) (written c) b (posted c)
    (threads_started c) (shut_down c).

(** The body of the [try] in [on_read]. *)
Definition handle_response (c : client) (data : message_data) : client * option exn :=
  match message_ops.make data with
  | Throw e => (c, Some e)
  | Ok msg =>
      if decide (type_ msg = msgtype_response) then
        match requests_ c !! uint32_val (msgid_ msg) with
        | None => (c, None)
        | Some l => with_promise c l (λ d, set_response d msg)
        end
      else
        (c, Some (mprpc_exception (error_info_ops.make error_code.invalid_message
           "message type is not response")))
  end.

(** [on_read]: the read that completed is over; the [catch] clause passes the argument
    [error], which holds no error there. *)
Definition on_read (c0 : client) (error : error_info) (data : message_data) :
    client * option exn :=
  let c := set_reading c0 false in
  if error_info_ops.has_error error then fail_all c error
  else
    match handle_response (do_read c) data with
    | (c', Some (mprpc_exception _)) => fail_all c' error
    | r => r
    end.

(** [future.then(handler)] of the user, on the promise at an address. *)
Definition set_future_handler (c : client) (l : loc) (h : H) : client * option exn :=
  with_promise c l (λ d, set_handler d (Some h)).

(** ** [method_client]: a client together with the name of a method *)

Record method_client := mk_method_client { mc_client : client; mc_method : std_string }.

Definition method_async_request {T} `{Pack T, Convert T} (m : method_client) (params : T) :
    option (result Z * method_client * loc) :=
  match async_request (mc_client m) (mc_method m) params with
  | Some (r, c, l) => Some (r, mk_method_client c (mc_method m), l)
  | None => None
  end.
Definition method_request {T} (m : method_client) (value : option (result T)) : result T :=
  request_answer (String.string_of_list_byte (mc_method m)) value.
Definition method_notify {T} `{Pack T, Convert T} (m : method_client) (params : T) : result method_client :=
  outcome_bind (notify (mc_client m) (mc_method m) params) (λ c, Ok (mk_method_client c (mc_method m))).
End client.
Arguments client : clear implicits.
Arguments method_client : clear implicits.

(** ** Invariant *)

Section facts.
Context {H : Type}.
Implicit Types (c : client H) (l : loc).

(** Message IDs are 32-bit, requests have their own promises, all of them allocated. *)
Record client_inv c : Prop := {
  ci_next : 0 ≤ next_msgid_ c < 2 ^ 32;
  ci_ids : map_Forall (λ id _, 0 ≤ id < 2 ^ 32) (requests_ c);
  ci_inj : ∀ id id' l, requests_ c !! id = Some l → requests_ c !! id' = Some l → id = id';
  ci_alloc : ∀ id l, requests_ c !! id = Some l → is_Some (promises c !! l);
}.

(** ** The loop that looks for an unused message ID *)

Definition nth_id c (k : nat) : Z := wrap32 (next_msgid_ c + Z.of_nat k).

Lemma wrap32_range z : 0 ≤ wrap32 z < 2 ^ 32.
Proof. apply Z.mod_pos_bound. lia. Qed.

Lemma wrap32_add_l a b : wrap32 (wrap32 a + b) = wrap32 (a + b).
Proof. apply Zplus_mod_idemp_l. Qed.

Lemma nth_id_inj c j k :
  Z.of_nat j < 2 ^ 32 → Z.of_nat k < 2 ^ 32 → nth_id c j = nth_id c k → j = k.
Proof.
  unfold nth_id, wrap32. intros Hj Hk Heq.
  assert ((Z.of_nat j - Z.of_nat k) mod 2 ^ 32 = 0) as Hm.
  { replace (Z.of_nat j - Z.of_nat k)
      with ((next_msgid_ c + Z.of_nat j) - (next_msgid_ c + Z.of_nat k)) by lia.
    rewrite Zminus_mod, Heq, Z.sub_diag. done. }
  apply Z.mod_divide in Hm as [q Hq]; [|lia].
  assert (q = 0); [|lia]. nia.
Qed.

(** Fewer requests than message IDs: one of the next [size + 1] is unused. *)
Lemma unused_id c :
  Z.of_nat (size (requests_ c)) < 2 ^ 32 →
  ∃ k, (k ≤ size (requests_ c))%nat ∧ requests_ c !! nth_id c k = None.
Proof.
  intros Hsize. set (n := size (requests_ c)) in *.
  destruct (decide (Exists (λ k, requests_ c !! nth_id c k = None) (seq 0 (S n)))) as [He|He].
  { apply Exists_exists in He as (k & Hin & Hk). apply elem_of_seq in Hin.
    exists k. split; [lia|done]. }
  exfalso. set (ids := nth_id c <$> seq 0 (S n)).
  assert (NoDup ids) as Hnd.
  { apply NoDup_fmap_2_strong; [|apply NoDup_seq].
    intros j k Hj%elem_of_seq Hk%elem_of_seq. apply nth_id_inj; lia. }
  assert (list_to_set ids ⊆ dom (requests_ c)) as Hsub.
  { intros id (k & -> & Hk)%elem_of_list_to_set%list_elem_of_fmap.
    apply elem_of_dom. destruct (requests_ c !! nth_id c k) eqn:E; [eauto|].
    destruct He. apply Exists_exists. eauto. }
  apply subseteq_size in Hsub. rewrite size_list_to_set, size_dom in Hsub by done.
  unfold ids in Hsub. rewrite length_fmap, length_seq in Hsub. fold n in Hsub. lia.
Qed.

Record request_sent {T} `{Pack T, Convert T} c l (method : std_string) (params : T) (id : Z) c' : Prop := {
  rs_range : 0 ≤ id < 2 ^ 32;
  rs_fresh : requests_ c !! id = None;
  rs_table : requests_ c' = <[id:=l]> (requests_ c);
  rs_promises : promises c' = promises c;
  rs_written : ∃ msg, pack_request (mk_uint32 id) method params = Ok msg ∧
                      written c' = written c ++ [msg];
  rs_posted : posted c' = posted c;
  rs_next : 0 ≤ next_msgid_ c' < 2 ^ 32;
}.

Lemma request_loop_spec {T} `{PackSpec T, Convert T} fuel c l method (params : T) k :
  packable method = true → packable params = true → 0 ≤ next_msgid_ c < 2 ^ 32 →
  (k < fuel)%nat → requests_ c !! nth_id c k = None →
  ∃ id c', request_loop fuel c l method params = Some (Ok id, c') ∧
    request_sent c l method params id c'.
Proof.
  intros Hm Hp. revert c k. induction fuel as [|fuel IH]; intros c k Hn Hk Hnone; [lia|].
  cbn [request_loop fetch_msgid requests_].
  assert (packable (mk_uint32 (next_msgid_ c)) = true) as Hid.
  { apply andb_true_intro. simpl. split; [apply Z.leb_le|apply Z.ltb_lt]; lia. }
  destruct (pack_request_spec (mk_uint32 (next_msgid_ c)) method params Hid Hm Hp) as [Hpk _].
  rewrite Hpk. pose proof (wrap32_range (next_msgid_ c + 1)) as Hw.
  destruct (requests_ c !! next_msgid_ c) as [l'|] eqn:E.
  - destruct k as [|k].
    { unfold nth_id, wrap32 in Hnone. rewrite Z.add_0_r, Z.mod_small in Hnone by lia. congruence. }
    edestruct (IH (fetch_msgid c).2 k) as (id & c' & Hl & [? ? ? ? ? ? ?]); [done|lia| |].
    { rewrite <-Hnone. unfold nth_id. simpl. rewrite wrap32_add_l. do 2 f_equal. lia. }
    exists id, c'. split; [done|]. by split.
  - do 2 eexists. split; [done|]. split; simpl; eauto.
Qed.

(** A request that is sent keeps the invariant. *)
Lemma request_sent_inv {T} `{Pack T, Convert T} c l method (params : T) id c' :
  client_inv c → promises c !! l = None →
  request_sent (set_promise c l construct) l method params id c' → client_inv c'.
Proof.
  intros [_ Hids Hinj Hal] Hl [Hr Hf Ht Hpr _ _ Hn]. simpl in *.
  split; [done|..]; rewrite ?Ht, ?Hpr.
  - by apply map_Forall_insert_2.
  - intros i j l' Hi Hj. rewrite lookup_insert_Some in Hi, Hj.
    destruct Hi as [[<- <-]|[? Hi]], Hj as [[<- ?]|[? Hj]]; try done; try congruence.
    + apply Hal in Hj as [? Hj]. congruence.
    + subst l'. apply Hal in Hi as [? Hi]. congruence.
    + by eapply Hinj.
  - intros i l' [[<- <-]|[? Hi]]%lookup_insert_Some; [by rewrite lookup_insert_eq; eauto|].
    apply Hal in Hi as [? Hi]. rewrite lookup_insert_ne by congruence. eauto.
Qed.

Lemma async_request_aux {T} `{PackSpec T, Convert T} c method (params : T) :
  client_inv c → Z.of_nat (size (requests_ c)) < 2 ^ 32 →
  packable method = true → packable params = true →
  ∃ id c' l, async_request c method params = Some (Ok id, c', l) ∧
    promises c !! l = None ∧
    request_sent (set_promise c l construct) l method params id c' ∧ client_inv c'.
Proof.
  intros Hinv Hsize Hm Hp. unfold async_request.
  set (l := fresh (dom (promises c))).
  assert (promises c !! l = None) as Hl by (apply not_elem_of_dom, is_fresh).
  destruct (unused_id (set_promise c l construct) Hsize) as (k & Hk & Hnone).
  destruct (request_loop_spec (S (size (requests_ (set_promise c l construct))))
    (set_promise c l construct) l method params k) as (id & c' & -> & Hs);
    [done|done|apply Hinv|lia|done|].
  exists id, c', l. eauto using request_sent_inv.
Qed.

(** What a request that returned did. *)
Lemma request_loop_sent {T} `{Pack T, Convert T} fuel c l method (params : T) id c' :
  0 ≤ next_msgid_ c < 2 ^ 32 → request_loop fuel c l method params = Some (Ok id, c') →
  request_sent c l method params id c'.
Proof.
  revert c. induction fuel as [|fuel IH]; intros c Hn; [done|].
  cbn [request_loop fetch_msgid requests_]. pose proof (wrap32_range (next_msgid_ c + 1)) as Hw.
  destruct (pack_request (mk_uint32 (next_msgid_ c)) method params) as [msg|] eqn:Ep; [|done].
  destruct (requests_ c !! next_msgid_ c) eqn:E.
  - intros Hl. apply IH in Hl as [? ? ? ? ? ? ?]; [|done]. by split.
  - intros [= <- <-]. split; simpl; eauto.
Qed.

Lemma async_request_sent {T} `{Pack T, Convert T} c method (params : T) id c' l :
  client_inv c → async_request c method params = Some (Ok id, c', l) →
  promises c !! l = None ∧
  request_sent (set_promise c l construct) l method params id c' ∧ client_inv c'.
Proof.
  intros Hinv. unfold async_request.
  set (l0 := fresh (dom (promises c))).
  assert (promises c !! l0 = None) as Hl by (apply not_elem_of_dom, is_fresh).
  destruct (request_loop _ _ _ _ _) as [[r c0]|] eqn:E; [|done]. intros [= -> -> <-].
  apply request_loop_sent in E; [|apply Hinv]. eauto using request_sent_inv.
Qed.

(** ** Completions *)

Lemma with_promise_requests c l op : requests_ (with_promise c l op).1 = requests_ c.
Proof. unfold with_promise. destruct (promises c !! l); [|done]. by destruct (op _) as [[? ?]|]. Qed.

Lemma set_error_all_requests c reqs e : requests_ (set_error_all c reqs e).1 = requests_ c.
Proof.
  revert c. induction reqs as [|[id l] reqs IH]; intros c; [done|]. simpl.
  pose proof (with_promise_requests c l (λ d, set_error d e)) as Hw.
  destruct (with_promise c l _) as [c' [ex|]]; [done|]. by rewrite IH.
Qed.

(** A completed promise in the table makes the loop throw. *)
Definition completed c l : Prop := ∃ d, promises c !! l = Some d ∧ has_response_ d = true.

(** Operations that leave a completed promise completed, if they do not throw. *)
Definition keeps_response (op : response_future_data H → result (response_future_data H * list (task H))) :
    Prop :=
  ∀ d d' ts, op d = Ok (d', ts) → has_response_ d = true → has_response_ d' = true.

Lemma set_error_keeps e : keeps_response (λ d, set_error d e).
Proof. intros d d' ts. unfold set_error. intros Ho Hr. by rewrite Hr in Ho. Qed.
Lemma set_response_keeps m : keeps_response (λ d, set_response d m).
Proof. intros d d' ts. unfold set_response. intros Ho Hr. by rewrite Hr in Ho. Qed.
Lemma set_handler_keeps h : keeps_response (λ d, set_handler d h).
Proof.
  intros d d' ts. unfold set_handler. intros Ho Hr. rewrite Hr in Ho.
  destruct (has_handler_ d); [done|]. by injection Ho as <- _.
Qed.

Lemma with_promise_completed c l op l' :
  keeps_response op → completed c l' → completed (with_promise c l op).1 l'.
Proof.
  intros Hop (d & Hd & Hr). unfold with_promise. destruct (promises c !! l) as [d0|] eqn:E; [|by exists d].
  destruct (op d0) as [[d' ts]|] eqn:Eo; [|by exists d]. unfold completed. simpl.
  destruct (decide (l = l')) as [->|Hne].
  - rewrite lookup_insert_eq. exists d'. split; [done|]. apply (Hop _ _ _ Eo). congruence.
  - rewrite lookup_insert_ne by done. by exists d.
Qed.

Lemma set_error_all_completed c reqs e l : completed c l → completed (set_error_all c reqs e).1 l.
Proof.
  revert c. induction reqs as [|[id l'] reqs IH]; intros c Hc; [done|]. simpl.
  pose proof (with_promise_completed c l' _ l (set_error_keeps e) Hc) as Hw.
  destruct (with_promise c l' _) as [c' [ex|]]; [done|]. by apply IH.
Qed.

Lemma set_error_all_throws c reqs e id l :
  (id, l) ∈ reqs → completed c l →
  ∃ what, (set_error_all c reqs e).2 =
    Some (mprpc_exception (error_info_ops.make error_code.invalid_future_use what)).
Proof.
  revert c. induction reqs as [|[id' l'] reqs IH]; intros c Hin Hc; [by apply not_elem_of_nil in Hin|].
  simpl. destruct (with_promise c l' _) as [c' [ex|]] eqn:E.
  - simpl. unfold with_promise in E. destruct (promises c !! l') as [d|]; [|done].
    unfold set_error in E. destruct (has_response_ d); [|by destruct (on_response_ d)].
    injection E as _ <-. by eexists.
  - apply elem_of_cons in Hin as [[= <- <-]|Hin].
    + destruct Hc as (d & Hd & Hr). unfold with_promise in E. rewrite Hd in E.
      unfold set_error in E. by rewrite Hr in E.
    + apply IH; [done|]. pose proof (with_promise_completed c l' _ l (set_error_keeps e) Hc) as Hw. by rewrite E in Hw.
Qed.
End facts.

(** ** Runs of a client *)

Section runs.
Context {H : Type}.
Implicit Types (c : client H).

(** What can happen to a client: calls of its user, completions of its connector, and
    handlers attached to its futures; whether an exception leaves the operation or not. *)
Inductive client_step : client H → client H → Prop :=
| step_start c : client_step c (start c)
| step_stop c : client_step c (stop c)
| step_request {T} `{PackSpec T, Convert T} c name (args : T) id c' l :
    packable name = true → packable args = true →
    Z.of_nat (size (requests_ c)) < 2 ^ 32 →
    async_request c name args = Some (Ok id, c', l) → client_step c c'
| step_notify {T} `{Pack T, Convert T} c name (args : T) c' :
    notify c name args = Ok c' → client_step c c'
| step_on_write c id e c' ex : on_write c id e = (c', ex) → client_step c c'
| step_on_read c e d c' ex : on_read c e d = (c', ex) → client_step c c'
| step_then c l h c' ex : set_future_handler c l h = (c', ex) → client_step c c'.

Inductive client_reachable : client H → Prop :=
| reachable_new : client_reachable (mk_client 0 ∅ ∅ [] false [] false false)
| reachable_step c c' : client_reachable c → client_step c c' → client_reachable c'.

(** Operations that leave the IDs alone and only update promises. *)
Definition extends c c' : Prop :=
  next_msgid_ c' = next_msgid_ c ∧ requests_ c' ⊆ requests_ c ∧
  ∀ l, is_Some (promises c !! l) → is_Some (promises c' !! l).

Lemma extends_refl c : extends c c.
Proof. by split_and!. Qed.
Lemma extends_trans c c' c'' : extends c c' → extends c' c'' → extends c c''.
Proof.
  intros (Hn & Hr & Hp) (Hn' & Hr' & Hp'). split_and!; [congruence|by etrans|auto].
Qed.

Lemma extends_inv c c' : extends c c' → client_inv c → client_inv c'.
Proof.
  intros (Hn & Hr & Hp) [Hnx Hids Hinj Hal]. split.
  - by rewrite Hn.
  - intros id l Hl. eapply Hids, lookup_weaken; eauto.
  - intros id id' l Hl Hl'. eapply Hinj; eapply lookup_weaken; eauto.
  - intros id l Hl. eapply Hp, Hal, lookup_weaken; eauto.
Qed.

Lemma with_promise_extends c l op : extends c (with_promise c l op).1.
Proof.
  unfold with_promise. destruct (promises c !! l) as [d|]; [|apply extends_refl].
  destruct (op d) as [[d' ts]|]; [|apply extends_refl].
  split_and!; [done|done|]. simpl. intros l' Hl'. apply lookup_insert_is_Some.
  destruct (decide (l = l')); auto.
Qed.

Lemma set_error_all_extends c reqs e : extends c (set_error_all c reqs e).1.
Proof.
  revert c. induction reqs as [|[id l] reqs IH]; intros c; [apply extends_refl|]. simpl.
  pose proof (with_promise_extends c l (λ d, set_error d e)) as Hw.
  destruct (with_promise c l _) as [c' [ex|]]; [done|]. by eapply extends_trans.
Qed.

Lemma on_read_extends c e d : extends c (on_read c e d).1.
Proof.
  unfold on_read. destruct (error_info_ops.has_error e).
  { eapply extends_trans; [|apply set_error_all_extends]. by split_and!. }
  assert (∀ c1, extends c1 (handle_response c1 d).1) as Hh.
  { intros c1. unfold handle_response. destruct (message_ops.make d) as [m|ex]; [|apply extends_refl].
    case_decide; [|apply extends_refl].
    destruct (requests_ c1 !! _); [apply with_promise_extends|apply extends_refl]. }
  specialize (Hh (do_read (set_reading c false))).
  destruct (handle_response _ d) as [c' ex].
  assert (extends c c') as He by (eapply extends_trans; [|exact Hh]; by split_and!).
  destruct ex as [[]|]; try done.
  eapply extends_trans; [exact He|apply set_error_all_extends].
Qed.

Lemma on_write_extends c id e : extends c (on_write c id e).1.
Proof.
  unfold on_write. destruct (error_info_ops.has_error e); [|apply extends_refl].
  destruct (requests_ c !! id) as [l|]; [|apply extends_refl].
  pose proof (with_promise_extends c l (λ d, set_error d e)) as Hw.
  destruct (with_promise c l _) as [c' [ex|]]; [done|]. eapply extends_trans; [done|].
  split_and!; [done|apply delete_subseteq|done].
Qed.

Lemma client_step_inv c c' : client_step c c' → client_inv c → client_inv c'.
Proof.
  intros Hs IH. destruct Hs as [c|c|T ? ? ? c name args id c' l Hn Ha Hz Hr|T ? ? c name args c' Hr
    |c id e c' ex Hr|c e d c' ex Hr|c l h c' ex Hr].
  - by eapply extends_inv; [|exact IH]; split_and!.
  - by eapply extends_inv; [|exact IH]; split_and!.
  - destruct (async_request_aux c name args IH Hz Hn Ha) as (id' & c'' & l' & Hr' & _ & _ & ?).
    congruence.
  - unfold notify in Hr. apply outcome_bind_Ok_inv in Hr as (m & _ & [= <-]).
    by eapply extends_inv; [|exact IH]; split_and!.
  - eapply extends_inv; [|exact IH]. pose proof (on_write_extends c id e) as Hx. by rewrite Hr in Hx.
  - eapply extends_inv; [|exact IH]. pose proof (on_read_extends c e d) as Hx. by rewrite Hr in Hx.
  - eapply extends_inv; [|exact IH]. unfold set_future_handler in Hr.
    pose proof (with_promise_extends c l (λ d, set_handler d (Some h))) as Hx. by rewrite Hr in Hx.
Qed.

Lemma client_reachable_inv c : client_reachable c → client_inv c.
Proof.
  induction 1 as [|c c' _ IH Hs]; [|by eapply client_step_inv].
  split; [simpl; lia|apply map_Forall_empty|..]; intros *; simpl; by rewrite lookup_empty.
Qed.
End runs.

(** C15: a request always finds a message ID while there are fewer than 2^32 entries in the table:
    the loop of [async_request] ends within [size + 1] turns with an ID that no entry has, even
    when the counter wraps around; it registers a new promise under that ID and writes the
    request with that ID, and touches no other promise. *)
Theorem async_request_terminates {H T} `{PackSpec T, Convert T} (c : client H) name (args : T) :
  client_reachable c → Z.of_nat (size (requests_ c)) < 2 ^ 32 →
  packable name = true → packable args = true →
  ∃ id c' l msg, async_request c name args = Some (Ok id, c', l) ∧
    0 ≤ id < 2 ^ 32 ∧ requests_ c !! id = None ∧ promises c !! l = None ∧
    requests_ c' = <[id:=l]> (requests_ c) ∧ promises c' = <[l:=construct]> (promises c) ∧
    pack_request (mk_uint32 id) name args = Ok msg ∧ written c' = written c ++ [msg].
Proof.
  intros Hr%client_reachable_inv Hz Hn Ha.
  destruct (async_request_aux c name args Hr Hz Hn Ha) as
    (id & c' & l & -> & Hl & [? ? Ht Hp (msg & Hm & Hw) ? ?] & _).
  exists id, c', l, msg. simpl in *. split_and!; first [done|lia].
Qed.

Lemma async_request_terminates_witness :
  let c : client positive := mk_client 0 ∅ ∅ [] false [] false false in
  ∃ id c' l msg, async_request c [Byte.x61] sample_args = Some (Ok id, c', l) ∧
    0 ≤ id < 2 ^ 32 ∧ requests_ c !! id = None ∧ promises c !! l = None ∧
    requests_ c' = <[id:=l]> (requests_ c) ∧ promises c' = <[l:=construct]> (promises c) ∧
    pack_request (mk_uint32 id) [Byte.x61] sample_args = Ok msg ∧ written c' = written c ++ [msg].
Proof.
  intros c. apply async_request_terminates; [apply reachable_new|reflexivity..].
Defined.

(** a response completes exactly the request it answers: a message received while its
    request waits is stored in, or posted to the handler of, the promise registered under the
    message ID; every other promise is left as it was, the next read is in progress, and no
    exception leaves the handler. A response that no request waits for changes nothing. *)
Theorem response_routed {H} (c : client H) data m l d :
  message_ops.make data = Ok m → type_ m = msgtype_response →
  (requests_ c !! uint32_val (msgid_ m) = Some l → promises c !! l = Some d →
   has_response_ d = false →
   ∃ d' ts, set_response d m = Ok (d', ts) ∧ has_response_ d' = true ∧
     ts = match on_response_ d with Some h => [(Some h, error_info_ops.no_error, m)] | None => [] end ∧
     (on_read c None data).2 = None ∧
     promises (on_read c None data).1 = <[l:=d']> (promises c) ∧
     posted (on_read c None data).1 = posted c ++ ts ∧
     reading (on_read c None data).1 = true) ∧
  (requests_ c !! uint32_val (msgid_ m) = None →
   on_read c None data = (do_read (set_reading c false), None)).
Proof.
  intros Hm Ht. unfold on_read, handle_response. simpl. rewrite Hm, decide_True by done. split.
  - intros Hreq Hp Hr. rewrite Hreq. unfold with_promise. simpl. rewrite Hp.
    unfold set_response. rewrite Hr. destruct (on_response_ d) as [h|]; simpl;
      do 2 eexists; (split_and!; reflexivity).
  - intros Hreq. by rewrite Hreq.
Qed.

(** A client that waits for the response to the request with ID 0. *)
Definition waiting_client : client positive :=
  mk_client 1 {[0 := 1%positive]} {[1%positive := mk_response_future_data false None message_ops.empty
    true (Some 7%positive)]} [] true [] true false.
Definition response0 : message_data :=
  Some [Byte.x94; Byte.x01; Byte.x00; Byte.xc0; Byte.x05].
Definition message0 : message :=
  mk_message response0 (response_object (mk_uint32 0) NIL (POSITIVE_INTEGER 5)) msgtype_response
    (mk_uint32 0) [] None (Some NIL) (Some (POSITIVE_INTEGER 5)).

Lemma response_routed_witness :
  posted (on_read waiting_client None response0).1 =
    posted waiting_client ++ [(Some 7%positive, error_info_ops.no_error, message0)].
Proof.
  destruct (response_routed waiting_client response0 message0 1%positive
    (mk_response_future_data false None message_ops.empty true (Some 7%positive)) eq_refl eq_refl)
    as [Hr _].
  destruct (Hr eq_refl eq_refl eq_refl) as (d' & ts & _ & _ & -> & _ & _ & Hp & _). exact Hp.
Defined.

(** Reading a message never removes an entry, whether the response is delivered or not. *)
Lemma requests_never_shrink {H} (c : client H) error data :
  requests_ (on_read c error data).1 = requests_ c.
Proof.
  unfold on_read, fail_all. destruct (error_info_ops.has_error error).
  { by rewrite set_error_all_requests. }
  assert (∀ c1 : client H, requests_ (handle_response c1 data).1 = requests_ c1) as Hh.
  { intros c1. unfold handle_response. destruct (message_ops.make data); [|done].
    case_decide; [|done]. destruct (requests_ c1 !! _); [apply with_promise_requests|done]. }
  specialize (Hh (do_read (set_reading c false))).
  destruct (handle_response _ data) as [c' [[]|]]; simpl in *; try done.
  by rewrite set_error_all_requests.
Qed.

Lemma on_read_completed {H} (c : client H) e d l : completed c l → completed (on_read c e d).1 l.
Proof.
  intros Hc. unfold on_read. destruct (error_info_ops.has_error e); [by apply set_error_all_completed|].
  assert (completed (handle_response (do_read (set_reading c false)) d).1 l) as Hh.
  { unfold handle_response. destruct (message_ops.make d) as [m|ex]; [|done]. case_decide; [|done].
    destruct (requests_ _ !! _); [apply with_promise_completed; [apply set_response_keeps|done]|done]. }
  destruct (handle_response _ d) as [c' [[]|]]; try done. by apply set_error_all_completed.
Qed.

(** Whatever happens to a client, a request that was answered stays in its table. *)
Lemma answered_stays {H} (c c' : client H) id l :
  client_inv c → client_step c c' → requests_ c !! id = Some l → completed c l →
  requests_ c' !! id = Some l ∧ completed c' l.
Proof.
  intros Hi Hs Hid Hc. destruct Hs as [c|c|T ? ? ? c name args id' c' l' Hn Ha Hz Hr|T ? ? c name args c' Hr
    |c id' e c' ex Hr|c e d c' ex Hr|c l' h c' ex Hr]; [done|done|..].
  - apply async_request_sent in Hr as (Hl & [_ Hf Ht Hp _ _ _] & _); [|done]. simpl in *.
    destruct Hc as (d & Hd & Hrd). split.
    + rewrite Ht, lookup_insert_ne; [done|]. congruence.
    + exists d. rewrite Hp. split; [|done]. simpl. rewrite lookup_insert_ne; [done|]. congruence.
  - unfold notify in Hr. by apply outcome_bind_Ok_inv in Hr as (m & _ & [= <-]).
  - revert Hr. unfold on_write. destruct (error_info_ops.has_error e); [|by intros [= <- _]].
    destruct (requests_ c !! id') as [l'|] eqn:E; [|by intros [= <- _]].
    pose proof (with_promise_completed c l' _ l (set_error_keeps e) Hc) as Hw.
    pose proof (with_promise_requests c l' (λ d, set_error d e)) as Hq.
    destruct (with_promise c l' _) as [c1 [ex1|]] eqn:Ew; intros [= <- _]; simpl in *; rewrite Hq; [done|].
    split; [|done]. rewrite lookup_delete_ne; [done|]. intros ->. assert (l' = l) as -> by congruence.
    destruct Hc as (d & Hd & Hrd). unfold with_promise, set_error in Ew. by rewrite Hd, Hrd in Ew.
  - pose proof (requests_never_shrink c e d) as Hq. pose proof (on_read_completed c e d l Hc) as Hw.
    rewrite Hr in Hq, Hw. simpl in *. by rewrite Hq.
  - pose proof (with_promise_requests c l' (λ d, set_handler d (Some h))) as Hq.
    pose proof (with_promise_completed c l' _ l (set_handler_keeps (Some h)) Hc) as Hw.
    unfold set_future_handler in Hr. rewrite Hr in Hq, Hw. simpl in *. by rewrite Hq.
Qed.

Lemma answered_stays_always {H} (c c' : client H) id l :
  client_inv c → rtc client_step c c' → requests_ c !! id = Some l → completed c l →
  requests_ c' !! id = Some l ∧ completed c' l.
Proof.
  intros Hi Hs. induction Hs as [c|c c1 c' Hs _ IH]; [done|]. intros Hid Hc.
  destruct (answered_stays c c1 id l Hi Hs Hid Hc) as [Hid' Hc']. apply IH; [by eapply client_step_inv|done..].
Qed.

(** C38: a request that is answered is never removed from the table, and breaks what follows:
    after the response to a waiting request was read, and after whatever steps the client makes
    then (reads, writes and their errors, requests, notifications, handlers, stop), the request
    is still in the table; so the next read error makes the loop that should fail the waiting
    requests throw [invalid_future_use] out of the read handler, and so does the same response
    when it is received again. *)
Theorem answered_request_breaks_errors {H} (c c' : client H) l d data m :
  client_reachable c → message_ops.make data = Ok m → type_ m = msgtype_response →
  requests_ c !! uint32_val (msgid_ m) = Some l → promises c !! l = Some d → has_response_ d = false →
  rtc client_step (on_read c None data).1 c' →
  (on_read c None data).2 = None ∧ requests_ c' !! uint32_val (msgid_ m) = Some l ∧
  (∀ i data', ∃ what, (on_read c' (Some i) data').2 =
    Some (mprpc_exception (error_info_ops.make error_code.invalid_future_use what))) ∧
  (∃ what, (on_read c' None data).2 =
    Some (mprpc_exception (error_info_ops.make error_code.invalid_future_use what))).
Proof.
  intros Hreach Hm Ht Hid Hd Hr Hsteps. apply client_reachable_inv in Hreach.
  assert ((on_read c None data).2 = None ∧ completed (on_read c None data).1 l) as [Hno Hc].
  { unfold on_read, handle_response. simpl. rewrite Hm, decide_True by done. rewrite Hid.
    unfold with_promise. simpl. rewrite Hd. unfold set_response. rewrite Hr.
    destruct (on_response_ d); (split; [done|]); unfold completed; simpl; rewrite lookup_insert_eq; eauto. }
  split; [done|].
  assert (client_inv (on_read c None data).1) as Hi1 by (eapply extends_inv; [apply on_read_extends|done]).
  destruct (answered_stays_always _ c' (uint32_val (msgid_ m)) l Hi1 Hsteps) as [Hid' Hc'];
    [by rewrite requests_never_shrink|done|].
  split; [done|]. split.
  - intros i data'. unfold on_read, fail_all. simpl.
    apply (set_error_all_throws (set_reading c' false) _ _ (uint32_val (msgid_ m)) l);
      [by apply elem_of_map_to_list|done].
  - unfold on_read, handle_response. simpl. rewrite Hm, decide_True by done. rewrite Hid'.
    destruct Hc' as (d' & Hd' & Hr'). unfold with_promise. simpl. rewrite Hd'.
    unfold set_response. rewrite Hr'. simpl.
    apply (set_error_all_throws (do_read (set_reading c' false)) _ _ (uint32_val (msgid_ m)) l).
    + by apply elem_of_map_to_list.
    + by exists d'.
Qed.

(** A client that made a request, received its response and goes on with a notification. *)
Definition asked : client positive :=
  match async_request (mk_client 0 ∅ ∅ [] false [] false false) [Byte.x61] (mk_tuple ()) with
  | Some (_, c, _) => c
  | None => waiting_client
  end.
Definition after_answer : client positive :=
  match notify (on_read asked None response0).1 [Byte.x61] (mk_tuple ()) with
  | Ok c => c
  | Throw _ => asked
  end.

Lemma asked_reachable : client_reachable asked.
Proof.
  eapply reachable_step; [apply reachable_new|].
  apply (step_request (T := tuple ()) (mk_client 0 ∅ ∅ [] false [] false false) [Byte.x61] (mk_tuple ()) 0 asked 1%positive);
    reflexivity.
Qed.

Lemma answered_request_breaks_errors_witness :
  requests_ after_answer !! 0 = Some 1%positive ∧
  (∃ what, (on_read after_answer (Some (mk_inner_data error_code.eof "connection closed" None)) None).2 =
    Some (mprpc_exception (error_info_ops.make error_code.invalid_future_use what))) ∧
  (∃ what, (on_read after_answer None response0).2 =
    Some (mprpc_exception (error_info_ops.make error_code.invalid_future_use what))).
Proof.
  destruct (answered_request_breaks_errors asked after_answer 1%positive construct response0 message0)
    as (_ & Hid & He & Hr).
  - exact asked_reachable.
  - reflexivity.
  - reflexivity.
  - reflexivity.
  - reflexivity.
  - reflexivity.
  - apply rtc_once. apply (step_notify (T := tuple ()) _ [Byte.x61] (mk_tuple ())). reflexivity.
  - split; [exact Hid|]. split; [apply He|exact Hr].
Defined.
