(* ===== verification/MethodServer.v ===== *)
(** Execution of methods.

    Models include/mprpc/execution/method_executor.h, function_method_executor.h,
    method_server.h and simple_method_server.h. The functions of the user act on a state [W]
    of their own and may throw. *)

From S2P Require Import Prelude Errors MsgpackObject MsgpackUnpack MsgpackAdaptor Message.

Section execution.
Context {W : Type}.

(** ** [method_executor] *)

(** The interface, as a record of operations. The outer [None] is a null dereference. *)
Record method_executor := mk_method_executor {
  name : std_string;
  process_request : message → W → option (result message_data * W);
  process_notification : message → W → option (result () * W);
}.

(** ** [function_method_executor] *)

Section function.
Context {T R : Type} `{TupleElements T, Pack R, Convert R}.
Context (function_ : T → W → result R * W).

(** [invoke]: convert the parameters, then call. *)
Definition invoke (msg : message) (w : W) : option (result R * W) :=
  match message_ops.params_as (T := tuple T) msg with
  | Throw e => Some (Throw e, w)
  | Ok None => None
  | Ok (Some params) => Some (function_ (elements params) w)
  end.

(** [catch (const std::exception& e) { return pack_error_response(...); }]: every
    modelled exception is a [std::exception]. *)
Definition error_response (msg : message) (e : exn) : result message_data :=
  pack_error_response (T := std_string) (msgid_ msg)
    (String.list_byte_of_string (exception_ops.what e)).

Definition function_process_request (msg : message) (w : W) :
    option (result message_data * W) :=
  match invoke msg w with
  | None => None
  | Some (r, w') =>
      Some (try_catch (outcome_bind r (λ x, pack_response (msgid_ msg) x))
              (λ e, Some (error_response msg e)), w')
  end.

Definition function_process_notification (msg : message) (w : W) : option (result () * W) :=
  match invoke msg w with
  | None => None
  | Some (_, w') => Some (Ok (), w')
  end.
End function.

(** [make_function_method_executor] for a function with a result. *)
Definition make_function_method_executor {T R} `{TupleElements T, Pack R, Convert R}
    (n : std_string) (f : T → W → result R * W) : method_executor :=
  mk_method_executor n (function_process_request f) (function_process_notification f).

(** The specialization for [void]: the response holds nil. *)
Definition make_void_method_executor {T} `{TupleElements T} (n : std_string)
    (f : T → W → result () * W) : method_executor :=
  let f' t w := let '(r, w') := f t w in (outcome_bind r (λ _, Ok mk_nil_t), w') in
  mk_method_executor n (function_process_request (R := nil_t) f')
    (function_process_notification (R := nil_t) f').

(** ** [simple_method_server] *)

(** [methods_.emplace] keeps the first executor of a name. *)
Definition has_name (n : std_string) (m : method_executor) : bool := bool_decide (name m = n).

Fixpoint construct_methods (methods : list (option method_executor))
    (acc : list method_executor) : result (list method_executor) :=
  match methods with
  | [] => Ok acc
  | m :: methods' =>
      outcome_bind (require_nonull m (Some "method") (Some "simple_method_server")) (λ m,
        construct_methods methods'
          (if existsb (has_name (name m)) acc then acc else acc ++ [m]))
  end.

(** The arguments of the handler: error, whether a response exists, response. *)
Definition handler_args : Type := error_info * bool * message_data.

(** [find_method]: the handler is called when there is none. *)
Definition find_method (methods : list method_executor) (n : std_string) :
    method_executor + handler_args :=
  match find (has_name n) methods with
  | Some m => inl m
  | None =>
      inr (error_info_ops.make error_code.method_not_found
             ("method " +:+ String.string_of_list_byte n +:+ " not found"), false, None)
  end.

(** [do_process_message]: the arguments the handler is called with, or what is thrown.
    [remote] is what [session->remote_address()->full_address()] returns or throws: it is an
    argument of the first log message, evaluated before anything else is done. *)
Definition do_process_message (methods : list method_executor) (remote : result std_string)
    (msg : message) (w : W) : option (result handler_args * W) :=
  if decide (type_ msg = msgtype_request) then
    match outcome_bind remote (λ _, message_ops.method msg) with
    | Throw e => Some (Throw e, w)
    | Ok n =>
        match find_method methods n with
        | inr args => Some (Ok args, w)
        | inl m =>
            match process_request m msg w with
            | None => None
            | Some (r, w') =>
                Some (outcome_bind r (λ d, Ok (error_info_ops.no_error, true, d)), w')
            end
        end
    end
  else if decide (type_ msg = msgtype_notification) then
    match outcome_bind remote (λ _, message_ops.method msg) with
    | Throw e => Some (Throw e, w)
    | Ok n =>
        match find_method methods n with
        | inr args => Some (Ok args, w)
        | inl m =>
            match process_notification m msg w with
            | None => None
            | Some (r, w') =>
                Some (outcome_bind r (λ _, Ok (error_info_ops.no_error, false, None)), w')
            end
        end
    end
  else
    Some (Ok (error_info_ops.make error_code.invalid_message "invalid message type", false, None), w).
End execution.
Arguments method_executor : clear implicits.

(** ** Facts *)

Section facts.
Context {W : Type}.

Lemma find_method_unknown (methods : list (method_executor W)) n :
  Forall (λ m, name m ≠ n) methods →
  find_method methods n =
  inr (error_info_ops.make error_code.method_not_found
         ("method " +:+ String.string_of_list_byte n +:+ " not found"), false, None).
Proof.
  intros Hm. unfold find_method. destruct (find (has_name n) methods) as [m|] eqn:E; [|done].
  apply List.find_some in E as [Hin Hn]. apply bool_decide_eq_true in Hn.
  rewrite List.Forall_forall in Hm. by apply Hm in Hin.
Qed.

Lemma find_method_known (methods : list (method_executor W)) m :
  m ∈ methods → NoDup (map name methods) → find_method methods (name m) = inl m.
Proof.
  intros Hin Hnd. unfold find_method.
  assert (find (has_name (name m)) methods = Some m) as ->; [|done].
  induction methods as [|m' ms IH]; [by apply not_elem_of_nil in Hin|]. simpl.
  inversion Hnd as [|? ? Hnot Hnd']; subst.
  apply elem_of_cons in Hin as [->|Hin].
  { unfold has_name. by rewrite bool_decide_eq_true_2. }
  unfold has_name at 1. rewrite bool_decide_eq_false_2; [by apply IH|].
  intros Heq. apply Hnot. rewrite Heq. by apply (list_elem_of_fmap_2 name).
Qed.

(** The address is only logged. *)
Lemma do_process_message_address methods a a' msg (w : W) :
  do_process_message methods (Ok a) msg w = do_process_message methods (Ok a') msg w.
Proof. done. Qed.

(** When it cannot be obtained nothing is executed. *)
Lemma do_process_message_no_address methods e msg (w : W) :
  type_ msg = msgtype_request ∨ type_ msg = msgtype_notification →
  do_process_message methods (Throw e) msg w = Some (Throw e, w).
Proof.
  intros Ht. unfold do_process_message. destruct (decide (type_ msg = msgtype_request)); [done|].
  destruct Ht as [?|Ht]; [done|]. by rewrite decide_True.
Qed.

(** The constructor makes a table without duplicate names and keeps the first of each. *)
Lemma construct_methods_spec methods acc r :
  construct_methods (W := W) methods acc = Ok r → NoDup (map name acc) →
  NoDup (map name r) ∧ (∃ ext, r = acc ++ ext) ∧
  (∀ m, Some m ∈ methods → ∃ m', m' ∈ r ∧ name m' = name m).
Proof.
  revert acc. induction methods as [|[m|] ms IH]; intros acc; simpl.
  - intros [= ->] Hnd. split_and!; [done|exists []; by rewrite app_nil_r|].
    intros m Hm. by apply not_elem_of_nil in Hm.
  - intros Hr Hnd. destruct (existsb (has_name (name m)) acc) eqn:E.
    + destruct (IH _ Hr Hnd) as (Hnd' & [ext Hext] & Hall). split_and!; [done|eauto|].
      intros m0 [[= ->]|Hm]%elem_of_cons; [|auto].
      apply List.existsb_exists in E as (m' & Hin & Hn). apply bool_decide_eq_true in Hn.
      exists m'. split; [|done]. rewrite Hext. apply elem_of_app. left. by apply list_elem_of_In.
    + destruct (IH _ Hr) as (Hnd' & [ext Hext] & Hall).
      { rewrite map_app. apply list.NoDup_app. split_and!; [done| |by apply NoDup_singleton].
        intros x Hx Hx'. apply list_elem_of_singleton in Hx' as ->.
        apply (list_elem_of_fmap name) in Hx as (m' & Hn & Hin).
        assert (existsb (has_name (name m)) acc = true) as Ht; [|congruence].
        apply List.existsb_exists. exists m'. split; [by apply list_elem_of_In|].
        unfold has_name. by apply bool_decide_eq_true. }
      split_and!; [done|eexists; rewrite Hext; by rewrite <-app_assoc|].
      intros m0 [[= ->]|Hm]%elem_of_cons; [|auto].
      exists m. split; [|done]. rewrite Hext. apply elem_of_app. left. apply elem_of_app. right.
      by apply list_elem_of_singleton.
  - intros [=].
Qed.
End facts.

(** ** Calls *)

(** The message a receiver makes of a request. *)
Definition request_message (id : msgid_t) (n : std_string) (params : object) (d : message_data) :
    message :=
  mk_message d (request_object id n params) msgtype_request id n (Some params) None None.

Section calls.
Context {W : Type}.
Context {T : Type} `{TupleRoundTrip T}.
Context {R : Type} `{PackSpec R, Convert R}.
Implicit Types (f : T → W → result R * W).

Lemma invoke_request f id n (args : T) d w :
  elements_packable args = true →
  invoke f (request_message id n (ARRAY (objects_of args)) d) w = Some (f args w).
Proof.
  intros Ha. unfold invoke, message_ops.params_as, message_ops.access_as. simpl.
  by rewrite convert_objects_of.
Qed.

(** A request for a method of the table. *)
Lemma do_process_request f methods a id n args d w :
  make_function_method_executor n f ∈ methods → NoDup (map name methods) →
  elements_packable args = true →
  do_process_message methods (Ok a) (request_message id n (ARRAY (objects_of args)) d) w =
  let '(r, w') := f args w in
  Some (outcome_bind (try_catch (outcome_bind r (λ x, pack_response id x))
          (λ e, Some (error_response (request_message id n (ARRAY (objects_of args)) d) e)))
        (λ d, Ok (error_info_ops.no_error, true, d)), w').
Proof.
  intros Hin Hnd Ha. unfold do_process_message. rewrite decide_True by done.
  cbn [outcome_bind]. unfold message_ops.method. rewrite decide_False by done. cbn [method_ request_message].
  change n with (name (make_function_method_executor n f)) at 1.
  rewrite (find_method_known methods _ Hin Hnd).
  cbn [process_request make_function_method_executor]. unfold function_process_request.
  rewrite invoke_request by done. by destruct (f args w) as [r w'].
Qed.
End calls.

(** C17: a request is executed: if the address of the remote end can be obtained, which is
    [remote = Ok _], the method registered under its name is invoked exactly once, with the
    values the client passed, and the handler gets the response that packs its result, or the
    error response that packs the text of the exception it threw. If it cannot be obtained, as
    of a socket that is no longer connected, that exception leaves and nothing is invoked. *)
Theorem method_request_executed {W T R} `{TupleRoundTrip T} `{PackSpec R, Convert R}
    (f : T → W → result R * W) methods (remote : result std_string) id n args w :
  make_function_method_executor n f ∈ methods → NoDup (map name methods) →
  packable id = true → packable n = true → packable (mk_tuple args) = true →
  fits (ARRAY (objects_of args)) = true →
  ∃ d msg, pack_request id n (mk_tuple args) = Ok d ∧ message_ops.make d = Ok msg ∧
    match remote, f args w with
    | Throw e, _ => do_process_message methods remote msg w = Some (Throw e, w)
    | Ok _, (Ok x, w') =>
        packable x = true →
        ∃ r, pack_response id x = Ok r ∧
          do_process_message methods remote msg w = Some (Ok (error_info_ops.no_error, true, r), w')
    | Ok _, (Throw e, w') =>
        packable (T := std_string) (String.list_byte_of_string (exception_ops.what e)) = true →
        ∃ r, pack_error_response id (String.list_byte_of_string (exception_ops.what e) : std_string) = Ok r ∧
          do_process_message methods remote msg w = Some (Ok (error_info_ops.no_error, true, r), w')
    end.
Proof.
  intros Hin Hnd Hi Hn Ha Hf.
  destruct (make_request_aux id n (mk_tuple args) Hi Hn Ha eq_refl Hf) as (d & Hd & Hm).
  exists d. eexists. split; [done|]. split; [exact Hm|].
  assert (elements_packable args = true) as Hea.
  { cbn in Ha. by apply andb_prop in Ha as [_ ?]. }
  destruct remote as [a|e]; [|by apply do_process_message_no_address; left].
  pose proof (do_process_request f methods a id n args d w Hin Hnd Hea) as Hp.
  cbn [object_of tuple_PackSpec elements]. unfold request_message in Hp. rewrite Hp.
  destruct (f args w) as [[x|e] w']; intros Hx.
  - destruct (pack_response_spec id x Hi Hx) as [Hpk _].
    cbn [outcome_bind try_catch]. rewrite Hpk. eauto.
  - destruct (pack_error_response_spec (T := std_string) id _ Hi Hx) as [Hpk _]. unfold error_response.
    cbn [outcome_bind try_catch msgid_]. eexists. split; [exact Hpk|]. by rewrite Hpk.
Qed.

(** A counting adder. *)
Definition add_method : method_executor nat :=
  make_function_method_executor (T := int32 * (int32 * ())) (R := int32) [Byte.x61]
    (λ '(a, (b, _)) w, (Ok (mk_int32 (int32_val a + int32_val b)), S w)).

Lemma method_request_executed_witness :
  ∃ d msg, pack_request (mk_uint32 3) [Byte.x61] (mk_tuple (mk_int32 2, (mk_int32 5, ()))) = Ok d ∧
    message_ops.make d = Ok msg ∧
    ∃ r, pack_response (mk_uint32 3) (mk_int32 7) = Ok r ∧
      do_process_message [add_method] (Ok []) msg 0%nat = Some (Ok (error_info_ops.no_error, true, r), 1%nat).
Proof.
  destruct (method_request_executed (W := nat) (R := int32)
    (λ '(a, (b, _)) w, (Ok (mk_int32 (int32_val a + int32_val b)), S w)) [add_method]
    (Ok []) (mk_uint32 3) [Byte.x61] (mk_int32 2, (mk_int32 5, ())) 0%nat) as (d & msg & Hd & Hm & Hp).
  - apply elem_of_cons. left. reflexivity.
  - apply NoDup_singleton.
  - reflexivity.
  - reflexivity.
  - reflexivity.
  - reflexivity.
  - exists d, msg. split; [exact Hd|]. split; [exact Hm|]. exact (Hp eq_refl).
Defined.

(** missing parameters are not an error: a client that calls a method without arguments
    gets it executed with default-constructed values, whatever parameters it declares. *)
Theorem missing_params_defaulted {W A T R} `{Pack A, Convert A, TupleElements T, Pack R, Convert R}
    (f : A * T → W → result R * W) id n w :
  packable id = true → packable n = true →
  ∃ d msg, pack_request id n (mk_tuple ()) = Ok d ∧ message_ops.make d = Ok msg ∧
    type_ msg = msgtype_request ∧ invoke f msg w = Some (f (init, init_elements) w).
Proof.
  intros Hi Hn. destruct (make_request_aux id n (mk_tuple ()) Hi Hn) as (d & Hd & Hm); [reflexivity..|].
  exists d. eexists. split; [done|]. split; [exact Hm|]. done.
Qed.

Lemma missing_params_defaulted_witness :
  let f : int32 * (int32 * ()) → nat → result int32 * nat :=
    λ '(a, (b, _)) w, (Ok (mk_int32 (int32_val a + int32_val b)), S w) in
  ∃ d msg, pack_request (mk_uint32 3) [Byte.x61] (mk_tuple ()) = Ok d ∧ message_ops.make d = Ok msg ∧
    type_ msg = msgtype_request ∧ invoke f msg 0%nat = Some (f (init, init_elements) 0%nat).
Proof. intros f. apply missing_params_defaulted; reflexivity. Defined.

(** a request for an unknown method is answered with an error and without a response: the
    handler is called with [method_not_found] and is told that no response exists. *)
Theorem unknown_method_not_answered {W} (methods : list (method_executor W)) a msg w :
  type_ msg = msgtype_request ∨ type_ msg = msgtype_notification →
  Forall (λ m, name m ≠ method_ msg) methods →
  ∃ what, do_process_message methods (Ok a) msg w =
    Some (Ok (error_info_ops.make error_code.method_not_found what, false, None), w).
Proof.
  intros Ht Hm. eexists. unfold do_process_message. cbn [outcome_bind]. unfold message_ops.method.
  destruct (decide (type_ msg = msgtype_request)) as [Hr|Hr].
  - rewrite decide_False by (by rewrite Hr). by rewrite find_method_unknown.
  - destruct Ht as [?|Ht]; [done|]. rewrite decide_True by done.
    rewrite decide_False by (by rewrite Ht). by rewrite find_method_unknown.
Qed.

Lemma unknown_method_not_answered_witness :
  ∃ what, do_process_message [add_method] (Ok []) (request_message (mk_uint32 1) [Byte.x62] (ARRAY []) None) 0%nat =
    Some (Ok (error_info_ops.make error_code.method_not_found what, false, None), 0%nat).
Proof.
  apply unknown_method_not_answered; [by left|]. apply Forall_singleton. discriminate.
Defined.
