(* ===== verification/ServerBase.v ===== *)
(** The part of a server that the C++ server and the server of the Python bindings share:
    include/mprpc/impl/server_base.h.

    Sessions and acceptors are known by their identity. The operations started on them
    ([async_accept], [async_read], [async_write], [shutdown]) and the functions posted to the
    thread pool are part of the state; each completion handler and each posted function is a
    step. The virtual function [async_process_message] and what it posts are parameters. *)

From S2P Require Import Prelude Errors Message MethodServer.
From stdpp Require Import gmap.

Open Scope Z_scope.

Definition session : Type := positive.
Definition acceptor : Type := positive.

Section server_base.
Context {D M W : Type}.   (* members of the derived class; what it posts; the world of the methods *)

(** What a server posts to its thread pool. *)
Inductive base_task : Type :=
| process_task (s : session) (msg : M)
| remove_task (s : session).

Record server_base := mk_server {
  derived_ : D;
  acceptors_ : list acceptor;
  sessions_ : gset session;
  accepting : list acceptor;                 (* async_accept in progress *)
  reading : list session;                    (* async_read in progress *)
  tasks : list base_task;                  (* posted, not yet run *)
  writes : list (session * message_data);    (* async_write started *)
  shutdowns : list session;
  threads_started : bool;
  world : W;                                 (* state of the methods *)
}.

(** The constructor checks the thread pool and the acceptors. *)
Fixpoint check_acceptors (l : list (option acceptor)) : result (list acceptor) :=
  match l with
  | [] => Ok []
  | a :: l' =>
      outcome_bind (require_nonull a (Some "acceptor") (Some "mprpc::impl::server_base::server_base"))
        (λ a, outcome_bind (check_acceptors l') (λ l, Ok (a :: l)))
  end.

Definition construct_base (threads : option ()) (acceptors : list (option acceptor))
    (members : D) (w : W) : result server_base :=
  outcome_bind (require_nonull threads (Some "threads") (Some "mprpc::impl::server_base::server_base"))
    (λ _, outcome_bind (check_acceptors acceptors)
    (λ l, Ok (mk_server members l ∅ [] [] [] [] [] false w))).

Definition do_accept (sv : server_base) (a : acceptor) : server_base :=
  mk_server (derived_ sv) (acceptors_ sv) (sessions_ sv) (accepting sv ++ [a]) (reading sv)
    (tasks sv) (writes sv) (shutdowns sv) (threads_started sv) (world sv).
Definition do_read (sv : server_base) (s : session) : server_base :=
  mk_server (derived_ sv) (acceptors_ sv) (sessions_ sv) (accepting sv) (reading sv ++ [s])
    (tasks sv) (writes sv) (shutdowns sv) (threads_started sv) (world sv).
Definition post (sv : server_base) (t : base_task) : server_base :=
  mk_server (derived_ sv) (acceptors_ sv) (sessions_ sv) (accepting sv) (reading sv)
    (tasks sv ++ [t]) (writes sv) (shutdowns sv) (threads_started sv) (world sv).
Definition async_write (sv : server_base) (s : session) (d : message_data) : server_base :=
  mk_server (derived_ sv) (acceptors_ sv) (sessions_ sv) (accepting sv) (reading sv)
    (tasks sv) (writes sv ++ [(s, d)]) (shutdowns sv) (threads_started sv) (world sv).
Definition shutdown (sv : server_base) (l : list session) : server_base :=
  mk_server (derived_ sv) (acceptors_ sv) (sessions_ sv) (accepting sv) (reading sv)
    (tasks sv) (writes sv) (shutdowns sv ++ l) (threads_started sv) (world sv).
Definition set_sessions (sv : server_base) (ss : gset session) : server_base :=
  mk_server (derived_ sv) (acceptors_ sv) ss (accepting sv) (reading sv)
    (tasks sv) (writes sv) (shutdowns sv) (threads_started sv) (world sv).
Definition set_threads (sv : server_base) (b : bool) : server_base :=
  mk_server (derived_ sv) (acceptors_ sv) (sessions_ sv) (accepting sv) (reading sv)
    (tasks sv) (writes sv) (shutdowns sv) b (world sv).
Definition set_world (sv : server_base) (w : W) : server_base :=
  mk_server (derived_ sv) (acceptors_ sv) (sessions_ sv) (accepting sv) (reading sv)
    (tasks sv) (writes sv) (shutdowns sv) (threads_started sv) w.
Definition set_tasks (sv : server_base) (ts : list base_task) : server_base :=
  mk_server (derived_ sv) (acceptors_ sv) (sessions_ sv) (accepting sv) (reading sv)
    ts (writes sv) (shutdowns sv) (threads_started sv) (world sv).

Definition start (sv : server_base) : server_base :=
  fold_left do_accept (acceptors_ sv) (set_threads sv true).

Definition stop (sv : server_base) : server_base :=
  set_threads (shutdown sv (elements (sessions_ sv))) false.

Definition async_remove_session (sv : server_base) (s : session) : server_base := post sv (remove_task s).

(** [on_read] and [on_accept], with [process] for the virtual function and [session_read] for
    the call of [do_read] on a session: a session may start an asynchronous read or call its
    handler at once. The second component is the exception that leaves the handler. *)
Section handlers.
Context (process : server_base → session → message_data → server_base * option exn).
Context (session_read : server_base → session → server_base * option exn).

Definition base_on_read (sv : server_base) (s : session) (error : error_info) (data : message_data) :
    server_base * option exn :=
  if error_info_ops.has_error error then (async_remove_session sv s, None)
  else
    match process sv s data with
    | (sv', None) => session_read sv' s
    | r => r
    end.

(** The [async_accept] that completed is over. *)
Definition on_accept_with (sv : server_base) (a : acceptor) (error : error_info) (s : session) :
    server_base * option exn :=
  if error_info_ops.has_error error then (do_accept sv a, None)
  else
    match session_read (set_sessions sv ({[s]} ∪ sessions_ sv)) s with
    | (sv', None) => (do_accept sv' a, None)
    | r => r
    end.
End handlers.

(** [on_execution] *)
Definition on_execution (sv : server_base) (s : session) (args : handler_args) : server_base :=
  let '(error, response_exists, response) := args in
  if error_info_ops.has_error error then sv
  else if negb response_exists then sv
  else async_write sv s response.

(** A thread of the pool runs the next function; [run] is what the derived class posted. *)
Definition run_base_task (run : server_base → session → M → option (server_base * option exn))
    (sv0 : server_base) : option (server_base * option exn) :=
  match tasks sv0 with
  | [] => Some (sv0, None)
  | t :: ts =>
      let sv := set_tasks sv0 ts in
      match t with
      | remove_task s => Some (set_sessions (shutdown sv [s]) (sessions_ sv ∖ {[s]}), None)
      | process_task s msg => run sv s msg
      end
  end.

(** Starting accepts on every acceptor. *)
Lemma accept_all (l : list acceptor) sv :
  accepting (fold_left do_accept l sv) = accepting sv ++ l ∧ derived_ (fold_left do_accept l sv) = derived_ sv ∧
  tasks (fold_left do_accept l sv) = tasks sv.
Proof.
  revert sv. induction l as [|a l IH]; intros sv; simpl; [by rewrite app_nil_r|].
  destruct (IH (do_accept sv a)) as (-> & -> & ->). simpl. by rewrite <-app_assoc.
Qed.
Lemma base_start_accepts sv : accepting (start sv) = accepting sv ++ acceptors_ sv.
Proof. unfold start. by destruct (accept_all (acceptors_ sv) (set_threads sv true)) as (-> & _). Qed.
Lemma base_start_derived sv : derived_ (start sv) = derived_ sv.
Proof. unfold start. by destruct (accept_all (acceptors_ sv) (set_threads sv true)) as (_ & -> & _). Qed.
Lemma base_start_tasks sv : tasks (start sv) = tasks sv.
Proof. unfold start. by destruct (accept_all (acceptors_ sv) (set_threads sv true)) as (_ & _ & ->). Qed.
End server_base.
Arguments base_task : clear implicits.
Arguments server_base : clear implicits.
