(* ===== verification/Server.v ===== *)
(** Servers: include/mprpc/server.h, on top of [ServerBase]. *)

From S2P Require Import Prelude Errors MsgpackObject MsgpackUnpack MsgpackAdaptor Message MethodServer ServerBase.
From stdpp Require Import gmap.

Open Scope Z_scope.

(** The method server is the list of its executors; what is posted is a parsed message. *)
Abbreviation server_task := (base_task message).
Abbreviation server W := (server_base (list (method_executor W)) message W).
Abbreviation methods_ := derived_.

Section server.
Context {W : Type}.
Abbreviation server := (server W).

(** [server::server], after the constructor of its base. *)
Definition construct_server (threads : option ()) (acceptors : list (option acceptor))
    (method_server : option (list (method_executor W))) (w : W) : result server :=
  outcome_bind (construct_base (M := message) threads acceptors () w)
    (λ sv, outcome_bind (require_nonull method_server (Some "method_server") (Some "mprpc::server::server"))
    (λ ms, Ok (mk_server ms (acceptors_ sv) (sessions_ sv) (accepting sv) (reading sv) (tasks sv)
                 (writes sv) (shutdowns sv) (threads_started sv) w))).

(** [server::async_process_message]: only [mprpc::exception] is caught. *)
Definition async_process_message (sv : server) (s : session) (data : message_data) :
    server * option exn :=
  match message_ops.make data with
  | Ok msg => (post sv (process_task s msg), None)
  | Throw (mprpc_exception _) => (async_remove_session sv s, None)
  | Throw e => (sv, Some e)
  end.

(** Reads of a session: [session_read] is [do_read] of the session. *)
Definition on_read_with (session_read : server → session → server * option exn) :
    server → session → error_info → message_data → server * option exn :=
  base_on_read async_process_message session_read.

(** Sessions that read asynchronously. *)
Definition on_read : server → session → error_info → message_data → server * option exn :=
  on_read_with (λ sv s, (do_read sv s, None)).
Definition on_accept : server → acceptor → error_info → session → server * option exn :=
  on_accept_with (λ sv s, (do_read sv s, None)).

(** The function that [async_process_message] posts; [None] is a null dereference. [remote] is
    what asking a session for the address of its remote end returns or throws. *)
Definition process_message (remote : session → result std_string) (sv : server) (s : session)
    (msg : message) : option (server * option exn) :=
  match do_process_message (methods_ sv) (remote s) msg (world sv) with
  | None => None
  | Some (Ok args, w) => Some (on_execution (set_world sv w) s args, None)
  | Some (Throw e, w) => Some (set_world sv w, Some e)
  end.

Definition run_task_with (remote : session → result std_string) :
    server → option (server * option exn) :=
  run_base_task (process_message remote).

(** A thread while all sessions are connected: the address is only logged. *)
Definition run_task : server → option (server * option exn) := run_task_with (λ _, @Ok exn std_string []).

Lemma run_task_connected remote (sv : server) :
  (∀ s m ts, tasks sv = process_task s m :: ts → ∃ a, remote s = Ok a) →
  run_task_with remote sv = run_task sv.
Proof.
  intros Hr. unfold run_task, run_task_with, run_base_task.
  destruct (tasks sv) as [|[s m|s] ts]; [done| |done].
  destruct (Hr s m ts eq_refl) as [a Ha]. unfold process_message. by rewrite Ha.
Qed.
End server.

(** ** Theorems *)

(** a valid message is queued for execution on its session and the session goes on being
    read; a message that is none makes the server remove the session. *)
Theorem server_reads_on {W} (sv : server W) s data :
  match message_ops.make data with
  | Ok msg => on_read sv s None data = (do_read (post sv (process_task s msg)) s, None)
  | Throw (mprpc_exception _) =>
      on_read sv s None data = (do_read (post sv (remove_task s)) s, None)
  | Throw e => on_read sv s None data = (sv, Some e)
  end.
Proof.
  unfold on_read, on_read_with, base_on_read, async_process_message. simpl.
  destruct (message_ops.make data) as [msg|[]]; reflexivity.
Qed.

(** a truncated datagram stops its session: the exception of msgpack-c leaves the read
    handler before the next read is started, no task is queued and the session stays
    registered. *)
Theorem server_truncated_stops {W} (sv : server W) s o data x :
  wf_object o = true → shallow o = true → pack_object o = data ++ x → x ≠ [] →
  on_read sv s None (Some data) =
  (sv, Some (msgpack_insufficient_bytes "insufficient bytes")).
Proof.
  intros Hwf Hs Hp Hx. unfold on_read, on_read_with, base_on_read, async_process_message, message_ops.make. simpl.
  by rewrite (unpack_truncated_aux o data x).
Qed.

Definition idle_server : server nat :=
  mk_server [add_method] [1%positive] {[5%positive]} [1%positive] [] [] [] [] true 0%nat.

Lemma server_truncated_stops_witness :
  on_read idle_server 5%positive None (Some [Byte.x93; Byte.x02; Byte.xa1; Byte.x61]) =
  (idle_server, Some (msgpack_insufficient_bytes "insufficient bytes")).
Proof.
  apply (server_truncated_stops idle_server 5%positive (notification_object [Byte.x61] (ARRAY [])) _ [Byte.x90]);
    [reflexivity..|discriminate].
Defined.
