(* ===== verification/SessionRemoval.v ===== *)
(** Removing TCP sessions: [server_base::async_remove_session]
    (include/mprpc/impl/server_base.h) with [tcp_session::shutdown]
    (impl/mprpc/transport/tcp/impl/tcp_session.h; tcp_connector.h has the same code) and
    [stream_socket_helper::post].

    The function that removes a session takes the mutex of the server and calls [shutdown],
    which posts a function that closes the socket, gives it a reference to a promise on its
    stack, and waits at most 100 ms for it. The model follows the threads of the pool: idle,
    executing a method, waiting for the mutex, or waiting for the promise. A session exists as
    long as somebody has a pointer to it. *)

From S2P Require Import Prelude Errors MethodServer ServerBase.
From stdpp Require Import gmap.

Open Scope Z_scope.

Definition promise : Type := positive.

(** What is in the queue of the thread pool: the execution of a method for a session, the
    removal of a session, and the function that [shutdown] posts. *)
Inductive job : Type :=
| execute (s : session)
| remove (s : session)
| close (s : session) (p : promise).
#[export] Instance job_eq_decision : EqDecision job.
Proof. solve_decision. Defined.

Record removal := mk_removal {
  idle : nat;                             (* threads inside [run] with nothing to do *)
  jobs : list job;
  running : list session;                 (* methods being executed *)
  holder : option (session * promise);    (* inside [shutdown], with the mutex *)
  blocked : list session;                 (* waiting for the mutex *)
  fulfilled : gset promise;
  kept : gset session;                    (* [sessions_] *)
  closed : list session;
  next_promise : promise;
}.

Definition set_jobs (st : removal) (n : nat) (l : list job) : removal :=
  mk_removal n l (running st) (holder st) (blocked st) (fulfilled st) (kept st) (closed st) (next_promise st).

(** Who has a pointer to a session: the table, and functions posted or running. The function
    that closes the socket has a weak one. *)
Definition alive (st : removal) (s : session) : Prop :=
  s ∈ kept st ∨ s ∈ running st ∨ (fst <$> holder st) = Some s ∨ s ∈ blocked st ∨
  execute s ∈ jobs st ∨ remove s ∈ jobs st.

(** The promise of a call of [shutdown] that has not returned. *)
Definition frame (st : removal) (p : promise) : Prop := (snd <$> holder st) = Some p.
#[export] Instance frame_decision st p : Decision (frame st p).
Proof. unfold frame. apply _. Defined.

(** [shutdown] up to the wait: a new promise, and the function in the queue. *)
Definition shutdown_begin (st : removal) (s : session) : removal :=
  let p := next_promise st in
  mk_removal (idle st) (jobs st ++ [close s p]) (running st) (Some (s, p)) (blocked st)
    (fulfilled st) (kept st) (closed st) (Pos.succ p).

(** The end of [shutdown] and of the function that called it. *)
Definition removed (st : removal) (s : session) : removal :=
  mk_removal (S (idle st)) (jobs st) (running st) None (blocked st) (fulfilled st)
    (kept st ∖ {[s]}) (closed st) (next_promise st).

(** What the socket answers to the function: [remote_endpoint] throws before the promise is
    set, [shutdown] and [close] after it; an exception ends the thread. *)
Inductive socket_answer : Type := endpoint_throws | close_throws | close_ok.
#[export] Instance socket_answer_eq_decision : EqDecision socket_answer.
Proof. solve_decision. Defined.

(** The function that closes the socket, run by a thread when the session exists: [None] when
    it uses a promise that is gone. *)
Definition close_socket (st : removal) (s : session) (p : promise) (a : socket_answer) : option removal :=
  match a with
  | endpoint_throws => Some st
  | _ =>
      if decide (frame st p) then
        Some (mk_removal (if decide (a = close_ok) then S (idle st) else idle st) (jobs st)
          (running st) (holder st) (blocked st) ({[p]} ∪ fulfilled st) (kept st)
          (if decide (a = close_ok) then closed st ++ [s] else closed st) (next_promise st))
      else None
  end.

(** A step; [None] is a use of a promise that is gone. A wait is over when the promise is set
    or after 100 ms, which may pass at any time. *)
Inductive removal_step (st : removal) : option removal → Prop :=
| take_execute n s q :
    idle st = S n → jobs st = execute s :: q →
    removal_step st (Some (mk_removal n q (s :: running st) (holder st) (blocked st)
      (fulfilled st) (kept st) (closed st) (next_promise st)))
| finish_execute l s l' :
    running st = l ++ s :: l' →
    removal_step st (Some (mk_removal (S (idle st)) (jobs st) (l ++ l') (holder st) (blocked st)
      (fulfilled st) (kept st) (closed st) (next_promise st)))
| take_remove n s q :
    idle st = S n → jobs st = remove s :: q →
    removal_step st (Some
      (if decide (holder st = None) then shutdown_begin (set_jobs st n q) s
       else mk_removal n q (running st) (holder st) (blocked st ++ [s]) (fulfilled st) (kept st)
              (closed st) (next_promise st)))
| lock_mutex s b :
    holder st = None → blocked st = s :: b →
    removal_step st (Some (shutdown_begin
      (mk_removal (idle st) (jobs st) (running st) None b (fulfilled st) (kept st) (closed st)
        (next_promise st)) s))
| take_close n s p q a :
    idle st = S n → jobs st = close s p :: q → alive st s →
    removal_step st (close_socket (set_jobs st n q) s p a)
| drop_close n s p q :
    idle st = S n → jobs st = close s p :: q → ¬ alive st s →
    removal_step st (Some (set_jobs st (S n) q))
| wait_over s p :
    holder st = Some (s, p) →
    removal_step st (Some (removed st s))
| more_work j :
    (∀ s p, j ≠ close s p) → (∀ s, j = execute s ∨ j = remove s → alive st s) →
    removal_step st (Some (set_jobs st (idle st) (jobs st ++ [j]))).

Inductive removal_reach (st : removal) : option removal → Prop :=
| removal_here : removal_reach st (Some st)
| removal_more st' o :
    removal_reach st (Some st') → removal_step st' o → removal_reach st o.

Definition fresh_pool (n : nat) (ss : gset session) (l : list job) : removal :=
  mk_removal n l [] None [] ∅ ss [] 1%positive.

(** ** Facts *)

Lemma removal_reach_trans st st1 o :
  removal_reach st (Some st1) → removal_reach st1 o → removal_reach st o.
Proof. intros H1. induction 1 as [|st' o _ IH Hs]; [done|]. by eapply removal_more. Qed.

(** All threads but one execute methods for the session. *)
Definition busy (n k : nat) (s : session) : removal :=
  mk_removal (S n) (replicate n (execute s) ++ [remove s]) (replicate k s) None [] ∅ {[s]} [] 1%positive.

Lemma busy_reach n k s : removal_reach (busy n k s) (Some (busy 0 (n + k) s)).
Proof.
  revert k. induction n as [|n IH]; intros k; [apply removal_here|].
  apply (removal_reach_trans _ (busy n (S k) s)); [|by rewrite Nat.add_succ_comm].
  eapply removal_more; [apply removal_here|]. by eapply (take_execute (busy (S n) k s)).
Qed.

(** ** Theorems *)

(** removing a session while its methods are executed by all other threads leaves a dangling
    reference: with [n + 1] threads, [n] of them executing methods of the session for longer
    than 100 ms, [shutdown] gives up waiting before any thread can run the function it posted,
    and when that function runs it sets a promise that is gone. *)
Theorem removal_late_dangles n s :
  (1 ≤ n)%nat →
  removal_reach (fresh_pool (S n) {[s]} (replicate n (execute s) ++ [remove s])) None.
Proof.
  intros Hn. apply (removal_reach_trans _ (busy 0 n s)).
  { pose proof (busy_reach n 0 s) as Hb. by rewrite Nat.add_0_r in Hb. }
  set (st1 := shutdown_begin (set_jobs (busy 0 n s) 0 []) s).
  apply (removal_more _ (removed st1 s)).
  - apply (removal_more _ st1).
    + eapply removal_more; [apply removal_here|]. by eapply (take_remove (busy 0 n s)).
    + by apply (wait_over st1 s 1%positive).
  - apply (take_close (removed st1 s) 0 s 1%positive [] close_ok); [done|done|].
    right. left. simpl. destruct n as [|n]; [lia|]. simpl. by left.
Qed.

Lemma removal_late_dangles_witness :
  removal_reach (fresh_pool 2 {[5%positive]} [execute 5%positive; remove 5%positive]) None.
Proof. apply (removal_late_dangles 1 5%positive). lia. Defined.
