(* ===== verification/System.v ===== *)
(** The client and the server together.

    A client and one session of a server that exchange whole messages in order: [upstream]
    and [downstream] are the messages written and not yet read. What the transport does to
    the bytes of these messages is the business of [StreamSocket]; [stream_end_to_end] below
    shows that a pair of stream sockets behaves like such a queue, and [TcpSystem] that the
    client and the server over two such sockets behave like this system. *)

From S2P Require Import Prelude Errors MsgpackObject MsgpackUnpack MsgpackAdaptor Message StreamParser Compressor StreamSocket Future Client MethodServer ServerBase Server.
From stdpp Require Import gmap.

Open Scope Z_scope.

Section rpc.
Context {H W T R : Type} `{TupleRoundTrip T} `{RoundTrip R}.

(** The method of the server, the session, and the handler that the user attaches to the
    future of a call. *)
Context (f : T → W → result R * W) (n : std_string) (s : session) (hd : T → loc → H).

(** The text of an exception, as the error of a response. *)
Definition error_text (e : exn) : std_string := String.list_byte_of_string (exception_ops.what e).

Definition response_of (id : msgid_t) (r : result R) : result message_data :=
  match r with
  | Ok x => pack_response id x
  | Throw e => pack_error_response id (error_text e)
  end.

(** The call that the handlers of a typed future get for an outcome of the method. *)
Definition outcome_call (r : result R) : typed_call R :=
  match r with
  | Ok x => on_success x
  | Throw e => on_failure (error_info_ops.make_with_data error_code.unexpected_error
      "error on server" (Some (pack_object (STR (error_text e)))))
  end.

(** Outcomes that a message can carry. *)
Definition sendable (r : result R) : bool :=
  match r with
  | Ok x => packable x && fits (object_of x)
  | Throw e => packable (error_text e)
  end.

Definition callable (args : T) : bool :=
  packable (mk_tuple args) && fits (ARRAY (objects_of args)).

Context (f_sendable : ∀ args w, sendable (f args w).1 = true).
Context (R_throws : ∀ o e, convert (T := R) o = Throw e → e = msgpack_type_error).
Context (n_packable : packable n = true).

(** [r] is what the method returned for [args]; [m] tells the typed future so. *)
Definition produced (args : T) (r : result R) : Prop := ∃ w w', f args w = (r, w').
Definition answered (args : T) (m : message) : Prop :=
  ∃ r, produced args r ∧
    typed_handler quiet_success quiet_failure None m = Some ([outcome_call r], None).

(** ** One call *)

Lemma response_received id r :
  packable id = true → sendable r = true →
  ∃ d m, response_of id r = Ok d ∧ message_ops.make d = Ok m ∧
    type_ m = msgtype_response ∧ msgid_ m = id ∧
    typed_handler quiet_success quiet_failure None m = Some ([outcome_call r], None).
Proof.
  intros Hid Hr. destruct r as [x|e]; simpl in *.
  - apply andb_prop in Hr as [Hx Hf]. destruct (make_response_aux id x) as (d & Hd & Hm); [done..|].
    do 2 eexists. split_and!; [done|done|done|done|].
    rewrite (typed_handler_response_aux _ NIL (object_of x)); [|done..]. simpl.
    by rewrite convert_object_of.
  - destruct (make_error_response_aux id (error_text e)) as (d & Hd & Hm); [done|done|done|].
    do 2 eexists. split_and!; [done|done|done|done|].
    by rewrite (typed_handler_response_aux _ (STR (error_text e)) NIL).
Qed.

Definition request_of (id : Z) (args : T) (d : message_data) : message :=
  request_message (mk_uint32 id) n (ARRAY (objects_of args)) d.

Definition is_request (id : Z) (args : T) (d : message_data) : Prop :=
  packable (mk_uint32 id) = true ∧ elements_packable args = true ∧
  message_ops.make d = Ok (request_of id args d) ∧
  callable args = true ∧ pack_request (mk_uint32 id) n (mk_tuple args) = Ok d.

Lemma request_is_request id args d :
  0 ≤ id < 2 ^ 32 → callable args = true →
  pack_request (mk_uint32 id) n (mk_tuple args) = Ok d → is_request id args d.
Proof.
  intros Hid Hc Hd. pose proof Hc as [Ha Hf]%andb_prop.
  assert (packable (mk_uint32 id) = true) as Hi.
  { apply andb_true_intro. simpl. split; [apply Z.leb_le|apply Z.ltb_lt]; lia. }
  destruct (make_request_aux (mk_uint32 id) n (mk_tuple args)) as (d' & Hd' & Hm); [done..|].
  rewrite Hd' in Hd. injection Hd as ->. split; [done|]. split; [|by split].
  cbn in Ha. by apply andb_prop in Ha as [_ ?].
Qed.

(** The server side of a call. *)
Lemma run_request_exact (sv : server W) id args d ts :
  make_function_method_executor n f ∈ methods_ sv → NoDup (map name (methods_ sv)) →
  is_request id args d → tasks sv = process_task s (request_of id args d) :: ts →
  ∃ d', response_of (mk_uint32 id) (f args (world sv)).1 = Ok d' ∧
    run_task sv = Some (async_write (set_world (set_tasks sv ts) (f args (world sv)).2) s d', None).
Proof.
  intros Hin Hnd (Hid & Ha & _) Ht. unfold run_task, run_task_with, run_base_task, process_message. rewrite Ht.
  unfold request_of. cbn [methods_ set_tasks world].
  rewrite (do_process_request f (methods_ sv) [] (mk_uint32 id) n args d (world sv) Hin Hnd Ha).
  pose proof (f_sendable args (world sv)) as Hs.
  destruct (f args (world sv)) as [r w'] eqn:Ef. simpl in Hs.
  destruct (response_received (mk_uint32 id) r Hid Hs) as (d' & m & Hd' & _).
  exists d'. split; [done|].
  destruct r as [x|e]; simpl in *; [by rewrite Hd'|].
  unfold error_response. cbn [msgid_ request_message]. unfold error_text in Hd'. by rewrite Hd'.
Qed.

Lemma run_request_task (sv : server W) id args d ts :
  make_function_method_executor n f ∈ methods_ sv → NoDup (map name (methods_ sv)) →
  is_request id args d → tasks sv = process_task s (request_of id args d) :: ts →
  ∃ r w' d', produced args r ∧ response_of (mk_uint32 id) r = Ok d' ∧
    run_task sv = Some (async_write (set_world (set_tasks sv ts) w') s d', None).
Proof.
  intros Hin Hnd Hq Ht. destruct (run_request_exact sv id args d ts Hin Hnd Hq Ht) as (d' & Hd' & Hrun).
  eexists _, _, d'. split; [|by split]. exists (world sv), (f args (world sv)).2. by destruct (f args (world sv)).
Qed.

(** ** The system *)

(** [issued] remembers the calls: the arguments and the promise of each message ID;
    [escaped] the exceptions that left a handler. *)
Record system := mk_system {
  sys_client : client H;
  sys_server : server W;
  upstream : list message_data;
  downstream : list message_data;
  issued : gmap Z (T * loc);
  escaped : list exn;
}.

Definition option_list {A} (o : option A) : list A := match o with Some x => [x] | None => [] end.

(** What an operation added to a list of writes. *)
Definition new_writes {A} (old new : list A) : list A := drop (length old) new.

Inductive sys_step (st : system) : system → Prop :=
| step_request args id c' l :
    callable args = true →
    async_request (sys_client st) n (mk_tuple args) = Some (Ok id, c', l) →
    sys_step st (mk_system c' (sys_server st)
      (upstream st ++ new_writes (written (sys_client st)) (written c')) (downstream st)
      (<[id:=(args, l)]> (issued st)) (escaped st))
| step_then id args l c' :
    issued st !! id = Some (args, l) →
    set_future_handler (sys_client st) l (hd args l) = (c', None) →
    sys_step st (mk_system c' (sys_server st) (upstream st) (downstream st) (issued st) (escaped st))
| step_server_read d up sv' e :
    upstream st = d :: up → Server.on_read (sys_server st) s None d = (sv', e) →
    sys_step st (mk_system (sys_client st) sv' up (downstream st) (issued st)
      (escaped st ++ option_list e))
| step_run sv' e :
    tasks (sys_server st) ≠ [] → run_task (sys_server st) = Some (sv', e) →
    sys_step st (mk_system (sys_client st) sv' (upstream st)
      (downstream st ++ (new_writes (writes (sys_server st)) (writes sv')).*2) (issued st)
      (escaped st ++ option_list e))
| step_client_read d down c' e :
    downstream st = d :: down → Client.on_read (sys_client st) None d = (c', e) →
    sys_step st (mk_system c' (sys_server st) (upstream st) down (issued st)
      (escaped st ++ option_list e)).

(** A client just started and a server that knows the method and has nothing to do. *)
Inductive sys_reachable : system → Prop :=
| sys_init c sv :
    construct_client (Some ()) (Some ()) = Ok c →
    make_function_method_executor n f ∈ methods_ sv → NoDup (map name (methods_ sv)) →
    tasks sv = [] → sys_reachable (mk_system (Client.start c) sv [] [] ∅ [])
| sys_next st st' : sys_reachable st → sys_step st st' → sys_reachable st'.

(** ** Invariant *)

(** The promise of the call with arguments [args]. *)
Record promise_ok (args : T) (l : loc) (answered_ : bool) (d : response_future_data H) : Prop := {
  po_response : has_response_ d = answered_;
  po_handler : has_handler_ d = bool_decide (is_Some (on_response_ d)) ∨ answered_ = true;
  po_which : ∀ h, on_response_ d = Some h → h = hd args l;
  po_no_handler : has_handler_ d = false → on_response_ d = None;
  po_waiting : answered_ = false → fd_error_ d = error_info_ops.no_error;
  po_stored : answered_ = true → has_handler_ d = false →
    fd_error_ d = error_info_ops.no_error ∧ answered args (fd_msg_ d);
}.

Definition posted_ok (calls : gmap Z (T * loc)) (t : task H) : Prop :=
  ∃ id args l m, calls !! id = Some (args, l) ∧
    t = (Some (hd args l), error_info_ops.no_error, m) ∧ answered args m.

(** Each call is in exactly one place: its request under way or queued at the server, its
    response under way, or its promise completed. *)
Record sys_inv (st : system) (iu it ir ia : list Z) : Prop := {
  si_client : client_inv (sys_client st);
  si_methods : make_function_method_executor n f ∈ methods_ (sys_server st);
  si_names : NoDup (map name (methods_ (sys_server st)));
  si_requests : requests_ (sys_client st) = snd <$> issued st;
  si_places : iu ++ it ++ ir ++ ia ≡ₚ (map_to_list (issued st)).*1;
  si_up : Forall2 (λ id d, ∃ args l, issued st !! id = Some (args, l) ∧ is_request id args d)
    iu (upstream st);
  si_tasks : Forall2 (λ id t, ∃ args l d, issued st !! id = Some (args, l) ∧
      is_request id args d ∧ t = process_task s (request_of id args d)) it (tasks (sys_server st));
  si_down : Forall2 (λ id d, ∃ args l r, issued st !! id = Some (args, l) ∧
      produced args r ∧ response_of (mk_uint32 id) r = Ok d) ir (downstream st);
  si_promises : ∀ id args l, issued st !! id = Some (args, l) →
    ∃ d, promises (sys_client st) !! l = Some d ∧ promise_ok args l (bool_decide (id ∈ ia)) d;
  si_posted : Forall (posted_ok (issued st)) (posted (sys_client st));
  si_escaped : escaped st = [];
}.

(** ** Every step keeps it *)

Lemma posted_ok_weaken calls calls' ts :
  calls ⊆ calls' → Forall (posted_ok calls) ts → Forall (posted_ok calls') ts.
Proof.
  intros Hsub Hts. eapply Forall_impl; [exact Hts|]. intros t (id & args & l & m & Hid & Ht).
  exists id, args, l, m. split; [by eapply lookup_weaken|done].
Qed.

Lemma issued_promise st iu it ir ia id id' args args' l :
  sys_inv st iu it ir ia → issued st !! id = Some (args, l) → issued st !! id' = Some (args', l) →
  id = id'.
Proof.
  intros Hinv Hi Hi'. destruct (si_client _ _ _ _ _ Hinv) as [_ _ Hinj _].
  apply (Hinj id id' l); rewrite (si_requests _ _ _ _ _ Hinv), lookup_fmap, ?Hi, ?Hi'; done.
Qed.

(** An operation on the promise of one call that the promise accepts. *)
Lemma with_promise_inv st iu it ir ia (ia' : list Z) id args l op d d' ts :
  sys_inv st iu it ir ia → issued st !! id = Some (args, l) →
  promises (sys_client st) !! l = Some d → op d = Ok (d', ts) →
  (∀ id', id' ≠ id → id' ∈ ia' ↔ id' ∈ ia) →
  promise_ok args l (bool_decide (id ∈ ia')) d' → Forall (posted_ok (issued st)) ts →
  ∃ c', with_promise (sys_client st) l op = (c', None) ∧ requests_ c' = requests_ (sys_client st) ∧
    client_inv c' ∧ Forall (posted_ok (issued st)) (posted c') ∧
    (∀ id' args' l', issued st !! id' = Some (args', l') →
      ∃ d, promises c' !! l' = Some d ∧ promise_ok args' l' (bool_decide (id' ∈ ia')) d).
Proof.
  intros Hinv Hid Hd Hop Hia Hd' Hts. unfold with_promise. rewrite Hd, Hop.
  eexists. split; [done|]. split; [done|].
  pose proof Hinv as [[? ? ? Hal] _ _ _ _ _ _ _ Hpr Hpo _]. split_and!.
  - split; simpl; [done..|]. intros i l' Hi. destruct (decide (l = l')) as [<-|Hne].
    + rewrite lookup_insert_eq. eauto.
    + rewrite lookup_insert_ne by done. eauto.
  - simpl. by apply Forall_app.
  - intros id' args' l' Hi. simpl. destruct (decide (l = l')) as [<-|Hne].
    + pose proof (issued_promise _ _ _ _ _ _ _ _ _ _ Hinv Hid Hi) as <-.
      rewrite Hid in Hi. injection Hi as <-. rewrite lookup_insert_eq. eauto.
    + rewrite lookup_insert_ne by done. destruct (Hpr id' args' l' Hi) as (d0 & Hd0 & Hok).
      exists d0. split; [done|]. rewrite (bool_decide_ext _ (id' ∈ ia)); [done|].
      apply Hia. intros ->. rewrite Hid in Hi. by injection Hi as _ ->.
Qed.

Lemma step_then_inv st iu it ir ia id args l c' :
  sys_inv st iu it ir ia → issued st !! id = Some (args, l) →
  set_future_handler (sys_client st) l (hd args l) = (c', None) →
  sys_inv (mk_system c' (sys_server st) (upstream st) (downstream st) (issued st) (escaped st))
    iu it ir ia.
Proof.
  intros Hinv Hid Hset. pose proof Hinv as [Hci ? ? Hrq ? ? ? ? Hpr Hpo ?].
  destruct (Hpr id args l Hid) as (d & Hd & [Hr Hh Hw Hn Hf Hs]).
  assert (∃ d' ts, set_handler d (Some (hd args l)) = Ok (d', ts) ∧
    promise_ok args l (bool_decide (id ∈ ia)) d' ∧ Forall (posted_ok (issued st)) ts) as (d' & ts & Hop & Hok & Hts).
  { unfold set_future_handler, with_promise in Hset. rewrite Hd in Hset. unfold set_handler in *.
    destruct (has_handler_ d) eqn:Eh; [done|]. rewrite Hr in *.
    destruct (bool_decide (id ∈ ia)) eqn:Ea; simpl in *; do 2 eexists; (split; [done|]).
    - destruct (Hs eq_refl eq_refl) as [-> Hans]. split.
      + split; simpl; try done. by right.
      + apply Forall_singleton. by exists id, args, l, (fd_msg_ d).
    - split; [|by apply Forall_nil_2]. split; simpl; try done; [by left|congruence]. }
  destruct (with_promise_inv st iu it ir ia ia id args l (λ d, set_handler d (Some (hd args l)))
    d d' ts Hinv Hid Hd Hop ltac:(done) Hok Hts) as (c'' & Hw' & Hreq & Hc & Hp & Hpr').
  unfold set_future_handler in Hset. rewrite Hw' in Hset. injection Hset as <-.
  split; simpl; try done. by rewrite Hreq.
Qed.

(** A call that goes from the head of one place to the end of the next. *)
Lemma move_id (x : Z) a b c : a ++ (b ++ [x]) ++ c ≡ₚ (x :: a) ++ b ++ c.
Proof.
  rewrite <-(app_assoc b). simpl. rewrite !(app_assoc a b). symmetry. apply Permutation_middle.
Qed.

Lemma promise_ok_new args l : promise_ok args l false construct.
Proof. split; simpl; try done. by left. Qed.

Lemma step_request_inv st iu it ir ia args id c' l :
  sys_inv st iu it ir ia → callable args = true →
  async_request (sys_client st) n (mk_tuple args) = Some (Ok id, c', l) →
  sys_inv (mk_system c' (sys_server st)
      (upstream st ++ new_writes (written (sys_client st)) (written c')) (downstream st)
      (<[id:=(args, l)]> (issued st)) (escaped st)) (iu ++ [id]) it ir ia.
Proof.
  intros [Hci Hm Hnd Hrq Hpl Hup Htk Hdn Hpr Hpo He] Hcall Has.
  apply async_request_sent in Has as (Hl & [Hr Hf Ht Hp (msg & Hmsg & Hw) Hps _] & Hci'); [|done].
  simpl in *. assert (issued st !! id = None) as Hfresh.
  { rewrite Hrq, lookup_fmap in Hf. by destruct (issued st !! id). }
  assert (issued st ⊆ <[id:=(args, l)]> (issued st)) as Hsub by (by apply insert_subseteq).
  assert (∀ id', id' ∈ iu ++ it ++ ir ++ ia → is_Some (issued st !! id')) as Hold.
  { intros id' Hin. rewrite Hpl in Hin. apply list_elem_of_fmap in Hin as ([i v] & -> & Hin).
    apply elem_of_map_to_list in Hin. eauto. }
  assert (∀ id' args' l', issued st !! id' = Some (args', l') → is_Some (promises (sys_client st) !! l'))
    as Hal. { intros id' args' l' Hi. destruct (Hpr id' args' l' Hi) as (d & -> & _). eauto. }
  split; simpl; try done.
  - by rewrite Ht, Hrq, fmap_insert.
  - rewrite map_to_list_insert by done. simpl. rewrite <-Hpl, <-app_assoc. simpl.
    symmetry. apply Permutation_middle.
  - unfold new_writes. rewrite Hw, drop_app_length. apply Forall2_app.
    + eapply Forall2_impl; [exact Hup|]. intros id' d (a & l' & Hi & Hq).
      exists a, l'. split; [by eapply lookup_weaken|done].
    + apply Forall2_cons. split; [|by apply Forall2_nil]. exists args, l.
      rewrite lookup_insert_eq. split; [done|]. by apply request_is_request.
  - eapply Forall2_impl; [exact Htk|]. intros id' d (a & l' & d' & Hi & Hq).
    exists a, l', d'. split; [by eapply lookup_weaken|done].
  - eapply Forall2_impl; [exact Hdn|]. intros id' d (a & l' & r & Hi & Hq).
    exists a, l', r. split; [by eapply lookup_weaken|done].
  - intros id' a l' Hi. rewrite Hp. apply lookup_insert_Some in Hi as [[<- [= <- <-]]|[Hne Hi]].
    + rewrite lookup_insert_eq. eexists. split; [done|].
      rewrite bool_decide_eq_false_2; [apply promise_ok_new|].
      intros Hin. destruct (Hold id) as [? Hx]; [|congruence]. rewrite !elem_of_app. tauto.
    + destruct (Hal id' a l' Hi) as [d0 Hd0].
      rewrite lookup_insert_ne by congruence. by apply Hpr.
  - rewrite Hps. by eapply posted_ok_weaken.
Qed.

Lemma step_server_read_inv st iu it ir ia d up sv' e :
  sys_inv st iu it ir ia → upstream st = d :: up →
  Server.on_read (sys_server st) s None d = (sv', e) →
  ∃ iu' it', sys_inv (mk_system (sys_client st) sv' up (downstream st) (issued st)
    (escaped st ++ option_list e)) iu' it' ir ia.
Proof.
  intros [Hci Hm Hnd Hrq Hpl Hup Htk Hdn Hpr Hpo He] Hu Hr. rewrite Hu in Hup.
  apply Forall2_cons_inv_r in Hup as (id & iu' & (args & l & Hi & Hq) & Hup & ->).
  exists iu', (it ++ [id]). pose proof Hq as (_ & _ & Hmk & _).
  unfold Server.on_read, on_read_with, base_on_read, async_process_message in Hr. simpl in Hr. rewrite Hmk in Hr.
  injection Hr as <- <-. split; simpl; try done.
  - rewrite <-Hpl. apply move_id.
  - apply Forall2_app; [done|]. apply Forall2_cons. split; [|by apply Forall2_nil].
    by exists args, l, d.
  - by rewrite He.
Qed.

Lemma step_run_inv st iu it ir ia :
  sys_inv st iu it ir ia → tasks (sys_server st) ≠ [] →
  ∃ sv' it' ir', run_task (sys_server st) = Some (sv', None) ∧
    sys_inv (mk_system (sys_client st) sv' (upstream st)
      (downstream st ++ (new_writes (writes (sys_server st)) (writes sv')).*2) (issued st)
      (escaped st)) iu it' ir' ia.
Proof.
  intros [Hci Hm Hnd Hrq Hpl Hup Htk Hdn Hpr Hpo He] Ht.
  destruct (tasks (sys_server st)) as [|t ts] eqn:Et; [done|].
  apply Forall2_cons_inv_r in Htk as (id & it' & (args & l & d & Hi & Hq & ->) & Htk & ->).
  destruct (run_request_task (sys_server st) id args d ts Hm Hnd Hq Et) as (r & w' & d' & Hp & Hd' & ->).
  eexists _, it', (ir ++ [id]). split; [done|]. split; simpl; try done.
  - rewrite <-Hpl.
    apply Permutation_app_head, move_id.
  - unfold new_writes. rewrite drop_app_length. simpl. apply Forall2_app; [done|].
    apply Forall2_cons. split; [|by apply Forall2_nil]. by exists args, l, r.
Qed.

(** A response meets the promise of its call. *)
Lemma set_response_ok args l d m :
  promise_ok args l false d → answered args m →
  ∃ d' ts, set_response d m = Ok (d', ts) ∧ promise_ok args l true d' ∧
    (ts = [] ∨ ts = [(Some (hd args l), error_info_ops.no_error, m)]).
Proof.
  intros [Hr Hh Hw Hn Hf Hs] Hm. unfold set_response. rewrite Hr. destruct (on_response_ d) as [h|] eqn:Eh.
  - do 2 eexists. split; [done|]. rewrite (Hw h eq_refl). split; [|by right].
    split; simpl; [done|by right|by intros h' [= <-]|..];
      intros Hc; destruct Hh as [Hh|]; try done; rewrite Hh in *; discriminate || done.
  - do 2 eexists. split; [done|]. split; [|by left]. split; simpl; try done; [by right|].
    intros _ _. split; [by apply Hf|done].
Qed.

Lemma step_client_read_inv st iu it ir ia d down :
  sys_inv st iu it ir ia → downstream st = d :: down →
  ∃ c' ir' ia', Client.on_read (sys_client st) None d = (c', None) ∧
    sys_inv (mk_system c' (sys_server st) (upstream st) down (issued st) (escaped st)) iu it ir' ia'.
Proof.
  intros Hinv Hdw. pose proof Hinv as [Hci Hm Hnd Hrq Hpl Hup Htk Hdn Hpr Hpo He].
  rewrite Hdw in Hdn.
  apply Forall2_cons_inv_r in Hdn as (id & ir' & (args & l & r & Hi & Hp & Hd) & Hdn & ->).
  assert (packable (mk_uint32 id) = true) as Hid.
  { destruct Hci as [_ Hids _ _]. specialize (Hids id l). rewrite Hrq, lookup_fmap, Hi in Hids.
    specialize (Hids eq_refl). apply andb_true_intro. simpl. split; [apply Z.leb_le|apply Z.ltb_lt]; lia. }
  assert (sendable r = true) as Hs by (destruct Hp as (w & w' & Ef); specialize (f_sendable args w); by rewrite Ef in f_sendable).
  destruct (response_received (mk_uint32 id) r Hid Hs) as (d0 & m & Hd0 & Hmk & Hty & Hmid & Hth).
  rewrite Hd in Hd0. injection Hd0 as <-.
  assert (answered args m) as Hans by (by exists r).
  assert (NoDup (iu ++ it ++ (id :: ir') ++ ia)) as Hdup by (rewrite Hpl; apply NoDup_fst_map_to_list).
  assert (id ∉ ia) as Hni.
  { intros Hin. rewrite !app_assoc in Hdup. apply list.NoDup_app in Hdup as (_ & Hdis & _).
    apply (Hdis id); [|done]. rewrite !elem_of_app, elem_of_cons. tauto. }
  destruct (Hpr id args l Hi) as (pd & Hpd & Hok). rewrite bool_decide_eq_false_2 in Hok by done.
  destruct (set_response_ok args l pd m Hok Hans) as (pd' & ts & Hop & Hok' & Hts).
  set (st1 := mk_system (Client.do_read (Client.set_reading (sys_client st) false)) (sys_server st)
    (upstream st) (downstream st) (issued st) (escaped st)).
  assert (sys_inv st1 iu it (id :: ir') ia) as Hinv1.
  { clear -Hinv. destruct Hinv as [[] ? ? ? ? ? ? ? ? ? ?]. by split. }
  destruct (with_promise_inv st1 iu it (id :: ir') ia (id :: ia) id args l (λ d, set_response d m)
    pd pd' ts Hinv1 Hi Hpd Hop) as (c' & Hwp & Hreq & Hc & Hpo' & Hpr').
  { intros id' Hne. rewrite elem_of_cons. tauto. }
  { rewrite bool_decide_eq_true_2; [done|]. apply elem_of_cons. by left. }
  { destruct Hts as [->| ->]; [by apply Forall_nil_2|]. apply Forall_singleton. by exists id, args, l, m. }
  exists c', ir', (id :: ia). split.
  - unfold Client.on_read, handle_response. simpl. rewrite Hmk, decide_True by done.
    rewrite Hmid. simpl. rewrite Hrq, lookup_fmap, Hi. cbn [fmap option_fmap option_map snd].
    change (with_promise _ l _) with (with_promise (sys_client st1) l (λ d, set_response d m)).
    by rewrite Hwp.
  - split; simpl; try done; [by rewrite Hreq|]. rewrite <-Hpl. do 2 apply Permutation_app_head.
    simpl. symmetry. apply Permutation_middle.
Qed.

Lemma sys_reachable_inv st : sys_reachable st → ∃ iu it ir ia, sys_inv st iu it ir ia.
Proof.
  induction 1 as [c sv [= <-] Hm Hnd Ht|st st' _ (iu & it & ir & ia & Hinv) Hs].
  - exists [], [], [], []. by split; simpl; rewrite ?Ht.
  - destruct Hs as [args id c' l Hcall Has|id args l c' Hi Hset|d up sv' e Hu Hr|sv' e Ht Hr|d down c' e Hd Hr].
    + exists (iu ++ [id]), it, ir, ia. by apply step_request_inv.
    + exists iu, it, ir, ia. by eapply step_then_inv.
    + destruct (step_server_read_inv st iu it ir ia d up sv' e Hinv Hu Hr) as (? & ? & ?). eauto.
    + destruct (step_run_inv st iu it ir ia Hinv Ht) as (sv'' & ? & ? & Hr' & ?).
      rewrite Hr in Hr'. injection Hr' as -> ->. simpl. rewrite app_nil_r. eauto.
    + destruct (step_client_read_inv st iu it ir ia d down Hinv Hd) as (c'' & ? & ? & Hr' & ?).
      rewrite Hr in Hr'. injection Hr' as -> ->. simpl. rewrite app_nil_r. eauto.
Qed.
End rpc.
Arguments system : clear implicits.

(** The calls whose promise is completed. *)
Definition answered_calls {H W T} (st : system H W T) : gmap Z (T * loc) :=
  filter (λ '(_, (_, l)), from_option has_response_ false (promises (sys_client st) !! l) = true)
    (issued st).

Lemma answered_calls_size {H W T R} `{TupleRoundTrip T} `{RoundTrip R}
    (f : T → W → result R * W) n s (hd : T → loc → H) st iu it ir ia :
  sys_inv f n s hd st iu it ir ia → size (answered_calls st) = length ia.
Proof.
  intros [_ _ _ _ Hpl _ _ _ Hpr _ _].
  assert (NoDup (iu ++ it ++ ir ++ ia)) as Hnd by (rewrite Hpl; apply NoDup_fst_map_to_list).
  rewrite !app_assoc in Hnd. apply list.NoDup_app in Hnd as (_ & _ & Hnd).
  assert ((map_to_list (answered_calls st)).*1 ≡ₚ ia) as Hp.
  { apply NoDup_Permutation; [apply NoDup_fst_map_to_list|done|]. intros id. split.
    - intros ([i [args l]] & -> & Hin)%list_elem_of_fmap. simpl.
      apply elem_of_map_to_list in Hin. apply map_lookup_filter_Some in Hin as [Hi Hr].
      destruct (Hpr i args l Hi) as (d & Hd & [Hrs _ _ _ _ _]). rewrite Hd in Hr. simpl in Hr.
      rewrite Hr in Hrs. symmetry in Hrs. by apply bool_decide_eq_true in Hrs.
    - intros Hin. assert (id ∈ (map_to_list (issued st)).*1) as Hi.
      { rewrite <-Hpl, !elem_of_app. tauto. }
      apply list_elem_of_fmap in Hi as ([i [args l]] & -> & Hi). apply elem_of_map_to_list in Hi.
      simpl in *. apply list_elem_of_fmap. exists (i, (args, l)). split; [done|].
      apply elem_of_map_to_list, map_lookup_filter_Some. split; [done|].
      destruct (Hpr i args l Hi) as (d & -> & [Hrs _ _ _ _ _]). simpl. rewrite Hrs.
      by apply bool_decide_eq_true_2. }
  apply Permutation_length in Hp. by rewrite length_fmap, length_map_to_list in Hp.
Qed.

(** What the invariant says about the handlers that were posted, and about the calls. *)
Lemma sys_inv_posted {H W T R} `{TupleRoundTrip T} `{RoundTrip R}
    (f : T → W → result R * W) n s (hd : T → loc → H) st iu it ir ia h e m :
  sys_inv f n s hd st iu it ir ia → (h, e, m) ∈ posted (sys_client st) →
  ∃ id args l r w w', issued st !! id = Some (args, l) ∧ h = Some (hd args l) ∧ e = None ∧
    f args w = (r, w') ∧
    typed_handler quiet_success quiet_failure e m = Some ([outcome_call r], None).
Proof.
  intros Hinv Hin. pose proof (si_posted _ _ _ _ _ _ _ _ _ Hinv) as Hp. rewrite Forall_forall in Hp.
  apply Hp in Hin as (id & args & l & m' & Hi & [= -> -> ->] & r & (w & w' & Ef) & Hth).
  by exists id, args, l, r, w, w'.
Qed.

Lemma sys_inv_count {H W T R} `{TupleRoundTrip T} `{RoundTrip R}
    (f : T → W → result R * W) n s (hd : T → loc → H) st iu it ir ia :
  sys_inv f n s hd st iu it ir ia →
  (length (upstream st) + length (tasks (sys_server st)) + length (downstream st) +
   size (answered_calls st) = size (issued st))%nat.
Proof.
  intros Hinv. pose proof (answered_calls_size f n s hd st iu it ir ia Hinv) as Hia.
  destruct Hinv as [_ _ _ _ Hpl Hup Htk Hdn _ _ _].
  pose proof (Permutation_length Hpl) as Hlen. rewrite length_fmap, length_map_to_list, !length_app in Hlen.
  pose proof (Forall2_length _ _ _ Hup). pose proof (Forall2_length _ _ _ Htk).
  pose proof (Forall2_length _ _ _ Hdn). lia.
Qed.

Lemma sys_inv_answered {H W T R} `{TupleRoundTrip T} `{RoundTrip R}
    (f : T → W → result R * W) n s (hd : T → loc → H) st iu it ir ia id args l :
  sys_inv f n s hd st iu it ir ia →
  upstream st = [] → tasks (sys_server st) = [] → downstream st = [] →
  issued st !! id = Some (args, l) →
  ∃ d, promises (sys_client st) !! l = Some d ∧ has_response_ d = true ∧
    (has_handler_ d = false → fd_error_ d = None ∧
      ∃ r w w', f args w = (r, w') ∧
        typed_handler quiet_success quiet_failure None (fd_msg_ d) = Some ([outcome_call r], None)).
Proof.
  intros [_ _ _ _ Hpl Hup Htk Hdn Hpr _ _] Hu Ht Hd Hi. rewrite Hu in Hup. rewrite Ht in Htk. rewrite Hd in Hdn.
  apply Forall2_nil_inv_r in Hup as ->. apply Forall2_nil_inv_r in Htk as ->. apply Forall2_nil_inv_r in Hdn as ->.
  destruct (Hpr id args l Hi) as (d & Hd' & [Hrs _ _ _ _ Hst]). simpl in Hpl.
  assert (id ∈ ia) as Hin.
  { rewrite Hpl. apply list_elem_of_fmap. exists (id, (args, l)). split; [done|]. by apply elem_of_map_to_list. }
  rewrite bool_decide_eq_true_2 in Hrs, Hst by done. exists d. split; [done|]. split; [done|].
  intros Hh. destruct (Hst eq_refl Hh) as [He (r & (w & w' & Ef) & Hth)]. split; [done|]. by exists r, w, w'.
Qed.

(** ** Theorems *)

(** C1: calls never get mixed up: in every state that a client and a server reach, whatever the
    interleaving of calls, handlers, reads and executions, no exception has left a handler, the
    next function of the server's thread pool is defined, and every handler that was posted to
    the client's thread pool is the one attached to a call that was issued, called without
    error with a message that makes the typed future report what the method returned, or
    threw, for the arguments of that same call. *)
Theorem rpc_no_crosstalk {H W T R} `{TupleRoundTrip T} `{RoundTrip R}
    (f : T → W → result R * W) n s (hd : T → loc → H) (st : system H W T) h e m :
  (∀ args w, sendable (f args w).1 = true) →
  (∀ o e, convert (T := R) o = Throw e → e = msgpack_type_error) → packable n = true →
  sys_reachable f n s hd st →
  escaped st = [] ∧ run_task (sys_server st) ≠ None ∧
  ((h, e, m) ∈ posted (sys_client st) →
   ∃ id args l r w w', issued st !! id = Some (args, l) ∧ h = Some (hd args l) ∧ e = None ∧
     f args w = (r, w') ∧
     typed_handler quiet_success quiet_failure e m = Some ([outcome_call r], None)).
Proof.
  intros Hf Hc Hn Hr. destruct (sys_reachable_inv f n s hd Hf Hc Hn st Hr) as (iu & it & ir & ia & Hinv).
  split; [apply Hinv|]. split.
  - destruct (tasks (sys_server st)) eqn:Et; [unfold run_task, run_task_with, run_base_task; by rewrite Et|].
    destruct (step_run_inv f n s hd Hf Hc st iu it ir ia Hinv) as (sv' & ? & ? & -> & _); [by rewrite Et|done].
  - apply (sys_inv_posted f n s hd st iu it ir ia h e m Hinv).
Qed.

(** No call is lost: a call that was issued is always in exactly one place, as its request
    under way, in the queue of the server, as its response under way, or answered; so once
    nothing is under way and the server has nothing to do, the promise of every call holds, or
    has handed to its handler, the outcome of the method for its arguments. *)
Theorem rpc_all_answered {H W T R} `{TupleRoundTrip T} `{RoundTrip R}
    (f : T → W → result R * W) n s (hd : T → loc → H) (st : system H W T) :
  (∀ args w, sendable (f args w).1 = true) →
  (∀ o e, convert (T := R) o = Throw e → e = msgpack_type_error) → packable n = true →
  sys_reachable f n s hd st →
  (length (upstream st) + length (tasks (sys_server st)) + length (downstream st) +
   size (answered_calls st) = size (issued st))%nat ∧
  (upstream st = [] → tasks (sys_server st) = [] → downstream st = [] →
   ∀ id args l, issued st !! id = Some (args, l) →
   ∃ d, promises (sys_client st) !! l = Some d ∧ has_response_ d = true ∧
     (has_handler_ d = false → fd_error_ d = None ∧
       ∃ r w w', f args w = (r, w') ∧
         typed_handler quiet_success quiet_failure None (fd_msg_ d) = Some ([outcome_call r], None))).
Proof.
  intros Hf Hc Hn Hr. destruct (sys_reachable_inv f n s hd Hf Hc Hn st Hr) as (iu & it & ir & ia & Hinv).
  split; [by apply (sys_inv_count f n s hd st iu it ir ia)|].
  intros Hu Ht Hd id args l Hi. by apply (sys_inv_answered f n s hd st iu it ir ia id args l Hinv).
Qed.

(** A server that negates booleans, and one call. *)
Module sample_system.
Definition negate (t : bool * ()) (w : nat) : result bool * nat := (Ok (negb t.1), S w).
Definition method : std_string := [Byte.x6e].
Definition handler_of_call (t : bool * ()) (l : loc) : bool * loc := (t.1, l).

Definition client0 : client (bool * loc) := mk_client 0 ∅ ∅ [] true [] true false.
Definition server0 : server nat :=
  mk_server [make_function_method_executor method negate] [] ∅ [] [] [] [] [] true 0%nat.
Definition st0 : system (bool * loc) nat (bool * ()) := mk_system client0 server0 [] [] ∅ [].
Definition args : bool * () := (true, ()).

(** The states after the request, the registration of its handler, the read of the server,
    the execution of the method and the read of the client. *)
Definition client1 : client (bool * loc) :=
  match async_request client0 method (mk_tuple args) with Some (_, c, _) => c | None => client0 end.
Definition client2 : client (bool * loc) :=
  (set_future_handler client1 1%positive (handler_of_call args 1%positive)).1.
Definition request1 : list message_data := written client1.
Definition server3 : server nat := (Server.on_read server0 5%positive None (default None (head request1))).1.
Definition server4 : server nat :=
  match run_task server3 with Some (sv, _) => sv | None => server3 end.
Definition response4 : list message_data := (writes server4).*2.
Definition client5 : client (bool * loc) :=
  (Client.on_read client2 None (default None (head response4))).1.
Definition calls : gmap Z (bool * () * loc) := {[0 := (args, 1%positive)]}.
Definition st4 := mk_system client2 server4 [] response4 calls [].
Definition st5 : system (bool * loc) nat (bool * ()) := mk_system client5 server4 [] [] calls [].

Lemma negate_sendable t w : sendable (negate t w).1 = true.
Proof. reflexivity. Qed.
Lemma bool_throws o e : convert (T := bool) o = Throw e → e = msgpack_type_error.
Proof. destruct o; simpl; congruence. Qed.

Lemma tasks3 : tasks server3 ≠ [].
Proof. vm_compute. discriminate. Qed.
Lemma run3 : run_task server3 = Some (server4, None).
Proof. vm_cast_no_check (eq_refl (Some (server4, @None exn))). Qed.
Lemma writes4 : [] ++ (new_writes (writes server3) (writes server4)).*2 = response4.
Proof. vm_compute. reflexivity. Qed.

Abbreviation reaches := (sys_reachable negate method 5%positive handler_of_call).
Lemma reach5 : reaches st5.
Proof.
  assert (reaches st0) as R0.
  { exact (sys_init _ _ _ _ (mk_client 0 ∅ ∅ [] false [] false false) server0 eq_refl
      (proj2 (list_elem_of_singleton _ _) eq_refl) (NoDup_singleton _) eq_refl). }
  set (st1 := mk_system client1 server0 request1 [] calls []).
  assert (reaches st1) as R1.
  { exact (sys_next _ _ _ _ st0 st1 R0 (step_request method 5%positive handler_of_call st0 args 0
      client1 1%positive eq_refl eq_refl)). }
  set (st2 := mk_system client2 server0 request1 [] calls []).
  assert (reaches st2) as R2.
  { exact (sys_next _ _ _ _ st1 st2 R1 (step_then method 5%positive handler_of_call st1 0 args
      1%positive client2 eq_refl eq_refl)). }
  set (st3 := mk_system client2 server3 [] [] calls []).
  assert (reaches st3) as R3.
  { exact (sys_next _ _ _ _ st2 st3 R2 (step_server_read method 5%positive handler_of_call st2
      (default None (head request1)) [] server3 None eq_refl eq_refl)). }
  assert (reaches st4) as R4.
  { unfold st4. rewrite <-writes4.
    exact (sys_next _ _ _ _ st3 _ R3 (step_run method 5%positive handler_of_call st3
      server4 None tasks3 run3)). }
  exact (sys_next _ _ _ _ st4 st5 R4 (step_client_read method 5%positive handler_of_call st4
    (default None (head response4)) [] client5 None eq_refl eq_refl)).
Qed.

Lemma rpc_no_crosstalk_witness :
  ∃ m, (Some (true, 1%positive), None, m) ∈ posted (sys_client st5) ∧
    typed_handler quiet_success quiet_failure None m = Some ([on_success false], None).
Proof.
  exists (match posted (sys_client st5) with (_, _, m) :: _ => m | [] => message_ops.empty end).
  assert (∀ h e m, (h, e, m) ∈ posted (sys_client st5) → ∃ r,
    typed_handler quiet_success quiet_failure e m = Some ([outcome_call r], None) ∧
    ∃ w w', negate args w = (r, w')) as Hall.
  { intros h e m Hin.
    destruct (rpc_no_crosstalk negate method 5%positive handler_of_call st5 h e m
      negate_sendable bool_throws eq_refl reach5) as (_ & _ & Hp).
    destruct (Hp Hin) as (id & a & l & r & w & w' & Hi & _ & -> & Hn & Ht).
    exists r. split; [exact Ht|]. exists w, w'. rewrite <-Hn. f_equal.
    change (calls !! id = Some (a, l)) in Hi. unfold calls in Hi.
    apply lookup_singleton_Some in Hi as [_ [= <- _]]. reflexivity. }
  split; [vm_compute; left|]. 
  destruct (Hall (Some (true, 1%positive)) None
    (match posted (sys_client st5) with (_, _, m) :: _ => m | [] => message_ops.empty end))
    as (r & Ht & w & w' & [= <- _]); [vm_compute; left|]. exact Ht.
Defined.

Lemma rpc_all_answered_witness :
  ∃ d, promises (sys_client st5) !! 1%positive = Some d ∧ has_response_ d = true.
Proof.
  destruct (rpc_all_answered negate method 5%positive handler_of_call st5
    negate_sendable bool_throws eq_refl reach5) as [_ Hall].
  destruct (Hall eq_refl eq_refl eq_refl 0 args 1%positive eq_refl) as (d & Hd & Hr & _).
  exists d. split; [exact Hd|exact Hr].
Defined.
End sample_system.

(** ** Two stream sockets *)

Section stream_pair.
Context (alloc_ok : Z → bool).
#[local] Instance pair_parser : StreamingParser msgpack_streaming_parser :=
  msgpack_StreamingParser alloc_ok.
#[local] Instance pair_parser_spec : StreamingParserSpec msgpack_streaming_parser :=
  msgpack_StreamingParserSpec alloc_ok.

Lemma compress_all_null c l : compress_all (C := null_streaming_compressor) c l = Ok (l, c).
Proof. revert c. induction l as [|d l IH]; intros c; [done|]. simpl. by rewrite IH. Qed.

(** The messages of a stream and what is left of it make up the stream. *)
Lemma split_concat data ms r e : StreamParser.split data = (ms, r, e) → data = concat ms ++ r.
Proof.
  remember (length data) as k eqn:Hk. revert data ms Hk.
  induction (lt_wf k) as [k _ IH]. intros data ms ->. rewrite split_unfold.
  destruct (StreamParser.decode data) as [|m r'|e'] eqn:E; [by intros [= <- <- _]| |by intros [= <- <- _]].
  pose proof (decode_shrinks data m r' E) as Hlt. apply msgpack_decode_cut in E.
  destruct (StreamParser.split r') as [[ms' r''] e''] eqn:Es. intros [= <- <- <-]. simpl.
  rewrite <-app_assoc. rewrite E at 1. f_equal. by eapply IH.
Qed.

Lemma split_packed os x :
  Forall (λ o, wf_object o = true) os →
  StreamParser.split (concat (map pack_object os) ++ x) =
  let '(ms, r, e) := StreamParser.split x in (map pack_object os ++ ms, r, e).
Proof.
  induction 1 as [|o os Hwf _ IH]; simpl; [by destruct (StreamParser.split x) as [[? ?] ?]|].
  rewrite <-app_assoc, split_unfold. simpl. rewrite msgpack_decode_packed_aux by done.
  rewrite IH. by destruct (StreamParser.split x) as [[? ?] ?].
Qed.
End stream_pair.

Lemma prefix_map_take {A B} (g : A → B) k l : map g (take k l) `prefix_of` map g l.
Proof. rewrite <-List.firstn_map. exists (drop k (map g l)). by rewrite take_drop. Qed.

(** a pair of stream sockets carries messages in order and whole: if one socket writes packed
    objects without error and the other receives any prefix of the bytes handed to the
    network, in whatever pieces, then the messages delivered are a prefix of those submitted,
    and the bytes received but not delivered are in the buffer of the parser; once everything
    was written and received, these are exactly the missing messages. *)
Theorem stream_end_to_end alloc_ok min_buf {P}
    (ws : stream_socket P null_streaming_compressor) subs tr fl os
    (rs : stream_socket msgpack_streaming_parser null_streaming_compressor) received dl missing :
  let _ := msgpack_StreamingParser alloc_ok in
  let _ := msgpack_StreamingParserSpec alloc_ok in
  0 < min_buf →
  write_history quiet_write mk_null_streaming_compressor ws subs tr fl true →
  map fst subs = map (λ o, Some (pack_object o)) os → Forall (λ o, wf_object o = true) os →
  history min_buf rs received dl →
  concat (map message_data_ops.bytes (sent tr)) = received ++ missing →
  dl `prefix_of` map pack_object os ∧
  ∃ data room, msgpack_represents (parser_ rs) data room ∧ received = concat dl ++ data ∧
    (writing_queue_ ws = [] → missing = [] → data = concat (drop (length dl) (map pack_object os))).
Proof.
  intros Hi1 Hi2 Hmin Hw Hsubs Hwf Hh Hnet.
  destruct (write_history_inv _ _ _ _ _ _ _ Hw) as (done & ? & ? & [Hq _ Hsent (-> & _)]).
  rewrite compress_all_null in Hsent. injection Hsent as Hsent.
  set (k := length (done ++ take 1 (writing_queue_ ws))).
  assert (sent tr = map (λ o, Some (pack_object o)) (take k os)) as Hs.
  { assert (subs = (done ++ take 1 (writing_queue_ ws)) ++ drop 1 (writing_queue_ ws)) as Hq'
      by (by rewrite <-app_assoc, take_drop).
    rewrite <-Hsent, <-List.firstn_map, <-Hsubs, Hq', (map_app _ (done ++ _)).
    replace k with (length (map fst (done ++ take 1 (writing_queue_ ws)))) by apply length_map.
    by rewrite take_app_length. }
  assert (concat (map pack_object (take k os)) = received ++ missing) as Hbytes.
  { rewrite <-Hnet, Hs, map_map. done. }
  destruct (history_inv min_buf Hmin rs received dl Hh) as (data & room & [Hr [Hacc _] _]).
  destruct (StreamParser.split data) as [[ms r] e] eqn:Ed.
  pose proof (split_packed alloc_ok (take k os) [] ltac:(by apply Forall_take)) as Hsp.
  unfold pair_parser_spec, pair_parser in Hsp. subst Hi1 Hi2.
  rewrite app_nil_r in Hsp. rewrite Hbytes, split_app, Hacc in Hsp.
  assert (dl ++ ms `prefix_of` map pack_object os) as Hpre.
  { transitivity (map pack_object (take k os)); [|apply prefix_map_take].
    destruct e as [ex|]; [|destruct (StreamParser.split (r ++ missing)) as [[ms' r'] e']];
      injection Hsp as Hsp; rewrite app_nil_r in Hsp; rewrite <-Hsp; [done|apply prefix_app_r; done]. }
  split; [transitivity (dl ++ ms); [by apply prefix_app_r|done]|].
  exists data, room. split; [exact Hr|].
  apply split_concat in Hacc as Hrec. apply split_concat in Ed as Hdata.
  rewrite concat_app, <-app_assoc, <-Hdata in Hrec. split; [exact Hrec|].
  intros Hempty ->. rewrite app_nil_r in Hbytes.
  assert (take k os = os) as Hall.
  { apply take_ge. rewrite <-(length_map (λ o, Some (pack_object o))), <-Hsubs, length_map, Hq.
    unfold k. by rewrite Hempty. }
  rewrite Hall in Hbytes. rewrite <-Hbytes in Hrec. destruct Hpre as [rest Hrest].
  rewrite <-app_assoc in Hrest. rewrite Hrest, concat_app in Hrec. apply app_inv_head in Hrec.
  by rewrite Hrest, drop_app_length.
Qed.

Module stream_sample.
Import StreamSocket.sample.
Definition objects : list object :=
  [ARRAY [POSITIVE_INTEGER 1; POSITIVE_INTEGER 2]; POSITIVE_INTEGER 3].
Definition submitted : list (message_data * handler) :=
  [(Some [Byte.x92; Byte.x01; Byte.x02], 1%positive); (Some [Byte.x03], 2%positive)].
Definition writer1 : socket := (add_message_to_write socket0 (Some [Byte.x92; Byte.x01; Byte.x02]) 1%positive).1.1.
Definition writer2 : socket := (add_message_to_write writer1 (Some [Byte.x03]) 2%positive).1.1.
Definition writer3 : socket :=
  match StreamSocket.on_write quiet_write writer2 None with Some (w, _, _) => w | None => writer2 end.
Definition trace : list action :=
  [async_write_bytes (Some [Byte.x92; Byte.x01; Byte.x02]);
   call_write_handler 1%positive None; async_write_bytes (Some [Byte.x03])].

Lemma writer_history : write_history quiet_write mk_null_streaming_compressor writer3 submitted trace true true.
Proof.
  pose proof (write_history_submit quiet_write _ socket0 [] [] false true _ 1%positive writer1 _ None
    (write_history_new _ _ sample_parser) eq_refl) as W1.
  pose proof (write_history_submit quiet_write _ writer1 _ _ _ _ _ 2%positive writer2 _ None W1 eq_refl) as W2.
  exact (write_history_written quiet_write _ writer2 _ _ _ None writer3 _ None W2 eq_refl).
Qed.

Lemma stream_end_to_end_witness :
  [[Byte.x92; Byte.x01; Byte.x02]] `prefix_of` map pack_object objects ∧
  ∃ data room, msgpack_represents (parser_ socket3) data room ∧
    [Byte.x92; Byte.x01; Byte.x02; Byte.x03] = concat [[Byte.x92; Byte.x01; Byte.x02]] ++ data ∧
    (writing_queue_ writer3 = [] → @nil byte = [] →
     data = concat (drop 1 (map pack_object objects))).
Proof.
  apply (stream_end_to_end alloc_ok 8 writer3 submitted trace true objects socket3
    [Byte.x92; Byte.x01; Byte.x02; Byte.x03] [[Byte.x92; Byte.x01; Byte.x02]] []).
  - lia.
  - exact writer_history.
  - reflexivity.
  - repeat constructor.
  - exact history3.
  - reflexivity.
Defined.
End stream_sample.
