(* ===== verification/CallOrder.v ===== *)
(** Requests and notifications of a client in order (include/mprpc/client.h, method_client.h and
    include/mprpc/server.h with execution/method_server.h).

    [System] shows what a client learns of its calls. This file shows what they do to the
    server: a client that is connected and is not stopped makes requests and notifications in
    any order, reads messages and attaches handlers; the server, with one thread, reads the messages and executes them. The
    specification is the method as a sequential object. *)

From S2P Require Import Prelude Errors MsgpackObject MsgpackUnpack MsgpackAdaptor Message StreamParser Compressor StreamSocket Future Client MethodServer ServerBase Server System.
From stdpp Require Import gmap relations.

Open Scope Z_scope.

Section order.
Context {H W T R : Type} `{TupleRoundTrip T} `{RoundTrip R}.
Context (f : T → W → result R * W) (n : std_string) (s : session).
Context (f_sendable : ∀ args w, sendable (f args w).1 = true).
Context (R_throws : ∀ o e, convert (T := R) o = Throw e → e = msgpack_type_error).
Context (n_packable : packable n = true).

(** ** The specification *)

(** A call: a request with its message ID, or a notification. *)
Definition call : Type := option Z * T.

(** The calls one after the other: what is left of the world, and the outcomes of the
    requests. *)
Fixpoint serve (l : list call) (w : W) : W * list (Z * result R) :=
  match l with
  | [] => (w, [])
  | (id, args) :: l' =>
      let '(r, w') := f args w in
      let '(w'', rs) := serve l' w' in
      (w'', match id with Some id => (id, r) :: rs | None => rs end)
  end.

Lemma serve_snoc l id args w :
  serve (l ++ [(id, args)]) w =
  ((f args (serve l w).1).2,
   (serve l w).2 ++ match id with Some id => [(id, (f args (serve l w).1).1)] | None => [] end).
Proof.
  revert w. induction l as [|[id' args'] l IH]; intros w; simpl.
  - destruct (f args w) as [r w']. by destruct id.
  - destruct (f args' w) as [r w']. rewrite IH. destruct (serve l w') as [w'' rs]. simpl. by destruct id'.
Qed.

(** ** The system *)

Record session_run := mk_session_run {
  r_client : client H;
  r_server : server W;
  r_up : list message_data;
  r_calls : list call;
  r_escaped : list exn;
}.

(** Steps of the connection and of the server. *)
Inductive run_internal (st : session_run) : session_run → Prop :=
| run_read d up sv' e :
    r_up st = d :: up → Server.on_read (r_server st) s None d = (sv', e) →
    run_internal st (mk_session_run (r_client st) sv' up (r_calls st) (r_escaped st ++ option_list e))
| run_execute sv' e :
    tasks (r_server st) ≠ [] → run_task (r_server st) = Some (sv', e) →
    run_internal st (mk_session_run (r_client st) sv' (r_up st) (r_calls st) (r_escaped st ++ option_list e)).

(** What else happens to a client that is connected and running: any message is read, a write
    is done, a handler is attached to a future. *)
Inductive running_step (c : client H) : client H → Prop :=
| running_read d c' e : Client.on_read c None d = (c', e) → running_step c c'
| running_written id c' e : on_write c id None = (c', e) → running_step c c'
| running_then l h c' e : set_future_handler c l h = (c', e) → running_step c c'.

Lemma running_client_step c c' : running_step c c' → client_step c c'.
Proof. intros [d c1 e Hr|id c1 e Hr|l h c1 e Hr]; by econstructor. Qed.

(** Calls of the user, these events, and the steps above. *)
Inductive run_step (st : session_run) : session_run → Prop :=
| run_request args id c' l :
    callable args = true → async_request (r_client st) n (mk_tuple args) = Some (Ok id, c', l) →
    run_step st (mk_session_run c' (r_server st)
      (r_up st ++ new_writes (written (r_client st)) (written c'))
      (r_calls st ++ [(Some id, args)]) (r_escaped st))
| run_notify args c' :
    callable args = true → notify (r_client st) n (mk_tuple args) = Ok c' →
    run_step st (mk_session_run c' (r_server st)
      (r_up st ++ new_writes (written (r_client st)) (written c'))
      (r_calls st ++ [(None, args)]) (r_escaped st))
| run_client c' :
    running_step (r_client st) c' →
    run_step st (mk_session_run c' (r_server st) (r_up st) (r_calls st) (r_escaped st))
| run_inner st' : run_internal st st' → run_step st st'.

(** A new client, and a server [sv] that knows the method and has nothing to do. *)
Inductive run_reachable (sv : server W) : session_run → Prop :=
| run_new c :
    construct_client (Some ()) (Some ()) = Ok c →
    make_function_method_executor n f ∈ methods_ sv → NoDup (map name (methods_ sv)) → tasks sv = [] →
    run_reachable sv (mk_session_run (Client.start c) sv [] [] [])
| run_next st st' : run_reachable sv st → run_step st st' → run_reachable sv st'.

(** ** One call *)

Definition notification_of (args : T) (d : message_data) : message :=
  mk_message d (notification_object n (ARRAY (objects_of args))) msgtype_notification (mk_uint32 0) n
    (Some (ARRAY (objects_of args))) None None.

(** [d] carries the call, and [m] is what the server makes of it. *)
Definition carries (k : call) (d : message_data) (m : message) : Prop :=
  message_ops.make d = Ok m ∧
  match k with
  | (Some id, args) => is_request n id args d ∧ m = request_of n id args d
  | (None, args) => elements_packable args = true ∧ m = notification_of args d
  end.

Lemma callable_elements args : callable args = true → elements_packable args = true.
Proof. intros [Ha _]%andb_prop. cbn in Ha. by apply andb_prop in Ha as [_ ?]. Qed.

Lemma notification_carried args d :
  callable args = true → pack_notification n (mk_tuple args) = Ok d → ∃ m, carries (None, args) d m.
Proof.
  intros Hc Hd. pose proof Hc as [Ha Hf]%andb_prop.
  destruct (make_notification_aux n (mk_tuple args)) as (d' & Hd' & Hm); [done..|].
  rewrite Hd' in Hd. injection Hd as ->. exists (notification_of args d).
  split; [exact Hm|]. split; [by apply callable_elements|done].
Qed.

Lemma run_notification (sv : server W) args d ts :
  make_function_method_executor n f ∈ methods_ sv → NoDup (map name (methods_ sv)) →
  elements_packable args = true → tasks sv = process_task s (notification_of args d) :: ts →
  run_task sv = Some (set_world (set_tasks sv ts) (f args (world sv)).2, None).
Proof.
  intros Hin Hnd Ha Ht. unfold run_task, run_task_with, run_base_task, process_message, do_process_message. rewrite Ht.
  rewrite decide_False, decide_True by done. cbn [outcome_bind]. unfold message_ops.method. rewrite decide_False by done.
  cbn [methods_ set_tasks world method_ notification_of].
  change n with (name (make_function_method_executor n f)) at 1. rewrite (find_method_known _ _ Hin Hnd).
  cbn [process_notification make_function_method_executor]. unfold function_process_notification, invoke.
  unfold message_ops.params_as, message_ops.access_as. simpl. rewrite convert_objects_of by done. simpl.
  by destruct (f args (world sv)).
Qed.

(** What the execution of a call does to the server. *)
Lemma run_call (sv : server W) id args d m ts :
  make_function_method_executor n f ∈ methods_ sv → NoDup (map name (methods_ sv)) →
  carries (id, args) d m → tasks sv = process_task s m :: ts →
  ∃ sv', run_task sv = Some (sv', None) ∧ methods_ sv' = methods_ sv ∧ tasks sv' = ts ∧
    world sv' = (f args (world sv)).2 ∧
    match id with
    | Some id => ∃ d', response_of (mk_uint32 id) (f args (world sv)).1 = Ok d' ∧ writes sv' = writes sv ++ [(s, d')]
    | None => writes sv' = writes sv
    end.
Proof.
  intros Hin Hnd [_ Hk] Ht. destruct id as [id|]; destruct Hk as [Hq ->].
  - destruct (run_request_exact f n s f_sendable R_throws sv id args d ts Hin Hnd Hq Ht) as (d' & Hd' & Hr).
    eexists. split; [exact Hr|]. split_and!; [done..|]. exists d'. by split.
  - rewrite (run_notification sv args d ts Hin Hnd Hq Ht). eexists. by split.
Qed.

(** ** The invariant *)

(** [w] is the response to a request with outcome [o]. *)
Definition answers (o : Z * result R) (w : session * message_data) : Prop :=
  w.1 = s ∧ response_of (mk_uint32 o.1) o.2 = Ok w.2.

(** The calls are executed, queued or under way, in this order. *)
Record run_inv (sv : server W) (st : session_run) (done tk up : list call) : Prop := {
  ri_client : client_inv (r_client st);
  ri_method : make_function_method_executor n f ∈ methods_ (r_server st);
  ri_names : NoDup (map name (methods_ (r_server st)));
  ri_calls : r_calls st = done ++ tk ++ up;
  ri_tasks : Forall2 (λ k t, ∃ d m, carries k d m ∧ t = process_task s m) tk (tasks (r_server st));
  ri_up : Forall2 (λ k d, ∃ m, carries k d m) up (r_up st);
  ri_world : world (r_server st) = (serve done (world sv)).1;
  ri_writes : ∃ ws, writes (r_server st) = writes sv ++ ws ∧ Forall2 answers (serve done (world sv)).2 ws;
  ri_escaped : r_escaped st = [];
}.

(** A call that was written is under way. *)
Lemma issue_inv sv st done tk up k c' d m :
  run_inv sv st done tk up → client_inv c' → written c' = written (r_client st) ++ [d] → carries k d m →
  run_inv sv (mk_session_run c' (r_server st) (r_up st ++ new_writes (written (r_client st)) (written c'))
    (r_calls st ++ [k]) (r_escaped st)) done tk (up ++ [k]).
Proof.
  intros [Hc Hm Hn Hk Ht Hu Hw Hr He] Hc' Hwr Hcar. unfold new_writes. rewrite Hwr, drop_app_length.
  split; simpl; try done; [by rewrite Hk, !app_assoc|]. apply Forall2_app; [done|]. apply Forall2_cons.
  split; [by exists m|by apply Forall2_nil].
Qed.

Lemma request_inv sv st done tk up args id c' l :
  run_inv sv st done tk up → callable args = true →
  async_request (r_client st) n (mk_tuple args) = Some (Ok id, c', l) →
  run_inv sv (mk_session_run c' (r_server st) (r_up st ++ new_writes (written (r_client st)) (written c'))
    (r_calls st ++ [(Some id, args)]) (r_escaped st)) done tk (up ++ [(Some id, args)]).
Proof.
  intros Hi Hcall Has. pose proof (ri_client _ _ _ _ _ Hi) as Hc.
  apply async_request_sent in Has as (_ & [Hid _ _ _ (d & Hd & Hw) _ _] & Hc'); [|done].
  pose proof (request_is_request n n_packable id args d Hid Hcall Hd) as Hq.
  apply (issue_inv sv st done tk up _ c' d (request_of n id args d) Hi Hc' Hw).
  split; [|by split]. by destruct Hq as (_ & _ & ? & _).
Qed.

Lemma notify_inv sv st done tk up args c' :
  run_inv sv st done tk up → callable args = true → notify (r_client st) n (mk_tuple args) = Ok c' →
  run_inv sv (mk_session_run c' (r_server st) (r_up st ++ new_writes (written (r_client st)) (written c'))
    (r_calls st ++ [(None, args)]) (r_escaped st)) done tk (up ++ [(None, args)]).
Proof.
  intros Hi Hcall Hn. pose proof (client_step_inv _ _ (step_notify _ _ _ _ Hn) (ri_client _ _ _ _ _ Hi)) as Hc'.
  unfold notify in Hn. apply outcome_bind_Ok_inv in Hn as (d & Hd & [= <-]).
  destruct (notification_carried args d Hcall Hd) as [m Hm]. by eapply issue_inv.
Qed.

Lemma read_inv sv st done tk up d us sv' e :
  run_inv sv st done tk up → r_up st = d :: us → Server.on_read (r_server st) s None d = (sv', e) →
  ∃ tk' up', run_inv sv (mk_session_run (r_client st) sv' us (r_calls st) (r_escaped st ++ option_list e))
    done tk' up'.
Proof.
  intros [Hc Hm Hn Hk Ht Hu Hw Hr He] Eu Hrd. rewrite Eu in Hu.
  apply Forall2_cons_inv_r in Hu as (k & up' & (m & Hcar) & Hu & ->). exists (tk ++ [k]), up'.
  unfold Server.on_read, on_read_with, base_on_read, async_process_message in Hrd. simpl in Hrd.
  rewrite (proj1 Hcar) in Hrd. injection Hrd as <- <-. split; simpl; try done.
  - by rewrite Hk, <-(app_assoc tk).
  - apply Forall2_app; [done|]. apply Forall2_cons. split; [by exists d, m|by apply Forall2_nil].
  - by rewrite He.
Qed.

Lemma execute_inv sv st done tk up sv' e :
  run_inv sv st done tk up → tasks (r_server st) ≠ [] → run_task (r_server st) = Some (sv', e) →
  ∃ done' tk', run_inv sv (mk_session_run (r_client st) sv' (r_up st) (r_calls st) (r_escaped st ++ option_list e))
    done' tk' up.
Proof.
  intros [Hc Hm Hn Hk Ht Hu Hw (ws & Hws & Ha) He] Hne Hrun.
  destruct (tasks (r_server st)) as [|t ts] eqn:Et; [done|].
  apply Forall2_cons_inv_r in Ht as ([id args] & tk' & (d & m & Hcar & ->) & Ht & ->).
  destruct (run_call _ id args d m ts Hm Hn Hcar Et) as (sv'' & Hrun' & Hms & Hts & Hwd & Hwr).
  rewrite Hrun in Hrun'. injection Hrun' as <- ->. exists (done ++ [(id, args)]), tk'.
  rewrite Hw in Hwd, Hwr. split; simpl.
  - done.
  - by rewrite Hms.
  - by rewrite Hms.
  - by rewrite Hk, <-app_assoc.
  - by rewrite Hts.
  - done.
  - by rewrite serve_snoc, Hwd.
  - rewrite serve_snoc. simpl. destruct id as [id|].
    + destruct Hwr as (d' & Hd' & ->). exists (ws ++ [(s, d')]). rewrite Hws, app_assoc. split; [done|].
      apply Forall2_app; [done|]. apply Forall2_cons. split; [by split|by apply Forall2_nil].
    + exists ws. rewrite Hwr, app_nil_r. by split.
  - by rewrite He.
Qed.

Lemma run_reachable_inv sv st : run_reachable sv st → ∃ done tk up, run_inv sv st done tk up.
Proof.
  induction 1 as [c Hc Hm Hn Ht|st st' _ (done & tk & up & Hi) Hs].
  - exists [], [], []. split; simpl; try done.
    + injection Hc as <-. apply client_reachable_inv. eapply reachable_step; [apply reachable_new|apply step_start].
    + rewrite Ht. by apply Forall2_nil.
    + exists []. rewrite app_nil_r. split; [done|by apply Forall2_nil].
  - destruct Hs as [args id c' l Hc Hr|args c' Hc Hr|c' Hc|st' [d us sv' e Eu Hr|sv' e Hne Hr]].
    + eexists _, _, _. by eapply request_inv.
    + eexists _, _, _. by eapply notify_inv.
    + exists done, tk, up. destruct Hi as [Hci ? ? ? ? ? ? ? ?]. split; simpl; try done.
      eapply client_step_inv; [by apply running_client_step|done].
    + destruct (read_inv _ _ _ _ _ _ _ _ _ Hi Eu Hr) as (tk' & up' & ?). eauto.
    + destruct (execute_inv _ _ _ _ _ _ _ Hi Hne Hr) as (done' & tk' & ?). eauto.
Qed.

(** ** Progress *)

Definition run_measure (st : session_run) : nat := 2 * length (r_up st) + length (tasks (r_server st)).

Lemma internal_decreases sv st done tk up st' :
  run_inv sv st done tk up → run_internal st st' →
  (run_measure st' < run_measure st)%nat ∧ ∃ done' tk' up', run_inv sv st' done' tk' up'.
Proof.
  intros Hi Hs. unfold run_measure. destruct Hs as [d us sv' e Eu Hr|sv' e Hne Hr].
  - destruct (read_inv _ _ _ _ _ _ _ _ _ Hi Eu Hr) as (tk' & up' & Hi'). split; [|eauto].
    pose proof (Forall2_length _ _ _ (ri_tasks _ _ _ _ _ Hi)) as H1'.
    pose proof (Forall2_length _ _ _ (ri_tasks _ _ _ _ _ Hi')) as H2'.
    pose proof (Forall2_length _ _ _ (ri_up _ _ _ _ _ Hi')) as H3'.
    pose proof (Forall2_length _ _ _ (ri_up _ _ _ _ _ Hi)) as H4'.
    pose proof (f_equal length (ri_calls _ _ _ _ _ Hi)) as E1. rewrite !length_app in E1.
    pose proof (f_equal length (ri_calls _ _ _ _ _ Hi')) as E2. rewrite !length_app in E2.
    simpl in *. rewrite Eu in *. simpl in *. lia.
  - destruct (execute_inv _ _ _ _ _ _ _ Hi Hne Hr) as (done' & tk' & Hi'). split; [|eauto].
    destruct Hi as [_ Hm Hn _ Ht _ _ _ _].
    destruct (tasks (r_server st)) as [|t ts] eqn:Et; [done|].
    apply Forall2_cons_inv_r in Ht as ([id args] & tk'' & (d & m & Hcar & ->) & _ & _).
    destruct (run_call _ id args d m ts Hm Hn Hcar Et) as (sv'' & Hrun' & _ & Hts & _).
    rewrite Hr in Hrun'. injection Hrun' as <- _. simpl. rewrite Hts. lia.
Qed.

Lemma internal_enabled sv st done tk up :
  run_inv sv st done tk up → nf run_internal st → tk = [] ∧ up = [].
Proof.
  intros [_ Hm Hn _ Ht Hu _ _ _] Hnf. split.
  - destruct tk as [|[id args] tk]; [done|]. exfalso. apply Hnf.
    apply Forall2_cons_inv_l in Ht as (t & ts & (d & m & Hcar & ->) & _ & Et).
    destruct (run_call _ id args d m ts Hm Hn Hcar Et) as (sv' & Hr & _).
    eexists. eapply run_execute; [by rewrite Et|exact Hr].
  - destruct up as [|k up]; [done|]. exfalso. apply Hnf.
    apply Forall2_cons_inv_l in Hu as (d & us & _ & _ & Eu).
    destruct (Server.on_read (r_server st) s None d) as [sv' e] eqn:Er. eexists. by eapply run_read.
Qed.

Lemma internal_sn sv st done tk up : run_inv sv st done tk up → sn run_internal st.
Proof.
  remember (run_measure st) as k eqn:Hk. revert st done tk up Hk.
  induction (lt_wf k) as [k _ IH]. intros st done tk up -> Hi. constructor. intros st' Hs.
  destruct (internal_decreases _ _ _ _ _ _ Hi Hs) as (Hlt & done' & tk' & up' & Hi'). by eapply IH.
Qed.
End order.

(** C12: a server with one thread is a sequential object, for a client that stays connected and
    is not stopped (no read or write fails, and no call is made after [stop]): after any run the
    calls of the client, requests and notifications alike, have been executed in the order in
    which they were made, each once, up to some point, and the rest are still queued or under
    way; the world of the server is what the method makes of it in that order, the responses
    written are those of the requests executed, in order and with their message IDs, and a
    notification is never answered, also when the method throws; no exception leaves a handler
    of the server. The steps of the server come to an end in whatever order they happen, and
    then every call has been executed. *)
Theorem calls_in_order {H W T R} `{TupleRoundTrip T} `{RoundTrip R} (f : T → W → result R * W) n s sv
    (st : @session_run H W T) :
  (∀ args w, sendable (f args w).1 = true) →
  (∀ o e, convert (T := R) o = Throw e → e = msgpack_type_error) → packable n = true →
  run_reachable f n s sv st →
  (∃ done todo ws, r_calls st = done ++ todo ∧
    length todo = (length (tasks (r_server st)) + length (r_up st))%nat ∧
    world (r_server st) = (serve f done (world sv)).1 ∧
    writes (r_server st) = writes sv ++ ws ∧ Forall2 (answers s) (serve f done (world sv)).2 ws) ∧
  r_escaped st = [] ∧
  sn (run_internal s) st ∧
  (nf (run_internal s) st → world (r_server st) = (serve f (r_calls st) (world sv)).1).
Proof.
  intros Hf HR Hn Hr. destruct (run_reachable_inv f n s Hf HR Hn sv st Hr) as (done & tk & up & Hi).
  pose proof Hi as [_ _ _ Hk Ht Hu Hw (ws & Hws & Ha) He]. split_and!.
  - exists done, (tk ++ up), ws. rewrite length_app, (Forall2_length _ _ _ Ht), (Forall2_length _ _ _ Hu).
    by split_and!.
  - done.
  - by eapply (internal_sn f n s).
  - intros Hnf. destruct (internal_enabled f n s Hf HR sv st done tk up Hi Hnf) as [-> ->].
    by rewrite Hk, app_nil_r.
Qed.

(** ** A notification whose method throws, followed by a request *)

Module sample_order.
Import sample_system.

(** A counter that refuses to be switched on. *)
Definition switch (t : bool * ()) (w : nat) : result bool * nat :=
  (if t.1 then Throw (mprpc_exception (error_info_ops.make error_code.unexpected_error "on")) else Ok true, S w).
Lemma switch_sendable t w : sendable (switch t w).1 = true.
Proof. by destruct t as [[]]. Qed.

Definition counter : server nat :=
  mk_server [make_function_method_executor method switch] [] ∅ [] [] [] [] [] true 0%nat.
Definition notified : client (bool * loc) :=
  match notify client0 method (mk_tuple (true, ())) with Ok c => c | Throw _ => client0 end.
Definition requested : client (bool * loc) :=
  match async_request notified method (mk_tuple (false, ())) with Some (_, c, _) => c | None => notified end.
Definition message1 : message_data := default None (head (written requested)).
Definition message2 : message_data := default None (head (tail (written requested))).
Definition counter1 : server nat := (Server.on_read counter 5%positive None message1).1.
Definition counter2 : server nat := match run_task counter1 with Some (sv, _) => sv | None => counter1 end.
Definition counter3 : server nat := (Server.on_read counter2 5%positive None message2).1.
Definition sample_calls : list (call (T := bool * ())) := [(None, (true, ())); (Some 0, (false, ()))].

Abbreviation reaches := (run_reachable (H := bool * loc) switch method 5%positive counter).
Definition run0 : session_run (T := bool * ()) := mk_session_run client0 counter [] [] [].
Definition run1 : session_run := mk_session_run notified counter [message1] [(None, (true, ()))] [].
Definition run2 : session_run := mk_session_run requested counter [message1; message2] sample_calls [].
Definition run3 : session_run := mk_session_run requested counter1 [message2] sample_calls [].
Definition run4 : session_run := mk_session_run requested counter2 [message2] sample_calls [].
Definition run5 : session_run := mk_session_run requested counter3 [] sample_calls [].

Lemma counter1_tasks : tasks counter1 ≠ [].
Proof. vm_compute. discriminate. Qed.
Lemma counter1_runs : run_task counter1 = Some (counter2, None).
Proof.
  assert (snd <$> run_task counter1 = Some None) as E by (vm_compute; reflexivity).
  unfold counter2. destruct (run_task counter1) as [[sv e]|]; [|discriminate]. simpl in E.
  injection E as ->. reflexivity.
Qed.

Lemma reach_run5 : reaches run5.
Proof.
  assert (reaches run0) as R0.
  { exact (run_new _ _ _ counter (mk_client 0 ∅ ∅ [] false [] false false) eq_refl
      (proj2 (list_elem_of_singleton _ _) eq_refl) (NoDup_singleton _) eq_refl). }
  assert (reaches run1) as R1.
  { exact (run_next _ _ _ _ _ run1 R0 (run_notify method 5%positive run0 (true, ()) notified eq_refl eq_refl)). }
  assert (reaches run2) as R2.
  { exact (run_next _ _ _ _ _ run2 R1
      (run_request method 5%positive run1 (false, ()) 0 requested 1%positive eq_refl eq_refl)). }
  assert (reaches run3) as R3.
  { exact (run_next _ _ _ _ _ run3 R2 (run_inner _ _ run2 run3
      (run_read 5%positive run2 message1 [message2] counter1 None eq_refl eq_refl))). }
  assert (reaches run4) as R4.
  { exact (run_next _ _ _ _ _ run4 R3 (run_inner _ _ run3 run4
      (run_execute 5%positive run3 counter2 None counter1_tasks counter1_runs))). }
  exact (run_next _ _ _ _ _ run5 R4 (run_inner _ _ run4 run5
      (run_read 5%positive run4 message2 [] counter3 None eq_refl eq_refl))).
Qed.

Lemma calls_in_order_witness :
  (∃ done todo ws, sample_calls = done ++ todo ∧ length todo = 1%nat ∧
    world counter3 = (serve switch done 0%nat).1 ∧ writes counter3 = ws ∧
    Forall2 (answers 5%positive) (serve switch done 0%nat).2 ws) ∧ world counter3 = 1%nat.
Proof.
  split; [|reflexivity].
  destruct (calls_in_order switch method 5%positive counter run5 switch_sendable bool_throws eq_refl reach_run5)
    as [(done & todo & ws & Hc & Hl & Hw & Hws & Ha) _].
  exists done, todo, ws. split; [exact Hc|]. split; [exact Hl|]. split; [exact Hw|]. split; [exact Hws|exact Ha].
Defined.
End sample_order.
