(* ===== verification/MultiSystem.v ===== *)
(** Many clients and one server.

    Clients connect and go away, each with its own method and its own handlers; the server
    keeps one queue of tasks for all sessions, and its threads may finish the tasks in any
    order. What a client had sent before it went may still be read, and asking its session for
    the address of the remote end may throw. Each connection is shown to behave like the single one of [System], seen through
    the tasks of its own session. *)

From S2P Require Import Prelude Errors MsgpackObject MsgpackUnpack MsgpackAdaptor Message StreamParser Compressor StreamSocket Future Client MethodServer ServerBase Server System.
From stdpp Require Import gmap.

Open Scope Z_scope.

(** The tasks that process messages of one session. *)
Definition processes (s : session) (t : server_task) : bool :=
  match t with process_task s' _ => bool_decide (s' = s) | remove_task _ => false end.
Definition own (s : session) (ts : list server_task) : list server_task :=
  filter (λ t, processes s t = true) ts.

Lemma own_app s ts ts' : own s (ts ++ ts') = own s ts ++ own s ts'.
Proof. apply filter_app. Qed.
Lemma own_mine s m ts : own s (process_task s m :: ts) = process_task s m :: own s ts.
Proof. unfold own. rewrite filter_cons_True; [done|]. simpl. by apply bool_decide_eq_true. Qed.
Lemma own_other s t ts : processes s t = false → own s (t :: ts) = own s ts.
Proof. intros Ht. unfold own. rewrite filter_cons_False; [done|]. by rewrite Ht. Qed.
Lemma own_perm s ts ts' : ts ≡ₚ ts' → own s ts ≡ₚ own s ts'.
Proof. unfold own. by intros ->. Qed.

(** What a thread does with a task does not depend on the tasks behind it. *)
Lemma run_task_frame {W} remote (sv : server W) s m ts sv' e :
  run_task_with remote (set_tasks sv (process_task s m :: ts)) = Some (sv', e) →
  tasks sv' = ts ∧ methods_ sv' = methods_ sv ∧
  (∃ l, writes sv' = writes sv ++ l ∧ Forall (λ x, x.1 = s) l) ∧
  ∀ ts', run_task_with remote (set_tasks sv (process_task s m :: ts')) = Some (set_tasks sv' ts', e).
Proof.
  unfold run_task_with, run_base_task, process_message. simpl.
  destruct (do_process_message _ _ m _) as [[[[[er ex] d]|x] w]|]; [..|done]; intros [= <- <-].
  - unfold on_execution. destruct (error_info_ops.has_error er); [|destruct ex]; simpl;
      (split; [done|]; split; [done|]; split; [|done]).
    + exists []. by rewrite app_nil_r.
    + exists [(s, d)]. split; [done|]. by apply Forall_singleton.
    + exists []. by rewrite app_nil_r.
  - split; [done|]. split; [done|]. split; [|done]. exists []. by rewrite app_nil_r.
Qed.

Section clients.
Context {H W T R : Type} `{TupleRoundTrip T} `{RoundTrip R}.
Context (f : session → T → W → result R * W) (n : session → std_string) (hd : session → T → loc → H).
Context (f_sendable : ∀ s args w, sendable (f s args w).1 = true).
Context (R_throws : ∀ o e, convert (T := R) o = Throw e → e = msgpack_type_error).
Context (n_packable : ∀ s, packable (n s) = true).

Record connection := mk_connection {
  cn_client : client H;
  cn_up : list message_data;
  cn_down : list message_data;
  cn_issued : gmap Z (T * loc);
}.

(** [ns_gone] holds the sessions whose client has gone, with what it sent and the server has
    not read; [ns_escaped] the exceptions that left a handler or a function of the thread pool,
    with the session it worked for. *)
Record network_state := mk_network_state {
  connections : gmap session connection;
  ns_gone : gmap session (list message_data);
  ns_server : server W;
  ns_escaped : list (session * exn);
}.

Definition escapes (s : session) (e : option exn) : list (session * exn) :=
  match e with Some e => [(s, e)] | None => [] end.

Definition set_connection (st : network_state) (s : session) (c : connection) (sv : server W)
    (es : list (session * exn)) : network_state :=
  mk_network_state (<[s := c]> (connections st)) (ns_gone st) sv (ns_escaped st ++ es).

Definition task_session (t : server_task) : session :=
  match t with process_task s _ => s | remove_task s => s end.

(** Asking a session for the address of its remote end succeeds while its client is there. *)
Definition addresses (st : network_state) (remote : session → result std_string) : Prop :=
  ∀ s, is_Some (connections st !! s) → ∃ a, remote s = Ok a.

(** The responses that an execution wrote to a session. *)
Definition delivered_to (s : session) (l : list (session * message_data)) : list message_data :=
  (filter (λ x, x.1 = s) l).*2.
Definition deliver (l : list (session * message_data)) (cs : gmap session connection) : gmap session connection :=
  map_imap (λ s c, Some (mk_connection (cn_client c) (cn_up c) (cn_down c ++ delivered_to s l) (cn_issued c))) cs.

Inductive net_step (st : network_state) : network_state → Prop :=
| net_accept s a c sv' e :
    connections st !! s = None → ns_gone st !! s = None →
    construct_client (Some ()) (Some ()) = Ok c → Server.on_accept (ns_server st) a None s = (sv', e) →
    net_step st (set_connection st s (mk_connection (Client.start c) [] [] ∅) sv' (escapes s e))
| net_leave s c :
    connections st !! s = Some c →
    net_step st (mk_network_state (delete s (connections st)) (<[s := cn_up c]> (ns_gone st))
      (ns_server st) (ns_escaped st))
| net_gone_read s d up sv' e :
    ns_gone st !! s = Some (d :: up) → Server.on_read (ns_server st) s None d = (sv', e) →
    net_step st (mk_network_state (connections st) (<[s := up]> (ns_gone st)) sv'
      (ns_escaped st ++ escapes s e))
| net_disconnect s up err d sv' e :
    ns_gone st !! s = Some up → Server.on_read (ns_server st) s (Some err) d = (sv', e) →
    net_step st (mk_network_state (connections st) (<[s := []]> (ns_gone st)) sv'
      (ns_escaped st ++ escapes s e))
| net_shutdown s remote :
    s ∈ shutdowns (ns_server st) → addresses st remote →
    net_step st (mk_network_state (connections st) (ns_gone st) (ns_server st)
      (ns_escaped st ++ escapes s (match remote s with Ok _ => None | Throw e => Some e end)))
| net_request s c args id c' l :
    connections st !! s = Some c → callable args = true →
    async_request (cn_client c) (n s) (mk_tuple args) = Some (Ok id, c', l) →
    net_step st (set_connection st s
      (mk_connection c' (cn_up c ++ new_writes (written (cn_client c)) (written c')) (cn_down c)
        (<[id := (args, l)]> (cn_issued c))) (ns_server st) [])
| net_then s c id args l c' :
    connections st !! s = Some c → cn_issued c !! id = Some (args, l) →
    set_future_handler (cn_client c) l (hd s args l) = (c', None) →
    net_step st (set_connection st s (mk_connection c' (cn_up c) (cn_down c) (cn_issued c)) (ns_server st) [])
| net_server_read s c d up sv' e :
    connections st !! s = Some c → cn_up c = d :: up → Server.on_read (ns_server st) s None d = (sv', e) →
    net_step st (set_connection st s (mk_connection (cn_client c) up (cn_down c) (cn_issued c)) sv' (escapes s e))
| net_run remote l1 t l2 sv' e :
    tasks (ns_server st) = l1 ++ t :: l2 → addresses st remote →
    run_task_with remote (set_tasks (ns_server st) (t :: l1 ++ l2)) = Some (sv', e) →
    net_step st (mk_network_state
      (deliver (new_writes (writes (ns_server st)) (writes sv')) (connections st)) (ns_gone st) sv'
      (ns_escaped st ++ escapes (task_session t) e))
| net_client_read s c d down c' e :
    connections st !! s = Some c → cn_down c = d :: down → Client.on_read (cn_client c) None d = (c', e) →
    net_step st (set_connection st s (mk_connection c' (cn_up c) down (cn_issued c)) (ns_server st) (escapes s e)).

(** A server that knows all methods and has nothing to do. *)
Inductive net_reachable : network_state → Prop :=
| net_init sv :
    (∀ s, make_function_method_executor (n s) (f s) ∈ methods_ sv) → NoDup (map name (methods_ sv)) →
    tasks sv = [] → shutdowns sv = [] → net_reachable (mk_network_state ∅ ∅ sv [])
| net_next st st' : net_reachable st → net_step st st' → net_reachable st'.

(** ** Each connection is a single client with its own part of the server *)

Definition view (s : session) (c : connection) (sv : server W) : system H W T :=
  mk_system (cn_client c) (set_tasks sv (own s (tasks sv))) (cn_up c) (cn_down c) (cn_issued c) [].

Abbreviation single s := (sys_inv (f s) (n s) s (hd s)).

(** A task that processes a request, of a session that may be gone, or removes one that is. *)
Definition request_task (known gone : gset session) (t : server_task) : Prop :=
  match t with
  | remove_task s => s ∈ gone
  | process_task s m => s ∈ known ∧ ∃ id args d, is_request (n s) id args d ∧ m = request_of (n s) id args d
  end.

(** The sessions whose client has gone. *)
Abbreviation departed st := (dom (ns_gone st)).
Abbreviation known st := (dom (connections st) ∪ dom (ns_gone st)).

Record net_inv (st : network_state) : Prop := {
  ni_methods : ∀ s, make_function_method_executor (n s) (f s) ∈ methods_ (ns_server st);
  ni_names : NoDup (map name (methods_ (ns_server st)));
  ni_tasks : Forall (request_task (known st) (departed st)) (tasks (ns_server st));
  ni_views : ∀ s c, connections st !! s = Some c →
    ∃ iu it ir ia, single s (view s c (ns_server st)) iu it ir ia;
  ni_gone : ∀ s up, ns_gone st !! s = Some up →
    connections st !! s = None ∧ Forall (λ d, ∃ id args, is_request (n s) id args d) up;
  ni_shutdowns : Forall (λ s, s ∈ departed st) (shutdowns (ns_server st));
  ni_escaped : Forall (λ x, x.1 ∈ departed st) (ns_escaped st);
}.

Lemma request_tasks_mono k g k' g' ts :
  k ⊆ k' → g ⊆ g' → Forall (request_task k g) ts → Forall (request_task k' g') ts.
Proof. intros Hk Hg Ht. eapply Forall_impl; [exact Ht|]. intros [s m|s]; simpl; set_solver. Qed.

(** A session that was never accepted has no tasks. *)
Lemma unknown_no_tasks k g s ts : s ∉ k → Forall (request_task k g) ts → own s ts = [].
Proof.
  intros Hs. induction 1 as [|t ts Ht _ IH]; [done|]. rewrite own_other; [done|].
  destruct t as [s' m|s']; [|done]. apply bool_decide_eq_false_2. intros ->. by destruct Ht.
Qed.

(** The invariant of a connection looks at the methods and at its own tasks, in any order. *)
Lemma single_server s cl sv sv' up down iss iu it ir ia :
  single s (mk_system cl sv up down iss []) iu it ir ia →
  methods_ sv' = methods_ sv → tasks sv' ≡ₚ tasks sv →
  ∃ it', single s (mk_system cl sv' up down iss []) iu it' ir ia.
Proof.
  intros [Hci Hm Hnd Hrq Hpl Hup Htk Hdn Hpr Hpo He] Em Et. simpl in *.
  assert (∃ it', it ≡ₚ it' ∧ Forall2 (λ id t, ∃ args l d, iss !! id = Some (args, l) ∧
    is_request (n s) id args d ∧ t = process_task s (request_of (n s) id args d)) it' (tasks sv')) as (it' & Hp & Htk').
  { symmetry in Et. clear -Htk Et. revert it Htk. induction Et as [|x l l' _ IH|x y l|l l' l'' _ IH _ IH']; intros it Htk.
    - by exists it.
    - apply Forall2_cons_inv_r in Htk as (i & it0 & Hx & Htk & ->). destruct (IH it0 Htk) as (it' & Hp & Hf).
      exists (i :: it'). split; [by constructor|by constructor].
    - apply Forall2_cons_inv_r in Htk as (i & it0 & Hx & Htk & ->).
      apply Forall2_cons_inv_r in Htk as (j & it1 & Hy & Htk & ->).
      exists (j :: i :: it1). split; [constructor|by repeat constructor].
    - destruct (IH it Htk) as (it' & Hp & Hf). destruct (IH' it' Hf) as (it'' & Hp' & Hf').
      exists it''. split; [by transitivity it'|done]. }
  exists it'. split; simpl; try done.
  - by rewrite Em.
  - by rewrite Em.
  - by rewrite <-Hpl, Hp.
Qed.

Lemma single_frame s c sv sv' :
  methods_ sv' = methods_ sv → own s (tasks sv') ≡ₚ own s (tasks sv) →
  (∃ iu it ir ia, single s (view s c sv) iu it ir ia) → ∃ iu it ir ia, single s (view s c sv') iu it ir ia.
Proof.
  intros Em Et (iu & it & ir & ia & Hs).
  destruct (single_server s (cn_client c) _ (set_tasks sv' (own s (tasks sv'))) _ _ _ iu it ir ia Hs) as [it' Hs'];
    [done|done|]. by exists iu, it', ir, ia.
Qed.

Lemma connected_not_gone st s c : net_inv st → connections st !! s = Some c → ns_gone st !! s = None.
Proof.
  intros Hi Hc. destruct (ns_gone st !! s) as [up|] eqn:E; [|done].
  destruct (ni_gone _ Hi s up E) as [Hn _]. congruence.
Qed.

(** One connection changes, and the server changes in nothing that the others look at. *)
Lemma set_connection_inv st s c sv :
  net_inv st → ns_gone st !! s = None → methods_ sv = methods_ (ns_server st) →
  Forall (request_task ({[s]} ∪ known st) (departed st)) (tasks sv) → shutdowns sv = shutdowns (ns_server st) →
  (∀ s', s' ≠ s → own s' (tasks sv) = own s' (tasks (ns_server st))) →
  (∃ iu it ir ia, single s (view s c sv) iu it ir ia) → net_inv (set_connection st s c sv []).
Proof.
  intros [Hm Hnd Ht Hv Hg Hsh He] Hng Em Htk Esh Ho Hs. split; simpl; rewrite ?Em, ?Esh, ?app_nil_r; try done.
  1:{ eapply request_tasks_mono; [|reflexivity|exact Htk]. rewrite dom_insert. set_solver. }
  2:{ intros s' up Hs'. destruct (Hg s' up Hs') as [Hn Hf]. split; [|done]. rewrite lookup_insert_ne; [done|congruence]. }
  intros s' c'. destruct (decide (s' = s)) as [->|Hne]; [rewrite lookup_insert_eq; by intros [= <-]|].
  rewrite lookup_insert_ne by done. intros Hc. apply (single_frame s' c' (ns_server st)); [done|by rewrite Ho|by apply Hv].
Qed.

(** A step of a client alone. *)
Lemma connected_step_inv st s c0 c :
  net_inv st → connections st !! s = Some c0 →
  (∃ iu it ir ia, single s (view s c (ns_server st)) iu it ir ia) →
  net_inv (set_connection st s c (ns_server st) []).
Proof.
  intros Hi Hc Hs. apply set_connection_inv; try done; [by eapply connected_not_gone|].
  eapply request_tasks_mono; [|reflexivity|apply Hi]. set_solver.
Qed.

Lemma net_accept_inv st s a c sv' e :
  net_inv st → connections st !! s = None → ns_gone st !! s = None →
  construct_client (Some ()) (Some ()) = Ok c → Server.on_accept (ns_server st) a None s = (sv', e) →
  net_inv (set_connection st s (mk_connection (Client.start c) [] [] ∅) sv' (escapes s e)).
Proof.
  intros Hi Hno Hng [= <-] [= <- <-]. pose proof Hi as [Hm Hnd Ht Hv Hg Hsh He].
  assert (own s (tasks (ns_server st)) = []) as Hown.
  { eapply unknown_no_tasks; [|exact Ht]. apply not_elem_of_union. by rewrite !not_elem_of_dom. }
  apply set_connection_inv; try done; [eapply request_tasks_mono; [|reflexivity|exact Ht]; set_solver|].
  exists [], [], [], []. split; simpl; try done. by rewrite Hown.
Qed.

Lemma net_leave_inv st s c :
  net_inv st → connections st !! s = Some c →
  net_inv (mk_network_state (delete s (connections st)) (<[s := cn_up c]> (ns_gone st)) (ns_server st) (ns_escaped st)).
Proof.
  intros [Hm Hnd Ht Hv Hg Hsh He] Hc. destruct (Hv s c Hc) as (iu & it & ir & ia & Hs).
  assert (departed st ⊆ dom (<[s := cn_up c]> (ns_gone st))) as Hsub by (rewrite dom_insert; set_solver).
  split; simpl; try done.
  - eapply request_tasks_mono; [|exact Hsub|exact Ht]. rewrite dom_delete, dom_insert. intros x Hx.
    destruct (decide (x = s)); set_solver.
  - intros s' c' [_ Hc']%lookup_delete_Some. by apply Hv.
  - intros s' up. rewrite lookup_insert_Some. intros [[<- <-]|[Hne Hup]].
    + split; [apply lookup_delete_eq|]. pose proof (si_up _ _ _ _ _ _ _ _ _ Hs) as Hu. simpl in Hu.
      apply Forall_forall. intros d [i Hd]%list_elem_of_lookup_1.
      destruct (Forall2_lookup_r _ _ _ _ _ Hu Hd) as (id & _ & args & l & _ & Hq). by exists id, args.
    + destruct (Hg s' up Hup) as [Hn Hf]. split; [|done]. by rewrite lookup_delete_ne.
  - eapply Forall_impl; [exact Hsh|]. set_solver.
  - eapply Forall_impl; [exact He|]. set_solver.
Qed.

(** A step of the server for a session that is gone leaves the connections as they are. *)
Lemma gone_step_inv st s up0 up sv' e :
  net_inv st → ns_gone st !! s = Some up0 → Forall (λ d, ∃ id args, is_request (n s) id args d) up →
  methods_ sv' = methods_ (ns_server st) → Forall (request_task (known st) (departed st)) (tasks sv') →
  Forall (λ s, s ∈ departed st) (shutdowns sv') →
  (∀ s', s' ≠ s → own s' (tasks sv') ≡ₚ own s' (tasks (ns_server st))) →
  net_inv (mk_network_state (connections st) (<[s := up]> (ns_gone st)) sv' (ns_escaped st ++ escapes s e)).
Proof.
  intros [Hm Hnd Ht Hv Hg Hsh He] Hs Hup Em Htk Hsh' Ho.
  assert (dom (<[s := up]> (ns_gone st)) = departed st) as Hdom.
  { rewrite dom_insert_L. apply elem_of_dom_2 in Hs. set_solver. }
  destruct (Hg s up0 Hs) as [Hn _]. split; simpl; rewrite ?Em, ?Hdom; try done.
  - intros s' c Hc. apply (single_frame s' c (ns_server st)); [done|apply Ho; congruence|by apply Hv].
  - intros s' up'. rewrite lookup_insert_Some. intros [[<- <-]|[_ Hup']]; [done|by apply Hg].
  - apply Forall_app. split; [done|]. destruct e; [|constructor]. apply Forall_singleton. simpl.
    by apply elem_of_dom_2 in Hs.
Qed.

Lemma net_gone_read_inv st s d up sv' e :
  net_inv st → ns_gone st !! s = Some (d :: up) → Server.on_read (ns_server st) s None d = (sv', e) →
  net_inv (mk_network_state (connections st) (<[s := up]> (ns_gone st)) sv' (ns_escaped st ++ escapes s e)).
Proof.
  intros Hi Hs Hr. pose proof Hi as [Hm Hnd Ht Hv Hg Hsh He]. destruct (Hg s _ Hs) as [_ Hf].
  apply Forall_cons in Hf as [(id & args & Hq) Hf]. pose proof Hq as (_ & _ & Hmk & _).
  unfold Server.on_read, on_read_with, base_on_read, async_process_message in Hr. simpl in Hr. rewrite Hmk in Hr.
  injection Hr as <- <-. eapply gone_step_inv; try done; simpl.
  - apply Forall_app. split; [done|]. apply Forall_singleton. simpl. split; [|by exists id, args, d].
    apply elem_of_dom_2 in Hs. set_solver.
  - intros s' Hne. rewrite own_app, own_other, app_nil_r; [done|]. simpl. by apply bool_decide_eq_false_2.
Qed.

Lemma net_disconnect_inv st s up err d sv' e :
  net_inv st → ns_gone st !! s = Some up → Server.on_read (ns_server st) s (Some err) d = (sv', e) →
  net_inv (mk_network_state (connections st) (<[s := []]> (ns_gone st)) sv' (ns_escaped st ++ escapes s e)).
Proof.
  intros Hi Hs [= <- <-]. pose proof Hi as [Hm Hnd Ht Hv Hg Hsh He].
  eapply gone_step_inv; try done; simpl; [|intros s' _; by rewrite own_app, app_nil_r].
  apply Forall_app. split; [done|]. apply Forall_singleton. simpl. by apply elem_of_dom_2 in Hs.
Qed.

Lemma net_shutdown_inv st s (remote : session → result std_string) :
  net_inv st → s ∈ shutdowns (ns_server st) →
  net_inv (mk_network_state (connections st) (ns_gone st) (ns_server st)
    (ns_escaped st ++ escapes s (match remote s with Ok _ => None | Throw e => Some e end))).
Proof.
  intros [Hm Hnd Ht Hv Hg Hsh He] Hs. split; simpl; try done. apply Forall_app. split; [done|].
  destruct (remote s); [constructor|]. apply Forall_singleton. simpl. rewrite Forall_forall in Hsh. by apply Hsh.
Qed.

Lemma net_server_read_inv st s c d up sv' e :
  net_inv st → connections st !! s = Some c → cn_up c = d :: up →
  Server.on_read (ns_server st) s None d = (sv', e) →
  net_inv (set_connection st s (mk_connection (cn_client c) up (cn_down c) (cn_issued c)) sv' (escapes s e)).
Proof.
  intros Hi Hc Hu Hr. pose proof Hi as [Hm Hnd Ht Hv Hg Hsh He]. destruct (Hv s c Hc) as (iu & it & ir & ia & Hs).
  pose proof (si_up _ _ _ _ _ _ _ _ _ Hs) as Hup. simpl in Hup. rewrite Hu in Hup.
  apply Forall2_cons_inv_r in Hup as (id & iu' & (args & l & Hid & Hq) & Hup & ->).
  pose proof Hq as (_ & _ & Hmk & _).
  unfold Server.on_read, on_read_with, base_on_read, async_process_message in Hr. simpl in Hr. rewrite Hmk in Hr.
  injection Hr as <- <-. apply set_connection_inv; simpl; try done.
  - by eapply connected_not_gone.
  - apply Forall_app. split; [eapply request_tasks_mono; [|reflexivity|exact Ht]; set_solver|].
    apply Forall_singleton. simpl. split; [set_solver|by exists id, args, d].
  - intros s' Hne. rewrite own_app, own_other, app_nil_r; [done|]. simpl. by apply bool_decide_eq_false_2.
  - destruct (step_server_read_inv (f s) (n s) s (hd s) (view s c (ns_server st)) (id :: iu') it ir ia d up
      (do_read (post (set_tasks (ns_server st) (own s (tasks (ns_server st)))) (process_task s (request_of (n s) id args d))) s)
      None Hs) as (iu2 & it2 & Hs'); [done| |].
    + unfold Server.on_read, on_read_with, base_on_read, async_process_message. simpl. by rewrite Hmk.
    + simpl in Hs'. edestruct (single_server s (cn_client c)) as [it3 Hs3]; [exact Hs'|..|by exists iu2, it3, ir, ia].
      * done.
      * simpl. by rewrite own_app, own_mine.
Qed.

Lemma delivered_mine s l : Forall (λ x, x.1 = s) l → delivered_to s l = l.*2.
Proof.
  unfold delivered_to. induction 1 as [|x l Hx _ IH]; [done|].
  rewrite filter_cons_True by done. exact (f_equal (cons x.2) IH).
Qed.
Lemma delivered_other s s' l : Forall (λ x, x.1 = s') l → s ≠ s' → delivered_to s l = [].
Proof.
  unfold delivered_to. intros Hl Hne. induction Hl as [|x l Hx _ IH]; [done|].
  by rewrite filter_cons_False by congruence.
Qed.

Lemma deliver_lookup l cs s c :
  deliver l cs !! s = Some c → ∃ c0, cs !! s = Some c0 ∧
    c = mk_connection (cn_client c0) (cn_up c0) (cn_down c0 ++ delivered_to s l) (cn_issued c0).
Proof.
  unfold deliver. rewrite map_lookup_imap. destruct (cs !! s) as [c0|] eqn:E; simpl; [|done].
  intros [= <-]. eauto.
Qed.

(** A thread executes a request of a session that is still connected. *)
Lemma run_connected a remote s c sv l1 m l2 sv' e l :
  remote s = Ok a →
  (∃ iu it ir ia, single s (view s c sv) iu it ir ia) → tasks sv = l1 ++ process_task s m :: l2 →
  run_task_with remote (set_tasks sv (process_task s m :: l1 ++ l2)) = Some (sv', e) →
  writes sv' = writes sv ++ l → Forall (λ x, x.1 = s) l →
  e = None ∧ ∃ iu it ir ia,
    single s (view s (mk_connection (cn_client c) (cn_up c) (cn_down c ++ delivered_to s l) (cn_issued c)) sv') iu it ir ia.
Proof.
  intros Hrem (iu & it & ir & ia & Hs) Ht Hrun Hw Hl.
  destruct (run_task_frame remote sv s m _ sv' e Hrun) as (Htk & Hms & _ & Hframe).
  assert (own s (tasks sv) ≡ₚ process_task s m :: own s (l1 ++ l2)) as Hp.
  { rewrite Ht, <-own_mine. apply own_perm. symmetry. apply Permutation_middle. }
  destruct (single_server s (cn_client c) _ (set_tasks sv (process_task s m :: own s (l1 ++ l2))) _ _ _ iu it ir ia Hs)
    as [it' Hs']; [done|by symmetry|].
  destruct (step_run_inv (f s) (n s) s (hd s) (f_sendable s) R_throws _ iu it' ir ia Hs')
    as (sv'' & it2 & ir2 & Hr2 & Hs2); [done|].
  simpl in Hr2, Hs2. rewrite <-(run_task_connected remote) in Hr2 by (intros ? ? ? [= <- _ _]; eauto).
  rewrite (Hframe (own s (l1 ++ l2))) in Hr2. injection Hr2 as <- ->. split; [done|].
  exists iu, it2, ir2, ia. unfold view. simpl. rewrite Htk, delivered_mine by done.
  simpl in Hs2. unfold new_writes in Hs2. rewrite Hw, drop_app_length in Hs2. done.
Qed.

(** What any thread leaves of the server: a task less, the others as they were. *)
Lemma run_request_frame remote (sv : server W) t ts k g sv' e :
  (∀ s, make_function_method_executor (n s) (f s) ∈ methods_ sv) → NoDup (map name (methods_ sv)) →
  request_task k g t → run_task_with remote (set_tasks sv (t :: ts)) = Some (sv', e) →
  tasks sv' = ts ∧ methods_ sv' = methods_ sv ∧
  (∃ l, writes sv' = writes sv ++ l ∧ Forall (λ x, x.1 = task_session t) l) ∧
  (∀ s, s ∈ shutdowns sv' → s ∈ shutdowns sv ∨ s ∈ g) ∧
  ((∃ a, remote (task_session t) = Ok a) → e = None).
Proof.
  intros Hm Hnd Hreq Hrun. destruct t as [s m|s]; simpl.
  - destruct (run_task_frame _ _ _ _ _ _ _ Hrun) as (Htk & Hms & Hl & _). split_and!; try done.
    + intros s' Hs'. left. revert Hrun Hs'. unfold run_task_with, run_base_task, process_message. simpl.
      destruct (do_process_message _ _ m _) as [[[[[er ex] d]|x] w]|]; [..|done]; intros [= <- <-]; [|done].
      unfold on_execution. by destruct (error_info_ops.has_error er); [|destruct ex].
    + intros [a Ha]. rewrite (run_task_connected remote) in Hrun by (intros ? ? ? [= <- _ _]; eauto).
      destruct Hreq as (_ & id & args & d & Hq & ->).
      destruct (run_request_task (f s) (n s) s (f_sendable s) R_throws
        (set_tasks sv (process_task s (request_of (n s) id args d) :: ts)) id args d ts)
        as (r & w' & d' & _ & _ & Hr); [done..|]. rewrite Hrun in Hr. by injection Hr as _ ->.
  - injection Hrun as <- <-. simpl. split_and!; try done.
    + exists []. by rewrite app_nil_r.
    + intros s' [?|<-%list_elem_of_singleton]%elem_of_app; [by left|by right].
Qed.

Lemma net_run_inv st remote l1 t l2 sv' e :
  net_inv st → tasks (ns_server st) = l1 ++ t :: l2 → addresses st remote →
  run_task_with remote (set_tasks (ns_server st) (t :: l1 ++ l2)) = Some (sv', e) →
  net_inv (mk_network_state (deliver (new_writes (writes (ns_server st)) (writes sv')) (connections st))
    (ns_gone st) sv' (ns_escaped st ++ escapes (task_session t) e)).
Proof.
  intros Hi Htk Hadr Hrun. pose proof Hi as [Hm Hnd Ht Hv Hg Hsh He]. rewrite Htk in Ht.
  assert (Forall (request_task (known st) (departed st)) (l1 ++ l2) ∧ request_task (known st) (departed st) t) as [Hrest Hreq].
  { apply Forall_app in Ht as [H7 H8]. apply Forall_cons in H8 as [H9 H10]. split; [by apply Forall_app|done]. }
  destruct (run_request_frame _ _ _ _ _ _ _ _ Hm Hnd Hreq Hrun) as (Htk' & Hms & (l & Hw & Hl) & Hsd & Hesc).
  split; simpl; rewrite ?Hms, ?Htk'; try done.
  - eapply request_tasks_mono; [|reflexivity|exact Hrest]. intros x. rewrite !elem_of_union, !elem_of_dom.
    intros [[c Hc]|Hx]; [left|by right]. unfold deliver. rewrite map_lookup_imap, Hc. by eexists.
  - unfold new_writes. rewrite Hw, drop_app_length. intros s' c (c0 & Hc & ->)%deliver_lookup.
    destruct t as [s m|s]; simpl in Hl; [destruct (decide (s' = s)) as [->|Hne]|].
    + destruct (Hadr s (mk_is_Some _ _ Hc)) as [a Ha]. eapply run_connected; [exact Ha|by apply Hv|done..].
    + rewrite (delivered_other s' s), app_nil_r by done.
      apply (single_frame s' _ (ns_server st)); [done| |by destruct c0; apply Hv].
      rewrite Htk', Htk, !own_app, (own_other s' (process_task _ _)); [done|]. simpl. by apply bool_decide_eq_false_2.
    + assert (s' ≠ s) as Hne.
      { intros ->. simpl in Hreq. apply elem_of_dom in Hreq as [up Hup]. destruct (Hg s up Hup) as [Hn _]. congruence. }
      rewrite (delivered_other s' s), app_nil_r by done.
      apply (single_frame s' _ (ns_server st)); [done| |by destruct c0; apply Hv].
      by rewrite Htk', Htk, !own_app, (own_other s' (remove_task s)).
  - intros s up Hup. destruct (Hg s up Hup) as [Hn Hf]. split; [|done]. unfold deliver. by rewrite map_lookup_imap, Hn.
  - rewrite Forall_forall in Hsh. apply Forall_forall. intros s [?|?]%Hsd; [by apply Hsh|done].
  - apply Forall_app. split; [done|]. destruct e as [e|]; [|constructor]. apply Forall_singleton. simpl.
    destruct (ns_gone st !! task_session t) as [up|] eqn:E; [by apply elem_of_dom_2 in E|].
    destruct (connections st !! task_session t) as [c|] eqn:Ec.
    { discriminate (Hesc (Hadr _ (mk_is_Some _ _ Ec))). }
    apply not_elem_of_dom in E, Ec. destruct t; simpl in *; [destruct Hreq as [Hk _]|]; set_solver.
Qed.

Lemma net_step_inv st st' : net_inv st → net_step st st' → net_inv st'.
Proof.
  intros Hi Hst. destruct Hst as [s a c sv' e Hno Hng Hc Hacc|s c Hc|s d up sv' e Hs Hr|s up err d sv' e Hs Hr|s remote Hs Hadr
    |s c args id c' l Hc Hcall Has|s c id args l c' Hc Hid Hset|s c d up sv' e Hc Hu Hr|remote l1 t l2 sv' e Ht Hadr Hr
    |s c d down c' e Hc Hd Hr].
  - by eapply net_accept_inv.
  - by apply net_leave_inv.
  - by eapply net_gone_read_inv.
  - by eapply net_disconnect_inv.
  - by apply net_shutdown_inv.
  - destruct (ni_views _ Hi s c Hc) as (iu & it & ir & ia & Hs). apply connected_step_inv with c; try done.
    exists (iu ++ [id]), it, ir, ia.
    by apply (step_request_inv (f s) (n s) s (hd s) (n_packable s) (view s c (ns_server st))).
  - destruct (ni_views _ Hi s c Hc) as (iu & it & ir & ia & Hs). apply connected_step_inv with c; try done.
    exists iu, it, ir, ia.
    by eapply (step_then_inv (f s) (n s) s (hd s) (view s c (ns_server st))).
  - by eapply net_server_read_inv.
  - by eapply net_run_inv.
  - destruct (ni_views _ Hi s c Hc) as (iu & it & ir & ia & Hs).
    destruct (step_client_read_inv (f s) (n s) s (hd s) (f_sendable s) R_throws (view s c (ns_server st)) iu it ir ia d down Hs)
      as (c'' & ir' & ia' & Hr' & Hs'); [done|]. simpl in Hr'. rewrite Hr in Hr'. injection Hr' as -> ->.
    apply connected_step_inv with c; try done. by exists iu, it, ir', ia'.
Qed.

Lemma net_reachable_inv st : net_reachable st → net_inv st.
Proof.
  induction 1 as [sv Hm Hnd Ht Hsh|st st' _ IH Hst]; [|by eapply net_step_inv].
  split; simpl; rewrite ?Ht, ?Hsh; done.
Qed.
End clients.

(** ** Theorem *)

Arguments network_state : clear implicits.
Arguments connection : clear implicits.

(** C4: clients do not disturb each other: however many clients connect to a server, call methods
    and go away, and in whatever order the threads of the server finish its tasks, an exception
    leaves a handler or a function of the thread pool only for a session whose client has gone
    (whose address can no longer be asked for), never for one that is connected; every handler
    posted for a client is the one attached to a call that this same client issued, with the
    outcome of its method for the arguments of that call; each call of a connected client is in
    exactly one place, and once nothing of a client is under way all its calls are answered,
    whatever the others do. *)
Theorem clients_isolated {H W T R} `{TupleRoundTrip T} `{RoundTrip R}
    (f : session → T → W → result R * W) (n : session → std_string) (hd : session → T → loc → H)
    (st : network_state H W T) s c :
  (∀ s args w, sendable (f s args w).1 = true) →
  (∀ o e, convert (T := R) o = Throw e → e = msgpack_type_error) → (∀ s, packable (n s) = true) →
  net_reachable f n hd st → connections st !! s = Some c →
  (∀ s' e, (s', e) ∈ ns_escaped st →
   connections st !! s' = None ∧ is_Some (ns_gone st !! s')) ∧
  (∀ h e m, (h, e, m) ∈ posted (cn_client c) →
   ∃ id args l r w w', cn_issued c !! id = Some (args, l) ∧ h = Some (hd s args l) ∧ e = None ∧
     f s args w = (r, w') ∧
     typed_handler quiet_success quiet_failure e m = Some ([outcome_call r], None)) ∧
  (length (cn_up c) + length (own s (tasks (ns_server st))) + length (cn_down c) +
   size (answered_calls (view s c (ns_server st))) = size (cn_issued c))%nat ∧
  (cn_up c = [] → own s (tasks (ns_server st)) = [] → cn_down c = [] →
   ∀ id args l, cn_issued c !! id = Some (args, l) →
   ∃ d, promises (cn_client c) !! l = Some d ∧ has_response_ d = true ∧
     (has_handler_ d = false → fd_error_ d = None ∧
       ∃ r w w', f s args w = (r, w') ∧
         typed_handler quiet_success quiet_failure None (fd_msg_ d) = Some ([outcome_call r], None))).
Proof.
  intros Hf Hc Hn Hr Hs. destruct (net_reachable_inv f n hd Hf Hc Hn st Hr) as [_ _ _ Hv Hg _ He].
  destruct (Hv s c Hs) as (iu & it & ir & ia & Hinv). split.
  { intros s' e Hin. rewrite Forall_forall in He. apply He in Hin as [up Hup]%elem_of_dom.
    simpl in Hup. destruct (Hg s' up Hup) as [Hno _]. by split; [|exists up]. }
  split.
  - intros h e m Hin. by apply (sys_inv_posted (f s) (n s) s (hd s) _ iu it ir ia h e m Hinv).
  - split; [by apply (sys_inv_count (f s) (n s) s (hd s) _ iu it ir ia Hinv)|].
    intros Hu Ht Hd id args l Hi. by apply (sys_inv_answered (f s) (n s) s (hd s) _ iu it ir ia id args l Hinv).
Qed.

(** Three clients of the server of [sample_system]: all call the method, the third goes away
    before its request is executed, and the tasks of the server are finished in reverse order:
    asking for the address of the third throws. *)
Module sample_clients.
Import sample_system.
Abbreviation negates := (λ _ : session, negate).
Abbreviation methods := (λ _ : session, method).
Abbreviation handlers := (λ _ : session, handler_of_call).
Abbreviation reaches := (net_reachable negates methods handlers).

Abbreviation conn := (connection (bool * loc) (bool * ())).
Abbreviation state := (network_state (bool * loc) nat (bool * ())).

Definition idle : conn := mk_connection client0 [] [] ∅.
Definition calling : conn := mk_connection client1 ([] ++ new_writes [] request1) [] (<[0 := (args, 1%positive)]> ∅).
Definition waiting : conn := mk_connection client1 [] [] calls.
Definition the_request : message_data := default None (head request1).
Definition not_connected : exn :=
  std_runtime_error "remote_endpoint: Transport endpoint is not connected".

Definition s0 : state := mk_network_state ∅ ∅ server0 [].
Definition accepted (st : state) (s : session) : state :=
  set_connection st s idle (Server.on_accept (ns_server st) 1%positive None s).1 [].
Definition called (st : state) (s : session) : state := set_connection st s calling (ns_server st) [].
Definition read (st : state) (s : session) : state :=
  set_connection st s waiting (Server.on_read (ns_server st) s None the_request).1 [].
Definition left (st : state) (s : session) : state :=
  mk_network_state (delete s (connections st)) (<[s := []]> (ns_gone st)) (ns_server st) (ns_escaped st).
(** The last task is run. *)
Definition remote (s : session) : result std_string :=
  if decide (s = 7%positive) then Throw not_connected else Ok [].
Definition first_tasks (st : state) : list server_task := removelast (tasks (ns_server st)).
Definition last_task (st : state) : server_task :=
  default (remove_task 1%positive) (last (tasks (ns_server st))).
Definition ran_server (st : state) : server nat * option exn :=
  default (server0, None) (run_task_with remote (set_tasks (ns_server st) (last_task st :: first_tasks st ++ []))).
Definition ran (st : state) : state := mk_network_state
  (deliver (new_writes (writes (ns_server st)) (writes (ran_server st).1)) (connections st)) (ns_gone st)
  (ran_server st).1 (ns_escaped st ++ escapes (task_session (last_task st)) (ran_server st).2).

Definition s3 : state := accepted (accepted (accepted s0 5%positive) 6%positive) 7%positive.
Definition s6 : state := called (called (called s3 5%positive) 6%positive) 7%positive.
Definition s9 : state := read (read (read s6 5%positive) 6%positive) 7%positive.
Definition s10 : state := left s9 7%positive.
Definition s12 : state := ran (ran s10).
Definition response : message_data := default None (head (writes (ns_server s12)).*2).
Definition client13 : client (bool * loc) := (Client.on_read client1 None response).1.
Definition done13 : conn := mk_connection client13 [] [] calls.
Definition s13 : state := set_connection s12 6%positive done13 (ns_server s12) [].

Lemma reach_accepted st s :
  reaches st → connections st !! s = None → ns_gone st !! s = None → reaches (accepted st s).
Proof.
  intros Hr Hn Hg. eapply net_next; [exact Hr|].
  by apply (net_accept methods handlers st s 1%positive (mk_client 0 ∅ ∅ [] false [] false false) (Server.on_accept (ns_server st) 1%positive None s).1 None Hn Hg).
Qed.
Lemma reach_called st s : reaches st → connections st !! s = Some idle → reaches (called st s).
Proof.
  intros Hr Hc. eapply net_next; [exact Hr|].
  exact (net_request methods handlers st s idle args 0 client1 1%positive Hc eq_refl eq_refl).
Qed.
Lemma reach_read st s : reaches st → connections st !! s = Some calling → reaches (read st s).
Proof.
  intros Hr Hc. eapply net_next; [exact Hr|].
  exact (net_server_read methods handlers st s calling the_request [] _ None Hc eq_refl eq_refl).
Qed.
Lemma reach_ran st :
  reaches st → tasks (ns_server st) = first_tasks st ++ [last_task st] → connections st !! 7%positive = None →
  match run_task_with remote (set_tasks (ns_server st) (last_task st :: first_tasks st ++ [])) with
  | Some _ => true
  | None => false
  end = true → reaches (ran st).
Proof.
  intros Hr Ht Hc Hrun. eapply net_next; [exact Hr|].
  apply (net_run methods handlers st remote (first_tasks st) (last_task st) [] (ran_server st).1 (ran_server st).2).
  - exact Ht.
  - intros s [c Hs]. exists []. unfold remote. rewrite decide_False; [done|]. intros ->. discriminate (eq_trans (eq_sym Hc) Hs).
  - unfold ran_server. by destruct (run_task_with _ _) as [[sv e]|].
Qed.

Lemma reach13 : reaches s13.
Proof.
  assert (reaches s0) as R0.
  { apply net_init; [intros s; by apply list_elem_of_singleton|apply NoDup_singleton|done..]. }
  assert (reaches s3) as R3 by (do 3 (apply reach_accepted; [|done..]); exact R0).
  assert (reaches s6) as R6 by (do 3 (apply reach_called; [|done]); exact R3).
  assert (reaches s9) as R9 by (do 3 (apply reach_read; [|done]); exact R6).
  assert (reaches s10) as R10.
  { eapply net_next; [exact R9|]. exact (net_leave methods handlers s9 7%positive waiting eq_refl). }
  assert (reaches s12) as R12.
  { unfold s12. apply reach_ran; [apply reach_ran; [exact R10|..]|..].
    all: vm_compute; reflexivity. }
  eapply net_next; [exact R12|].
  exact (net_client_read methods handlers s12 6%positive _ response [] client13 None eq_refl eq_refl eq_refl).
Qed.

(** The request of the third client was not executed, and an exception left the thread that
    took it; the second client has its answer while the call of the first is still queued. *)
Lemma clients_isolated_witness :
  own 5%positive (tasks (ns_server s13)) ≠ [] ∧ ns_escaped s13 = [(7%positive, not_connected)] ∧
  world (ns_server s13) = S (world server0) ∧ connections s13 !! 7%positive = None ∧
  ∃ d, promises client13 !! 1%positive = Some d ∧ has_response_ d = true.
Proof.
  split; [vm_compute; discriminate|].
  destruct (clients_isolated negates methods handlers s13 6%positive done13 (λ _, negate_sendable) bool_throws
    (λ _, eq_refl) reach13 eq_refl) as (He & _ & _ & Hall).
  assert (ns_escaped s13 = [(7%positive, not_connected)]) as Hesc by (vm_compute; reflexivity).
  split; [exact Hesc|]. split; [vm_compute; reflexivity|].
  split; [apply (He _ not_connected); rewrite Hesc; apply list_elem_of_singleton; reflexivity|].
  destruct (Hall eq_refl eq_refl eq_refl 0 args 1%positive eq_refl) as (d & Hd & Hr & _).
  exists d. split; [exact Hd|exact Hr].
Defined.
End sample_clients.
