(* ===== verification/TcpSystem.v ===== *)
(** A client and a server over TCP, byte by byte.

    The client and one session of a server with both ends of their connection ([TcpPeer]) and
    the bytes on the wire: requests and responses are posted to a strand, queued, written,
    transported in arbitrary pieces, parsed and handed to the handlers. This system is shown
    to implement the one of [System], which exchanges whole messages. *)

From S2P Require Import Prelude Errors MsgpackObject MsgpackUnpack MsgpackAdaptor Message StreamParser Compressor StreamSocket Future Client MethodServer ServerBase Server System TcpPeer.
From stdpp Require Import gmap.

Open Scope Z_scope.

(** The handlers of the two ends: one read handler, and one handler per request. *)
Definition read_handler : handler := 1%positive.
Definition write_handler (id : Z) : handler := Z.to_pos (id + 1).
Definition handler_id (h : handler) : Z := Z.pos h - 1.

Definition wire_bytes (acts : list action) : list byte :=
  concat (map message_data_ops.bytes (sent acts)).
Definition send_all (p : peer) (h : handler) (l : list message_data) : peer :=
  fold_left (λ p d, async_write p d h) l p.

Section tcp.
Context {H W T R : Type} `{TupleRoundTrip T} `{RoundTrip R}.
Context (f : T → W → result R * W) (n : std_string) (s : session) (hd : T → loc → H).
Context (alloc_ok : Z → bool) (min_buf : Z).

Record tcp_system := mk_tcp_system {
  t_client : client H;
  t_server : server W;
  t_cpeer : peer;                 (* the connector of the client *)
  t_speer : peer;                 (* the session of the server *)
  t_up : list byte;               (* on the wire to the server *)
  t_down : list byte;             (* on the wire to the client *)
  t_issued : gmap Z (T * loc);
  t_escaped : list exn;
}.

(** The calls that an end makes to the handlers of the client; a client that is reading after
    its handler has asked the connector for the next message. *)
Definition client_action (x : client H * peer * list exn) (a : action) : client H * peer * list exn :=
  let '(c, p, es) := x in
  match a with
  | call_read_handler _ e d =>
      let '(c', ex) := Client.on_read c e d in
      (c', if Client.reading c' then async_read p read_handler else p, es ++ option_list ex)
  | call_write_handler h e =>
      let '(c', ex) := Client.on_write c (handler_id h) e in (c', p, es ++ option_list ex)
  | _ => x
  end.

(** The same for the session; the server ignores how a write ended. *)
Definition server_action (x : server W * peer * list exn) (a : action) : server W * peer * list exn :=
  let '(sv, p, es) := x in
  match a with
  | call_read_handler _ e d =>
      let '(sv', ex) := Server.on_read sv s e d in
      (sv', fold_left (λ p _, async_read p read_handler)
         (new_writes (ServerBase.reading sv) (ServerBase.reading sv')) p, es ++ option_list ex)
  | _ => x
  end.

(** Steps that need no call of the user. *)
Inductive tcp_internal (t : tcp_system) : tcp_system → Prop :=
| tcp_client_event ev rest p acts c' p' es :
    event_on_wire (t_cpeer t) ev (t_down t) rest →
    peer_step alloc_ok min_buf (t_cpeer t) ev = Some (p, acts, None) → in_memory (p_socket p) →
    fold_left client_action acts (t_client t, p, []) = (c', p', es) →
    tcp_internal t (mk_tcp_system c' (t_server t) p' (t_speer t) (t_up t ++ wire_bytes acts) rest
      (t_issued t) (t_escaped t ++ es))
| tcp_server_event ev rest p acts sv' p' es :
    event_on_wire (t_speer t) ev (t_up t) rest →
    peer_step alloc_ok min_buf (t_speer t) ev = Some (p, acts, None) → in_memory (p_socket p) →
    fold_left server_action acts (t_server t, p, []) = (sv', p', es) →
    tcp_internal t (mk_tcp_system (t_client t) sv' (t_cpeer t) p' rest (t_down t ++ wire_bytes acts)
      (t_issued t) (t_escaped t ++ es))
| tcp_run sv' e :
    tasks (t_server t) ≠ [] → run_task (t_server t) = Some (sv', e) →
    tcp_internal t (mk_tcp_system (t_client t) sv' (t_cpeer t)
      (send_all (t_speer t) read_handler (new_writes (writes (t_server t)) (writes sv')).*2)
      (t_up t) (t_down t) (t_issued t) (t_escaped t ++ option_list e)).

Inductive tcp_step (t : tcp_system) : tcp_system → Prop :=
| tcp_request args id c' l :
    callable args = true →
    async_request (t_client t) n (mk_tuple args) = Some (Ok id, c', l) →
    tcp_step t (mk_tcp_system c' (t_server t)
      (send_all (t_cpeer t) (write_handler id) (new_writes (written (t_client t)) (written c')))
      (t_speer t) (t_up t) (t_down t) (<[id:=(args, l)]> (t_issued t)) (t_escaped t))
| tcp_then id args l c' :
    t_issued t !! id = Some (args, l) →
    set_future_handler (t_client t) l (hd args l) = (c', None) →
    tcp_step t (mk_tcp_system c' (t_server t) (t_cpeer t) (t_speer t) (t_up t) (t_down t)
      (t_issued t) (t_escaped t))
| tcp_inner t' : tcp_internal t t' → tcp_step t t'.

(** A connection just made: both ends were asked for a message, by [client::start] and by
    [server_base::on_accept]. *)
Inductive tcp_reachable : tcp_system → Prop :=
| tcp_init c sv pc ps :
    construct_client (Some ()) (Some ()) = Ok c →
    make_function_method_executor n f ∈ methods_ sv → NoDup (map name (methods_ sv)) →
    tasks sv = [] →
    msgpack_streaming_parser_ops.construct alloc_ok = Some (Ok pc) →
    msgpack_streaming_parser_ops.construct alloc_ok = Some (Ok ps) →
    tcp_reachable (mk_tcp_system (Client.start c) sv (async_read (new_peer pc) read_handler)
      (async_read (new_peer ps) read_handler) [] [] ∅ [])
| tcp_next t t' : tcp_reachable t → tcp_step t t' → tcp_reachable t'.

(** Nothing is under way and nobody has anything to do. *)
Definition tcp_quiet (t : tcp_system) : Prop :=
  p_strand (t_cpeer t) = [] ∧ p_strand (t_speer t) = [] ∧
  p_writing (t_cpeer t) = false ∧ p_writing (t_speer t) = false ∧
  t_up t = [] ∧ t_down t = [] ∧ tasks (t_server t) = [].

(** ** The refinement relation *)

(** The messages that the abstract system has under way are, at this end, those whose bytes
    the reader holds or has on its wire, and those the writer has not written. *)
Definition channel (writer reader : peer) (wire : list byte) (queue : list message_data) : Prop :=
  ∃ msgs data, peer_inv reader read_handler wire msgs data ∧ queue = map Some msgs ++ outgoing writer.

Record refines (t : tcp_system) (st : system H W T) : Prop := {
  rf_client : sys_client st = t_client t;
  rf_server : sys_server st = t_server t;
  rf_issued : issued st = t_issued t;
  rf_escaped : escaped st = t_escaped t;
  rf_up : channel (t_cpeer t) (t_speer t) (t_up t) (upstream st);
  rf_down : channel (t_speer t) (t_cpeer t) (t_down t) (downstream st);
  rf_memory : in_memory (p_socket (t_cpeer t)) ∧ in_memory (p_socket (t_speer t));
}.

(** ** Handlers *)

Lemma client_actions_spec acts c p es :
  quiet_notifications acts →
  fold_left client_action acts (c, p, es) =
  fold_left (λ x '(h, e, d), client_action x (call_read_handler h e d)) (read_calls acts) (c, p, es).
Proof.
  unfold quiet_notifications. revert c p es. induction acts as [|a acts IH]; intros c p es; [done|].
  destruct a as [h e d|h e|z|d]; cbn [notified read_calls omap list_omap fold_left]; intros Hq; try by apply IH.
  - cbn [client_action]. destruct (Client.on_read c e d) as [c' ex]. by apply IH.
  - apply list.Forall_cons in Hq as [-> Hq]. cbn [client_action Client.on_write error_info_ops.has_error error_info_ops.no_error option_list].
    rewrite app_nil_r. by apply IH.
Qed.

Lemma server_actions_spec acts sv p es :
  fold_left server_action acts (sv, p, es) =
  fold_left (λ x '(h, e, d), server_action x (call_read_handler h e d)) (read_calls acts) (sv, p, es).
Proof.
  revert sv p es. induction acts as [|a acts IH]; intros sv p es; [done|].
  destruct a as [h e d|h e|z|d]; cbn [read_calls omap list_omap fold_left]; try by apply IH.
  cbn [server_action]. destruct (Server.on_read sv s e d) as [sv' ex]. by apply IH.
Qed.

(** ** Peers *)

Lemma packed_nonempty ms : Forall packed ms → concat ms = [] → ms = [].
Proof.
  destruct 1 as [|m ms (o & Hwf & ->) _]; [done|]. simpl. intros [Hm _]%app_eq_nil.
  pose proof (msgpack_decode_packed_aux o [] Hwf) as Hd. rewrite Hm in Hd. done.
Qed.

(** More bytes of messages on the wire. *)
Lemma peer_inv_extend p h wire msgs data ms :
  peer_inv p h wire msgs data → Forall packed ms →
  peer_inv p h (wire ++ concat ms) (msgs ++ ms) data.
Proof.
  intros [Hh Hs Hp Hr Hi Hw] Hms. split; try done.
  - by rewrite app_assoc, Hs, concat_app.
  - by apply Forall_app.
  - intros Hre [Hn Hc]%app_eq_nil. rewrite (Hi Hre Hn). by apply packed_nonempty in Hc as ->.
Qed.

Lemma delivered_async_read p h rest msgs data :
  peer_delivered p rest msgs data → peer_inv (async_read p h) h rest msgs data.
Proof.
  intros [Hh Hs Hp Hr Hw]. unfold read_handlers in Hr. apply app_eq_nil in Hr as [Hr Hq].
  destruct (StreamSocket.reading (p_socket p)) as [[]|] eqn:Er; [done|]. split; simpl; try done.
  unfold read_handlers. simpl. rewrite Er. unfold strand_reads in *. rewrite omap_app, Hq. done.
Qed.

(** Writes of the user only reach the strand. *)
Lemma send_all_strand p h l :
  p_socket (send_all p h l) = p_socket p ∧ p_writing (send_all p h l) = p_writing p ∧
  p_strand (send_all p h l) = p_strand p ++ map (λ d, strand_write d h) l.
Proof.
  revert p. induction l as [|d l IH]; intros p; simpl; [by rewrite app_nil_r|].
  destruct (IH (async_write p d h)) as (-> & -> & ->). simpl. by rewrite <-app_assoc.
Qed.

Lemma strand_writes_app l l' : strand_writes (l ++ l') = strand_writes l ++ strand_writes l'.
Proof. apply omap_app. Qed.
Lemma strand_reads_app l l' : strand_reads (l ++ l') = strand_reads l ++ strand_reads l'.
Proof. apply omap_app. Qed.
Lemma strand_writes_map l h : strand_writes (map (λ d, strand_write d h) l) = l.
Proof.
  induction l as [|d l IH]; [done|]. change (d :: strand_writes (map (λ d, strand_write d h) l) = d :: l).
  by rewrite IH.
Qed.
Lemma strand_reads_map l h : strand_reads (map (λ d, strand_write d h) l) = [].
Proof. by induction l. Qed.

Lemma outgoing_send_all p h l : outgoing (send_all p h l) = outgoing p ++ l.
Proof.
  unfold outgoing. destruct (send_all_strand p h l) as (-> & _ & ->).
  by rewrite strand_writes_app, strand_writes_map, app_assoc.
Qed.

Lemma peer_inv_send_all p h h' l wire msgs data :
  peer_inv p h wire msgs data → peer_inv (send_all p h' l) h wire msgs data.
Proof.
  intros [Hh Hs Hp Hr Hi Hw]. destruct (send_all_strand p h' l) as (Es & Ew & Eq).
  split; try done; unfold writes_ok, read_handlers in *; rewrite ?Es, ?Ew, ?Eq; try done.
  by rewrite strand_reads_app, strand_reads_map, app_nil_r.
Qed.

(** ** Messages under way *)

Definition packed_data (d : message_data) : Prop := ∃ m, d = Some m ∧ packed m.

Context (f_sendable : ∀ args w, sendable (f args w).1 = true).
Context (R_throws : ∀ o e, convert (T := R) o = Throw e → e = msgpack_type_error).
Context (n_packable : packable n = true) (Hmin : 0 < min_buf).
Abbreviation inv := (sys_inv f n s hd).
Abbreviation reaches := (sys_reachable f n s hd).

Lemma request_packed id args d : is_request n id args d → packed_data d.
Proof.
  intros (Hid & _ & _ & [Hc _]%andb_prop & Hd).
  destruct (pack_request_spec (mk_uint32 id) n (mk_tuple args)) as [Hp Hwf]; [done..|].
  rewrite Hd in Hp. injection Hp as ->. by eexists; split; [|eexists; split].
Qed.

Lemma response_packed id (r : result R) d :
  packable id = true → sendable r = true → response_of id r = Ok d → packed_data d.
Proof.
  intros Hid Hs Hd. destruct r as [x|e]; simpl in *.
  - apply andb_prop in Hs as [Hx _]. destruct (pack_response_spec id x) as [Hp Hwf]; [done..|].
    rewrite Hd in Hp. injection Hp as ->. by eexists; split; [|eexists; split].
  - destruct (pack_error_response_spec id (error_text e)) as [Hp Hwf]; [done..|].
    rewrite Hd in Hp. injection Hp as ->. by eexists; split; [|eexists; split].
Qed.

Lemma issued_packable st iu it ir ia id args l :
  inv st iu it ir ia → issued st !! id = Some (args, l) → packable (mk_uint32 id) = true.
Proof.
  intros [[_ Hids _ _] _ _ Hrq _ _ _ _ _ _ _] Hi. specialize (Hids id l).
  rewrite Hrq, lookup_fmap, Hi in Hids. specialize (Hids eq_refl).
  apply andb_true_intro. simpl. split; [apply Z.leb_le|apply Z.ltb_lt]; lia.
Qed.

Lemma underway_packed st iu it ir ia :
  inv st iu it ir ia → Forall packed_data (upstream st) ∧ Forall packed_data (downstream st).
Proof.
  intros Hinv. pose proof Hinv as [_ _ _ _ _ Hup _ Hdn _ _ _]. split.
  - eapply Forall2_Forall_r; [exact Hup|]. apply Forall_forall. intros id _ d (args & l & _ & Hq).
    by eapply request_packed.
  - eapply Forall2_Forall_r; [exact Hdn|]. apply Forall_forall.
    intros id _ d (args & l & r & Hi & (w & w' & Hp) & Hr).
    eapply response_packed; [by eapply issued_packable| |done].
    specialize (f_sendable args w). by rewrite Hp in f_sendable.
Qed.

(** ** Channels *)

Lemma packed_data_bytes l : Forall packed_data l → ∃ ms, l = map Some ms ∧ Forall packed ms.
Proof.
  induction 1 as [|d l (m & -> & Hm) _ (ms & -> & Hms)]; [by exists []|].
  exists (m :: ms). split; [done|]. by apply list.Forall_cons.
Qed.

Lemma bytes_map_Some (ms : list (list byte)) : map message_data_ops.bytes (map Some ms) = ms.
Proof. induction ms as [|m ms IH]; [done|]. simpl. by rewrite IH. Qed.

(** What the writer hands over goes to the wire. *)
Lemma channel_write p p' q wire queue acts :
  channel p q wire queue → Forall packed_data queue → sent acts ++ outgoing p' = outgoing p →
  channel p' q (wire ++ wire_bytes acts) queue.
Proof.
  intros (msgs & data & Hinv & ->) Hp Hs. rewrite <-Hs in Hp |- *.
  apply Forall_app in Hp as [_ [Hp _]%Forall_app].
  destruct (packed_data_bytes _ Hp) as (ms & Hms & Hpk).
  exists (msgs ++ ms), data. unfold wire_bytes. rewrite Hms, bytes_map_Some. split.
  - by apply peer_inv_extend.
  - by rewrite map_app, app_assoc.
Qed.

Lemma channel_writer p p' q wire queue :
  channel p q wire queue → outgoing p' = outgoing p → channel p' q wire queue.
Proof. intros (msgs & data & Hinv & ->) Ho. exists msgs, data. by rewrite Ho. Qed.

Lemma channel_send p h l q wire queue :
  channel p q wire queue → channel (send_all p h l) q wire (queue ++ l).
Proof.
  intros (msgs & data & Hinv & ->). exists msgs, data. split; [done|].
  by rewrite outgoing_send_all, app_assoc.
Qed.

Lemma channel_reader_send p q h l wire queue :
  channel p q wire queue → channel p (send_all q h l) wire queue.
Proof.
  intros (msgs & data & Hinv & ->). exists msgs, data. split; [|done]. by apply peer_inv_send_all.
Qed.

Lemma outgoing_async_read p h : outgoing (async_read p h) = outgoing p.
Proof. unfold outgoing. simpl. by rewrite strand_writes_app, app_nil_r. Qed.

(** A client that read a message goes on reading. *)
Lemma with_promise_reading (c : client H) l op : Client.reading (with_promise c l op).1 = Client.reading c.
Proof. unfold with_promise. destruct (_ !! _); [|done]. by destruct (op _) as [[]|]. Qed.
Lemma set_error_all_reading (c : client H) l e : Client.reading (set_error_all c l e).1 = Client.reading c.
Proof.
  revert c. induction l as [|[id x] l IH]; intros c; [done|]. simpl.
  pose proof (with_promise_reading c x (λ d, set_error d e)) as Hr.
  destruct (with_promise _ _ _) as [c' [ex|]]; simpl in *; [done|]. by rewrite IH.
Qed.
Lemma on_read_reading (c : client H) d : Client.reading (Client.on_read c None d).1 = true.
Proof.
  assert (Client.reading (handle_response (Client.do_read (Client.set_reading c false)) d).1 = true) as Hh.
  { unfold handle_response. destruct (message_ops.make d) as [m|e]; [|done].
    destruct (decide _); [|done]. destruct (_ !! _); [|done]. by rewrite with_promise_reading. }
  unfold Client.on_read. simpl. destruct (handle_response _ d) as [c' [[]|]]; simpl in *; try done.
  unfold fail_all. by rewrite set_error_all_reading.
Qed.

(** ** Simulation *)

(** The work that is left in the abstract system. *)
Definition load (st : system H W T) : nat :=
  3 * length (upstream st) + 2 * length (tasks (sys_server st)) + length (downstream st).

(** The work that is left in the concrete system. *)
Definition tcp_load (t : tcp_system) : nat :=
  weight (t_cpeer t) + weight (t_speer t) + length (t_up t) + length (t_down t).

Lemma wire_bytes_length acts : length (wire_bytes acts) = sent_length acts.
Proof.
  unfold wire_bytes, sent_length. induction (sent acts) as [|d l IH]; [done|]. simpl.
  by rewrite length_app, IH.
Qed.
(** The abstract system takes a step that leaves it less to do, or none; then the concrete one
    has less to do. *)
Definition matched (st : system H W T) (t t' : tcp_system) : Prop :=
  ∃ st', ((st' = st ∧ (tcp_load t' < tcp_load t)%nat) ∨
          (sys_step n s hd st st' ∧ (load st' < load st)%nat)) ∧ refines t' st'.

(** The channels after an event at one end, before its handlers have run: the other
    direction as the writer left it, and whether a message was delivered. *)
Lemma event_channels p q wire_in wire_out queue_in queue_out ev rest p' acts :
  channel q p wire_in queue_in → channel p q wire_out queue_out → Forall packed_data queue_out →
  event_on_wire p ev wire_in rest → peer_step alloc_ok min_buf p ev = Some (p', acts, None) →
  in_memory (p_socket p') →
  channel p' q (wire_out ++ wire_bytes acts) queue_out ∧ quiet_notifications acts ∧
  (weight p' + length (wire_bytes acts) + length rest < weight p + length wire_in)%nat ∧
  ((read_calls acts = [] ∧ channel q p' rest queue_in) ∨
   (∃ m queue', queue_in = Some m :: queue' ∧
     read_calls acts = [(read_handler, error_info_ops.no_error, Some m)] ∧
     channel q (async_read p' read_handler) rest queue')).
Proof.
  intros (msgs & data & Hinv & ->) Hout Hp Hev Hst Hmem.
  destruct (peer_step_inv alloc_ok min_buf Hmin p read_handler wire_in msgs data ev rest p' acts Hinv Hev Hst Hmem)
    as (Hs & Hq & Hor).
  split; [by eapply channel_write|]. split; [done|]. split.
  { rewrite wire_bytes_length. by eapply peer_step_weight. }
  destruct Hor as [(Hc & data' & Hinv')|(m & msgs' & data' & -> & Hc & Hd)].
  - left. split; [done|]. by exists msgs, data'.
  - right. exists m, (map Some msgs' ++ outgoing q). split_and!; [done|done|].
    exists msgs', data'. split; [|done]. by apply delivered_async_read.
Qed.

Lemma client_event_matched t st ev rest p acts c' p' es :
  reaches st → refines t st → event_on_wire (t_cpeer t) ev (t_down t) rest →
  peer_step alloc_ok min_buf (t_cpeer t) ev = Some (p, acts, None) → in_memory (p_socket p) →
  fold_left client_action acts (t_client t, p, []) = (c', p', es) →
  matched st t (mk_tcp_system c' (t_server t) p' (t_speer t) (t_up t ++ wire_bytes acts) rest
    (t_issued t) (t_escaped t ++ es)).
Proof.
  intros Hr [Hcl Hsv His Hes Hup Hdn [_ Hm]] Hev Hst Hmem Hact.
  destruct (sys_reachable_inv f n s hd f_sendable R_throws n_packable st Hr) as (iu & it & ir & ia & Hinv).
  destruct (underway_packed _ _ _ _ _ Hinv) as [Hpu _].
  destruct (event_channels _ _ _ _ _ _ _ _ _ _ Hdn Hup Hpu Hev Hst Hmem) as (Hup' & Hq & Hlt & Hor).
  rewrite client_actions_spec in Hact by done. destruct Hor as [[Hc Hdn']|(m & queue & Eq & Hc & Hdn')];
    rewrite Hc in Hact; cbn [fold_left] in Hact.
  - injection Hact as <- <- <-. exists st. split; [left; split; [done|]|rewrite app_nil_r; by split].
    unfold tcp_load. simpl. rewrite length_app. lia.
  - cbn [client_action] in Hact.
    destruct (step_client_read_inv f n s hd f_sendable R_throws st iu it ir ia _ _ Hinv Eq)
      as (c'' & _ & _ & Hon & _). rewrite Hcl in Hon.
    pose proof (on_read_reading (t_client t) (Some m)) as Hre.
    change (Client.on_read (t_client t) error_info_ops.no_error (Some m))
      with (Client.on_read (t_client t) None (Some m)) in Hact.
    rewrite Hon in Hact, Hre. simpl in Hre. rewrite Hre in Hact. injection Hact as <- <- <-.
    eexists. split.
    { right. split; [eapply (step_client_read n s hd st); [exact Eq|by rewrite Hcl]|].
      unfold load. simpl. rewrite Eq. simpl. lia. }
    split; simpl; try done; [by rewrite Hes|].
    eapply channel_writer; [exact Hup'|apply outgoing_async_read].
Qed.

Lemma server_event_matched t st ev rest p acts sv' p' es :
  reaches st → refines t st → event_on_wire (t_speer t) ev (t_up t) rest →
  peer_step alloc_ok min_buf (t_speer t) ev = Some (p, acts, None) → in_memory (p_socket p) →
  fold_left server_action acts (t_server t, p, []) = (sv', p', es) →
  matched st t (mk_tcp_system (t_client t) sv' (t_cpeer t) p' rest (t_down t ++ wire_bytes acts)
    (t_issued t) (t_escaped t ++ es)).
Proof.
  intros Hr [Hcl Hsv His Hes Hup Hdn [Hm _]] Hev Hst Hmem Hact.
  destruct (sys_reachable_inv f n s hd f_sendable R_throws n_packable st Hr) as (iu & it & ir & ia & Hinv).
  destruct (underway_packed _ _ _ _ _ Hinv) as [_ Hpd].
  destruct (event_channels _ _ _ _ _ _ _ _ _ _ Hup Hdn Hpd Hev Hst Hmem) as (Hdn' & Hq & Hlt & Hor).
  rewrite server_actions_spec in Hact by done. destruct Hor as [[Hc Hup']|(m & queue & Eq & Hc & Hup')];
    rewrite Hc in Hact; cbn [fold_left] in Hact.
  - injection Hact as <- <- <-. exists st. split; [left; split; [done|]|rewrite app_nil_r; by split].
    unfold tcp_load. simpl. rewrite length_app. lia.
  - pose proof Hinv as [_ _ _ _ _ Hrq _ _ _ _ _]. rewrite Eq in Hrq.
    apply Forall2_cons_inv_r in Hrq as (id & _ & (args & l & _ & (_ & _ & Hmk & _)) & _ & _).
    assert (Server.on_read (t_server t) s None (Some m) =
      (ServerBase.do_read (post (t_server t) (process_task s (request_of n id args (Some m)))) s, None)) as Hon.
    { unfold Server.on_read, on_read_with, base_on_read, async_process_message. simpl. by rewrite Hmk. }
    cbn [server_action] in Hact.
    change (Server.on_read (t_server t) s error_info_ops.no_error (Some m))
      with (Server.on_read (t_server t) s None (Some m)) in Hact.
    rewrite Hon in Hact. unfold new_writes in Hact. cbn [ServerBase.reading ServerBase.do_read post] in Hact.
    rewrite drop_app_length in Hact. injection Hact as <- <- <-.
    eexists. split.
    { right. split; [eapply (step_server_read n s hd st); [exact Eq|by rewrite Hsv]|].
      unfold load. simpl. rewrite Eq, Hsv, length_app. simpl. lia. }
    split; simpl; try done; [by rewrite Hes|].
    eapply channel_writer; [exact Hdn'|apply outgoing_async_read].
Qed.

Lemma run_load st sv' e :
  reaches st → tasks (sys_server st) ≠ [] → run_task (sys_server st) = Some (sv', e) →
  S (length (tasks sv')) = length (tasks (sys_server st)) ∧
  length (new_writes (writes (sys_server st)) (writes sv')) = 1%nat.
Proof.
  intros Hr Ht Hrun.
  destruct (sys_reachable_inv f n s hd f_sendable R_throws n_packable st Hr) as (iu & it & ir & ia & Hinv).
  destruct Hinv as [_ Hm Hnd _ _ _ Htk _ _ _ _].
  destruct (tasks (sys_server st)) as [|x ts] eqn:Et; [done|].
  apply Forall2_cons_inv_r in Htk as (id & it' & (args & l & d & Hi & Hq & ->) & _ & _).
  destruct (run_request_task f n s f_sendable R_throws (sys_server st) id args d ts Hm Hnd Hq Et)
    as (r & w' & d' & _ & _ & Hrun'). rewrite Hrun in Hrun'. injection Hrun' as -> ->.
  unfold new_writes. simpl. by rewrite drop_app_length.
Qed.

Lemma run_matched t st sv' e :
  reaches st → refines t st → tasks (t_server t) ≠ [] → run_task (t_server t) = Some (sv', e) →
  matched st t (mk_tcp_system (t_client t) sv' (t_cpeer t)
    (send_all (t_speer t) read_handler (new_writes (writes (t_server t)) (writes sv')).*2)
    (t_up t) (t_down t) (t_issued t) (t_escaped t ++ option_list e)).
Proof.
  intros Hr [Hcl Hsv His Hes Hup Hdn [Hm Hm']] Ht Hrun. rewrite <-Hsv in Ht, Hrun |- *.
  destruct (run_load st sv' e Hr Ht Hrun) as [Hlt Hlw].
  eexists. split.
  { right. split; [by eapply (step_run n s hd st)|]. unfold load. simpl.
    rewrite length_app, length_fmap, Hlw. lia. }
  split; simpl; try done; [by rewrite Hes|by apply channel_reader_send|by apply channel_send|].
  split; [done|]. by rewrite (proj1 (send_all_strand _ _ _)).
Qed.

Lemma internal_matched t st t' :
  reaches st → refines t st → tcp_internal t t' → matched st t t'.
Proof.
  intros Hr Hsim Hst. destruct Hst.
  - by eapply client_event_matched.
  - by eapply server_event_matched.
  - by eapply run_matched.
Qed.

Lemma step_matched t st t' :
  reaches st → refines t st → tcp_step t t' →
  ∃ st', (st' = st ∨ sys_step n s hd st st') ∧ refines t' st'.
Proof.
  intros Hr Hsim Hst. pose proof Hsim as [Hcl Hsv His Hes Hup Hdn [Hm Hm']].
  destruct Hst as [args id c' l Hc Ha|id args l c' Hi Hset|t' Hin].
  3: { destruct (internal_matched t st t' Hr Hsim Hin) as (st' & [[-> _]|[Hs _]] & Hsim'); eauto. }
  - rewrite <-Hcl in Ha |- *. eexists. split; [right; by eapply (step_request n s hd st)|].
    split; simpl; try done; [by rewrite His|by apply channel_send|by apply channel_reader_send|].
    split; [|done]. by rewrite (proj1 (send_all_strand _ _ _)).
  - rewrite <-Hcl, <-His in *. eexists. split; [right; by eapply (step_then n s hd st)|]. by split.
Qed.

Lemma init_refines c sv pc ps :
  construct_client (Some ()) (Some ()) = Ok c →
  msgpack_streaming_parser_ops.construct alloc_ok = Some (Ok pc) →
  msgpack_streaming_parser_ops.construct alloc_ok = Some (Ok ps) →
  refines (mk_tcp_system (Client.start c) sv (async_read (new_peer pc) read_handler)
      (async_read (new_peer ps) read_handler) [] [] ∅ [])
    (mk_system (Client.start c) sv [] [] ∅ []).
Proof.
  intros _ Hpc%msgpack_construct_represents Hps%msgpack_construct_represents.
  assert (∀ p, msgpack_represents p [] 0 →
    peer_inv (async_read (new_peer p) read_handler) read_handler [] [] []) as Hnew.
  { intros p Hp. split; simpl; try done. by exists 0%nat. }
  split; simpl; try done; by exists [], []; split; [apply Hnew|].
Qed.

Lemma tcp_reachable_refines t : tcp_reachable t → ∃ st, reaches st ∧ refines t st.
Proof.
  induction 1 as [c sv pc ps Hc Hm Hnd Ht Hpc Hps|t t' _ (st & Hr & Hsim) Hst].
  - eexists. split; [by eapply (sys_init f n s hd)|by apply init_refines].
  - destruct (step_matched t st t' Hr Hsim Hst) as (st' & [Heq|Hs] & Hsim'); exists st'; [by subst st'|].
    split; [by eapply sys_next|done].
Qed.

(** ** Nothing under way *)

Lemma quiet_channel p q queue :
  channel p q [] queue → p_strand p = [] → p_writing p = false → writes_ok p → p_strand q = [] → queue = [].
Proof.
  intros (msgs & data & [_ _ _ Hr Hi _] & ->) Hs Hw Hok Hq. unfold writes_ok in Hok. rewrite Hw in Hok.
  symmetry in Hok. apply negb_false_iff, bool_decide_eq_true in Hok.
  unfold outgoing. rewrite Hok, Hs. unfold read_handlers in Hr. rewrite Hq in Hr.
  rewrite Hi; [done| |done]. by destruct (StreamSocket.reading (p_socket q)).
Qed.

Lemma channel_writes_ok p q wire queue : channel p q wire queue → writes_ok q.
Proof. by intros (msgs & data & [] & _). Qed.

Lemma quiet_system t st :
  refines t st → tcp_quiet t → upstream st = [] ∧ tasks (sys_server st) = [] ∧ downstream st = [].
Proof.
  intros [Hcl Hsv His Hes Hup Hdn _] (Hsc & Hss & Hwc & Hws & Hu & Hd & Ht). rewrite Hu in Hup. rewrite Hd in Hdn.
  pose proof (channel_writes_ok _ _ _ _ Hup). pose proof (channel_writes_ok _ _ _ _ Hdn).
  split_and!; [by eapply quiet_channel|by rewrite Hsv|by eapply quiet_channel].
Qed.

(** ** Progress *)

(** Requests and responses that fit in memory. *)
Definition messages_small : Prop :=
  (∀ id args d, packable (mk_uint32 id) = true → callable args = true →
    pack_request (mk_uint32 id) n (mk_tuple args) = Ok (Some d) → small min_buf d) ∧
  (∀ id (r : result R) d, packable (mk_uint32 id) = true → sendable r = true → response_of (mk_uint32 id) r = Ok (Some d) → small min_buf d).

Context (Hmem : ∀ k, alloc_ok k = true) (Hbuf : min_buf ≤ size_max) (Hsmall : messages_small).

Lemma underway_small st iu it ir ia msgs rest :
  inv st iu it ir ia → upstream st = map Some msgs ++ rest ∨ downstream st = map Some msgs ++ rest →
  Forall (small min_buf) msgs.
Proof.
  intros Hinv Hor. pose proof Hinv as [_ _ _ _ _ Hup _ Hdn _ _ _]. destruct Hsmall as [Hreq Hres]. apply Forall_forall. intros m Hin.
  assert (Some m ∈ map Some msgs ++ rest) as Hin'.
  { apply elem_of_app. left. apply list_elem_of_In, in_map, list_elem_of_In, Hin. }
  destruct Hor as [Hu|Hd].
  - rewrite <-Hu in Hin'. apply list_elem_of_lookup in Hin' as [k Hk].
    destruct (Forall2_lookup_r _ _ _ _ _ Hup Hk) as (id & _ & args & l & _ & (Hid & _ & _ & Hc & Hp)). eauto.
  - rewrite <-Hd in Hin'. apply list_elem_of_lookup in Hin' as [k Hk].
    destruct (Forall2_lookup_r _ _ _ _ _ Hdn Hk) as (id & _ & args & l & r & Hi & (w & w' & Hp) & Hr).
    eapply Hres; [by eapply issued_packable| |exact Hr]. specialize (f_sendable args w). by rewrite Hp in f_sendable.
Qed.

(** An end that is not done has something to do. *)
Lemma end_enabled p q wire queue :
  channel q p wire queue → in_memory (p_socket p) →
  (∀ msgs, queue = map Some msgs ++ outgoing q → Forall (small min_buf) msgs) →
  p_strand p ≠ [] ∨ p_writing p = true ∨ wire ≠ [] →
  ∃ ev rest p' acts, event_on_wire p ev wire rest ∧
    peer_step alloc_ok min_buf p ev = Some (p', acts, None) ∧ in_memory (p_socket p').
Proof.
  intros (msgs & data & Hinv & Hq) Hm Hsm Hor. specialize (Hsm msgs Hq).
  destruct (decide (p_strand p = [])) as [Hs|Hs].
  2: { destruct (strand_enabled alloc_ok min_buf Hmin Hmem Hbuf p read_handler wire msgs data)
         as (p' & acts & Hst & Hm' & _); [done..|]. by exists (run_strand 0), wire, p', acts. }
  destruct (p_writing p) eqn:Ew.
  { destruct (write_enabled alloc_ok min_buf p) as (p' & acts & Hst & Hm'); [by destruct Hinv|done..|].
    by exists write_done, wire, p', acts. }
  destruct Hor as [?|[?|Hw]]; [done..|]. destruct wire as [|b rest]; [done|].
  destruct (bytes_enabled alloc_ok min_buf Hmin Hmem Hbuf p read_handler msgs data b rest)
    as (Hev & p' & acts & Hst & Hm'); [done|done| |by exists (bytes_read [b] 0 0), rest, p', acts].
  destruct Hinv as [_ _ _ Hr _ _]. unfold read_handlers in Hr. rewrite Hs in Hr.
  by destruct (StreamSocket.reading (p_socket p)).
Qed.

#[global] Instance tcp_quiet_decision t : Decision (tcp_quiet t).
Proof. unfold tcp_quiet. apply _. Defined.

Lemma task_enabled st : reaches st → tasks (sys_server st) ≠ [] → ∃ sv' e, run_task (sys_server st) = Some (sv', e).
Proof.
  intros Hr Ht. destruct (sys_reachable_inv f n s hd f_sendable R_throws n_packable st Hr) as (iu & it & ir & ia & Hinv).
  destruct Hinv as [_ Hm Hnd _ _ _ Htk _ _ _ _].
  destruct (tasks (sys_server st)) as [|x ts] eqn:Et; [done|].
  apply Forall2_cons_inv_r in Htk as (id & it' & (args & l & d & Hi & Hq & ->) & _ & _).
  destruct (run_request_task f n s f_sendable R_throws (sys_server st) id args d ts Hm Hnd Hq Et)
    as (r & w' & d' & _ & _ & Hrun). eauto.
Qed.

Lemma some_enabled t st :
  reaches st → refines t st → ¬ tcp_quiet t → ∃ t', tcp_internal t t'.
Proof.
  intros Hr Hsim Hnq. pose proof Hsim as [Hcl Hsv His Hes Hup Hdn [Hmc Hms]].
  destruct (sys_reachable_inv f n s hd f_sendable R_throws n_packable st Hr) as (iu & it & ir & ia & Hinv).
  destruct (decide (p_strand (t_cpeer t) = [] ∧ p_writing (t_cpeer t) = false ∧ t_down t = []))
    as [(Hc1 & Hc2 & Hc3)|Hc].
  2: { destruct (end_enabled _ _ _ _ Hdn Hmc) as (ev & rest & p' & acts & Hev & Hst & Hm).
       - intros msgs Hq. eapply underway_small; [exact Hinv|by right].
       - destruct (p_strand (t_cpeer t)); [|by left]. destruct (p_writing (t_cpeer t)); [by right; left|].
         right; right. intros Hd. by apply Hc.
       - destruct (fold_left client_action acts (t_client t, p', [])) as [[c' q] es] eqn:Ea.
         eexists. by eapply tcp_client_event. }
  destruct (decide (p_strand (t_speer t) = [] ∧ p_writing (t_speer t) = false ∧ t_up t = []))
    as [(Hs1 & Hs2 & Hs3)|Hc].
  2: { destruct (end_enabled _ _ _ _ Hup Hms) as (ev & rest & p' & acts & Hev & Hst & Hm).
       - intros msgs Hq. eapply underway_small; [exact Hinv|by left].
       - destruct (p_strand (t_speer t)); [|by left]. destruct (p_writing (t_speer t)); [by right; left|].
         right; right. intros Hd. by apply Hc.
       - destruct (fold_left server_action acts (t_server t, p', [])) as [[c' q] es] eqn:Ea.
         eexists. by eapply tcp_server_event. }
  assert (tasks (sys_server st) ≠ []) as Ht.
  { intros Ht. apply Hnq. rewrite Hsv in Ht. done. }
  destruct (task_enabled st Hr Ht) as (sv' & e & Hrun). rewrite Hsv in Ht, Hrun.
  eexists. by eapply tcp_run.
Qed.

(** Whatever it does next, the system comes to rest. *)
Lemma internal_terminates t st : reaches st → refines t st → sn tcp_internal t.
Proof.
  remember (load st) as k eqn:Hk. revert t st Hk. induction (lt_wf k) as [k _ IHk]. intros t st ->.
  remember (tcp_load t) as j eqn:Hj. revert t Hj. induction (lt_wf j) as [j _ IHj]. intros t -> Hr Hsim.
  constructor. intros t1 Hst.
  destruct (internal_matched t st t1 Hr Hsim Hst) as (st1 & [[-> Hlt]|[Hs Hlt]] & Hsim1).
  - by eapply (IHj (tcp_load t1)).
  - eapply (IHk (load st1) Hlt t1 st1); [done|by eapply sys_next|done].
Qed.

(** The answer that the promise of a call holds. *)
Definition answered_in (c : client H) (calls : gmap Z (T * loc)) : Prop :=
  ∀ id args l, calls !! id = Some (args, l) →
    ∃ d, promises c !! l = Some d ∧ has_response_ d = true ∧
      (has_handler_ d = false → fd_error_ d = None ∧ answered f args (fd_msg_ d)).

Lemma quiet_answered st :
  reaches st → upstream st = [] → tasks (sys_server st) = [] → downstream st = [] →
  answered_in (sys_client st) (issued st).
Proof.
  intros Hr Hu Ht Hd id args l Hi.
  destruct (sys_reachable_inv f n s hd f_sendable R_throws n_packable st Hr) as (iu & it & ir & ia & Hinv).
  destruct Hinv as [_ _ _ _ Hpl Hup Htk Hdn Hpr _ _].
  rewrite Hu in Hup. rewrite Ht in Htk. rewrite Hd in Hdn.
  apply Forall2_nil_inv_r in Hup as ->. apply Forall2_nil_inv_r in Htk as ->. apply Forall2_nil_inv_r in Hdn as ->.
  destruct (Hpr id args l Hi) as (d & Hd' & [Hrs _ _ _ _ Hst]). simpl in Hpl.
  assert (id ∈ ia) as Hin.
  { rewrite Hpl. apply list_elem_of_fmap. exists (id, (args, l)). split; [done|]. by apply elem_of_map_to_list. }
  rewrite bool_decide_eq_true_2 in Hrs, Hst by done. exists d. split; [done|]. split; [done|].
  intros Hh. by apply Hst.
Qed.

Lemma internal_reachable t t' : rtc tcp_internal t t' → tcp_reachable t → tcp_reachable t'.
Proof. induction 1 as [|t t1 t' Hs _ IH]; [done|]. intros Hr. apply IH. by eapply tcp_next, tcp_inner. Qed.
End tcp.

(** ** Theorems *)

(** C2: the transport is invisible: whatever the interleaving of calls, posted functions,
    completed writes, partial reads and executions, a client and a server over TCP with the
    msgpack parser are, at every moment, in a state of the system of whole messages: the same
    client, the same server, the same calls; the messages under way in each direction are
    those whose bytes the reader holds or has on the wire, followed by those that the writer
    has queued or on its strand, in order. *)
Theorem tcp_rpc_refines {H W T R} `{TupleRoundTrip T} `{RoundTrip R}
    (f : T → W → result R * W) n s (hd : T → loc → H) alloc_ok min_buf t :
  (∀ args w, sendable (f args w).1 = true) →
  (∀ o e, convert (T := R) o = Throw e → e = msgpack_type_error) → packable n = true →
  0 < min_buf → tcp_reachable f n s hd alloc_ok min_buf t →
  ∃ st, sys_reachable f n s hd st ∧
    sys_client st = t_client t ∧ sys_server st = t_server t ∧ issued st = t_issued t ∧
    escaped st = t_escaped t ∧
    channel (t_cpeer t) (t_speer t) (t_up t) (upstream st) ∧
    channel (t_speer t) (t_cpeer t) (t_down t) (downstream st).
Proof.
  intros Hf Hc Hn Hmin Hr.
  destruct (tcp_reachable_refines f n s hd alloc_ok min_buf Hf Hc Hn Hmin t Hr) as (st & Hst & []).
  by exists st.
Qed.

(** over TCP, byte by byte, calls never get mixed up: no exception has left a handler, and
    every handler that was posted to the client's thread pool is the one attached to a call
    that was issued, called without error with a message that makes the typed future report
    what the method returned, or threw, for the arguments of that same call. *)
Theorem rpc_over_tcp {H W T R} `{TupleRoundTrip T} `{RoundTrip R}
    (f : T → W → result R * W) n s (hd : T → loc → H) alloc_ok min_buf t h e m :
  (∀ args w, sendable (f args w).1 = true) →
  (∀ o e, convert (T := R) o = Throw e → e = msgpack_type_error) → packable n = true →
  0 < min_buf → tcp_reachable f n s hd alloc_ok min_buf t →
  t_escaped t = [] ∧
  ((h, e, m) ∈ posted (t_client t) →
   ∃ id args l r w w', t_issued t !! id = Some (args, l) ∧ h = Some (hd args l) ∧ e = None ∧
     f args w = (r, w') ∧
     typed_handler quiet_success quiet_failure e m = Some ([outcome_call r], None)).
Proof.
  intros Hf Hc Hn Hmin Hr.
  destruct (tcp_reachable_refines f n s hd alloc_ok min_buf Hf Hc Hn Hmin t Hr)
    as (st & Hst & [<- _ <- <- _ _ _]).
  destruct (sys_reachable_inv f n s hd Hf Hc Hn st Hst) as (iu & it & ir & ia & Hinv).
  split; [apply Hinv|]. intros Hin. pose proof (si_posted _ _ _ _ _ _ _ _ _ Hinv) as Hp.
  rewrite Forall_forall in Hp. apply Hp in Hin as (id & args & l & m' & Hi & [= -> -> ->] & r & (w & w' & Ef) & Hth).
  by exists id, args, l, r, w, w'.
Qed.

(** C3: over TCP every call is answered: when memory does not run out and messages can be
    counted in a [size_t], the steps that follow the calls of the user (functions on the
    strands, completed writes, reads of any sizes, executions) come to an end in whatever
    order they happen; they can only end when nothing is left on a strand, in a write queue,
    on the wire or in the queue of the server; and then the promise of every call holds, or
    has handed to its handler, the outcome of the method for its arguments. *)
Theorem tcp_drains {H W T R} `{TupleRoundTrip T} `{RoundTrip R}
    (f : T → W → result R * W) n s (hd : T → loc → H) alloc_ok min_buf t :
  (∀ args w, sendable (f args w).1 = true) →
  (∀ o e, convert (T := R) o = Throw e → e = msgpack_type_error) → packable n = true →
  0 < min_buf ≤ size_max → (∀ k, alloc_ok k = true) → messages_small (T := T) (R := R) n min_buf →
  tcp_reachable f n s hd alloc_ok min_buf t →
  sn (tcp_internal s alloc_ok min_buf) t ∧
  (∀ t', rtc (tcp_internal s alloc_ok min_buf) t t' → nf (tcp_internal s alloc_ok min_buf) t' →
    tcp_quiet t' ∧ answered_in f (t_client t') (t_issued t')).
Proof.
  intros Hf Hc Hn [Hmin Hmax] Hmem Hsm Hr. split.
  - destruct (tcp_reachable_refines f n s hd alloc_ok min_buf Hf Hc Hn Hmin t Hr) as (st & Hst & Hsim).
    by eapply internal_terminates.
  - intros t' Ht' Hnf. apply (internal_reachable f n s hd) in Ht'; [|done].
    destruct (tcp_reachable_refines f n s hd alloc_ok min_buf Hf Hc Hn Hmin t' Ht') as (st & Hst & Hsim).
    assert (tcp_quiet t') as Hq.
    { destruct (decide (tcp_quiet t')) as [|Hq]; [done|]. destruct Hnf. by eapply some_enabled. }
    split; [done|]. destruct (quiet_system _ _ Hsim Hq) as (Hu & Ht & Hd).
    destruct Hsim as [<- _ <- _ _ _ _]. by eapply quiet_answered.
Qed.

(** The call of [sample_system], its request read in two pieces. *)
Module tcp_sample.
Import sample_system.
Definition alloc_ok : Z → bool := λ _, true.
Definition parser0 : msgpack_streaming_parser :=
  match msgpack_streaming_parser_ops.construct alloc_ok with
  | Some (Ok p) => p
  | _ => sample_parser
  end.
Abbreviation tsystem := (tcp_system (H := bool * loc) (W := nat) (T := bool * ())).
Abbreviation internal := (tcp_internal (H := bool * loc) (W := nat) (T := bool * ()) 5%positive alloc_ok 8).
Abbreviation reaches_tcp := (tcp_reachable negate method 5%positive handler_of_call alloc_ok 8).

Definition runs (p : peer) (ev : peer_event) : bool :=
  match peer_step alloc_ok 8 p ev with
  | Some (p', _, None) =>
      match StreamSocket.reading (p_socket p') with
      | Some (_, size) => consumed_buf_size_ (parser_ (p_socket p')) + size <=? size_max
      | None => true
      end
  | _ => false
  end.
Definition client_run (t : tsystem) (ev : peer_event) (rest : list byte) : tsystem :=
  match peer_step alloc_ok 8 (t_cpeer t) ev with
  | Some (p, acts, _) =>
      let '(c', p', es) := fold_left client_action acts (t_client t, p, []) in
      mk_tcp_system c' (t_server t) p' (t_speer t) (t_up t ++ wire_bytes acts) rest
        (t_issued t) (t_escaped t ++ es)
  | None => t
  end.
Definition server_run (t : tsystem) (ev : peer_event) (rest : list byte) : tsystem :=
  match peer_step alloc_ok 8 (t_speer t) ev with
  | Some (p, acts, _) =>
      let '(sv', p', es) := fold_left (server_action 5%positive) acts (t_server t, p, []) in
      mk_tcp_system (t_client t) sv' (t_cpeer t) p' rest (t_down t ++ wire_bytes acts)
        (t_issued t) (t_escaped t ++ es)
  | None => t
  end.
Definition task_run (t : tsystem) : tsystem :=
  match run_task (t_server t) with
  | Some (sv', e) =>
      mk_tcp_system (t_client t) sv' (t_cpeer t)
        (send_all (t_speer t) read_handler (new_writes (writes (t_server t)) (writes sv')).*2)
        (t_up t) (t_down t) (t_issued t) (t_escaped t ++ option_list e)
  | None => t
  end.

Lemma runs_inv p ev :
  runs p ev = true → ∃ p' acts, peer_step alloc_ok 8 p ev = Some (p', acts, None) ∧ in_memory (p_socket p').
Proof.
  unfold runs. destruct (peer_step _ _ _ _) as [[[p' acts] [e|]]|]; [done| |done]. intros Hm.
  do 2 eexists. split; [done|]. unfold in_memory. destruct (StreamSocket.reading _) as [[h size]|]; [|done].
  by apply Z.leb_le.
Qed.
Lemma client_runs t ev rest :
  reaches_tcp t → event_on_wire (t_cpeer t) ev (t_down t) rest → runs (t_cpeer t) ev = true →
  reaches_tcp (client_run t ev rest).
Proof.
  intros Hr Hev (p & acts & Hst & Hm)%runs_inv. eapply tcp_next; [exact Hr|]. apply tcp_inner. unfold client_run.
  rewrite Hst. destruct (fold_left _ _ _) as [[c' p'] es] eqn:Ea. by eapply tcp_client_event.
Qed.
Lemma server_runs t ev rest :
  reaches_tcp t → event_on_wire (t_speer t) ev (t_up t) rest → runs (t_speer t) ev = true →
  reaches_tcp (server_run t ev rest).
Proof.
  intros Hr Hev (p & acts & Hst & Hm)%runs_inv. eapply tcp_next; [exact Hr|]. apply tcp_inner. unfold server_run.
  rewrite Hst. destruct (fold_left _ _ _) as [[c' p'] es] eqn:Ea. by eapply tcp_server_event.
Qed.
Lemma task_runs t :
  reaches_tcp t → negb (bool_decide (tasks (t_server t) = [])) = true → reaches_tcp (task_run t).
Proof.
  intros Hr Ht%negb_true_iff%bool_decide_eq_false. unfold task_run.
  destruct (run_task (t_server t)) as [[sv' e]|] eqn:Er; [|done].
  eapply tcp_next; [exact Hr|]. apply tcp_inner. by eapply tcp_run.
Qed.

Definition t0 : tsystem :=
  mk_tcp_system client0 server0 (async_read (new_peer parser0) read_handler)
    (async_read (new_peer parser0) read_handler) [] [] ∅ [].
Definition t1 : tsystem :=
  mk_tcp_system client1 server0
    (send_all (t_cpeer t0) (write_handler 0) (new_writes (written client0) (written client1)))
    (t_speer t0) [] [] (<[0:=(args, 1%positive)]> ∅) [].
Definition t2 : tsystem :=
  mk_tcp_system client2 server0 (t_cpeer t1) (t_speer t1) [] [] (t_issued t1) [].
(* the connector: its read, then its write, which the system completes *)
Definition t3 := client_run t2 (run_strand 0) [].
Definition t4 := client_run t3 (run_strand 0) [].
Definition t5 := client_run t4 write_done [].
(* the session: its read, and the request in two pieces *)
Definition t6 := server_run t5 (run_strand 0) (t_up t5).
Definition t7 := server_run t6 (bytes_read (take 3 (t_up t5)) 0 0) (drop 3 (t_up t5)).
Definition t8 := server_run t7 (bytes_read (drop 3 (t_up t5)) 0 0) [].
Definition t9 := task_run t8.
(* the session reads on, and writes the response *)
Definition t10 := server_run t9 (run_strand 0) [].
Definition t11 := server_run t10 (run_strand 0) [].
Definition t12 := server_run t11 write_done [].
Definition t13 := client_run t12 (bytes_read (t_down t12) 0 0) [].

Lemma tcp_reach2 : reaches_tcp t2.
Proof.
  assert (reaches_tcp t0) as R0.
  { exact (tcp_init negate method 5%positive handler_of_call alloc_ok 8 (mk_client 0 ∅ ∅ [] false [] false false) server0 parser0 parser0 eq_refl
      (proj2 (list_elem_of_singleton _ _) eq_refl) (NoDup_singleton _) eq_refl eq_refl eq_refl). }
  assert (reaches_tcp t1) as R1.
  { exact (tcp_next negate method 5%positive handler_of_call alloc_ok 8 t0 t1 R0 (tcp_request method 5%positive handler_of_call alloc_ok 8 t0 args 0
      client1 1%positive eq_refl eq_refl)). }
  exact (tcp_next negate method 5%positive handler_of_call alloc_ok 8 t1 t2 R1 (tcp_then method 5%positive handler_of_call alloc_ok 8 t1 0 args
      1%positive client2 eq_refl eq_refl)).
Qed.

(** A read of some of the bytes on the wire. *)
Ltac read_pieces :=
  split; [vm_compute; reflexivity|]; split_and!; [vm_compute; discriminate|done|];
  exists read_handler, 8; split; vm_compute; [reflexivity|discriminate].

Lemma tcp_reach12 : reaches_tcp t12.
Proof.
  assert (reaches_tcp t3) as R3 by (by apply client_runs; [exact tcp_reach2|..]).
  assert (reaches_tcp t4) as R4 by (apply client_runs; [exact R3|reflexivity|vm_compute; reflexivity]).
  assert (reaches_tcp t5) as R5 by (apply client_runs; [exact R4|reflexivity|vm_compute; reflexivity]).
  assert (reaches_tcp t6) as R6 by (apply server_runs; [exact R5|reflexivity|vm_compute; reflexivity]).
  assert (reaches_tcp t7) as R7.
  { apply server_runs; [exact R6| |vm_compute; reflexivity]. read_pieces. }
  assert (reaches_tcp t8) as R8.
  { apply server_runs; [exact R7| |vm_compute; reflexivity]. read_pieces. }
  assert (reaches_tcp t9) as R9 by (apply task_runs; [exact R8|vm_compute; reflexivity]).
  assert (reaches_tcp t10) as R10 by (apply server_runs; [exact R9|vm_compute; reflexivity|vm_compute; reflexivity]).
  assert (reaches_tcp t11) as R11 by (apply server_runs; [exact R10|vm_compute; reflexivity|vm_compute; reflexivity]).
  apply server_runs; [exact R11|vm_compute; reflexivity|vm_compute; reflexivity].
Qed.
Lemma tcp_reach13 : reaches_tcp t13.
Proof.
  apply client_runs; [exact tcp_reach12| |vm_compute; reflexivity]. read_pieces.
Qed.

Lemma tcp_rpc_refines_witness :
  ∃ st, sys_reachable negate method 5%positive handler_of_call st ∧
    sys_client st = t_client t12 ∧ sys_server st = t_server t12 ∧ issued st = t_issued t12 ∧
    escaped st = t_escaped t12 ∧
    channel (t_cpeer t12) (t_speer t12) (t_up t12) (upstream st) ∧
    channel (t_speer t12) (t_cpeer t12) (t_down t12) (downstream st).
Proof.
  exact (tcp_rpc_refines negate method 5%positive handler_of_call alloc_ok 8 t12
    negate_sendable bool_throws eq_refl eq_refl tcp_reach12).
Defined.

Lemma rpc_over_tcp_witness :
  ∃ m, (Some (true, 1%positive), None, m) ∈ posted (t_client t13) ∧
    ∃ r w w', negate args w = (r, w') ∧
      typed_handler quiet_success quiet_failure None m = Some ([outcome_call r], None).
Proof.
  exists (match posted (t_client t13) with (_, _, m) :: _ => m | [] => message_ops.empty end).
  assert ((Some (true, 1%positive), None,
    match posted (t_client t13) with (_, _, m) :: _ => m | [] => message_ops.empty end) ∈ posted (t_client t13))
    as Hin by (vm_compute; left).
  split; [exact Hin|].
  destruct (rpc_over_tcp negate method 5%positive handler_of_call alloc_ok 8 t13
    (Some (true, 1%positive)) None
    (match posted (t_client t13) with (_, _, m) :: _ => m | [] => message_ops.empty end)
    negate_sendable bool_throws eq_refl eq_refl tcp_reach13) as [_ Hp].
  destruct (Hp Hin) as (id & a & l & r & w & w' & Hi & _ & _ & Hn & Ht).
  exists r, w, w'. split; [|exact Ht]. rewrite <-Hn. f_equal.
  change ((<[0:=(args, 1%positive)]> ∅ : gmap Z (bool * () * loc)) !! id = Some (a, l)) in Hi.
  apply lookup_singleton_Some in Hi as [_ [= <- _]]. reflexivity.
Defined.

Lemma uint64_length d : (length (pack_imp_uint64 d) ≤ 9)%nat.
Proof.
  unfold pack_imp_uint64. repeat case_match; simpl; rewrite ?length_be_store; lia.
Qed.
Lemma str_length k : (length (pack_str k) ≤ 5)%nat.
Proof. unfold pack_str. repeat case_match; simpl; rewrite ?length_be_store; lia. Qed.

Lemma negate_messages_small : messages_small (T := bool * ()) (R := bool) method 8.
Proof.
  unfold messages_small, small, size_max. split.
  - intros id a d Hid Hc Hd. pose proof Hc as [Ha _]%andb_prop.
    destruct (pack_request_spec (mk_uint32 id) method (mk_tuple a)) as [Hp _]; [done..|].
    rewrite Hd in Hp. injection Hp as ->. destruct a as [b []]. simpl.
    rewrite !length_app. simpl. rewrite ?length_app. pose proof (uint64_length id).
    destruct b; simpl; lia.
  - intros id r d Hid Hs Hd. pose proof (uint64_length id). destruct r as [b|e]; simpl in Hs, Hd.
    + destruct (pack_response_spec (mk_uint32 id) b) as [Hp _]; [done..|].
      rewrite Hd in Hp. injection Hp as ->. simpl. rewrite !length_app. destruct b; simpl; lia.
    + destruct (pack_error_response_spec (mk_uint32 id) (error_text e)) as [Hp _]; [done..|].
      rewrite Hd in Hp. injection Hp as ->. simpl in *. rewrite !length_app. simpl.
      pose proof (str_length (Z.of_nat (length (error_text e)))). rewrite ?length_app. apply Z.ltb_lt in Hs. simpl. lia.
Qed.

Lemma tcp_drains_witness :
  sn internal t2 ∧
  (∀ t', rtc internal t2 t' → nf internal t' → tcp_quiet t' ∧ answered_in negate (t_client t') (t_issued t')).
Proof.
  apply (tcp_drains negate method 5%positive handler_of_call alloc_ok 8 t2).
  - exact negate_sendable.
  - exact bool_throws.
  - reflexivity.
  - vm_compute. split; [reflexivity|discriminate].
  - reflexivity.
  - exact negate_messages_small.
  - exact tcp_reach2.
Defined.
End tcp_sample.
