(* ===== verification/Udp.v ===== *)
(** UDP transport.

    Models impl/mprpc/transport/udp/impl: udp_common.h (a socket that sends and receives one
    datagram per message), udp_session.h (a session made of one datagram), udp_acceptor.h and
    udp_connector.h, and how a server handles a datagram. Endpoints are a parameter, sockets
    the actions started on them. *)

From S2P Require Import Prelude Errors MsgpackObject MsgpackUnpack MsgpackAdaptor Message StreamParser Compressor StreamSocket MethodServer ServerBase Server.
From stdpp Require Import gmap.

Open Scope Z_scope.

(** [transport::parser]; [None] is an access outside the data. *)
Class DatagramParser (P : Type) := {
  parse_datagram : P → option (list byte) → option (result message_data * P);
}.
#[export] Instance msgpack_DatagramParser : DatagramParser () := {
  parse_datagram p data := Some (msgpack_parser_parse data, p);
}.

Section udp.
Context {E P C : Type} `{DatagramParser P, Compressor C}.
Context (default_endpoint : E).    (* asio::ip::udp::endpoint() *)

(** ** [udp_common] *)

Record udp_common := mk_udp_common {
  uc_compressor : C;
  uc_parser : P;
  uc_buf_size : Z;                 (* buf_.size() *)
}.

Inductive udp_action : Type :=
| receive_from (size : Z) (h : handler)
| send_to (e : E) (data : message_data) (msg : message_data) (h : handler)
| call_udp_read (h : handler) (error : error_info) (e : E) (data : message_data)
| call_udp_write (h : handler) (error : error_info).

Definition construct_udp (comp : option C) (parser : option P) : result udp_common :=
  outcome_bind (require_nonull comp (Some "comp") (Some "udp_common")) (λ comp,
  outcome_bind (require_nonull parser (Some "parser_ptr") (Some "udp_common")) (λ parser,
  Ok (mk_udp_common comp parser 0))).

Definition init_udp (datagram_buf_size : Z) (u : udp_common) : udp_common :=
  mk_udp_common (uc_compressor u) (uc_parser u) datagram_buf_size.

(** [async_read], [do_read] *)
Definition udp_do_read (u : udp_common) (h : handler) : udp_action := receive_from (uc_buf_size u) h.

(** The error part of [on_read]: no handler is called when the operation was aborted. *)
Definition udp_read_error (err : asio_error) : option error_info :=
  match err with
  | asio_operation_aborted => None
  | asio_eof => Some (error_info_ops.make error_code.eof "connection closed")
  | asio_other what => Some (error_info_ops.make error_code.failed_to_read what)
  end.

(** The [try] of [on_read], for a handler that acts on a state [X] and may throw. *)
Definition udp_on_datagram {X} (handle : X → error_info → E → message_data → X * option exn)
    (u : udp_common) (x : X) (sender : E) (bytes : list byte) : option (udp_common * X * option exn) :=
  match parse_datagram (uc_parser u) (Some bytes) with
  | None => None
  | Some (r, p') =>
      let u' := mk_udp_common (uc_compressor u) p' (uc_buf_size u) in
      let '(x1, e1) :=
        match r with
        | Ok msg => handle x error_info_ops.no_error sender msg
        | Throw e => (x, Some e)
        end in
      match e1 with
      | Some (mprpc_exception info) =>
          let '(x2, e2) := handle x1 info default_endpoint None in Some (u', x2, e2)
      | _ => Some (u', x1, e1)
      end
  end.

(** [on_read] *)
Definition udp_on_read {X} (handle : X → error_info → E → message_data → X * option exn)
    (u : udp_common) (x : X) (received : asio_error + E * list byte) :
    option (udp_common * X * option exn) :=
  match received with
  | inl err =>
      match udp_read_error err with
      | None => Some (u, x, None)
      | Some info => let '(x', e) := handle x info default_endpoint None in Some (u, x', e)
      end
  | inr (sender, bytes) => udp_on_datagram handle u x sender bytes
  end.

(** [do_write] and [on_write] *)
Definition udp_do_write (u : udp_common) (e : E) (msg : message_data) (h : handler) :
    result (udp_common * udp_action) :=
  outcome_bind (compress_once (uc_compressor u) msg) (λ '(data, c'),
    Ok (mk_udp_common c' (uc_parser u) (uc_buf_size u), send_to e data msg h)).

Definition udp_on_write (err : option asio_error) (h : handler) : list udp_action :=
  match err with
  | Some asio_operation_aborted => []
  | Some asio_eof => [call_udp_write h (error_info_ops.make error_code.failed_to_write "End of file")]
  | Some (asio_other what) => [call_udp_write h (error_info_ops.make error_code.failed_to_write what)]
  | None => [call_udp_write h error_info_ops.no_error]
  end.

(** ** [udp_session] *)

Record udp_session := mk_udp_session { us_endpoint : E; us_data : message_data }.

Definition second_read_error : error_info :=
  error_info_ops.make error_code.failed_to_read
    ("second call to " +:+ "mprpc::transport::udp::udp_session::async_read").

(** [async_read] calls its handler at once: what it passes, and the session afterwards. *)
Definition udp_async_read (u : udp_session) : error_info * message_data * udp_session :=
  if message_data_ops.size (us_data u) =? 0 then (second_read_error, None, u)
  else (error_info_ops.no_error, us_data u, mk_udp_session (us_endpoint u) None).

(** [async_write] sends to the endpoint of the datagram. *)
Definition udp_async_write (helper : udp_common) (u : udp_session) (data : message_data) (h : handler) :
    result (udp_common * udp_action) := udp_do_write helper (us_endpoint u) data h.

(** ** A server with a UDP acceptor *)

Context {W : Type}.

(** [server_base::do_read] on a UDP session: the handler runs inside the call, and reads
    again; the second read fails, so two turns are enough. *)
Fixpoint udp_session_read (fuel : nat) (u : udp_session) (sv : server W) (s : session) :
    server W * option exn :=
  match fuel with
  | O => (sv, None)
  | S fuel' =>
      let '(error, data, u') := udp_async_read u in
      on_read_with (udp_session_read fuel' u') sv s error data
  end.

(** A server together with the session objects that its UDP acceptors have made. *)
Record udp_server := mk_udp_server {
  ud_server : server W;
  ud_objects : gmap session udp_session;
}.

(** [udp_acceptor::on_read] with [server_base::on_accept] as its handler; [s] is the new
    session, an object that holds the sender's endpoint and the message. *)
Definition udp_acceptor_on_read (a : acceptor) (s : session) (st : udp_server) (error : error_info)
    (endpoint : E) (data : message_data) : udp_server * option exn :=
  if error_info_ops.has_error error then
    let '(sv', e) := on_accept_with (λ sv _, (sv, None)) (ud_server st) a
      (error_info_ops.make error_code.failed_to_accept (error_info_ops.message error)) s in
    (mk_udp_server sv' (ud_objects st), e)
  else
    let u := mk_udp_session endpoint data in
    let '(sv', e) := on_accept_with (udp_session_read 2 u) (ud_server st) a error_info_ops.no_error s in
    (mk_udp_server sv' (<[s := (udp_async_read u).2]> (ud_objects st)), e).

(** A datagram arrives at the acceptor [a]. *)
Definition udp_serve (a : acceptor) (s : session) (u : udp_common) (st : udp_server)
    (received : asio_error + E * list byte) : option (udp_common * udp_server * option exn) :=
  udp_on_read (udp_acceptor_on_read a s) u st received.

(** [session->async_write] of the server, on the object of the session; [None] is a session
    that no acceptor has made. *)
Definition udp_server_write (helper : udp_common) (st : udp_server) (w : session * message_data)
    (h : handler) : option (result (udp_common * udp_action)) :=
  u ← ud_objects st !! w.1; Some (udp_async_write helper u w.2 h).

(** ** [udp_connector]: datagrams of every sender are passed on. *)
Definition udp_connector_on_read {X} (handle : X → error_info → message_data → X * option exn)
    (u : udp_common) (x : X) (received : asio_error + E * list byte) :
    option (udp_common * X * option exn) :=
  udp_on_read (λ x error _ data, handle x error data) u x received.
Definition udp_connector_write (u : udp_common) (endpoint : E) (data : message_data) (h : handler) :
    result (udp_common * udp_action) := udp_do_write u endpoint data h.
End udp.

(** ** Facts *)

Section facts.
Context {E W : Type}.
Implicit Types (sv : server W) (u : udp_session (E := E)).

(** A second read only posts the removal of the session. *)
Lemma udp_session_read_again fuel u sv s :
  message_data_ops.size (us_data u) = 0 →
  udp_session_read (S fuel) u sv s = (post sv (remove_task s), None).
Proof. intros Hz. simpl. unfold udp_async_read. by rewrite Hz. Qed.

(** What the server does with a datagram, by the message in it. Two turns are enough. *)
Lemma udp_session_read_spec fuel u sv s :
  (2 ≤ fuel)%nat →
  udp_session_read fuel u sv s =
  if message_data_ops.size (us_data u) =? 0 then (post sv (remove_task s), None)
  else
    match message_ops.make (us_data u) with
    | Ok msg => (post (post sv (process_task s msg)) (remove_task s), None)
    | Throw (mprpc_exception _) => (post (post sv (remove_task s)) (remove_task s), None)
    | Throw e => (sv, Some e)
    end.
Proof.
  intros Hf. destruct fuel as [|[|fuel]]; [lia..|].
  change (udp_session_read (S (S fuel)) u sv s) with
    (let '(error, data, u') := udp_async_read u in
     on_read_with (udp_session_read (S fuel) u') sv s error data).
  unfold udp_async_read. destruct (message_data_ops.size (us_data u) =? 0); [done|].
  unfold on_read_with, base_on_read, async_process_message. simpl error_info_ops.has_error. cbv iota.
  destruct (message_ops.make (us_data u)) as [msg|[]]; try done; by rewrite udp_session_read_again.
Qed.
End facts.

(** ** Theorems *)

(** The server after it accepted a session and went on accepting. *)
Definition accepted {W} (sv : server W) (a : acceptor) (s : session) (ts : list server_task) : server W :=
  mk_server (methods_ sv) (acceptors_ sv) ({[s]} ∪ sessions_ sv) (accepting sv ++ [a]) (reading sv)
    (tasks sv ++ ts) (writes sv) (shutdowns sv) (threads_started sv) (world sv).

Lemma udp_serve_message {E C W} `{Compressor C} (e0 : E) a s (u : udp_common (P := ()) (C := C))
    (st : udp_server (W := W)) sender bytes :
  let sv := ud_server st in
  udp_serve e0 a s u st (inr (sender, bytes)) =
  let '(sv', e) :=
    if message_data_ops.size (Some bytes) =? 0 then (accepted sv a s [remove_task s], None)
    else
      match message_ops.make (Some bytes) with
      | Ok msg => (accepted sv a s [process_task s msg; remove_task s], None)
      | Throw (mprpc_exception _) => (accepted sv a s [remove_task s; remove_task s], None)
      | Throw e => (set_sessions sv ({[s]} ∪ sessions_ sv), Some e)
      end in
  Some (u, mk_udp_server sv'
    (<[s := (udp_async_read (mk_udp_session sender (Some bytes))).2]> (ud_objects st)), e).
Proof.
  destruct u as [c [] size]. destruct st as [sv objs]. cbn zeta. cbn [ud_server ud_objects]. unfold udp_serve, udp_on_read, udp_on_datagram, udp_acceptor_on_read.
  cbn [parse_datagram msgpack_DatagramParser uc_parser uc_compressor uc_buf_size].
  change (msgpack_parser_parse (Some bytes)) with (Ok (E := exn) (Some bytes : message_data)).
  cbv iota beta zeta. cbn [ud_server ud_objects]. simpl error_info_ops.has_error. cbv iota. unfold on_accept_with.
  simpl error_info_ops.has_error. cbv iota.
  rewrite udp_session_read_spec by lia. cbn [us_data].
  destruct (message_data_ops.size (Some bytes) =? 0); [done|].
  unfold accepted. destruct (message_ops.make (Some bytes)) as [msg|[]]; try reflexivity;
    unfold do_accept, post, set_sessions; simpl; by rewrite <-app_assoc.
Qed.

(** C29: a request in a datagram is executed and answered to its sender: the acceptor goes on
    accepting, the method is invoked once with the arguments sent, its response is written to
    the session made for the datagram, and that write sends the response, compressed, in one
    datagram to the endpoint the request came from; then the session is forgotten; no exception
    is thrown. *)
Theorem udp_request_served {E C W T R} `{Compressor C} `{TupleRoundTrip T} `{PackSpec R, Convert R}
    (e0 : E) (f : T → W → result R * W) a s (u : udp_common (P := ()) (C := C))
    (st : udp_server (W := W)) sender id n args x w' h :
  let sv := ud_server st in
  make_function_method_executor n f ∈ methods_ sv → NoDup (map name (methods_ sv)) →
  tasks sv = [] → s ∉ sessions_ sv →
  packable id = true → packable n = true → packable (mk_tuple args) = true →
  fits (ARRAY (objects_of args)) = true → f args (world sv) = (Ok x, w') → packable x = true →
  ∃ d r st1 sv2, pack_request id n (mk_tuple args) = Ok (Some d) ∧ pack_response id x = Ok r ∧
    udp_serve e0 a s u st (inr (sender, d)) = Some (u, st1, None) ∧
    accepting (ud_server st1) = accepting sv ++ [a] ∧
    run_task (ud_server st1) = Some (sv2, None) ∧ world sv2 = w' ∧ writes sv2 = writes sv ++ [(s, r)] ∧
    udp_server_write u (mk_udp_server sv2 (ud_objects st1)) (s, r) h =
      Some (outcome_bind (compress_once (uc_compressor u) r) (λ '(data, c'),
        Ok (mk_udp_common c' (uc_parser u) (uc_buf_size u), send_to sender data r h))) ∧
    ∃ sv3, run_task sv2 = Some (sv3, None) ∧ tasks sv3 = [] ∧ sessions_ sv3 = sessions_ sv ∧
      writes sv3 = writes sv2.
Proof.
  intros sv Hin Hnd Ht Hs Hi Hn Ha Hf Hcall Hx.
  destruct (make_request_aux id n (mk_tuple args) Hi Hn Ha eq_refl Hf) as (d & Hd & Hm).
  destruct (pack_request_spec id n (mk_tuple args) Hi Hn Ha) as [Hd' Hwf].
  set (bytes := pack_object (request_object id n (object_of (mk_tuple args)))) in Hd'.
  assert (d = Some bytes) as -> by congruence. clear Hd'.
  destruct (pack_response_spec id x Hi Hx) as [Hr _].
  assert (elements_packable args = true) as Hea by (cbn in Ha; by apply andb_prop in Ha as [_ ?]).
  pose proof (do_process_request f (methods_ sv) [] id n args (Some bytes) (world sv) Hin Hnd Hea) as Hp.
  rewrite Hcall in Hp. cbn [outcome_bind try_catch] in Hp. rewrite Hr in Hp.
  pose proof (udp_serve_message e0 a s u st sender bytes) as Hserve. cbn zeta in Hserve. fold sv in Hserve.
  rewrite Hm in Hserve.
  assert ((message_data_ops.size (Some bytes) =? 0) = false) as Hnz.
  { apply Z.eqb_neq. pose proof (pack_object_nonempty _ Hwf) as Hne. unfold message_data_ops.size. simpl.
    intros Hl. apply Hne. fold bytes. apply nil_length_inv. lia. }
  unfold udp_async_read in Hserve. cbn [us_data us_endpoint] in Hserve.
  rewrite Hnz in Hserve. cbv iota beta in Hserve.
  eexists bytes, _, _, _. split; [exact Hd|]. split; [exact Hr|]. split; [exact Hserve|].
  split; [done|]. split.
  { unfold run_task, run_task_with, run_base_task, process_message, accepted. cbn [ud_server tasks].
    rewrite Ht. cbn [app set_tasks methods_ world].
    change (do_process_message _ _ _ _) with (do_process_message (methods_ sv) (Ok ([] : std_string))
      (request_message id n (ARRAY (objects_of args)) (Some bytes)) (world sv)).
    rewrite Hp. reflexivity. }
  split; [done|]. split; [done|]. split.
  { unfold udp_server_write. cbn [fst snd ud_objects]. by rewrite lookup_insert_eq. }
  eexists. split; [reflexivity|]. split; [done|]. split; [|done].
  cbn. set_solver.
Qed.

Definition udp_helper : udp_common (P := ()) (C := null_compressor) :=
  mk_udp_common mk_null_compressor () 65527.
Definition udp_idle : udp_server (E := nat) (W := nat) :=
  mk_udp_server (mk_server [add_method] [1%positive] ∅ [] [] [] [] [] true 0%nat) ∅.

Lemma udp_request_served_witness :
  ∃ d r st1 sv2,
    pack_request (mk_uint32 3) [Byte.x61] (mk_tuple (mk_int32 2, (mk_int32 5, ()))) = Ok (Some d) ∧
    pack_response (mk_uint32 3) (mk_int32 7) = Ok r ∧
    udp_serve 0%nat 1%positive 9%positive udp_helper udp_idle (inr (80%nat, d)) =
      Some (udp_helper, st1, None) ∧
    accepting (ud_server st1) = [1%positive] ∧
    run_task (ud_server st1) = Some (sv2, None) ∧ world sv2 = 1%nat ∧ writes sv2 = [(9%positive, r)] ∧
    udp_server_write udp_helper (mk_udp_server sv2 (ud_objects st1)) (9%positive, r) 4%positive =
      Some (Ok (udp_helper, send_to 80%nat r r 4%positive)).
Proof.
  destruct (udp_request_served (R := int32) 0%nat
    (λ '(a, (b, _)) w, (Ok (mk_int32 (int32_val a + int32_val b)), S w)) 1%positive 9%positive
    udp_helper udp_idle 80%nat (mk_uint32 3) [Byte.x61] (mk_int32 2, (mk_int32 5, ())) (mk_int32 7) 1%nat 4%positive)
    as (d & r & st1 & sv2 & Hd & Hr & Hs & Ha & Hrun & Hw & Hwr & Hwrite & _).
  - apply elem_of_cons. left. reflexivity.
  - apply NoDup_singleton.
  - reflexivity.
  - apply not_elem_of_empty.
  - reflexivity.
  - reflexivity.
  - reflexivity.
  - reflexivity.
  - reflexivity.
  - reflexivity.
  - exists d, r, st1, sv2. split; [exact Hd|]. split; [exact Hr|]. split; [exact Hs|]. split; [exact Ha|].
    split; [exact Hrun|]. split; [exact Hw|]. split; [exact Hwr|]. exact Hwrite.
Defined.

(** a datagram that holds no message does not stop the acceptor: for any datagram that is
    empty, or whose bytes are unpacked, the session is removed and the acceptor accepts again;
    at most one message of it is executed. *)
Theorem udp_datagram_reaccepts {E C W} `{Compressor C} (e0 : E) a s
    (u : udp_common (P := ()) (C := C)) (st : udp_server (W := W)) sender bytes :
  (bytes = [] ∨ (∃ m, message_ops.make (Some bytes) = Ok m) ∨
    ∃ info, message_ops.make (Some bytes) = Throw (mprpc_exception info)) →
  ∃ st' ts, udp_serve e0 a s u st (inr (sender, bytes)) = Some (u, st', None) ∧
    accepting (ud_server st') = accepting (ud_server st) ++ [a] ∧
    tasks (ud_server st') = tasks (ud_server st) ++ ts ++ [remove_task s] ∧
    (ts = [] ∨ ts = [remove_task s] ∨ ∃ m, message_ops.make (Some bytes) = Ok m ∧ ts = [process_task s m]).
Proof.
  intros Hb. rewrite udp_serve_message. cbn zeta.
  destruct (Z.eqb_spec (message_data_ops.size (Some bytes)) 0) as [Hz|Hz].
  { eexists _, []. split_and!; [done..|]. by left. }
  destruct Hb as [->|[[m Hm]|[info Hm]]]; [done|rewrite Hm..].
  - eexists _, [process_task s m].
    split_and!; [done..|]. right; right. by exists m.
  - eexists _, [remove_task s].
    split_and!; [done..|]. right; by left.
Qed.

Lemma udp_datagram_reaccepts_witness :
  ∃ st' ts, udp_serve 0%nat 1%positive 9%positive udp_helper udp_idle (inr (80%nat, [Byte.xc0])) =
      Some (udp_helper, st', None) ∧
    accepting (ud_server st') = [1%positive] ∧ tasks (ud_server st') = ts ++ [remove_task 9%positive].
Proof.
  destruct (udp_datagram_reaccepts 0%nat 1%positive 9%positive udp_helper udp_idle 80%nat [Byte.xc0])
    as (sv' & ts & Hs & Ha & Ht & _).
  - right. right. eexists. reflexivity.
  - exists sv', ts. split; [exact Hs|]. split; [exact Ha|exact Ht].
Defined.

(** C37: one truncated datagram stops a UDP server: for every proper non-empty prefix of a packed
    object the exception of msgpack-c passes through the session, the acceptor and the socket
    out of the completion handler, and the acceptor is not told to accept again. *)
Theorem udp_truncated_stops_server {E C W} `{Compressor C} (e0 : E) a s
    (u : udp_common (P := ()) (C := C)) (st : udp_server (W := W)) sender o bytes x :
  wf_object o = true → shallow o = true → pack_object o = bytes ++ x → bytes ≠ [] → x ≠ [] →
  let sv := ud_server st in
  ∃ st', udp_serve e0 a s u st (inr (sender, bytes)) =
      Some (u, st', Some (msgpack_insufficient_bytes "insufficient bytes")) ∧
    let sv' := ud_server st' in
    accepting sv' = accepting sv ∧ tasks sv' = tasks sv ∧ sessions_ sv' = {[s]} ∪ sessions_ sv.
Proof.
  intros Hwf Hs Hp Hb Hx. rewrite udp_serve_message. cbn zeta.
  destruct (Z.eqb_spec (message_data_ops.size (Some bytes)) 0) as [Hz|Hz].
  { destruct Hb. apply nil_length_inv. unfold message_data_ops.size in Hz. simpl in Hz. lia. }
  unfold message_ops.make. simpl message_data_ops.bytes. rewrite (unpack_truncated_aux o bytes x) by done.
  simpl. eexists. split_and!; done.
Qed.

Lemma udp_truncated_stops_server_witness :
  ∃ st', udp_serve 0%nat 1%positive 9%positive udp_helper udp_idle
      (inr (80%nat, [Byte.x93; Byte.x02; Byte.xa1; Byte.x61])) =
      Some (udp_helper, st', Some (msgpack_insufficient_bytes "insufficient bytes")) ∧
    accepting (ud_server st') = [] ∧ tasks (ud_server st') = [] ∧ sessions_ (ud_server st') = {[9%positive]} ∪ ∅.
Proof.
  apply (udp_truncated_stops_server 0%nat 1%positive 9%positive udp_helper udp_idle 80%nat
    (notification_object [Byte.x61] (ARRAY [])) _ [Byte.x90]); [reflexivity..|discriminate|discriminate].
Defined.
