(* ===== verification/Zstd.v ===== *)
(** Compression with the zstd library.

    Models impl/mprpc/transport/compressors/impl/zstd_compressor_impl.h and
    impl/mprpc/transport/parsers/impl/zstd_parser_impl.h. The zstd library is a parameter: a
    record of the functions the code calls, whose documented behaviour is stated as laws where
    a theorem needs it. *)

From S2P Require Import Prelude Errors MsgpackObject Buffer StreamParser Compressor.

Open Scope Z_scope.

(** ** The functions of the zstd library

    A context is a value that a call replaces. Functions that fail return the name of the
    error; the others the bytes written to the destination. *)
Record zstd_library (CCtx DCtx : Type) := mk_zstd_library {
  ZSTD_createCCtx : CCtx;
  ZSTD_CCtx_setLevel : CCtx → Z → CCtx;
  ZSTD_CCtx_reset : CCtx → CCtx;
  ZSTD_compressBound : Z → Z;
  ZSTD_compress2 : CCtx → Z → list byte → (string + list byte) * CCtx;
  ZSTD_compressStream2 : CCtx → Z → list byte → (string + list byte) * CCtx;
  ZSTD_createDCtx : DCtx;
  ZSTD_getDecompressedSize : list byte → Z;
  ZSTD_decompressDCtx : DCtx → Z → list byte → (string + list byte) * DCtx;
  ZSTD_DStreamOutSize : Z;
  ZSTD_decompressStream : DCtx → Z → list byte → (string + list byte * Z) * DCtx;
}.
Arguments ZSTD_createCCtx {CCtx DCtx}. Arguments ZSTD_CCtx_setLevel {CCtx DCtx}.
Arguments ZSTD_CCtx_reset {CCtx DCtx}. Arguments ZSTD_compressBound {CCtx DCtx}.
Arguments ZSTD_compress2 {CCtx DCtx}. Arguments ZSTD_compressStream2 {CCtx DCtx}.
Arguments ZSTD_createDCtx {CCtx DCtx}. Arguments ZSTD_getDecompressedSize {CCtx DCtx}.
Arguments ZSTD_decompressDCtx {CCtx DCtx}. Arguments ZSTD_DStreamOutSize {CCtx DCtx}.
Arguments ZSTD_decompressStream {CCtx DCtx}.

Section zstd.
Context {CCtx DCtx : Type} (lib : zstd_library CCtx DCtx).
Context (alloc_ok : Z → bool).

(** The library writes [out] at the front of a buffer; then [n] bytes are read from it. *)
Definition fill (b : buffer) (out : list byte) : buffer :=
  mk_buffer (write_cells 0 out (mem b)) (size_ b) (capacity_ b).

(** ** [zstd_compressor] *)

Record zstd_compressor := mk_zstd_compressor {
  zc_buffer : buffer;
  zc_context : CCtx;
  zc_level : Z;
}.

(** The member initialisers run before the body of the constructor. *)
Definition construct_zstd_compressor (level : Z) : option (result zstd_compressor) :=
  match Buffer.construct alloc_ok 0 with
  | None => None
  | Some r => Some (outcome_bind r (λ b,
      Ok (mk_zstd_compressor b (ZSTD_CCtx_setLevel lib (ZSTD_createCCtx lib) level) level)))
  end.

(** [compress] of both classes, with the function of the library that each calls: the answer
    and the state, [None] where memory is accessed that was not written. *)
Definition zstd_compress_with (call : CCtx → Z → list byte → (string + list byte) * CCtx)
    (c : zstd_compressor) (data : message_data) : option (result message_data * zstd_compressor) :=
  match Buffer.resize alloc_ok (zc_buffer c) (ZSTD_compressBound lib (message_data_ops.size data)) with
  | None => None
  | Some (Throw e) => Some (Throw e, c)
  | Some (Ok b) =>
      match call (zc_context c) (size_ b) (message_data_ops.bytes data) with
      | (inl name, ctx) =>
          Some (throw_error error_code.unexpected_error
                  ("error in compression with zstd library: " +:+ name),
                mk_zstd_compressor b ctx (zc_level c))
      | (inr out, ctx) =>
          let b := fill b out in
          match read_bytes (mem b) (Z.of_nat (length out)) with
          | None => None
          | Some bytes => Some (Ok (Some bytes), mk_zstd_compressor b ctx (zc_level c))
          end
      end
  end.

Definition zstd_compress : zstd_compressor → message_data →
    option (result message_data * zstd_compressor) := zstd_compress_with (ZSTD_compress2 lib).

(** [zstd_streaming_compressor] has the same members. *)
Definition zstd_streaming_init (c : zstd_compressor) : zstd_compressor :=
  mk_zstd_compressor (zc_buffer c)
    (ZSTD_CCtx_setLevel lib (ZSTD_CCtx_reset lib (zc_context c)) (zc_level c)) (zc_level c).
Definition zstd_streaming_compress : zstd_compressor → message_data →
    option (result message_data * zstd_compressor) := zstd_compress_with (ZSTD_compressStream2 lib).

(** ** [zstd_parser] *)

Record zstd_parser := mk_zstd_parser { zp_buffer : buffer; zp_context : DCtx }.

Definition construct_zstd_parser : option (result zstd_parser) :=
  match Buffer.construct alloc_ok 0 with
  | None => None
  | Some r => Some (outcome_bind r (λ b, Ok (mk_zstd_parser b (ZSTD_createDCtx lib))))
  end.

Definition zstd_parse (p : zstd_parser) (data : option (list byte)) :
    option (result message_data * zstd_parser) :=
  match require_nonull data (Some "data") (Some "zstd_parser::parse") with
  | Throw e => Some (Throw e, p)
  | Ok data =>
      match Buffer.resize alloc_ok (zp_buffer p) (ZSTD_getDecompressedSize lib data) with
      | None => None
      | Some (Throw e) => Some (Throw e, p)
      | Some (Ok b) =>
          match ZSTD_decompressDCtx lib (zp_context p) (size_ b) data with
          | (inl name, ctx) =>
              Some (throw_error error_code.invalid_message
                      ("error in decompression with zstd library: " +:+ name), mk_zstd_parser b ctx)
          | (inr out, ctx) =>
              let b := fill b out in
              match read_bytes (mem b) (Z.of_nat (length out)) with
              | None => None
              | Some bytes => Some (Ok (Some bytes), mk_zstd_parser b ctx)
              end
          end
      end
  end.

(** ** [zstd_streaming_parser] *)

Record zstd_streaming_parser := mk_zstd_streaming_parser {
  zs_buffer : buffer;
  input_size : Z;                    (* input_.size *)
  input_pos : Z;                     (* input_.pos *)
  msgpack_parser_ : msgpack_streaming_parser;
  zs_context : DCtx;
}.

Definition construct_zstd_streaming_parser : option (result zstd_streaming_parser) :=
  match Buffer.construct alloc_ok 0, msgpack_streaming_parser_ops.construct alloc_ok with
  | Some rb, Some rm => Some (outcome_bind rb (λ b, outcome_bind rm (λ m,
      Ok (mk_zstd_streaming_parser b 0 0 m (ZSTD_createDCtx lib)))))
  | _, _ => None
  end.

Definition zs_prepare_buffer (p : zstd_streaming_parser) (size : Z) :
    option (result zstd_streaming_parser) :=
  match Buffer.resize alloc_ok (zs_buffer p) (wrap64 (input_size p + size)) with
  | None => None
  | Some r => Some (outcome_bind r (λ b, Ok (mk_zstd_streaming_parser b (input_size p)
      (input_pos p) (msgpack_parser_ p) (zs_context p))))
  end.

(** Bytes written at [buffer_.data() + input_.size]. *)
Definition zs_buffer_write (p : zstd_streaming_parser) (bytes : list byte) : zstd_streaming_parser :=
  mk_zstd_streaming_parser
    (mk_buffer (write_cells (Z.to_nat (input_size p)) bytes (mem (zs_buffer p)))
      (size_ (zs_buffer p)) (capacity_ (zs_buffer p)))
    (input_size p) (input_pos p) (msgpack_parser_ p) (zs_context p).

Definition zs_consumed (p : zstd_streaming_parser) (n : Z) : zstd_streaming_parser :=
  mk_zstd_streaming_parser (zs_buffer p) (wrap64 (input_size p + n)) (input_pos p)
    (msgpack_parser_ p) (zs_context p).

(** The [while] loop of [parse_next] on the input [data] (the [input_.size] bytes of the
    buffer): the result, the position, the inner parser and the context. *)
Fixpoint decompress_loop (fuel : nat) (data : list byte) (pos : Z) (m : msgpack_streaming_parser)
    (ctx : DCtx) : option (result () * Z * msgpack_streaming_parser * DCtx) :=
  if Z.of_nat (length data) <=? pos then Some (Ok (), pos, m, ctx)
  else
    match fuel with
    | O => None
    | S fuel' =>
        match msgpack_streaming_parser_ops.prepare_buffer alloc_ok m (ZSTD_DStreamOutSize lib) with
        | None => None
        | Some (Throw e) => Some (Throw e, pos, m, ctx)
        | Some (Ok m) =>
            match ZSTD_decompressStream lib ctx (ZSTD_DStreamOutSize lib) (drop (Z.to_nat pos) data) with
            | (inl name, ctx) =>
                Some (throw_error error_code.invalid_message
                  ("error in decompression with zstd library: " +:+ name), pos, m, ctx)
            | (inr (out, used), ctx) =>
                let pos := pos + used in
                let out_pos := Z.of_nat (length out) in
                let m :=
                  if 0 <? out_pos then
                    msgpack_streaming_parser_ops.consumed
                      (msgpack_streaming_parser_ops.buffer_write m out) out_pos
                  else m in
                if (pos =? Z.of_nat (length data)) || (out_pos <? ZSTD_DStreamOutSize lib) then
                  Some (Ok (), pos, m, ctx)
                else decompress_loop fuel' data pos m ctx
            end
        end
    end.

(** [parse_next], with [fuel] for the loop. *)
Definition zs_parse_next (fuel : nat) (p0 : zstd_streaming_parser) (n : Z) :
    option (result bool * zstd_streaming_parser) :=
  let p := zs_consumed p0 n in
  match read_bytes (mem (zs_buffer p)) (input_size p) with
  | None => None
  | Some data =>
      match decompress_loop fuel data (input_pos p) (msgpack_parser_ p) (zs_context p) with
      | None => None
      | Some (Throw e, pos, m, ctx) =>
          Some (Throw e, mk_zstd_streaming_parser (zs_buffer p) (input_size p) pos m ctx)
      | Some (Ok _, pos, m, ctx) =>
          match msgpack_streaming_parser_ops.parse_next m 0 with
          | None => None
          | Some (r, m) =>
              Some (r, mk_zstd_streaming_parser (Buffer.consume (zs_buffer p) pos)
                (wrap64 (input_size p - pos)) 0 m ctx)
          end
      end
  end.

Definition zs_get (p : zstd_streaming_parser) : option (message_data * zstd_streaming_parser) :=
  match msgpack_streaming_parser_ops.get (msgpack_parser_ p) with
  | None => None
  | Some (d, m) => Some (d, mk_zstd_streaming_parser (zs_buffer p) (input_size p) (input_pos p) m (zs_context p))
  end.
End zstd.
Arguments zstd_compressor : clear implicits.
Arguments zstd_parser : clear implicits.
Arguments zstd_streaming_parser : clear implicits.

(** ** Documented behaviour of the library *)

(** Frames, for inputs of at most [max_input] bytes ([ZSTD_MAX_INPUT_SIZE]): [ZSTD_compress2]
    cannot fail with [ZSTD_compressBound] bytes of room, stores the size in the frame, and
    [ZSTD_decompressDCtx] gets the data back. *)
Record zstd_frame_laws {CCtx DCtx} (lib : zstd_library CCtx DCtx) (max_input : Z)
    (frame : list byte → list byte → Prop) : Prop := {
  fl_bound (d : list byte) : Z.of_nat (length d) ≤ max_input →
    0 ≤ ZSTD_compressBound lib (Z.of_nat (length d)) ≤ size_max;
  fl_compress ctx cap d :
    Z.of_nat (length d) ≤ max_input → ZSTD_compressBound lib (Z.of_nat (length d)) ≤ cap →
    ∃ z ctx', ZSTD_compress2 lib ctx cap d = (inr z, ctx') ∧ Z.of_nat (length z) ≤ cap ∧ frame z d;
  fl_size z d : frame z d →
    ZSTD_getDecompressedSize lib z = Z.of_nat (length d) ∧ Z.of_nat (length d) ≤ size_max;
  fl_decompress ctx cap z d : frame z d → Z.of_nat (length d) ≤ cap →
    ∃ ctx', ZSTD_decompressDCtx lib ctx cap z = (inr d, ctx');
}.

(** Streams: [decoded ctx input] is what the decoder in state [ctx] makes of [input]. A call
    consumes some of it and produces the next bytes, at most as many as there is room for
    ([sl_step]). When what is still to come is part of a sequence of valid frames ([valid ctx
    stream]), a call that has room for output succeeds, leaves a state that is valid for the
    rest, gets on when it is given input, and keeps no output back when it did not fill the
    room ([sl_valid]); about other input nothing is assumed, it may fail. *)
Record zstd_stream_laws {CCtx DCtx} (lib : zstd_library CCtx DCtx) (decoded : DCtx → list byte → list byte)
    (valid : DCtx → list byte → Prop) : Prop := {
  sl_out : 0 < ZSTD_DStreamOutSize lib;
  sl_step ctx cap input out used ctx' :
    0 ≤ cap → ZSTD_decompressStream lib ctx cap input = (inr (out, used), ctx') →
    0 ≤ used ≤ Z.of_nat (length input) ∧ Z.of_nat (length out) ≤ cap ∧
    ∀ more, decoded ctx (input ++ more) = out ++ decoded ctx' (drop (Z.to_nat used) input ++ more);
  sl_valid ctx cap input more :
    0 < cap → valid ctx (input ++ more) →
    ∃ out used ctx', ZSTD_decompressStream lib ctx cap input = (inr (out, used), ctx') ∧
      valid ctx' (drop (Z.to_nat used) input ++ more) ∧
      (input ≠ [] → 0 < used ∨ out ≠ []) ∧
      (Z.of_nat (length out) < cap → decoded ctx' [] = []);
}.

(** ** Facts *)

Lemma fill_read b out :
  Buffer.wf b → Z.of_nat (length out) ≤ size_ b →
  Buffer.wf (fill b out) ∧ read_bytes (mem (fill b out)) (Z.of_nat (length out)) = Some out.
Proof.
  intros [Hb Hs Hc] Hl. assert (0 + length out ≤ length (mem b))%nat as Hlen by lia. split.
  - split; simpl; [rewrite length_write_cells; lia|lia|lia].
  - simpl. rewrite (read_bytes_prefix _ out), firstn_all; [done| |done].
    change (length out) with (0 + length out)%nat at 1. by rewrite take_write_cells.
Qed.

Section facts.
Context {CCtx DCtx : Type} (lib : zstd_library CCtx DCtx) (alloc_ok : Z → bool).

Context (decoded : DCtx → list byte → list byte) (valid : DCtx → list byte → Prop).
Context (laws : zstd_stream_laws lib decoded valid).

(** What a failed call may throw: the allocation failed, or the library rejected input that
    is not the front of valid frames. *)
Definition zstd_error (ctx : DCtx) (input : list byte) (e : exn) : Prop :=
  (e = std_bad_alloc ∧ ∃ n, alloc_ok n = false) ∨
  ((∀ more, ¬ valid ctx (input ++ more)) ∧
   ∃ name, e = mprpc_exception (error_info_ops.make error_code.invalid_message
    ("error in decompression with zstd library: " +:+ name))).

Lemma prepare_buffer_throws m n e :
  msgpack_streaming_parser_ops.prepare_buffer alloc_ok m n = Some (Throw e) → ∃ n, alloc_ok n = false.
Proof.
  unfold msgpack_streaming_parser_ops.prepare_buffer, Buffer.resize, Buffer.reallocate.
  destruct (_ <=? _); [done|]. destruct (Buffer.calculate_next_capacity _ _) as [c|]; [|done].
  destruct (alloc_ok c) eqn:E; [done|]. by exists c.
Qed.

(** What a run of the loop does: from [ctx] and the input [input], it made [out] and left the
    state [ctx'] and the input [left_]. *)
Record decompressed (ctx : DCtx) (input : list byte) (ctx' : DCtx) (left_ out : list byte) : Prop := {
  de_out more : decoded ctx (input ++ more) = out ++ decoded ctx' (left_ ++ more);
  de_valid more : valid ctx (input ++ more) → valid ctx' (left_ ++ more);
  de_progress more : valid ctx (input ++ more) → input ≠ [] → (length left_ < length input)%nat ∨ out ≠ [];
  de_flushed more : valid ctx (input ++ more) → input ≠ [] →
    Z.of_nat (length out) < ZSTD_DStreamOutSize lib → decoded ctx' [] = [];
  de_same : input = [] → ctx' = ctx;
}.

(** One call of the library. *)
Lemma decompressed_call ctx input out used ctx' :
  ZSTD_decompressStream lib ctx (ZSTD_DStreamOutSize lib) input = (inr (out, used), ctx') →
  input ≠ [] → decompressed ctx input ctx' (drop (Z.to_nat used) input) out.
Proof.
  intros E Hin. pose proof (sl_out _ _ _ laws) as Hout.
  pose proof E as (Hused & Hlen & Hdec)%(sl_step _ _ _ laws); [|lia].
  split; [exact Hdec| | | |done];
    intros more Hv; destruct (sl_valid _ _ _ laws _ _ _ _ Hout Hv) as (out' & used' & c' & E' & Hv' & Hp & Hf);
    rewrite E in E'; injection E' as <- <- <-; [exact Hv'|..|by intros _].
  intros Hne. destruct (Hp Hne) as [Hlt|Ho]; [left|by right]. rewrite length_drop. lia.
Qed.

(** Calls one after the other, the first of which filled the room. *)
Lemma decompressed_trans ctx input ctx1 left1 out1 ctx2 left2 out2 :
  decompressed ctx input ctx1 left1 out1 → input ≠ [] → ZSTD_DStreamOutSize lib ≤ Z.of_nat (length out1) →
  decompressed ctx1 left1 ctx2 left2 out2 → decompressed ctx input ctx2 left2 (out1 ++ out2).
Proof.
  intros [H1 V1 P1 F1 _] Hin Hfull [H2 V2 P2 F2 _]. pose proof (sl_out _ _ _ laws) as Hout. split.
  - intros more. by rewrite H1, H2, app_assoc.
  - eauto.
  - intros more Hv Hne. right. destruct out1; [simpl in Hfull; lia|done].
  - intros more Hv Hne. rewrite length_app. lia.
  - done.
Qed.

(** The loop hands to the inner parser what the decoder makes of the input. *)
Lemma decompress_loop_spec fuel data (pos : nat) m ctx held room :
  msgpack_represents m held room → (pos ≤ length data)%nat →
  (length (decoded ctx (drop pos data)) < fuel)%nat →
  Z.of_nat (length held + length (decoded ctx (drop pos data))) + ZSTD_DStreamOutSize lib ≤ size_max →
  ∃ r pos' m' ctx' out room',
    decompress_loop lib alloc_ok fuel data (Z.of_nat pos) m ctx = Some (r, Z.of_nat pos', m', ctx') ∧
    msgpack_represents m' (held ++ out) room' ∧ (pos ≤ pos' ≤ length data)%nat ∧
    match r with
    | Ok _ => decompressed ctx (drop pos data) ctx' (drop pos' data) out
    | Throw e => zstd_error ctx (drop pos data) e
    end.
Proof.
  revert pos m ctx held room. induction fuel as [|fuel IH]; intros pos m ctx held room Hm Hpos Hf Hmax; [lia|].
  cbn [decompress_loop]. destruct (Z.leb_spec0 (Z.of_nat (length data)) (Z.of_nat pos)) as [Hle|Hgt].
  { eexists _, pos, _, _, [], _. rewrite app_nil_r. split; [done|]. split; [exact Hm|]. split; [lia|].
    rewrite drop_ge by lia. by split. }
  pose proof (sl_out _ _ _ laws) as Hout.
  assert (drop pos data ≠ []) as Hne by (intros H0%(f_equal length); rewrite length_drop in H0; simpl in H0; lia).
  destruct (msgpack_prepare_spec alloc_ok m held room (ZSTD_DStreamOutSize lib) Hm) as (r & Er & Hr); [lia..|].
  rewrite Er. destruct r as [m1|e].
  2: { eexists _, pos, _, _, [], _. rewrite app_nil_r. split; [done|]. split; [exact Hm|].
       split; [lia|]. left. split; [done|]. exact (prepare_buffer_throws _ _ _ Er). }
  rewrite Nat2Z.id. destruct (ZSTD_decompressStream lib ctx _ (drop pos data)) as [[name|[out used]] ctx'] eqn:E.
  { eexists _, pos, _, _, [], _. rewrite app_nil_r. split; [done|]. split; [exact Hr|].
    split; [lia|]. right. split; [|by exists name]. intros more Hv.
    destruct (sl_valid _ _ _ laws _ _ _ _ Hout Hv) as (? & ? & ? & E' & _). by rewrite E in E'. }
  pose proof E as (Hused & Hlen & _)%(sl_step _ _ _ laws); [|lia]. rewrite length_drop in Hused.
  pose proof (decompressed_call _ _ _ _ _ E Hne) as Hcall. rewrite drop_drop in Hcall.
  set (m2 := if 0 <? Z.of_nat (length out) then _ else m1).
  assert (msgpack_represents m2 (held ++ out) (Z.to_nat (ZSTD_DStreamOutSize lib) - length out)) as Hm2.
  { subst m2. destruct out as [|b out].
    - rewrite app_nil_r, Nat.sub_0_r. exact Hr.
    - cbn [length]. destruct (Z.ltb_spec0 0 (Z.of_nat (S (length out)))); [|lia].
      apply (msgpack_consumed_spec m1 held _ (b :: out) Hr). cbn [length] in *. lia. }
  replace (Z.of_nat pos + used) with (Z.of_nat (pos + Z.to_nat used)) by lia.
  destruct (_ || _) eqn:Eb.
  { eexists _, _, _, _, out, _. split; [done|]. split; [exact Hm2|]. split; [lia|exact Hcall]. }
  apply orb_false_iff in Eb as [_ Hfull%Z.ltb_ge].
  pose proof (de_out _ _ _ _ _ Hcall []) as Hd0. rewrite !app_nil_r in Hd0. rewrite Hd0, length_app in Hf, Hmax.
  destruct (IH (pos + Z.to_nat used)%nat m2 ctx' (held ++ out) _ Hm2) as
    (r & pos' & m' & ctx'' & out' & room' & -> & Hm' & Hp' & Hr'); [lia|lia|rewrite length_app; lia|].
  exists r, pos', m', ctx'', (out ++ out'), room'. rewrite app_assoc. split; [done|]. split; [done|].
  split; [lia|]. destruct r as [?|e]; [by eapply decompressed_trans|].
  destruct Hr' as [Ha|[Hv Hn]]; [by left|right]. split; [|done].
  intros more Hv'. apply (Hv more). by apply (de_valid _ _ _ _ _ Hcall).
Qed.
End facts.

(** The unconsumed input of a streaming parser, seen like the buffer of the inner one. *)
Definition zs_input {DCtx} (p : zstd_streaming_parser DCtx) : msgpack_streaming_parser :=
  mk_msgpack_streaming_parser (zs_buffer p) (input_size p) (input_pos p).

(** [p] holds the input [data] and has given [held] to the inner parser, which has not yet
    returned it. *)
Record zs_represents {DCtx} (p : zstd_streaming_parser DCtx) (data held : list byte) (room : nat) : Prop := {
  zr_input : msgpack_represents (zs_input p) data room;
  zr_pos : input_pos p = 0;
  zr_held : ∃ room', msgpack_represents (msgpack_parser_ p) held room';
}.

(** ** Theorems *)

(** datagrams survive compression: whatever data is compressed by the zstd compressor and
    parsed by the zstd parser, in whatever state their buffers are, comes back as it was, when
    memory can be allocated. *)
Theorem zstd_datagram_roundtrip {CCtx DCtx} (lib : zstd_library CCtx DCtx) max_input frame
    alloc_ok (c : zstd_compressor CCtx) (p : zstd_parser DCtx) d :
  zstd_frame_laws lib max_input frame → Z.of_nat (length d) ≤ max_input → (∀ n, alloc_ok n = true) →
  Buffer.wf (zc_buffer c) → Buffer.wf (zp_buffer p) →
  ∃ z c' p', zstd_compress lib alloc_ok c (Some d) = Some (Ok (Some z), c') ∧
    Buffer.wf (zc_buffer c') ∧
    zstd_parse lib alloc_ok p (Some z) = Some (Ok (Some d), p') ∧ Buffer.wf (zp_buffer p').
Proof.
  intros [Hbound Hcomp Hsize Hdec] Hmax Ha Hc Hp.
  destruct (resize_ok alloc_ok (zc_buffer c) _ Ha Hc (Hbound d Hmax)) as (b & Hb & Hbwf & Hbs).
  destruct (Hcomp (zc_context c) (size_ b) d) as (z & ctx & Hz & Hzl & Hfr); [lia..|].
  destruct (fill_read b z Hbwf Hzl) as [Hfwf Hrd].
  destruct (Hsize z d Hfr) as [Hds Hdl].
  destruct (resize_ok alloc_ok (zp_buffer p) (Z.of_nat (length d)) Ha Hp ltac:(lia)) as (b' & Hb' & Hbwf' & Hbs').
  destruct (Hdec (zp_context p) (size_ b') z d Hfr ltac:(lia)) as [ctx' Hctx'].
  destruct (fill_read b' d Hbwf' ltac:(lia)) as [Hfwf' Hrd'].
  eexists z, _, _. split_and!.
  - unfold zstd_compress, zstd_compress_with.
    change (message_data_ops.size (Some d)) with (Z.of_nat (length d)). rewrite Hb.
    change (message_data_ops.bytes (Some d)) with d. by rewrite Hz, Hrd.
  - done.
  - unfold zstd_parse. rewrite require_nonull_spec. by rewrite Hds, Hb', Hctx', Hrd'.
  - done.
Qed.

(** The zstd streaming parser is the msgpack streaming parser on the decompressed stream:
    after a chunk was received, [parse_next] returns (the loop ends), the bytes added to the
    inner parser are exactly what the decoder makes of the input it consumed, the input kept
    is exactly the rest, and the answer is that of the inner parser on the bytes it holds. It
    fails otherwise only when memory cannot be allocated or the input is not the front of
    valid frames. *)
Theorem zstd_stream_refines {CCtx DCtx} (lib : zstd_library CCtx DCtx) decoded valid alloc_ok
    (p : zstd_streaming_parser DCtx) data held room chunk :
  zstd_stream_laws lib decoded valid → zs_represents p data held room → (length chunk ≤ room)%nat →
  let total := decoded (zs_context p) (data ++ chunk) in
  Z.of_nat (length held + length total) + ZSTD_DStreamOutSize lib ≤ size_max →
  ∃ r p', zs_parse_next lib alloc_ok (S (length total)) (zs_buffer_write p chunk)
      (Z.of_nat (length chunk)) = Some (r, p') ∧
    ((∃ e, r = Throw e ∧ zstd_error alloc_ok valid (zs_context p) (data ++ chunk) e) ∨
     ∃ out (used : nat), (used ≤ length (data ++ chunk))%nat ∧
       decompressed lib decoded valid (zs_context p) (data ++ chunk) (zs_context p')
         (drop used (data ++ chunk)) out ∧
       msgpack_represents (zs_input p') (drop used (data ++ chunk)) (room - length chunk) ∧
       input_pos p' = 0 ∧
       match msgpack_decode (held ++ out) with
       | need_more => r = Ok false ∧ ∃ room', msgpack_represents (msgpack_parser_ p') (held ++ out) room'
       | decode_error e => r = Throw e
       | decoded_message m rest => r = Ok true ∧
           ∃ m', msgpack_streaming_parser_ops.get (msgpack_parser_ p') = Some (Some m, m') ∧
             ∃ room', msgpack_represents m' rest room'
       end).
Proof.
  intros laws [Hin Hpos [room0 Hheld]] Hle total Hmax.
  pose proof (msgpack_consumed_spec (zs_input p) data room chunk Hin Hle) as Hin'.
  unfold zs_parse_next. cbn [zs_consumed zs_buffer_write zs_buffer input_size input_pos msgpack_parser_ zs_context].
  pose proof Hin' as [Hwf Hcons _ Hd]. cbn [zs_input buffer_ consumed_buf_size_
    msgpack_streaming_parser_ops.consumed msgpack_streaming_parser_ops.buffer_write mem] in Hcons, Hd.
  rewrite Hcons, (read_bytes_prefix _ (data ++ chunk)), firstn_all by (exact Hd || done). rewrite Hpos.
  destruct (decompress_loop_spec lib alloc_ok decoded valid laws (S (length total)) (data ++ chunk) 0
    (msgpack_parser_ p) (zs_context p) held room0 Hheld) as
    (r & pos & m & ctx & out & room1 & Hl & Hm & Hp & Hr); [apply Nat.le_0_l|apply Nat.lt_succ_diag_r|exact Hmax|].
  change (Z.of_nat 0) with 0 in Hl. rewrite Hl. destruct r as [[]|e].
  2: { do 2 eexists. split; [done|]. left. eauto. }
  destruct (msgpack_parse_next_spec m (held ++ out) room1 [] Hm) as (r & m' & Hn & Hc); [simpl; lia|].
  rewrite msgpack_write_nil in Hn. change (Z.of_nat (length [])) with 0 in Hn. rewrite Hn.
  do 2 eexists. split; [done|]. right. exists out, pos. split; [lia|].
  split; [exact Hr|].
  rewrite app_nil_r in Hc. split_and!.
  - destruct (msgpack_get_spec (mk_msgpack_streaming_parser (buffer_ (msgpack_streaming_parser_ops.consumed
      (msgpack_streaming_parser_ops.buffer_write (zs_input p) chunk) (Z.of_nat (length chunk))))
      (Z.of_nat (length (data ++ chunk))) (Z.of_nat pos)) (data ++ chunk) (room - length chunk) pos)
      as (p'' & Hg & Hrep); [by destruct Hin'|lia|done|].
    unfold msgpack_streaming_parser_ops.get in Hg. cbn [buffer_ parsed_buf_size_ consumed_buf_size_] in Hg.
    destruct (read_bytes _ (Z.of_nat pos)); [|done]. injection Hg as _ <-. by destruct Hrep.
  - done.
  - destruct (msgpack_decode (held ++ out)) as [|mm rest|e]; [| |by destruct Hc].
    + destruct Hc as [-> Hc]. split; [done|]. eauto.
    + destruct Hc as [-> (m'' & Hg & Hrep)]. split; [done|]. eauto.
Qed.

(** A library that stores data as it is, with an output buffer of four bytes: decoders keep
    what did not fit. *)
Definition store_library : zstd_library () (list byte) :=
  mk_zstd_library () (list byte) () (λ c _, c) (λ c, c) (λ n, n)
    (λ c cap d, (if Z.of_nat (length d) <=? cap then inr d else inl "Destination buffer is too small", c))
    (λ c cap d, (if Z.of_nat (length d) <=? cap then inr d else inl "Destination buffer is too small", c))
    [] (λ z, Z.of_nat (length z))
    (λ c cap z, (if Z.of_nat (length z) <=? cap then inr z else inl "Destination buffer is too small", c))
    4
    (λ pending cap z, (inr (take (Z.to_nat cap) (pending ++ z), Z.of_nat (length z)),
       drop (Z.to_nat cap) (pending ++ z))).

Lemma store_stream_laws : zstd_stream_laws store_library (λ pending input, pending ++ input) (λ _ _, True).
Proof.
  split; simpl; [lia|..].
  - intros ctx cap input out used ctx' Hcap [= <- <- <-]. rewrite Nat2Z.id, drop_all, length_take.
    split; [lia|]. split; [lia|]. intros more. by rewrite !app_assoc, take_drop, app_nil_r.
  - intros ctx cap input more Hcap _. do 3 eexists. split; [done|]. split; [done|]. split.
    + intros Hne. left. destruct input; [done|]. simpl. lia.
    + rewrite length_take, app_nil_r. intros Hl. apply drop_ge. lia.
Qed.

Lemma store_frame_laws : zstd_frame_laws store_library size_max (λ z d, z = d ∧ Z.of_nat (length d) ≤ size_max).
Proof.
  split; simpl.
  - lia.
  - intros ctx cap d Hmax Hcap. exists d, ctx. zcase; done.
  - by intros z d [-> ?].
  - intros ctx cap z d [-> _] Hcap. exists ctx. zcase; done.
Qed.

Definition store_buffer : buffer := mk_buffer (replicate 1024 None) 0 1024.
Lemma store_buffer_wf : Buffer.wf store_buffer.
Proof. split; unfold size_max; simpl; lia. Qed.

Lemma zstd_datagram_roundtrip_witness :
  ∃ z c' p', zstd_compress store_library (λ _, true) (mk_zstd_compressor store_buffer () 3)
      (Some [Byte.x92; Byte.x01; Byte.x02]) = Some (Ok (Some z), c') ∧
    Buffer.wf (zc_buffer c') ∧
    zstd_parse store_library (λ _, true) (mk_zstd_parser store_buffer []) (Some z) =
      Some (Ok (Some [Byte.x92; Byte.x01; Byte.x02]), p') ∧ Buffer.wf (zp_buffer p').
Proof.
  apply (zstd_datagram_roundtrip store_library size_max (λ z d, z = d ∧ Z.of_nat (length d) ≤ size_max)).
  - exact store_frame_laws.
  - unfold size_max. simpl. lia.
  - reflexivity.
  - exact store_buffer_wf.
  - exact store_buffer_wf.
Defined.

(** A streaming parser with room for a chunk. *)
Definition store_parser : zstd_streaming_parser (list byte) :=
  mk_zstd_streaming_parser (mk_buffer (replicate 1024 None) 10 1024) 0 0 sample_parser [].
Lemma store_parser_represents : zs_represents store_parser [] [] 10.
Proof.
  split; [|reflexivity|exists 10%nat]; (split; [split; unfold size_max; simpl; lia|reflexivity..]).
Qed.

Lemma zstd_stream_refines_witness :
  ∃ r p', zs_parse_next store_library (λ _, true) 4
    (zs_buffer_write store_parser [Byte.x92; Byte.x01; Byte.x02]) 3 = Some (r, p').
Proof.
  destruct (zstd_stream_refines store_library (λ pending input, pending ++ input) (λ _ _, True) (λ _, true)
    store_parser [] [] 10 [Byte.x92; Byte.x01; Byte.x02] store_stream_laws store_parser_represents)
    as (r & p' & Hp & _).
  - simpl. lia.
  - unfold size_max. simpl. lia.
  - exists r, p'. exact Hp.
Defined.

(** bytes that the decoder keeps are not flushed without new input: when the input was
    consumed, [parse_next] does not call the library, however often it is called, so what the
    decoder still holds for the current message is neither parsed nor lost, but stuck. *)
Theorem zstd_pending_stuck {CCtx DCtx} (lib : zstd_library CCtx DCtx) alloc_ok fuel
    (p : zstd_streaming_parser DCtx) held room :
  zs_represents p [] held room → msgpack_decode held = need_more →
  ∃ p', zs_parse_next lib alloc_ok fuel p 0 = Some (Ok false, p') ∧
    zs_context p' = zs_context p ∧ zs_represents p' [] held room.
Proof.
  intros [Hin Hpos [room0 Hheld]] Hd. pose proof Hin as [Hwf Hcons Hroom _].
  cbn [zs_input buffer_ consumed_buf_size_] in *. change (Z.of_nat (length [])) with 0 in Hcons.
  unfold zs_parse_next. cbn [zs_consumed zs_buffer input_size input_pos msgpack_parser_ zs_context].
  rewrite Hcons, Hpos. change (wrap64 (0 + 0)) with 0.
  assert (read_bytes (mem (zs_buffer p)) 0 = Some []) as ->.
  { apply (read_bytes_prefix _ [] 0); done. }
  assert (decompress_loop lib alloc_ok fuel [] 0 (msgpack_parser_ p) (zs_context p) =
    Some (Ok (), 0, msgpack_parser_ p, zs_context p)) as -> by (by destruct fuel).
  destruct (msgpack_parse_next_spec (msgpack_parser_ p) held room0 [] Hheld) as (r & m' & Hn & Hc); [simpl; lia|].
  rewrite msgpack_write_nil in Hn. change (Z.of_nat (length [])) with 0 in Hn. rewrite Hn.
  rewrite app_nil_r, Hd in Hc. destruct Hc as [-> Hm'].
  eexists. split; [done|]. split; [done|]. split; [|done|by eexists].
  change (wrap64 (0 - 0)) with 0. destruct (consume_wf_aux (zs_buffer p) 0 Hwf) as [Hwf' Hcont]; [lia|].
  split; [done|done| |done]. cbn [zs_input buffer_ zs_buffer].
  rewrite <-Hroom. pose proof (length_contents _ Hwf') as Hl'. rewrite Hcont in Hl'.
  rewrite drop_0, (length_contents _ Hwf) in Hl'. lia.
Qed.

(** The parser after the six bytes of a message were received: four went to the inner parser,
    the decoder keeps two. *)
Definition stuck_parser : zstd_streaming_parser (list byte) :=
  match zs_parse_next store_library (λ _, true) 7
    (zs_buffer_write store_parser [Byte.x95; Byte.x01; Byte.x02; Byte.x03; Byte.x04; Byte.x05]) 6 with
  | Some (_, p) => p
  | None => store_parser
  end.

Lemma zstd_pending_stuck_witness :
  zs_context stuck_parser = [Byte.x04; Byte.x05] ∧
  ∃ p', zs_parse_next store_library (λ _, true) 7 stuck_parser 0 = Some (Ok false, p') ∧
    zs_context p' = zs_context stuck_parser ∧
    zs_represents p' [] [Byte.x95; Byte.x01; Byte.x02; Byte.x03] 4.
Proof.
  split; [vm_compute; reflexivity|].
  apply zstd_pending_stuck; [|vm_compute; reflexivity].
  split; [|vm_compute; reflexivity|exists 0%nat];
    (split; [split; vm_compute; (reflexivity || intuition discriminate)|vm_compute; reflexivity..]).
Defined.
