(* ===== verification/ZstdStream.v ===== *)
(** A compressed connection from end to end: the streaming compressor of
    impl/mprpc/transport/compressors/impl/zstd_compressor_impl.h on one side and the streaming
    parser of impl/mprpc/transport/parsers/impl/zstd_parser_impl.h on the other, with the bytes
    between them cut in any way ([Zstd] has the operations). The calls are those that
    stream_socket_helper makes: [init] and a [compress] per message on the side that writes,
    [prepare_buffer], [consumed], [parse_next] and [get] on the side that reads. *)

From stdpp Require Import relations.
From S2P Require Import Prelude Errors MsgpackObject Buffer StreamParser Compressor StreamSocket TcpPeer Zstd.

Open Scope Z_scope.

Section connection.
Context {CCtx DCtx : Type} (lib : zstd_library CCtx DCtx) (alloc_ok : Z → bool).

(** ** The side that writes *)

Fixpoint zs_compress_all (c : zstd_compressor CCtx) (ds : list (list byte)) :
    option (result (list byte) * zstd_compressor CCtx) :=
  match ds with
  | [] => Some (Ok [], c)
  | d :: ds' =>
      match zstd_streaming_compress lib alloc_ok c (Some d) with
      | None => None
      | Some (Throw e, c) => Some (Throw e, c)
      | Some (Ok z, c) =>
          match zs_compress_all c ds' with
          | Some (Ok zs, c) => Some (Ok (message_data_ops.bytes z ++ zs), c)
          | r => r
          end
      end
  end.

(** A new compressor, [init], and the messages. *)
Definition zs_send (level : Z) (ds : list (list byte)) : option (result (list byte)) :=
  match construct_zstd_compressor lib alloc_ok level with
  | Some (Ok c) => fst <$> zs_compress_all (zstd_streaming_init lib c) ds
  | Some (Throw e) => Some (Throw e)
  | None => None
  end.

(** ** The side that reads *)

Definition zs_room (p : zstd_streaming_parser DCtx) : Z := size_ (zs_buffer p) - input_size p.

(** The parser after it received the bytes [rec] and gave out the messages [ms]. A chunk may
    be empty: this is [parse_next(0)]. *)
Inductive zs_run : zstd_streaming_parser DCtx → list byte → list (list byte) → Prop :=
| zs_run_new p :
    construct_zstd_streaming_parser lib alloc_ok = Some (Ok p) → zs_run p [] []
| zs_run_prepare p rec ms n p' :
    zs_run p rec ms → 0 ≤ n → Z.of_nat (length rec) + n ≤ size_max →
    zs_prepare_buffer alloc_ok p n = Some (Ok p') → zs_run p' rec ms
| zs_run_consumed p rec ms chunk :
    zs_run p rec ms → Z.of_nat (length chunk) ≤ zs_room p →
    zs_run (zs_consumed (zs_buffer_write p chunk) (Z.of_nat (length chunk))) (rec ++ chunk) ms
| zs_run_more p rec ms chunk fuel p' :
    zs_run p rec ms → Z.of_nat (length chunk) ≤ zs_room p →
    zs_parse_next lib alloc_ok fuel (zs_buffer_write p chunk) (Z.of_nat (length chunk)) = Some (Ok false, p') →
    zs_run p' (rec ++ chunk) ms
| zs_run_message p rec ms chunk fuel p' m p'' :
    zs_run p rec ms → Z.of_nat (length chunk) ≤ zs_room p →
    zs_parse_next lib alloc_ok fuel (zs_buffer_write p chunk) (Z.of_nat (length chunk)) = Some (Ok true, p') →
    zs_get p' = Some (m, p'') →
    zs_run p'' (rec ++ chunk) (ms ++ [message_data_ops.bytes m]).

(** A call [parse_next(0)], with the [get] that follows when it found a message. *)
Inductive zs_poll : zstd_streaming_parser DCtx * list (list byte) →
    zstd_streaming_parser DCtx * list (list byte) → Prop :=
| zs_poll_more p ms fuel p' :
    zs_parse_next lib alloc_ok fuel p 0 = Some (Ok false, p') → zs_poll (p, ms) (p', ms)
| zs_poll_message p ms fuel p' m p'' :
    zs_parse_next lib alloc_ok fuel p 0 = Some (Ok true, p') → zs_get p' = Some (m, p'') →
    zs_poll (p, ms) (p'', ms ++ [message_data_ops.bytes m]).

(** ** Facts *)

(** More fuel does not change the outcome of the loop. *)
Lemma decompress_loop_more fuel fuel' data pos m ctx r :
  decompress_loop lib alloc_ok fuel data pos m ctx = Some r → (fuel ≤ fuel')%nat →
  decompress_loop lib alloc_ok fuel' data pos m ctx = Some r.
Proof.
  revert fuel' pos m ctx. induction fuel as [|fuel IH]; intros [|fuel'] pos m ctx; simpl; try lia; try done.
  - by destruct (_ <=? pos).
  - destruct (_ <=? pos); [done|].
    destruct (msgpack_streaming_parser_ops.prepare_buffer _ _ _) as [[m1|e]|]; [|done|done].
    destruct (ZSTD_decompressStream _ _ _ _) as [[name|[out used]] ctx']; [done|].
    destruct (_ || _); [done|]. intros Hl Hf. apply IH; [done|lia].
Qed.

Lemma zs_parse_next_fuel fuel fuel' p n r r' :
  zs_parse_next lib alloc_ok fuel p n = Some r → zs_parse_next lib alloc_ok fuel' p n = Some r' → r = r'.
Proof.
  unfold zs_parse_next. destruct (read_bytes _ _) as [data|]; [|done].
  destruct (decompress_loop _ _ fuel _ _ _ _) as [x|] eqn:E; [|done].
  destruct (decompress_loop _ _ fuel' _ _ _ _) as [x'|] eqn:E'; [|done].
  apply (decompress_loop_more _ (Nat.max fuel fuel')) in E; [|lia].
  apply (decompress_loop_more _ (Nat.max fuel fuel')) in E'; [|lia].
  rewrite E' in E. injection E as ->. intros -> [= ->]. done.
Qed.

Lemma zs_represents_room (p : zstd_streaming_parser DCtx) data held room :
  zs_represents p data held room → zs_room p = Z.of_nat room.
Proof. intros [[_ Hc Hr _] _ _]. unfold zs_room. simpl in *. lia. Qed.

Lemma zs_prepare_represents (p : zstd_streaming_parser DCtx) data held room n p' :
  zs_represents p data held room → 0 ≤ n → Z.of_nat (length data) + n ≤ size_max →
  zs_prepare_buffer alloc_ok p n = Some (Ok p') →
  zs_represents p' data held (Z.to_nat n) ∧ zs_context p' = zs_context p.
Proof.
  intros [Hin Hpos Hheld] Hn Hmax Hp.
  destruct (msgpack_prepare_spec alloc_ok (zs_input p) data room n Hin Hn Hmax) as (r & Hr & Hrep).
  unfold msgpack_streaming_parser_ops.prepare_buffer in Hr. unfold zs_prepare_buffer in Hp. simpl in Hr.
  destruct (resize _ _ _) as [[b|e]|]; simpl in *; [|done|done]. injection Hr as <-. injection Hp as <-.
  split; [|done]. by split.
Qed.

Lemma construct_represents p :
  construct_zstd_streaming_parser lib alloc_ok = Some (Ok p) →
  zs_represents p [] [] 0 ∧ zs_context p = ZSTD_createDCtx lib.
Proof.
  unfold construct_zstd_streaming_parser.
  destruct (construct_spec alloc_ok 0) as (c & -> & Hwf); [unfold size_max; lia|].
  destruct (msgpack_streaming_parser_ops.construct alloc_ok) as [[m|e]|] eqn:Em; [| |done].
  - destruct (alloc_ok c); simpl; [|done]. intros [= <-]. split; [|done]. split; [by split|done|].
    exists 0%nat. by apply (msgpack_construct_represents alloc_ok).
  - by destruct (alloc_ok c).
Qed.

(** ** Documented behaviour of the library on streams of frames *)

(** Beside [zstd_stream_laws]: more input does not change what was made of the input before
    ([cl_prefix]); [ZSTD_compressStream2] with [ZSTD_e_end] and room for the bound ends a frame
    in one call, from any context in which no call has failed since it was made or reset
    ([usable]); the frame is valid, and a decoder that is given it makes the data of it and
    then goes on like a new one. *)
Record zstd_connection_laws (decoded : DCtx → list byte → list byte) (valid : DCtx → list byte → Prop)
    (usable : CCtx → Prop) (max_input : Z) : Prop := {
  cl_stream : zstd_stream_laws lib decoded valid;
  cl_prefix ctx input more : ∃ out, decoded ctx (input ++ more) = decoded ctx input ++ out;
  cl_usable ctx level : usable (ZSTD_CCtx_setLevel lib (ZSTD_CCtx_reset lib ctx) level);
  cl_bound n : 0 ≤ n ≤ max_input → 0 ≤ ZSTD_compressBound lib n ≤ size_max;
  cl_compress ctx cap d :
    usable ctx → Z.of_nat (length d) ≤ max_input → ZSTD_compressBound lib (Z.of_nat (length d)) ≤ cap →
    ∃ z ctx', ZSTD_compressStream2 lib ctx cap d = (inr z, ctx') ∧ Z.of_nat (length z) ≤ cap ∧ usable ctx' ∧
      ∀ more, decoded (ZSTD_createDCtx lib) (z ++ more) = d ++ decoded (ZSTD_createDCtx lib) more ∧
        (valid (ZSTD_createDCtx lib) more → valid (ZSTD_createDCtx lib) (z ++ more));
  cl_end : decoded (ZSTD_createDCtx lib) [] = [];
  cl_valid_end : valid (ZSTD_createDCtx lib) [];
}.

Context {decoded : DCtx → list byte → list byte} {valid : DCtx → list byte → Prop}.
Context {usable : CCtx → Prop} {max_input : Z}.
Context (laws : zstd_connection_laws decoded valid usable max_input).

Lemma compress_all_decodes c ds :
  (∀ n, alloc_ok n = true) → Buffer.wf (zc_buffer c) → usable (zc_context c) →
  Forall (λ d, Z.of_nat (length d) ≤ max_input) ds →
  ∃ zs c', zs_compress_all c ds = Some (Ok zs, c') ∧
    decoded (ZSTD_createDCtx lib) zs = concat ds ∧ valid (ZSTD_createDCtx lib) zs.
Proof.
  intros Ha. revert c. induction ds as [|d ds IH]; intros c Hwf Hu Hds.
  { exists [], c. split_and!; [done|apply (cl_end _ _ _ _ laws)|apply (cl_valid_end _ _ _ _ laws)]. }
  apply Forall_cons_1 in Hds as [Hd Hds].
  destruct (resize_ok alloc_ok (zc_buffer c) _ Ha Hwf (cl_bound _ _ _ _ laws (Z.of_nat (length d)) ltac:(lia)))
    as (b & Hb & Hbwf & Hbs).
  destruct (cl_compress _ _ _ _ laws (zc_context c) (size_ b) d Hu Hd) as (z & ctx & Hz & Hzl & Hu' & Hdec); [lia|].
  destruct (fill_read b z Hbwf Hzl) as [Hfwf Hrd].
  destruct (IH (mk_zstd_compressor (fill b z) ctx (zc_level c)) Hfwf Hu' Hds) as (zs & c' & Hzs & Hall & Hv).
  destruct (Hdec zs) as [Hd' Hv']. exists (z ++ zs), c'. split_and!.
  - simpl. unfold zstd_streaming_compress, zstd_compress_with.
    change (message_data_ops.size (Some d)) with (Z.of_nat (length d)). rewrite Hb.
    change (message_data_ops.bytes (Some d)) with d. by rewrite Hz, Hrd, Hzs.
  - simpl. by rewrite Hd', Hall.
  - exact (Hv' Hv).
Qed.

(** What was received and not given out: [data] as input, [held] in the inner parser, [rest]
    still to be received, and the messages [ds] to come, of [total] bytes at most. *)
Record zs_state (total : nat) (p : zstd_streaming_parser DCtx) (data held : list byte) (room : nat)
    (rest : list byte) (ds : list (list byte)) : Prop := {
  st_represents : zs_represents p data held room;
  st_decoded : held ++ decoded (zs_context p) (data ++ rest) = concat ds;
  st_valid : valid (zs_context p) (data ++ rest);
  st_total : (length (concat ds) ≤ total)%nat;
  st_flushed : data = [] → Z.of_nat total < ZSTD_DStreamOutSize lib → decoded (zs_context p) [] = [];
}.

Definition zs_state_ok (p : zstd_streaming_parser DCtx) (rec rest : list byte) (ms ds : list (list byte)) : Prop :=
  ∃ ds' data held room, ds = ms ++ ds' ∧ zs_state (length (concat ds)) p data held room rest ds' ∧
    (length data ≤ length rec)%nat.

(** What is left to be done with [data]. *)
Definition zs_left (p : zstd_streaming_parser DCtx) (data : list byte) : nat :=
  length data + length (decoded (zs_context p) data).

Lemma zs_left_decompressed p data p' left_ out :
  decompressed lib decoded valid (zs_context p) data (zs_context p') left_ out → (length left_ ≤ length data)%nat →
  valid (zs_context p) data →
  (zs_left p' left_ ≤ zs_left p data)%nat ∧
  (data ≠ [] → (zs_left p' left_ < zs_left p data)%nat).
Proof.
  intros Hd Hl Hv. pose proof (de_out _ _ _ _ _ _ _ _ Hd []) as Ho. rewrite !app_nil_r in Ho.
  pose proof (f_equal length Ho) as Hlen. rewrite length_app in Hlen. unfold zs_left.
  split; [lia|]. intros Hne. rewrite <-(app_nil_r data) in Hv.
  destruct (de_progress _ _ _ _ _ _ _ _ Hd [] Hv Hne) as [Hlt|Hout]; [lia|].
  destruct out; [done|]. simpl in Hlen. lia.
Qed.

(** The first message of a stream of packed objects. *)
Lemma first_message data tail m rest ds :
  msgpack_decode data = decoded_message m rest → Forall packed ds → data ++ tail = concat ds →
  ∃ ds', ds = m :: ds' ∧ rest ++ tail = concat ds'.
Proof.
  intros Hd Hp Hc. assert (msgpack_decode (data ++ tail) = decoded_message m (rest ++ tail)) as Ht.
  { rewrite msgpack_decode_app by congruence. by rewrite Hd. }
  rewrite Hc in Ht. destruct ds as [|d ds]; [done|]. apply Forall_cons_1 in Hp as [(o & Ho & ->) _].
  simpl in Ht. rewrite msgpack_decode_packed_aux in Ht by done. injection Ht as <- <-. by exists ds.
Qed.

(** [parse_next] on a part of a stream of valid frames of packed objects: it returns, without
    an exception, and the rest of the stream is still that of the messages to come. *)
Lemma parse_step total p data held room rest ds chunk :
  (∀ n, alloc_ok n = true) →
  zs_state total p data held room (chunk ++ rest) ds → Forall packed ds →
  Z.of_nat total + ZSTD_DStreamOutSize lib ≤ size_max → (length chunk ≤ room)%nat →
  ∃ fuel more p' left_ out,
    zs_parse_next lib alloc_ok fuel (zs_buffer_write p chunk) (Z.of_nat (length chunk)) = Some (Ok more, p') ∧
    (length left_ ≤ length (data ++ chunk))%nat ∧
    decompressed lib decoded valid (zs_context p) (data ++ chunk) (zs_context p') left_ out ∧
    if more : bool then
      ∃ m p'' held' ds', zs_get p' = Some (Some m, p'') ∧ zs_context p'' = zs_context p' ∧ ds = m :: ds' ∧
        zs_state total p'' left_ held' (room - length chunk) rest ds'
    else zs_state total p' left_ (held ++ out) (room - length chunk) rest ds ∧
      msgpack_decode (held ++ out) = need_more.
Proof.
  intros Ha [Hrep Hsum Hv Htot Hfl] Hpk Hmax Hroom. rewrite app_assoc in Hsum, Hv.
  destruct (cl_prefix _ _ _ _ laws (zs_context p) (data ++ chunk) rest) as [tail Htail].
  pose proof (f_equal length Hsum) as Hl. rewrite Htail, !length_app in Hl.
  destruct (zstd_stream_refines lib decoded valid alloc_ok p data held room chunk (cl_stream _ _ _ _ laws) Hrep)
    as (r & p' & Hp & Hcases); [lia..|].
  destruct Hcases as [(e & -> & [[_ [n Hn]]|[He _]])|(out & used & Hused & Hdec & Hin & Hpos & Hm)].
  { by rewrite Ha in Hn. }
  { by destruct (He rest). }
  rewrite (de_out _ _ _ _ _ _ _ _ Hdec), app_assoc in Hsum.
  assert (Z.of_nat total < ZSTD_DStreamOutSize lib → decoded (zs_context p') [] = []) as Hflush.
  { apply (f_equal length) in Hsum. rewrite !length_app in Hsum. intros Hsmall.
    destruct (decide (data ++ chunk = [])) as [Ei|Hne].
    - rewrite (de_same _ _ _ _ _ _ _ _ Hdec Ei). apply app_nil in Ei as [-> ->]. by apply Hfl.
    - apply (de_flushed _ _ _ _ _ _ _ _ Hdec rest Hv Hne). lia. }
  apply (de_valid _ _ _ _ _ _ _ _ Hdec) in Hv.
  assert (length (drop used (data ++ chunk)) ≤ length (data ++ chunk))%nat as Hld by (rewrite length_drop; lia).
  destruct (msgpack_decode (held ++ out)) as [|m left_|e] eqn:Ed.
  - destruct Hm as [-> Hheld]. exists (S (length (decoded (zs_context p) (data ++ chunk)))), false, p',
      (drop used (data ++ chunk)), out. split_and!; [exact Hp|done|done| |done]. split; [by split|done..|by intros _].
  - destruct Hm as [-> (m' & Hg & Hheld)].
    destruct (first_message _ _ _ _ _ Ed Hpk Hsum) as (ds'' & -> & Hrest).
    exists (S (length (decoded (zs_context p) (data ++ chunk)))), true, p', (drop used (data ++ chunk)), out.
    split_and!; [exact Hp|done|done|]. exists m. eexists _, left_, ds''. split; [unfold zs_get; by rewrite Hg|].
    split; [done|]. split; [done|]. simpl in Htot. rewrite length_app in Htot.
    split; [by split|done|done|lia|by intros _].
  - exfalso. assert (msgpack_decode (concat ds) = decode_error e) as Hbad.
    { rewrite <-Hsum, msgpack_decode_app by congruence. by rewrite Ed. }
    destruct ds as [|d ds]; [done|]. apply Forall_cons_1 in Hpk as [(o & Ho & ->) _].
    simpl in Hbad. by rewrite msgpack_decode_packed_aux in Hbad.
Qed.

Lemma run_ok p rec ms :
  (∀ n, alloc_ok n = true) → zs_run p rec ms →
  ∀ rest ds, decoded (ZSTD_createDCtx lib) (rec ++ rest) = concat ds → valid (ZSTD_createDCtx lib) (rec ++ rest) →
  Forall packed ds → Z.of_nat (length (concat ds)) + ZSTD_DStreamOutSize lib ≤ size_max →
  zs_state_ok p rec rest ms ds.
Proof.
  intros Ha. induction 1 as [p Hc|p rec ms n p' _ IH Hn Hmax Hp|p rec ms chunk _ IH Hr|p rec ms chunk fuel p' _ IH Hr Hp
    |p rec ms chunk fuel p' m p'' _ IH Hr Hp Hg]; intros rest ds Hdec Hv Hpk Hbound.
  - apply construct_represents in Hc as [Hrep Hctx]. exists ds, [], [], 0%nat. split_and!; [done| |done].
    split; rewrite ?Hctx; try done. intros _ _. apply (cl_end _ _ _ _ laws).
  - destruct (IH rest ds Hdec Hv Hpk Hbound) as (ds' & data & held & room & -> & [Hrep Hsum Hv' Ht Hf] & Hlen).
    destruct (zs_prepare_represents p data held room n p' Hrep Hn) as [Hrep' Hctx]; [lia|done|].
    exists ds', data, held, (Z.to_nat n). split_and!; [done| |done]. by split; rewrite ?Hctx.
  - rewrite <-app_assoc in Hdec, Hv.
    destruct (IH (chunk ++ rest) ds Hdec Hv Hpk Hbound) as (ds' & data & held & room & -> & [Hrep Hsum Hv' Ht Hf] & Hlen).
    rewrite (zs_represents_room _ _ _ _ Hrep) in Hr. destruct Hrep as [Hin Hpos Hheld].
    exists ds', (data ++ chunk), held, (room - length chunk)%nat. rewrite app_assoc in Hsum, Hv'.
    split_and!; [done| |rewrite !length_app; lia]. split; [|done..|].
    + split; [|done|done]. apply (msgpack_consumed_spec (zs_input p) data room chunk Hin). lia.
    + intros [-> ->]%app_nil. by apply Hf.
  - rewrite <-app_assoc in Hdec, Hv.
    destruct (IH _ _ Hdec Hv Hpk Hbound) as (ds' & data & held & room & -> & Hst & Hlen).
    rewrite (zs_represents_room _ _ _ _ (st_represents _ _ _ _ _ _ _ Hst)) in Hr. apply Forall_app in Hpk as [_ Hpk].
    destruct (parse_step _ _ _ _ _ _ _ _ Ha Hst Hpk Hbound) as (f & more & q & left_ & out & Hq & Hl & _ & Hok); [lia|].
    pose proof (zs_parse_next_fuel _ _ _ _ _ _ Hp Hq) as [= <- <-]. destruct Hok as [Hok _].
    exists ds', left_, (held ++ out), (room - length chunk)%nat. split_and!; [done|done|]. rewrite !length_app in *. lia.
  - rewrite <-app_assoc in Hdec, Hv.
    destruct (IH _ _ Hdec Hv Hpk Hbound) as (ds' & data & held & room & -> & Hst & Hlen).
    rewrite (zs_represents_room _ _ _ _ (st_represents _ _ _ _ _ _ _ Hst)) in Hr. apply Forall_app in Hpk as [_ Hpk].
    destruct (parse_step _ _ _ _ _ _ _ _ Ha Hst Hpk Hbound) as (f & more & q & left_ & out & Hq & Hl & _ & Hok); [lia|].
    pose proof (zs_parse_next_fuel _ _ _ _ _ _ Hp Hq) as [= <- <-].
    destruct Hok as (m0 & q' & held' & ds'' & Hg' & _ & -> & Hok). rewrite Hg in Hg'. injection Hg' as -> ->.
    exists ds'', left_, held', (room - length chunk)%nat.
    split_and!; [by rewrite <-app_assoc|done|]. rewrite !length_app in *. lia.
Qed.

(** When all bytes were received, finitely many calls use up the input and give out every
    message that is complete. *)
Lemma poll_drains total p data held room ms ds :
  (∀ n, alloc_ok n = true) → zs_state total p data held room [] ds → Forall packed ds →
  Z.of_nat total + ZSTD_DStreamOutSize lib ≤ size_max →
  ∃ p' ms' held' room' ds', rtc zs_poll (p, ms) (p', ms') ∧ ms' ++ ds' = ms ++ ds ∧
    Forall packed ds' ∧ zs_state total p' [] held' room' [] ds' ∧ msgpack_decode held' = need_more.
Proof.
  intros Ha. remember (zs_left p data + length ds)%nat as n eqn:En. revert p data held room ms ds En.
  induction (lt_wf n) as [n _ IH]; intros p data held room ms ds -> Hst Hpk Hmax.
  destruct (parse_step total p data held room [] ds [] Ha Hst Hpk Hmax) as
    (fuel & more & p1 & left_ & out & Hp & Hl & Hd & Hok); [simpl; lia|].
  rewrite app_nil_r in Hl, Hd. simpl in Hok. rewrite Nat.sub_0_r in Hok.
  assert (zs_buffer_write p [] = p) as Hw.
  { unfold zs_buffer_write. unfold write_cells. simpl. rewrite Nat.add_0_r, take_drop. by destruct p as [[] ? ? ? ?]. }
  rewrite Hw in Hp. change (Z.of_nat (length [])) with 0 in Hp.
  pose proof (st_valid _ _ _ _ _ _ _ Hst) as Hv. rewrite app_nil_r in Hv.
  destruct (zs_left_decompressed p data p1 left_ out Hd Hl Hv) as [Hle Hlt]. destruct more.
  - destruct Hok as (m & p2 & held' & ds' & Hg & Hctx & -> & Hst'). apply Forall_cons_1 in Hpk as [_ Hpk].
    assert (zs_left p2 left_ = zs_left p1 left_) as E2 by (unfold zs_left; by rewrite Hctx).
    edestruct (IH (zs_left p2 left_ + length ds')%nat) as (p' & ms' & held'' & room' & ds'' & Hr & He & Hrest);
      [simpl; lia|done|exact Hst'|done|done|].
    exists p', ms', held'', room', ds''. split; [|split; [|exact Hrest]].
    + eapply rtc_l; [|exact Hr]. by eapply (zs_poll_message _ _ _ _ (Some m)).
    + rewrite He. by rewrite <-app_assoc.
  - destruct Hok as [Hst' Hn]. destruct data as [|b data].
    { destruct left_; [|simpl in Hl; lia].
      exists p1, ms, (held ++ out), room, ds. split_and!; [|done..]. apply rtc_once. by eapply zs_poll_more. }
    edestruct (IH (zs_left p1 left_ + length ds)%nat) as (p' & ms' & held'' & room' & ds'' & Hr & Hrest);
      [|done|exact Hst'|done|done|].
    { specialize (Hlt ltac:(done)). lia. }
    exists p', ms', held'', room', ds''. split; [|exact Hrest]. eapply rtc_l; [|exact Hr]. by eapply zs_poll_more.
Qed.
End connection.

(** C28: messages survive a compressed connection: whatever packed messages are compressed and
    written one after the other, compression succeeds, and whatever part of the bytes has
    arrived in whatever pieces, the messages that the streaming parser has given out are the
    first ones that were written, in order, and [parse_next] returns on any further piece
    without an exception. When all bytes have arrived, finitely many further calls of
    [parse_next] and [get], also after [parse_next] asked for more, use up the input; then
    [parse_next] asks for more, and all messages have been given out, unless the decoder still
    keeps output, which it can only when the messages are longer in all than the
    [ZSTD_DStreamOutSize] bytes of room of one call. *)
Theorem zstd_stream_end_to_end {CCtx DCtx} (lib : zstd_library CCtx DCtx) alloc_ok decoded valid usable max_input
    level (ds : list (list byte)) :
  zstd_connection_laws lib decoded valid usable max_input → (∀ n, alloc_ok n = true) → Forall packed ds →
  Forall (λ d, Z.of_nat (length d) ≤ max_input) ds →
  Z.of_nat (length (concat ds)) + ZSTD_DStreamOutSize lib ≤ size_max →
  ∃ zs, zs_send lib alloc_ok level ds = Some (Ok zs) ∧
    ∀ p rec rest ms, zs_run lib alloc_ok p rec ms → zs = rec ++ rest →
      ms `prefix_of` ds ∧
      (∀ chunk, chunk `prefix_of` rest → Z.of_nat (length chunk) ≤ zs_room p →
        ∃ fuel more p', zs_parse_next lib alloc_ok fuel (zs_buffer_write p chunk) (Z.of_nat (length chunk)) =
            Some (Ok more, p')) ∧
      (rest = [] → ∃ p' ms', rtc (zs_poll lib alloc_ok) (p, ms) (p', ms') ∧ ms' `prefix_of` ds ∧
        input_size p' = 0 ∧ (∃ m, msgpack_streaming_parser_ops.parse_next (msgpack_parser_ p') 0 = Some (Ok false, m)) ∧
        (ms' = ds ∨ decoded (zs_context p') [] ≠ [] ∧ ZSTD_DStreamOutSize lib ≤ Z.of_nat (length (concat ds)))).
Proof.
  intros laws Ha Hpk Hsz Hmax. unfold zs_send, construct_zstd_compressor.
  destruct (construct_spec alloc_ok 0) as (c & -> & Hwf); [unfold size_max; lia|]. rewrite Ha. simpl.
  edestruct (compress_all_decodes lib alloc_ok laws) as (zs & c' & -> & Hall & Hv); [done|exact Hwf| |exact Hsz|].
  { apply (cl_usable _ _ _ _ _ laws). }
  exists zs. split; [done|]. intros p rec rest ms Hrun ->.
  destruct (run_ok lib alloc_ok laws p rec ms Ha Hrun rest ds Hall Hv Hpk Hmax) as
    (ds' & data & held & room & -> & Hst & Hlen). apply Forall_app in Hpk as [_ Hpk].
  split_and!.
  - by eexists.
  - intros chunk [rest' ->] Hroom. rewrite (zs_represents_room _ _ _ _ (st_represents _ _ _ _ _ _ _ _ Hst)) in Hroom.
    destruct (parse_step lib alloc_ok laws _ p data held room rest' ds' chunk Ha Hst Hpk Hmax) as
      (fuel & more & p' & _ & _ & Hp & _); [lia|]. by exists fuel, more, p'.
  - intros ->. destruct (poll_drains lib alloc_ok laws _ p data held room ms ds' Ha Hst Hpk Hmax) as
      (p' & ms' & held' & room' & ds'' & Hr & He & Hpk' & [[Hin Hpos [room1 Hheld]] Hsum _ _ Hfl] & Hn).
    exists p', ms'. split; [done|]. split; [rewrite <-He; by eexists|].
    split; [exact (mr_consumed _ _ _ Hin)|].
    destruct (msgpack_parse_next_spec (msgpack_parser_ p') held' room1 [] Hheld) as (r & q & Hq & Hc); [simpl; lia|].
    rewrite msgpack_write_nil in Hq. change (Z.of_nat (length [])) with 0 in Hq.
    rewrite app_nil_r, Hn in Hc. destruct Hc as [-> _]. split; [by exists q|].
    destruct (decide (decoded (zs_context p') [] = [])) as [Hc|Hc].
    + left. simpl in Hsum. rewrite Hc, app_nil_r in Hsum. rewrite <-He. destruct ds'' as [|d ds'']; [by rewrite app_nil_r|].
      exfalso. apply Forall_cons_1 in Hpk' as [(o & Ho & ->) _]. subst held'. simpl in Hn. by rewrite msgpack_decode_packed_aux in Hn.
    + right. split; [done|]. apply Z.le_ngt. intros Hs. apply Hc. by apply Hfl.
Qed.

(** ** A connection with the library that stores data *)

Lemma store_connection_laws :
  zstd_connection_laws store_library (λ pending input, pending ++ input) (λ _ _, True) (λ _, True) size_max.
Proof.
  split; try done.
  - exact store_stream_laws.
  - intros ctx input more. exists more. by rewrite app_assoc.
  - intros ctx cap d _ Hd Hcap. simpl in *. exists d, ctx.
    split; [by rewrite (proj2 (Z.leb_le _ _) Hcap)|]. split; [done|]. split; [done|]. intros more. done.
Qed.

(** The calls of the reading side: each chunk with the number of bytes prepared for it. *)
Fixpoint zs_execute (fuel : nat) (p : zstd_streaming_parser (list byte)) (rec : list byte) (ms : list (list byte))
    (l : list (Z * list byte)) : option (zstd_streaming_parser (list byte) * list byte * list (list byte)) :=
  match l with
  | [] => Some (p, rec, ms)
  | (n, chunk) :: l' =>
      match zs_prepare_buffer (λ _, true) p n with
      | Some (Ok p) =>
          if (0 <=? n) && (Z.of_nat (length rec) + n <=? size_max) && (Z.of_nat (length chunk) <=? zs_room p) then
            match zs_parse_next store_library (λ _, true) fuel (zs_buffer_write p chunk) (Z.of_nat (length chunk)) with
            | Some (Ok false, p) => zs_execute fuel p (rec ++ chunk) ms l'
            | Some (Ok true, p) =>
                match zs_get p with
                | Some (m, p) => zs_execute fuel p (rec ++ chunk) (ms ++ [message_data_ops.bytes m]) l'
                | None => None
                end
            | _ => None
            end
          else None
      | _ => None
      end
  end.

Lemma zs_execute_run fuel l p rec ms r :
  zs_run store_library (λ _, true) p rec ms → zs_execute fuel p rec ms l = Some r →
  zs_run store_library (λ _, true) r.1.1 r.1.2 r.2.
Proof.
  revert p rec ms. induction l as [|[n chunk] l IH]; intros p rec ms Hrun; simpl; [by intros [= <-]|].
  destruct (zs_prepare_buffer _ p n) as [[p1|e]|] eqn:Ep; [|done..].
  destruct (_ && _) eqn:Eb; [|done].
  apply andb_prop in Eb as [[Hn%Z.leb_le Hm%Z.leb_le]%andb_prop Hr%Z.leb_le].
  pose proof (zs_run_prepare _ _ _ _ _ _ _ Hrun Hn Hm Ep) as Hrun1.
  destruct (zs_parse_next _ _ _ _ _) as [[[[]|e] p2]|] eqn:En; [| |done..].
  - destruct (zs_get p2) as [[m p3]|] eqn:Eg; [|done]. apply IH. by eapply zs_run_message.
  - apply IH. by eapply zs_run_more.
Qed.

Definition store_messages : list (list byte) := [[Byte.x91; Byte.x01]; [Byte.xc3]].
Definition store_new : zstd_streaming_parser (list byte) :=
  mk_zstd_streaming_parser (mk_buffer (replicate 1024 None) 0 1024) 0 0
    (mk_msgpack_streaming_parser (mk_buffer (replicate 1024 None) 0 1024) 0 0) [].
Definition store_calls : list (Z * list byte) :=
  [(16, [Byte.x91]); (16, [Byte.x01; Byte.xc3])].

Lemma store_messages_packed : Forall packed store_messages.
Proof.
  apply Forall_cons_2; [by exists (ARRAY [POSITIVE_INTEGER 1])|].
  apply Forall_cons_2; [by exists (BOOLEAN true)|]. apply Forall_nil_2.
Qed.
Lemma store_messages_small : Forall (λ d, Z.of_nat (length d) ≤ size_max) store_messages.
Proof. repeat apply Forall_cons_2; try apply Forall_nil_2; unfold size_max; simpl; lia. Qed.
Lemma store_new_run : zs_run store_library (λ _, true) store_new [] [].
Proof. apply zs_run_new. vm_compute. reflexivity. Qed.

Lemma zstd_stream_end_to_end_witness :
  ∃ p ms, zs_execute 9 store_new [] [] store_calls = Some (p, concat store_messages, ms) ∧
    ∃ p', rtc (zs_poll store_library (λ _, true)) (p, ms) (p', store_messages).
Proof.
  destruct (zs_execute 9 store_new [] [] store_calls) as [[[p rec] ms]|] eqn:E; [|vm_compute in E; discriminate].
  assert ((λ r, r.1.2) <$> zs_execute 9 store_new [] [] store_calls = Some (concat store_messages)) as Hc
    by (vm_compute; reflexivity).
  rewrite E in Hc. cbv [fmap option_fmap option_map fst snd] in Hc. injection Hc as ->.
  exists p, ms. split; [reflexivity|].
  destruct (zstd_stream_end_to_end store_library (λ _, true) (λ pending input, pending ++ input) (λ _ _, True)
    (λ _, True) size_max 3 store_messages store_connection_laws) as (zs & Hzs & Hall).
  - reflexivity.
  - exact store_messages_packed.
  - exact store_messages_small.
  - unfold size_max. simpl. lia.
  - assert (zs = concat store_messages) as ->.
    { clear E. vm_compute in Hzs. injection Hzs as <-. reflexivity. }
    destruct (Hall p (concat store_messages) [] ms) as (_ & _ & Hdrain).
    + exact (zs_execute_run 9 store_calls store_new [] [] (p, concat store_messages, ms) store_new_run E).
    + rewrite app_nil_r. reflexivity.
    + destruct (Hdrain eq_refl) as (p' & ms' & Hr & _ & _ & _ & [->|[_ Hbig]]); [by exists p'|].
      simpl in Hbig. lia.
Defined.
