(* ===== verification/Config.v ===== *)
(** Configuration.

    Models include/mprpc/config/option.h, the option types and configuration structures
    (num_threads.h, client_config.h, server_config.h, mprpc_config.h, transport/*_config.h),
    the conversions of include/mprpc/config/toml_helper.h and src/config/load.cpp. The TOML
    reader of toml11 is a parameter; its integer conversion (toml/get.hpp) is modelled. *)

From S2P Require Import Prelude Errors.

Open Scope Z_scope.
Open Scope outcome_scope.

(** ** TOML values *)

Inductive toml_value : Type :=
| toml_boolean (b : bool)
| toml_integer (z : Z)
| toml_floating (bits : Z)
| toml_string (s : string)
| toml_datetime (text : string)
| toml_array (l : list toml_value)
| toml_table (l : list (string * toml_value)).

(** ** Options *)

(** The static members of an option type. *)
Record option_type (V : Type) := mk_option_type {
  default_value : V;
  validate : V → bool;
  ot_name : string;
  description : string;
}.
Arguments mk_option_type {V}. Arguments default_value {V}. Arguments validate {V}.
Arguments ot_name {V}. Arguments description {V}.

(** [config::option<OptionType>] *)
Record config_option {V} (ot : option_type V) := mk_config_option { value_ : V }.
Arguments mk_config_option {V ot}. Arguments value_ {V ot}.

Definition default_option {V} (ot : option_type V) : config_option ot :=
  mk_config_option (default_value ot).

(** [option::operator=] *)
Definition assign {V} (ot : option_type V) (value : V) : result (config_option ot) :=
  if negb (validate ot value) then
    throw_error error_code.invalid_config_value
      ("invalid value for " +:+ ot_name ot +:+ ", " +:+ description ot)
  else Ok (mk_config_option value).

Definition valid_option {V} {ot : option_type V} (o : config_option ot) : Prop :=
  validate ot (value_ o) = true.

(** ** Option types *)

Inductive compression_type : Type := compression_none | compression_zstd.
Inductive transport_type : Type := transport_tcp | transport_udp.

Definition positive_value (v : Z) : bool := 0 <? v.

Definition num_threads_type : option_type Z :=
  mk_option_type 2 positive_value "num_threads" "number of threads".
Definition sync_request_timeout_ms_type : option_type Z :=
  mk_option_type 3000 positive_value "sync_request_timeout_ms"
    "timeout of synchronous requests [ms]".
Definition connector_type_type : option_type transport_type :=
  mk_option_type transport_tcp
    (λ v, match v with transport_tcp | transport_udp => true end)
    "connector_type" "connector type (TCP, UDP)".
Definition streaming_min_buf_size_type : option_type Z :=
  mk_option_type 1024 positive_value "streaming_min_buf_size"
    "minimum buffer size in streaming parser [bytes]".
Definition datagram_buf_size_type : option_type Z :=
  mk_option_type 65527 positive_value "datagram_buf_size" "buffer size in datagrams".
Definition host_type : option_type string :=
  mk_option_type "127.0.0.1" (λ _, true) "host"
    "host address (IP address for server, common names for clients)".
Definition port_type : option_type Z :=
  mk_option_type 3780 (λ _, true) "port" "port number".
Definition compression_type_type : option_type compression_type :=
  mk_option_type compression_none
    (λ v, match v with compression_none | compression_zstd => true end)
    "type" "compression type (none, zstd)".

Section config.
(** [ZSTD_minCLevel()] and [ZSTD_maxCLevel()] of the zstd library. *)
Context (zstd_min zstd_max : Z).

Definition validate_zstd_compression_level (level : Z) : bool :=
  (zstd_min <=? level) && (level <=? zstd_max).
Definition zstd_compression_level_type : option_type Z :=
  mk_option_type 3 validate_zstd_compression_level "zstd_compression_level"
    "compression levels in zstd library".

(** ** Configuration structures *)

Record compression_config := mk_compression_config {
  type : config_option compression_type_type;
  zstd_compression_level : config_option zstd_compression_level_type;
}.

(** [tcp_acceptor_config] and [tcp_connector_config] have the same two bases. *)
Record tcp_acceptor_config := mk_tcp_config {
  streaming_min_buf_size : config_option streaming_min_buf_size_type;
  tcp_compression : compression_config;
  tcp_host : config_option host_type;
  tcp_port : config_option port_type;
}.
Definition tcp_connector_config : Type := tcp_acceptor_config.

Record udp_acceptor_config := mk_udp_config {
  datagram_buf_size : config_option datagram_buf_size_type;
  udp_compression : compression_config;
  udp_host : config_option host_type;
  udp_port : config_option port_type;
}.
Definition udp_connector_config : Type := udp_acceptor_config.

Record client_config := mk_client_config {
  client_num_threads : config_option num_threads_type;
  sync_request_timeout_ms : config_option sync_request_timeout_ms_type;
  connector_type : config_option connector_type_type;
  tcp_connector : tcp_connector_config;
  udp_connector : udp_connector_config;
}.

Record server_config := mk_server_config {
  server_num_threads : config_option num_threads_type;
  tcp_acceptors : list tcp_acceptor_config;
  udp_acceptors : list udp_acceptor_config;
}.

Record mprpc_config := mk_mprpc_config {
  cfg_client : client_config;
  cfg_server : server_config;
}.

Definition default_compression : compression_config :=
  mk_compression_config (default_option _) (default_option _).
Definition default_tcp : tcp_acceptor_config :=
  mk_tcp_config (default_option _) default_compression (default_option _) (default_option _).
Definition default_udp : udp_acceptor_config :=
  mk_udp_config (default_option _) default_compression (default_option _) (default_option _).
Definition default_client : client_config :=
  mk_client_config (default_option _) (default_option _) (default_option _) default_tcp default_udp.
Definition default_server : server_config := mk_server_config (default_option _) [] [].
Definition default_mprpc : mprpc_config := mk_mprpc_config default_client default_server.

(** ** Conversions of toml11 *)

(** The texts that toml11 makes of a value and a message. *)
Context (format_error : string → toml_value → string → string).
Context (bad_cast : string → toml_value → string).

Definition as_integer (v : toml_value) : result Z :=
  match v with
  | toml_integer z => Ok z
  | _ => Throw (toml_exception (bad_cast "toml::value::as_integer(): " v))
  end.
Definition as_string (v : toml_value) : result string :=
  match v with
  | toml_string s => Ok s
  | _ => Throw (toml_exception (bad_cast "toml::value::as_string(): " v))
  end.
Definition as_array (v : toml_value) : result (list toml_value) :=
  match v with
  | toml_array l => Ok l
  | _ => Throw (toml_exception (bad_cast "toml::value::as_array(): " v))
  end.
Definition as_table (v : toml_value) : result (list (string * toml_value)) :=
  match v with
  | toml_table l => Ok l
  | _ => Throw (toml_exception (bad_cast "toml::value::as_table(): " v))
  end.

(** [toml::get] of an integral type: a [static_cast] of the 64-bit integer. *)
Definition get_integral (cast : Z → Z) (v : toml_value) : result Z :=
  let! z := as_integer v in Ok (cast z).
Definition get_size_t : toml_value → result Z := get_integral wrap64.
Definition get_uint32 : toml_value → result Z := get_integral wrap32.
Definition get_uint16 : toml_value → result Z := get_integral (λ z, z mod 2 ^ 16).
Definition get_int : toml_value → result Z := get_integral (λ z, to_signed 32 (wrap32 z)).

(** [toml::get<std::vector<T>>] *)
Fixpoint get_all {A} (get : toml_value → result A) (l : list toml_value) : result (list A) :=
  match l with
  | [] => Ok []
  | v :: l' => let! x := get v in let! xs := get_all get l' in Ok (x :: xs)
  end.
Definition get_vector {A} (get : toml_value → result A) (v : toml_value) : result (list A) :=
  let! l := as_array v in get_all get l.

(** ** [toml_helper.h] *)

(** [from<option<OptionType>>::from_toml] *)
Definition get_option {V} (ot : option_type V) (get : toml_value → result V) (value : toml_value) :
    result (config_option ot) :=
  let! converted := get value in
  if negb (validate ot converted) then
    Throw (std_runtime_error (format_error
      ("invalid value for " +:+ ot_name ot +:+ ", " +:+ description ot) value "invalid value"))
  else assign ot converted.

Definition compression_type_from_toml (value : toml_value) : result compression_type :=
  let! str := as_string value in
  if String.eqb str "none" then Ok compression_none
  else if String.eqb str "zstd" then Ok compression_zstd
  else Throw (std_runtime_error (format_error
    "invalid value for type, compression type (none, zstd)" value "invalid type")).

Definition transport_type_from_toml (value : toml_value) : result transport_type :=
  let! str := as_string value in
  if String.eqb str "tcp" || String.eqb str "TCP" then Ok transport_tcp
  else if String.eqb str "udp" || String.eqb str "UDP" then Ok transport_udp
  else Throw (std_runtime_error (format_error
    "invalid value for transport type (TCP, UDP)" value "invalid type")).

(** The chain of [if (pair.first == ...)] of a structure: what a key assigns. *)
Definition schema (C : Type) : Type := string → option (toml_value → result (C → C)).

Definition field {A C} (get : toml_value → result A) (set : A → C → C) :
    option (toml_value → result (C → C)) :=
  Some (λ v, let! x := get v in Ok (set x)).

(** [for (const auto& pair : value.as_table()) { ... }] on a default configuration. *)
Definition set_pair {C} (sch : schema C) (value : toml_value) (config : C)
    (p : string * toml_value) : result C :=
  match sch p.1 with
  | Some assign_ => let! set := assign_ p.2 in Ok (set config)
  | None => Throw (std_runtime_error (format_error ("invalid key " +:+ p.1) value
      "invalid key exists"))
  end.
Fixpoint set_pairs {C} (sch : schema C) (value : toml_value) (config : C)
    (pairs : list (string * toml_value)) : result C :=
  match pairs with
  | [] => Ok config
  | p :: pairs' => let! config := set_pair sch value config p in set_pairs sch value config pairs'
  end.
Definition from_table {C} (sch : schema C) (config : C) (value : toml_value) : result C :=
  let! pairs := as_table value in set_pairs sch value config pairs.

Definition compression_schema : schema compression_config := λ key,
  if String.eqb key "type" then
    field (get_option _ compression_type_from_toml)
      (λ x c, mk_compression_config x (zstd_compression_level c))
  else if String.eqb key "zstd_compression_level" then
    field (get_option _ get_int) (λ x c, mk_compression_config (type c) x)
  else None.
Definition compression_config_from_toml : toml_value → result compression_config :=
  from_table compression_schema default_compression.

Definition tcp_schema : schema tcp_acceptor_config := λ key,
  if String.eqb key "compression" then
    field compression_config_from_toml
      (λ x c, mk_tcp_config (streaming_min_buf_size c) x (tcp_host c) (tcp_port c))
  else if String.eqb key "host" then
    field (get_option host_type as_string)
      (λ x c, mk_tcp_config (streaming_min_buf_size c) (tcp_compression c) x (tcp_port c))
  else if String.eqb key "port" then
    field (get_option port_type get_uint16)
      (λ x c, mk_tcp_config (streaming_min_buf_size c) (tcp_compression c) (tcp_host c) x)
  else if String.eqb key "streaming_min_buf_size" then
    field (get_option _ get_size_t)
      (λ x c, mk_tcp_config x (tcp_compression c) (tcp_host c) (tcp_port c))
  else None.
Definition tcp_acceptor_config_from_toml : toml_value → result tcp_acceptor_config :=
  from_table tcp_schema default_tcp.
Definition tcp_connector_config_from_toml : toml_value → result tcp_connector_config :=
  from_table tcp_schema default_tcp.

Definition udp_schema : schema udp_acceptor_config := λ key,
  if String.eqb key "compression" then
    field compression_config_from_toml
      (λ x c, mk_udp_config (datagram_buf_size c) x (udp_host c) (udp_port c))
  else if String.eqb key "host" then
    field (get_option host_type as_string)
      (λ x c, mk_udp_config (datagram_buf_size c) (udp_compression c) x (udp_port c))
  else if String.eqb key "port" then
    field (get_option port_type get_uint16)
      (λ x c, mk_udp_config (datagram_buf_size c) (udp_compression c) (udp_host c) x)
  else if String.eqb key "datagram_buf_size" then
    field (get_option _ get_size_t)
      (λ x c, mk_udp_config x (udp_compression c) (udp_host c) (udp_port c))
  else None.
Definition udp_acceptor_config_from_toml : toml_value → result udp_acceptor_config :=
  from_table udp_schema default_udp.
Definition udp_connector_config_from_toml : toml_value → result udp_connector_config :=
  from_table udp_schema default_udp.

Definition server_schema : schema server_config := λ key,
  if String.eqb key "num_threads" then
    field (get_option _ get_size_t)
      (λ x c, mk_server_config x (tcp_acceptors c) (udp_acceptors c))
  else if String.eqb key "tcp_acceptors" then
    field (get_vector tcp_acceptor_config_from_toml)
      (λ x c, mk_server_config (server_num_threads c) x (udp_acceptors c))
  else if String.eqb key "udp_acceptors" then
    field (get_vector udp_acceptor_config_from_toml)
      (λ x c, mk_server_config (server_num_threads c) (tcp_acceptors c) x)
  else None.
Definition server_config_from_toml : toml_value → result server_config :=
  from_table server_schema default_server.

Definition client_schema : schema client_config := λ key,
  if String.eqb key "num_threads" then
    field (get_option _ get_size_t)
      (λ x c, mk_client_config x (sync_request_timeout_ms c) (connector_type c)
         (tcp_connector c) (udp_connector c))
  else if String.eqb key "sync_request_timeout_ms" then
    field (get_option _ get_uint32)
      (λ x c, mk_client_config (client_num_threads c) x (connector_type c)
         (tcp_connector c) (udp_connector c))
  else if String.eqb key "connector_type" then
    field (get_option _ transport_type_from_toml)
      (λ x c, mk_client_config (client_num_threads c) (sync_request_timeout_ms c) x
         (tcp_connector c) (udp_connector c))
  else if String.eqb key "tcp_connector" then
    field tcp_connector_config_from_toml
      (λ x c, mk_client_config (client_num_threads c) (sync_request_timeout_ms c)
         (connector_type c) x (udp_connector c))
  else if String.eqb key "udp_connector" then
    field udp_connector_config_from_toml
      (λ x c, mk_client_config (client_num_threads c) (sync_request_timeout_ms c)
         (connector_type c) (tcp_connector c) x)
  else None.
Definition client_config_from_toml : toml_value → result client_config :=
  from_table client_schema default_client.

Definition mprpc_schema : schema mprpc_config := λ key,
  if String.eqb key "client" then
    field client_config_from_toml (λ x c, mk_mprpc_config x (cfg_server c))
  else if String.eqb key "server" then
    field server_config_from_toml (λ x c, mk_mprpc_config (cfg_client c) x)
  else None.
Definition mprpc_config_from_toml : toml_value → result mprpc_config :=
  from_table mprpc_schema default_mprpc.

(** ** [config::load]; [data] is what [toml::parse] returns or throws for the file. *)
Definition load (data : result toml_value) : result mprpc_config :=
  try_catch (outcome_bind data mprpc_config_from_toml) (λ e,
    match e with
    | toml_exception what_arg | std_runtime_error what_arg =>
        Some (throw_error error_code.config_parse_error what_arg)
    | _ => None
    end).

(** ** Validity *)

Definition valid_compression (c : compression_config) : Prop :=
  valid_option (type c) ∧ valid_option (zstd_compression_level c).
Definition valid_tcp (c : tcp_acceptor_config) : Prop :=
  valid_option (streaming_min_buf_size c) ∧ valid_compression (tcp_compression c) ∧
  valid_option (tcp_host c) ∧ valid_option (tcp_port c).
Definition valid_udp (c : udp_acceptor_config) : Prop :=
  valid_option (datagram_buf_size c) ∧ valid_compression (udp_compression c) ∧
  valid_option (udp_host c) ∧ valid_option (udp_port c).
Definition valid_client (c : client_config) : Prop :=
  valid_option (client_num_threads c) ∧ valid_option (sync_request_timeout_ms c) ∧
  valid_option (connector_type c) ∧ valid_tcp (tcp_connector c) ∧ valid_udp (udp_connector c).
Definition valid_server (c : server_config) : Prop :=
  valid_option (server_num_threads c) ∧ Forall valid_tcp (tcp_acceptors c) ∧
  Forall valid_udp (udp_acceptors c).
Definition valid_config (c : mprpc_config) : Prop :=
  valid_client (cfg_client c) ∧ valid_server (cfg_server c).

(** What a conversion may throw: only what [load] turns into [config_parse_error]. *)
Definition toml_error (e : exn) : Prop :=
  match e with toml_exception _ | std_runtime_error _ => True | _ => False end.

(** A conversion whose results satisfy [P]. *)
Definition converts {A} (P : A → Prop) (get : toml_value → result A) : Prop :=
  ∀ v, match get v with Ok x => P x | Throw e => toml_error e end.

Lemma converts_bind {A B} (P : A → Prop) (Q : B → Prop) get (k : A → result B) v :
  converts P get → (∀ x, P x → match k x with Ok y => Q y | Throw e => toml_error e end) →
  match outcome_bind (get v) k with Ok y => Q y | Throw e => toml_error e end.
Proof. intros Hg Hk. specialize (Hg v). destruct (get v); [by apply Hk|done]. Qed.

Lemma converts_integral cast : converts (λ _, True) (get_integral cast).
Proof. intros []; simpl; done. Qed.
Lemma converts_string : converts (λ _, True) as_string.
Proof. intros []; simpl; done. Qed.
Lemma converts_compression_type : converts (λ _, True) compression_type_from_toml.
Proof.
  intros v. apply (converts_bind (λ _, True)); [apply converts_string|]. intros s _.
  by repeat destruct (String.eqb s _).
Qed.
Lemma converts_transport_type : converts (λ _, True) transport_type_from_toml.
Proof.
  intros v. apply (converts_bind (λ _, True)); [apply converts_string|]. intros s _.
  by repeat destruct (String.eqb s _).
Qed.

(** The second check, of the assignment, never fails. *)
Lemma converts_option {V} (ot : option_type V) get :
  converts (λ _, True) get → converts valid_option (get_option ot get).
Proof.
  intros Hg v. apply (converts_bind (λ _, True)); [done|]. intros x _. unfold assign, valid_option.
  by destruct (validate ot x) eqn:E.
Qed.

Lemma converts_vector {A} (P : A → Prop) get :
  converts P get → converts (Forall P) (get_vector get).
Proof.
  intros Hg v. unfold get_vector. destruct v; simpl; try done.
  induction l as [|x l IH]; simpl; [done|]. apply (converts_bind P); [done|]. intros y Hy.
  destruct (get_all get l) as [ys|]; simpl in *; [by apply Forall_cons|done].
Qed.

(** A structure whose keys all keep [P]. *)
Definition keeps {C} (P : C → Prop) (sch : schema C) : Prop :=
  ∀ key assign_, sch key = Some assign_ → converts (λ set, ∀ c, P c → P (set c)) assign_.

Lemma converts_field {A C} (P : A → Prop) (Q : C → Prop) get (set : A → C → C) assign_ :
  converts P get → (∀ x c, P x → Q c → Q (set x c)) → field get set = Some assign_ →
  converts (λ set, ∀ c, Q c → Q (set c)) assign_.
Proof.
  intros Hg Hs [= <-] v. apply (converts_bind P); [done|]. simpl. auto.
Qed.

Lemma converts_table {C} (P : C → Prop) sch c0 :
  P c0 → keeps P sch → converts P (from_table sch c0).
Proof.
  intros H0 Hk v. unfold from_table. destruct v as [| | | | | |pairs]; simpl; try done.
  generalize (toml_table pairs). intros v. revert c0 H0.
  induction pairs as [|[key x] pairs IH]; intros c0 H0; simpl; [done|].
  unfold set_pair at 1. simpl. destruct (sch key) as [assign_|] eqn:E; [|done].
  specialize (Hk key assign_ E x). destruct (assign_ x) as [set|e]; [by apply IH, Hk|done].
Qed.
End config.

(** Each key of a schema, by its conversion. *)
Create HintDb converts.
#[export] Hint Resolve converts_option converts_integral converts_string
  converts_compression_type converts_transport_type converts_vector : converts.

Ltac each_key key :=
  repeat match goal with |- context [String.eqb key ?k] => destruct (String.eqb_spec key k) end.
Ltac solve_keeps :=
  let key := fresh "key" in let assign_ := fresh "assign_" in
  intros key assign_; unfold compression_schema, tcp_schema, udp_schema, client_schema,
    server_schema, mprpc_schema; each_key key; [..|done];
  (eapply converts_field;
   [first [apply converts_option; first [apply converts_integral|apply converts_string
           |apply converts_compression_type|apply converts_transport_type]
          |apply converts_vector; solve [eauto with converts]|solve [eauto with converts]]
   |intros ? ?; unfold valid_config, valid_server, valid_client, valid_tcp, valid_udp,
      valid_compression; simpl; tauto]).

Section validity.
Context (zstd_min zstd_max : Z) (format_error : string → toml_value → string → string)
  (bad_cast : string → toml_value → string).
Context (Hlevel : zstd_min ≤ 3 ≤ zstd_max).

Lemma valid_default_compression : valid_compression zstd_min zstd_max (default_compression _ _).
Proof.
  split; [done|]. unfold valid_option. simpl. unfold validate_zstd_compression_level.
  apply andb_true_intro. split; apply Z.leb_le; lia.
Qed.

Lemma compression_converts :
  converts (valid_compression zstd_min zstd_max)
    (compression_config_from_toml zstd_min zstd_max format_error bad_cast).
Proof. apply converts_table; [apply valid_default_compression|]. solve_keeps. Qed.
Hint Resolve compression_converts : converts.

Lemma valid_default_tcp : valid_tcp zstd_min zstd_max (default_tcp _ _).
Proof. by split_and!; try apply valid_default_compression. Qed.
Lemma valid_default_udp : valid_udp zstd_min zstd_max (default_udp _ _).
Proof. by split_and!; try apply valid_default_compression. Qed.

Lemma tcp_converts :
  converts (valid_tcp zstd_min zstd_max)
    (tcp_acceptor_config_from_toml zstd_min zstd_max format_error bad_cast).
Proof. apply converts_table; [apply valid_default_tcp|]. solve_keeps. Qed.
Lemma udp_converts :
  converts (valid_udp zstd_min zstd_max)
    (udp_acceptor_config_from_toml zstd_min zstd_max format_error bad_cast).
Proof. apply converts_table; [apply valid_default_udp|]. solve_keeps. Qed.
Hint Resolve tcp_converts udp_converts : converts.

Lemma valid_default_client : valid_client zstd_min zstd_max (default_client _ _).
Proof.
  unfold valid_client. simpl. pose proof valid_default_tcp. pose proof valid_default_udp.
  by split_and!.
Qed.
Lemma valid_default_server : valid_server zstd_min zstd_max (default_server _ _).
Proof. split; [done|]. split; by apply Forall_nil_2. Qed.
Lemma client_converts :
  converts (valid_client zstd_min zstd_max)
    (client_config_from_toml zstd_min zstd_max format_error bad_cast).
Proof. apply converts_table; [apply valid_default_client|]. solve_keeps. Qed.
Lemma server_converts :
  converts (valid_server zstd_min zstd_max)
    (server_config_from_toml zstd_min zstd_max format_error bad_cast).
Proof. apply converts_table; [apply valid_default_server|]. solve_keeps. Qed.
Hint Resolve client_converts server_converts : converts.

Lemma mprpc_converts :
  converts (valid_config zstd_min zstd_max)
    (mprpc_config_from_toml zstd_min zstd_max format_error bad_cast).
Proof.
  apply converts_table; [split; [apply valid_default_client|apply valid_default_server]|].
  solve_keeps.
Qed.
End validity.

(** ** Order of the keys *)

Section order.
Context (zstd_min zstd_max : Z) (format_error : string → toml_value → string → string)
  (bad_cast : string → toml_value → string).

(** Assignments of different keys commute. *)
Definition independent {C} (sch : schema C) : Prop :=
  ∀ k1 k2 a1 a2 v1 v2 s1 s2 c, k1 ≠ k2 → sch k1 = Some a1 → sch k2 = Some a2 →
  a1 v1 = Ok s1 → a2 v2 = Ok s2 → s1 (s2 c) = s2 (s1 c).

Lemma set_pairs_perm {C} (sch : schema C) v v' l l' c r :
  independent sch → l ≡ₚ l' → NoDup l.*1 →
  set_pairs format_error sch v c l = Ok r → set_pairs format_error sch v' c l' = Ok r.
Proof.
  intros Hi Hp. revert v v' c r. induction Hp as [|[k x] l l' Hp IH|[k1 x1] [k2 x2] l|l l2 l3 Hp1 IH1 Hp2 IH2];
    intros v v' c r Hnd; simpl.
  - done.
  - apply list.NoDup_cons in Hnd as [_ Hnd]. unfold set_pair. simpl.
    destruct (sch k) as [a|]; [|done]. destruct (a x) as [s|]; [|done]. simpl. by apply IH.
  - apply list.NoDup_cons in Hnd as [Hnot Hnd]. unfold set_pair. simpl.
    destruct (sch k2) as [a2|] eqn:E2; [|done]. destruct (a2 x2) as [s2|] eqn:F2; [|done]. simpl.
    destruct (sch k1) as [a1|] eqn:E1; [|done]. destruct (a1 x1) as [s1|] eqn:F1; [|done]. simpl.
    rewrite (Hi k1 k2 a1 a2 x1 x2 s1 s2 c); [|intros ->; apply Hnot, elem_of_cons; by left|done..].
    generalize (s2 (s1 c)). clear. revert v v'. induction l as [|[k x] l IH]; intros v v' c0; [done|].
    simpl. unfold set_pair. simpl. destruct (sch k) as [a|]; [|done].
    destruct (a x) as [s|]; [|done]. simpl. apply IH.
  - intros Hr. apply (IH2 v v'); [by rewrite <-Hp1|]. by apply (IH1 v v).
Qed.

Lemma from_table_perm {C} (sch : schema C) c0 l l' r :
  independent sch → l ≡ₚ l' → NoDup l.*1 →
  from_table format_error bad_cast sch c0 (toml_table l) = Ok r ↔
  from_table format_error bad_cast sch c0 (toml_table l') = Ok r.
Proof.
  intros Hi Hp Hnd. unfold from_table. simpl. split; apply set_pairs_perm; try done.
  by rewrite <-Hp.
Qed.
End order.

Ltac solve_independent :=
  intros k1 k2 a1 a2 v1 v2 s1 s2 c Hne; unfold compression_schema, tcp_schema, udp_schema,
    client_schema, server_schema, mprpc_schema, field; each_key k1; each_key k2; subst;
  try congruence; intros [= <-] [= <-] H1 H2;
  repeat match goal with
    | H : outcome_bind ?m _ = Ok _ |- _ => destruct m; [injection H as <-|discriminate H]
    end; reflexivity.

Lemma schemas_independent zstd_min zstd_max format_error bad_cast :
  independent (compression_schema zstd_min zstd_max format_error bad_cast) ∧
  independent (tcp_schema zstd_min zstd_max format_error bad_cast) ∧
  independent (udp_schema zstd_min zstd_max format_error bad_cast) ∧
  independent (client_schema zstd_min zstd_max format_error bad_cast) ∧
  independent (server_schema zstd_min zstd_max format_error bad_cast) ∧
  independent (mprpc_schema zstd_min zstd_max format_error bad_cast).
Proof. split_and!; solve_independent. Qed.

(** ** Theorems *)

(** C30: whatever the file holds, loading it gives a configuration in which every option passes
    the check of its option type, or throws [mprpc::exception] with [config_parse_error]: no
    other exception gets through, and the check of [option::operator=] never fires. *)
Theorem config_load_valid zstd_min zstd_max format_error bad_cast data :
  zstd_min ≤ 3 ≤ zstd_max → (∀ e, data = Throw e → toml_error e) →
  match load zstd_min zstd_max format_error bad_cast data with
  | Ok c => valid_config zstd_min zstd_max c
  | Throw e => ∃ what, e = mprpc_exception (error_info_ops.make error_code.config_parse_error what)
  end.
Proof.
  intros Hl Hd. unfold load. destruct data as [v|e]; simpl.
  - pose proof (mprpc_converts zstd_min zstd_max format_error bad_cast Hl v) as Hc.
    destruct (mprpc_config_from_toml _ _ _ _ v) as [c|[]]; simpl in *; try done; eexists; reflexivity.
  - specialize (Hd e eq_refl). destruct e; try done; eexists; reflexivity.
Qed.

Definition sample_format (msg : string) (_ : toml_value) (comment : string) : string :=
  msg +:+ " | " +:+ comment.
Definition sample_cast (msg : string) (_ : toml_value) : string := msg +:+ "bad_cast".
Definition sample_toml : toml_value :=
  toml_table [("server", toml_table [("num_threads", toml_integer 4);
    ("tcp_acceptors", toml_array [toml_table [("port", toml_integer 9000);
      ("compression", toml_table [("type", toml_string "zstd")])]])])].

Lemma config_load_valid_witness :
  ∃ c, load (-131072) 22 sample_format sample_cast (Ok sample_toml) = Ok c ∧
    valid_config (-131072) 22 c.
Proof.
  pose proof (config_load_valid (-131072) 22 sample_format sample_cast (Ok sample_toml)
    ltac:(lia) ltac:(discriminate)) as Hc.
  eexists. split; [reflexivity|]. exact Hc.
Defined.

(** the order of the keys does not matter: a table is an unordered map, and for every
    structure of the configuration two tables with the same entries load to the same
    configuration, or both fail. *)
Theorem config_order_irrelevant zstd_min zstd_max format_error bad_cast l l' :
  l ≡ₚ l' → NoDup l.*1 →
  let same {C} (from_toml : toml_value → result C) :=
    ∀ c, from_toml (toml_table l) = Ok c ↔ from_toml (toml_table l') = Ok c in
  same (compression_config_from_toml zstd_min zstd_max format_error bad_cast) ∧
  same (tcp_acceptor_config_from_toml zstd_min zstd_max format_error bad_cast) ∧
  same (tcp_connector_config_from_toml zstd_min zstd_max format_error bad_cast) ∧
  same (udp_acceptor_config_from_toml zstd_min zstd_max format_error bad_cast) ∧
  same (udp_connector_config_from_toml zstd_min zstd_max format_error bad_cast) ∧
  same (client_config_from_toml zstd_min zstd_max format_error bad_cast) ∧
  same (server_config_from_toml zstd_min zstd_max format_error bad_cast) ∧
  same (mprpc_config_from_toml zstd_min zstd_max format_error bad_cast).
Proof.
  intros Hp Hnd same.
  destruct (schemas_independent zstd_min zstd_max format_error bad_cast) as (? & ? & ? & ? & ? & ?).
  split_and!; intros c; by apply from_table_perm.
Qed.

Lemma config_order_irrelevant_witness :
  ∃ c, tcp_acceptor_config_from_toml (-131072) 22 sample_format sample_cast
      (toml_table [("port", toml_integer 9000); ("host", toml_string "localhost")]) = Ok c ∧
    tcp_acceptor_config_from_toml (-131072) 22 sample_format sample_cast
      (toml_table [("host", toml_string "localhost"); ("port", toml_integer 9000)]) = Ok c.
Proof.
  destruct (config_order_irrelevant (-131072) 22 sample_format sample_cast
    [("port", toml_integer 9000); ("host", toml_string "localhost")]
    [("host", toml_string "localhost"); ("port", toml_integer 9000)]) as (_ & Hs & _).
  - apply perm_swap.
  - apply (bool_decide_unpack _). vm_compute. exact I.
  - eexists. split; [|apply Hs]; vm_compute; reflexivity.
Defined.

(** integers are cast before they are checked: a negative number of threads is accepted as
    a number above 2^63, and a port that needs more than 16 bits as another port. *)
Theorem config_integers_wrap zstd_min zstd_max format_error bad_cast z p :
  - 2 ^ 63 ≤ z < 0 → 0 ≤ p < 2 ^ 16 →
  (∃ c, client_config_from_toml zstd_min zstd_max format_error bad_cast
      (toml_table [("num_threads", toml_integer z)]) = Ok c ∧
    value_ (client_num_threads zstd_min zstd_max c) = z + 2 ^ 64) ∧
  (∃ c, tcp_acceptor_config_from_toml zstd_min zstd_max format_error bad_cast
      (toml_table [("port", toml_integer (p + 2 ^ 16))]) = Ok c ∧
    value_ (tcp_port zstd_min zstd_max c) = p).
Proof.
  intros Hz Hp.
  assert (wrap64 z = z + 2 ^ 64) as Hw.
  { unfold wrap64. symmetry. apply (Z.mod_unique _ _ (-1)); lia. }
  assert ((p + 2 ^ 16) mod 2 ^ 16 = p) as Hq.
  { symmetry. apply (Z.mod_unique _ _ 1); lia. }
  split.
  - unfold client_config_from_toml, from_table. cbn -[Z.pow]. unfold get_option, get_size_t, get_integral.
    cbn -[Z.pow wrap64]. rewrite Hw. unfold positive_value, assign.
    assert ((0 <? z + 2 ^ 64) = true) as Hv by (apply Z.ltb_lt; lia).
    cbn -[Z.pow Z.ltb Z.add]. unfold positive_value. rewrite Hv. cbn -[Z.pow Z.ltb Z.add].
    eexists. split; reflexivity.
  - eexists. split; [reflexivity|]. exact Hq.
Qed.

Lemma config_integers_wrap_witness :
  (∃ c, client_config_from_toml (-131072) 22 sample_format sample_cast
      (toml_table [("num_threads", toml_integer (-1))]) = Ok c ∧
    value_ (client_num_threads _ _ c) = -1 + 2 ^ 64) ∧
  (∃ c, tcp_acceptor_config_from_toml (-131072) 22 sample_format sample_cast
      (toml_table [("port", toml_integer (80 + 2 ^ 16))]) = Ok c ∧
    value_ (tcp_port _ _ c) = 80).
Proof. apply config_integers_wrap; lia. Defined.
