(* ===== verification/Transport.v ===== *)
(** Creation of acceptors, connectors and sessions.

    Models include/mprpc/transport/create_compressor_factory.h and create_parser_factory.h,
    the factories of compressors and parsers, src/transport/tcp/tcp.cpp,
    src/transport/udp/udp.cpp, the constructors in impl/mprpc/transport/tcp/impl and
    impl/mprpc/transport/udp/impl, and tcp_acceptor::on_accept. The operating system and the
    resolver are a parameter: a record of the answers they give. *)

From S2P Require Import Prelude Errors Buffer SharedBinary MsgpackObject MsgpackParse StreamParser Compressor StreamSocket MethodServer ServerBase Server Zstd Config.
From stdpp Require Import pretty.

Open Scope Z_scope.
Open Scope outcome_scope.

(** A computation that may not terminate ([None]) or may throw. *)
Definition attempt (A : Type) : Type := option (result A).
Definition attempt_bind {A B} (m : attempt A) (k : A → attempt B) : attempt B :=
  match m with
  | None => None
  | Some (Ok a) => k a
  | Some (Throw e) => Some (Throw e)
  end.
Notation "'let*' x ':=' m 'in' k" := (attempt_bind m (λ x, k))
  (at level 10, x pattern, m at level 100, k at level 200) : outcome_scope.

(** ** The network *)

Inductive ip_version : Type := v4 | v6.

(** [asio::ip::make_address], [listen_error] (opening, binding and listening, given the
    sockets that are open already), the resolver, [open_error] (creating a socket of a
    version), [connect_error] (connecting a socket of a version, on which connecting to the
    given endpoints failed before, to an endpoint), and [local_error] and [remote_error]
    ([local_endpoint()] and [remote_endpoint()] of a socket connected to an endpoint; the
    latter fails when the peer is gone). [None] is success, a string the text of the error. *)
Record network (Address : Type) := mk_network {
  make_address : string → option Address;
  version : Address → ip_version;
  listen_error : list (transport_type * (Address * Z)) → transport_type → Address * Z → option string;
  resolve : transport_type → string → string → string + list (Address * Z);
  open_error : transport_type → ip_version → option string;
  connect_error : ip_version → list (Address * Z) → Address * Z → option string;
  local_error : Address * Z → option string;
  remote_error : Address * Z → option string;
}.
Arguments make_address {Address}. Arguments version {Address}. Arguments listen_error {Address}.
Arguments resolve {Address}. Arguments open_error {Address}. Arguments connect_error {Address}.
Arguments local_error {Address}. Arguments remote_error {Address}.

Section transport.
Context {CCtx DCtx Address : Type}.
Context (lib : zstd_library CCtx DCtx) (alloc_ok : Z → bool) (zstd_min zstd_max : Z).
Context (net : network Address).
Abbreviation endpoint := (Address * Z)%type.
Abbreviation compression_config := (compression_config zstd_min zstd_max).
Abbreviation tcp_config := (tcp_acceptor_config zstd_min zstd_max).
Abbreviation udp_config := (udp_acceptor_config zstd_min zstd_max).
Abbreviation host_of := (tcp_host zstd_min zstd_max).

(** ** Factories *)

Inductive compressor_factory : Type :=
| null_compressor_factory
| zstd_compressor_factory (config : compression_config).
Inductive parser_factory : Type :=
| msgpack_parser_factory
| zstd_parser_factory.

Definition create_compressor_factory (config : compression_config) : result compressor_factory :=
  match value_ (type zstd_min zstd_max config) with
  | compression_none => Ok null_compressor_factory
  | compression_zstd => Ok (zstd_compressor_factory config)
  end.
Definition create_parser_factory (config : compression_config) : result parser_factory :=
  match value_ (type zstd_min zstd_max config) with
  | compression_none => Ok msgpack_parser_factory
  | compression_zstd => Ok zstd_parser_factory
  end.

(** Compressors, streaming or not, and parsers, as objects behind their interfaces. *)
Inductive any_compressor : Type :=
| the_null_compressor
| the_zstd_compressor (c : zstd_compressor CCtx).
Inductive any_streaming_parser : Type :=
| the_msgpack_streaming_parser (p : msgpack_streaming_parser)
| the_zstd_streaming_parser (p : zstd_streaming_parser DCtx).
Inductive any_parser : Type :=
| the_msgpack_parser
| the_zstd_parser (p : zstd_parser DCtx).

(** [create_compressor] and [create_streaming_compressor] *)
Definition create_compressor (f : compressor_factory) : attempt any_compressor :=
  match f with
  | null_compressor_factory => Some (Ok the_null_compressor)
  | zstd_compressor_factory config =>
      let* c := construct_zstd_compressor lib alloc_ok
                  (value_ (zstd_compression_level zstd_min zstd_max config)) in
      Some (Ok (the_zstd_compressor c))
  end.
Definition create_parser (f : parser_factory) : attempt any_parser :=
  match f with
  | msgpack_parser_factory => Some (Ok the_msgpack_parser)
  | zstd_parser_factory =>
      let* p := construct_zstd_parser lib alloc_ok in Some (Ok (the_zstd_parser p))
  end.
Definition create_streaming_parser (f : parser_factory) : attempt any_streaming_parser :=
  match f with
  | msgpack_parser_factory =>
      let* p := msgpack_streaming_parser_ops.construct alloc_ok in
      Some (Ok (the_msgpack_streaming_parser p))
  | zstd_parser_factory =>
      let* p := construct_zstd_streaming_parser lib alloc_ok in
      Some (Ok (the_zstd_streaming_parser p))
  end.

(** [streaming_compressor::init] *)
Definition init_any (c : any_compressor) : any_compressor :=
  match c with
  | the_null_compressor => the_null_compressor
  | the_zstd_compressor c => the_zstd_compressor (zstd_streaming_init lib c)
  end.

(** ** Sockets with their compressor and parser *)

(** A [tcp_session] or [tcp_connector]: a stream socket helper for one peer. *)
Record tcp_socket := mk_tcp_socket {
  ts_peer : endpoint;
  ts_compressor : any_compressor;
  ts_parser : any_streaming_parser;
  ts_config : tcp_config;
}.
(** The socket of a [udp_acceptor] (its own endpoint) or [udp_connector] (the peer). *)
Record udp_socket := mk_udp_socket {
  uk_endpoint : endpoint;
  uk_compressor : any_compressor;
  uk_parser : any_parser;
  uk_buf_size : Z;
  uk_config : udp_config;
}.
Record tcp_acceptor := mk_tcp_acceptor {
  ta_endpoint : endpoint;
  ta_compressor_factory : compressor_factory;
  ta_parser_factory : parser_factory;
  ta_config : tcp_config;
}.
Inductive any_acceptor : Type :=
| the_tcp_acceptor (a : tcp_acceptor)
| the_udp_acceptor (a : udp_socket).
Inductive any_connector : Type :=
| the_tcp_connector (c : tcp_socket)
| the_udp_connector (c : udp_socket).

(** The constructors of [tcp_session] and [tcp_connector], called with new objects of the
    factories; the compressor is initialised by the stream socket helper. *)
Definition construct_tcp_socket (peer : endpoint) (cf : compressor_factory) (pf : parser_factory)
    (config : tcp_config) : attempt tcp_socket :=
  let* comp := create_compressor cf in
  let* parser := create_streaming_parser pf in
  Some (Ok (mk_tcp_socket peer (init_any comp) parser config)).

(** The constructors of [udp_acceptor] and [udp_connector], with [udp_common::init]. *)
Definition construct_udp_socket (e : endpoint) (cf : compressor_factory) (pf : parser_factory)
    (config : udp_config) : attempt udp_socket :=
  let* comp := create_compressor cf in
  let* parser := create_parser pf in
  Some (Ok (mk_udp_socket e comp parser (value_ (datagram_buf_size zstd_min zstd_max config)) config)).

(** ** tcp.cpp *)

Definition parse_listen_address (host : string) : result Address :=
  match make_address net host with
  | None => throw_error error_code.failed_to_listen ("invalid IP address: " +:+ host)
  | Some a => Ok a
  end.

(** [create_tcp_acceptor] with the constructor of [tcp_acceptor]; [held] are the sockets that
    are open. *)
Definition create_tcp_acceptor (held : list (transport_type * endpoint))
    (comp_factory : option compressor_factory) (parser_factory_ptr : option parser_factory)
    (config : tcp_config) : result tcp_acceptor :=
  let! cf := require_nonull comp_factory (Some "comp_factory") (Some "create_tcp_acceptor") in
  let! pf := require_nonull parser_factory_ptr (Some "parser_factory_ptr") (Some "create_tcp_acceptor") in
  let! address := parse_listen_address (value_ (host_of config)) in
  let endpoint := (address, value_ (tcp_port zstd_min zstd_max config)) in
  match listen_error net held transport_tcp endpoint with
  | Some what => throw_error error_code.failed_to_listen what
  | None => Ok (mk_tcp_acceptor endpoint cf pf config)
  end.

(** A socket that is open: its version, and the endpoints to which connecting it failed. *)
Record open_socket := mk_open_socket { os_version : ip_version; os_failed : list endpoint }.

(** [basic_socket::connect] of asio: the socket is opened when it is not open, with the
    protocol of the endpoint, and stays open when connecting fails. *)
Definition connect (socket : option open_socket) (e : endpoint) : option string * option open_socket :=
  let connect_open s :=
    (connect_error net (os_version s) (os_failed s) e, Some (mk_open_socket (os_version s) (os_failed s ++ [e]))) in
  match socket with
  | None =>
      match open_error net transport_tcp (version net e.1) with
      | Some what => (Some what, None)
      | None => connect_open (mk_open_socket (version net e.1) [])
      end
  | Some s => connect_open s
  end.

(** The loop over the resolved endpoints, with one socket: the endpoint that is connected or
    the last error. *)
Fixpoint connect_loop (socket : option open_socket) (err : option string) (l : list endpoint) :
    endpoint + option string :=
  match l with
  | [] => inr err
  | e :: l' =>
      match connect socket e with
      | (None, _) => inl e
      | (err, socket) => connect_loop socket err l'
      end
  end.

(** [local_endpoint()] and [remote_endpoint()] throw [std::system_error]. *)
Definition socket_endpoint (error : endpoint → option string) (e : endpoint) : result endpoint :=
  match error e with
  | Some what => Throw (std_runtime_error what)
  | None => Ok e
  end.

(** [err.message()] *)
Definition error_message (err : option string) : string := default "Success" err.

Definition resolve_endpoints (t : transport_type) (host : string) (port : Z) : result (list endpoint) :=
  match resolve net t host (pretty port) with
  | inl what => throw_error error_code.failed_to_resolve ("failed to resolve " +:+ host +:+ ": " +:+ what)
  | inr l => Ok l
  end.

Definition create_tcp_connector (comp_factory : option compressor_factory)
    (parser_factory_ptr : option parser_factory) (config : tcp_config) : attempt tcp_socket :=
  let* cf := Some (require_nonull comp_factory (Some "comp_factory") (Some "create_tcp_connector")) in
  let* pf := Some (require_nonull parser_factory_ptr (Some "parser_factory_ptr") (Some "create_tcp_connector")) in
  let host := value_ (host_of config) in
  let port := value_ (tcp_port zstd_min zstd_max config) in
  let* l := Some (resolve_endpoints transport_tcp host port) in
  match connect_loop None None l with
  | inl e =>
      let* _ := Some (socket_endpoint (local_error net) e) in   (* the label of the logger *)
      let* c := construct_tcp_socket e cf pf config in
      let* _ := Some (socket_endpoint (local_error net) e) in   (* the log message of the constructor *)
      let* _ := Some (socket_endpoint (remote_error net) e) in
      Some (Ok c)
  | inr err =>
      Some (throw_error error_code.failed_to_connect
        ("failed to connect to " +:+ host +:+ ":" +:+ pretty port +:+ ": " +:+ error_message err))
  end.

(** ** udp.cpp *)

(** The constructor of the acceptor runs inside the [try] block, which turns
    [std::system_error] into [failed_to_listen]; it throws none. *)
Definition create_udp_acceptor (held : list (transport_type * endpoint))
    (comp_factory : option compressor_factory) (parser_factory_ptr : option parser_factory)
    (config : udp_config) : attempt udp_socket :=
  let* cf := Some (require_nonull comp_factory (Some "comp_factory") (Some "create_udp_acceptor")) in
  let* pf := Some (require_nonull parser_factory_ptr (Some "parser_factory_ptr") (Some "create_udp_acceptor")) in
  let* address := Some (parse_listen_address (value_ (udp_host zstd_min zstd_max config))) in
  let endpoint := (address, value_ (udp_port zstd_min zstd_max config)) in
  match listen_error net held transport_udp endpoint with
  | Some what => Some (throw_error error_code.failed_to_listen what)
  | None => construct_udp_socket endpoint cf pf config
  end.

(** Reading the first of no endpoints is undefined: [None]. Errors of the socket escape. *)
Definition create_udp_connector (comp_factory : option compressor_factory)
    (parser_factory_ptr : option parser_factory) (config : udp_config) : attempt udp_socket :=
  let* cf := Some (require_nonull comp_factory (Some "comp_factory") (Some "create_udp_connector")) in
  let* pf := Some (require_nonull parser_factory_ptr (Some "parser_factory_ptr") (Some "create_udp_connector")) in
  let* l := Some (resolve_endpoints transport_udp (value_ (udp_host zstd_min zstd_max config))
                    (value_ (udp_port zstd_min zstd_max config))) in
  match l with
  | [] => None
  | e :: _ =>
      match open_error net transport_udp (version net e.1) with
      | Some what => Some (Throw (std_runtime_error what))
      | None => construct_udp_socket e cf pf config
      end
  end.

(** ** [tcp_acceptor::on_accept], with [server_base::on_accept] as its handler *)

(** What asio answers: an error, or a socket whose [remote_endpoint()] may throw, when it is
    called here or in the constructor of the session. *)
Definition tcp_on_accept {W} (a : acceptor) (obj : tcp_acceptor) (s : session) (sv : server W)
    (answer : asio_error + (string + endpoint)) :
    option (server W * option tcp_socket * option exn) :=
  match answer with
  | inl asio_operation_aborted => Some (sv, None, None)
  | inl err =>
      let what := match err with asio_other w => w | _ => "End of file" end in
      let '(sv', e) := on_accept sv a (error_info_ops.make error_code.failed_to_accept what) s in
      Some (sv', None, e)
  | inr (inl what) => Some (sv, None, Some (std_runtime_error what))
  | inr (inr peer) =>
      match construct_tcp_socket peer (ta_compressor_factory obj) (ta_parser_factory obj) (ta_config obj) with
      | None => None
      | Some (Throw e) => Some (sv, None, Some e)
      | Some (Ok sock) =>
          let '(sv', e) := on_accept sv a error_info_ops.no_error s in Some (sv', Some sock, e)
      end
  end.

(** ** Facts *)

(** An attempt returns, fails only for want of memory, and succeeds when there is memory. *)
Definition settles {A} (m : attempt A) (P : A → Prop) : Prop :=
  ∃ r, m = Some r ∧ ((∀ n, alloc_ok n = true) → ∃ a, r = Ok a) ∧
    match r with Ok a => P a | Throw e => e = std_bad_alloc end.

Lemma settles_ret {A} (a : A) (P : A → Prop) : P a → settles (Some (Ok a)) P.
Proof. intros Ha. exists (Ok a). eauto. Qed.

Lemma settles_bind {A B} (m : attempt A) (k : A → attempt B) P Q :
  settles m P → (∀ a, P a → settles (k a) Q) → settles (attempt_bind m k) Q.
Proof.
  intros (r & -> & Hok & Hr) Hk. destruct r as [a|e]; simpl; [by apply Hk|].
  exists (Throw e). split_and!; [done| |done]. intros Ha. by destruct (Hok Ha).
Qed.

Lemma settles_buffer : settles (Buffer.construct alloc_ok 0) (λ _, True).
Proof.
  destruct (construct_spec alloc_ok 0) as (c & -> & _); [unfold size_max; lia|].
  eexists. split; [done|]. split; [|by destruct (alloc_ok c)]. intros ->. eauto.
Qed.

Lemma settles_map {A B} (m : attempt A) (f : A → B) :
  settles m (λ _, True) →
  settles match m with None => None | Some r => Some (outcome_bind r (λ a, Ok (f a))) end (λ _, True).
Proof.
  intros (r & -> & Hok & Hr). eexists. split; [done|]. split; [|by destruct r].
  intros Ha. destruct (Hok Ha) as [a ->]. simpl. eauto.
Qed.

Lemma settles_msgpack : settles (msgpack_streaming_parser_ops.construct alloc_ok) (λ _, True).
Proof. apply (settles_map (Buffer.construct alloc_ok 0)). apply settles_buffer. Qed.

Lemma settles_zstd_streaming : settles (construct_zstd_streaming_parser lib alloc_ok) (λ _, True).
Proof.
  unfold construct_zstd_streaming_parser.
  destruct settles_buffer as (rb & -> & Hb & Hrb), settles_msgpack as (rm & -> & Hm & Hrm).
  eexists. split; [done|]. split.
  - intros Ha. destruct (Hb Ha) as [b ->], (Hm Ha) as [m ->]. simpl. eauto.
  - destruct rb; simpl; [by destruct rm|done].
Qed.

Lemma create_compressor_settles f : settles (create_compressor f) (λ _, True).
Proof.
  destruct f; [by apply settles_ret|].
  apply (settles_bind _ _ (λ _, True)); [|intros; by apply settles_ret].
  apply (settles_map (Buffer.construct alloc_ok 0)), settles_buffer.
Qed.
Lemma create_parser_settles f : settles (create_parser f) (λ _, True).
Proof.
  destruct f; [by apply settles_ret|].
  apply (settles_bind _ _ (λ _, True)); [|intros; by apply settles_ret].
  apply (settles_map (Buffer.construct alloc_ok 0)), settles_buffer.
Qed.
Lemma create_streaming_parser_settles f : settles (create_streaming_parser f) (λ _, True).
Proof.
  destruct f; (apply (settles_bind _ _ (λ _, True)); [|intros; by apply settles_ret]).
  - apply settles_msgpack.
  - apply settles_zstd_streaming.
Qed.

Lemma construct_tcp_socket_settles e cf pf config :
  settles (construct_tcp_socket e cf pf config) (λ s, ts_peer s = e ∧ ts_config s = config).
Proof.
  apply (settles_bind _ _ _ _ (create_compressor_settles cf)). intros c _.
  apply (settles_bind _ _ _ _ (create_streaming_parser_settles pf)). intros p _.
  by apply settles_ret.
Qed.
Lemma construct_udp_socket_settles e cf pf config :
  settles (construct_udp_socket e cf pf config) (λ s,
    uk_endpoint s = e ∧ uk_config s = config ∧
    uk_buf_size s = value_ (datagram_buf_size zstd_min zstd_max config)).
Proof.
  apply (settles_bind _ _ _ _ (create_compressor_settles cf)). intros c _.
  apply (settles_bind _ _ _ _ (create_parser_settles pf)). intros p _.
  by apply settles_ret.
Qed.

(** Connecting one socket of version [v], on which [tried] failed, to [l] in order fails for
    each. *)
Fixpoint refuses (v : ip_version) (tried l : list endpoint) : Prop :=
  match l with
  | [] => True
  | e :: l' => connect_error net v tried e ≠ None ∧ refuses v (tried ++ [e]) l'
  end.

Lemma connect_loop_answers v tried err l1 e l2 :
  refuses v tried l1 → connect_error net v (tried ++ l1) e = None →
  connect_loop (Some (mk_open_socket v tried)) err (l1 ++ e :: l2) = inl e.
Proof.
  revert tried err. induction l1 as [|e1 l1 IH]; intros tried err; cbn [refuses app connect_loop connect os_version os_failed].
  - rewrite app_nil_r. by intros _ ->.
  - intros [He Hr] Hc. destruct (connect_error net v tried e1) as [w|]; [|done].
    apply IH; [done|]. by rewrite <-app_assoc.
Qed.
Lemma connect_loop_refuses v tried err l :
  refuses v tried l →
  connect_loop (Some (mk_open_socket v tried)) err l =
  inr (match last l with Some e => connect_error net v (tried ++ removelast l) e | None => err end).
Proof.
  revert tried err. induction l as [|e l IH]; intros tried err; cbn [refuses connect_loop connect os_version os_failed]; [done|].
  intros [He Hr]. destruct (connect_error net v tried e) as [w|] eqn:E; [|done].
  rewrite IH by done. destruct l as [|e' l]; [cbn; by rewrite app_nil_r, E|].
  change (removelast (e :: e' :: l)) with (e :: removelast (e' :: l)).
  change (last (e :: e' :: l)) with (last (e' :: l)).
  destruct (last (e' :: l)) eqn:El; [by rewrite <-app_assoc|]. by apply last_None in El.
Qed.
(** The first endpoint opens the socket. *)
Lemma connect_loop_opens v err l :
  open_error net transport_tcp v = None → (∀ e, head l = Some e → version net e.1 = v) →
  connect_loop None err l = connect_loop (Some (mk_open_socket v [])) err l.
Proof.
  intros Ho Hv. destruct l as [|e l]; [done|]. cbn [connect_loop connect]. by rewrite (Hv e eq_refl), Ho.
Qed.

(** ** Theorems *)


(** a socket keeps the IP version of the first endpoint: when the first endpoint refuses
    and the others have the other version, connecting fails, even if another endpoint would
    answer a socket of its own version, because the socket is not closed between the
    attempts. *)
Theorem tcp_version_stuck cf pf config e l what :
  (∀ v tried e, version net e.1 ≠ v → connect_error net v tried e ≠ None) →
  resolve net transport_tcp (value_ (host_of config))
    (pretty (value_ (tcp_port zstd_min zstd_max config))) = inr (e :: l) →
  open_error net transport_tcp (version net e.1) = None →
  connect_error net (version net e.1) [] e = Some what →
  Forall (λ e', version net e'.1 ≠ version net e.1) l →
  ∃ text, create_tcp_connector (Some cf) (Some pf) config =
    Some (throw_error error_code.failed_to_connect text).
Proof.
  intros Hos Hres Ho He Hl. unfold create_tcp_connector, resolve_endpoints. rewrite Hres.
  change (require_nonull (Some cf) _ _) with (Ok (E := exn) cf).
  change (require_nonull (Some pf) _ _) with (Ok (E := exn) pf). cbn [attempt_bind].
  rewrite (connect_loop_opens (version net e.1)); [|done|by intros ? [= <-]].
  rewrite connect_loop_refuses; [eauto|]. split; [by rewrite He|]. clear Hres. generalize ([] ++ [e]).
  induction Hl as [|e' l He' _ IH]; intros tried; [done|]. split; [by apply Hos|apply IH].
Qed.

(** what a TCP acceptor does with every answer of the socket: an aborted accept is the
    end; after an error the acceptor accepts again; a new connection becomes a session with a
    compressor and a parser of its own that is read from, and the acceptor accepts again; but
    if the peer is gone before its address was asked for, an exception leaves the handler and
    the acceptor does not accept again. *)
Theorem tcp_accept_answers {W} a obj s (sv : server W) answer :
  (∀ n, alloc_ok n = true) →
  ∃ sv' sock e, tcp_on_accept a obj s sv answer = Some (sv', sock, e) ∧
    match answer with
    | inl asio_operation_aborted => sv' = sv ∧ sock = None ∧ e = None
    | inl _ => sv' = do_accept sv a ∧ sock = None ∧ e = None
    | inr (inr peer) =>
        accepting sv' = accepting sv ++ [a] ∧ ServerBase.reading sv' = ServerBase.reading sv ++ [s] ∧
        sessions_ sv' = {[s]} ∪ sessions_ sv ∧ e = None ∧
        ∃ c p, create_compressor (ta_compressor_factory obj) = Some (Ok c) ∧
          create_streaming_parser (ta_parser_factory obj) = Some (Ok p) ∧
          sock = Some (mk_tcp_socket peer (init_any c) p (ta_config obj))
    | inr (inl what) => sv' = sv ∧ sock = None ∧ e = Some (std_runtime_error what)
    end.
Proof.
  intros Ha. destruct answer as [[| |w]|[what|peer]]; simpl; [by do 3 eexists..|].
  destruct (create_compressor_settles (ta_compressor_factory obj)) as (r & Hc & Hcok & _), (Hcok Ha) as [c ->].
  destruct (create_streaming_parser_settles (ta_parser_factory obj)) as (r & Hp & Hpok & _), (Hpok Ha) as [p ->].
  unfold construct_tcp_socket. rewrite Hc. simpl. rewrite Hp. simpl.
  do 3 eexists. split; [done|]. split_and!; try done. by exists c, p.
Qed.
End transport.

(** ** A network for examples *)

#[export] Instance transport_type_eq_decision : EqDecision transport_type.
Proof. solve_decision. Defined.

(** The host localhost has an IPv6 address, where nothing listens, and an IPv4 address;
    two.example has two IPv6 addresses, of which the second answers. *)
Definition sample_network : network nat :=
  mk_network nat (λ s, if String.eqb s "127.0.0.1" then Some 4%nat else None)
    (λ a, if (a =? 4)%nat then v4 else v6)
    (λ held t e, if decide ((t, e) ∈ held) then Some "Address already in use" else None)
    (λ _ host _, inr (if String.eqb host "localhost" then [(6%nat, 3780); (4%nat, 3780)]
       else if String.eqb host "two.example" then [(6%nat, 3780); (7%nat, 3780); (4%nat, 3780)]
       else [(4%nat, 3780)]))
    (λ _ _, None)
    (λ v _ e, match v with
       | v4 => if (e.1 =? 4)%nat then None else Some "Invalid argument"
       | v6 => if (e.1 =? 4)%nat then Some "Invalid argument"
               else if (e.1 =? 7)%nat then None else Some "Connection refused"
       end)
    (λ _, None) (λ _, None).

Definition localhost_config : tcp_acceptor_config (-131072) 22 :=
  mk_tcp_config (-131072) 22 (default_option _) (default_compression (-131072) 22)
    (mk_config_option "localhost") (default_option _).

Definition two_config : tcp_acceptor_config (-131072) 22 :=
  mk_tcp_config (-131072) 22 (default_option _) (default_compression (-131072) 22)
    (mk_config_option "two.example") (default_option _).


Lemma tcp_version_stuck_witness :
  connect_error sample_network v4 [] (4%nat, 3780) = None ∧
  ∃ text, create_tcp_connector store_library (λ _, true) (-131072) 22 sample_network
    (Some (null_compressor_factory _ _)) (Some msgpack_parser_factory) localhost_config =
  Some (throw_error error_code.failed_to_connect text).
Proof.
  split; [reflexivity|].
  apply (tcp_version_stuck store_library (λ _, true) (-131072) 22 sample_network
    (null_compressor_factory _ _) msgpack_parser_factory localhost_config (6%nat, 3780)
    [(4%nat, 3780)] "Connection refused").
  - intros [] tried [a z]; simpl; destruct (a =? 4)%nat, (a =? 7)%nat; simpl; congruence.
  - vm_compute. reflexivity.
  - reflexivity.
  - reflexivity.
  - apply Forall_cons. split; [discriminate|apply Forall_nil; exact I].
Defined.

Definition sample_acceptor : tcp_acceptor (-131072) 22 :=
  mk_tcp_acceptor (-131072) 22 (4%nat, 3780) (null_compressor_factory _ _) msgpack_parser_factory
    (default_tcp (-131072) 22).

Lemma tcp_accept_answers_witness :
  ∃ sv' sock, tcp_on_accept store_library (λ _, true) (-131072) 22 1%positive sample_acceptor
    5%positive idle_server (inr (inr (4%nat, 50000))) = Some (sv', sock, None) ∧
    accepting sv' = accepting idle_server ++ [1%positive].
Proof.
  destruct (tcp_accept_answers store_library (λ _, true) (-131072) 22 1%positive sample_acceptor
    5%positive idle_server (inr (inr (4%nat, 50000)))) as (sv' & sock & e & Hs & Ha & _ & _ & He & _).
  - reflexivity.
  - exists sv', sock. split; [rewrite Hs, He; reflexivity|exact Ha].
Defined.
