(* ===== verification/Builder.v ===== *)
(** Builders of servers and clients.

    Models include/mprpc/server_builder.h and include/mprpc/client_builder.h: the calls that
    collect a configuration, and [create], which makes the thread pool, the acceptors or the
    connector, and the started server or client. *)

From S2P Require Import Prelude Errors Buffer Message MethodServer ServerBase Server Future Client ThreadPool Zstd Config Transport.
From stdpp Require Import gmap.

Open Scope Z_scope.
Open Scope outcome_scope.

Section builder.
Context {CCtx DCtx Address W : Type}.
Context (lib : zstd_library CCtx DCtx) (alloc_ok : Z → bool) (zmin zmax : Z).
Context (net : network Address).
Abbreviation tcp_config := (tcp_acceptor_config zmin zmax).
Abbreviation udp_config := (udp_acceptor_config zmin zmax).
Abbreviation endpoint := (Address * Z)%type.
Abbreviation acceptor_object := (@any_acceptor CCtx DCtx Address zmin zmax).
Abbreviation connector_object := (@any_connector CCtx DCtx Address zmin zmax).

(** ** Configurations from the arguments of a call *)

(** [config.host = ...; config.port = ...; config.compression.type = ...] on a
    default-constructed configuration. *)
Definition tcp_config_of (host : string) (port : Z) (t : compression_type) : result tcp_config :=
  let! h := assign host_type host in
  let! p := assign port_type port in
  let! c := assign compression_type_type t in
  Ok (mk_tcp_config zmin zmax (default_option _)
        (mk_compression_config zmin zmax c (default_option _)) h p).
Definition udp_config_of (host : string) (port : Z) (t : compression_type) : result udp_config :=
  let! h := assign host_type host in
  let! p := assign port_type port in
  let! c := assign compression_type_type t in
  Ok (mk_udp_config zmin zmax (default_option _)
        (mk_compression_config zmin zmax c (default_option _)) h p).

(** ** [server_builder] *)

Record server_builder := mk_server_builder {
  server_config_ : server_config zmin zmax;
  sb_methods : list (method_executor W);
}.
Definition new_server_builder : server_builder := mk_server_builder (default_server zmin zmax) [].

Inductive server_call : Type :=
| sc_num_threads (n : Z)
| sc_server_config (config : server_config zmin zmax)
| sc_listen_tcp (config : tcp_config)
| sc_listen_tcp_at (ip_address : string) (port : Z) (t : compression_type)
| sc_listen_udp (config : udp_config)
| sc_listen_udp_at (ip_address : string) (port : Z) (t : compression_type)
| sc_method (m : option (method_executor W)).

Definition push_tcp (b : server_builder) (config : tcp_config) : server_builder :=
  let c := server_config_ b in
  mk_server_builder (mk_server_config zmin zmax (server_num_threads _ _ c)
    (tcp_acceptors _ _ c ++ [config]) (udp_acceptors _ _ c)) (sb_methods b).
Definition push_udp (b : server_builder) (config : udp_config) : server_builder :=
  let c := server_config_ b in
  mk_server_builder (mk_server_config zmin zmax (server_num_threads _ _ c)
    (tcp_acceptors _ _ c) (udp_acceptors _ _ c ++ [config])) (sb_methods b).

Definition server_call_step (b : server_builder) (o : server_call) : result server_builder :=
  let c := server_config_ b in
  match o with
  | sc_num_threads n =>
      let! n := assign num_threads_type n in
      Ok (mk_server_builder (mk_server_config zmin zmax n (tcp_acceptors _ _ c) (udp_acceptors _ _ c))
            (sb_methods b))
  | sc_server_config config => Ok (mk_server_builder config (sb_methods b))
  | sc_listen_tcp config => Ok (push_tcp b config)
  | sc_listen_tcp_at ip port t => let! config := tcp_config_of ip port t in Ok (push_tcp b config)
  | sc_listen_udp config => Ok (push_udp b config)
  | sc_listen_udp_at ip port t => let! config := udp_config_of ip port t in Ok (push_udp b config)
  | sc_method m =>
      let! m := require_nonull m (Some "method_executor") (Some "mprpc::server_builder::method") in
      Ok (mk_server_builder c (sb_methods b ++ [m]))
  end.

(** A program that goes on after a call that threw. *)
Definition server_calls (b : server_builder) (l : list server_call) : server_builder :=
  fold_left (λ b o, match server_call_step b o with Ok b' => b' | Throw _ => b end) l b.

(** The two loops of [create]; [held] are the sockets already open. *)
Fixpoint listen_tcp_all (held : list (transport_type * endpoint)) (l : list tcp_config) :
    attempt (list acceptor_object * list (transport_type * endpoint)) :=
  match l with
  | [] => Some (Ok ([], held))
  | config :: l' =>
      let* cf := Some (create_compressor_factory zmin zmax (tcp_compression _ _ config)) in
      let* pf := Some (create_parser_factory zmin zmax (tcp_compression _ _ config)) in
      let* a := Some (create_tcp_acceptor zmin zmax net held (Some cf) (Some pf) config) in
      let* (rest, held) := listen_tcp_all (held ++ [(transport_tcp, ta_endpoint _ _ a)]) l' in
      Some (Ok (the_tcp_acceptor _ _ a :: rest, held))
  end.
Fixpoint listen_udp_all (held : list (transport_type * endpoint)) (l : list udp_config) :
    attempt (list acceptor_object) :=
  match l with
  | [] => Some (Ok [])
  | config :: l' =>
      let* cf := Some (create_compressor_factory zmin zmax (udp_compression _ _ config)) in
      let* pf := Some (create_parser_factory zmin zmax (udp_compression _ _ config)) in
      let* a := create_udp_acceptor lib alloc_ok zmin zmax net held (Some cf) (Some pf) config in
      let* rest := listen_udp_all (held ++ [(transport_udp, uk_endpoint _ _ a)]) l' in
      Some (Ok (the_udp_acceptor _ _ a :: rest))
  end.

(** What [create] makes: the server, its thread pool and its acceptors; an acceptor is known
    to the server by its place in the list. *)
Record built_server := mk_built_server {
  bs_server : server W;
  bs_threads : thread_pool server_task;
  bs_acceptors : list acceptor_object;
}.
Definition acceptor_at (i : nat) : acceptor := Pos.of_succ_nat i.

Definition create_server (b : server_builder) (w : W) : attempt built_server :=
  let c := server_config_ b in
  let threads := ThreadPool.construct (Z.to_nat (value_ (server_num_threads _ _ c))) in
  let* ms := Some (construct_methods (map Some (sb_methods b)) []) in
  if (length (tcp_acceptors _ _ c) + length (udp_acceptors _ _ c) =? 0)%nat then
    Some (throw_error error_code.invalid_config_value "no acceptors")
  else
    let* (tcps, held) := listen_tcp_all [] (tcp_acceptors _ _ c) in
    let* udps := listen_udp_all held (udp_acceptors _ _ c) in
    let acceptors := tcps ++ udps in
    let* sv := Some (construct_server (Some ())
                 (map (λ i, Some (acceptor_at i)) (seq 0 (length acceptors))) (Some ms) w) in
    Some (Ok (mk_built_server (ServerBase.start sv) (ThreadPool.start threads) acceptors)).

(** ** [client_builder] *)

Definition client_builder : Type := client_config zmin zmax.
Definition new_client_builder : client_builder := default_client zmin zmax.

Inductive client_call : Type :=
| cc_num_threads (n : Z)
| cc_client_config (config : client_config zmin zmax)
| cc_connect_tcp (config : tcp_config)
| cc_connect_tcp_at (host : string) (port : Z) (t : compression_type)
| cc_connect_udp (config : udp_config)
| cc_connect_udp_at (host : string) (port : Z) (t : compression_type).

Definition use_tcp (b : client_builder) (config : tcp_config) : result client_builder :=
  let! t := assign connector_type_type transport_tcp in
  Ok (mk_client_config zmin zmax (client_num_threads _ _ b) (sync_request_timeout_ms _ _ b) t config
        (udp_connector _ _ b)).
Definition use_udp (b : client_builder) (config : udp_config) : result client_builder :=
  let! t := assign connector_type_type transport_udp in
  Ok (mk_client_config zmin zmax (client_num_threads _ _ b) (sync_request_timeout_ms _ _ b) t
        (tcp_connector _ _ b) config).

Definition client_call_step (b : client_builder) (o : client_call) : result client_builder :=
  match o with
  | cc_num_threads n =>
      let! n := assign num_threads_type n in
      Ok (mk_client_config zmin zmax n (sync_request_timeout_ms _ _ b) (connector_type _ _ b)
            (tcp_connector _ _ b) (udp_connector _ _ b))
  | cc_client_config config => Ok config
  | cc_connect_tcp config => use_tcp b config
  | cc_connect_tcp_at host port t => let! config := tcp_config_of host port t in use_tcp b config
  | cc_connect_udp config => use_udp b config
  | cc_connect_udp_at host port t => let! config := udp_config_of host port t in use_udp b config
  end.
Definition client_calls (b : client_builder) (l : list client_call) : client_builder :=
  fold_left (λ b o, match client_call_step b o with Ok b' => b' | Throw _ => b end) l b.

Record built_client {H : Type} := mk_built_client {
  bc_client : client H;
  bc_threads : thread_pool (task H);
  bc_connector : connector_object;
}.
Arguments built_client : clear implicits.

Definition create_connector (b : client_builder) : attempt connector_object :=
  match value_ (connector_type _ _ b) with
  | transport_tcp =>
      let config := tcp_connector _ _ b in
      let* cf := Some (create_compressor_factory zmin zmax (tcp_compression _ _ config)) in
      let* pf := Some (create_parser_factory zmin zmax (tcp_compression _ _ config)) in
      let* c := create_tcp_connector lib alloc_ok zmin zmax net (Some cf) (Some pf) config in
      Some (Ok (the_tcp_connector _ _ c))
  | transport_udp =>
      let config := udp_connector _ _ b in
      let* cf := Some (create_compressor_factory zmin zmax (udp_compression _ _ config)) in
      let* pf := Some (create_parser_factory zmin zmax (udp_compression _ _ config)) in
      let* c := create_udp_connector lib alloc_ok zmin zmax net (Some cf) (Some pf) config in
      Some (Ok (the_udp_connector _ _ c))
  end.

Definition create_client {H} (b : client_builder) : attempt (built_client H) :=
  let threads := ThreadPool.construct (Z.to_nat (value_ (client_num_threads _ _ b))) in
  let* connector := create_connector b in
  let* c := Some (construct_client (H := H) (Some ()) (Some ())) in
  Some (Ok (mk_built_client H (Client.start c) (ThreadPool.start threads) connector)).

(** ** Facts *)

Lemma tcp_config_of_Ok h p t :
  tcp_config_of h p t = Ok (mk_tcp_config zmin zmax (default_option _)
    (mk_compression_config zmin zmax (mk_config_option t) (default_option _))
    (mk_config_option h) (mk_config_option p)).
Proof. by destruct t. Qed.
Lemma udp_config_of_Ok h p t :
  udp_config_of h p t = Ok (mk_udp_config zmin zmax (default_option _)
    (mk_compression_config zmin zmax (mk_config_option t) (default_option _))
    (mk_config_option h) (mk_config_option p)).
Proof. by destruct t. Qed.

Lemma assign_valid {V} (ot : option_type V) v o : assign ot v = Ok o → valid_option o ∧ value_ o = v.
Proof. unfold assign, valid_option. destruct (validate ot v) eqn:E; [|done]. by intros [= <-]. Qed.

(** The arguments of a call are configurations that exist: their options passed the checks. *)
Definition valid_server_call (o : server_call) : Prop :=
  match o with
  | sc_server_config c => valid_server zmin zmax c
  | sc_listen_tcp c => valid_tcp zmin zmax c
  | sc_listen_udp c => valid_udp zmin zmax c
  | _ => True
  end.
Definition valid_client_call (o : client_call) : Prop :=
  match o with
  | cc_client_config c => valid_client zmin zmax c
  | cc_connect_tcp c => valid_tcp zmin zmax c
  | cc_connect_udp c => valid_udp zmin zmax c
  | _ => True
  end.

Lemma default_level_valid : zmin ≤ 3 ≤ zmax → valid_option (default_option (zstd_compression_level_type zmin zmax)).
Proof. intros [??]. apply andb_true_iff. split; apply Z.leb_le; simpl; lia. Qed.

Lemma compression_type_valid (o : config_option compression_type_type) : valid_option o.
Proof. by destruct o as [[]]. Qed.

Lemma tcp_config_of_valid h p t c : zmin ≤ 3 ≤ zmax → tcp_config_of h p t = Ok c → valid_tcp zmin zmax c.
Proof.
  intros Hz. rewrite tcp_config_of_Ok. intros [= <-].
  split_and!; try done. split; [apply compression_type_valid|by apply default_level_valid].
Qed.
Lemma udp_config_of_valid h p t c : zmin ≤ 3 ≤ zmax → udp_config_of h p t = Ok c → valid_udp zmin zmax c.
Proof.
  intros Hz. rewrite udp_config_of_Ok. intros [= <-].
  split_and!; try done. split; [apply compression_type_valid|by apply default_level_valid].
Qed.

Lemma server_call_valid b o b' :
  zmin ≤ 3 ≤ zmax → valid_server zmin zmax (server_config_ b) → valid_server_call o →
  server_call_step b o = Ok b' → valid_server zmin zmax (server_config_ b').
Proof.
  intros Hz (Hn & Ht & Hu) Ho Hs. destruct o; simpl in Hs.
  - apply outcome_bind_Ok_inv in Hs as (x & [Hx _]%assign_valid & [= <-]). done.
  - by injection Hs as <-.
  - injection Hs as <-. split_and!; try done. simpl. by rewrite Forall_app, Forall_singleton.
  - apply outcome_bind_Ok_inv in Hs as (x & Hx%tcp_config_of_valid & [= <-]); [|done].
    split_and!; try done. simpl. by rewrite Forall_app, Forall_singleton.
  - injection Hs as <-. split_and!; try done. simpl. by rewrite Forall_app, Forall_singleton.
  - apply outcome_bind_Ok_inv in Hs as (x & Hx%udp_config_of_valid & [= <-]); [|done].
    split_and!; try done. simpl. by rewrite Forall_app, Forall_singleton.
  - by apply outcome_bind_Ok_inv in Hs as (x & _ & [= <-]).
Qed.

Lemma client_call_valid b o b' :
  zmin ≤ 3 ≤ zmax → valid_client zmin zmax b → valid_client_call o →
  client_call_step b o = Ok b' → valid_client zmin zmax b'.
Proof.
  intros Hz (Hn & Hs & Hc & Ht & Hu) Ho Hst. destruct o; simpl in Hst.
  - apply outcome_bind_Ok_inv in Hst as (x & [Hx _]%assign_valid & [= <-]). done.
  - by injection Hst as <-.
  - by injection Hst as <-.
  - apply outcome_bind_Ok_inv in Hst as (x & Hx%tcp_config_of_valid & [= <-]); done.
  - by injection Hst as <-.
  - apply outcome_bind_Ok_inv in Hst as (x & Hx%udp_config_of_valid & [= <-]); done.
Qed.

(** The endpoint a configuration asks for, if its host is an address. *)
Definition tcp_endpoint (c : tcp_config) : option endpoint :=
  (λ a, (a, value_ (tcp_port _ _ c))) <$> make_address net (value_ (tcp_host _ _ c)).
Definition udp_endpoint (c : udp_config) : option endpoint :=
  (λ a, (a, value_ (udp_port _ _ c))) <$> make_address net (value_ (udp_host _ _ c)).

(** The acceptor that a configuration asks for. *)
Definition tcp_configured (c : tcp_config) (o : acceptor_object) : Prop :=
  ∃ a, o = the_tcp_acceptor _ _ a ∧ ta_config _ _ a = c ∧ tcp_endpoint c = Some (ta_endpoint _ _ a) ∧
    create_compressor_factory zmin zmax (tcp_compression _ _ c) = Ok (ta_compressor_factory _ _ a) ∧
    create_parser_factory zmin zmax (tcp_compression _ _ c) = Ok (ta_parser_factory _ _ a).
Definition udp_configured (c : udp_config) (o : acceptor_object) : Prop :=
  ∃ a, o = the_udp_acceptor _ _ a ∧ uk_config _ _ a = c ∧ udp_endpoint c = Some (uk_endpoint _ _ a) ∧
    uk_buf_size _ _ a = value_ (datagram_buf_size _ _ c).

Definition listen_failure (e : exn) : Prop :=
  ∃ what, e = mprpc_exception (error_info_ops.make error_code.failed_to_listen what).

(** Endpoints that this program does not hold can be listened on. *)
Definition free_network : Prop := ∀ held t e, (t, e) ∉ held → listen_error net held t e = None.

Lemma factories_Ok c : ∃ cf pf, create_compressor_factory zmin zmax c = Ok cf ∧
  create_parser_factory zmin zmax c = Ok pf.
Proof.
  unfold create_compressor_factory, create_parser_factory. destruct (value_ (type _ _ c)); eauto.
Qed.

Lemma create_tcp_acceptor_eq held cf pf c :
  create_tcp_acceptor zmin zmax net held (Some cf) (Some pf) c =
  match tcp_endpoint c with
  | None => throw_error error_code.failed_to_listen ("invalid IP address: " +:+ value_ (tcp_host _ _ c))
  | Some e =>
      match listen_error net held transport_tcp e with
      | Some what => throw_error error_code.failed_to_listen what
      | None => Ok (mk_tcp_acceptor _ _ e cf pf c)
      end
  end.
Proof.
  unfold create_tcp_acceptor, parse_listen_address, tcp_endpoint. simpl. by destruct (make_address net _).
Qed.

Lemma create_udp_acceptor_eq held cf pf c :
  create_udp_acceptor lib alloc_ok zmin zmax net held (Some cf) (Some pf) c =
  match udp_endpoint c with
  | None => Some (throw_error error_code.failed_to_listen ("invalid IP address: " +:+ value_ (udp_host _ _ c)))
  | Some e =>
      match listen_error net held transport_udp e with
      | Some what => Some (throw_error error_code.failed_to_listen what)
      | None => construct_udp_socket lib alloc_ok zmin zmax e cf pf c
      end
  end.
Proof.
  unfold create_udp_acceptor, parse_listen_address, udp_endpoint. simpl. by destruct (make_address net _).
Qed.

Lemma listen_tcp_all_spec held l :
  ∃ r, listen_tcp_all held l = Some r ∧
    match r with
    | Ok (objs, held') => Forall2 tcp_configured l objs ∧
        ∃ te, mapM tcp_endpoint l = Some te ∧ held' = held ++ map (pair transport_tcp) te
    | Throw e => listen_failure e
    end ∧
    (∀ te, free_network → mapM tcp_endpoint l = Some te →
      NoDup (held ++ map (pair transport_tcp) te) → ∃ x, r = Ok x).
Proof.
  revert held. induction l as [|c l IH]; intros held; cbn [listen_tcp_all].
  { eexists. split; [done|]. split; [|eauto]. split; [done|]. exists []. by rewrite app_nil_r. }
  destruct (factories_Ok (tcp_compression _ _ c)) as (cf & pf & Hcf & Hpf). rewrite Hcf, Hpf.
  cbn [attempt_bind]. rewrite create_tcp_acceptor_eq. simpl.
  destruct (tcp_endpoint c) as [e|] eqn:Ee; simpl.
  2: { eexists. split; [done|]. split; [by eexists|]. done. }
  destruct (listen_error net held transport_tcp e) as [what|] eqn:El; simpl.
  { eexists. split; [done|]. split; [by eexists|]. intros te Hfree Hte Hnd.
    apply bind_Some in Hte as (te' & Hte' & [= <-]). rewrite Hfree in El; [done|].
    intros Hin. apply NoDup_app in Hnd as (_ & Hnd & _). apply (Hnd _ Hin). simpl. by left. }
  destruct (IH (held ++ [(transport_tcp, e)])) as (r & -> & Hr & Hok). destruct r as [[objs held']|x].
  - simpl. eexists. split; [done|]. split; [|eauto]. destruct Hr as (Hall & te & Hte & ->). split.
    + apply Forall2_cons. split; [|done]. by exists (mk_tcp_acceptor _ _ e cf pf c).
    + exists (e :: te). rewrite Hte. simpl. split; [done|]. by rewrite <-app_assoc.
  - simpl. eexists. split; [done|]. split; [done|]. intros te Hfree Hte Hnd.
    apply bind_Some in Hte as (te' & Hte' & [= <-]).
    destruct (Hok te' Hfree Hte') as [y [=]]. by rewrite <-app_assoc.
Qed.

Lemma listen_udp_all_spec held l :
  ∃ r, listen_udp_all held l = Some r ∧
    match r with
    | Ok objs => Forall2 udp_configured l objs
    | Throw e => listen_failure e ∨ e = std_bad_alloc
    end ∧
    (∀ ue, free_network → (∀ n, alloc_ok n = true) → mapM udp_endpoint l = Some ue →
      NoDup (held ++ map (pair transport_udp) ue) → ∃ x, r = Ok x).
Proof.
  revert held. induction l as [|c l IH]; intros held; cbn [listen_udp_all].
  { eexists. split; [done|]. split; [done|eauto]. }
  destruct (factories_Ok (udp_compression _ _ c)) as (cf & pf & Hcf & Hpf). rewrite Hcf, Hpf.
  cbn [attempt_bind]. rewrite create_udp_acceptor_eq. simpl.
  destruct (udp_endpoint c) as [e|] eqn:Ee; simpl.
  2: { eexists. split; [done|]. split; [left; by eexists|]. done. }
  destruct (listen_error net held transport_udp e) as [what|] eqn:El; simpl.
  { eexists. split; [done|]. split; [left; by eexists|]. intros ue Hfree Ha Hue Hnd.
    apply bind_Some in Hue as (ue' & Hue' & [= <-]). rewrite Hfree in El; [done|].
    intros Hin. apply NoDup_app in Hnd as (_ & Hnd & _). apply (Hnd _ Hin). simpl. by left. }
  destruct (construct_udp_socket_settles lib alloc_ok zmin zmax e cf pf c) as (r & -> & Ha & Hs).
  destruct r as [a|x]; simpl.
  2: { eexists. split; [done|]. split; [by right|]. intros ue _ Hal _ _. by destruct (Ha Hal). }
  destruct Hs as (He & Hc & Hb). rewrite He.
  destruct (IH (held ++ [(transport_udp, e)])) as (r & -> & Hr & Hok). destruct r as [objs|x]; simpl.
  - eexists. split; [done|]. split; [|eauto]. apply Forall2_cons. split; [|done].
    exists a. split_and!; try done. by rewrite He.
  - eexists. split; [done|]. split; [done|]. intros ue Hfree Hal Hue Hnd.
    apply bind_Some in Hue as (ue' & Hue' & [= <-]).
    destruct (Hok ue' Hfree Hal Hue') as [y [=]]. by rewrite <-app_assoc.
Qed.

Lemma check_acceptors_Some (f : nat → acceptor) l : check_acceptors (map (λ i, Some (f i)) l) = Ok (map f l).
Proof. induction l as [|a l IH]; [done|]. simpl. by rewrite IH. Qed.

Lemma construct_methods_Some (l : list (method_executor W)) acc :
  ∃ ms, construct_methods (map Some l) acc = Ok ms.
Proof. revert acc. induction l as [|m l IH]; intros acc; simpl; [eauto|apply IH]. Qed.

Lemma pool_starts {K} n : 0 < n →
  ThreadPool.live (ThreadPool.start (ThreadPool.construct (K := K) (Z.to_nat n))) = Z.to_nat n ∧
  (1 ≤ Z.to_nat n)%nat.
Proof. intros Hn. simpl. lia. Qed.

Lemma server_calls_valid b l :
  zmin ≤ 3 ≤ zmax → valid_server zmin zmax (server_config_ b) → Forall valid_server_call l →
  valid_server zmin zmax (server_config_ (server_calls b l)).
Proof.
  intros Hz Hb Hl. revert b Hb. induction Hl as [|o l Ho Hl IH]; intros b Hb; [done|].
  simpl. apply IH. destruct (server_call_step b o) eqn:E; [|done]. by eapply server_call_valid.
Qed.
Lemma client_calls_valid b l :
  zmin ≤ 3 ≤ zmax → valid_client zmin zmax b → Forall valid_client_call l →
  valid_client zmin zmax (client_calls b l).
Proof.
  intros Hz Hb Hl. revert b Hb. induction Hl as [|o l Ho Hl IH]; intros b Hb; [done|].
  simpl. apply IH. destruct (client_call_step b o) eqn:E; [|done]. by eapply client_call_valid.
Qed.

Lemma default_server_valid : valid_server zmin zmax (server_config_ new_server_builder).
Proof. split_and!; [done|apply Forall_nil_2..]. Qed.
Lemma default_client_valid : zmin ≤ 3 ≤ zmax → valid_client zmin zmax new_client_builder.
Proof.
  intros Hz. assert (valid_compression zmin zmax (default_compression zmin zmax)) as Hc.
  { split; [done|by apply default_level_valid]. }
  by split_and!.
Qed.

(** ** Theorems *)

(** builders keep configurations valid: after any sequence of calls, those that threw
    included, every option of the configuration of a server or client builder satisfies the
    check of its type. *)
Theorem builders_keep_valid server_ops client_ops :
  zmin ≤ 3 ≤ zmax → Forall valid_server_call server_ops → Forall valid_client_call client_ops →
  valid_server zmin zmax (server_config_ (server_calls new_server_builder server_ops)) ∧
  valid_client zmin zmax (client_calls new_client_builder client_ops).
Proof.
  intros Hz Hs Hc. split.
  - apply server_calls_valid; [done|apply default_server_valid|done].
  - apply client_calls_valid; [done|by apply default_client_valid|done].
Qed.


(** The last call of [connect_tcp] decides: whatever was called before, [create] connects to
    its host and port with its compression, and a client that is made reads from the
    connector and has at least one thread. *)
Theorem client_connects_last {H} calls host port t :
  zmin ≤ 3 ≤ zmax → Forall valid_client_call calls →
  let b := client_calls new_client_builder (calls ++ [cc_connect_tcp_at host port t]) in
  ∃ config cf pf, tcp_config_of host port t = Ok config ∧
    create_compressor_factory zmin zmax (tcp_compression _ _ config) = Ok cf ∧
    create_parser_factory zmin zmax (tcp_compression _ _ config) = Ok pf ∧
    match create_tcp_connector lib alloc_ok zmin zmax net (Some cf) (Some pf) config with
    | None => create_client (H := H) b = None
    | Some (Throw e) => create_client (H := H) b = Some (Throw e)
    | Some (Ok c) => ∃ built, create_client (H := H) b = Some (Ok built) ∧
        bc_connector built = the_tcp_connector _ _ c ∧ Client.reading (bc_client built) = true ∧
        requests_ (bc_client built) = ∅ ∧ (1 ≤ live (bc_threads built))%nat
    end.
Proof.
  intros Hz Hc b.
  destruct (client_calls_valid new_client_builder calls Hz (default_client_valid Hz) Hc) as (Hn%Z.ltb_lt & _).
  pose proof (tcp_config_of_Ok host port t) as Hconf. set (config := mk_tcp_config _ _ _ _ _ _) in Hconf.
  destruct (factories_Ok (tcp_compression _ _ config)) as (cf & pf & Hcf & Hpf).
  exists config, cf, pf. split_and!; try done.
  assert (use_tcp (client_calls new_client_builder calls) config = Ok b) as Hb.
  { unfold b, client_calls. rewrite fold_left_app. cbn [fold_left client_call_step]. by rewrite Hconf. }
  injection Hb as Hb. unfold create_client, create_connector. rewrite <-Hb. cbn [connector_type tcp_connector
    client_num_threads value_]. rewrite Hcf, Hpf. cbn [attempt_bind].
  destruct (create_tcp_connector _ _ _ _ _ _ _ _) as [[c|e]|]; [|done..].
  eexists. split; [done|]. split_and!; try done. simpl. lia.
Qed.
End builder.

(** ** A server with one TCP and one UDP acceptor *)

Definition sample_calls : list (server_call (W := nat) (-131072) 22) :=
  [sc_listen_tcp_at _ _ "127.0.0.1" 3780 compression_none;
   sc_listen_udp_at _ _ "127.0.0.1" 3781 compression_none; sc_num_threads _ _ 0].

Lemma builders_keep_valid_witness :
  valid_server (-131072) 22 (server_config_ _ _ (server_calls _ _ (new_server_builder _ _) sample_calls)) ∧
  valid_client (-131072) 22 (client_calls _ _ (new_client_builder _ _)
    [cc_connect_udp_at _ _ "localhost" 3781 compression_zstd]).
Proof.
  apply (builders_keep_valid (-131072) 22 sample_calls).
  - lia.
  - apply Forall_cons. split; [exact I|]. apply Forall_cons. split; [exact I|]. apply Forall_cons.
    split; [exact I|]. apply Forall_nil. exact I.
  - apply Forall_cons. split; [exact I|]. apply Forall_nil. exact I.
Defined.

Lemma sample_network_free : free_network sample_network.
Proof. intros held t e Hin. simpl. by rewrite decide_False. Qed.

