(* ===== verification/PythonHelper.v ===== *)
(** The C++ side of the Python bindings.

    Models python/mprpc_cpp/include/mprpc/python_client_helper.h and python_server_helper.h.
    The functions that Python passes in (the message processors) are parameters: what they do
    with a message, which handlers they call and what they raise. pybind11 turns a Python
    exception into a [std::exception]. *)

From S2P Require Import Prelude Errors Buffer Message MethodServer Future Client ThreadPool Zstd Config Transport Builder Server ServerBase.
From stdpp Require Import gmap.

Open Scope Z_scope.
Open Scope outcome_scope.

(** ** [python_client_helper] *)

Module python_client.
Section helper.
Context {P : Type}.                                                  (* the Python objects *)
Context (message_processor_ : P → error_info → message_data → P * option exn).

(** [reads] counts the calls of [connector_->async_read] that have not called their handler;
    [written] are the messages handed to the connector with the identity of their handlers. *)
Record helper := mk_helper {
  threads_ : thread_pool ();
  reads : nat;
  written : list (message_data * positive);
  shutdowns : nat;
  objects : P;
}.

Definition construct (threads : thread_pool ()) (o : P) : helper := mk_helper threads 0 [] 0 o.

Definition do_read (c : helper) : helper :=
  mk_helper (threads_ c) (S (reads c)) (written c) (shutdowns c) (objects c).

Definition start (c : helper) : helper :=
  do_read (mk_helper (ThreadPool.start (threads_ c)) (reads c) (written c) (shutdowns c) (objects c)).

Definition stop (c : helper) : helper :=
  mk_helper (ThreadPool.stop (threads_ c)) (reads c) (written c) (S (shutdowns c)) (objects c).

Definition async_send (c : helper) (d : message_data) (h : positive) : helper :=
  mk_helper (threads_ c) (reads c) (written c ++ [(d, h)]) (shutdowns c) (objects c).

(** The handler that [do_read] passes to the connector; [None] when no read is in progress. *)
Definition on_read (c : helper) (error : error_info) (data : message_data) :
    option (helper * option exn) :=
  match reads c with
  | O => None
  | S n =>
      let '(o, e) := message_processor_ (objects c) error data in
      Some (mk_helper (threads_ c) n (written c) (shutdowns c) o, e)
  end.

(** What happened to a helper: the calls of [start] and the messages that were processed. *)
Inductive helper_history : helper → nat → list (error_info * message_data) → Prop :=
| helper_new threads o : helper_history (construct threads o) 0 []
| helper_start c k l : helper_history c k l → helper_history (start c) (S k) l
| helper_stop c k l : helper_history c k l → helper_history (stop c) k l
| helper_send c k l d h : helper_history c k l → helper_history (async_send c d h) k l
| helper_read c k l c' error data e :
    helper_history c k l → on_read c error data = Some (c', e) →
    helper_history c' k (l ++ [(error, data)]).

Lemma helper_reads c k l : helper_history c k l → (reads c + length l = k)%nat.
Proof.
  induction 1 as [|c k l _ IH|c k l _ IH|c k l d h _ IH|c k l c' error data e _ IH Hr];
    [done|simpl; lia|done|done|].
  unfold on_read in Hr. destruct (reads c) as [|n]; [done|].
  destruct (message_processor_ _ _ _) as [o x]. injection Hr as <- _. rewrite length_app. simpl. lia.
Qed.
End helper.
Arguments helper : clear implicits.

Section create.
Context {CCtx DCtx Address P : Type}.
Context (lib : zstd_library CCtx DCtx) (alloc_ok : Z → bool) (zmin zmax : Z).
Context (net : network Address).

(** [create]: the helper and its connector. *)
Definition create (config : client_config zmin zmax) (o : P) :
    attempt (helper P * any_connector (CCtx := CCtx) (DCtx := DCtx) (Address := Address) zmin zmax) :=
  let threads := ThreadPool.construct (Z.to_nat (value_ (client_num_threads _ _ config))) in
  let* connector := create_connector lib alloc_ok zmin zmax net config in
  Some (Ok (construct threads o, connector)).
End create.

(** a client of the Python bindings processes at most one message per call of [start]:
    in every history of a helper the messages that were processed and the reads that are in
    progress are as many as the calls of [start]; so after a single [start] the response of
    the first request is processed and no other one, whatever the server sends. *)
Theorem python_client_reads_once {P} (processor : P → error_info → message_data → P * option exn)
    (c : helper P) k l :
  helper_history processor c k l →
  (length l ≤ k)%nat ∧ (length l = k → ∀ error data, on_read processor c error data = None).
Proof.
  intros Hh. pose proof (helper_reads processor c k l Hh) as Hr. split; [lia|].
  intros Hl error data. unfold on_read. assert (reads c = 0%nat) as -> by lia. done.
Qed.

(** Two requests sent, one response processed: a second one is not. *)
Module sample_client.
Definition processor (l : list message_data) (e : error_info) (d : message_data) :
  list message_data * option exn := (l ++ [d], None).
Definition c0 : helper (list message_data) := construct (ThreadPool.construct 2) [].
Definition c1 := async_send (async_send (start c0) (Some [Byte.x01]) 1%positive) (Some [Byte.x02]) 2%positive.
Definition c2 : helper (list message_data) :=
  match on_read processor c1 None (Some [Byte.x11]) with Some (c, _) => c | None => c1 end.

Lemma python_client_reads_once_witness :
  objects c2 = [Some [Byte.x11]] ∧ length (written c2) = 2%nat ∧
  on_read processor c2 None (Some [Byte.x12]) = None.
Proof.
  split; [reflexivity|]. split; [reflexivity|].
  apply (python_client_reads_once processor c2 1 [(None, Some [Byte.x11])]); [|reflexivity].
  apply (helper_read processor c1 1 [] c2 None (Some [Byte.x11]) None); [|reflexivity].
  do 2 apply helper_send. apply helper_start, helper_new.
Defined.
End sample_client.
End python_client.

(** ** [python_server_helper] *)

Module python_server.
Section helper.
Context {W : Type}.

(** Processing a message: the calls of the handler that it makes before it returns, and the
    exception that it raises. *)
Context (message_processor_ : session → message_data → W → list handler_args * option exn * W).

(** The helper has no state of its own; it posts the data as it was read. *)
Definition helper : Type := server_base () message_data W.

Definition async_process_message (sv : helper) (s : session) (data : message_data) :
    helper * option exn :=
  (post sv (process_task s data), None).

Definition call_handler (s : session) (sv : helper) (args : handler_args) : helper :=
  on_execution sv s args.

(** The function that is posted: both [catch] clauses report to the same handler. *)
Definition process_message (sv : helper) (s : session) (data : message_data) :
    option (helper * option exn) :=
  let '(calls, raised, w) := message_processor_ s data (world sv) in
  let sv := fold_left (call_handler s) calls (set_world sv w) in
  Some (match raised with
        | None => sv
        | Some (mprpc_exception info) => call_handler s sv (info, false, None)
        | Some e =>
            call_handler s sv
              (error_info_ops.make error_code.unexpected_error (exception_ops.what e), false, None)
        end, None).

Definition on_read : helper → session → error_info → message_data → helper * option exn :=
  base_on_read async_process_message (λ sv s, (do_read sv s, None)).
Definition on_accept : helper → acceptor → error_info → session → helper * option exn :=
  on_accept_with (λ sv s, (do_read sv s, None)).
Definition run_task : helper → option (helper * option exn) := run_base_task process_message.

(** ** What is sent *)

(** The responses among the calls of a handler. *)
Definition responses (s : session) (calls : list handler_args) : list (session * message_data) :=
  omap (λ '(error, response_exists, response),
    if negb (error_info_ops.has_error error) && response_exists then Some (s, response) else None) calls.

Definition add_writes (sv : helper) (l : list (session * message_data)) : helper :=
  mk_server (derived_ sv) (acceptors_ sv) (sessions_ sv) (accepting sv) (reading sv)
    (tasks sv) (writes sv ++ l) (shutdowns sv) (threads_started sv) (world sv).

Lemma add_writes_nil sv : add_writes sv [] = sv.
Proof. destruct sv. unfold add_writes. simpl. by rewrite app_nil_r. Qed.

Lemma call_handler_spec s sv args : call_handler s sv args = add_writes sv (responses s [args]).
Proof.
  destruct args as [[error ex] d]. unfold call_handler, on_execution. simpl.
  destruct (error_info_ops.has_error error), ex; simpl; by rewrite ?add_writes_nil.
Qed.

Lemma call_handlers_spec s calls sv :
  fold_left (call_handler s) calls sv = add_writes sv (responses s calls).
Proof.
  revert sv. induction calls as [|args calls IH]; intros sv; [by rewrite add_writes_nil|].
  change (args :: calls) with ([args] ++ calls). unfold responses. rewrite omap_app.
  change (fold_left (call_handler s) calls (call_handler s sv args) =
    add_writes sv (responses s [args] ++ responses s calls)).
  rewrite IH, call_handler_spec. unfold add_writes. simpl. by rewrite <-app_assoc.
Qed.

Lemma silent_call s sv info : call_handler s sv (info, false, None) = sv.
Proof. rewrite call_handler_spec. simpl. rewrite andb_false_r. apply add_writes_nil. Qed.

Lemma process_message_spec sv s data calls raised w :
  message_processor_ s data (world sv) = (calls, raised, w) →
  process_message sv s data = Some (add_writes (set_world sv w) (responses s calls), None).
Proof.
  intros Hp. unfold process_message. rewrite Hp, call_handlers_spec.
  by destruct raised as [[]|]; rewrite ?silent_call.
Qed.

(** ** Histories *)

(** The messages read and the messages processed, in order. Handlers may also be called later,
    from other threads. *)
Inductive server_history : helper → list (session * message_data) → list (session * message_data) → Prop :=
| server_new acceptors sv w :
    construct_base (Some ()) acceptors () w = Ok sv → server_history sv [] []
| server_start sv r p : server_history sv r p → server_history (ServerBase.start sv) r p
| server_stop sv r p : server_history sv r p → server_history (ServerBase.stop sv) r p
| server_accept sv r p a error s sv' e :
    server_history sv r p → on_accept sv a error s = (sv', e) → server_history sv' r p
| server_read sv r p s data sv' e :
    server_history sv r p → on_read sv s error_info_ops.no_error data = (sv', e) →
    server_history sv' (r ++ [(s, data)]) p
| server_read_error sv r p s error data sv' e :
    server_history sv r p → error_info_ops.has_error error = true →
    on_read sv s error data = (sv', e) → server_history sv' r p
| server_run sv r p t ts sv' e :
    server_history sv r p → tasks sv = t :: ts → run_task sv = Some (sv', e) →
    server_history sv' r (p ++ match t with process_task s d => [(s, d)] | remove_task _ => [] end)
| server_late sv r p s args :
    server_history sv r p → server_history (call_handler s sv args) r p.

(** The messages in the queue of the thread pool. *)
Definition queued (l : list (base_task message_data)) : list (session * message_data) :=
  omap (λ t, match t with process_task s d => Some (s, d) | remove_task _ => None end) l.

Lemma queued_app l l' : queued (l ++ l') = queued l ++ queued l'.
Proof. apply omap_app. Qed.

Lemma run_task_queued sv t ts sv' e :
  tasks sv = t :: ts → run_task sv = Some (sv', e) → tasks sv' = ts ∧ e = None.
Proof.
  intros Ht. unfold run_task, run_base_task. rewrite Ht. destruct t as [s d|s].
  - destruct (message_processor_ s d (world sv)) as [[calls raised] w] eqn:Ep.
    rewrite (process_message_spec (set_tasks sv ts) s d calls raised w Ep). by intros [= <- <-].
  - by intros [= <- <-].
Qed.

Lemma history_queued sv r p : server_history sv r p → r = p ++ queued (tasks sv).
Proof.
  induction 1 as [acceptors sv w Hc|sv r p _ IH|sv r p _ IH|sv r p a error s sv' e _ IH Ha
    |sv r p s data sv' e _ IH Hr|sv r p s error data sv' e _ IH He Hr|sv r p t ts sv' e _ IH Ht Hr
    |sv r p s args _ IH].
  - unfold construct_base in Hc. simpl in Hc. destruct (check_acceptors acceptors); [|done].
    by injection Hc as <-.
  - by rewrite base_start_tasks.
  - done.
  - unfold on_accept, on_accept_with in Ha. by destruct (error_info_ops.has_error error); injection Ha as <- _.
  - unfold on_read, base_on_read in Hr. injection Hr as <- _. simpl. by rewrite queued_app, IH, app_assoc.
  - unfold on_read, base_on_read in Hr. rewrite He in Hr. injection Hr as <- _. simpl.
    rewrite queued_app. simpl. by rewrite app_nil_r.
  - destruct (run_task_queued sv t ts sv' e Ht Hr) as [-> _]. rewrite IH, Ht, <-app_assoc. by destruct t.
  - rewrite call_handler_spec. done.
Qed.
End helper.
Arguments helper : clear implicits.

(** the server of the Python bindings contains what Python raises, and hides it: executing
    the function posted for a message never lets an exception out, so no thread of the pool is
    lost; the responses sent are exactly those that the processor passed to the handler before
    it returned or raised, in order; an exception adds none, so a request whose processing
    raises before it answers is never answered. *)
Theorem python_server_contains_exceptions {W}
    (processor : session → message_data → W → list handler_args * option exn * W)
    (sv : helper W) s data ts calls raised w :
  tasks sv = process_task s data :: ts → processor s data (world sv) = (calls, raised, w) →
  run_task processor sv = Some (add_writes (set_world (set_tasks sv ts) w) (responses s calls), None).
Proof.
  intros Ht Hp. unfold run_task, run_base_task. rewrite Ht. by eapply process_message_spec.
Qed.

(** every message that a session of the Python server delivers is processed once, in the
    order in which the messages were read, whatever the interleaving with accepted sessions,
    read errors, stops and late answers: the messages read are those processed followed by
    those in the queue, no exception leaves [on_read], and the session goes on being read. *)
Theorem python_server_in_order {W}
    (processor : session → message_data → W → list handler_args * option exn * W)
    (sv : helper W) r p :
  server_history processor sv r p →
  r = p ++ queued (tasks sv) ∧
  (∀ s data, on_read sv s error_info_ops.no_error data =
    (do_read (post sv (process_task s data)) s, None)) ∧
  (∀ sv' e, run_task processor sv = Some (sv', e) → e = None).
Proof.
  intros Hh. split; [by eapply history_queued|]. split; [done|]. intros sv' e Hr.
  destruct (tasks sv) as [|t ts] eqn:Et.
  - unfold run_task, run_base_task in Hr. rewrite Et in Hr. by injection Hr as _ <-.
  - by destruct (run_task_queued processor sv t ts sv' e Et Hr).
Qed.

(** A processor that answers, then raises. *)
Module sample_server.
Definition processor (s : session) (d : message_data) (w : nat) :
    list handler_args * option exn * nat :=
  match d with
  | Some (_ :: _) => ([(error_info_ops.no_error, true, Some [Byte.x2a])], Some (std_runtime_error "late"), S w)
  | _ => ([], Some (std_runtime_error "early"), w)
  end.
Definition sv0 : helper nat := mk_server () [1%positive] ∅ [] [] [] [] [] false 0%nat.
Definition sv1 : helper nat := (on_accept (ServerBase.start sv0) 1%positive None 5%positive).1.
Definition sv2 : helper nat := (on_read sv1 5%positive None (Some [Byte.x01])).1.
Definition sv3 : helper nat := (on_read sv2 5%positive None None).1.

Lemma server_history3 :
  server_history processor sv3 [(5%positive, Some [Byte.x01]); (5%positive, None)] [].
Proof.
  pose proof (server_new processor [Some 1%positive] sv0 0%nat eq_refl) as H0.
  pose proof (server_start processor _ _ _ H0) as H0'.
  pose proof (server_accept processor _ _ _ 1%positive None 5%positive sv1 None H0' eq_refl) as H1.
  pose proof (server_read processor _ _ _ 5%positive (Some [Byte.x01]) sv2 None H1 eq_refl) as H2.
  exact (server_read processor _ _ _ 5%positive None sv3 None H2 eq_refl).
Qed.

Lemma python_server_contains_exceptions_witness :
  run_task processor sv2 =
  Some (add_writes (set_world (set_tasks sv2 []) 1%nat) [(5%positive, Some [Byte.x2a])], None).
Proof.
  exact (python_server_contains_exceptions processor sv2 5%positive (Some [Byte.x01]) []
    [(error_info_ops.no_error, true, Some [Byte.x2a])] (Some (std_runtime_error "late")) 1%nat eq_refl eq_refl).
Defined.

Lemma python_server_in_order_witness :
  [(5%positive, Some [Byte.x01]); (5%positive, None)] = [] ++ queued (tasks sv3) ∧
  (∃ sv', run_task processor sv3 = Some (sv', None)).
Proof.
  destruct (python_server_in_order processor sv3 _ [] server_history3) as (Hq & _ & Hr).
  split; [exact Hq|]. destruct (run_task processor sv3) as [[sv' e]|] eqn:E; [|discriminate E].
  exists sv'. by rewrite (Hr sv' e eq_refl).
Defined.
End sample_server.

(** ** [create] *)

Section create.
Context {CCtx DCtx Address W : Type}.
Context (lib : zstd_library CCtx DCtx) (alloc_ok : Z → bool) (zmin zmax : Z).
Context (net : network Address).

(** The helper, its thread pool and its acceptors; nothing is started. *)
Record built_helper := mk_built_helper {
  bh_helper : helper W;
  bh_threads : thread_pool (base_task message_data);
  bh_acceptors : list (any_acceptor (CCtx := CCtx) (DCtx := DCtx) (Address := Address) zmin zmax);
}.

Definition create (c : server_config zmin zmax) (w : W) : attempt built_helper :=
  let threads := ThreadPool.construct (Z.to_nat (value_ (server_num_threads _ _ c))) in
  if (length (tcp_acceptors _ _ c) + length (udp_acceptors _ _ c) =? 0)%nat then
    Some (throw_error error_code.invalid_config_value "no acceptors")
  else
    let* (tcps, held) := listen_tcp_all zmin zmax net [] (tcp_acceptors _ _ c) in
    let* udps := listen_udp_all lib alloc_ok zmin zmax net held (udp_acceptors _ _ c) in
    let acceptors := tcps ++ udps in
    let* sv := Some (construct_base (Some ())
                 (map (λ i, Some (acceptor_at i)) (seq 0 (length acceptors))) () w) in
    Some (Ok (mk_built_helper sv threads acceptors)).
End create.

(** Python servers listen as C++ servers do: for every configuration,
    [python_server_helper::create] and [server_builder::create] with any methods either both
    fail with the same exception, or open the same acceptors in the same order with the same
    number of threads, and the Python server accepts on all of them once it is started. *)
Theorem python_create_equivalent {CCtx DCtx Address W} (lib : zstd_library CCtx DCtx) alloc_ok zmin zmax
    (net : network Address) (c : server_config zmin zmax) (methods : list (method_executor W)) (w : W) :
  match create lib alloc_ok zmin zmax net c w,
        create_server lib alloc_ok zmin zmax net (mk_server_builder zmin zmax c methods) w with
  | Some (Ok p), Some (Ok b) =>
      bh_acceptors _ _ p = bs_acceptors _ _ b ∧
      ThreadPool.live (ThreadPool.start (bh_threads _ _ p)) = ThreadPool.live (bs_threads _ _ b) ∧
      accepting (bh_helper _ _ p) = [] ∧
      accepting (ServerBase.start (bh_helper _ _ p)) = accepting (bs_server _ _ b)
  | Some (Throw e), Some (Throw e') => e = e'
  | None, None => True
  | _, _ => False
  end.
Proof.
  unfold create, create_server. simpl server_config_. simpl sb_methods.
  destruct (construct_methods_Some methods []) as [ms ->]. cbn [attempt_bind].
  destruct (_ =? 0)%nat; [done|].
  destruct (listen_tcp_all _ _ _ _ _) as [[[tcps held]|e]|]; cbn [attempt_bind]; [|done..].
  destruct (listen_udp_all _ _ _ _ _ _ _) as [[udps|e]|]; cbn [attempt_bind]; [|done..].
  unfold construct_server, construct_base. simpl. rewrite check_acceptors_Some. simpl.
  split_and!; [done|done|done|]. rewrite !base_start_accepts. done.
Qed.
End python_server.
